(* ===== verification/_CoqProject ===== *)
-Q . S2P
Prelude.v
Time.v
Libp2p.v
PeerInfo.v
AddressHandler.v
Peers.v
PeersInv.v
PeersProps.v
Protocols.v
Behaviour.v
Net.v
Service.v
NetInv.v
NetProps.v
NetAnswers.v
Config.v
Cli.v
CliProps.v
Growth.v
Db.v
Pins.v
Cache.v
StoreTests.v
Metrics.v
Ipfs.v
NodeTests.v
BookTests.v
Caller.v
System.v
SyncSystem.v
SharedVar.v
Locks.v
HashEquiv.v
Executor.v
Lifetime.v
Main.v
Args.v
TestTree.v
Exchange.v
Gossip.v
Examples.v
Restart.v
Harness.v
Discovery.v
NetSim.v
SimOpen.v
