(* ===== verification/Prelude.v ===== *)
(** * A verification of ipfs-embed

    ipfs-embed is a small IPFS node to be embedded in other programs.  This
    development models its own logic and proves what makes it correct.  The
    protocol libraries it composes (libp2p, bitswap, gossipsub, broadcast,
    kademlia), the block store, the channels, the clock and the random generator
    are parameters; what the program relies on from them is stated as named laws,
    and each interface has a concrete instance that satisfies its laws.

    ** The program and the files that model it

    - A caller holds an [Ipfs] (src/lib.rs): the handle of the network task and a
      storage service.  File [Ipfs] models its start ([ipfs_new]), the operations
      that combine the two ([fetch]: local block, else bitswap, else an error;
      [sync]) and those that delegate, and the traits through which callers and
      bitswap use it (classes [IpldStore] with [IpldStoreLaws], [BitswapStore]).
      File [Caller] puts a caller, the command channel, the network task and the store
      beside each other: class [Caller] is a future that asks the task one thing,
      [sys_step] a step of any of the parts, labelled with what the task took and handled
      ([sys_trace]); file [Growth] has what steps of the task never take back.  File
      [System] is this for [fetch] ([fetch_poll]), file [SyncSystem] for [sync]
      ([sync_poll]).  File [Lifetime] follows the tasks of a node from [Ipfs::new0] to
      the end of its last clone, and has the tests of src/executor.rs.
    - [NetworkService] (src/net/mod.rs) turns a call into a [NetworkCommand] on a
      bounded channel, with a one-shot or unbounded channel for the answer.  File
      [Service] models the calls ([svc_...]), [handle_send_result], and the
      futures [GetQuery] and [SyncQuery] with their [Drop]s.  File [Config] models
      its configuration (src/net/config.rs) and its start ([service_new],
      [behaviour_new]).
    - The task [poll_swarm] (src/net/mod.rs) owns the swarm and handles one
      command or one swarm event per iteration.  File [Net]: [handle_command],
      [handle_swarm_event], [poll_swarm_step], [poll_swarm], and the helper task
      [forward_listener_events].
    - [NetworkBackendBehaviour] (src/net/behaviour.rs) composes the protocols with
      the address book and keeps the registry of running queries and the table of
      topic subscriptions.  File [Behaviour]: the state [Backend], one function
      per request ([get], [sync], [provide], [get_record], [subscribe], ...) and
      one per event handler ([inject_kad_event], [inject_bitswap_event], ...).
    - The address book (src/net/peers.rs) remembers the addresses of peers,
      validates them by dialling, and reports what happens.  File [Peers]: the
      state [AddressBook] and every operation ([add_address], [set_info],
      [dial_failure], [prune_peers], [on_swarm_event], [poll], ...).  The record
      per peer (src/net/peer_info.rs) is file [PeerInfo], with Module [Rtt] for
      the round-trip statistics; the connection handler
      (src/net/address_handler.rs) is file [AddressHandler].
    - [StorageService] (src/db.rs) wraps the block store in transactions.  File
      [Db]: [open], [rw], the batch and service operations, [evict], the garbage
      collection round; [spec_op] and [spec_batch] are the abstract store.  File
      [Pins] adds what aliases protect from the collector, file [Cache] what eviction
      removes, file [Metrics] the
      metrics of src/db.rs and src/net/peers.rs, their registration, and
      src/telemetry.rs.
    - Background tasks are started by an [Executor] (src/executor.rs), chosen by the
      features of the crate: file [Executor].
    - The tables of the address book are shared with callers behind readers-writer
      locks (src/variable.rs).  File [SharedVar] is a machine of tasks that take
      such locks; file [Locks] gives the critical sections of every operation of
      the address book and of the calls that read.
    - The command line tool (cli/src) speaks a line protocol.  File [Cli]: printing
      and parsing of [Command] and [Event] (cli/src/lib.rs).  File [Main]: options,
      start-up, printing of events and the command loop (cli/src/main.rs).  File [Args]:
      the options as process arguments ([cli_args]) and what the parser that is derived
      from the fields of [Config] reads from them.
    - The tests build trees of blocks (src/test_util.rs): file [TestTree].  The tests
      of src/db.rs are in file [StoreTests], with a small logic for tests ([triple]);
      those of src/lib.rs in files [NodeTests] (one node, and two that synchronise),
      [Exchange] (blocks that travel between nodes, records) and [Gossip]; those of
      src/net/tests.rs in file [BookTests].  In a test the other nodes and the replies of
      the network task are arguments.
    - The examples: file [Examples] (examples/sync.rs, examples/compat.rs) and file
      [Restart] (examples/restart.rs).
    - The integration harness (harness/src) runs the tool on simulated machines: file
      [Harness] has the roles and configurations of the machines, deadlines, the
      waiting loops and the script of the bitswap test; file [Discovery] the scripts
      of the three discovery tests; file [NetSim] the build of the tool and the set-up of
      networks and machines ([build_bin], [run_netsim]) with the programs of these tests;
      file [SimOpen] the test for simultaneous open (harness/src/bin/sim_open.rs).

    File [Time] is [std::time::Duration] and the part of chrono that is used, at
    the width of the standard library.  Files [Libp2p] and [Protocols] declare
    the interfaces: classes [Libp2p], [Channels], [HashOrder], [Protocols] with
    their laws ([Libp2pLaws], [ChannelLaws], [HashOrderLaws], [ProtocolLaws]) and
    the instances of Modules [Sim] and [SimProtocols].  [SwarmOps] (file [Net]),
    [CommandChannel] and [Receivers] (file [Service]), [Builders] (file [Config]),
    [BlockStores] and [StoreFiles] (file [Db]), [CommandReceiver] and [BitswapIds]
    (file [Growth]), [Features] and [Runtimes] (file [Executor]), [Registries] (file
    [Metrics]), [CliText] (file [Cli]), [CliNode] (file [Main]), [StructOpt] with
    [StructOptLaws] (file [Args]), [TreeBlocks] (file
    [TestTree]), [ChainBlocks] (file [Examples]) and [Netsim] with [NetsimLaws] (file
    [NetSim]) are the interfaces local to one
    component; [StoreLaws], [DropLaws], [PinLaws], [FailureLaws], [CacheLaws], [MemoryLaws],
    [TempPinLaws] and [MissingLaws] are what the store promises; Modules [SimLru] of
    [Cache] and [SimPins] of [Pins] are stores that keep these promises.

    ** How the code is read

    - A panic ([unwrap], [expect], checked arithmetic of a debug build,
      [todo!]) is the value [Panic]; a function that cannot panic has a plain
      result.  [Profile] chooses between a debug and a release build.
    - A fallible call returns [result A E].
    - [&mut self] is explicit state passing.  A channel sender is a value with a
      queue; a one-shot sender is the name of its channel and what is sent on it,
      or that it is dropped unused, is recorded in [outbox].
    - A hash map is a [gmap], a hash set a [gset]; the order in which Rust
      iterates over them is the unspecified function of [HashOrder], of which
      only that it is a permutation of the elements is assumed.
    - The clock and the random generator are arguments; a function that reads
      them several times takes the sequence of readings.
    - Logging is left out; what an address book adds to the gauges and counters, which
      all books of a process share, is the record [Metrics], and [gauge] is the value of
      a gauge for several books.
    - The events of a machine in a test of the harness are what [recv] or [select] yield:
      an event, that it takes too long, or [None] once the machine is gone.

    ** What is proved

    - The address book ([PeersInv], [PeersProps]): [exec] runs any of its
      operations and [book_reachable] is what runs of them reach if they are [admissible]
      (round-trip times and failure counts in range, no connection to ourselves, handlers
      of the book, random numbers in range); then none of them
      panics, in a debug or a release build, and the invariant [book_wf]
      (addresses end in a peer id, the local peer is not in the
      book, at most ten failures per peer, retries within bounds) holds of every
      reachable book.  The effect of [add_address], [set_info], [dial_failure],
      [prune_peers], [notify], [poll] is stated on every branch; redials after a
      simultaneous open terminate.  [HashEquiv]: the books that result from two
      iteration orders of the hash maps are equal up to the order of dials and
      events ([book_equiv], with [Proper] instances).  [Locks]: whatever the task and
      its callers interleave, nobody gets stuck, callers see complete tables that
      satisfy the invariant, and the tables end as the operations leave them.
    - The network task ([NetInv], [NetProps], [NetAnswers]): no command and no
      event panics the task where its assumptions hold ([input_ok]: topics of
      broadcast messages are UTF-8, bitswap is enabled if it is used, round-trip
      times are in range), and [task_panics_iff] says exactly which inputs do; the ledger of channels shows that every
      channel of a query is either still registered, or was answered, or was
      dropped, and exactly one of these; the answer of each kind of query,
      quorum of records, subscriptions, bootstrap; a get query followed from its
      command to its answer through anything the task handles in between.
    - The clients ([NetProps]): a call is queued or fails at once; the future of
      a sync query returns its completion (and spins if there is none), the stream
      yields every event.
    - Peer records ([PeerInfo]): which source of an address wins, the bound and
      order of remembered failures, the statistics as sums over a run, and the bounds
      under which they do not overflow.
    - Storage and node ([Db], [Ipfs], [Config]): the storage service refines the
      abstract store, commits happen exactly on success, eviction terminates,
      [fetch] returns the block or says why not; a started node is in an initial
      state of the transition systems above; what a batch does on each of its error
      paths.  [Pins]: a tree below an alias survives any batches that leave the alias
      alone, collections and flushes, those that fail included ([storage_event]), and a
      tree that is inserted from its root is never collected meanwhile.  [Cache]: however its work
      is cut into rounds, eviction removes the unpinned blocks that were used the
      longest ago, and no more than the target asks for.
    - The node as a whole ([System], [SyncSystem]): in every interleaving of a caller of
      [fetch] or [sync] with other callers, the swarm and the collector the caller is
      never forgotten, is told the end of its own query and of no other, is served after
      the commands before its own, and can always finish.  [Executor] and [Lifetime]: which
      handles stop their tasks; a node ends with its last clone under async-global, and
      its network task never ends under tokio.
    - Line protocol and tool ([CliProps], [Main], [Args]): what is printed parses back, for
      commands and events; the lines of empty blocks and empty addresses, which panic the
      parser; a configuration is read back from its arguments; what the tool does at the
      end of its input and with its node name.
    - Tests ([TestTree], [StoreTests], [NodeTests], [Exchange], [Gossip], [BookTests],
      [Lifetime]): trees are complete and survive being inserted; no assertion of the tests
      of the storage and of the node fails on a store and a bitswap that keep their
      promises (what a test assumes of bitswap is a hypothesis of its theorem); exactly which event streams the gossip test accepts; the tests of the
      address book pass on a libp2p with the texts they expect; when the tests of the
      executor panic.
    - Examples ([Examples], [Restart]): an import under a temporary pin loses nothing to
      the collector and arrives on the other node, if bitswap delivers; nodes that are
      started and dropped leave no task behind but those their swarms have detached.
    - Harness ([Harness], [Discovery], [NetSim], [SimOpen]): every machine runs the tool
      with its own configuration, on its network, under the peer id the harness knows it
      by; exactly when the waiting loops end; how the test for simultaneous open ends, for
      anything that happens to the address books of both nodes; roles partition the
      machines; deadlines never overflow; what the bitswap test tells each machine; a
      session of the tool over its printed lines; what a passing run of a discovery test has
      established, which of these tests pass although all machines are gone, and that a
      consumer reports what the tests wait for.

    ** Fuel

    - [chase] of [PeersProps] follows the redials of one validation dial; its
      fuel is a number of rounds, and [redials_terminate] shows that any fuel
      above the number of retries left gives the same end.
    - [sync_query_poll] reads the queue of its channel: the fuel is one more than
      the queue, which [sync_query_poll_returns] shows to be enough.
    - [evict] repeats until the store reports that nothing is left to remove: the
      fuel is one more than the number of blocks ([evict_terminates]).
    - [poll_swarm] takes the list of what its two sources deliver and is
      structural on it.

    - [main_loop] makes as many iterations as it is given environments.

    - [evict] in a test runs with the fuel that [evict_returns] shows to be enough; a
      test that would exceed it ends with [Hangs], which its theorem excludes.

    ** What is not modelled

    The libraries behind the interfaces, among them bitswap and structopt, log set-up, the output of the examples
    and of the harness, the test of src/net/tests.rs that is commented out, and the tests
    of the command line protocol, which are instances of [command_round_trip] and
    [event_round_trip].  The tree builder of harness/src/lib.rs is a copy of that of
    src/test_util.rs and is not modelled twice.  Methods with empty bodies (the four
    [handle_*] methods of the address book, the callbacks of its connection handler) have no
    definition, and getters are the projections of their records.  In [Net] the network
    task owns its state, so that its behaviour is a sequence of steps, and what other tasks
    do while a future waits is an argument; [System], [SyncSystem] and [Locks]
    justify this for [fetch], [sync] and the shared tables by interleaving the parts.

    All code of the repository with logic of its own is modelled; what would come next is
    more of the libraries, such as the choice of providers in bitswap, whose sources are
    not part of this repository. *)
From stdpp Require Export strings gmap prelude.

Declare Scope ipfs_scope.
Delimit Scope ipfs_scope with ipfs.
Open Scope ipfs_scope.

(** ** Outcomes: a Rust computation returns or panics *)

Inductive outcome (A : Type) : Type :=
| Done (a : A)
| Panic (why : string).
Arguments Done {_} _.
Arguments Panic {_} _.

#[export] Instance outcome_ret : MRet outcome := fun A a => Done a.

#[export] Instance outcome_bind : MBind outcome := fun A B f m =>
  match m with Done a => f a | Panic s => Panic s end.

(** [Option::unwrap] and [Option::expect]. *)
Definition unwrap {A} (why : string) (o : option A) : outcome A :=
  match o with Some a => Done a | None => Panic why end.

(** A [for] loop whose body may panic. *)
Fixpoint foldM {A B} (f : B -> A -> outcome B) (b : B) (l : list A) : outcome B :=
  match l with
  | [] => Done b
  | x :: l' => b' ← f b x; foldM f b' l'
  end.

Definition is_done {A} (m : outcome A) : bool :=
  match m with Done _ => true | Panic _ => false end.

Notation "m '↓' a" := (m = Done a) (at level 70, no associativity) : ipfs_scope.

(** ** Results: Rust's [Result<A, E>] *)

Inductive result (A E : Type) : Type :=
| Ok (a : A)
| Err (e : E).
Arguments Ok {_ _} _.
Arguments Err {_ _} _.

(** The [?] operator. *)
Definition result_bind {A B E} (m : result A E) (k : A -> result B E) : result B E :=
  match m with Ok a => k a | Err e => Err e end.
Notation "x ←? m ; k" := (result_bind m (fun x => k))
  (at level 20, m at level 100, k at level 200, right associativity) : ipfs_scope.
Notation "' x ←? m ; k" := (result_bind m (fun x => k))
  (at level 20, x pattern, m at level 100, k at level 200, right associativity) : ipfs_scope.

Definition is_ok {A E} (r : result A E) : bool :=
  match r with Ok _ => true | Err _ => false end.

(** Rust's [Poll]. *)
Inductive Poll (A : Type) : Type := Ready (a : A) | Pending.
Arguments Ready {_} _.
Arguments Pending {_}.

(** ** Machine integers *)

Definition U8_MAX : Z := 255.
Definition U16_MAX : Z := 65535.
Definition U32_MAX : Z := 4294967295.
Definition U64_MAX : Z := 18446744073709551615.

(** The build profile: a debug build checks arithmetic overflow and runs
    [debug_assert!], a release build wraps and skips them. *)
Class Profile := { debug_build : bool }.

(** [debug_assert!(b)] before [m]. *)
Definition debug_assert `{Profile} {A} (b : bool) (m : outcome A) : outcome A :=
  if debug_build && negb b then Panic "debug assertion failed" else m.

(** Unsigned 32-bit addition and multiplication. *)
Definition add_u32 `{Profile} (a b : Z) : outcome Z :=
  if decide (a + b <= U32_MAX)%Z then Done (a + b)%Z
  else if debug_build then Panic "attempt to add with overflow"
  else Done ((a + b) `mod` (U32_MAX + 1))%Z.

Definition mul_u32 `{Profile} (a b : Z) : outcome Z :=
  if decide (a * b <= U32_MAX)%Z then Done (a * b)%Z
  else if debug_build then Panic "attempt to multiply with overflow"
  else Done ((a * b) `mod` (U32_MAX + 1))%Z.

(** ** Automation shared by the components *)

Create HintDb ipfs.

(** Splits a bind that is known to return into its two steps. *)
Lemma bind_Done {A B} (m : outcome A) (f : A -> outcome B) (b : B) :
  (m ≫= f) ↓ b <-> exists a, m ↓ a /\ f a ↓ b.
Proof. destruct m as [a|s]; cbn; split; [eauto | by intros (? & [= ->] & ?) | done | by intros (? & ? & ?)]. Qed.

Lemma debug_assert_true `{Profile} {A} b (m : outcome A) : b = true -> debug_assert b m = m.
Proof. intros ->. unfold debug_assert. by rewrite andb_false_r. Qed.

Lemma unwrap_Done {A} why (o : option A) a : unwrap why o ↓ a <-> o = Some a.
Proof. destruct o; cbn; naive_solver. Qed.

Lemma add_u32_small `{Profile} a b : (a + b <= U32_MAX)%Z -> add_u32 a b ↓ (a + b)%Z.
Proof. intros Hle. unfold add_u32. by rewrite decide_True. Qed.

Lemma mul_u32_small `{Profile} a b : (a * b <= U32_MAX)%Z -> mul_u32 a b ↓ (a * b)%Z.
Proof. intros Hle. unfold mul_u32. by rewrite decide_True. Qed.

(** Takes apart every hypothesis that says a computation returned. *)
Ltac outcome_inv :=
  repeat match goal with
  | H : (_ ≫= _) ↓ _ |- _ => apply bind_Done in H as (? & ? & ?)
  | H : unwrap _ _ ↓ _ |- _ => apply unwrap_Done in H
  | H : Done _ ↓ _ |- _ => injection H as H; try subst
  | H : Panic _ ↓ _ |- _ => discriminate H
  | H : mret _ ↓ _ |- _ => injection H as H; try subst
  end.

(** The loop rule: a body that returns and keeps [P] makes a loop that returns
    and keeps [P]. *)
Lemma foldM_invariant {A B} (f : B -> A -> outcome B) (P : B -> Prop) l b :
  P b ->
  (forall b' x, x ∈ l -> P b' -> exists b'', f b' x ↓ b'' /\ P b'') ->
  exists b', foldM f b l ↓ b' /\ P b'.
Proof.
  revert b. induction l as [|x l IH]; intros b Hb Hf; cbn; [by eauto|].
  destruct (Hf b x) as (b1 & E1 & Hb1); [set_solver | done |].
  rewrite E1. cbn. apply IH; [done|]. intros b' y Hy. apply Hf. set_solver.
Qed.

(** Partial version of the loop rule, for a loop already known to return. *)
Lemma foldM_preserves {A B} (f : B -> A -> outcome B) (P : B -> Prop) l b b' :
  foldM f b l ↓ b' ->
  P b ->
  (forall c x c', x ∈ l -> P c -> f c x ↓ c' -> P c') ->
  P b'.
Proof.
  revert b. induction l as [|x l IH]; cbn; intros b E Hb Hf; outcome_inv; [done|].
  eapply IH; [done | eapply Hf; [|done..]; set_solver |].
  intros c y c' Hy. apply Hf. set_solver.
Qed.

Lemma foldM_app {A B} (f : B -> A -> outcome B) b l1 l2 :
  foldM f b (l1 ++ l2) = (b' ← foldM f b l1; foldM f b' l2).
Proof.
  revert b. induction l1 as [|x l1 IH]; intros b; cbn; [done|].
  destruct (f b x) as [c|s]; cbn; [apply IH | done].
Qed.

(** Ordinary loops over a state. *)
Lemma foldl_invariant {A B} (f : B -> A -> B) (P : B -> Prop) l b :
  P b -> (forall b' x, x ∈ l -> P b' -> P (f b' x)) -> P (foldl f b l).
Proof.
  revert b. induction l as [|x l IH]; intros b Hb Hf; cbn; [done|].
  apply IH; [apply Hf; set_solver|]. intros b' y Hy. apply Hf. set_solver.
Qed.

(** ** Lists *)

(** The last element, as [iter().last()] finds it. *)
Lemma last_app_one {A} (l : list A) x : last (l ++ [x]) = Some x.
Proof. apply last_snoc. Qed.

Lemma last_insert_lt {A} (l : list A) i x :
  S i < length l -> last (<[i:=x]> l) = last l.
Proof.
  intros H. rewrite !last_lookup, length_insert.
  apply list_lookup_insert_ne. lia.
Qed.

(** [take n] of a list that is one longer. *)
Lemma take_length_pred {A} (l : list A) x : take (length (l ++ [x]) - 1) (l ++ [x]) = l.
Proof. rewrite length_app. cbn. rewrite take_app_le by lia. apply take_ge. lia. Qed.

Lemma list_snoc_of_last {A} (l : list A) x :
  last l = Some x -> l = take (length l - 1) l ++ [x].
Proof.
  intros H. apply last_Some in H as [l' ->]. by rewrite take_length_pred.
Qed.

Lemma list_filter_ext_in {A} (P Q : A -> Prop) `{!forall x, Decision (P x), !forall x, Decision (Q x)} (l : list A) :
  (forall x, x ∈ l -> P x <-> Q x) -> filter P l = filter Q l.
Proof.
  induction l as [|x l IH]; intros HPQ; [done|]. rewrite !filter_cons.
  assert (P x <-> Q x) by (apply HPQ; set_solver).
  rewrite IH by (intros; apply HPQ; set_solver). repeat case_decide; tauto.
Qed.

Lemma list_filter_all {A} (P : A -> Prop) `{!forall x, Decision (P x)} (l : list A) :
  Forall P l -> filter P l = l.
Proof. induction 1 as [|x l Hx _ IH]; [done|]. by rewrite filter_cons, decide_True, IH. Qed.

Lemma list_filter_none {A} (P : A -> Prop) `{!forall x, Decision (P x)} (l : list A) :
  (forall x, x ∈ l -> ~ P x) -> filter P l = [].
Proof.
  induction l as [|x l IH]; intros Hno; [done|].
  rewrite filter_cons, decide_False by (apply Hno; set_solver). apply IH. set_solver.
Qed.

(** Numbering a list and forgetting the numbers. *)
Definition number {A} (l : list A) : list (nat * A) := imap (fun n x => (n, x)) l.

Lemma number_fmap {A D} (g : A -> D) (l : list A) : (fun nx => g nx.2) <$> number l = g <$> l.
Proof.
  unfold number. rewrite fmap_imap.
  assert (H : forall h : nat -> A -> D, (forall n x, h n x = g x) -> imap h l = g <$> l).
  { induction l as [|x l IH]; intros h Hh; [done|]. cbn. rewrite Hh. f_equal. apply IH. intros. apply Hh. }
  by apply H.
Qed.

Lemma number_snd {A} (l : list A) : (number l).*2 = l.
Proof. rewrite <- (list_fmap_id l) at 2. apply (number_fmap id). Qed.

Lemma number_filter {A D} (g : A -> D) (Q : A -> bool) (l : list A) :
  (fun nx => g nx.2) <$> filter (fun nx => Q nx.2 = true) (number l) = g <$> filter (fun x => Q x = true) l.
Proof.
  rewrite <- (number_snd l) at 2.
  generalize (number l). clear l. intros l.
  induction l as [|[n x] l IH]; [done|]. cbn [fmap list_fmap]. rewrite !filter_cons. cbn [snd].
  case_decide; cbn; by rewrite IH.
Qed.

#[export] Hint Resolve last_app_one : ipfs.
