(* ===== verification/Time.v ===== *)
(** * Durations and instants

    [std::time::Duration] as the standard library keeps it (whole seconds in a
    [u64] and a nanosecond part below one second), with the checked operations
    behind its [+], [*] and [/], and the part of [chrono] the address book
    reads.  The arithmetic is proved to be the arithmetic of nanosecond counts. *)
From S2P Require Import Prelude.
Local Open Scope Z_scope.

Definition NANOS_PER_SEC : Z := 1000000000.

Record Duration := mkDuration { secs : Z; nanos : Z }.

#[export] Instance Duration_eq_dec : EqDecision Duration.
Proof. solve_decision. Defined.

(** The invariant every [Duration] value has. *)
Definition dur_wf (d : Duration) : Prop :=
  0 <= secs d <= U64_MAX /\ 0 <= nanos d < NANOS_PER_SEC.

Definition as_nanos (d : Duration) : Z := secs d * NANOS_PER_SEC + nanos d.

(** The largest count of nanoseconds a [Duration] holds. *)
Definition MAX_NANOS : Z := U64_MAX * NANOS_PER_SEC + (NANOS_PER_SEC - 1).

Definition ZERO : Duration := mkDuration 0 0.
Definition from_secs (s : Z) : Duration := mkDuration s 0.

Definition checked_add (a b : Duration) : option Duration :=
  let s := secs a + secs b in
  if decide (s <= U64_MAX) then
    let n := nanos a + nanos b in
    if decide (NANOS_PER_SEC <= n) then
      if decide (s + 1 <= U64_MAX) then Some (mkDuration (s + 1) (n - NANOS_PER_SEC))
      else None
    else Some (mkDuration s n)
  else None.

Definition checked_mul (a : Duration) (k : Z) : option Duration :=
  let total := nanos a * k in
  let extra := total `div` NANOS_PER_SEC in
  let n := total `mod` NANOS_PER_SEC in
  if decide (secs a * k <= U64_MAX) then
    if decide (secs a * k + extra <= U64_MAX) then Some (mkDuration (secs a * k + extra) n)
    else None
  else None.

Definition checked_div (a : Duration) (k : Z) : option Duration :=
  if decide (k = 0) then None
  else
    let s := secs a `div` k in
    let extra_s := secs a `mod` k in
    let n := nanos a `div` k in
    let extra_n := nanos a `mod` k in
    Some (mkDuration s (n + (extra_s * NANOS_PER_SEC + extra_n) `div` k)).

(** The operators panic where the checked operation fails. *)
Definition dur_add (a b : Duration) : outcome Duration :=
  unwrap "overflow when adding durations" (checked_add a b).
Definition dur_mul (a : Duration) (k : Z) : outcome Duration :=
  unwrap "overflow when multiplying duration by scalar" (checked_mul a k).
Definition dur_div (a : Duration) (k : Z) : outcome Duration :=
  unwrap "divide by zero error when dividing duration by scalar" (checked_div a k).

(** The derived (lexicographic) order. *)
Definition dur_lt (a b : Duration) : Prop :=
  secs a < secs b \/ (secs a = secs b /\ nanos a < nanos b).

#[export] Instance dur_lt_dec a b : Decision (dur_lt a b).
Proof. unfold dur_lt. apply _. Defined.

Definition dur_max (a b : Duration) : Duration := if decide (dur_lt b a) then a else b.

(** ** The operations count nanoseconds *)

Lemma as_nanos_inj a b : dur_wf a -> dur_wf b -> as_nanos a = as_nanos b -> a = b.
Proof.
  destruct a as [s n], b as [s' n']. unfold dur_wf, as_nanos, NANOS_PER_SEC. cbn.
  intros ?? E. assert (s = s') by lia. subst. f_equal. lia.
Qed.

Lemma as_nanos_bounds d : dur_wf d -> 0 <= as_nanos d <= MAX_NANOS.
Proof.
  destruct d as [s n]. unfold dur_wf, as_nanos, MAX_NANOS, U64_MAX, NANOS_PER_SEC. cbn. lia.
Qed.

Lemma dur_lt_nanos a b : dur_wf a -> dur_wf b -> dur_lt a b <-> as_nanos a < as_nanos b.
Proof.
  destruct a as [s n], b as [s' n']. unfold dur_wf, dur_lt, as_nanos, NANOS_PER_SEC. cbn. lia.
Qed.

Lemma dur_add_nanos a b :
  dur_wf a -> dur_wf b -> as_nanos a + as_nanos b <= MAX_NANOS ->
  exists c, dur_add a b ↓ c /\ dur_wf c /\ as_nanos c = as_nanos a + as_nanos b.
Proof.
  destruct a as [s n], b as [s' n'].
  unfold dur_wf, as_nanos, dur_add, checked_add, MAX_NANOS, U64_MAX, NANOS_PER_SEC. cbn.
  intros Ha Hb Hle.
  rewrite decide_True by lia. case_decide.
  - rewrite decide_True by lia. eexists. split; [done|]. cbn. lia.
  - eexists. split; [done|]. cbn. lia.
Qed.

Lemma dur_mul_nanos a k :
  dur_wf a -> 0 <= k -> as_nanos a * k <= MAX_NANOS ->
  exists c, dur_mul a k ↓ c /\ dur_wf c /\ as_nanos c = as_nanos a * k.
Proof.
  destruct a as [s n].
  unfold dur_wf, as_nanos, dur_mul, checked_mul, MAX_NANOS, U64_MAX, NANOS_PER_SEC. cbn.
  intros Ha Hk Hle.
  assert (0 <= s * k) by nia. assert (0 <= n * k) by nia.
  pose proof (Z.div_mod (n * k) 1000000000 ltac:(lia)) as Hdm.
  pose proof (Z.mod_pos_bound (n * k) 1000000000 ltac:(lia)) as Hm.
  assert (0 <= (n * k) `div` 1000000000) by (apply Z.div_pos; lia).
  set (q := (n * k) `div` 1000000000) in *. set (r := (n * k) `mod` 1000000000) in *.
  rewrite !decide_True by lia. eexists. split; [done|]. cbn. lia.
Qed.

Lemma dur_mul_overflow a k :
  dur_wf a -> 0 <= k -> MAX_NANOS < as_nanos a * k -> is_done (dur_mul a k) = false.
Proof.
  destruct a as [s n].
  unfold dur_wf, as_nanos, dur_mul, checked_mul, MAX_NANOS, U64_MAX, NANOS_PER_SEC. cbn. intros Ha Hk Hlt.
  pose proof (Z.div_mod (n * k) 1000000000 ltac:(lia)) as Hdm.
  pose proof (Z.mod_pos_bound (n * k) 1000000000 ltac:(lia)) as Hm.
  set (q := (n * k) `div` 1000000000) in *. set (r := (n * k) `mod` 1000000000) in *.
  repeat (case_decide; [|done]). exfalso. lia.
Qed.

Lemma dur_div_nanos a k :
  dur_wf a -> 0 < k ->
  exists c, dur_div a k ↓ c /\ dur_wf c /\ as_nanos c = as_nanos a `div` k.
Proof.
  destruct a as [s n].
  unfold dur_wf, as_nanos, dur_div, checked_div, U64_MAX, NANOS_PER_SEC. cbn.
  intros Ha Hk. rewrite decide_False by lia. eexists. split; [done|]. cbn.
  pose proof (Z.div_mod s k ltac:(lia)) as Hs. pose proof (Z.mod_pos_bound s k ltac:(lia)) as Hs'.
  pose proof (Z.div_mod n k ltac:(lia)) as Hn. pose proof (Z.mod_pos_bound n k ltac:(lia)) as Hn'.
  set (qs := s `div` k) in *. set (rs := s `mod` k) in *.
  set (qn := n `div` k) in *. set (rn := n `mod` k) in *.
  set (x := rs * 1000000000 + rn).
  pose proof (Z.div_mod x k ltac:(lia)) as Hx. pose proof (Z.mod_pos_bound x k ltac:(lia)) as Hx'.
  assert (Hq : (s * 1000000000 + n) `div` k = qs * 1000000000 + (qn + x `div` k)).
  { symmetry. apply (Z.div_unique _ _ _ (x `mod` k)); [lia|]. subst x. nia. }
  assert (0 <= qs) by (subst qs; apply Z.div_pos; lia).
  assert (0 <= qn) by (subst qn; apply Z.div_pos; lia).
  assert (0 <= x `div` k) by (apply Z.div_pos; subst x; lia).
  rewrite Hq. repeat split; [lia | nia | lia |].
  (* the whole remainder is below k seconds *)
  assert (k * (qn + x `div` k) < k * 1000000000); [|nia].
  subst x. nia.
Qed.

Lemma dur_max_nanos a b :
  dur_wf a -> dur_wf b -> as_nanos (dur_max a b) = as_nanos a `max` as_nanos b.
Proof.
  intros Ha Hb. unfold dur_max. case_decide as H; rewrite dur_lt_nanos in H by done; lia.
Qed.

Lemma dur_max_wf a b : dur_wf a -> dur_wf b -> dur_wf (dur_max a b).
Proof. intros Ha Hb. unfold dur_max. by case_decide. Qed.

#[export] Hint Resolve as_nanos_bounds dur_max_wf : ipfs.

(** ** The part of [chrono] the program reads

    [DateTime<Utc>] with [latter.signed_duration_since(former).to_std()]: [None]
    when [former] lies after [latter]. *)
Class Chrono := {
  DateTime : Type;
  DateTime_eq_dec :: EqDecision DateTime;
  std_since : DateTime -> DateTime -> option Duration  (* latter, former *)
}.

(** Instants as nanosecond counts: an instance of the interface. *)
Definition utc_since (latter former : Z) : option Duration :=
  if decide (former <= latter)
  then Some (mkDuration ((latter - former) `div` NANOS_PER_SEC) ((latter - former) `mod` NANOS_PER_SEC))
  else None.

#[export] Instance utc_nanos : Chrono | 100 := {| DateTime := Z; std_since := utc_since |}.
