(* ===== verification/Libp2p.v ===== *)
(** * What the program relies on from libp2p and the channel library

    None of this code is in the repository.  Its data types are declared with
    the constructors the program matches on (plus one constructor for the rest),
    its functions are fields of the classes [Libp2p] and [Channels], and what
    the program relies on are the fields of [Libp2pLaws] and [ChannelLaws].
    Module [Sim] gives one concrete instance, which shows that the laws can hold
    and lets the examples compute. *)
From S2P Require Import Prelude.

(** ** Data *)

(** Components of a multiaddress. *)
Inductive Protocol (Hash Rest : Type) : Type :=
| Ip4 (addr : Z)
| Ip6 (addr : Z)
| Tcp (port : Z)
| P2p (h : Hash)
| OtherProtocol (o : Rest).
Arguments Ip4 {_ _} _.
Arguments Ip6 {_ _} _.
Arguments Tcp {_ _} _.
Arguments P2p {_ _} _.
Arguments OtherProtocol {_ _} _.

(** The two ends of a connection. *)
Inductive ConnectedPoint (Addr Role : Type) : Type :=
| Dialer (address : Addr) (role_override : Role)
| Listener (local_addr send_back_addr : Addr).
Arguments Dialer {_ _} _ _.
Arguments Listener {_ _} _ _.

Inductive EitherError (A B : Type) : Type :=
| EA (a : A)
| EB (b : B).
Arguments EA {_ _} _.
Arguments EB {_ _} _.

Inductive ErrorKind := InvalidData | OtherErrorKind.

Inductive TransportError (Addr Io : Type) : Type :=
| MultiaddrNotSupported (a : Addr)
| TransportOther (e : Io).
Arguments MultiaddrNotSupported {_ _} _.
Arguments TransportOther {_ _} _.

Inductive DnsErr (Io : Type) : Type := DnsTransport (e : Io) | DnsOther.
Arguments DnsTransport {_} _.
Arguments DnsOther {_}.

Inductive TransportTimeoutError (E : Type) : Type :=
| Timeout
| TimerError
| TimeoutOther (e : E).
Arguments Timeout {_}.
Arguments TimerError {_}.
Arguments TimeoutOther {_} _.

Inductive UpgradeError (E : Type) : Type := UpgradeSelect | UpgradeApply (e : E).
Arguments UpgradeSelect {_}.
Arguments UpgradeApply {_} _.

Inductive NoiseError (Io : Type) : Type := NoiseIo (e : Io) | NoiseOther.
Arguments NoiseIo {_} _.
Arguments NoiseOther {_}.

Inductive DialError (Addr Io : Type) : Type :=
| ConnectionIo (e : Io)
| DialTransport (errors : list (Addr * TransportError Addr Io))
| WrongPeerId
| DialPeerConditionFalse
| Banned
| LocalPeerId
| OtherDialError.
Arguments ConnectionIo {_ _} _.
Arguments DialTransport {_ _} _.
Arguments WrongPeerId {_ _}.
Arguments DialPeerConditionFalse {_ _}.
Arguments Banned {_ _}.
Arguments LocalPeerId {_ _}.
Arguments OtherDialError {_ _}.

Inductive ConnectionError (Io H : Type) : Type :=
| ConnHandler (e : H)
| ConnIO (e : Io)
| KeepAliveTimeout.
Arguments ConnHandler {_ _} _.
Arguments ConnIO {_ _} _.
Arguments KeepAliveTimeout {_ _}.

Inductive PeerCondition := Always.

(** The error type of the composed transport, spelled out as the program does
    (src/net/mod.rs: [type TransportError]). *)
Definition SwarmTransportError (Io Pnet : Type) : Type :=
  TransportTimeoutError
    (EitherError
       (EitherError (EitherError (EitherError Io Pnet) Io) (UpgradeError (NoiseError Io)))
       (UpgradeError (EitherError Io Io))).

(** The error type of the composed connection handler, in the order of the
    fields of [NetworkBackendBehaviour]: peers, kad, mdns, ping, identify,
    bitswap, gossipsub, broadcast. *)
Definition MyHandlerError (E : Type) : Type :=
  EitherError (EitherError (EitherError (EitherError (EitherError (EitherError
    (EitherError Empty_set E) Empty_set) E) E) E) E) E.

(** What the program reads of [identify::Info]. *)
Record IdentifyInfo (Addr : Type) := mkIdentifyInfo {
  id_protocol_version : string;
  id_agent_version : string;
  id_listen_addrs : list Addr;
  id_protocols : list string
}.
Arguments mkIdentifyInfo {_} _ _ _ _.
Arguments id_protocol_version {_} _.
Arguments id_agent_version {_} _.
Arguments id_listen_addrs {_} _.
Arguments id_protocols {_} _.

(** ** Interfaces *)

Class Libp2p := {
  PeerId : Type;
  PeerId_eq_dec :: EqDecision PeerId;
  PeerId_countable :: Countable PeerId;
  Multihash : Type;
  RestProtocol : Type;
  Multiaddr : Type;
  Multiaddr_eq_dec :: EqDecision Multiaddr;
  Multiaddr_countable :: Countable Multiaddr;
  ListenerId : Type;
  ListenerId_eq_dec :: EqDecision ListenerId;
  Endpoint : Type;
  IoError : Type;
  PnetError : Type;
  ProtocolError : Type;
  AddressRecord : Type;
  Keypair : Type;
  PublicKey : Type;
  (* identity *)
  keypair_public : Keypair -> PublicKey;
  public_to_peer : PublicKey -> PeerId;
  (* Multiaddr *)
  iter : Multiaddr -> list (Protocol Multihash RestProtocol);
  push : Multiaddr -> Protocol Multihash RestProtocol -> Multiaddr;
  pop : Multiaddr -> Multiaddr;
  replace : Multiaddr -> nat -> Protocol Multihash RestProtocol -> option Multiaddr;
  (* PeerId *)
  peer_to_multihash : PeerId -> Multihash;
  multihash_to_peer : Multihash -> option PeerId;
  (* ConnectedPoint *)
  get_remote_address : ConnectedPoint Multiaddr Endpoint -> Multiaddr;
  is_dialer : ConnectedPoint Multiaddr Endpoint -> bool;
  (* io::Error: kind() and the two downcasts of the inner error *)
  io_kind : IoError -> ErrorKind;
  io_dns : IoError -> option (DnsErr IoError);
  io_transport : IoError -> option (SwarmTransportError IoError PnetError);
  (* texts *)
  io_display : IoError -> string;
  multiaddr_display : Multiaddr -> string;
  protocol_error_display : ProtocolError -> string;
  dial_error_display : DialError Multiaddr IoError -> string;
  dial_error_debug : DialError Multiaddr IoError -> string;
  transport_error_display : TransportError Multiaddr IoError -> string;
  transport_error_source : TransportError Multiaddr IoError -> option string;
  transport_error_debug : TransportError Multiaddr IoError -> string;
  connection_error_debug :
    option (ConnectionError IoError (MyHandlerError ProtocolError)) -> string
}.

Class Libp2pLaws `{L : Libp2p} : Prop := {
  (* addresses are determined by their components *)
  iter_inj :: Inj (=) (=) iter;
  iter_push a p : iter (push a p) = iter a ++ [p];
  iter_pop a : iter (pop a) = take (length (iter a) - 1) (iter a);
  replace_in a i p : i < length (iter a) ->
    exists a', replace a i p = Some a' /\ iter a' = <[i:=p]> (iter a);
  peer_multihash p : multihash_to_peer (peer_to_multihash p) = Some p;
  remote_dialer a r : get_remote_address (Dialer a r) = a;
  remote_listener l s : get_remote_address (Listener l s) = s;
  dialer_dialer a r : is_dialer (Dialer a r) = true;
  dialer_listener l s : is_dialer (Listener l s) = false
}.

(** Unbounded channels ([futures::channel::mpsc]): [None] is the error of a send
    whose receiver is gone, [Some] the sender after the message was queued. *)
Class Channels := {
  Sender : Type -> Type;
  unbounded_send : forall {T}, Sender T -> T -> option (Sender T);
  queued : forall {T}, Sender T -> list T;
  connected : forall {T}, Sender T -> bool;
  hang_up : forall {T}, Sender T -> Sender T  (* the receiver is dropped *)
}.

Class ChannelLaws `{Channels} : Prop := {
  send_connected {T} (s : Sender T) (x : T) : connected s = true ->
    exists s', unbounded_send s x = Some s' /\ queued s' = queued s ++ [x] /\ connected s' = true;
  send_disconnected {T} (s : Sender T) (x : T) :
    connected s = false -> unbounded_send s x = None;
  hang_up_connected {T} (s : Sender T) : connected (hang_up s) = false
}.

(** The order in which a hash map or hash set is iterated is not specified. *)
Class HashOrder := {
  hash_order : forall {A : Type}, list A -> list A
}.

Class HashOrderLaws `{HashOrder} : Prop := {
  hash_order_perm {A : Type} (l : list A) : hash_order l ≡ₚ l
}.

Definition map_iter `{HashOrder} `{Countable K} {V} (m : gmap K V) : list (K * V) :=
  hash_order (map_to_list m).

Definition set_iter `{HashOrder} `{Countable K} (s : gset K) : list K :=
  hash_order (elements s).

Section Iteration.
Context `{HashOrderLaws} `{Countable K} {V : Type}.

Lemma elem_of_map_iter (m : gmap K V) k v : (k, v) ∈ map_iter m <-> m !! k = Some v.
Proof. unfold map_iter. rewrite hash_order_perm. apply elem_of_map_to_list. Qed.

Lemma elem_of_set_iter (s : gset K) k : k ∈ set_iter s <-> k ∈ s.
Proof. unfold set_iter. rewrite hash_order_perm. apply elem_of_elements. Qed.

Lemma NoDup_set_iter (s : gset K) : NoDup (set_iter s).
Proof. unfold set_iter. rewrite hash_order_perm. apply NoDup_elements. Qed.

Lemma NoDup_map_iter (m : gmap K V) : NoDup ((map_iter m).*1).
Proof.
  unfold map_iter. rewrite hash_order_perm. apply NoDup_fst_map_to_list.
Qed.
End Iteration.

(** ** Multiaddress lemmas the components share *)
Section MultiaddrLemmas.
Context `{L : Libp2p} {LL : Libp2pLaws}.

Definition ends_in_p2p (a : Multiaddr) : Prop :=
  exists h, last (iter a) = Some (P2p h).

#[export] Instance ends_in_p2p_dec a : Decision (ends_in_p2p a).
Proof.
  unfold ends_in_p2p. destruct (last (iter a)) as [[ | | |h|]|];
    try (right; intros [? ?]; discriminate).
  left. by exists h.
Defined.

Lemma ends_in_p2p_push a h : ends_in_p2p (push a (P2p h)).
Proof. exists h. rewrite iter_push. apply last_snoc. Qed.

Lemma pop_push a p : pop (push a p) = a.
Proof. apply iter_inj. by rewrite iter_pop, iter_push, take_length_pred. Qed.

Lemma push_pop a p : last (iter a) = Some p -> push (pop a) p = a.
Proof.
  intros H. apply iter_inj. rewrite iter_push, iter_pop.
  by rewrite <- list_snoc_of_last.
Qed.

Lemma replace_p2p a i p a' :
  ends_in_p2p a -> S i < length (iter a) -> replace a i p = Some a' -> ends_in_p2p a'.
Proof.
  intros [h Hh] Hi Hr. destruct (replace_in a i p) as (b & E & Hb); [lia|].
  rewrite Hr in E. injection E as ->. exists h. by rewrite Hb, last_insert_lt.
Qed.
End MultiaddrLemmas.

#[export] Hint Resolve ends_in_p2p_push replace_p2p : ipfs.
Create Rewrite HintDb libp2p.
#[export] Hint Rewrite @remote_dialer @remote_listener @dialer_dialer @dialer_listener
  using (typeclasses eauto) : libp2p.

(** ** A concrete instance *)
Module Sim.

Definition Proto := Protocol N N.

#[export] Instance Proto_eq_dec : EqDecision Proto.
Proof. solve_decision. Defined.

Definition proto_encode (p : Proto) : Z + Z + Z + N + N :=
  match p with
  | Ip4 a => inl (inl (inl (inl a)))
  | Ip6 a => inl (inl (inl (inr a)))
  | Tcp p => inl (inl (inr p))
  | P2p h => inl (inr h)
  | OtherProtocol o => inr o
  end.

Definition proto_decode (c : Z + Z + Z + N + N) : Proto :=
  match c with
  | inl (inl (inl (inl a))) => Ip4 a
  | inl (inl (inl (inr a))) => Ip6 a
  | inl (inl (inr p)) => Tcp p
  | inl (inr h) => P2p h
  | inr o => OtherProtocol o
  end.

Lemma proto_decode_encode p : proto_decode (proto_encode p) = p.
Proof. by destruct p. Qed.

#[export] Instance Proto_countable : Countable Proto :=
  inj_countable' proto_encode proto_decode proto_decode_encode.

Definition sim_replace (a : list Proto) (i : nat) (p : Proto) : option (list Proto) :=
  if decide (i < length a) then Some (<[i:=p]> a) else None.

Definition sim_remote (cp : ConnectedPoint (list Proto) unit) : list Proto :=
  match cp with Dialer a _ => a | Listener _ s => s end.

Definition sim_is_dialer (cp : ConnectedPoint (list Proto) unit) : bool :=
  match cp with Dialer _ _ => true | Listener _ _ => false end.

(** I/O errors of the instance: a plain text, or the nested error of a failed
    Noise handshake on a TCP simultaneous open. *)
Inductive io := IoText (t : string) | IoNoise | IoWrapNoise | IoInvalid.

Definition sim_kind (e : io) : ErrorKind :=
  match e with IoInvalid => InvalidData | _ => OtherErrorKind end.

Definition sim_dns (e : io) : option (DnsErr io) :=
  match e with IoWrapNoise => Some (DnsTransport IoNoise) | _ => None end.

Definition sim_transport (e : io) : option (SwarmTransportError io unit) :=
  match e with
  | IoNoise => Some (TimeoutOther (EA (EB (UpgradeApply (NoiseIo IoInvalid)))))
  | _ => None
  end.

#[export] Instance sim : Libp2p | 100 := {|
  PeerId := N;
  Multihash := N;
  RestProtocol := N;
  Multiaddr := list Proto;
  ListenerId := nat;
  Endpoint := unit;
  IoError := io;
  PnetError := unit;
  ProtocolError := string;
  AddressRecord := list Proto;
  Keypair := N;
  PublicKey := N;
  keypair_public := fun k => k;
  public_to_peer := fun k => k;
  iter := fun a => a;
  push := fun a p => a ++ [p];
  pop := fun a => take (length a - 1) a;
  replace := sim_replace;
  peer_to_multihash := fun p => p;
  multihash_to_peer := Some;
  get_remote_address := sim_remote;
  is_dialer := sim_is_dialer;
  io_kind := sim_kind;
  io_dns := sim_dns;
  io_transport := sim_transport;
  io_display := fun e => match e with IoText t => t | _ => "io" end;
  multiaddr_display := fun _ => "addr";
  protocol_error_display := fun s => s;
  dial_error_display := fun _ => "dial error";
  dial_error_debug := fun _ => "DialError";
  transport_error_display := fun _ => "transport";
  transport_error_source := fun _ => None;
  transport_error_debug := fun _ => "Other";
  connection_error_debug := fun _ => "ConnectionError"
|}.

#[export] Instance sim_laws : Libp2pLaws (L := sim).
Proof.
  split; [by intros ?? | done | done | | done..].
  intros a i p Hi. cbn in *. unfold sim_replace. rewrite decide_True by done. eauto.
Qed.

Record chan (T : Type) := mkChan { chan_open : bool; chan_buf : list T }.
Arguments mkChan {_} _ _.
Arguments chan_open {_} _.
Arguments chan_buf {_} _.

#[export] Instance sim_channels : Channels | 100 := {|
  Sender := chan;
  unbounded_send := fun T s x =>
    if chan_open s then Some (mkChan true (chan_buf s ++ [x])) else None;
  queued := @chan_buf;
  connected := @chan_open;
  hang_up := fun T s => mkChan false (chan_buf s)
|}.

#[export] Instance sim_channel_laws : ChannelLaws (H := sim_channels).
Proof.
  split; [intros T [o b] x; cbn; intros ->; eexists; by split | by intros T [o b] x; cbn; intros -> | done].
Qed.

#[export] Instance sim_order : HashOrder | 100 := {| hash_order := fun A l => l |}.

#[export] Instance sim_order_laws : HashOrderLaws (H := sim_order).
Proof. by split. Qed.

#[export] Instance debug_profile : Profile | 100 := {| debug_build := true |}.

(** Names used by the examples. *)
Definition addr (ip port : Z) : list Proto := [Ip4 ip; Tcp port].
Definition addr_p (ip port : Z) (peer : N) : list Proto := [Ip4 ip; Tcp port; P2p peer].
End Sim.
