(* ===== verification/PeerInfo.v ===== *)
(** * What the node knows about one peer (src/net/peer_info.rs)

    Round-trip statistics, ranked addresses, open connections and the last
    connection failures.  The clock ([Utc::now()]) is an argument of every
    operation that reads it. *)
From S2P Require Import Prelude Time Libp2p.

(** ** Round-trip times *)
Module Rtt.
Local Open Scope Z_scope.

Record t := mk {
  current : Duration;
  decay_3 : Duration;
  decay_10 : Duration;
  failures : Z;
  failure_rate : Z
}.

Definition new (current : Duration) : t := mk current current current 0 0.

Definition register `{Profile} (r : t) (current : Duration) : outcome t :=
  a ← dur_mul (decay_3 r) 7; a ← dur_div a 10;
  b ← dur_mul current 3; b ← dur_div b 10;
  d3 ← dur_add a b;
  a ← dur_mul (decay_10 r) 9; a ← dur_div a 10;
  b ← dur_div current 10;
  d10 ← dur_add a b;
  fr ← mul_u32 (failure_rate r) 99;
  mret (mk current d3 d10 0 (fr `div` 100)).

Definition register_failure `{Profile} (r : t) : outcome t :=
  n ← add_u32 (failures r) 1;
  fr ← mul_u32 (failure_rate r) 99;
  fr ← add_u32 (fr `div` 100) 10000;
  mret (mk (current r) (decay_3 r) (decay_10 r) n fr).

(** The range the three durations of a statistic stay in, and the largest
    value the failure rate takes. *)
Definition within (B : Z) (d : Duration) : Prop := dur_wf d /\ as_nanos d <= B.

Definition RATE_MAX : Z := 999901.

Record wf (B : Z) (r : t) : Prop := {
  wf_current : within B (current r);
  wf_decay_3 : within B (decay_3 r);
  wf_decay_10 : within B (decay_10 r);
  wf_failures : 0 <= failures r <= U32_MAX;
  wf_rate : 0 <= failure_rate r <= RATE_MAX
}.

(** A duration is short enough for the moving averages when nine times it is
    still a duration (about two billion years). *)
Definition B_OK (B : Z) : Prop := B * 9 <= MAX_NANOS.

(** One moving average: [old * k / 10 + cur * (10 - k) / 10]. *)
Definition ewma (k old cur : Z) : Z := (old * k) `div` 10 + (cur * (10 - k)) `div` 10.

Lemma ewma_bounds k old cur :
  0 <= k <= 10 -> 0 <= old -> 0 <= cur ->
  old `min` cur - 1 <= ewma k old cur <= old `max` cur.
Proof.
  intros Hk Ho Hc. unfold ewma.
  pose proof (Z.div_mod (old * k) 10 ltac:(lia)).
  pose proof (Z.mod_pos_bound (old * k) 10 ltac:(lia)).
  pose proof (Z.div_mod (cur * (10 - k)) 10 ltac:(lia)).
  pose proof (Z.mod_pos_bound (cur * (10 - k)) 10 ltac:(lia)).
  destruct (Z.le_ge_cases old cur); split; nia.
Qed.

Lemma rate_decay_bounds f : 0 <= f <= RATE_MAX -> 0 <= (f * 99) `div` 100 <= RATE_MAX.
Proof.
  unfold RATE_MAX. intros H. split; [apply Z.div_pos; lia|].
  apply Z.div_le_upper_bound; lia.
Qed.

Lemma rate_failure_bounds f :
  0 <= f <= RATE_MAX -> 0 <= (f * 99) `div` 100 + 10000 <= RATE_MAX.
Proof.
  unfold RATE_MAX. intros H.
  assert (0 <= (f * 99) `div` 100) by (apply Z.div_pos; lia).
  assert ((f * 99) `div` 100 < 989902) by (apply Z.div_lt_upper_bound; lia). lia.
Qed.

(** Runs one duration operation that is known not to overflow. *)
Local Ltac dur_step lem :=
  let c := fresh "c" in let E := fresh "E" in let W := fresh "W" in let N := fresh "N" in
  destruct lem as (c & E & W & N); [try done; try lia .. | rewrite E; cbn [mbind outcome_bind]].

Lemma register_spec `{Profile} B r cur :
  wf B r -> within B cur -> B_OK B ->
  exists r', register r cur ↓ r' /\ wf B r' /\
    current r' = cur /\ failures r' = 0 /\
    as_nanos (decay_3 r') = ewma 7 (as_nanos (decay_3 r)) (as_nanos cur) /\
    as_nanos (decay_10 r') = ewma 9 (as_nanos (decay_10 r)) (as_nanos cur) /\
    failure_rate r' = (failure_rate r * 99) `div` 100.
Proof.
  intros [[_ _] [W3 B3] [W10 B10] Hf Hr] [Wc Bc] HB. unfold B_OK in HB.
  pose proof (as_nanos_bounds _ W3). pose proof (as_nanos_bounds _ W10).
  pose proof (as_nanos_bounds _ Wc). unfold register.
  dur_step (dur_mul_nanos (decay_3 r) 7). dur_step (dur_div_nanos c 10).
  dur_step (dur_mul_nanos cur 3). dur_step (dur_div_nanos c1 10).
  assert (H3 : as_nanos c0 + as_nanos c2 = ewma 7 (as_nanos (decay_3 r)) (as_nanos cur))
    by (unfold ewma; by rewrite N0, N, N2, N1).
  pose proof (ewma_bounds 7 (as_nanos (decay_3 r)) (as_nanos cur)).
  dur_step (dur_add_nanos c0 c2).
  dur_step (dur_mul_nanos (decay_10 r) 9). dur_step (dur_div_nanos c4 10).
  dur_step (dur_div_nanos cur 10).
  assert (H10 : as_nanos c5 + as_nanos c6 = ewma 9 (as_nanos (decay_10 r)) (as_nanos cur))
    by (unfold ewma; rewrite N5, N4, N6; f_equal; f_equal; lia).
  pose proof (ewma_bounds 9 (as_nanos (decay_10 r)) (as_nanos cur)).
  dur_step (dur_add_nanos c5 c6).
  rewrite mul_u32_small by (unfold RATE_MAX, U32_MAX in *; lia). cbn.
  pose proof (rate_decay_bounds _ Hr).
  eexists. split; [done|]. split; [|cbn; repeat split; congruence].
  split; cbn; [by split | split; [done|lia].. | unfold U32_MAX; lia | done].
Qed.

Lemma register_failure_spec `{Profile} B r :
  wf B r -> failures r < U32_MAX ->
  exists r', register_failure r ↓ r' /\ wf B r' /\
    current r' = current r /\ decay_3 r' = decay_3 r /\ decay_10 r' = decay_10 r /\
    failures r' = failures r + 1 /\
    failure_rate r' = (failure_rate r * 99) `div` 100 + 10000.
Proof.
  intros [Wc W3 W10 Hf Hr] Hlt. unfold register_failure.
  pose proof (rate_failure_bounds _ Hr) as Hb. unfold RATE_MAX, U32_MAX in *.
  rewrite add_u32_small by (unfold U32_MAX; lia). cbn [mbind outcome_bind].
  rewrite mul_u32_small by (unfold U32_MAX; lia). cbn [mbind outcome_bind].
  rewrite add_u32_small by (unfold U32_MAX; lia). cbn [mbind outcome_bind].
  eexists. split; [done|]. split; [|cbn; repeat split; congruence].
  split; cbn; [done..| unfold U32_MAX; lia | done].
Qed.

Lemma new_wf B d : within B d -> wf B (new d).
Proof. intros H. split; cbn; [done..| | ]; unfold U32_MAX, RATE_MAX; lia. Qed.

(** The measurements of one peer, in the order they arrive. *)
Definition apply `{Profile} (r : t) (m : option Duration) : outcome t :=
  match m with Some d => register r d | None => register_failure r end.

Definition run `{Profile} (r : t) (ms : list (option Duration)) : outcome t := foldM apply r ms.

(** How many measurements are failures: an upper bound of the counter. *)
Definition n_failures (ms : list (option Duration)) : Z := Z.of_nat (length (filter (.= None) ms)).
End Rtt.

(** ** Where an address was learned, from least to most trusted *)
Inductive AddressSource :=
| Incoming | Listen | Kad | Mdns | Candidate | User | Dial.

#[export] Instance AddressSource_eq_dec : EqDecision AddressSource.
Proof. solve_decision. Defined.

(** The derived order: the position of the constructor. *)
Definition source_rank (s : AddressSource) : nat :=
  match s with
  | Incoming => 0 | Listen => 1 | Kad => 2 | Mdns => 3 | Candidate => 4 | User => 5 | Dial => 6
  end.

Definition source_cmp (a b : AddressSource) : comparison :=
  Nat.compare (source_rank a) (source_rank b).

Definition is_confirmed (s : AddressSource) : bool :=
  match s with Dial | User | Candidate => true | _ => false end.

Definition is_to_probe (s : AddressSource) : bool :=
  match s with Listen | Kad | Mdns | Candidate => true | _ => false end.

Definition is_to_translate (s : AddressSource) : bool :=
  match s with Incoming => true | _ => false end.

Inductive Direction := Inbound | Outbound.

#[export] Instance Direction_eq_dec : EqDecision Direction.
Proof. solve_decision. Defined.

Inductive ConnectionFailureKind := DialErrorKind | PeerDisconnected | WeDisconnected.

#[export] Instance ConnectionFailureKind_eq_dec : EqDecision ConnectionFailureKind.
Proof. solve_decision. Defined.

Definition newline : string := String (Ascii.ascii_of_nat 10) EmptyString.

Section PeerInfo.
Context `{P : Profile} `{C : Chrono} `{L : Libp2p}.

(** [impl From<&ConnectedPoint> for Direction]. *)
Definition direction_from (cp : ConnectedPoint Multiaddr Endpoint) : Direction :=
  match cp with Dialer _ _ => Outbound | Listener _ _ => Inbound end.

(** *** Connection failures *)

Record ConnectionFailure := mkFailure {
  kind : ConnectionFailureKind;
  failure_addr : Multiaddr;
  time : DateTime;
  display : string;
  debug : string
}.

Definition without_peer (a : Multiaddr) : Multiaddr :=
  match last (iter a) with Some (P2p _) => pop a | _ => a end.

(** [impl Display for D]: the error followed by its cause. *)
Definition D_fmt (e : TransportError Multiaddr IoError) : string :=
  transport_error_display e +:+ default "" (transport_error_source e).

Definition dial_display (error : DialError Multiaddr IoError) : string :=
  match error with
  | ConnectionIo e => "I/O error: " +:+ io_display e
  | DialTransport [(_, e)] => "transport error: " +:+ D_fmt e
  | DialTransport es =>
      foldl (fun s '(addr, err) =>
               s +:+ newline +:+ multiaddr_display (without_peer addr) +:+ " " +:+ D_fmt err)
            "transport errors:" es
  | x => dial_error_display x
  end.

Definition failure_dial (now : DateTime) (addr : Multiaddr) (error : DialError Multiaddr IoError) :
    ConnectionFailure :=
  mkFailure DialErrorKind (without_peer addr) now (dial_display error) (dial_error_debug error).

Definition failure_transport (now : DateTime) (addr : Multiaddr)
    (error : TransportError Multiaddr IoError) : ConnectionFailure :=
  mkFailure DialErrorKind (without_peer addr) now
    ("transport error: " +:+ D_fmt error) (transport_error_debug error).

Definition failure_us (now : DateTime) (addr : Multiaddr) (display debug : string) :
    ConnectionFailure :=
  mkFailure WeDisconnected addr now display debug.

Definition failure_them (now : DateTime) (addr : Multiaddr) (display debug : string) :
    ConnectionFailure :=
  mkFailure PeerDisconnected addr now display debug.

(** *** The record *)

Record PeerInfo := mkPeerInfo {
  protocol_version : option string;
  agent_version : option string;
  protocols : list string;
  listeners : list Multiaddr;
  addresses : gmap Multiaddr (AddressSource * DateTime);
  connections : gmap Multiaddr (DateTime * Direction);
  failures : list ConnectionFailure;  (* the deque, front first *)
  rtt : option Rtt.t
}.

Definition PeerInfo_default : PeerInfo := mkPeerInfo None None [] [] ∅ ∅ [] None.

Definition with_addresses (i : PeerInfo) (a : gmap Multiaddr (AddressSource * DateTime)) : PeerInfo :=
  mkPeerInfo (protocol_version i) (agent_version i) (protocols i) (listeners i) a
    (connections i) (failures i) (rtt i).
Definition with_connections (i : PeerInfo) (c : gmap Multiaddr (DateTime * Direction)) : PeerInfo :=
  mkPeerInfo (protocol_version i) (agent_version i) (protocols i) (listeners i) (addresses i)
    c (failures i) (rtt i).
Definition with_failures (i : PeerInfo) (f : list ConnectionFailure) : PeerInfo :=
  mkPeerInfo (protocol_version i) (agent_version i) (protocols i) (listeners i) (addresses i)
    (connections i) f (rtt i).
Definition with_rtt (i : PeerInfo) (r : option Rtt.t) : PeerInfo :=
  mkPeerInfo (protocol_version i) (agent_version i) (protocols i) (listeners i) (addresses i)
    (connections i) (failures i) r.

(** *** Operations *)

Definition set_rtt (i : PeerInfo) (d : option Duration) : outcome PeerInfo :=
  match d, rtt i with
  | Some d, Some r => r' ← Rtt.register r d; mret (with_rtt i (Some r'))
  | Some d, None => mret (with_rtt i (Some (Rtt.new d)))
  | None, Some r => r' ← Rtt.register_failure r; mret (with_rtt i (Some r'))
  | None, None => mret i
  end.

(** [self.addresses.get(addr).iter().any(|(s, _)| s.is_to_probe())] *)
Definition probing (i : PeerInfo) (addr : Multiaddr) : bool :=
  match addresses i !! addr with Some (s, _) => is_to_probe s | None => false end.

Definition push_failure (i : PeerInfo) (addr : Multiaddr) (f : ConnectionFailure)
    (probe_result : bool) : PeerInfo :=
  let fs := if decide (9 < length (failures i)) then take (length (failures i) - 1) (failures i)
            else failures i in
  let i := with_failures i fs in
  let i := if probe_result && probing i addr
           then with_addresses i (delete addr (addresses i)) else i in
  with_failures i (f :: failures i).

Definition confirmed_addresses (i : PeerInfo) : gset Multiaddr :=
  dom (filter (fun kv => is_confirmed (kv.2).1 = true) (addresses i)).

Definition addresses_to_probe (i : PeerInfo) : gset Multiaddr :=
  dom (filter (fun kv => is_to_probe (kv.2).1 = true) (addresses i)).

Definition addresses_to_translate (i : PeerInfo) : gset Multiaddr :=
  dom (filter (fun kv => is_to_translate (kv.2).1 = true) (addresses i)).

Definition ingest_address (now : DateTime) (i : PeerInfo) (addr : Multiaddr)
    (source : AddressSource) : outcome (PeerInfo * bool) :=
  match addresses i !! addr with
  | Some (src, _) =>
      match source_cmp source src with
      | Lt | Eq => mret (with_addresses i (<[addr := (src, now)]> (addresses i)), false)
      | Gt => mret (with_addresses i (<[addr := (source, now)]> (addresses i)), is_to_probe source)
      end
  | None =>
      debug_assert (bool_decide (ends_in_p2p addr))
        (mret (with_addresses i (<[addr := (source, now)]> (addresses i)), is_to_probe source))
  end.

(** *** Invariant *)

(** [B] bounds the round-trip times that were measured. *)
Record info_wf (B : Z) (i : PeerInfo) : Prop := {
  wf_addresses : map_Forall (fun a _ => ends_in_p2p a) (addresses i);
  wf_connections : map_Forall (fun a _ => ends_in_p2p a) (connections i);
  wf_failures : length (failures i) <= 10;
  wf_rtt : forall r, rtt i = Some r -> Rtt.wf B r
}.

Lemma default_wf B : info_wf B PeerInfo_default.
Proof. split; cbn; [apply map_Forall_empty.. | lia | done]. Qed.

(** *** Functional behaviour *)

Definition source_max (a b : AddressSource) : AddressSource :=
  if decide (source_rank a < source_rank b) then b else a.

(** What [ingest_address] leaves in the table and what it answers: the better
    of the two sources, and whether the address is now worth probing. *)
Definition ingested (old : option (AddressSource * DateTime)) (source : AddressSource) :
    AddressSource * bool :=
  match old with
  | None => (source, is_to_probe source)
  | Some (src, _) =>
      (source_max src source, bool_decide (source_rank src < source_rank source) && is_to_probe source)
  end.

Lemma ingest_address_spec now i addr source :
  is_Some (addresses i !! addr) \/ ends_in_p2p addr ->
  ingest_address now i addr source ↓
    (with_addresses i
       (<[addr := ((ingested (addresses i !! addr) source).1, now)]> (addresses i)),
     (ingested (addresses i !! addr) source).2).
Proof.
  intros H. unfold ingest_address, ingested, source_max, source_cmp.
  destruct (addresses i !! addr) as [[src dt]|].
  - destruct (Nat.compare_spec (source_rank source) (source_rank src)) as [E|E|E]; cbn.
    + rewrite decide_False, bool_decide_eq_false_2 by lia. done.
    + rewrite decide_False, bool_decide_eq_false_2 by lia. done.
    + rewrite decide_True, bool_decide_eq_true_2 by lia. done.
  - rewrite debug_assert_true; [done|]. apply bool_decide_eq_true_2.
    destruct H as [[? ?]|]; done.
Qed.

Lemma push_failure_failures i addr f b :
  length (failures i) <= 10 ->
  failures (push_failure i addr f b) = f :: take 9 (failures i).
Proof.
  intros H. unfold push_failure. cbn.
  set (fs := if decide _ then _ else _).
  assert (Hfs : fs = take 9 (failures i)).
  { subst fs. case_decide; [f_equal; lia | by rewrite take_ge by lia]. }
  destruct (b && _); cbn; by rewrite Hfs.
Qed.

Lemma push_failure_addresses i addr f b :
  addresses (push_failure i addr f b) =
    if b && probing i addr then delete addr (addresses i) else addresses i.
Proof. unfold push_failure, probing. cbn. by destruct (b && _). Qed.

Lemma push_failure_connections i addr f b :
  connections (push_failure i addr f b) = connections i.
Proof. unfold push_failure. cbn. by destruct (b && _). Qed.

Lemma push_failure_rtt i addr f b : rtt (push_failure i addr f b) = rtt i.
Proof. unfold push_failure. cbn. by destruct (b && _). Qed.

(** *** The operations keep the invariant *)

Lemma with_addresses_wf B i a :
  info_wf B i -> map_Forall (fun a _ => ends_in_p2p a) a -> info_wf B (with_addresses i a).
Proof. intros [????] ?. by split. Qed.

Lemma with_connections_wf B i c :
  info_wf B i -> map_Forall (fun a _ => ends_in_p2p a) c -> info_wf B (with_connections i c).
Proof. intros [????] ?. by split. Qed.

Lemma with_rtt_wf B i r : info_wf B i -> Rtt.wf B r -> info_wf B (with_rtt i (Some r)).
Proof. intros [????] ?. split; cbn; [done..|]. by intros ? [= <-]. Qed.

Lemma push_failure_wf B i addr f b : info_wf B i -> info_wf B (push_failure i addr f b).
Proof.
  intros [Ha Hc Hf Hr]. split.
  - rewrite push_failure_addresses. destruct (b && _); [by apply map_Forall_delete | done].
  - by rewrite push_failure_connections.
  - rewrite push_failure_failures by done. cbn. rewrite length_take. lia.
  - by rewrite push_failure_rtt.
Qed.

Lemma ingest_address_wf B now i addr source i' b :
  info_wf B i -> ends_in_p2p addr -> ingest_address now i addr source ↓ (i', b) -> info_wf B i'.
Proof.
  intros Hi Ha E. rewrite ingest_address_spec in E by eauto. injection E as <- <-.
  apply with_addresses_wf; [done|]. apply map_Forall_insert_2; [done|]. by apply Hi.
Qed.

(** A measured time is short enough, and the failure counter has not run out. *)
Definition measurable (B : Z) (i : PeerInfo) (d : option Duration) : Prop :=
  Rtt.B_OK B /\
  match d with
  | Some d => Rtt.within B d
  | None => forall r, rtt i = Some r -> (Rtt.failures r < U32_MAX)%Z
  end.

Lemma set_rtt_spec B i d :
  info_wf B i -> measurable B i d ->
  exists i', set_rtt i d ↓ i' /\ info_wf B i' /\
    addresses i' = addresses i /\ connections i' = connections i /\ failures i' = failures i.
Proof.
  intros Hi [HB Hd]. unfold set_rtt.
  destruct d as [d|], (rtt i) as [r|] eqn:Er.
  - destruct (Rtt.register_spec B r d) as (r' & -> & Hw & _); [by apply Hi | done..|].
    eexists. split; [done|]. split; [by apply with_rtt_wf | done].
  - eexists. split; [done|]. split; [by apply with_rtt_wf, Rtt.new_wf | done].
  - destruct (Rtt.register_failure_spec B r) as (r' & -> & Hw & _); [by apply Hi | by apply Hd|].
    eexists. split; [done|]. split; [by apply with_rtt_wf | done].
  - eexists. by split.
Qed.
End PeerInfo.

#[export] Hint Resolve default_wf with_addresses_wf with_connections_wf push_failure_wf : ipfs.

(** ** Properties *)

Section RttProperties.
Context `{P : Profile}.
Local Open Scope Z_scope.

Lemma rtt_run_wf B r ms :
  Rtt.wf B r -> Rtt.B_OK B -> Forall (fun m => forall d, m = Some d -> Rtt.within B d) ms ->
  Rtt.failures r + Rtt.n_failures ms <= U32_MAX ->
  exists r', Rtt.run r ms ↓ r' /\ Rtt.wf B r'.
Proof.
  intros Hr HB Hms. revert r Hr. induction Hms as [|m ms Hm Hms IH]; intros r Hr Hn; cbn.
  { eexists. by split. }
  unfold Rtt.n_failures in Hn. rewrite filter_cons in Hn.
  pose proof (Rtt.wf_failures B r Hr) as Hf0.
  destruct m as [d|]; case_decide as Hd; try done; cbn [length] in Hn; unfold Rtt.apply.
  - destruct (Rtt.register_spec B r d) as (r' & E & Hw & _ & Hf & _); [by auto..|].
    rewrite E. cbn. apply IH; [done|]. unfold Rtt.n_failures. lia.
  - destruct (Rtt.register_failure_spec B r) as (r' & E & Hw & _ & _ & _ & Hf & _); [done|lia|].
    rewrite E. cbn. apply IH; [done|]. unfold Rtt.n_failures. lia.
Qed.

(** The failure rate after [n] failures and nothing else. *)
Fixpoint rate_after (n : nat) (f : Z) : Z :=
  match n with O => f | S n => rate_after n ((f * 99) `div` 100 + 10000) end.

Lemma rtt_only_failures B r n :
  Rtt.wf B r -> Rtt.failures r + Z.of_nat n <= U32_MAX ->
  exists r', Rtt.run r (replicate n None) ↓ r' /\
    Rtt.failure_rate r' = rate_after n (Rtt.failure_rate r) /\
    Rtt.failures r' = Rtt.failures r + Z.of_nat n.
Proof.
  revert r. induction n as [|n IH]; intros r Hr Hn; cbn.
  { eexists. split; [done|]. split; [done|lia]. }
  destruct (Rtt.register_failure_spec B r) as (r' & E & Hw & _ & _ & _ & Hf & Hrate); [done|lia|].
  rewrite E. cbn. destruct (IH r') as (r'' & E' & Hr'' & Hf''); [done|lia|].
  eexists. split; [done|]. rewrite Hr'', Hrate. split; [done|lia].
Qed.

Lemma rate_after_add n m f : rate_after (n + m) f = rate_after m (rate_after n f).
Proof. revert f. induction n as [|n IH]; intros f; cbn; [done|apply IH]. Qed.

Lemma rate_after_fixed n : rate_after n Rtt.RATE_MAX = Rtt.RATE_MAX.
Proof. induction n as [|n IH]; [done|exact IH]. Qed.
End RttProperties.

(** In a debug build the failure counter is exact, until it overflows. *)
Lemma rtt_failures_count `{Profile} n r r' :
  debug_build = true -> Rtt.run r (replicate n None) ↓ r' ->
  (Rtt.failures r' = Rtt.failures r + Z.of_nat n)%Z /\ (0 < n -> (Rtt.failures r' <= U32_MAX)%Z).
Proof.
  intros Hb. revert r. induction n as [|n IH]; intros r E; cbn in E; [injection E as ->; lia|].
  apply bind_Done in E as (r1 & E1 & E2). apply IH in E2 as [E2 Hle].
  assert (H1 : (Rtt.failures r1 = Rtt.failures r + 1 /\ Rtt.failures r + 1 <= U32_MAX)%Z).
  { unfold Rtt.apply, Rtt.register_failure in E1. apply bind_Done in E1 as (k & Ek & E1).
    unfold add_u32 in Ek. rewrite Hb in Ek. case_decide; [|done]. injection Ek as <-. outcome_inv. by simplify_eq. }
  destruct n; lia.
Qed.

(** C24: the statistics of a peer stay in range exactly as far as their types allow.  As
    long as the measured times are at most [B], with [9 * B] still a duration, and there
    are at most 2^32 - 1 failures, any sequence of ping results is registered without a
    panic or a wrap-around, the last value and the two averages stay at most [B] and the
    failure rate at most 999901.  Both bounds are needed: with an average that cannot be
    multiplied by nine the next measurement panics, in any build, and in a debug build
    2^32 failures in a row panic. *)
Theorem rtt_run_total `{Profile} B d ms :
  Rtt.B_OK B -> Rtt.within B d ->
  Forall (fun m => forall d', m = Some d' -> Rtt.within B d') ms ->
  (Rtt.n_failures ms <= U32_MAX)%Z ->
  (exists r, Rtt.run (Rtt.new d) ms ↓ r /\ Rtt.wf B r) /\
  (forall d1 d2, dur_wf d1 -> (MAX_NANOS < as_nanos d1 * 9)%Z -> is_done (Rtt.run (Rtt.new d1) [Some d2]) = false) /\
  (debug_build = true -> is_done (Rtt.run (Rtt.new d) (replicate (Z.to_nat (U32_MAX + 1)) None)) = false).
Proof.
  intros HB Hd Hms Hn. split_and!.
  - apply rtt_run_wf; [by apply Rtt.new_wf | done..|]. cbn. lia.
  - intros d1 d2 Hw Ho. pose proof (dur_mul_overflow d1 9 Hw ltac:(lia) Ho) as H9.
    destruct (Rtt.run _ _) as [r|w] eqn:E; [|done]. unfold Rtt.run in E. cbn [foldM] in E.
    apply bind_Done in E as (r1 & E1 & _). unfold Rtt.apply, Rtt.register in E1. outcome_inv.
    cbn [Rtt.decay_10 Rtt.new] in *. by match goal with H : dur_mul d1 9 ↓ _ |- _ => rewrite H in H9 end.
  - intros Hb. destruct (Rtt.run _ _) as [r|w] eqn:E; [|done]. apply rtt_failures_count in E as [E Hle]; [|done].
    unfold U32_MAX in *. cbn in E. lia.
Qed.

Lemma rtt_run_total_witness : exists r,
  Rtt.run (H := Sim.debug_profile) (Rtt.new (mkDuration 0 40000000))
    [Some (mkDuration 0 50000000); None; None; Some (mkDuration 1 0)] ↓ r /\
  Rtt.wf (2 * NANOS_PER_SEC) r.
Proof.
  apply (rtt_run_total (H := Sim.debug_profile) (2 * NANOS_PER_SEC) (mkDuration 0 40000000)).
  - by vm_compute.
  - by vm_compute.
  - repeat (apply Forall_cons_2; [intros d' E; try discriminate E; injection E as <-; by vm_compute|]).
    constructor.
  - by vm_compute.
Defined.

(** One measurement moves each exponentially weighted average to a value
    between the old average and the measurement, at most one nanosecond below
    the smaller of the two, and resets the failure counter. *)
Theorem rtt_register_averages `{Profile} B r cur :
  Rtt.B_OK B -> Rtt.wf B r -> Rtt.within B cur ->
  exists r', Rtt.register r cur ↓ r' /\
    Rtt.current r' = cur /\ Rtt.failures r' = 0%Z /\
    (as_nanos (Rtt.decay_3 r) `min` as_nanos cur - 1 <= as_nanos (Rtt.decay_3 r')
       <= as_nanos (Rtt.decay_3 r) `max` as_nanos cur)%Z /\
    (as_nanos (Rtt.decay_10 r) `min` as_nanos cur - 1 <= as_nanos (Rtt.decay_10 r')
       <= as_nanos (Rtt.decay_10 r) `max` as_nanos cur)%Z.
Proof.
  intros HB Hr Hc.
  destruct (Rtt.register_spec B r cur) as (r' & E & _ & Hcur & Hf & H3 & H10 & _); [done..|].
  pose proof (as_nanos_bounds _ (proj1 Hc)).
  pose proof (as_nanos_bounds _ (proj1 (Rtt.wf_decay_3 _ _ Hr))).
  pose proof (as_nanos_bounds _ (proj1 (Rtt.wf_decay_10 _ _ Hr))).
  exists r'. rewrite H3, H10. repeat split; try done; apply Rtt.ewma_bounds; lia.
Qed.

Lemma rtt_register_averages_witness : exists r',
  Rtt.register (H := Sim.debug_profile) (Rtt.new (mkDuration 0 10)) (mkDuration 0 20) ↓ r' /\
  Rtt.current r' = mkDuration 0 20 /\ Rtt.failures r' = 0%Z.
Proof.
  destruct (rtt_register_averages (H := Sim.debug_profile) 100
    (Rtt.new (mkDuration 0 10)) (mkDuration 0 20)) as (r' & E & Hc & Hf & _).
  - by vm_compute.
  - apply Rtt.new_wf. by vm_compute.
  - by vm_compute.
  - by exists r'.
Defined.

(** After at least 1000 failures and nothing else the failure rate is 999901
    and stays there, so it never takes the value 1000000 which the comment in
    [register_failure] gives for "only failures". *)
Theorem rtt_rate_of_only_failures `{Profile} d n :
  dur_wf d -> 1000 <= n -> (Z.of_nat n <= U32_MAX)%Z ->
  exists r, Rtt.run (Rtt.new d) (replicate n None) ↓ r /\ Rtt.failure_rate r = 999901%Z.
Proof.
  intros Hd Hn Hmax.
  destruct (rtt_only_failures MAX_NANOS (Rtt.new d) n) as (r & E & Hr & _).
  { apply Rtt.new_wf. split; [done|]. by apply as_nanos_bounds. }
  { cbn. lia. }
  exists r. split; [done|]. rewrite Hr. cbn.
  replace n with (1000 + (n - 1000)) by lia. rewrite rate_after_add.
  replace (rate_after 1000 0) with Rtt.RATE_MAX by (by vm_compute).
  apply rate_after_fixed.
Qed.

Lemma rtt_rate_of_only_failures_witness : exists r,
  Rtt.run (H := Sim.debug_profile) (Rtt.new (from_secs 1)) (replicate 1000 None) ↓ r /\
  Rtt.failure_rate r = 999901%Z.
Proof.
  apply (rtt_rate_of_only_failures (H := Sim.debug_profile) (from_secs 1) 1000).
  - by vm_compute.
  - lia.
  - by vm_compute.
Defined.

(** Recording a failure keeps exactly the ten most recent failures, newest
    first, and removes the address from the table if and only if the failure is
    the outcome of a probe and the address is one that is being probed; open
    connections and round-trip statistics are untouched. *)
Theorem push_failure_keeps_ten_newest `{Chrono} `{Libp2p} i addr f b :
  length (failures i) <= 10 ->
  failures (push_failure i addr f b) = f :: take 9 (failures i) /\
  length (failures (push_failure i addr f b)) <= 10 /\
  (forall a, addresses (push_failure i addr f b) !! a =
     if decide (a = addr /\ b = true /\ probing i addr = true) then None else addresses i !! a) /\
  connections (push_failure i addr f b) = connections i /\
  rtt (push_failure i addr f b) = rtt i.
Proof.
  intros Hlen. rewrite push_failure_connections, push_failure_rtt, push_failure_addresses.
  rewrite push_failure_failures by done. repeat split.
  - cbn. rewrite length_take. lia.
  - intros a. destruct b, (probing i addr); cbn; case_decide; destruct_and?; subst;
      try done; try naive_solver; simplify_map_eq; try done.
Qed.

Lemma push_failure_keeps_ten_newest_witness :
  let f := mkFailure (C := utc_nanos) (L := Sim.sim) DialErrorKind [] 7%Z "" "" in
  let i := PeerInfo_default (C := utc_nanos) (L := Sim.sim) in
  failures (push_failure i [] f true) = [f].
Proof.
  cbn zeta. apply (push_failure_keeps_ten_newest (H := utc_nanos)
    (PeerInfo_default (C := utc_nanos) (L := Sim.sim)) []
    (mkFailure (C := utc_nanos) (L := Sim.sim) DialErrorKind [] 7%Z "" "") true).
  cbn. lia.
Defined.

(** [ingest_address] never trips its debug assertion on an address that ends
    in a peer id (or is already known); the table then holds the better of the
    old and the new source with the time of the call, every other address is
    untouched, and it asks for a probe exactly when the source got strictly
    better (or the address is new) and the new source is one to be probed. *)
Theorem ingest_address_ranks `{Profile} `{Chrono} `{Libp2p} now i addr source :
  is_Some (addresses i !! addr) \/ ends_in_p2p addr ->
  exists i' b, ingest_address now i addr source ↓ (i', b) /\
    addresses i' !! addr = Some ((ingested (addresses i !! addr) source).1, now) /\
    (forall a, a <> addr -> addresses i' !! a = addresses i !! a) /\
    connections i' = connections i /\ failures i' = failures i /\
    (b = true <-> is_to_probe source = true /\
       forall src dt, addresses i !! addr = Some (src, dt) -> source_rank src < source_rank source).
Proof.
  intros Hin. rewrite ingest_address_spec by done. do 2 eexists. split; [done|]. cbn.
  split; [by simplify_map_eq|]. split; [intros a Ha; by rewrite lookup_insert_ne|].
  do 2 (split; [done|]). unfold ingested. destruct (addresses i !! addr) as [[src dt]|]; cbn.
  - rewrite andb_true_iff, bool_decide_eq_true. split; [intros [? ?] | intros [? Hs]].
    + split; [done|]. by intros ?? [= -> ->].
    + split; [by eapply Hs | done].
  - split; [by intros ? | by intros [? _]].
Qed.

Lemma ingest_address_ranks_witness :
  let i := PeerInfo_default (C := utc_nanos) (L := Sim.sim) in
  exists i' b, ingest_address (P := Sim.debug_profile) (C := utc_nanos) (L := Sim.sim) 5%Z i (Sim.addr_p 1 2 3) Mdns ↓ (i', b) /\
    addresses i' !! Sim.addr_p 1 2 3 = Some (Mdns, 5%Z).
Proof.
  cbn zeta. destruct (ingest_address_ranks (H := Sim.debug_profile) (H0 := utc_nanos) (H1 := Sim.sim) 5%Z
    (PeerInfo_default (C := utc_nanos) (L := Sim.sim)) (Sim.addr_p 1 2 3) Mdns)
    as (i' & b & E & Hl & _).
  - right. by exists 3%N.
  - by exists i', b.
Defined.
