(* ===== verification/AddressHandler.v ===== *)
(** * The connection handler of the address book (src/net/address_handler.rs)

    A handler carries the dial that it validates (the address and how many
    redials are left) and whether its connection is kept alive.  It opens no
    substreams: its event types are uninhabited. *)
From S2P Require Import Prelude Libp2p.

Inductive KeepAlive := KeepAliveYes | KeepAliveNo.


Section AddressHandler.
Context `{L : Libp2p}.

(** [IntoAddressHandler(Option<(Multiaddr, u8)>, bool)]. *)
Record IntoAddressHandler := mkIntoAddressHandler {
  own : option (Multiaddr * Z);
  keep : bool
}.

#[export] Instance IntoAddressHandler_eq_dec : EqDecision IntoAddressHandler.
Proof. solve_decision. Defined.

(** The peer id an address ends in, if it ends in one. *)
Definition addr_peer_id (addr : Multiaddr) : option PeerId :=
  match last (iter addr) with
  | Some (P2p p) => multihash_to_peer p
  | _ => None
  end.

Definition handler_peer_id (h : IntoAddressHandler) : option PeerId :=
  '(addr, _) ← own h; addr_peer_id addr.

Record AddressHandler := mkAddressHandler {
  own_dial : option (Multiaddr * Z);
  remote_peer_id : PeerId;
  connected_point : ConnectedPoint Multiaddr Endpoint;
  handler_keep_alive : bool
}.

Definition into_handler (h : IntoAddressHandler) (remote_peer_id : PeerId)
    (connected_point : ConnectedPoint Multiaddr Endpoint) : AddressHandler :=
  mkAddressHandler (own h) remote_peer_id connected_point (keep h).

Definition connection_keep_alive (h : AddressHandler) : KeepAlive :=
  if handler_keep_alive h then KeepAliveYes else KeepAliveNo.

(** The handler never has anything to report. *)
Definition handler_poll (h : AddressHandler) : AddressHandler * Poll Empty_set := (h, Pending).

Lemma handler_peer_id_push (a : Multiaddr) p r k {LL : Libp2pLaws} :
  handler_peer_id (mkIntoAddressHandler (Some (push a (P2p (peer_to_multihash p)), r)) k) = Some p.
Proof.
  cbn. unfold addr_peer_id. by rewrite iter_push, last_snoc, peer_multihash.
Qed.
End AddressHandler.
