(* ===== verification/Peers.v ===== *)
(** * The address book (src/net/peers.rs): state and operations

    Every operation of [AddressBook] is a function on its state.  [Utc::now()]
    and [rand::random()] are arguments; where one call reads the clock or the
    generator several times the argument is the sequence of readings.  What an
    operation sends on the event streams is in the senders' queues, what it asks
    of the swarm is in [actions] and [deferred]. *)
From S2P Require Import Prelude Time Libp2p PeerInfo AddressHandler.

Definition SIM_OPEN_RETRIES : Z := 10.

Inductive IpAddr := V4 (a : Z) | V6 (a : Z).

#[export] Instance IpAddr_eq_dec : EqDecision IpAddr.
Proof. solve_decision. Defined.

Inductive Cow (A : Type) : Type := Borrowed (a : A) | Owned (a : A).
Arguments Borrowed {_} _.
Arguments Owned {_} _.

Definition into_owned {A} (c : Cow A) : A := match c with Borrowed a | Owned a => a end.

(** [Ipv4Addr::is_loopback]: the first octet is 127. *)
Definition ip4_is_loopback (a : Z) : bool := Z.eqb (Z.shiftr a 24) 127.

(** ** Addresses *)
Section Addresses.
Context `{C : Chrono} `{L : Libp2p}.

Definition normalize_addr (addr : Multiaddr) (peer : PeerId) : Multiaddr :=
  match last (iter addr) with
  | Some (P2p _) => addr
  | _ => push addr (P2p (peer_to_multihash peer))
  end.

Definition normalize_addr_ref (addr : Multiaddr) (peer : PeerId) : Cow Multiaddr :=
  match last (iter addr) with
  | Some (P2p _) => Borrowed addr
  | _ => Owned (push addr (P2p (peer_to_multihash peer)))
  end.

Definition without_peer_id (addr : Multiaddr) : Multiaddr :=
  match last (iter addr) with
  | Some (P2p _) => pop addr
  | _ => addr
  end.

Definition normalize_connected_point (cp : ConnectedPoint Multiaddr Endpoint)
    (local remote : PeerId) : ConnectedPoint Multiaddr Endpoint :=
  match cp with
  | Dialer address role_override =>
      Dialer (into_owned (normalize_addr_ref address remote)) role_override
  | Listener local_addr send_back_addr =>
      Listener (into_owned (normalize_addr_ref local_addr local))
               (into_owned (normalize_addr_ref send_back_addr remote))
  end.

(** [MultiaddrExt::is_loopback]. *)
Definition is_loopback (a : Multiaddr) : bool :=
  match head (iter a) with
  | Some (Ip4 addr) => if negb (ip4_is_loopback addr) then false else true
  | _ => true
  end.

Definition ip_port (m : Multiaddr) : option (IpAddr * Z) :=
  match iter m with
  | Ip4 ip :: Tcp p :: _ => Some (V4 ip, p)
  | Ip6 ip :: Tcp p :: _ => Some (V6 ip, p)
  | _ => None
  end.

Definition diff_time (former latter : DateTime) : Duration :=
  default ZERO (std_since latter former).

Definition is_sim_open (error : TransportError Multiaddr IoError) : bool :=
  match error with
  | MultiaddrNotSupported _ => false
  | TransportOther err =>
      match io_dns err with
      | Some (DnsTransport err) =>
          match io_transport err with
          | Some (TimeoutOther (EA (EB (UpgradeApply (NoiseIo err))))) =>
              match io_kind err with InvalidData => true | _ => false end
          | _ => false
          end
      | _ => false
      end
  end.
End Addresses.

(** ** Events and requests to the swarm *)
Module Event.
Section Event.
Context `{L : Libp2p}.

Inductive t :=
| NewListener (l : ListenerId)
| NewListenAddr (l : ListenerId) (a : Multiaddr)
| ExpiredListenAddr (l : ListenerId) (a : Multiaddr)
| ListenerError (l : ListenerId) (e : string)
| ListenerClosed (l : ListenerId)
| NewExternalAddr (a : Multiaddr)
| ExpiredExternalAddr (a : Multiaddr)
| Discovered (p : PeerId)
| DialFailure (p : PeerId) (a : Multiaddr) (e : string)
| Unreachable (p : PeerId)
| ConnectionEstablished (p : PeerId) (cp : ConnectedPoint Multiaddr Endpoint)
| ConnectionClosed (p : PeerId) (cp : ConnectedPoint Multiaddr Endpoint)
| AddressChanged (p : PeerId) (old new : ConnectedPoint Multiaddr Endpoint)
| Connected (p : PeerId)
| Disconnected (p : PeerId)
| Subscribed (p : PeerId) (topic : string)
| Unsubscribed (p : PeerId) (topic : string)
| Bootstrapped
| NewInfo (p : PeerId).
End Event.
End Event.

Module FromSwarm.
Section FromSwarm.
Context `{L : Libp2p}.

Inductive t :=
| ConnectionEstablished (peer : PeerId) (endpoint : ConnectedPoint Multiaddr Endpoint)
    (other_established : Z)
| ConnectionClosed
| AddressChange (peer : PeerId) (old new : ConnectedPoint Multiaddr Endpoint)
| DialFailure (handler : IntoAddressHandler) (peer : option PeerId)
    (error : DialError Multiaddr IoError)
| ListenFailure
| NewListener (l : ListenerId)
| NewListenAddr (l : ListenerId) (a : Multiaddr)
| ExpiredListenAddr (l : ListenerId) (a : Multiaddr)
| ListenerError (l : ListenerId) (err : string)
| ListenerClosed (l : ListenerId)
| NewExternalAddr (a : Multiaddr)
| ExpiredExternalAddr (a : Multiaddr).
End FromSwarm.
End FromSwarm.

Section SwarmRequests.
Context `{L : Libp2p}.

(** The calls the program makes on the [DialOpts] builder: [None] where it
    leaves libp2p's default. *)
Record DialOpts := mkDialOpts {
  opts_peer : PeerId;
  opts_condition : option PeerCondition;
  opts_addresses : option (list Multiaddr)
}.

(** The only request the book makes: [ToSwarm::Dial]. *)
Record ToSwarm := ToSwarmDial {
  opts : DialOpts;
  handler : IntoAddressHandler
}.
End SwarmRequests.

(** What one book has added to the gauges and counters of src/net/peers.rs that are
    updated.  These are statics that all books of a process share: the value of a gauge
    is the sum of what its books have added, at 64 bits ([gauge]). *)
Record Metrics := mkMetrics {
  LISTENERS : Z;
  LISTEN_ADDRS : Z;
  EXTERNAL_ADDRS : Z;
  LISTENER_ERROR : Z
}.

Definition wrap_i64 (x : Z) : Z := ((x + 2 ^ 63) `mod` 2 ^ 64 - 2 ^ 63)%Z.
Definition gauge (f : Metrics -> Z) (books : list Metrics) : Z := wrap_i64 (foldr Z.add 0%Z (f <$> books)).

(** ** The address book *)
Section AddressBook.
Context `{P : Profile} `{C : Chrono} `{L : Libp2p} `{Ch : Channels} `{HO : HashOrder}.

Record AddressBook := mkAddressBook {
  port_reuse : bool;
  enable_loopback : bool;
  keep_alive : bool;
  local_peer_id : PeerId;
  listeners : gset Multiaddr;
  peers : gmap PeerId PeerInfo;
  external : list AddressRecord;
  refresh_external : bool;
  event_stream : list (Sender Event.t);
  actions : list ToSwarm;
  deferred : list (Duration * ToSwarm);
  metrics : Metrics
}.

Definition with_listeners (st : AddressBook) (l : gset Multiaddr) : AddressBook :=
  mkAddressBook (port_reuse st) (enable_loopback st) (keep_alive st) (local_peer_id st) l
    (peers st) (external st) (refresh_external st) (event_stream st) (actions st)
    (deferred st) (metrics st).
Definition with_peers (st : AddressBook) (p : gmap PeerId PeerInfo) : AddressBook :=
  mkAddressBook (port_reuse st) (enable_loopback st) (keep_alive st) (local_peer_id st)
    (listeners st) p (external st) (refresh_external st) (event_stream st) (actions st)
    (deferred st) (metrics st).
Definition with_external (st : AddressBook) (e : list AddressRecord) (refresh : bool) : AddressBook :=
  mkAddressBook (port_reuse st) (enable_loopback st) (keep_alive st) (local_peer_id st)
    (listeners st) (peers st) e refresh (event_stream st) (actions st) (deferred st) (metrics st).
Definition with_event_stream (st : AddressBook) (e : list (Sender Event.t)) : AddressBook :=
  mkAddressBook (port_reuse st) (enable_loopback st) (keep_alive st) (local_peer_id st)
    (listeners st) (peers st) (external st) (refresh_external st) e (actions st)
    (deferred st) (metrics st).
Definition with_actions (st : AddressBook) (a : list ToSwarm) : AddressBook :=
  mkAddressBook (port_reuse st) (enable_loopback st) (keep_alive st) (local_peer_id st)
    (listeners st) (peers st) (external st) (refresh_external st) (event_stream st) a
    (deferred st) (metrics st).
Definition with_deferred (st : AddressBook) (d : list (Duration * ToSwarm)) : AddressBook :=
  mkAddressBook (port_reuse st) (enable_loopback st) (keep_alive st) (local_peer_id st)
    (listeners st) (peers st) (external st) (refresh_external st) (event_stream st) (actions st)
    d (metrics st).
Definition with_metrics (st : AddressBook) (m : Metrics) : AddressBook :=
  mkAddressBook (port_reuse st) (enable_loopback st) (keep_alive st) (local_peer_id st)
    (listeners st) (peers st) (external st) (refresh_external st) (event_stream st) (actions st)
    (deferred st) m.

(** [AddressBook::new], called with empty shared variables. *)
Definition new (local : PeerId) (port_reuse enable_loopback keep_alive : bool) : AddressBook :=
  mkAddressBook port_reuse enable_loopback keep_alive local ∅ ∅ [] true [] [] []
    (mkMetrics 0 0 0 0).

Definition swarm_events (st : AddressBook) (tx : Sender Event.t) : AddressBook :=
  with_event_stream st (event_stream st ++ [tx]).

(** Send to every stream and keep those whose receiver is still there. *)
Definition notify (st : AddressBook) (event : Event.t) : AddressBook :=
  with_event_stream st (omap (fun tx => unbounded_send tx event) (event_stream st)).

Definition push_action (st : AddressBook) (a : ToSwarm) : AddressBook :=
  with_actions st (actions st ++ [a]).

Definition new_handler (st : AddressBook) : IntoAddressHandler :=
  mkIntoAddressHandler None (keep_alive st).

(** [peers.entry(peer).or_default()]. *)
Definition entry (st : AddressBook) (peer : PeerId) : PeerInfo :=
  default PeerInfo_default (peers st !! peer).

Definition put_info (st : AddressBook) (peer : PeerId) (i : PeerInfo) : AddressBook :=
  with_peers st (<[peer := i]> (peers st)).

Definition is_connected_to (i : PeerInfo) (a : Multiaddr) : bool :=
  bool_decide (is_Some (connections i !! a)).

(** *** Requests *)

Definition dial (st : AddressBook) (peer : PeerId) : AddressBook :=
  if decide (peer = local_peer_id st) then st
  else push_action st (ToSwarmDial (mkDialOpts peer None None) (new_handler st)).

Definition dial_address (st : AddressBook) (peer : PeerId) (addr : Multiaddr) : AddressBook :=
  if decide (peer = local_peer_id st) then st
  else
    let target := into_owned (normalize_addr_ref addr peer) in
    let info := entry st peer in
    let st := put_info st peer info in
    if is_connected_to info target then st
    else
      push_action st
        (ToSwarmDial (mkDialOpts peer None (Some [addr]))
           (mkIntoAddressHandler (Some (target, SIM_OPEN_RETRIES + 1)%Z) (keep_alive st))).

Definition add_address (now : DateTime) (st : AddressBook) (peer : PeerId) (address : Multiaddr)
    (source : AddressSource) : outcome AddressBook :=
  if decide (peer = local_peer_id st) then mret st
  else if negb (enable_loopback st) && is_loopback address then mret st
  else
    let discovered :=
      match peers st !! peer with
      | Some info => bool_decide (confirmed_addresses info = ∅)
      | None => true
      end in
    let '(addr_full, address) :=
      match normalize_addr_ref address peer with
      | Borrowed a => (a, pop address)
      | Owned a => (a, address)
      end in
    if decide (address ∈ listeners st) then mret st
    else
      let info := entry st peer in
      '(info, probe) ← ingest_address now info addr_full source;
      let result := probe && negb (is_connected_to info addr_full) in
      let st := put_info st peer info in
      let st :=
        if result then
          push_action st
            (ToSwarmDial (mkDialOpts peer (Some Always) (Some [address]))
               (mkIntoAddressHandler (Some (addr_full, SIM_OPEN_RETRIES + 1)%Z) false))
        else st in
      let st := if discovered && is_confirmed source then notify st (Event.Discovered peer) else st in
      mret (notify st (Event.NewInfo peer)).

Definition remove_address (st : AddressBook) (peer : PeerId) (address : Multiaddr) : AddressBook :=
  match peers st !! peer with
  | Some info =>
      let address := into_owned (normalize_addr_ref address peer) in
      put_info st peer (with_addresses info (delete address (addresses info)))
  | None => st
  end.

(** The body of the loop of [prune_peers]: [true] where it reaches [remove.push]. *)
Definition prunable (now : DateTime) (min_age : Duration) (info : PeerInfo) : bool :=
  bool_decide (connections info = ∅) &&
  match failures info with
  | f :: _ => negb (bool_decide (dur_lt (diff_time (time f) now) min_age))
  | [] => true
  end &&
  negb (existsb
    (fun '(_, (s, dt)) =>
       is_confirmed s ||
       (is_to_probe s && bool_decide (dur_lt (diff_time dt now) (dur_max min_age (from_secs 10)))))
    (map_iter (addresses info))).

Definition prune_peers (now : DateTime) (st : AddressBook) (min_age : Duration) : AddressBook :=
  let remove := fst <$> filter (fun '(_, info) => prunable now min_age info = true) (map_iter (peers st)) in
  foldl (fun st peer => notify (with_peers st (delete peer (peers st))) (Event.NewInfo peer)) st remove.

(** *** Reports *)

(** The reason of a closed connection and whether the remote closed it. *)
Definition close_reason (error : option (ConnectionError IoError (MyHandlerError ProtocolError))) :
    string * bool :=
  match error with
  | Some (ConnHandler (EA (EA (EA (EA (EA (EA (EA e)))))))) => match e : Empty_set with end
  | Some (ConnHandler (EA (EA (EA (EA (EA (EA (EB e)))))))) =>
      ("Kademlia I/O error: " +:+ protocol_error_display e, false)
  | Some (ConnHandler (EA (EA (EA (EA (EA (EB e))))))) => match e : Empty_set with end
  | Some (ConnHandler (EA (EA (EA (EA (EB e)))))) =>
      ("Ping failure: " +:+ protocol_error_display e, false)
  | Some (ConnHandler (EA (EA (EA (EB e))))) =>
      ("Identify I/O error: " +:+ protocol_error_display e, false)
  | Some (ConnHandler (EA (EA (EB e)))) => ("Bitswap error: " +:+ protocol_error_display e, false)
  | Some (ConnHandler (EA (EB e))) => ("Gossipsub error: " +:+ protocol_error_display e, false)
  | Some (ConnHandler (EB e)) => ("Broadcast error: " +:+ protocol_error_display e, false)
  | Some (ConnIO e) => ("connection I/O error: " +:+ io_display e, true)
  | Some KeepAliveTimeout => ("we closed due to missing keepalive", false)
  | None => ("we closed", false)
  end.

Definition connection_closed (now : DateTime) (st : AddressBook) (peer : PeerId)
    (conn : ConnectedPoint Multiaddr Endpoint) (num_established : Z)
    (error : option (ConnectionError IoError (MyHandlerError ProtocolError))) : AddressBook :=
  let conn := normalize_connected_point conn (local_peer_id st) peer in
  let addr := get_remote_address conn in
  let debug := connection_error_debug error in
  let '(reason, peer_closed) := close_reason error in
  let info := entry st peer in
  let info := with_connections info (delete addr (connections info)) in
  let addr_no_peer := without_peer_id addr in
  let failure :=
    if peer_closed : bool then failure_them now addr_no_peer reason debug
    else failure_us now addr_no_peer reason debug in
  let info := push_failure info addr failure false in
  let st := put_info st peer info in
  let st := notify st (Event.ConnectionClosed peer conn) in
  let st := if decide (num_established = 0%Z) then notify st (Event.Disconnected peer) else st in
  notify st (Event.NewInfo peer).

Definition book_set_rtt (st : AddressBook) (peer : PeerId) (d : option Duration) : outcome AddressBook :=
  match peers st !! peer with
  | Some info =>
      info ← set_rtt info d;
      mret (notify (put_info st peer info) (Event.NewInfo peer))
  | None => mret st
  end.

(** *** Identify information *)

(** The ports a peer says it listens on, without the addresses we are
    connected to. *)
Definition listen_ports (info : PeerInfo) (peer : PeerId) : list (IpAddr * Z) :=
  omap ip_port
    (filter (fun a => is_connected_to info (into_owned (normalize_addr_ref a peer)) = false)
       (PeerInfo.listeners info)).

(** [translated.insert(addr.replace(1, |_| Some(Tcp(port))).unwrap())] for
    every port of a list; the flag is [added]. *)
Definition add_ports (addr : Multiaddr) (ports : list Z) (acc : gset Multiaddr * bool) :
    outcome (gset Multiaddr * bool) :=
  foldM (fun '(translated, _) lp =>
           a ← unwrap "replace" (replace addr 1 (Tcp lp));
           mret ({[a]} ∪ translated, true)) acc ports.

(** The body of the loop over the addresses to translate. *)
Definition translate_address (listen_port : list (IpAddr * Z)) (common_port : gset Z)
    (translated : gset Multiaddr) (addr : Multiaddr) : outcome (gset Multiaddr) :=
  match ip_port addr with
  | Some (ip, _) =>
      '(translated, added) ←
        add_ports addr (snd <$> filter (fun '(a, _) => a = ip) listen_port) (translated, false);
      '(translated, added) ←
        (if added : bool then mret (translated, added)
         else add_ports addr (set_iter common_port) (translated, added));
      mret (if added : bool then translated else {[addr]} ∪ translated)
  | None => mret translated
  end.

(** The body of the loop over the translated addresses: [clk a s] is the time
    at which [a] is ingested with source [s]. *)
Definition ingest_translated (clk : Multiaddr -> AddressSource -> DateTime) (st : AddressBook)
    (peer : PeerId) (acc : PeerInfo * list ToSwarm) (addr : Multiaddr) :
    outcome (PeerInfo * list ToSwarm) :=
  let '(info, acts) := acc in
  let tcp := pop addr in
  if decide (tcp ∈ listeners st) then mret (info, acts)
  else
    '(info, probe) ← ingest_address (clk addr Listen) info addr Listen;
    if probe : bool then
      if port_reuse st && is_connected_to info addr then
        '(info, _) ← ingest_address (clk addr Candidate) info addr Candidate;
        mret (info, acts)
      else
        mret (info, acts ++
          [ToSwarmDial (mkDialOpts peer (Some Always) (Some [tcp]))
             (mkIntoAddressHandler (Some (addr, 4%Z)) false)])
    else mret (info, acts).

Definition identified (info : PeerInfo) (identify : IdentifyInfo Multiaddr) : PeerInfo :=
  mkPeerInfo (Some (id_protocol_version identify)) (Some (id_agent_version identify))
    (id_protocols identify) (id_listen_addrs identify)
    (addresses info) (connections info) (failures info) (rtt info).

(** All addresses [set_info] derives from the identify message. *)
Definition derived_addresses (st : AddressBook) (peer : PeerId) (info : PeerInfo) :
    outcome (gset Multiaddr) :=
  let listen_port := listen_ports info peer in
  let common_port := list_to_set (snd <$> listen_port) : gset Z in
  translated ←
    foldM (translate_address listen_port common_port) ∅ (set_iter (addresses_to_translate info));
  mret (translated ∪
    list_to_set
      ((fun a => into_owned (normalize_addr_ref a peer)) <$>
         filter (fun a => enable_loopback st || negb (is_loopback a) = true) (PeerInfo.listeners info))).

Definition set_info (clk : Multiaddr -> AddressSource -> DateTime) (st : AddressBook)
    (peer : PeerId) (identify : IdentifyInfo Multiaddr) : outcome AddressBook :=
  match peers st !! peer with
  | Some info =>
      let info := identified info identify in
      translated ← derived_addresses st peer info;
      let info :=
        with_addresses info
          (filter (fun kv => is_to_translate (kv.2).1 = false) (addresses info)) in
      '(info, acts) ← foldM (ingest_translated clk st peer) (info, []) (set_iter translated);
      let st := put_info (with_actions st (actions st ++ acts)) peer info in
      mret (notify st (Event.NewInfo peer))
  | None => mret st
  end.

(** *** Failed dials *)

Definition redial_delay (st : AddressBook) (random : Z) : outcome Duration :=
  a ← dur_mul (from_secs 1) random;
  a ← dur_div a U32_MAX;
  dur_add a (if port_reuse st then from_secs 1 else ZERO).

Definition defer (st : AddressBook) (random : Z) (a : ToSwarm) : outcome AddressBook :=
  delay ← redial_delay st random;
  mret (with_deferred st (deferred st ++ [(delay, a)])).

Definition is_transport (error : DialError Multiaddr IoError) : bool :=
  match error with DialTransport _ => true | _ => false end.
Definition is_wrong_peer (error : DialError Multiaddr IoError) : bool :=
  match error with WrongPeerId => true | _ => false end.
Definition is_connection_io (error : DialError Multiaddr IoError) : bool :=
  match error with ConnectionIo _ => true | _ => false end.
Definition any_sim_open (error : DialError Multiaddr IoError) : bool :=
  match error with DialTransport v => existsb (fun '(_, e) => is_sim_open e) v | _ => false end.

(** A failure of one of our validation dials. *)
Definition validation_failure (now : DateTime) (random : Z) (st : AddressBook) (peer : PeerId)
    (info : PeerInfo) (addr : Multiaddr) (retries : Z) (keep : bool)
    (error : DialError Multiaddr IoError) : outcome AddressBook :=
  let wrong_peer := is_wrong_peer error in
  let probe_result := is_transport error || wrong_peer || is_connection_io error in
  let failure := failure_dial now (without_peer_id addr) error in
  let info := push_failure info addr failure probe_result in
  let info := if wrong_peer then with_addresses info (delete addr (addresses info)) else info in
  let st := put_info st peer info in
  st ←
    (if any_sim_open error && bool_decide (0 < retries)%Z then
       defer st random
         (ToSwarmDial (mkDialOpts peer None (Some [addr]))
            (mkIntoAddressHandler (Some (addr, retries - 1)%Z) keep))
     else mret st);
  let st := notify st (Event.DialFailure peer addr (dial_error_display error)) in
  mret (notify st (Event.NewInfo peer)).

(** One transport error of a dial by peer id. *)
Definition transport_failure (clk : nat -> DateTime) (st : AddressBook) (peer : PeerId)
    (acc : PeerInfo * list Event.t * list ToSwarm)
    (e : nat * (Multiaddr * TransportError Multiaddr IoError)) :
    PeerInfo * list Event.t * list ToSwarm :=
  let '(info, events, redials) := acc in
  let '(n, (addr, error)) := e in
  let failure := failure_transport (clk n) (without_peer_id addr) error in
  let info := push_failure info (into_owned (normalize_addr_ref addr peer)) failure true in
  let redials :=
    if is_sim_open error then
      redials ++
        [ToSwarmDial (mkDialOpts peer None (Some [addr]))
           (mkIntoAddressHandler (Some (addr, SIM_OPEN_RETRIES)) (keep_alive st))]
    else redials in
  (info, events ++ [Event.DialFailure peer addr (transport_error_debug error)], redials).

Definition peer_dial_failure (clk : nat -> DateTime) (rnd : nat -> Z) (st : AddressBook)
    (peer : PeerId) (info : PeerInfo) (v : list (Multiaddr * TransportError Multiaddr IoError)) :
    outcome AddressBook :=
  let '(info, events, redials) :=
    foldl (transport_failure clk st peer) (info, [], []) (number v) in
  let st := put_info st peer info in
  let st := foldl notify st events in
  let st := match redials with [] => notify st (Event.Unreachable peer) | _ => st end in
  st ← foldM (fun st '(n, a) => defer st (rnd n) a) st (number redials);
  mret (notify st (Event.NewInfo peer)).

Definition dial_failure (clk : nat -> DateTime) (rnd : nat -> Z) (st : AddressBook)
    (h : IntoAddressHandler) (peer_id : option PeerId) (error : DialError Multiaddr IoError) :
    outcome AddressBook :=
  match (match handler_peer_id h with Some p => Some p | None => peer_id end) with
  | None => mret st
  | Some peer =>
      match peers st !! peer with
      | None => mret st
      | Some info =>
          match own h with
          | Some (addr, retries) =>
              validation_failure (clk 0) (rnd 0) st peer info addr retries (keep h) error
          | None =>
              match error with
              | DialTransport v => peer_dial_failure clk rnd st peer info v
              | DialPeerConditionFalse => mret st
              | Banned | LocalPeerId => mret st
              | _ => mret (notify st (Event.Unreachable peer))
              end
          end
      end
  end.

(** *** The swarm's side *)

(** [external_addresses] are those of the poll parameters, [timer] the index of
    a deferred dial whose delay has elapsed, if there is one. *)
Definition poll (st : AddressBook) (external_addresses : list AddressRecord) (timer : option nat) :
    AddressBook * Poll ToSwarm :=
  let st := if refresh_external st then with_external st external_addresses false else st in
  match actions st with
  | action :: rest => (with_actions st rest, Ready action)
  | [] =>
      match timer with
      | Some n =>
          match deferred st !! n with
          | Some (_, action) => (with_deferred st (delete n (deferred st)), Ready action)
          | None => (st, Pending)
          end
      | None => (st, Pending)
      end
  end.

Definition inc_listeners (m : Metrics) (d : Z) : Metrics :=
  mkMetrics (LISTENERS m + d) (LISTEN_ADDRS m) (EXTERNAL_ADDRS m) (LISTENER_ERROR m).
Definition inc_listen_addrs (m : Metrics) (d : Z) : Metrics :=
  mkMetrics (LISTENERS m) (LISTEN_ADDRS m + d) (EXTERNAL_ADDRS m) (LISTENER_ERROR m).
Definition inc_external_addrs (m : Metrics) (d : Z) : Metrics :=
  mkMetrics (LISTENERS m) (LISTEN_ADDRS m) (EXTERNAL_ADDRS m + d) (LISTENER_ERROR m).
Definition inc_listener_error (m : Metrics) (d : Z) : Metrics :=
  mkMetrics (LISTENERS m) (LISTEN_ADDRS m) (EXTERNAL_ADDRS m) (LISTENER_ERROR m + d).

Definition source_of_connection (conn : ConnectedPoint Multiaddr Endpoint) : AddressSource :=
  if is_dialer conn then Dial else Incoming.

Definition connection_established (now_addr now_conn : DateTime) (st : AddressBook) (peer : PeerId)
    (endpoint : ConnectedPoint Multiaddr Endpoint) (other_established : Z) : outcome AddressBook :=
  let conn := normalize_connected_point endpoint (local_peer_id st) peer in
  let address := get_remote_address conn in
  st ← add_address now_addr st peer address (source_of_connection conn);
  let info := entry st peer in
  let st :=
    put_info st peer
      (with_connections info (<[address := (now_conn, direction_from conn)]> (connections info))) in
  let st := if decide (other_established = 0%Z) then notify st (Event.Connected peer) else st in
  mret (notify st (Event.ConnectionEstablished peer conn)).

Definition address_change (now_addr now_conn : DateTime) (st : AddressBook) (peer : PeerId)
    (old new : ConnectedPoint Multiaddr Endpoint) : outcome AddressBook :=
  let old := normalize_connected_point old (local_peer_id st) peer in
  let new := normalize_connected_point new (local_peer_id st) peer in
  let old_addr := get_remote_address old in
  let new_addr := get_remote_address new in
  st ← add_address now_addr st peer new_addr (source_of_connection new);
  let info := entry st peer in
  let st :=
    put_info st peer
      (with_connections info
         (<[new_addr := (now_conn, direction_from new)]> (delete old_addr (connections info)))) in
  mret (notify st (Event.AddressChanged peer old new)).

Definition new_listen_addr (st : AddressBook) (l : ListenerId) (a : Multiaddr) : AddressBook :=
  let st :=
    if decide (a ∈ listeners st) then st
    else with_metrics (with_listeners st ({[a]} ∪ listeners st)) (inc_listen_addrs (metrics st) 1) in
  notify st (Event.NewListenAddr l a).

Definition expired_listen_addr (st : AddressBook) (l : ListenerId) (a : Multiaddr) : AddressBook :=
  let st :=
    if decide (a ∈ listeners st) then
      with_metrics (with_listeners st (listeners st ∖ {[a]})) (inc_listen_addrs (metrics st) (-1))
    else st in
  notify st (Event.ExpiredListenAddr l a).

Definition external_addr_changed (st : AddressBook) (a : Multiaddr) (d : Z)
    (ev : Multiaddr -> Event.t) : AddressBook :=
  let st := with_external st (external st) true in
  let addr := normalize_addr a (local_peer_id st) in
  let st := with_metrics st (inc_external_addrs (metrics st) d) in
  notify st (ev addr).

Definition on_swarm_event (clk : nat -> DateTime) (rnd : nat -> Z) (st : AddressBook)
    (event : FromSwarm.t) : outcome AddressBook :=
  match event with
  | FromSwarm.ConnectionEstablished peer endpoint other_established =>
      connection_established (clk 0) (clk 1) st peer endpoint other_established
  | FromSwarm.ConnectionClosed => mret st
  | FromSwarm.AddressChange peer old new => address_change (clk 0) (clk 1) st peer old new
  | FromSwarm.DialFailure h peer error => dial_failure clk rnd st h peer error
  | FromSwarm.ListenFailure => mret st
  | FromSwarm.NewListener l =>
      mret (notify (with_metrics st (inc_listeners (metrics st) 1)) (Event.NewListener l))
  | FromSwarm.NewListenAddr l a => mret (new_listen_addr st l a)
  | FromSwarm.ExpiredListenAddr l a => mret (expired_listen_addr st l a)
  | FromSwarm.ListenerError l err =>
      mret (notify (with_metrics st (inc_listener_error (metrics st) 1)) (Event.ListenerError l err))
  | FromSwarm.ListenerClosed l =>
      mret (notify (with_metrics st (inc_listeners (metrics st) (-1))) (Event.ListenerClosed l))
  | FromSwarm.NewExternalAddr a => mret (external_addr_changed st a 1 Event.NewExternalAddr)
  | FromSwarm.ExpiredExternalAddr a => mret (external_addr_changed st a (-1) Event.ExpiredExternalAddr)
  end.
End AddressBook.
