(* ===== verification/PeersInv.v ===== *)
(** * The address book: invariant and its preservation

    [book_wf] is the invariant of [AddressBook]; every operation returns (none
    panics, in a debug or a release build) and keeps it.  [exec] runs any
    one of its operations, and [book_reachable] is the closure under them. *)
From S2P Require Import Prelude Time Libp2p PeerInfo AddressHandler Peers.

Section Invariant.
Context `{P : Profile} `{C : Chrono} `{L : Libp2p} `{Ch : Channels} `{HO : HashOrder}.
Context {LL : Libp2pLaws} {HL : HashOrderLaws}.

(** ** Normalised addresses *)

Lemma normalize_addr_ref_spec a peer :
  (ends_in_p2p a /\ normalize_addr_ref a peer = Borrowed a) \/
  (~ ends_in_p2p a /\
     normalize_addr_ref a peer = Owned (push a (P2p (peer_to_multihash peer)))).
Proof.
  unfold normalize_addr_ref, ends_in_p2p.
  destruct (last (iter a)) as [[]|]; try (right; split; [by intros [? ?]|done]).
  left. split; [by eexists|done].
Qed.

Lemma normalize_addr_into_owned a peer :
  into_owned (normalize_addr_ref a peer) = normalize_addr a peer.
Proof. unfold normalize_addr, normalize_addr_ref. by destruct (last (iter a)) as [[]|]. Qed.

Lemma normalize_addr_p2p a peer : ends_in_p2p (into_owned (normalize_addr_ref a peer)).
Proof.
  destruct (normalize_addr_ref_spec a peer) as [[H ->]|[_ ->]]; cbn; auto with ipfs.
Qed.

Lemma normalize_addr_id a peer : ends_in_p2p a -> normalize_addr a peer = a.
Proof. intros [h Hh]. unfold normalize_addr. by rewrite Hh. Qed.

Lemma normalize_remote_p2p cp local remote :
  ends_in_p2p (get_remote_address (normalize_connected_point cp local remote)).
Proof. destruct cp; cbn; rewrite ?remote_dialer, ?remote_listener; apply normalize_addr_p2p. Qed.

(** The address without the peer id and the address with it, as [add_address]
    computes them. *)
Lemma add_address_split a peer :
  exists full bare,
    (match normalize_addr_ref a peer with
     | Borrowed x => (x, pop a) | Owned x => (x, a) end) = (full, bare) /\
    full = normalize_addr a peer /\ ends_in_p2p full /\ bare = pop full.
Proof.
  destruct (normalize_addr_ref_spec a peer) as [[H E]|[H E]];
    rewrite <- normalize_addr_into_owned, E; do 2 eexists; cbn; repeat split; auto with ipfs.
  by rewrite pop_push.
Qed.

Lemma ip_port_length a ip p : ip_port a = Some (ip, p) -> ends_in_p2p a -> 2 < length (iter a).
Proof.
  unfold ip_port, ends_in_p2p. intros H [h Hh].
  destruct (iter a) as [|[] [|[] [|? ?]]]; cbn in *; simplify_eq; lia.
Qed.

(** ** The invariant *)

(** A request in [actions]: never to ourselves; a validation dial carries an
    address with a peer id and at most [SIM_OPEN_RETRIES + 1] redials. *)
Definition action_ok (local : PeerId) (a : ToSwarm) : Prop :=
  opts_peer (opts a) <> local /\
  match own (handler a) with
  | Some (addr, r) => ends_in_p2p addr /\ (0 < r <= SIM_OPEN_RETRIES + 1)%Z
  | None => True
  end.

(** A deferred redial: never to ourselves, after at most two seconds, with at
    most [SIM_OPEN_RETRIES] further redials. *)
Definition redial_ok (local : PeerId) (da : Duration * ToSwarm) : Prop :=
  opts_peer (opts da.2) <> local /\
  (dur_wf da.1 /\ as_nanos da.1 <= 2 * NANOS_PER_SEC)%Z /\
  exists addr r, own (handler da.2) = Some (addr, r) /\
    (0 <= r <= SIM_OPEN_RETRIES)%Z /\ opts_addresses (opts da.2) = Some [addr].

Record book_wf (B : Z) (st : AddressBook) : Prop := {
  bw_peers : map_Forall (fun _ i => info_wf B i) (peers st);
  bw_local : peers st !! local_peer_id st = None;
  bw_actions : Forall (action_ok (local_peer_id st)) (actions st);
  bw_deferred : Forall (redial_ok (local_peer_id st)) (deferred st);
  bw_gauge : LISTEN_ADDRS (metrics st) = Z.of_nat (size (listeners st))
}.

Lemma book_new_wf B local pr el ka : book_wf B (new local pr el ka).
Proof. split; cbn; [apply map_Forall_empty | done | constructor.. | done]. Qed.

Lemma entry_wf B st peer : book_wf B st -> info_wf B (entry st peer).
Proof.
  intros H. unfold entry. destruct (peers st !! peer) as [i|] eqn:E; cbn; [|apply default_wf].
  by apply (bw_peers _ _ H peer).
Qed.

Lemma put_info_wf B st peer i :
  book_wf B st -> peer <> local_peer_id st -> info_wf B i -> book_wf B (put_info st peer i).
Proof.
  intros [Hp Hl Ha Hd Hg] Hne Hi. split; cbn; try done.
  - by apply map_Forall_insert_2.
  - by rewrite lookup_insert_ne.
Qed.

Lemma notify_wf B st e : book_wf B st -> book_wf B (notify st e).
Proof. by intros [????]. Qed.

Lemma foldl_notify_wf B st es : book_wf B st -> book_wf B (foldl notify st es).
Proof. intros H. apply foldl_invariant; [done|]. auto using notify_wf. Qed.

Lemma push_actions_wf B st acts :
  book_wf B st -> Forall (action_ok (local_peer_id st)) acts ->
  book_wf B (with_actions st (actions st ++ acts)).
Proof. intros [????] ?. split; cbn; try done. by apply Forall_app. Qed.

Lemma push_action_wf B st a :
  book_wf B st -> action_ok (local_peer_id st) a -> book_wf B (push_action st a).
Proof. intros. apply push_actions_wf; [done|]. by apply Forall_singleton. Qed.

Lemma known_not_local B st peer i :
  book_wf B st -> peers st !! peer = Some i -> peer <> local_peer_id st.
Proof. intros H E ->. by rewrite (bw_local _ _ H) in E. Qed.

#[local] Hint Resolve book_new_wf entry_wf put_info_wf notify_wf push_action_wf
  push_actions_wf foldl_notify_wf known_not_local normalize_addr_p2p : ipfs.

(** ** Operations without failure *)

Lemma dial_wf B st peer : book_wf B st -> book_wf B (dial st peer).
Proof. intros H. unfold dial. case_decide; [done|]. apply push_action_wf; [done|by split]. Qed.

Lemma dial_address_wf B st peer a : book_wf B st -> book_wf B (dial_address st peer a).
Proof.
  intros H. unfold dial_address. case_decide; [done|].
  destruct (is_connected_to _ _); [by auto with ipfs|].
  apply push_action_wf; [by auto with ipfs|]. split; [done|]. cbn.
  split; [apply normalize_addr_p2p|]. unfold SIM_OPEN_RETRIES. lia.
Qed.

Lemma remove_address_wf B st peer a : book_wf B st -> book_wf B (remove_address st peer a).
Proof.
  intros H. unfold remove_address. destruct (peers st !! peer) as [i|] eqn:E; [|done].
  apply put_info_wf; [done|by eapply known_not_local|].
  pose proof (bw_peers _ _ H _ _ E) as Hi.
  apply with_addresses_wf; [done|]. by apply map_Forall_delete, Hi.
Qed.

Lemma prune_peers_wf B now st d : book_wf B st -> book_wf B (prune_peers now st d).
Proof.
  intros H. unfold prune_peers. apply foldl_invariant; [done|].
  intros st' p _ [Hp Hl Ha Hd Hg]. apply notify_wf. split; cbn; try done.
  - by apply map_Forall_delete.
  - rewrite lookup_delete. by case_decide.
Qed.

Lemma connection_closed_wf B now st peer cp n e :
  book_wf B st -> peer <> local_peer_id st -> book_wf B (connection_closed now st peer cp n e).
Proof.
  intros H Hne. unfold connection_closed. destruct (close_reason e) as [reason peer_closed].
  set (i := push_failure _ _ _ _).
  assert (Hi : info_wf B i).
  { subst i. apply push_failure_wf, with_connections_wf; [by apply entry_wf|].
    apply map_Forall_delete. by apply (wf_connections B), entry_wf. }
  clearbody i. apply notify_wf. case_decide; [apply notify_wf|]; apply notify_wf; by apply put_info_wf.
Qed.

Lemma poll_wf B st ext timer : book_wf B st -> book_wf B (poll st ext timer).1.
Proof.
  intros H. unfold poll.
  set (st' := if refresh_external st then _ else _).
  assert (H' : book_wf B st') by (subst st'; destruct (refresh_external st); [by destruct H|done]).
  clearbody st'. destruct (actions st') as [|a r] eqn:E.
  - destruct timer as [n|]; [|done]. destruct (deferred st' !! n) as [[d a]|]; [|done].
    destruct H' as [Hp Hl Ha Hd Hg]. split; cbn; try done. by apply Forall_delete.
  - destruct H' as [Hp Hl Ha Hd Hg]. rewrite E in Ha. apply Forall_cons in Ha as [_ Ha]. by split.
Qed.

(** ** [add_address] returns, in every build *)

(** Is this address kept out of the book? *)
Definition ignored (st : AddressBook) (peer : PeerId) (a : Multiaddr) : bool :=
  bool_decide (peer = local_peer_id st) ||
  (negb (enable_loopback st) && is_loopback a) ||
  bool_decide (pop (normalize_addr a peer) ∈ listeners st).

(** The information about the peer once the address is in the book. *)
Definition ingested_info (now : DateTime) (i : PeerInfo) (a : Multiaddr) (source : AddressSource) :
    PeerInfo :=
  with_addresses i (<[a := ((ingested (addresses i !! a) source).1, now)]> (addresses i)).

Definition probe_dial (peer : PeerId) (a : Multiaddr) : ToSwarm :=
  ToSwarmDial (mkDialOpts peer (Some Always) (Some [pop a]))
    (mkIntoAddressHandler (Some (a, SIM_OPEN_RETRIES + 1)%Z) false).

Definition undiscovered (st : AddressBook) (peer : PeerId) : bool :=
  match peers st !! peer with
  | Some info => bool_decide (confirmed_addresses info = ∅)
  | None => true
  end.

Definition added (now : DateTime) (st : AddressBook) (peer : PeerId) (a : Multiaddr)
    (source : AddressSource) : AddressBook :=
  let i := entry st peer in
  let st1 := put_info st peer (ingested_info now i a source) in
  let st2 :=
    if (ingested (addresses i !! a) source).2 && negb (is_connected_to i a)
    then push_action st1 (probe_dial peer a) else st1 in
  let st3 :=
    if undiscovered st peer && is_confirmed source
    then notify st2 (Event.Discovered peer) else st2 in
  notify st3 (Event.NewInfo peer).

Lemma add_address_spec now st peer a source :
  add_address now st peer a source ↓
    (if ignored st peer a then st else added now st peer (normalize_addr a peer) source).
Proof.
  unfold add_address, ignored.
  case_decide; [by rewrite bool_decide_eq_true_2|].
  rewrite bool_decide_eq_false_2 by done. cbn [orb].
  destruct (negb (enable_loopback st) && is_loopback a); [done|]. cbn [orb].
  destruct (add_address_split a peer) as (full & bare & E & -> & Hp & ->). rewrite E.
  case_decide; [by rewrite bool_decide_eq_true_2|].
  rewrite bool_decide_eq_false_2 by done.
  by rewrite ingest_address_spec by auto.
Qed.

Lemma added_local now st peer a source :
  local_peer_id (added now st peer a source) = local_peer_id st.
Proof. unfold added. by destruct (_ && negb _), (undiscovered _ _ && _). Qed.

Lemma added_wf B now st peer a source :
  book_wf B st -> peer <> local_peer_id st -> ends_in_p2p a -> book_wf B (added now st peer a source).
Proof.
  intros H Hne Ha. unfold added.
  assert (H1 : book_wf B (put_info st peer (ingested_info now (entry st peer) a source))).
  { apply put_info_wf; [done..|]. apply with_addresses_wf; [by apply entry_wf|].
    apply map_Forall_insert_2; [done|]. by apply (wf_addresses B), entry_wf. }
  apply notify_wf. destruct (undiscovered _ _ && _); [apply notify_wf|];
    (destruct (_ && negb _); [|done]); (apply push_action_wf; [done|]);
    (split; [done|]); cbn; unfold SIM_OPEN_RETRIES; (split; [done|lia]).
Qed.

Lemma add_address_total B now st peer a source :
  book_wf B st ->
  exists st', add_address now st peer a source ↓ st' /\ book_wf B st' /\
    local_peer_id st' = local_peer_id st.
Proof.
  intros H. rewrite add_address_spec. eexists. split; [done|].
  destruct (ignored st peer a) eqn:E; [done|].
  unfold ignored in E. rewrite !orb_false_iff, !bool_decide_eq_false in E.
  split; [|apply added_local]. apply added_wf; [done|by destruct E as [[? _] _]|].
  rewrite <- normalize_addr_into_owned. apply normalize_addr_p2p.
Qed.

Lemma book_set_rtt_total B st peer d :
  book_wf B st -> (forall i, peers st !! peer = Some i -> measurable B i d) ->
  exists st', book_set_rtt st peer d ↓ st' /\ book_wf B st' /\ local_peer_id st' = local_peer_id st.
Proof.
  intros H Hd. unfold book_set_rtt. destruct (peers st !! peer) as [i|] eqn:E; [|by eauto].
  destruct (set_rtt_spec B i d) as (i' & -> & Hi' & _); [by apply (bw_peers _ _ H _ _ E)|by apply Hd|].
  eexists. split; [done|]. split; [|done].
  apply notify_wf, put_info_wf; [done|by eapply known_not_local|done].
Qed.

Lemma connection_established_total B t1 t2 st peer cp n :
  book_wf B st -> peer <> local_peer_id st ->
  exists st', connection_established t1 t2 st peer cp n ↓ st' /\ book_wf B st' /\
    local_peer_id st' = local_peer_id st.
Proof.
  intros H Hne. unfold connection_established.
  set (cp' := normalize_connected_point _ _ _).
  destruct (add_address_total B t1 st peer (get_remote_address cp') (source_of_connection cp') H)
    as (st' & -> & H' & Hl). cbn. eexists. split; [done|]. split; [|by case_decide].
  apply notify_wf. case_decide; [apply notify_wf|]; (apply put_info_wf; [done|congruence|]);
    (apply with_connections_wf; [by apply entry_wf|]);
    (apply map_Forall_insert_2; [apply normalize_remote_p2p|]);
    by apply (wf_connections B), entry_wf.
Qed.

Lemma address_change_total B t1 t2 st peer old new :
  book_wf B st -> peer <> local_peer_id st ->
  exists st', address_change t1 t2 st peer old new ↓ st' /\ book_wf B st' /\
    local_peer_id st' = local_peer_id st.
Proof.
  intros H Hne. unfold address_change.
  set (new' := normalize_connected_point new _ _).
  destruct (add_address_total B t1 st peer (get_remote_address new') (source_of_connection new') H)
    as (st' & -> & H' & Hl). cbn. eexists. split; [done|]. split; [|done].
  apply notify_wf, put_info_wf; [done|congruence|].
  apply with_connections_wf; [by apply entry_wf|].
  apply map_Forall_insert_2; [apply normalize_remote_p2p|].
  apply map_Forall_delete. by apply (wf_connections B), entry_wf.
Qed.

(** ** [set_info]: translating and validating addresses *)

(** The declarative reading of the two nested loops: where an incoming address
    may be reachable. *)
Definition translations (listen_port : list (IpAddr * Z)) (common_port : gset Z) (addr a : Multiaddr) :
    Prop :=
  exists ip p, ip_port addr = Some (ip, p) /\
    (   (exists lp, (ip, lp) ∈ listen_port /\ replace addr 1 (Tcp lp) = Some a)
     \/ ((forall lp, (ip, lp) ∉ listen_port) /\
          exists cp, cp ∈ common_port /\ replace addr 1 (Tcp cp) = Some a)
     \/ ((forall lp, (ip, lp) ∉ listen_port) /\ common_port = ∅ /\ a = addr)).

Lemma add_ports_spec addr ports t b :
  1 < length (iter addr) ->
  exists t', add_ports addr ports (t, b) ↓ (t', b || bool_decide (ports <> [])) /\
    forall a, a ∈ t' <-> a ∈ t \/ exists lp, lp ∈ ports /\ replace addr 1 (Tcp lp) = Some a.
Proof.
  intros Hlen. unfold add_ports. revert t b. induction ports as [|lp ports IH]; intros t b; cbn.
  { rewrite orb_false_r. eexists. split; [done|]. set_solver. }
  destruct (replace_in addr 1 (Tcp lp)) as (a' & E & _); [done|]. rewrite E. cbn.
  destruct (IH ({[a']} ∪ t) true) as (t' & -> & Ht'). exists t'. cbn. rewrite orb_true_r.
  split; [done|]. intros a. rewrite Ht'. setoid_rewrite elem_of_cons.
  rewrite elem_of_union, elem_of_singleton. split.
  - intros [[->|?]|(lp' & ? & ?)]; eauto.
  - intros [?|(lp' & [->|?] & E')]; [auto| |eauto]. rewrite E in E'. injection E' as ->. auto.
Qed.

Lemma translate_address_spec lps cps t addr :
  ends_in_p2p addr ->
  exists t', translate_address lps cps t addr ↓ t' /\
    forall a, a ∈ t' <-> a ∈ t \/ translations lps cps addr a.
Proof.
  intros Hp. unfold translate_address, translations.
  destruct (ip_port addr) as [[ip p]|] eqn:Eip; cycle 1.
  { eexists. split; [done|]. intros a. split; [auto|]. intros [?|(? & ? & ? & _)]; done. }
  assert (Hlen : 1 < length (iter addr)) by (pose proof (ip_port_length _ _ _ Eip Hp); lia).
  set (ps := snd <$> filter _ lps).
  assert (Hps : forall lp, lp ∈ ps <-> (ip, lp) ∈ lps).
  { intros lp. subst ps. rewrite list_elem_of_fmap. setoid_rewrite list_elem_of_filter. split.
    - by intros ([ip' lp'] & -> & -> & ?).
    - intros. by exists (ip, lp). }
  clearbody ps. destruct (add_ports_spec addr ps t false Hlen) as (t1 & -> & Ht1). cbn.
  case_bool_decide as Hne; cbn; cycle 1.
  - assert (ps = []) as -> by (by destruct (decide (ps = []))).
    assert (Hno : forall lp, (ip, lp) ∉ lps) by (intros lp; rewrite <- Hps; set_solver).
    destruct (add_ports_spec addr (set_iter cps) t1 false Hlen) as (t2 & -> & Ht2). cbn.
    setoid_rewrite elem_of_set_iter in Ht2. eexists. split; [done|]. intros a.
    case_bool_decide as Hc.
    + rewrite Ht2, Ht1. assert (cps <> ∅).
      { intros ->. apply Hc. unfold set_iter. apply Permutation_nil_r.
        by rewrite hash_order_perm, elements_empty. }
      split.
      * intros [[?|(lp & ? & _)]|(cp & ? & ?)]; [auto|set_solver|]. right. exists ip, p. eauto 10.
      * intros [?|(? & ? & [= <- <-] & [(lp & ? & _)|[(_ & cp & ? & ?)|(_ & ? & _)]])];
          [auto | by edestruct Hno | eauto | done].
    + assert (cps = ∅) as Hce.
      { apply set_eq. intros x. rewrite <- elem_of_set_iter.
        destruct (decide (set_iter cps = [])) as [->|?]; [set_solver|done]. }
      rewrite elem_of_union, elem_of_singleton, Ht2, Ht1. split.
      * intros [->|[[?|(lp & ? & _)]|(cp & ? & _)]]; [|auto|set_solver|set_solver].
        right. exists ip, p. eauto 10.
      * intros [?|(? & ? & [= <- <-] & [(lp & ? & _)|[(_ & cp & ? & _)|(_ & _ & ->)]])];
          [auto | by edestruct Hno | set_solver | auto].
  - eexists. split; [done|]. intros a. rewrite Ht1. setoid_rewrite Hps.
    assert (exists lp0, (ip, lp0) ∈ lps) as [lp0 Hlp0].
    { destruct ps as [|lp0 ps']; [done|]. exists lp0. apply Hps. set_solver. }
    split.
    + intros [?|(lp & ? & ?)]; [auto|]. right. exists ip, p. eauto 10.
    + intros [?|(? & ? & [= <- <-] & [?|[(Hn & _)|(Hn & _)]])]; [auto | auto | | ];
        by destruct (Hn lp0).
Qed.

Lemma translations_p2p lps cps addr a :
  ends_in_p2p addr -> translations lps cps addr a -> ends_in_p2p a.
Proof.
  intros Hp (ip & p & Eip & H). pose proof (ip_port_length _ _ _ Eip Hp).
  destruct H as [(lp & _ & E)|[(_ & cp & _ & E)|(_ & _ & ->)]];
    [eapply replace_p2p; [done| |done]; lia.. | done].
Qed.

(** What [set_info] derives: translations of the incoming addresses and the
    advertised listen addresses (less loopback ones, when these are off). *)
Definition derived (st : AddressBook) (peer : PeerId) (info : PeerInfo) (a : Multiaddr) : Prop :=
  (exists addr, addr ∈ addresses_to_translate info /\
     translations (listen_ports info peer) (list_to_set (snd <$> listen_ports info peer)) addr a) \/
  (exists l, l ∈ PeerInfo.listeners info /\ enable_loopback st || negb (is_loopback l) = true /\
     a = normalize_addr l peer).

Lemma foldM_collect {A B} `{Countable B} (f : gset B -> A -> outcome (gset B)) (R : A -> B -> Prop) l t :
  (forall t x, x ∈ l -> exists t', f t x ↓ t' /\ forall b, b ∈ t' <-> b ∈ t \/ R x b) ->
  exists t', foldM f t l ↓ t' /\ forall b, b ∈ t' <-> b ∈ t \/ exists x, x ∈ l /\ R x b.
Proof.
  revert t. induction l as [|x l IH]; intros t Hf; cbn.
  { eexists. split; [done|]. set_solver. }
  destruct (Hf t x) as (t1 & -> & H1); [set_solver|]. cbn.
  destruct (IH t1) as (t2 & -> & H2); [intros; apply Hf; set_solver|].
  eexists. split; [done|]. intros b. rewrite H2, H1. set_solver.
Qed.

Lemma derived_addresses_spec st peer info :
  map_Forall (fun a _ => ends_in_p2p a) (addresses info) ->
  exists t, derived_addresses st peer info ↓ t /\ forall a, a ∈ t <-> derived st peer info a.
Proof.
  intros Hp. unfold derived_addresses.
  edestruct (foldM_collect (translate_address (listen_ports info peer)
    (list_to_set (snd <$> listen_ports info peer)))
    (translations (listen_ports info peer) (list_to_set (snd <$> listen_ports info peer)))
    (set_iter (addresses_to_translate info)) ∅) as (t & -> & Ht).
  - intros t x Hx. apply translate_address_spec. rewrite elem_of_set_iter in Hx.
    unfold addresses_to_translate in Hx. apply elem_of_dom in Hx as [v Hv].
    apply map_lookup_filter_Some in Hv as [Hv _]. by apply (Hp _ v).
  - eexists. split; [done|]. intros a. unfold derived. setoid_rewrite elem_of_set_iter in Ht.
    rewrite elem_of_union, Ht, elem_of_list_to_set, list_elem_of_fmap.
    setoid_rewrite list_elem_of_filter. setoid_rewrite normalize_addr_into_owned.
    setoid_rewrite elem_of_empty. naive_solver.
Qed.

(** *** The validation loop *)

Definition no_incoming (i : PeerInfo) : Prop :=
  map_Forall (fun _ v => is_to_translate v.1 = false) (addresses i).

(** What the table holds for a derived address afterwards. *)
Definition settled (clk : Multiaddr -> AddressSource -> DateTime) (st : AddressBook) (i : PeerInfo)
    (a : Multiaddr) : option (AddressSource * DateTime) :=
  if decide (pop a ∈ listeners st) then addresses i !! a
  else
    match addresses i !! a with
    | Some (s, _) => Some (s, clk a Listen)
    | None =>
        if port_reuse st && is_connected_to i a then Some (Candidate, clk a Candidate)
        else Some (Listen, clk a Listen)
    end.

(** Is a validation dial made for a derived address? *)
Definition wants_dial (st : AddressBook) (i : PeerInfo) (a : Multiaddr) : bool :=
  bool_decide (pop a ∉ listeners st) && bool_decide (addresses i !! a = None) &&
  negb (port_reuse st && is_connected_to i a).

Definition validation_dial (peer : PeerId) (a : Multiaddr) : ToSwarm :=
  ToSwarmDial (mkDialOpts peer (Some Always) (Some [pop a]))
    (mkIntoAddressHandler (Some (a, 4%Z)) false).

(** [i'] is [i] but for the table of addresses, which changes at [a] only. *)
Definition only_at (a : Multiaddr) (v : option (AddressSource * DateTime)) (i i' : PeerInfo) : Prop :=
  i' = with_addresses i (addresses i') /\
  forall b, addresses i' !! b = if decide (b = a) then v else addresses i !! b.

Lemma only_at_id i a v : addresses i !! a = v -> only_at a v i i.
Proof. intros <-. split; [by destruct i|]. intros b. by case_decide; subst. Qed.

Lemma only_at_insert i a v :
  only_at a (Some v) i (with_addresses i (<[a := v]> (addresses i))).
Proof.
  split; [done|]. intros b. cbn. rewrite lookup_insert. by repeat case_decide; subst.
Qed.

Lemma ingest_translated_spec clk st peer i acts a :
  no_incoming i -> ends_in_p2p a ->
  exists i',
    ingest_translated clk st peer (i, acts) a ↓
      (i', acts ++ (if wants_dial st i a then [validation_dial peer a] else [])) /\
    only_at a (settled clk st i a) i i'.
Proof.
  intros Hn Hp. unfold ingest_translated, wants_dial, settled.
  case_decide as Hl.
  { rewrite bool_decide_eq_false_2 by tauto. cbn. rewrite app_nil_r.
    eexists. split; [done|]. by apply only_at_id. }
  rewrite bool_decide_eq_true_2 by done. rewrite ingest_address_spec by auto. cbn.
  destruct (addresses i !! a) as [[s dt]|] eqn:Ea; cbn.
  - rewrite andb_true_r, app_nil_r.
    assert (Hs : 1 <= source_rank s) by (specialize (Hn _ _ Ea); by destruct s; cbn in *; try lia).
    rewrite bool_decide_eq_false_2 by (cbn; lia). cbn. eexists. split; [done|].
    replace (source_max s Listen) with s by (unfold source_max; cbn; case_decide; [lia|done]).
    apply only_at_insert.
  - change (is_connected_to (with_addresses _ _) a) with (is_connected_to i a).
    destruct (port_reuse st && is_connected_to i a); cbn.
    + rewrite ingest_address_spec by auto. cbn. rewrite app_nil_r.
      rewrite lookup_insert_eq. cbn. eexists. split; [done|].
      unfold with_addresses at 1. cbn. rewrite insert_insert_eq. apply only_at_insert.
    + eexists. split; [done|]. apply only_at_insert.
Qed.

Lemma settled_not_incoming clk st i a v :
  no_incoming i -> settled clk st i a = Some v -> is_to_translate v.1 = false.
Proof.
  unfold settled. intros Hn. case_decide; [by intros; eapply Hn|].
  destruct (addresses i !! a) as [[s dt]|] eqn:Ea; [intros [= <-]; by apply (Hn _ _ Ea)|].
  by destruct (port_reuse st && _); intros [= <-].
Qed.

Lemma only_at_no_incoming clk st a i i' :
  no_incoming i -> only_at a (settled clk st i a) i i' -> no_incoming i'.
Proof.
  intros Hn [_ Hl] b v Hb. rewrite Hl in Hb. case_decide; subst.
  - by eapply settled_not_incoming.
  - by eapply Hn.
Qed.

Lemma only_at_settled clk st a b v i i' :
  only_at a v i i' -> b <> a ->
  settled clk st i' b = settled clk st i b /\ wants_dial st i' b = wants_dial st i b.
Proof.
  intros [Hi Hl] Hb. unfold settled, wants_dial.
  replace (is_connected_to i' b) with (is_connected_to i b) by (by rewrite Hi).
  assert (Hb' : addresses i' !! b = addresses i !! b) by (by rewrite Hl, decide_False).
  by rewrite Hb'.
Qed.

Lemma ingest_loop_spec clk st peer l i acts :
  NoDup l -> no_incoming i -> Forall ends_in_p2p l ->
  exists i',
    foldM (ingest_translated clk st peer) (i, acts) l ↓
      (i', acts ++ (validation_dial peer <$> filter (fun a => wants_dial st i a = true) l)) /\
    i' = with_addresses i (addresses i') /\
    forall b, addresses i' !! b = if decide (b ∈ l) then settled clk st i b else addresses i !! b.
Proof.
  intros Hnd. revert i acts. induction Hnd as [|a l Ha Hnd IH]; intros i acts Hn Hp; cbn [foldM].
  { exists i. rewrite app_nil_r. split; [done|]. split; [by destruct i|].
    intros b. by rewrite decide_False by set_solver. }
  apply Forall_cons in Hp as [Hpa Hp].
  destruct (ingest_translated_spec clk st peer i acts a) as (i1 & E1 & H1); [done..|].
  rewrite E1. cbn [mbind outcome_bind]. pose proof (only_at_no_incoming _ _ _ _ _ Hn H1) as Hn1.
  destruct (IH i1 (acts ++ (if wants_dial st i a then [validation_dial peer a] else [])) Hn1 Hp)
    as (i2 & E2 & Hi2 & H2).
  exists i2. rewrite E2. destruct H1 as [Hi1 Hl1]. split; [|split].
  - f_equal. f_equal. rewrite <- app_assoc. f_equal. rewrite filter_cons.
    rewrite (list_filter_ext_in (fun b => wants_dial st i1 b = true) (fun b => wants_dial st i b = true)).
    + by destruct (wants_dial st i a).
    + intros b Hb. by rewrite (proj2 (only_at_settled clk st a b _ i i1 (conj Hi1 Hl1) ltac:(set_solver))).
  - rewrite Hi2, Hi1. done.
  - intros b. rewrite H2. destruct (decide (b = a)) as [->|Hb].
    + rewrite decide_False by done. rewrite decide_True by set_solver. rewrite Hl1. by rewrite decide_True.
    + rewrite (proj1 (only_at_settled clk st a b _ i i1 (conj Hi1 Hl1) Hb)).
      replace (addresses i1 !! b) with (addresses i !! b) by (by rewrite Hl1, decide_False).
      repeat case_decide; set_solver.
Qed.

(** The information about the peer before the derived addresses are added: the
    incoming addresses are gone. *)
Definition retained (i : PeerInfo) : PeerInfo :=
  with_addresses i (filter (fun kv => is_to_translate (kv.2).1 = false) (addresses i)).

Lemma retained_lookup i a v :
  addresses (retained i) !! a = Some v <-> addresses i !! a = Some v /\ is_to_translate v.1 = false.
Proof. cbn. rewrite map_lookup_filter_Some. done. Qed.

Lemma retained_no_incoming i : no_incoming (retained i).
Proof. intros a v Hv. by apply retained_lookup in Hv as [_ ?]. Qed.

Lemma derived_p2p st peer i a :
  map_Forall (fun a _ => ends_in_p2p a) (addresses i) -> derived st peer i a -> ends_in_p2p a.
Proof.
  intros Hp [(addr & Ha & Ht)|(l & _ & _ & ->)].
  - eapply translations_p2p; [|done]. unfold addresses_to_translate in Ha.
    apply elem_of_dom in Ha as [v Hv]. apply map_lookup_filter_Some in Hv as [Hv _].
    by apply (Hp _ v).
  - rewrite <- normalize_addr_into_owned. apply normalize_addr_p2p.
Qed.

Lemma set_info_spec clk st peer identify info :
  peers st !! peer = Some info ->
  map_Forall (fun a _ => ends_in_p2p a) (addresses info) ->
  let info0 := identified info identify in
  exists order info',
    NoDup order /\ (forall a, a ∈ order <-> derived st peer info0 a) /\
    set_info clk st peer identify ↓
      notify (put_info (with_actions st (actions st ++
         (validation_dial peer <$> filter (fun a => wants_dial st (retained info0) a = true) order)))
         peer info') (Event.NewInfo peer) /\
    info' = with_addresses info0 (addresses info') /\
    forall b, addresses info' !! b =
      if decide (b ∈ order) then settled clk st (retained info0) b else addresses (retained info0) !! b.
Proof.
  intros Hi Hp info0. unfold set_info. rewrite Hi.
  destruct (derived_addresses_spec st peer info0) as (t & E & Ht); [done|].
  fold info0. rewrite E. cbn [mbind outcome_bind]. fold (retained info0).
  destruct (ingest_loop_spec clk st peer (set_iter t) (retained info0) []) as (i' & El & Hi' & Hl).
  - apply NoDup_set_iter.
  - apply retained_no_incoming.
  - apply Forall_forall. intros a Ha. rewrite elem_of_set_iter, Ht in Ha. eapply derived_p2p; [|exact Ha]. exact Hp.
  - exists (set_iter t), i'. rewrite El. split; [apply NoDup_set_iter|].
    split; [intros a; rewrite elem_of_set_iter; apply Ht|]. split; [done|]. split; [exact Hi'|exact Hl].
Qed.

Lemma set_info_total B clk st peer identify :
  book_wf B st ->
  exists st', set_info clk st peer identify ↓ st' /\ book_wf B st' /\
    local_peer_id st' = local_peer_id st.
Proof.
  intros H. destruct (peers st !! peer) as [info|] eqn:E; cycle 1.
  { exists st. unfold set_info. by rewrite E. }
  pose proof (bw_peers _ _ H _ _ E) as Hi. pose proof (known_not_local _ _ _ _ H E) as Hne.
  destruct (set_info_spec clk st peer identify info) as (order & i' & _ & Ho & -> & Hi' & Hl);
    [done|apply Hi|].
  eexists. split; [done|]. split; [|done]. apply notify_wf, put_info_wf; [|done|].
  - apply push_actions_wf; [done|]. apply Forall_fmap, Forall_forall. intros a Ha. cbn.
    apply list_elem_of_filter in Ha as [_ Ha]. split; [done|]. cbn.
    split; [|unfold SIM_OPEN_RETRIES; lia]. eapply derived_p2p; [|by apply Ho]. apply Hi.
  - rewrite Hi'. destruct Hi as [Ha Hc Hf Hr]. split; cbn; try done.
    intros b v Hb. rewrite Hl in Hb. case_decide as Hd.
    + eapply derived_p2p; [|by apply Ho]. done.
    + apply retained_lookup in Hb as [Hb _]. by apply (Ha _ _ Hb).
Qed.

(** ** Failed dials *)

(** The random delay before a redial: at most one second, plus one second when
    the listen port is reused. *)
Lemma redial_delay_spec st r :
  (0 <= r <= U32_MAX)%Z ->
  exists d, redial_delay st r ↓ d /\ dur_wf d /\
    (as_nanos d = (NANOS_PER_SEC * r) `div` U32_MAX + (if port_reuse st then NANOS_PER_SEC else 0))%Z.
Proof.
  intros Hr. unfold redial_delay.
  assert (Hz : forall s, (0 <= s <= 1)%Z -> dur_wf (from_secs s))
    by (intros s Hs; unfold dur_wf, U64_MAX, NANOS_PER_SEC; cbn; lia).
  destruct (dur_mul_nanos (from_secs 1) r) as (a & -> & Wa & Na); [apply Hz; lia|lia| |].
  { unfold as_nanos, MAX_NANOS, U64_MAX, NANOS_PER_SEC, U32_MAX in *. cbn. lia. }
  cbn [mbind outcome_bind].
  destruct (dur_div_nanos a U32_MAX) as (b & -> & Wb & Nb); [done|done|]. cbn [mbind outcome_bind].
  assert (Hb : (0 <= as_nanos b <= NANOS_PER_SEC)%Z).
  { rewrite Nb, Na. split; [apply Z.div_pos; unfold as_nanos, NANOS_PER_SEC, U32_MAX in *; cbn; lia|].
    apply Z.div_le_upper_bound; unfold as_nanos, NANOS_PER_SEC, U32_MAX in *; cbn; lia. }
  destruct (dur_add_nanos b (if port_reuse st then from_secs 1 else ZERO)) as (c & -> & Wc & Nc).
  - done.
  - destruct (port_reuse st); [apply Hz; lia|]. by vm_compute.
  - destruct (port_reuse st); unfold as_nanos, MAX_NANOS, U64_MAX, NANOS_PER_SEC in *; cbn; lia.
  - exists c. split; [done|]. split; [done|]. rewrite Nc, Nb, Na. by destruct (port_reuse st).
Qed.

Definition redial (peer : PeerId) (addr : Multiaddr) (n : Z) (k : bool) : ToSwarm :=
  ToSwarmDial (mkDialOpts peer None (Some [addr])) (mkIntoAddressHandler (Some (addr, n)) k).

Lemma defer_total B st r peer addr n k :
  book_wf B st -> (0 <= r <= U32_MAX)%Z -> peer <> local_peer_id st ->
  (0 <= n <= SIM_OPEN_RETRIES)%Z ->
  exists d,
    let st' := with_deferred st (deferred st ++ [(d, redial peer addr n k)]) in
    defer st r (redial peer addr n k) ↓ st' /\ book_wf B st'.
Proof.
  intros [Hp Hl Ha Hd Hg] Hr Hne Hn. unfold defer.
  destruct (redial_delay_spec st r Hr) as (d & -> & Wd & Nd). exists d. split; [done|].
  split; cbn; try done. apply Forall_app. split; [done|]. apply Forall_singleton.
  split; [done|]. split; [|by exists addr, n]. split; [done|]. cbn. rewrite Nd.
  assert ((NANOS_PER_SEC * r) `div` U32_MAX <= NANOS_PER_SEC)%Z as Hq; cycle 1.
  { revert Hq. generalize ((NANOS_PER_SEC * r) `div` U32_MAX)%Z. intros q Hq.
    unfold NANOS_PER_SEC in *. destruct (port_reuse st); lia. }
  apply Z.div_le_upper_bound; unfold NANOS_PER_SEC, U32_MAX in *; lia.
Qed.

Definition random_ok (rnd : nat -> Z) : Prop := forall n, (0 <= rnd n <= U32_MAX)%Z.

(** A handler the book itself has made: at most [SIM_OPEN_RETRIES + 1] redials. *)
Definition handler_ok (h : IntoAddressHandler) : Prop :=
  forall a r, own h = Some (a, r) -> (0 <= r <= SIM_OPEN_RETRIES + 1)%Z.

(** What a failed validation dial leaves of the information about the peer. *)
Definition after_validation (now : DateTime) (i : PeerInfo) (addr : Multiaddr)
    (error : DialError Multiaddr IoError) : PeerInfo :=
  let i := push_failure i addr (failure_dial now (without_peer_id addr) error)
             (is_transport error || is_wrong_peer error || is_connection_io error) in
  if is_wrong_peer error then with_addresses i (delete addr (addresses i)) else i.

Lemma after_validation_wf B now i addr error :
  info_wf B i -> info_wf B (after_validation now i addr error).
Proof.
  intros H. unfold after_validation. destruct (is_wrong_peer error); auto with ipfs.
  apply with_addresses_wf; [by apply push_failure_wf|].
  apply map_Forall_delete. by apply (wf_addresses B), push_failure_wf.
Qed.

(** The book after a failed validation dial, with the redial it schedules. *)
Definition validation_failed (now : DateTime) (st : AddressBook) (peer : PeerId) (i : PeerInfo)
    (addr : Multiaddr) (error : DialError Multiaddr IoError) (redials : list (Duration * ToSwarm)) :
    AddressBook :=
  let st := put_info st peer (after_validation now i addr error) in
  let st := with_deferred st (deferred st ++ redials) in
  notify (notify st (Event.DialFailure peer addr (dial_error_display error))) (Event.NewInfo peer).

Lemma with_deferred_id st : with_deferred st (deferred st ++ []) = st.
Proof. rewrite app_nil_r. by destruct st. Qed.

Lemma validation_failure_spec B now r st peer i addr n k error :
  book_wf B st -> peers st !! peer = Some i -> (0 <= r <= U32_MAX)%Z ->
  (0 <= n <= SIM_OPEN_RETRIES + 1)%Z ->
  exists redials,
    validation_failure now r st peer i addr n k error ↓
      validation_failed now st peer i addr error redials /\
    book_wf B (validation_failed now st peer i addr error redials) /\
    if any_sim_open error && bool_decide (0 < n)%Z
    then exists d, redials = [(d, redial peer addr (n - 1) k)] else redials = [].
Proof.
  intros H Hi Hr Hn. unfold validation_failure, validation_failed.
  pose proof (known_not_local _ _ _ _ H Hi) as Hne.
  set (i' := if is_wrong_peer error then _ else _).
  change i' with (after_validation now i addr error). clear i'.
  assert (H1 : book_wf B (put_info st peer (after_validation now i addr error))).
  { apply put_info_wf; [done..|]. by apply after_validation_wf, (bw_peers _ _ H _ _ Hi). }
  destruct (any_sim_open error); cbn [andb]; [case_bool_decide as Hpos|];
    [| exists []; rewrite with_deferred_id; (split; [done|]; split; [by do 2 apply notify_wf|done]).. ].
  edestruct (defer_total B _ r peer addr (n - 1)%Z k H1) as (d & E & H2); [done..|lia|].
  cbn zeta in E. fold (redial peer addr (n - 1) k). rewrite E. cbn [mbind outcome_bind].
  exists [(d, redial peer addr (n - 1) k)]. split; [done|]. split; [by do 2 apply notify_wf|by eexists].
Qed.

(** *** Dials by peer id *)

(** The information about the peer after the transport errors of a dial. *)
Definition after_transport (clk : nat -> DateTime) (peer : PeerId) (i : PeerInfo)
    (v : list (nat * (Multiaddr * TransportError Multiaddr IoError))) : PeerInfo :=
  foldl (fun i '(n, (addr, e)) =>
    push_failure i (normalize_addr addr peer) (failure_transport (clk n) (without_peer_id addr) e) true)
    i v.

Lemma after_transport_wf B clk peer i v : info_wf B i -> info_wf B (after_transport clk peer i v).
Proof.
  intros H. unfold after_transport. apply foldl_invariant; [done|].
  intros i' [n [a e]] _ Hi'. by apply push_failure_wf.
Qed.

Lemma transport_failure_spec clk st peer i es rs v :
  foldl (transport_failure clk st peer) (i, es, rs) v =
    (after_transport clk peer i v,
     es ++ ((fun '(_, (a, e)) => Event.DialFailure peer a (transport_error_debug e)) <$> v),
     rs ++ ((fun '(_, (a, e)) => redial peer a SIM_OPEN_RETRIES (keep_alive st)) <$>
              filter (fun '(_, (_, e)) => is_sim_open e = true) v)).
Proof.
  unfold after_transport. revert i es rs. induction v as [|[n [a e]] v IH]; intros i es rs.
  { by rewrite !app_nil_r. }
  cbn [foldl]. unfold transport_failure at 2. rewrite normalize_addr_into_owned, IH.
  rewrite filter_cons. cbn [fmap list_fmap]. rewrite <- app_assoc.
  case_decide as Hs; [rewrite Hs|rewrite (not_true_is_false _ Hs)]; cbn; by rewrite <- ?app_assoc.
Qed.

Definition is_redial (st : AddressBook) (peer : PeerId) (a : ToSwarm) : Prop :=
  exists addr, a = redial peer addr SIM_OPEN_RETRIES (keep_alive st).

(** Deferring a list of redials. *)
Lemma defer_all_total B st peer k (l : list (nat * ToSwarm)) rnd :
  book_wf B st -> peer <> local_peer_id st -> random_ok rnd ->
  Forall (fun na => exists addr, na.2 = redial peer addr SIM_OPEN_RETRIES k) l ->
  exists ds, length ds = length l /\
    let st' := with_deferred st (deferred st ++ zip ds l.*2) in
    foldM (fun st '(n, a) => defer st (rnd n) a) st l ↓ st' /\ book_wf B st'.
Proof.
  intros H Hne Hr Hl. revert st H Hne. induction Hl as [|[n a] l [addr Ha] Hl IH]; intros st H Hne.
  { exists []. cbn. rewrite with_deferred_id. done. }
  cbn in Ha. subst a. cbn [foldM].
  edestruct (defer_total B st (rnd n) peer addr SIM_OPEN_RETRIES k H) as (d & E & H1);
    [apply Hr | done | unfold SIM_OPEN_RETRIES; lia |].
  cbn zeta in E. rewrite E. cbn [mbind outcome_bind].
  destruct (IH _ H1 Hne) as (ds & Hlen & E' & H'). exists (d :: ds). cbn [length].
  split; [by rewrite Hlen|]. cbn zeta in *. cbn [fmap list_fmap zip zip_with snd].
  change (deferred (with_deferred st ?x)) with x in *.
  rewrite <- app_assoc in E', H'. cbn [app] in E', H'. by split.
Qed.

Definition sim_open_redials (st : AddressBook) (peer : PeerId)
    (v : list (Multiaddr * TransportError Multiaddr IoError)) : list ToSwarm :=
  (fun ae => redial peer ae.1 SIM_OPEN_RETRIES (keep_alive st)) <$>
    filter (fun ae => is_sim_open ae.2 = true) v.

(** What a failed dial by peer id reports. *)
Definition dial_reports (peer : PeerId) (v : list (Multiaddr * TransportError Multiaddr IoError)) :
    list Event.t :=
  ((fun ae => Event.DialFailure peer ae.1 (transport_error_debug ae.2)) <$> v) ++
  (if decide (filter (fun ae => is_sim_open ae.2 = true) v = []) then [Event.Unreachable peer] else []).

Lemma foldl_notify_frame st es :
  foldl notify st es = with_event_stream st (event_stream (foldl notify st es)).
Proof. revert st. induction es as [|e es IH]; intros st; cbn; [by destruct st|]. by rewrite IH. Qed.

Lemma transport_failures_spec clk st peer i v :
  foldl (transport_failure clk st peer) (i, [], []) (number v) =
    (after_transport clk peer i (number v),
     (fun ae => Event.DialFailure peer ae.1 (transport_error_debug ae.2)) <$> v,
     sim_open_redials st peer v).
Proof.
  rewrite transport_failure_spec. cbn [app]. f_equal; [f_equal|].
  - rewrite <- (number_fmap (fun ae => Event.DialFailure peer ae.1 (transport_error_debug ae.2)) v).
    apply list_fmap_ext. by intros ? [? []] ?.
  - unfold sim_open_redials. rewrite <- (number_filter _ (fun ae => is_sim_open ae.2)).
    assert (Hf : forall (l : list (nat * (Multiaddr * TransportError Multiaddr IoError))),
      filter (fun '(_, (_, e)) => is_sim_open e = true) l =
      filter (fun nx => is_sim_open nx.2.2 = true) l).
    { intros l. apply list_filter_iff. by intros [? []]. }
    rewrite Hf. apply list_fmap_ext. by intros ? [? []] ?.
Qed.

Lemma peer_dial_failure_spec B clk rnd st peer i v :
  book_wf B st -> peers st !! peer = Some i -> random_ok rnd ->
  let st1 := put_info st peer (after_transport clk peer i (number v)) in
  exists delays, length delays = length (sim_open_redials st peer v) /\
    let st2 := with_deferred (foldl notify st1 (dial_reports peer v))
      (deferred st ++ zip delays (sim_open_redials st peer v)) in
    peer_dial_failure clk rnd st peer i v ↓ notify st2 (Event.NewInfo peer) /\ book_wf B st2.
Proof.
  intros H Hi Hr st1. unfold peer_dial_failure. rewrite transport_failures_spec. fold st1.
  pose proof (known_not_local _ _ _ _ H Hi) as Hne.
  assert (H1 : book_wf B st1).
  { apply put_info_wf; [done..|]. by apply after_transport_wf, (bw_peers _ _ H _ _ Hi). }
  set (st3 := match sim_open_redials st peer v with [] => _ | _ => _ end).
  assert (E3 : st3 = foldl notify st1 (dial_reports peer v)).
  { subst st3. unfold dial_reports. rewrite foldl_app. unfold sim_open_redials.
    by destruct (filter _ v). }
  rewrite E3. clear st3 E3. set (st3 := foldl notify _ (dial_reports peer v)).
  assert (H3 : book_wf B st3) by (by apply foldl_notify_wf).
  assert (F3 : st3 = with_event_stream st1 (event_stream st3)) by apply foldl_notify_frame.
  clearbody st3.
  destruct (defer_all_total B st3 peer (keep_alive st)
    (number (sim_open_redials st peer v)) rnd) as (ds & Hlen & E & H4).
  - done.
  - by rewrite F3.
  - done.
  - apply Forall_forall. intros [n a] Hna. unfold number in Hna.
    apply elem_of_lookup_imap in Hna as (n' & a' & [= -> ->] & Ha).
    apply list_elem_of_lookup_2, list_elem_of_fmap in Ha as ([a e] & -> & _). by exists a.
  - exists ds. unfold number in Hlen. rewrite length_imap in Hlen. split; [done|]. cbn zeta in E, H4.
    rewrite number_snd in E, H4.
    assert (D3 : deferred st3 = deferred st) by (by rewrite F3). rewrite D3 in E, H4.
    rewrite E. by split.
Qed.

Lemma peer_dial_failure_total B clk rnd st peer i v :
  book_wf B st -> peers st !! peer = Some i -> random_ok rnd ->
  exists st', peer_dial_failure clk rnd st peer i v ↓ st' /\ book_wf B st' /\
    local_peer_id st' = local_peer_id st.
Proof.
  intros H Hi Hr. destruct (peer_dial_failure_spec B clk rnd st peer i v H Hi Hr) as (ds & _ & E & H').
  rewrite E. eexists. split; [done|]. split; [by apply notify_wf|]. cbn. by rewrite foldl_notify_frame.
Qed.

Lemma dial_failure_total B clk rnd st h peer_id error :
  book_wf B st -> handler_ok h -> random_ok rnd ->
  exists st', dial_failure clk rnd st h peer_id error ↓ st' /\ book_wf B st' /\
    local_peer_id st' = local_peer_id st.
Proof.
  intros H Hh Hr. unfold dial_failure.
  destruct (match handler_peer_id h with Some p => _ | None => _ end) as [peer|]; [|by eauto].
  destruct (peers st !! peer) as [i|] eqn:E; [|by eauto].
  destruct (own h) as [[addr n]|] eqn:Eo.
  - destruct (validation_failure_spec B (clk 0) (rnd 0) st peer i addr n (keep h) error H E)
      as (redials & -> & H' & _); [apply Hr|by eapply Hh|]. by eauto.
  - destruct error; try (by eauto); [ | by eapply peer_dial_failure_total | | ];
      (eexists; split; [done|]; split; [by apply notify_wf|done]).
Qed.

(** ** Swarm events *)

Lemma new_listen_addr_wf B st l a : book_wf B st -> book_wf B (new_listen_addr st l a).
Proof.
  intros [Hp Hl Ha Hd Hg]. unfold new_listen_addr. case_decide; apply notify_wf; split; cbn; try done.
  rewrite size_union by set_solver. rewrite size_singleton, Hg. lia.
Qed.

Lemma expired_listen_addr_wf B st l a : book_wf B st -> book_wf B (expired_listen_addr st l a).
Proof.
  intros [Hp Hl Ha Hd Hg]. unfold expired_listen_addr.
  case_decide as Hin; apply notify_wf; split; cbn; try done.
  assert (Hs : size (listeners st) = 1 + size (listeners st ∖ {[a]})).
  { rewrite <- (size_singleton (C := gset Multiaddr) a), <- size_union by set_solver.
    f_equal. apply set_eq. intros x. destruct (decide (x = a)); set_solver. }
  lia.
Qed.

Lemma external_addr_changed_wf B st a d ev :
  book_wf B st -> book_wf B (external_addr_changed st a d ev).
Proof. by intros [Hp Hl Ha Hd Hg]. Qed.

(** What the swarm promises about its events: the remote peer is never the
    local one, handlers are the book's own, random numbers are [u32]s. *)
Definition event_ok (st : AddressBook) (rnd : nat -> Z) (event : FromSwarm.t) : Prop :=
  match event with
  | FromSwarm.ConnectionEstablished peer _ _ | FromSwarm.AddressChange peer _ _ =>
      peer <> local_peer_id st
  | FromSwarm.DialFailure h _ _ => handler_ok h /\ random_ok rnd
  | _ => True
  end.

Lemma on_swarm_event_total B clk rnd st event :
  book_wf B st -> event_ok st rnd event ->
  exists st', on_swarm_event clk rnd st event ↓ st' /\ book_wf B st' /\
    local_peer_id st' = local_peer_id st.
Proof.
  intros H Hev. destruct event; cbn [on_swarm_event event_ok] in *;
    eauto using connection_established_total, address_change_total.
  - destruct Hev. by apply dial_failure_total.
  - eexists. split; [done|]. by split; [by destruct H|].
  - eexists. split; [done|]. split; [by apply new_listen_addr_wf|].
    unfold new_listen_addr. by case_decide.
  - eexists. split; [done|]. split; [by apply expired_listen_addr_wf|].
    unfold expired_listen_addr. by case_decide.
  - eexists. split; [done|]. by split; [by destruct H|].
  - eexists. split; [done|]. by split; [by destruct H|].
  - eexists. split; [done|]. by split; [by destruct H|].
  - eexists. split; [done|]. by split; [by destruct H|].
Qed.

(** ** The book as a transition system *)

Inductive book_op :=
| OpDial (peer : PeerId)
| OpDialAddress (peer : PeerId) (a : Multiaddr)
| OpAddAddress (now : DateTime) (peer : PeerId) (a : Multiaddr) (source : AddressSource)
| OpRemoveAddress (peer : PeerId) (a : Multiaddr)
| OpPrunePeers (now : DateTime) (min_age : Duration)
| OpConnectionClosed (now : DateTime) (peer : PeerId) (cp : ConnectedPoint Multiaddr Endpoint)
    (num_established : Z) (error : option (ConnectionError IoError (MyHandlerError ProtocolError)))
| OpSetRtt (peer : PeerId) (d : option Duration)
| OpSetInfo (clk : Multiaddr -> AddressSource -> DateTime) (peer : PeerId)
    (identify : IdentifyInfo Multiaddr)
| OpSwarmEvents (tx : Sender Event.t)
| OpNotify (event : Event.t)
| OpPoll (external_addresses : list AddressRecord) (timer : option nat)
| OpOnSwarmEvent (clk : nat -> DateTime) (rnd : nat -> Z) (event : FromSwarm.t)
| OpReceivers (streams : list (Sender Event.t))  (* the receivers' side moves *).

Definition exec (op : book_op) (st : AddressBook) : outcome AddressBook :=
  match op with
  | OpDial peer => mret (dial st peer)
  | OpDialAddress peer a => mret (dial_address st peer a)
  | OpAddAddress now peer a source => add_address now st peer a source
  | OpRemoveAddress peer a => mret (remove_address st peer a)
  | OpPrunePeers now min_age => mret (prune_peers now st min_age)
  | OpConnectionClosed now peer cp n e => mret (connection_closed now st peer cp n e)
  | OpSetRtt peer d => book_set_rtt st peer d
  | OpSetInfo clk peer identify => set_info clk st peer identify
  | OpSwarmEvents tx => mret (swarm_events st tx)
  | OpNotify event => mret (notify st event)
  | OpPoll ext timer => mret (poll st ext timer).1
  | OpOnSwarmEvent clk rnd event => on_swarm_event clk rnd st event
  | OpReceivers streams => mret (with_event_stream st streams)
  end.

Definition admissible (B : Z) (st : AddressBook) (op : book_op) : Prop :=
  match op with
  | OpConnectionClosed _ peer _ _ _ => peer <> local_peer_id st
  | OpSetRtt peer d => forall i, peers st !! peer = Some i -> measurable B i d
  | OpOnSwarmEvent _ rnd event => event_ok st rnd event
  | _ => True
  end.

Inductive book_reachable (B : Z) : AddressBook -> Prop :=
| reach_new local pr el ka : book_reachable B (new local pr el ka)
| reach_step st op st' :
    book_reachable B st -> admissible B st op -> exec op st ↓ st' -> book_reachable B st'.

Lemma prune_peers_local now st d : local_peer_id (prune_peers now st d) = local_peer_id st.
Proof.
  unfold prune_peers. by apply (foldl_invariant _ (fun s => local_peer_id s = local_peer_id st)).
Qed.

Lemma poll_local st ext timer : local_peer_id (poll st ext timer).1 = local_peer_id st.
Proof.
  unfold poll. destruct (refresh_external st); cbn;
    (destruct (actions st); cbn; [|done]); (destruct timer; [|done]);
    by destruct (deferred st !! n) as [[??]|].
Qed.

Lemma exec_total B op st :
  book_wf B st -> admissible B st op ->
  exists st', exec op st ↓ st' /\ book_wf B st' /\ local_peer_id st' = local_peer_id st.
Proof.
  intros H Hop. destruct op; cbn [exec admissible] in *;
    eauto using add_address_total, book_set_rtt_total, set_info_total, on_swarm_event_total.
  - eexists. split; [done|]. split; [by apply dial_wf|]. unfold dial. by case_decide.
  - eexists. split; [done|]. split; [by apply dial_address_wf|].
    unfold dial_address. case_decide; [done|]. by destruct (is_connected_to _ _).
  - eexists. split; [done|]. split; [by apply remove_address_wf|].
    unfold remove_address. by destruct (peers st !! peer).
  - eexists. split; [done|]. split; [by apply prune_peers_wf|apply prune_peers_local].
  - eexists. split; [done|]. split; [by apply connection_closed_wf|].
    unfold connection_closed. destruct (close_reason error). by case_decide.
  - eexists. split; [done|]. by split; [by destruct H|].
  - eexists. split; [done|]. by split; [by destruct H|].
  - eexists. split; [done|]. split; [by apply poll_wf|apply poll_local].
  - eexists. split; [done|]. by split; [by destruct H|].
Qed.

Lemma reachable_wf B st : book_reachable B st -> book_wf B st.
Proof.
  induction 1 as [|st op st' _ IH Hop E]; [apply book_new_wf|].
  destruct (exec_total B op st IH Hop) as (st'' & E' & H' & _). by rewrite E in E'; simplify_eq.
Qed.
End Invariant.
