(* ===== verification/PeersProps.v ===== *)
(** * The address book: properties

    The claims about src/net/peers.rs, each with a run on the concrete instance
    of the libp2p interface. *)
From S2P Require Import Prelude Time Libp2p PeerInfo AddressHandler Peers PeersInv.

(** ** Helper lemmas *)

Section Helpers.
Context `{P : Profile} `{C : Chrono} `{L : Libp2p} `{Ch : Channels} `{HO : HashOrder}.
Context {LL : Libp2pLaws} {HL : HashOrderLaws}.

Lemma entry_put st peer i : entry (put_info st peer i) peer = i.
Proof. unfold entry, put_info. cbn. by rewrite lookup_insert_eq. Qed.

(** *** Pruning *)

(** When [prune_peers] drops a peer, in words. *)
Definition stale (now : DateTime) (min_age : Duration) (info : PeerInfo) : Prop :=
  connections info = ∅ /\
  (forall f, head (failures info) = Some f -> ~ dur_lt (diff_time (time f) now) min_age) /\
  (forall a s dt, addresses info !! a = Some (s, dt) ->
     is_confirmed s = false /\
     (is_to_probe s = true ->
        ~ dur_lt (diff_time dt now) (dur_max min_age (from_secs 10)))).

Lemma prunable_stale now min_age info :
  prunable now min_age info = true <-> stale now min_age info.
Proof.
  unfold prunable, stale. rewrite !andb_true_iff, bool_decide_eq_true, negb_true_iff.
  assert (Hf : match failures info with
    | f :: _ => negb (bool_decide (dur_lt (diff_time (time f) now) min_age)) | [] => true end = true
    <-> (forall f, head (failures info) = Some f -> ~ dur_lt (diff_time (time f) now) min_age)).
  { destruct (failures info) as [|f fs]; cbn; [naive_solver|].
    rewrite negb_true_iff, bool_decide_eq_false. naive_solver. }
  rewrite Hf. rewrite <- not_true_iff_false, existsb_exists.
  match goal with |- (?A /\ ?B) /\ ?D <-> _ /\ _ /\ ?E => enough (D <-> E) by tauto end. split.
  - intros Hno a s dt Ha. apply elem_of_map_iter, list_elem_of_In in Ha. split.
    + destruct (is_confirmed s) eqn:E; [|done]. destruct Hno. eexists. split; [done|]. cbn. by rewrite E.
    + intros Hpr Hlt. apply Hno. eexists. split; [done|]. cbn.
      by rewrite Hpr, bool_decide_eq_true_2, orb_true_r.
  - intros Hall ([a [s dt]] & Hin & Hb). apply list_elem_of_In, elem_of_map_iter in Hin.
    destruct (Hall _ _ _ Hin) as [Hc Hp]. cbn in Hb. rewrite Hc in Hb. cbn in Hb.
    apply andb_true_iff in Hb as [Hpr Hlt]. by apply bool_decide_eq_true, Hp in Hlt.
Qed.

Definition drop_peer (st : AddressBook) (peer : PeerId) : AddressBook :=
  notify (with_peers st (delete peer (peers st))) (Event.NewInfo peer).

Lemma foldl_drop_peers st l p :
  peers (foldl drop_peer st l) !! p = if decide (p ∈ l) then None else peers st !! p.
Proof.
  revert st. induction l as [|x l IH]; intros st; cbn [foldl].
  { by rewrite decide_False by set_solver. }
  rewrite IH. cbn. rewrite lookup_delete. repeat case_decide; set_solver.
Qed.

Lemma prune_peers_lookup now st min_age p :
  peers (prune_peers now st min_age) !! p =
    match peers st !! p with
    | Some info => if prunable now min_age info then None else Some info
    | None => None
    end.
Proof.
  unfold prune_peers. fold drop_peer. rewrite foldl_drop_peers.
  destruct (peers st !! p) as [info|] eqn:E; [|by case_decide].
  assert (Hin : p ∈ (fst <$> filter (fun '(_, i) => prunable now min_age i = true) (map_iter (peers st)))
    <-> prunable now min_age info = true).
  { rewrite list_elem_of_fmap. setoid_rewrite list_elem_of_filter. split.
    - intros ([p' i] & -> & Hp & Hi). apply elem_of_map_iter in Hi. cbn in *. by simplify_eq.
    - intros Hp. exists (p, info). by rewrite elem_of_map_iter. }
  destruct (prunable now min_age info); case_decide; naive_solver.
Qed.

(** *** Connections *)

Lemma entry_notify (st : AddressBook) ev peer : entry (notify st ev) peer = entry st peer.
Proof. done. Qed.

Lemma added_entry now (st : AddressBook) peer a source :
  entry (added now st peer a source) peer = ingested_info now (entry st peer) a source.
Proof.
  unfold added. destruct (_ && negb _), (undiscovered st peer && _); rewrite ?entry_notify;
    try apply entry_put; unfold push_action, entry; cbn; by rewrite lookup_insert_eq.
Qed.

Lemma connection_established_entry t1 t2 (st : AddressBook) peer cp m :
  let conn := normalize_connected_point cp (local_peer_id st) peer in
  let a := get_remote_address conn in
  exists st', connection_established t1 t2 st peer cp m ↓ st' /\ local_peer_id st' = local_peer_id st /\
    connections (entry st' peer) = <[a := (t2, direction_from conn)]> (connections (entry st peer)) /\
    failures (entry st' peer) = failures (entry st peer) /\
    (ignored st peer a = false -> is_Some (addresses (entry st' peer) !! a)).
Proof.
  intros conn a. unfold connection_established. fold conn a. rewrite add_address_spec.
  cbn [mbind outcome_bind].
  assert (Hna : normalize_addr a peer = a) by (apply normalize_addr_id, normalize_remote_p2p).
  rewrite Hna. set (st1 := if ignored st peer a then _ else _).
  assert (H1 : local_peer_id st1 = local_peer_id st /\
    connections (entry st1 peer) = connections (entry st peer) /\
    failures (entry st1 peer) = failures (entry st peer) /\
    (ignored st peer a = false -> is_Some (addresses (entry st1 peer) !! a))).
  { subst st1. destruct (ignored st peer a); [done|]. rewrite added_local, added_entry. cbn.
    rewrite lookup_insert_eq. eauto. }
  destruct H1 as (Hl & Hc & Hf & Ha). clearbody st1.
  eexists. split; [done|]. rewrite entry_notify.
  case_decide; rewrite ?entry_notify, entry_put; cbn; by rewrite Hc.
Qed.

Lemma connection_closed_entry now (st : AddressBook) peer cp n e :
  let a := get_remote_address (normalize_connected_point cp (local_peer_id st) peer) in
  entry (connection_closed now st peer cp n e) peer =
    push_failure (with_connections (entry st peer) (delete a (connections (entry st peer)))) a
      (if (close_reason e).2 then failure_them now (without_peer_id a) (close_reason e).1 (connection_error_debug e)
       else failure_us now (without_peer_id a) (close_reason e).1 (connection_error_debug e)) false.
Proof.
  intros a. unfold connection_closed. fold a. destruct (close_reason e) as [reason closed].
  rewrite entry_notify. case_decide; rewrite ?entry_notify, entry_put; by destruct closed.
Qed.

(** *** Channels *)

Lemma foldl_notify_streams (st st' : AddressBook) es :
  event_stream st = event_stream st' ->
  event_stream (foldl notify st es) = event_stream (foldl notify st' es).
Proof.
  revert st st'. induction es as [|e es IH]; intros st st' H; [done|]. apply IH. cbn. by rewrite H.
Qed.

Lemma notify_streams {CL : ChannelLaws} (es : list (Sender Event.t)) (ev : Event.t) :
  Forall2 (fun tx tx' => queued tx' = queued tx ++ [ev] /\ connected tx' = true)
    (filter (fun tx => connected tx = true) es) (omap (fun tx => unbounded_send tx ev) es).
Proof.
  induction es as [|tx es IH]; [constructor|]. rewrite filter_cons. cbn.
  destruct (connected tx) eqn:E.
  - destruct (send_connected tx ev E) as (tx' & -> & Hq & Hc). cbn. by constructor.
  - by rewrite send_disconnected by done.
Qed.
End Helpers.

(** ** Concrete runs use the instance [Sim] and nanosecond clocks *)
Module Demo.
Export Sim.
#[export] Existing Instance utc_nanos.

(** The constants carry the interface's types, which selects the instances. *)
Definition me : @PeerId sim := 1%N.
Definition bob : @PeerId sim := 2%N.
Definition eve : @PeerId sim := 3%N.
Definition at_ns (n : Z) : @DateTime utc_nanos := n.
Definition ip (a b c d : Z) : Z := (((a * 256 + b) * 256 + c) * 256 + d)%Z.
Definition stream : @Sender sim_channels (@Event.t sim) := mkChan true [].

(** A book with one event stream. *)
Definition fresh : @AddressBook utc_nanos sim sim_channels := new me false false false.
Definition book : @AddressBook utc_nanos sim sim_channels := swarm_events fresh stream.

Definition bob_4001 : @Multiaddr sim := addr_p (ip 10 0 0 10) 4001 2.
Definition bob_57634 : @Multiaddr sim := addr_p (ip 10 0 0 10) 57634 2.
Definition my_4001 : @Multiaddr sim := addr_p (ip 10 0 0 2) 4001 1.

(** The book once Bob's incoming connection is established. *)
Definition incoming : ConnectedPoint (@Multiaddr sim) (@Endpoint sim) := Listener my_4001 bob_57634.

(** The state an outcome that is not a panic holds. *)
Definition run (m : outcome (@AddressBook utc_nanos sim sim_channels)) :
    @AddressBook utc_nanos sim sim_channels :=
  match m with Done st => st | Panic _ => fresh end.

(** Both reduce what an example has to compute to a boolean. *)
Lemma run_done m : is_done m = true -> m ↓ run m.
Proof. by destruct m. Qed.

Lemma entry_known (st : @AddressBook utc_nanos sim sim_channels) p :
  bool_decide (is_Some (peers st !! p)) = true -> peers st !! p = Some (entry st p).
Proof. rewrite bool_decide_eq_true. unfold entry. by intros [i ->]. Qed.

Definition all_p2p (i : @PeerInfo utc_nanos sim) : bool :=
  forallb (fun '(a, _) => bool_decide (ends_in_p2p a)) (map_to_list (addresses i)).

Lemma all_p2p_Forall i : all_p2p i = true -> map_Forall (fun a _ => ends_in_p2p a) (addresses i).
Proof.
  unfold all_p2p. rewrite forallb_forall. intros H a v Ha.
  apply elem_of_map_to_list, list_elem_of_In, H in Ha. by apply bool_decide_eq_true in Ha.
Qed.

Definition book_connected : @AddressBook utc_nanos sim sim_channels :=
  run (connection_established (at_ns 10) (at_ns 11) book bob incoming 0).
End Demo.

Section Safety.
Context `{P : Profile} `{C : Chrono} `{L : Libp2p} `{Ch : Channels} `{HO : HashOrder}.
Context {LL : Libp2pLaws} {HL : HashOrderLaws}.

(** C8: the address book never panics, neither in a debug build (overflow checks and
    debug assertions on) nor in a release build, whatever sequence of admissible
    operations, swarm events and ping results it goes through: from every state that is
    reached by these, every admissible operation returns such a state.  Admissible means:
    round-trip times at most [B], with nine times [B] still a duration, and less than
    2^32 - 1 failed pings of a peer in a row; no connection to ourselves; failed dials carry
    a handler that the book could have made; random numbers are in the range they were
    asked for.  (The statistics do panic outside of the first of these: [rtt_run_total].) *)
Theorem book_never_panics (B : Z) (st : AddressBook) (op : book_op) :
  book_reachable B st -> admissible B st op ->
  exists st', exec op st ↓ st' /\ book_reachable B st'.
Proof.
  intros Hr Hop. destruct (exec_total B op st (reachable_wf B st Hr) Hop) as (st' & E & _).
  exists st'. split; [done|]. by eapply reach_step.
Qed.

(** Reachable books of one process together. *)
Lemma books_gauge B books :
  Forall (book_reachable B) books ->
  foldr Z.add 0%Z (LISTEN_ADDRS <$> (metrics <$> books)) = Z.of_nat (sum_list (size ∘ listeners <$> books)).
Proof.
  induction 1 as [|st books Hr _ IH]; [done|]. cbn in *. rewrite IH, (bw_gauge _ _ (reachable_wf B st Hr)). lia.
Qed.

(** C9: in every state of the book that admissible operations reach: the local peer is not
    in the table; all known and connected addresses end in a peer id; at most ten
    failures are kept per peer; no queued or deferred dial is to ourselves;
    every validation dial has at most eleven redials left, every deferred redial
    at most ten and a delay of at most two seconds; and with any other such books in the
    process, the gauge LISTEN_ADDRS that they share is the number of listen addresses of
    all of them (at 64 bits). *)
Theorem book_invariant (B : Z) (st : AddressBook) :
  book_reachable B st ->
  peers st !! local_peer_id st = None /\
  (forall p i, peers st !! p = Some i ->
     (forall a v, addresses i !! a = Some v -> ends_in_p2p a) /\
     (forall a v, connections i !! a = Some v -> ends_in_p2p a) /\
     length (failures i) <= 10) /\
  (forall a, a ∈ actions st -> opts_peer (opts a) <> local_peer_id st /\
     forall addr r, own (handler a) = Some (addr, r) -> ends_in_p2p addr /\ (0 < r <= 11)%Z) /\
  (forall d a, (d, a) ∈ deferred st -> opts_peer (opts a) <> local_peer_id st /\
     (as_nanos d <= 2 * NANOS_PER_SEC)%Z /\
     exists addr r, own (handler a) = Some (addr, r) /\ (0 <= r <= 10)%Z) /\
  (forall books, Forall (book_reachable B) books ->
     gauge LISTEN_ADDRS (metrics <$> st :: books) = wrap_i64 (Z.of_nat (sum_list (size ∘ listeners <$> st :: books)))).
Proof.
  intros Hr. pose proof Hr as [Hp Hl Ha Hd _]%reachable_wf. split; [done|]. split; [|split; [|split]].
  - intros p i Hi. destruct (Hp p i Hi) as [Hia Hic Hif _]. eauto.
  - intros a Hin. rewrite Forall_forall in Ha. destruct (Ha a Hin) as [Hne Ho]. split; [done|].
    intros addr r E. by rewrite E in Ho.
  - intros d a Hin. rewrite Forall_forall in Hd.
    destruct (Hd _ Hin) as (Hne & [_ Hle] & addr & r & E & Hr' & _). eauto 10.
  - intros books Hb. unfold gauge. f_equal. apply (books_gauge B). by constructor.
Qed.

(** C21: exact effect of [add_address].  The address is dropped when it is for
    ourselves, a loopback address while these are disabled, or one of our own
    listeners.  Otherwise it is stored, with the peer id appended if it has none,
    under the better of the old and the new source and the time of the call;
    everything else known about peers stays; a dial of the bare address is queued
    exactly when the source improved to one that is to be probed and there is no
    connection to the address; and the streams get [Discovered] (only for the
    first confirmed address) followed by [NewInfo]. *)
Theorem add_address_effect (now : DateTime) (st : AddressBook) (peer : PeerId) (a : Multiaddr)
    (source : AddressSource) :
  let full := normalize_addr a peer in
  let i := entry st peer in
  exists st', add_address now st peer a source ↓ st' /\
    (ignored st peer a = true -> st' = st) /\
    (ignored st peer a = false ->
       entry st' peer = with_addresses i
         (<[full := ((ingested (addresses i !! full) source).1, now)]> (addresses i)) /\
       (forall q, q <> peer -> peers st' !! q = peers st !! q) /\
       actions st' = actions st ++
         (if (ingested (addresses i !! full) source).2 && negb (is_connected_to i full)
          then [probe_dial peer full] else []) /\
       deferred st' = deferred st /\
       event_stream st' = event_stream (foldl notify st
         ((if undiscovered st peer && is_confirmed source then [Event.Discovered peer] else []) ++
          [Event.NewInfo peer]))).
Proof.
  intros full i. rewrite add_address_spec. eexists. split; [done|].
  destruct (ignored st peer a); [done|]. split; [done|]. intros _.
  unfold added. fold full i.
  destruct ((ingested (addresses i !! full) source).2 && negb (is_connected_to i full)),
    (undiscovered st peer && is_confirmed source); cbn;
    rewrite ?app_nil_r; unfold entry; cbn; rewrite lookup_insert_eq;
    repeat split; intros; by rewrite lookup_insert_ne by done.
Qed.
End Safety.

Section SafetyWitness.
Import Demo.

Lemma book_never_panics_witness : exists st',
  exec (OpAddAddress (at_ns 5) bob bob_4001 Mdns) fresh ↓ st' /\ book_reachable 0 st'.
Proof.
  apply (book_never_panics 0 fresh (OpAddAddress (at_ns 5) bob bob_4001 Mdns)).
  - apply reach_new.
  - done.
Defined.

Lemma add_address_effect_witness : exists st',
  add_address (at_ns 5) book bob bob_4001 Mdns ↓ st' /\ actions st' = [probe_dial bob bob_4001].
Proof.
  destruct (add_address_effect (at_ns 5) book bob bob_4001 Mdns) as (st' & E & _ & Hst).
  exists st'. split; [exact E|].
  destruct Hst as (_ & _ & Ha & _); [vm_compute; reflexivity|]. rewrite Ha. vm_compute. reflexivity.
Defined.
End SafetyWitness.

(** ** Identify information *)

Section Identify.
Context `{P : Profile} `{C : Chrono} `{L : Libp2p} `{Ch : Channels} `{HO : HashOrder}.
Context {LL : Libp2pLaws} {HL : HashOrderLaws}.

(** C11: what [set_info] does with an identify message.  The message is stored;
    every incoming address is replaced by its translations (to the advertised
    ports of the same IP, else to any advertised port, else itself), the
    advertised listen addresses join them; a derived address that was unknown is
    stored to be validated and exactly those are dialled, once each (with port
    reuse, one we are connected to becomes a candidate instead); one that was
    known only has its time refreshed.  No own listener is ever dialled, and
    nothing else about this or another peer changes. *)
Theorem set_info_effect clk (st : AddressBook) peer identify info :
  peers st !! peer = Some info ->
  map_Forall (fun a _ => ends_in_p2p a) (addresses info) ->
  let info0 := identified info identify in
  exists st' info' dials,
    set_info clk st peer identify ↓ st' /\ peers st' = <[peer := info']> (peers st) /\
    info' = with_addresses info0 (addresses info') /\
    (forall a s dt, addresses info' !! a = Some (s, dt) -> s <> Incoming) /\
    (forall a, derived st peer info0 a -> addresses info' !! a = settled clk st (retained info0) a) /\
    (forall a, ~ derived st peer info0 a -> addresses info' !! a = addresses (retained info0) !! a) /\
    NoDup dials /\ actions st' = actions st ++ (validation_dial peer <$> dials) /\
    (forall a, a ∈ dials <-> derived st peer info0 a /\ wants_dial st (retained info0) a = true) /\
    (forall a, a ∈ dials -> pop a ∉ listeners st).
Proof.
  intros Hi Hp info0.
  destruct (set_info_spec clk st peer identify info Hi Hp) as (order & info' & Hnd & Ho & E & Hi' & Hl).
  fold info0 in E, Hi', Hl, Ho.
  exists (notify (put_info (with_actions st (actions st ++ (validation_dial peer <$>
    filter (fun a => wants_dial st (retained info0) a = true) order))) peer info') (Event.NewInfo peer)),
    info', (filter (fun a => wants_dial st (retained info0) a = true) order).
  split; [done|]. split; [done|]. split; [done|]. split; [|split; [|split; [|split; [|split; [|split]]]]].
  - intros a s dt Ha ->. rewrite Hl in Ha. case_decide.
    + by eapply settled_not_incoming in Ha; [|apply retained_no_incoming].
    + by apply retained_lookup in Ha as [_ ?].
  - intros a Ha. by rewrite Hl, decide_True by (by apply Ho).
  - intros a Ha. by rewrite Hl, decide_False by (by rewrite Ho).
  - by apply NoDup_filter.
  - done.
  - intros a. rewrite list_elem_of_filter, Ho. tauto.
  - intros a Ha. apply list_elem_of_filter in Ha as [Ha _]. unfold wants_dial in Ha.
    rewrite !andb_true_iff, bool_decide_eq_true in Ha. by destruct Ha as [[? _] _].
Qed.

(** What the table of a peer is once its message was processed. *)
Definition settled_table (clk : Multiaddr -> AddressSource -> DateTime) (st : AddressBook)
    (i0 i1 : PeerInfo) (order : list Multiaddr) : Prop :=
  i1 = with_addresses i0 (addresses i1) /\
  forall b : Multiaddr, addresses i1 !! b =
    if decide (b ∈ order) then settled clk st (retained i0) b else addresses (retained i0) !! b.

Lemma settled_table_no_incoming clk st i0 i1 o : settled_table clk st i0 i1 o -> no_incoming i1.
Proof.
  intros [_ Hl] a v Ha. rewrite Hl in Ha. case_decide.
  - by eapply settled_not_incoming in Ha; [|apply retained_no_incoming].
  - by apply retained_lookup in Ha as [_ ?].
Qed.

Lemma retained_id i : no_incoming i -> retained i = i.
Proof.
  intros Hn. destruct i. unfold retained, with_addresses. cbn. f_equal.
  apply map_filter_id. intros a v Ha. by apply (Hn _ _ Ha).
Qed.

(** A second pass derives only addresses that the first one has settled. *)
Lemma settled_table_known clk (st st' : AddressBook) peer i0 i1 o :
  settled_table clk st i0 i1 o -> (forall a, a ∈ o <-> derived st peer i0 a) ->
  enable_loopback st' = enable_loopback st ->
  forall a, derived st' peer i1 a -> pop a ∉ listeners st -> is_Some (addresses i1 !! a).
Proof.
  intros Hst Ho Hlo a [(b & Hb & _)|(l & Hl & Hlb & ->)] Hnl.
  - unfold addresses_to_translate in Hb. apply elem_of_dom in Hb as [v Hv].
    apply map_lookup_filter_Some in Hv as [Hv Ht].
    pose proof (settled_table_no_incoming _ _ _ _ _ Hst _ _ Hv). cbn in *. congruence.
  - destruct Hst as [Hi1 Hl1]. rewrite Hl1, decide_True.
    + unfold settled. rewrite decide_False by done. destruct (addresses _ !! _) as [[]|]; [by eexists|].
      destruct (port_reuse st && _); by eexists.
    + apply Ho. right. exists l. rewrite Hlo in Hlb. by rewrite Hi1 in Hl.
Qed.

(** Processing the same identify message again settles: it queues no further
    dial and leaves the set of known addresses and their sources as they are. *)
Theorem set_info_idempotent clk clk' (st st' : AddressBook) peer identify info :
  peers st !! peer = Some info ->
  map_Forall (fun a _ => ends_in_p2p a) (addresses info) ->
  set_info clk st peer identify ↓ st' ->
  exists st'', set_info clk' st' peer identify ↓ st'' /\ actions st'' = actions st' /\
    forall a, fst <$> (addresses (entry st'' peer) !! a) = fst <$> (addresses (entry st' peer) !! a).
Proof.
  intros Hi Hp E.
  destruct (set_info_spec clk st peer identify info Hi Hp) as (o1 & i1 & _ & Ho1 & E1 & Hi1 & Hl1).
  rewrite E1 in E. injection E as <-. clear E1. set (st' := notify _ _).
  pose proof (conj Hi1 Hl1 : settled_table _ _ _ _ _) as Hst.
  assert (Hs1 : peers st' !! peer = Some i1) by apply lookup_insert_eq.
  destruct (set_info_spec clk' st' peer identify i1 Hs1) as (o2 & i2 & _ & Ho2 & E2 & _ & Hl2).
  { intros a v Ha. rewrite Hl1 in Ha. case_decide.
    - eapply derived_p2p; [|by apply Ho1]. exact Hp.
    - apply retained_lookup in Ha as [Ha _]. by apply (Hp _ _ Ha). }
  replace (identified i1 identify) with i1 in * by (by rewrite Hi1).
  rewrite (retained_id i1) in * by (by eapply settled_table_no_incoming).
  assert (Hk : forall a, a ∈ o2 -> pop a ∉ listeners st -> is_Some (addresses i1 !! a)).
  { intros a Ha. eapply (settled_table_known clk st st'); [exact Hst|exact Ho1|done|by apply Ho2]. }
  rewrite E2. eexists. split; [done|]. split.
  - change (actions (notify _ _)) with
      (actions st' ++ (validation_dial peer <$> filter (fun a => wants_dial st' i1 a = true) o2)).
    rewrite (list_filter_none _ o2); [by rewrite app_nil_r|]. intros a Ha. unfold wants_dial.
    rewrite !andb_true_iff, !bool_decide_eq_true. intros [[Hnl Hn] _].
    destruct (Hk a Ha Hnl). congruence.
  - intros a. unfold entry at 1. cbn [peers notify with_event_stream put_info with_peers].
    rewrite lookup_insert_eq. unfold entry. rewrite Hs1. cbn [default]. rewrite Hl2.
    case_decide as Ha; [|done]. unfold settled. change (listeners st') with (listeners st).
    case_decide as Hnl; [done|]. destruct (Hk a Ha Hnl) as [[s dt] Hs].
    unfold id. by rewrite Hs.
Qed.
End Identify.

Section IdentifyWitness.
Import Demo.

Definition bobs_identify : IdentifyInfo (@Multiaddr sim) :=
  mkIdentifyInfo "/ipfs/1.0" "bob" [addr (ip 10 0 0 10) 4001] ["/ipfs/ping"].
Definition noon (a : @Multiaddr sim) (s : AddressSource) : @DateTime utc_nanos := at_ns 20.

Lemma set_info_effect_witness : exists st' dials,
  set_info noon book_connected bob bobs_identify ↓ st' /\
  actions st' = actions book_connected ++ (validation_dial bob <$> dials) /\ bob_4001 ∈ dials.
Proof.
  destruct (set_info_effect noon book_connected bob bobs_identify (entry book_connected bob))
    as (st' & info' & dials & E & _ & _ & _ & _ & _ & _ & Ha & Hd & _).
  - apply entry_known. vm_compute. reflexivity.
  - apply all_p2p_Forall. vm_compute. reflexivity.
  - exists st', dials. split; [exact E|]. split; [exact Ha|]. apply Hd. split; [right|].
    + exists (addr (ip 10 0 0 10) 4001). split; [apply list_elem_of_here|].
      split; vm_compute; reflexivity.
    + vm_compute. reflexivity.
Defined.

Lemma set_info_idempotent_witness : exists st'',
  set_info noon (run (set_info noon book_connected bob bobs_identify)) bob bobs_identify ↓ st'' /\
  actions st'' = [validation_dial bob bob_4001].
Proof.
  destruct (set_info_idempotent noon noon book_connected
    (run (set_info noon book_connected bob bobs_identify)) bob bobs_identify (entry book_connected bob))
    as (st'' & E & Ha & _).
  - apply entry_known. vm_compute. reflexivity.
  - apply all_p2p_Forall. vm_compute. reflexivity.
  - apply run_done. vm_compute. reflexivity.
  - exists st''. split; [exact E|]. rewrite Ha. vm_compute. reflexivity.
Defined.
End IdentifyWitness.

(** ** Failed dials *)

Section DialFailures.
Context `{P : Profile} `{C : Chrono} `{L : Libp2p} `{Ch : Channels} `{HO : HashOrder}.
Context {LL : Libp2pLaws} {HL : HashOrderLaws}.

(** The failure of a dial of ours whose peer is known is handled as the failure
    of a validation dial. *)
Lemma dial_failure_own clk rnd (st : AddressBook) h pid error addr n peer info :
  own h = Some (addr, n) -> addr_peer_id addr = Some peer -> peers st !! peer = Some info ->
  dial_failure clk rnd st h pid error =
    validation_failure (clk 0) (rnd 0) st peer info addr n (keep h) error.
Proof.
  intros Ho Hp Hi. unfold dial_failure, handler_peer_id. rewrite Ho. cbn. rewrite Hp. by rewrite Hi.
Qed.

Lemma after_validation_addresses now i addr error a :
  addresses (after_validation now i addr error) !! a =
    if decide (a = addr) then
      if is_wrong_peer error then None
      else if (is_transport error || is_connection_io error) && probing i addr then None
      else addresses i !! addr
    else addresses i !! a.
Proof.
  unfold after_validation.
  assert (H : addresses (push_failure i addr (failure_dial now (without_peer_id addr) error)
    (is_transport error || is_wrong_peer error || is_connection_io error)) !! a =
    if (is_transport error || is_wrong_peer error || is_connection_io error) && probing i addr
    then delete addr (addresses i) !! a else addresses i !! a).
  { rewrite push_failure_addresses. by destruct (_ && probing i addr). }
  destruct (is_wrong_peer error); cbn -[push_failure]; rewrite ?orb_true_r, ?orb_false_r in *;
    (case_decide as Ha; [rewrite Ha in *|]).
  - by rewrite lookup_delete_eq.
  - rewrite lookup_delete_ne, H by done. cbn. destruct (probing i addr); [|done].
    by rewrite lookup_delete_ne.
  - rewrite H. destruct (_ && probing i addr); [|done]. by rewrite lookup_delete_eq.
  - rewrite H. destruct (_ && probing i addr); [|done]. by rewrite lookup_delete_ne.
Qed.

(** The failure of one of our own dials.  An address that answered with
    another identity is forgotten whatever its source; an address that was only
    to be probed is forgotten on a transport or I/O error; confirmed addresses
    survive every other failure; other addresses and all connections stay.  The
    failure becomes the newest of the peer's failures.  A redial is scheduled
    exactly on a presumed TCP simultaneous open with redials left, with one
    redial fewer. *)
Theorem validation_dial_failure B clk rnd (st : AddressBook) h pid error addr n peer info :
  book_wf B st -> random_ok rnd -> handler_ok h ->
  own h = Some (addr, n) -> addr_peer_id addr = Some peer -> peers st !! peer = Some info ->
  exists st' info',
    dial_failure clk rnd st h pid error ↓ st' /\ peers st' = <[peer := info']> (peers st) /\
    (is_wrong_peer error = true -> addresses info' !! addr = None) /\
    (is_wrong_peer error = false -> addresses info' !! addr =
       if (is_transport error || is_connection_io error) && probing info addr then None
       else addresses info !! addr) /\
    (forall a, a <> addr -> addresses info' !! a = addresses info !! a) /\
    connections info' = connections info /\
    head (failures info') = Some (failure_dial (clk 0) (without_peer_id addr) error) /\
    actions st' = actions st /\
    if any_sim_open error && bool_decide (0 < n)%Z
    then exists d, deferred st' = deferred st ++ [(d, redial peer addr (n - 1) (keep h))]
    else deferred st' = deferred st.
Proof.
  intros H Hr Hh Ho Hp Hi. rewrite (dial_failure_own _ _ _ _ _ _ _ _ _ _ Ho Hp Hi).
  destruct (validation_failure_spec B (clk 0) (rnd 0) st peer info addr n (keep h) error H Hi (Hr 0)
    (Hh _ _ Ho)) as (rs & E & _ & Hrs).
  exists (validation_failed (clk 0) st peer info addr error rs), (after_validation (clk 0) info addr error).
  split; [exact E|]. split; [done|].
  assert (Ha := after_validation_addresses (clk 0) info addr error).
  split; [|split; [|split; [|split; [|split; [|split]]]]].
  - intros Hw. by rewrite Ha, decide_True, Hw.
  - intros Hw. by rewrite Ha, decide_True, Hw.
  - intros a Hne. by rewrite Ha, decide_False.
  - unfold after_validation. destruct (is_wrong_peer error); cbn -[push_failure]; apply push_failure_connections.
  - pose proof (push_failure_failures info addr (failure_dial (clk 0) (without_peer_id addr) error)
      (is_transport error || is_wrong_peer error || is_connection_io error)
      (wf_failures _ _ (bw_peers _ _ H _ _ Hi))) as Hf.
    unfold after_validation. destruct (is_wrong_peer error); cbn -[push_failure]; by rewrite Hf.
  - done.
  - destruct (any_sim_open error && bool_decide (0 < n)%Z).
    + destruct Hrs as [d ->]. by exists d.
    + rewrite Hrs. cbn. by rewrite app_nil_r.
Qed.

(** A failed dial by peer id.  Every address that was tried is reported with
    [DialFailure]; the addresses that failed on a presumed TCP simultaneous open,
    and no others, are dialled again after a delay; the peer is reported as
    [Unreachable] exactly when there is no such address. *)
Theorem peer_dial_failure_effect B clk rnd (st : AddressBook) h peer info v :
  book_wf B st -> random_ok rnd -> own h = None -> peers st !! peer = Some info ->
  exists st' delays,
    dial_failure clk rnd st h (Some peer) (DialTransport v) ↓ st' /\
    deferred st' = deferred st ++ zip delays (sim_open_redials st peer v) /\
    length delays = length (sim_open_redials st peer v) /\
    event_stream st' = event_stream (foldl notify st (dial_reports peer v ++ [Event.NewInfo peer])) /\
    (Event.Unreachable peer ∈ dial_reports peer v <-> sim_open_redials st peer v = []) /\
    actions st' = actions st.
Proof.
  intros H Hr Ho Hi. unfold dial_failure, handler_peer_id. rewrite Ho.
  cbn [mbind option_bind]. rewrite Hi.
  destruct (peer_dial_failure_spec B clk rnd st peer info v H Hi Hr) as (ds & Hlen & E & _).
  rewrite E. eexists _, ds. split; [done|].
  split; [done|]. split; [done|]. split; [|split].
  - rewrite foldl_app. cbn [foldl]. unfold notify at 1 3. cbn [event_stream with_event_stream].
    f_equal. cbn [event_stream with_deferred]. apply foldl_notify_streams. done.
  - unfold dial_reports, sim_open_redials. rewrite elem_of_app, list_elem_of_fmap. split.
    + intros [(ae & ? & _)|Hu]; [done|]. case_decide as Hd; [by rewrite Hd|by apply not_elem_of_nil in Hu].
    + intros Hn. right. apply fmap_nil_inv in Hn. rewrite decide_True by done. set_solver.
  - cbn. by rewrite foldl_notify_frame.
Qed.
End DialFailures.

(** ** Redials come to an end *)

Section Redials.
Context `{P : Profile} `{C : Chrono} `{L : Libp2p} `{Ch : Channels} `{HO : HashOrder}.
Context {LL : Libp2pLaws} {HL : HashOrderLaws}.

(** What the world contributes to one failed dial: the clock, the random
    numbers and the error. *)
Record adversity := mkAdversity {
  adv_clk : nat -> DateTime;
  adv_rnd : nat -> Z;
  adv_error : DialError Multiaddr IoError
}.

(** The life of one dial: it fails, the swarm polls the book, and if the book
    asks for another dial (its delay has elapsed) that one fails as well, and so
    on.  The result counts the redials. *)
Fixpoint chase (fuel : nat) (world : nat -> adversity) (st : AddressBook) (h : IntoAddressHandler) :
    outcome (nat * AddressBook) :=
  match fuel with
  | 0 => Panic "out of fuel"
  | S f =>
      let w := world f in
      st ← dial_failure (adv_clk w) (adv_rnd w) st h None (adv_error w);
      match poll st [] (Some 0) with
      | (st, Ready a) => '(k, st) ← chase f world st (handler a); mret (S k, st)
      | (st, Pending) => mret (0, st)
      end
  end.

Definition quiet (st : AddressBook) : Prop := actions st = [] /\ deferred st = [].

Lemma poll_redial (st : AddressBook) d a :
  actions st = [] -> deferred st = [(d, a)] ->
  exists st', poll st [] (Some 0) = (st', Ready a) /\ quiet st' /\ peers st' = peers st.
Proof.
  intros Ha Hd. unfold poll, quiet.
  destruct (refresh_external st); cbn; rewrite Ha, Hd; cbn; by eexists.
Qed.

Lemma poll_quiet (st : AddressBook) :
  quiet st -> exists st', poll st [] (Some 0) = (st', Pending) /\ quiet st' /\ peers st' = peers st.
Proof.
  intros [Ha Hd]. unfold poll, quiet.
  destruct (refresh_external st); cbn; rewrite Ha, Hd; cbn; by eexists.
Qed.

Lemma chase_step B world (st : AddressBook) h addr n peer fuel :
  book_wf B st -> quiet st -> is_Some (peers st !! peer) ->
  own h = Some (addr, n) -> addr_peer_id addr = Some peer ->
  (0 <= n <= SIM_OPEN_RETRIES + 1)%Z -> random_ok (adv_rnd (world fuel)) ->
  exists st', book_wf B st' /\ quiet st' /\ is_Some (peers st' !! peer) /\
    chase (S fuel) world st h =
      if any_sim_open (adv_error (world fuel)) && bool_decide (0 < n)%Z
      then '(k, st) ← chase fuel world st' (mkIntoAddressHandler (Some (addr, n - 1)%Z) (keep h));
           mret (S k, st)
      else mret (0, st').
Proof.
  intros H [Hqa Hqd] [info Hi] Ho Hp Hn Hw. cbn [chase].
  rewrite (dial_failure_own _ _ _ _ _ _ _ _ _ _ Ho Hp Hi).
  edestruct (validation_failure_spec B (adv_clk (world fuel) 0) (adv_rnd (world fuel) 0) st peer info addr n
    (keep h) (adv_error (world fuel)) H Hi (Hw 0) Hn) as (rs & -> & H' & Hrs).
  cbn [mbind outcome_bind]. set (st1 := validation_failed _ _ _ _ _ _ _) in *.
  assert (Hd1 : deferred st1 = rs) by (cbn; by rewrite Hqd).
  assert (Hi1 : is_Some (peers st1 !! peer)) by (cbn; rewrite lookup_insert_eq; eauto).
  assert (Ha1 : actions st1 = []) by done. clearbody st1.
  pose proof (poll_wf B st1 [] (Some 0) H') as Hw1.
  destruct (any_sim_open _ && _).
  - destruct Hrs as [d ->]. destruct (poll_redial st1 d _ Ha1 Hd1) as (st2 & Ep & Hq2 & Hp2).
    rewrite Ep in Hw1 |- *. exists st2. by rewrite Hp2.
  - rewrite Hrs in Hd1. destruct (poll_quiet st1 (conj Ha1 Hd1)) as (st2 & Ep & Hq2 & Hp2).
    rewrite Ep in Hw1 |- *. exists st2. by rewrite Hp2.
Qed.

(** C12: redials after a presumed TCP simultaneous open come to an end.  Whatever
    errors a dial and its redials meet, a dial with [n] redials left is followed
    by at most [n] redials, and by exactly [n] if every attempt ends in a
    simultaneous open; then nothing is queued or deferred any more. *)
Theorem redials_terminate B (n : nat) world (st : AddressBook) h addr peer fuel :
  book_wf B st -> quiet st -> is_Some (peers st !! peer) ->
  own h = Some (addr, Z.of_nat n) -> addr_peer_id addr = Some peer ->
  n <= 11 -> n < fuel -> (forall k, random_ok (adv_rnd (world k))) ->
  exists k st', chase fuel world st h ↓ (k, st') /\ k <= n /\ quiet st' /\
    ((forall i, any_sim_open (adv_error (world i)) = true) -> k = n).
Proof.
  intros H Hq Hi Ho Hp Hn Hf Hw. revert fuel st h H Hq Hi Ho Hf.
  induction n as [|n IH]; intros fuel st h H Hq Hi Ho Hf; (destruct fuel as [|fuel]; [lia|]);
    destruct (chase_step B world st h addr _ peer fuel H Hq Hi Ho Hp) as (st1 & H1 & Hq1 & Hi1 & ->);
    try done; try (unfold SIM_OPEN_RETRIES; lia).
  - rewrite andb_false_r. by exists 0, st1.
  - rewrite bool_decide_eq_true_2, andb_true_r by lia.
    destruct (any_sim_open (adv_error (world fuel))) eqn:Es.
    + destruct (IH ltac:(lia) fuel st1 (mkIntoAddressHandler (Some (addr, Z.of_nat (S n) - 1)%Z) (keep h)))
        as (k & st' & -> & Hk & Hq' & Hall); try done; [cbn; f_equal; f_equal; lia | lia |].
      exists (S k), st'. split; [done|]. split; [lia|]. split; [done|]. intros. by rewrite Hall.
    + exists 0, st1. split; [done|]. split; [lia|]. split; [done|]. intros Hall. by rewrite Hall in Es.
Qed.
End Redials.

Section FailureWitness.
Import Demo.

(** Bob's address from mDNS is in the book and its validation dial on its way. *)
Definition book_probing : @AddressBook utc_nanos sim sim_channels :=
  (poll (run (add_address (at_ns 5) book bob bob_4001 Mdns)) [] None).1.

Lemma book_probing_wf : book_wf 0 book_probing.
Proof.
  apply poll_wf. destruct (add_address_total 0 (at_ns 5) book bob bob_4001 Mdns) as (st & E & H & _).
  - destruct (book_new_wf (L := sim) 0 me false false false). by split.
  - by rewrite E.
Qed.

Definition probe_handler : @IntoAddressHandler sim := mkIntoAddressHandler (Some (bob_4001, 11%Z)) false.
Definition sim_open_error : DialError (@Multiaddr sim) (@IoError sim) :=
  DialTransport [(bob_4001, TransportOther IoWrapNoise)].
Definition zeros (n : nat) : Z := 0%Z.
Definition ticks (n : nat) : @DateTime utc_nanos := at_ns 30.

Lemma zeros_ok : random_ok zeros.
Proof. intros n. by vm_compute. Qed.

Lemma probe_handler_ok : handler_ok probe_handler.
Proof. intros a r. cbn. intros [= <- <-]. by vm_compute. Qed.

Lemma validation_dial_failure_witness : exists st' info',
  dial_failure ticks zeros book_probing probe_handler None WrongPeerId ↓ st' /\
  peers st' = <[bob := info']> (peers book_probing) /\ addresses info' !! bob_4001 = None.
Proof.
  destruct (validation_dial_failure 0 ticks zeros book_probing probe_handler None WrongPeerId
    bob_4001 11 bob (entry book_probing bob) book_probing_wf zeros_ok probe_handler_ok)
    as (st' & info' & E & Hp & Hw & _).
  - reflexivity.
  - reflexivity.
  - apply entry_known. vm_compute. reflexivity.
  - exists st', info'. split; [exact E|]. split; [exact Hp|]. apply Hw. reflexivity.
Defined.

Definition my_listener : @Multiaddr sim := [Ip4 (ip 10 0 0 9); Tcp 4001].

(** A book that listens, learns of a peer and fails to reach it because both dial at once. *)
Definition listening := run (exec (OpOnSwarmEvent ticks zeros (FromSwarm.NewListenAddr (0 : @ListenerId sim) my_listener)) fresh).
Definition learned := run (exec (OpAddAddress (at_ns 5) bob bob_4001 Mdns) listening).
Definition unlucky := run (exec (OpOnSwarmEvent ticks zeros
  (FromSwarm.DialFailure (mkIntoAddressHandler None false) (Some bob) sim_open_error)) learned).

Lemma unlucky_reachable : book_reachable 0 unlucky.
Proof.
  apply (reach_step 0 learned (OpOnSwarmEvent ticks zeros (FromSwarm.DialFailure (mkIntoAddressHandler None false) (Some bob) sim_open_error)));
    [apply (reach_step 0 listening (OpAddAddress (at_ns 5) bob bob_4001 Mdns));
      [apply (reach_step 0 fresh (OpOnSwarmEvent ticks zeros (FromSwarm.NewListenAddr (0 : @ListenerId sim) my_listener))); [apply reach_new|done|]|done|]|..].
  all: try (apply run_done; vm_compute; reflexivity).
  split; [by intros ?|exact zeros_ok].
Qed.

Lemma book_invariant_witness :
  length (failures (entry unlucky bob)) <= 10 /\ length (failures (entry unlucky bob)) = 1 /\ length (deferred unlucky) = 1 /\
  gauge LISTEN_ADDRS [metrics unlucky; metrics listening] = 2%Z.
Proof.
  destruct (book_invariant 0 unlucky unlucky_reachable) as (_ & Hp & _ & _ & Hg). split_and!.
  - apply (Hp bob (entry unlucky bob)). apply entry_known. vm_compute. reflexivity.
  - vm_compute. reflexivity.
  - vm_compute. reflexivity.
  - change [metrics unlucky; metrics listening] with (metrics <$> [unlucky; listening]).
    rewrite (Hg [listening]); [vm_compute; reflexivity|]. constructor; [|constructor].
    apply (reach_step 0 fresh (OpOnSwarmEvent ticks zeros (FromSwarm.NewListenAddr (0 : @ListenerId sim) my_listener))); [apply reach_new|done|].
    apply run_done. vm_compute. reflexivity.
Defined.

Lemma peer_dial_failure_effect_witness : exists st' delays,
  dial_failure ticks zeros book_probing (mkIntoAddressHandler None false) (Some bob) sim_open_error ↓ st' /\
  deferred st' = deferred book_probing ++ zip delays [redial bob bob_4001 10 false].
Proof.
  destruct (peer_dial_failure_effect 0 ticks zeros book_probing (mkIntoAddressHandler None false) bob
    (entry book_probing bob) [(bob_4001, TransportOther IoWrapNoise)] book_probing_wf zeros_ok)
    as (st' & ds & E & Hd & _).
  - reflexivity.
  - apply entry_known. vm_compute. reflexivity.
  - exists st', ds. split; [exact E|]. rewrite Hd. reflexivity.
Defined.

Lemma redials_terminate_witness : exists st',
  chase 12 (fun _ => mkAdversity ticks zeros sim_open_error) book_probing probe_handler ↓ (11, st') /\
  quiet st'.
Proof.
  destruct (redials_terminate 0 11 (fun _ => mkAdversity ticks zeros sim_open_error) book_probing
    probe_handler bob_4001 bob 12 book_probing_wf) as (k & st' & E & _ & Hq & Hk).
  - split; vm_compute; reflexivity.
  - eexists. apply entry_known. vm_compute. reflexivity.
  - reflexivity.
  - reflexivity.
  - lia.
  - lia.
  - intros. exact zeros_ok.
  - assert (k = 11) as -> by (apply Hk; intros; reflexivity). exists st'. split; [exact E|exact Hq].
Defined.
End FailureWitness.

(** ** Pruning, connections, events and polling *)

Section Housekeeping.
Context `{P : Profile} `{C : Chrono} `{L : Libp2p} `{Ch : Channels} `{HO : HashOrder}.
Context {LL : Libp2pLaws} {HL : HashOrderLaws}.


(** A connection that is established and closed again leaves the peer's
    connections as they were without it; the address stays known and the close is
    the newest failure.  While it is open, the connection is in the table with
    the direction of its endpoint. *)
Theorem connection_round_trip t1 t2 t3 (st : AddressBook) peer cp m n error :
  let conn := normalize_connected_point cp (local_peer_id st) peer in
  let a := get_remote_address conn in
  length (failures (entry st peer)) <= 10 ->
  exists st1 st2,
    connection_established t1 t2 st peer cp m ↓ st1 /\ connection_closed t3 st1 peer cp n error = st2 /\
    connections (entry st1 peer) = <[a := (t2, direction_from conn)]> (connections (entry st peer)) /\
    connections (entry st2 peer) = delete a (connections (entry st peer)) /\
    addresses (entry st2 peer) = addresses (entry st1 peer) /\
    (fun f => (kind f, display f)) <$> head (failures (entry st2 peer)) =
      Some (if (close_reason error).2 then PeerDisconnected else WeDisconnected, (close_reason error).1) /\
    (ignored st peer a = false -> is_Some (addresses (entry st2 peer) !! a)).
Proof.
  intros conn a Hf.
  destruct (connection_established_entry t1 t2 st peer cp m) as (st1 & E & Hl & Hc & Hfl & Ha).
  exists st1, (connection_closed t3 st1 peer cp n error). split; [done|]. split; [done|].
  fold conn a in Hc, Ha. split; [done|].
  rewrite connection_closed_entry, Hl. fold conn a.
  destruct (close_reason error) as [reason closed]. cbn [fst snd].
  rewrite push_failure_connections, push_failure_addresses. cbn [andb].
  rewrite push_failure_failures by (cbn; by rewrite Hfl). cbn. rewrite Hc, delete_insert_eq.
  split; [done|]. split; [done|]. split; [by destruct closed|done].
Qed.

(** Events reach every live stream, in order and completely: after any
    non-empty sequence of notifications the book holds exactly the streams whose
    receiver was there, each with the whole sequence appended. *)
Theorem notify_in_order {CL : ChannelLaws} (st : AddressBook) (es : list Event.t) :
  es <> [] ->
  Forall2 (fun tx tx' => queued tx' = queued tx ++ es /\ connected tx' = true)
    (filter (fun tx => connected tx = true) (event_stream st))
    (event_stream (foldl notify st es)).
Proof.
  induction es as [|e es IH] using rev_ind; intros Hne; [done|]. rewrite foldl_app. cbn [foldl].
  destruct (decide (es = [])) as [->|Hes]; [apply notify_streams|]. specialize (IH Hes).
  assert (Hc : Forall (fun tx => connected tx = true) (event_stream (foldl notify st es))).
  { eapply Forall2_Forall_r; [exact IH|]. apply Forall_forall. by intros tx _ tx' [_ ?]. }
  pose proof (notify_streams (event_stream (foldl notify st es)) e) as H1.
  rewrite list_filter_all in H1 by done. eapply Forall2_trans; [|exact IH|exact H1].
  intros x y z [Hq _] [Hq' ?]. split; [|done]. by rewrite Hq', Hq, <- app_assoc.
Qed.

(** The swarm polling the book [n] times while no delay elapses. *)
Fixpoint drain (n : nat) (ext : list AddressRecord) (st : AddressBook) : list ToSwarm * AddressBook :=
  match n with
  | 0 => ([], st)
  | S n =>
      match poll st ext None with
      | (st, Ready a) => let '(l, st) := drain n ext st in (a :: l, st)
      | (st, Pending) => ([], st)
      end
  end.

Lemma poll_deferred (st : AddressBook) ext timer :
  actions st = [] ->
  match poll st ext timer with
  | (st', Ready a) => actions st' = [] /\ exists n d, timer = Some n /\
      deferred st !! n = Some (d, a) /\ deferred st' = delete n (deferred st)
  | (st', Pending) => actions st' = [] /\ deferred st' = deferred st /\
      forall n, timer = Some n -> deferred st !! n = None
  end.
Proof.
  intros Ha. unfold poll. destruct (refresh_external st); cbn; rewrite Ha;
    (destruct timer as [n|]; [|done]); destruct (deferred st !! n) as [[d a]|] eqn:E; cbn;
    rewrite ?E, ?Ha; (split; [done|]); [by eauto|naive_solver|by eauto|naive_solver].
Qed.

(** No request to the swarm is lost or reordered: polling hands out the
    queued dials first in, first out; once the queue is empty a poll hands out a
    deferred dial whose delay has elapsed and takes exactly that one off. *)
Theorem poll_hands_out_all (st : AddressBook) ext timer :
  (exists st', drain (length (actions st)) ext st = (actions st, st') /\
     actions st' = [] /\ deferred st' = deferred st /\ peers st' = peers st) /\
  (actions st = [] ->
    match poll st ext timer with
    | (st', Ready a) => exists d, deferred st ≡ₚ (d, a) :: deferred st'
    | (st', Pending) => deferred st' = deferred st
    end).
Proof.
  split.
  - remember (actions st) as acts eqn:E. symmetry in E. revert st E.
    induction acts as [|a acts IH]; intros st E; cbn [drain length]; [by exists st|].
    unfold poll. destruct (refresh_external st); cbn; rewrite E;
      (edestruct IH as (st' & -> & Ha & Hd & Hp); [|by exists st']; done).
  - intros Ha. pose proof (poll_deferred st ext timer Ha) as H.
    destruct (poll st ext timer) as [st' [a|]]; [|by destruct H as (_ & ? & _)].
    destruct H as (_ & n & d & _ & Hn & ->). exists d. by apply delete_Permutation.
Qed.

(** Which addresses count as loopback: an IPv4 address exactly if it is in
    127.0.0.0/8, and every address that does not start with an IPv4 component,
    IPv6 and DNS addresses included.  Without [enable_loopback] the book drops
    all of these. *)
Theorem loopback_exact now (st : AddressBook) peer a source :
  (forall x, (0 <= x < 2 ^ 32)%Z -> head (iter a) = Some (Ip4 x) ->
     (is_loopback a = true <-> (127 * 2 ^ 24 <= x < 128 * 2 ^ 24)%Z)) /\
  ((forall x, head (iter a) <> Some (Ip4 x)) ->
     is_loopback a = true /\ (enable_loopback st = false -> add_address now st peer a source ↓ st)).
Proof.
  unfold is_loopback. split.
  - intros x Hx ->. unfold ip4_is_loopback. rewrite Z.shiftr_div_pow2 by lia.
    change (2 ^ 24)%Z with 16777216%Z in *. generalize (Z.eqb_eq (x `div` 16777216) 127).
    destruct (x `div` 16777216 =? 127)%Z; cbn; intros [H1 H2].
    + specialize (H1 eq_refl). split; [Z.div_mod_to_equations; lia|done].
    + split; [done|]. intros Hr. apply H2. Z.div_mod_to_equations; lia.
  - intros Hn. assert (Hl : is_loopback a = true).
    { unfold is_loopback. destruct (head (iter a)) as [[]|]; try done. by edestruct Hn. }
    split; [exact Hl|]. intros Hlo. rewrite add_address_spec. unfold ignored.
    by rewrite Hlo, Hl, orb_true_r.
Qed.
End Housekeeping.

Section HousekeepingWitness.
Import Demo.


Lemma connection_round_trip_witness : exists st1 st2,
  connection_established (at_ns 10) (at_ns 11) book bob incoming 0 ↓ st1 /\
  connection_closed (at_ns 12) st1 bob incoming 0 None = st2 /\
  connections (entry st1 bob) = {[ bob_57634 := (at_ns 11, Inbound) ]} /\
  is_Some (addresses (entry st2 bob) !! bob_57634).
Proof.
  destruct (connection_round_trip (at_ns 10) (at_ns 11) (at_ns 12) book bob incoming 0 0 None)
    as (st1 & st2 & E1 & E2 & Hc & _ & _ & _ & Ha).
  - vm_compute. lia.
  - exists st1, st2. split; [exact E1|]. split; [exact E2|]. split; [exact Hc|].
    apply Ha. vm_compute. reflexivity.
Defined.

Lemma notify_in_order_witness :
  Forall2 (fun tx tx' => queued tx' = queued tx ++ [Event.Connected bob; Event.NewInfo bob] /\
                         connected tx' = true)
    [stream] (event_stream (foldl notify book [Event.Connected bob; Event.NewInfo bob])).
Proof. apply (notify_in_order book [Event.Connected bob; Event.NewInfo bob]). discriminate. Defined.

Definition google_v6 : @Multiaddr sim := [Ip6 (32%Z); Tcp 443].

Lemma loopback_exact_witness : add_address (at_ns 5) book bob google_v6 User ↓ book.
Proof.
  apply (loopback_exact (at_ns 5) book bob google_v6 User); [discriminate|reflexivity].
Defined.

Lemma poll_hands_out_all_witness : exists st',
  drain 1 [] (dial book bob) = (actions (dial book bob), st').
Proof.
  destruct (poll_hands_out_all (dial book bob) [] None) as [(st' & E & _) _]. exists st'. exact E.
Defined.
End HousekeepingWitness.
