(* ===== verification/Protocols.v ===== *)
(** * The protocols that ipfs-embed composes

    Kademlia, bitswap, gossipsub and broadcast are libraries: their states, query
    ids and operations are the fields of the class [Protocols].  What the program
    relies on is in [ProtocolLaws].  Module [SimProtocols] is a concrete instance
    that records what it is asked. *)
From S2P Require Import Prelude Time Libp2p.

(** ** Events of the protocols, with the constructors the program matches on *)

Inductive Quorum := QuorumOne | QuorumMajority | QuorumAll | QuorumN (n : nat).

Inductive PublishError (E : Type) : Type := InsufficientPeers | OtherPublishError (e : E).
Arguments InsufficientPeers {_}.
Arguments OtherPublishError {_} _.

(** Bytes of messages and topics. *)
Definition bytes := list Z.

Class Protocols `{L : Libp2p} := {
  AnyError : Type;  (* anyhow::Error made from an error of a library *)
  (* Kademlia *)
  Kad : Type;
  KadQueryId : Type;
  KadQueryId_eq_dec :: EqDecision KadQueryId;
  KadQueryId_countable :: Countable KadQueryId;
  Key : Type;
  KadRecord : Type;
  PeerRecord : Type;
  KadErr : Type;  (* the error types of its queries and of its record store *)
  K_VALUE : nat;
  kad_add_address : Kad -> PeerId -> Multiaddr -> Kad;
  kad_remove_address : Kad -> PeerId -> Multiaddr -> Kad;
  kad_bootstrap : Kad -> Kad * result KadQueryId AnyError;
  kad_start_providing : Kad -> Key -> Kad * result KadQueryId KadErr;
  kad_stop_providing : Kad -> Key -> Kad;
  kad_get_providers : Kad -> Key -> Kad * KadQueryId;
  kad_get_record : Kad -> Key -> Kad * KadQueryId;
  kad_put_record : Kad -> KadRecord -> Quorum -> Kad * result KadQueryId KadErr;
  kad_remove_record : Kad -> Key -> Kad;
  kad_finish : Kad -> KadQueryId -> Kad;  (* query_mut(&id) and, if there is one, finish() *)
  (* bitswap *)
  Bitswap : Type;
  BitswapQueryId : Type;
  BitswapQueryId_eq_dec :: EqDecision BitswapQueryId;
  BitswapQueryId_countable :: Countable BitswapQueryId;
  Cid : Type;
  Cid_eq_dec :: EqDecision Cid;
  Cid_countable :: Countable Cid;
  bitswap_get : Bitswap -> Cid -> list PeerId -> Bitswap * BitswapQueryId;
  bitswap_sync : Bitswap -> Cid -> list PeerId -> list Cid -> Bitswap * BitswapQueryId;
  bitswap_cancel : Bitswap -> BitswapQueryId -> Bitswap;
  (* gossipsub: IdentTopic::new(topic).hash() and the calls with a topic *)
  Gossipsub : Type;
  topic_hash : string -> string;
  gossip_subscribe : Gossipsub -> string -> Gossipsub * result unit AnyError;
  gossip_unsubscribe : Gossipsub -> string -> Gossipsub;
  gossip_publish : Gossipsub -> string -> bytes -> Gossipsub * result unit (PublishError AnyError);
  (* broadcast *)
  Broadcast : Type;
  BTopic : Type;
  Topic_new : string -> BTopic;
  broadcast_subscribe : Broadcast -> BTopic -> Broadcast;
  broadcast_unsubscribe : Broadcast -> BTopic -> Broadcast;
  broadcast_broadcast : Broadcast -> BTopic -> bytes -> Broadcast
}.

(** An [IdentTopic] is its own hash. *)
Class ProtocolLaws `{Pr : Protocols} : Prop := {
  topic_hash_ident t : topic_hash t = t
}.

Section Events.
Context `{Pr : Protocols}.

Inductive GetProvidersOk :=
| FoundProviders (providers : gset PeerId)
| FinishedWithNoAdditionalProviders.

Inductive GetRecordOk :=
| FoundRecord (r : PeerRecord)
| FinishedWithNoAdditionalRecord.

Inductive QueryResult :=
| QrBootstrap (r : result Z KadErr)  (* num_remaining *)
| QrGetClosestPeers (r : result (list PeerId) KadErr)
| QrGetProviders (r : result GetProvidersOk KadErr)
| QrStartProviding (r : result unit KadErr)
| QrRepublishProvider (r : result unit KadErr)
| QrGetRecord (r : result GetRecordOk KadErr)
| QrPutRecord (r : result unit KadErr)
| QrRepublishRecord (r : result unit KadErr).

Inductive KademliaEvent :=
| OutboundQueryProgressed (id : KadQueryId) (r : QueryResult) (last : bool)
| OtherKadEvent.

Inductive BitswapEvent :=
| BitswapProgress (id : BitswapQueryId) (missing : nat)
| BitswapComplete (id : BitswapQueryId) (r : result unit AnyError).

Inductive PingFailure := PingTimeout | PingOther | PingUnsupported.

Record PingEvent := mkPingEvent {
  ping_peer : PeerId;
  ping_result : result Duration PingFailure
}.

Inductive IdentifyEvent :=
| IdentifyReceived (peer : PeerId) (info : IdentifyInfo Multiaddr)
| OtherIdentifyEvent.

Inductive GossipsubEvent :=
| GsMessage (propagation_source : PeerId) (source : option PeerId) (topic : string) (data : bytes)
| GsSubscribed (peer : PeerId) (topic : string)
| GsUnsubscribed (peer : PeerId) (topic : string)
| GossipsubNotSupported (peer : PeerId).

(** Topics of the broadcast protocol are bytes. *)
Inductive BroadcastEvent :=
| BcReceived (peer : PeerId) (topic data : bytes)
| BcSubscribed (peer : PeerId) (topic : bytes)
| BcUnsubscribed (peer : PeerId) (topic : bytes).

Inductive MdnsEvent :=
| MdnsDiscovered (l : list (PeerId * Multiaddr))
| MdnsExpired (l : list (PeerId * Multiaddr)).
End Events.

(** ** [std::str::from_utf8]

    The well-formed byte sequences of RFC 3629, as the standard library decides
    them; the result is the byte string itself. *)
Definition in_range (lo hi b : Z) : bool := Z.leb lo b && Z.leb b hi.
Definition cont (b : Z) : bool := in_range 128 191 b.

Fixpoint utf8_valid (l : bytes) : bool :=
  match l with
  | [] => true
  | b :: l1 =>
      if in_range 0 127 b then utf8_valid l1
      else if in_range 194 223 b then
        match l1 with c :: l2 => cont c && utf8_valid l2 | [] => false end
      else if in_range 224 239 b then
        match l1 with
        | c :: d :: l3 =>
            (if Z.eqb b 224 then in_range 160 191 c
             else if Z.eqb b 237 then in_range 128 159 c else cont c) && cont d && utf8_valid l3
        | _ => false
        end
      else if in_range 240 244 b then
        match l1 with
        | c :: d :: e :: l4 =>
            (if Z.eqb b 240 then in_range 144 191 c
             else if Z.eqb b 244 then in_range 128 143 c else cont c) && cont d && cont e && utf8_valid l4
        | _ => false
        end
      else false
  end.

Fixpoint string_of_bytes (l : bytes) : string :=
  match l with
  | [] => EmptyString
  | b :: l => String (Ascii.ascii_of_N (Z.to_N b)) (string_of_bytes l)
  end.

Definition from_utf8 (l : bytes) : option string :=
  if utf8_valid l then Some (string_of_bytes l) else None.

(** ** A concrete instance *)
Module SimProtocols.
Import Sim.

Record kad := mkKad {
  kad_next : N;
  kad_finished : list N;
  kad_table : list (N * list Proto)
}.

Definition kad_new_query (k : kad) : kad * N :=
  (mkKad (kad_next k + 1) (kad_finished k) (kad_table k), kad_next k).

Definition kad_new_query_ok (k : kad) : kad * result N string :=
  let '(k, id) := kad_new_query k in (k, Ok id).

Record bitswap := mkBitswap { bs_next : N; bs_live : list N }.

Definition bs_new_query (b : bitswap) : bitswap * N :=
  (mkBitswap (bs_next b + 1) (bs_next b :: bs_live b), bs_next b).

#[export] Instance sim_protocols : Protocols (L := sim) | 100 := {|
  AnyError := string;
  Kad := kad;
  KadQueryId := N;
  Key := N;
  KadRecord := N;
  PeerRecord := N;
  KadErr := string;
  K_VALUE := 20;
  kad_add_address := fun k p a => mkKad (kad_next k) (kad_finished k) ((p, a) :: kad_table k);
  kad_remove_address := fun k p a =>
    mkKad (kad_next k) (kad_finished k) (filter (fun x => x <> (p, a)) (kad_table k));
  kad_bootstrap := kad_new_query_ok;
  kad_start_providing := fun k _ => kad_new_query_ok k;
  kad_stop_providing := fun k _ => k;
  kad_get_providers := fun k _ => kad_new_query k;
  kad_get_record := fun k _ => kad_new_query k;
  kad_put_record := fun k _ _ => kad_new_query_ok k;
  kad_remove_record := fun k _ => k;
  kad_finish := fun k id => mkKad (kad_next k) (id :: kad_finished k) (kad_table k);
  Bitswap := bitswap;
  BitswapQueryId := N;
  Cid := N;
  bitswap_get := fun b _ _ => bs_new_query b;
  bitswap_sync := fun b _ _ _ => bs_new_query b;
  bitswap_cancel := fun b id => mkBitswap (bs_next b) (filter (fun x => x <> id) (bs_live b));
  Gossipsub := list string;
  topic_hash := fun t => t;
  gossip_subscribe := fun g t => (t :: g, Ok tt);
  gossip_unsubscribe := fun g t => filter (fun x => x <> t) g;
  gossip_publish := fun g t m =>
    if decide (t ∈ g) then (g, Ok tt) else (g, Err InsufficientPeers);
  Broadcast := list string;
  BTopic := string;
  Topic_new := fun t => t;
  broadcast_subscribe := fun b t => t :: b;
  broadcast_unsubscribe := fun b t => filter (fun x => x <> t) b;
  broadcast_broadcast := fun b _ _ => b
|}.

#[export] Instance sim_protocol_laws : ProtocolLaws (Pr := sim_protocols).
Proof. by split. Qed.
End SimProtocols.
