(* ===== verification/Behaviour.v ===== *)
(** * The composed network behaviour (src/net/behaviour.rs): state and operations

    [Backend] is the state of [NetworkBackendBehaviour] together with the loop
    variables of [poll_swarm] that its methods are handed by reference (the
    registry of queries, the table of subscriptions, the bootstrap flag).  A
    one-shot sender is the name of its channel; what is sent on it, and that it
    is dropped unused, is recorded in [outbox].  The toggles of mDNS, ping and
    identify are not part of the state: no method of the behaviour uses them. *)
From S2P Require Import Prelude Time Libp2p PeerInfo AddressHandler Peers Protocols.

Section Behaviour.
Context `{P : Profile} `{C : Chrono} `{L : Libp2p} `{Ch : Channels} `{HO : HashOrder}.
Context `{Pr : !Protocols}.

(** ** Data *)

Inductive QueryId := BitswapId (id : BitswapQueryId) | KadId (id : KadQueryId).

#[export] Instance QueryId_eq_dec : EqDecision QueryId.
Proof. solve_decision. Defined.

#[export] Instance QueryId_countable : Countable QueryId.
Proof.
  refine (inj_countable'
    (fun q => match q with BitswapId i => inl i | KadId i => inr i end)
    (fun s => match s with inl i => BitswapId i | inr i => KadId i end) _).
  by intros [].
Defined.

Inductive Error :=
| DisabledProtocol (name : string)
| NotBootstrapped
| KadStoreError (e : KadErr)
| KadBootstrapError (e : KadErr)
| KadGetClosestPeersError (e : KadErr)
| KadGetProvidersError (e : KadErr)
| KadAddProviderError (e : KadErr)
| KadGetRecordError (e : KadErr)
| KadPutRecordError (e : KadErr)
| GossipsubPublishError (e : AnyError)
| OtherError (e : AnyError).

(** The name of the one-shot or sync channel a sender belongs to. *)
Definition Tx := nat.

Inductive QueryChannel :=
| ChGet (tx : Tx)
| ChSync (tx : Tx)
| ChBootstrap (tx : Tx)
| ChGetClosestPeers (tx : Tx)
| ChGetProviders (set : gset PeerId) (tx : Tx)
| ChStartProviding (tx : Tx)
| ChGetRecord (quorum : nat) (records : list PeerRecord) (tx : Tx)
| ChPutRecord (tx : Tx).

Definition tx_of (ch : QueryChannel) : Tx :=
  match ch with
  | ChGet tx | ChSync tx | ChBootstrap tx | ChGetClosestPeers tx | ChGetProviders _ tx
  | ChStartProviding tx | ChGetRecord _ _ tx | ChPutRecord tx => tx
  end.

Inductive reply :=
| RUnit (r : result unit Error)
| RPeerVec (r : result (list PeerId) Error)
| RPeers (r : result (gset PeerId) Error)
| RRecords (r : result (list PeerRecord) Error).

(** What happens on the channels of queries. *)
Inductive delivery :=
| Replied (tx : Tx) (r : reply)
| SyncProgress (tx : Tx) (missing : nat)
| SyncComplete (tx : Tx) (r : result unit Error)
| Dropped (tx : Tx).

Inductive GossipEvent :=
| GeSubscribed (p : PeerId)
| GeMessage (p : PeerId) (data : bytes)
| GeUnsubscribed (p : PeerId).

Record Backend := mkBackend {
  book : AddressBook;
  kad : option Kad;
  bitswap : option Bitswap;
  gossipsub : option Gossipsub;
  broadcast : option Broadcast;
  bootstrapped : bool;
  queries : gmap QueryId QueryChannel;
  subscriptions : gmap string (list (Sender GossipEvent));
  outbox : list delivery
}.

Definition with_book (st : Backend) (b : AddressBook) : Backend :=
  mkBackend b (kad st) (bitswap st) (gossipsub st) (broadcast st) (bootstrapped st) (queries st)
    (subscriptions st) (outbox st).
Definition with_kad (st : Backend) (k : Kad) : Backend :=
  mkBackend (book st) (Some k) (bitswap st) (gossipsub st) (broadcast st) (bootstrapped st)
    (queries st) (subscriptions st) (outbox st).
Definition with_bitswap (st : Backend) (b : Bitswap) : Backend :=
  mkBackend (book st) (kad st) (Some b) (gossipsub st) (broadcast st) (bootstrapped st)
    (queries st) (subscriptions st) (outbox st).
Definition with_gossipsub (st : Backend) (g : Gossipsub) : Backend :=
  mkBackend (book st) (kad st) (bitswap st) (Some g) (broadcast st) (bootstrapped st)
    (queries st) (subscriptions st) (outbox st).
Definition with_broadcast (st : Backend) (b : Broadcast) : Backend :=
  mkBackend (book st) (kad st) (bitswap st) (gossipsub st) (Some b) (bootstrapped st)
    (queries st) (subscriptions st) (outbox st).
Definition with_bootstrapped (st : Backend) (b : bool) : Backend :=
  mkBackend (book st) (kad st) (bitswap st) (gossipsub st) (broadcast st) b
    (queries st) (subscriptions st) (outbox st).
Definition with_queries (st : Backend) (q : gmap QueryId QueryChannel) : Backend :=
  mkBackend (book st) (kad st) (bitswap st) (gossipsub st) (broadcast st) (bootstrapped st)
    q (subscriptions st) (outbox st).
Definition with_subscriptions (st : Backend) (s : gmap string (list (Sender GossipEvent))) : Backend :=
  mkBackend (book st) (kad st) (bitswap st) (gossipsub st) (broadcast st) (bootstrapped st)
    (queries st) s (outbox st).
Definition emit (st : Backend) (d : delivery) : Backend :=
  mkBackend (book st) (kad st) (bitswap st) (gossipsub st) (broadcast st) (bootstrapped st)
    (queries st) (subscriptions st) (outbox st ++ [d]).

(** ** The registry of queries *)

(** [queries.insert(id, ch)]: a sender that was there is dropped. *)
Definition register (st : Backend) (id : QueryId) (ch : QueryChannel) : Backend :=
  let st' :=
    match queries st !! id with Some old => emit st (Dropped (tx_of old)) | None => st end in
  with_queries st' (<[id := ch]> (queries st')).

(** [if let Some(Kind(ch)) = queries.remove(&id) { ch.send(..) }]: [reply_to] is
    [None] on the other kinds, whose sender is dropped. *)
Definition answer (st : Backend) (id : QueryId) (reply_to : QueryChannel -> option delivery) : Backend :=
  match queries st !! id with
  | None => st
  | Some ch =>
      let st := with_queries st (delete id (queries st)) in
      emit st (default (Dropped (tx_of ch)) (reply_to ch))
  end.

(** [tx.send(Err(err)).ok()] with a sender that was not registered. *)
Definition reject (st : Backend) (tx : Tx) (r : reply) : Backend := emit st (Replied tx r).

Definition err_map {A B E F} (f : A -> B) (g : E -> F) (r : result A E) : result B F :=
  match r with Ok a => Ok (f a) | Err e => Err (g e) end.

(** ** Kademlia *)

Definition to_bootstrap (r : result unit Error) (ch : QueryChannel) : option delivery :=
  match ch with ChBootstrap tx => Some (Replied tx (RUnit r)) | _ => None end.
Definition to_closest_peers (r : result (list PeerId) Error) (ch : QueryChannel) : option delivery :=
  match ch with ChGetClosestPeers tx => Some (Replied tx (RPeerVec r)) | _ => None end.
Definition to_providers (r : gset PeerId -> result (gset PeerId) Error) (ch : QueryChannel) :
    option delivery :=
  match ch with ChGetProviders set tx => Some (Replied tx (RPeers (r set))) | _ => None end.
Definition to_start_providing (r : result unit Error) (ch : QueryChannel) : option delivery :=
  match ch with ChStartProviding tx => Some (Replied tx (RUnit r)) | _ => None end.
Definition to_record (r : list PeerRecord -> result (list PeerRecord) Error) (ch : QueryChannel) :
    option delivery :=
  match ch with ChGetRecord _ rs tx => Some (Replied tx (RRecords (r rs))) | _ => None end.
Definition to_put_record (r : result unit Error) (ch : QueryChannel) : option delivery :=
  match ch with ChPutRecord tx => Some (Replied tx (RUnit r)) | _ => None end.

(** The arm [GetProviders(Ok(res))]. *)
Definition progress_providers (st : Backend) (id : QueryId) (res : GetProvidersOk) (last : bool) : Backend :=
  match queries st !! id with
  | Some (ChGetProviders set tx) =>
      let set := match res with FoundProviders ps => set ∪ ps | FinishedWithNoAdditionalProviders => set end in
      let st := with_queries st (<[id := ChGetProviders set tx]> (queries st)) in
      if last then answer st id (to_providers Ok) else st
  | _ => st
  end.

(** The arm [GetRecord(Ok(res))]. *)
Definition progress_record (st : Backend) (kid : KadQueryId) (res : GetRecordOk) (last : bool) : Backend :=
  match queries st !! KadId kid with
  | Some (ChGetRecord quorum records tx) =>
      let records := match res with FoundRecord r => records ++ [r] | FinishedWithNoAdditionalRecord => records end in
      let st := with_queries st (<[KadId kid := ChGetRecord quorum records tx]> (queries st)) in
      if last || bool_decide (quorum <= length records) then
        let st := match kad st with Some k => with_kad st (kad_finish k kid) | None => st end in
        answer st (KadId kid) (to_record Ok)
      else st
  | _ => st
  end.

Definition inject_kad_event (st : Backend) (event : KademliaEvent) : Backend :=
  match event with
  | OtherKadEvent => st
  | OutboundQueryProgressed kid r last =>
      let id := KadId kid in
      match r with
      | QrBootstrap (Ok num_remaining) =>
          if decide (num_remaining = 0%Z) then
            let st := with_bootstrapped st true in
            let st := answer st id (to_bootstrap (Ok tt)) in
            with_book st (notify (book st) Event.Bootstrapped)
          else st
      | QrBootstrap (Err e) => answer st id (to_bootstrap (Err (KadBootstrapError e)))
      | QrGetClosestPeers (Ok ps) => answer st id (to_closest_peers (Ok ps))
      | QrGetClosestPeers (Err e) => answer st id (to_closest_peers (Err (KadGetClosestPeersError e)))
      | QrGetProviders (Ok res) => progress_providers st id res last
      | QrGetProviders (Err e) => answer st id (to_providers (fun _ => Err (KadGetProvidersError e)))
      | QrStartProviding (Ok _) => answer st id (to_start_providing (Ok tt))
      | QrStartProviding (Err e) => answer st id (to_start_providing (Err (KadAddProviderError e)))
      | QrRepublishProvider _ => st
      | QrGetRecord (Ok res) => progress_record st kid res last
      | QrGetRecord (Err e) => answer st id (to_record (fun _ => Err (KadGetRecordError e)))
      | QrPutRecord (Ok _) => answer st id (to_put_record (Ok tt))
      | QrPutRecord (Err e) => answer st id (to_put_record (Err (KadPutRecordError e)))
      | QrRepublishRecord _ => st
      end
  end.

(** ** Bitswap *)

Definition to_bitswap (r : result unit Error) (ch : QueryChannel) : option delivery :=
  match ch with
  | ChGet tx => Some (Replied tx (RUnit r))
  | ChSync tx => Some (SyncComplete tx r)
  | _ => None
  end.

Definition inject_bitswap_event (st : Backend) (event : BitswapEvent) : Backend :=
  match event with
  | BitswapProgress qid missing =>
      match queries st !! BitswapId qid with
      | Some (ChSync tx) => emit st (SyncProgress tx missing)
      | _ => st
      end
  | BitswapComplete qid r => answer st (BitswapId qid) (to_bitswap (err_map id OtherError r))
  end.

(** ** Topics *)

Definition unsubscribe (st : Backend) (topic : string) : Backend :=
  let broadcast_topic := Topic_new (topic_hash topic) in
  let st :=
    match gossipsub st with Some g => with_gossipsub st (gossip_unsubscribe g topic) | None => st end in
  match broadcast st with
  | Some b => with_broadcast st (broadcast_unsubscribe b broadcast_topic)
  | None => st
  end.

Definition notify_subscribers (st : Backend) (topic : string) (event : GossipEvent) : Backend :=
  match subscriptions st !! topic with
  | Some subscribers =>
      let subscribers := omap (fun tx => unbounded_send tx event) subscribers in
      if decide (length subscribers = 0) then
        let st := unsubscribe st topic in
        with_subscriptions st (delete topic (subscriptions st))
      else with_subscriptions st (<[topic := subscribers]> (subscriptions st))
  | None => st
  end.

Definition inject_gossip_event (st : Backend) (event : GossipsubEvent) : Backend :=
  match event with
  | GsMessage propagation_source source topic data =>
      notify_subscribers st topic (GeMessage (default propagation_source source) data)
  | GsSubscribed peer topic =>
      let st := with_book st (notify (book st) (Event.Subscribed peer topic)) in
      notify_subscribers st topic (GeSubscribed peer)
  | GsUnsubscribed peer topic =>
      let st := with_book st (notify (book st) (Event.Unsubscribed peer topic)) in
      notify_subscribers st topic (GeUnsubscribed peer)
  | GossipsubNotSupported _ => st
  end.

Definition inject_broadcast_event (st : Backend) (event : BroadcastEvent) : outcome Backend :=
  match event with
  | BcReceived peer topic data =>
      topic ← unwrap "Utf8Error" (from_utf8 topic);
      mret (notify_subscribers st topic (GeMessage peer data))
  | BcSubscribed peer topic =>
      match from_utf8 topic with
      | Some topic =>
          let st := with_book st (notify (book st) (Event.Subscribed peer topic)) in
          mret (notify_subscribers st topic (GeSubscribed peer))
      | None => mret st
      end
  | BcUnsubscribed peer topic =>
      match from_utf8 topic with
      | Some topic =>
          let st := with_book st (notify (book st) (Event.Unsubscribed peer topic)) in
          mret (notify_subscribers st topic (GeUnsubscribed peer))
      | None => mret st
      end
  end.

(** [tx] is the sender of the channel the call makes; [Ok] hands its receiver to
    the caller, on [Err] the receiver is dropped. *)
Definition subscribe (st : Backend) (topic : string) (tx : Sender GossipEvent) :
    Backend * result unit Error :=
  match gossipsub st, broadcast st with
  | None, None => (st, Err (DisabledProtocol "gossipsub and broadcast"))
  | _, _ =>
      match subscriptions st !! topic with
      | Some subscribers =>
          (with_subscriptions st (<[topic := subscribers ++ [tx]]> (subscriptions st)), Ok tt)
      | None =>
          let broadcast_topic := Topic_new (topic_hash topic) in
          let insert st tx := with_subscriptions st (<[topic_hash topic := [tx]]> (subscriptions st)) in
          let '(st, r) :=
            match gossipsub st with
            | Some g => let '(g, r) := gossip_subscribe g topic in (with_gossipsub st g, r)
            | None => (st, Ok tt)
            end in
          match r with
          | Err e => (insert st (hang_up tx), Err (OtherError e))
          | Ok _ =>
              let st :=
                match broadcast st with
                | Some b => with_broadcast st (broadcast_subscribe b broadcast_topic)
                | None => st
                end in
              (insert st tx, Ok tt)
          end
      end
  end.

Definition publish (st : Backend) (topic : string) (msg : bytes) : Backend * result unit Error :=
  match gossipsub st with
  | Some g =>
      let '(g, r) := gossip_publish g topic msg in
      (with_gossipsub st g,
       match r with
       | Ok _ => Ok tt
       | Err InsufficientPeers => Ok tt
       | Err (OtherPublishError e) => Err (GossipsubPublishError e)
       end)
  | None => (st, Err (DisabledProtocol "gossipsub"))
  end.

Definition broadcast_message (st : Backend) (topic : string) (msg : bytes) :
    Backend * result unit Error :=
  match broadcast st with
  | Some b => (with_broadcast st (broadcast_broadcast b (Topic_new (topic_hash topic)) msg), Ok tt)
  | None => (st, Err (DisabledProtocol "broadcast"))
  end.

(** ** Addresses, pings and identify *)

Definition behaviour_add_address (now : DateTime) (st : Backend) (peer : PeerId) (addr : Multiaddr)
    (source : AddressSource) : outcome Backend :=
  let st := match kad st with Some k => with_kad st (kad_add_address k peer addr) | None => st end in
  b ← add_address now (book st) peer addr source;
  mret (with_book st b).

Definition behaviour_remove_address (st : Backend) (peer : PeerId) (addr : Multiaddr) : Backend :=
  let st := with_book st (remove_address (book st) peer addr) in
  match kad st with Some k => with_kad st (kad_remove_address k peer addr) | None => st end.

Definition inject_mdns_event (clk : nat -> DateTime) (st : Backend) (event : MdnsEvent) :
    outcome Backend :=
  match event with
  | MdnsDiscovered l =>
      foldM (fun st '(n, (peer, addr)) => behaviour_add_address (clk n) st peer addr Mdns) st (number l)
  | MdnsExpired _ => mret st
  end.

Definition inject_ping_event (st : Backend) (event : PingEvent) : outcome Backend :=
  let set d := (b ← book_set_rtt (book st) (ping_peer event) d; mret (with_book st b)) in
  match ping_result event with
  | Ok rtt => set (Some rtt)
  | Err PingTimeout | Err PingOther => set None
  | Err PingUnsupported => mret st
  end.

Definition inject_id_event (clk : Multiaddr -> AddressSource -> DateTime) (st : Backend)
    (event : IdentifyEvent) : outcome Backend :=
  match event with
  | IdentifyReceived peer info =>
      b ← set_info clk (book st) peer info;
      mret (with_book st b)
  | OtherIdentifyEvent => mret st
  end.

(** ** Requests for queries *)

Definition behaviour_bootstrap (st : Backend) (tx : Tx) : Backend :=
  match kad st with
  | Some k =>
      let '(k, r) := kad_bootstrap k in
      let st := with_kad st k in
      match r with
      | Ok id => register st (KadId id) (ChBootstrap tx)
      | Err e => reject st tx (RUnit (Err (OtherError e)))
      end
  | None => reject st tx (RUnit (Err NotBootstrapped))
  end.

Definition provide (st : Backend) (key : Key) (tx : Tx) : Backend :=
  if bootstrapped st then
    match kad st with
    | Some k =>
        let '(k, r) := kad_start_providing k key in
        let st := with_kad st k in
        match r with
        | Ok id => register st (KadId id) (ChStartProviding tx)
        | Err e => reject st tx (RUnit (Err (KadStoreError e)))
        end
    | None => emit st (Dropped tx)
    end
  else reject st tx (RUnit (Err NotBootstrapped)).

Definition unprovide (st : Backend) (key : Key) : Backend :=
  match kad st with Some k => with_kad st (kad_stop_providing k key) | None => st end.

Definition providers (st : Backend) (key : Key) (tx : Tx) : Backend :=
  if bootstrapped st then
    match kad st with
    | Some k =>
        let '(k, id) := kad_get_providers k key in
        register (with_kad st k) (KadId id) (ChGetProviders ∅ tx)
    | None => emit st (Dropped tx)
    end
  else reject st tx (RPeers (Err NotBootstrapped)).

Definition quorum_size (q : Quorum) : nat :=
  match q with
  | QuorumOne => 1
  | QuorumMajority => K_VALUE `div` 2 + 1
  | QuorumAll => K_VALUE
  | QuorumN n => n
  end.

Definition get_record (st : Backend) (key : Key) (quorum : Quorum) (tx : Tx) : Backend :=
  if bootstrapped st then
    match kad st with
    | Some k =>
        let '(k, id) := kad_get_record k key in
        register (with_kad st k) (KadId id) (ChGetRecord (quorum_size quorum) [] tx)
    | None => emit st (Dropped tx)
    end
  else reject st tx (RRecords (Err NotBootstrapped)).

Definition put_record (st : Backend) (record : KadRecord) (quorum : Quorum) (tx : Tx) : Backend :=
  if bootstrapped st then
    match kad st with
    | Some k =>
        let '(k, r) := kad_put_record k record quorum in
        let st := with_kad st k in
        match r with
        | Ok id => register st (KadId id) (ChPutRecord tx)
        | Err e => reject st tx (RUnit (Err (KadStoreError e)))
        end
    | None => emit st (Dropped tx)
    end
  else reject st tx (RUnit (Err NotBootstrapped)).

Definition remove_record (st : Backend) (key : Key) : Backend :=
  match kad st with Some k => with_kad st (kad_remove_record k key) | None => st end.

(** [tx] is the sender of the channel the call makes. *)
Definition get (st : Backend) (cid : Cid) (providers : list PeerId) (tx : Tx) :
    outcome (Backend * QueryId) :=
  b ← unwrap "bitswap enabled" (bitswap st);
  let '(b, id) := bitswap_get b cid providers in
  mret (register (with_bitswap st b) (BitswapId id) (ChGet tx), BitswapId id).

Definition sync (st : Backend) (cid : Cid) (providers : list PeerId) (missing : list Cid) (tx : Tx) :
    outcome (Backend * QueryId) :=
  b ← unwrap "bitswap enabled" (bitswap st);
  let '(b, id) := bitswap_sync b cid providers missing in
  mret (register (with_bitswap st b) (BitswapId id) (ChSync tx), BitswapId id).

Definition cancel (st : Backend) (id : QueryId) : outcome Backend :=
  let st := answer st id (fun _ => None) in
  match id with
  | BitswapId id =>
      b ← unwrap "called `Option::unwrap()` on a `None` value" (bitswap st);
      mret (with_bitswap st (bitswap_cancel b id))
  | KadId _ => mret st
  end.

(** The methods that only call the book. *)
Definition on_book (st : Backend) (f : AddressBook -> AddressBook) : Backend :=
  with_book st (f (book st)).
End Behaviour.
