(* ===== verification/Net.v ===== *)
(** * The network service (src/net/mod.rs)

    [NetworkService] is a handle that sends commands over a bounded channel to
    the task [poll_swarm], which owns the swarm and handles one command or swarm
    event per iteration.  The rest of the swarm ([Swarm::listen_on], bans) and
    the bounded channel are interfaces.  The channels that an iteration creates
    and the clock it reads are arguments ([Fresh]). *)
From S2P Require Import Prelude Time Libp2p PeerInfo AddressHandler Peers Protocols Behaviour.

Class SwarmOps `{L : Libp2p} := {
  Swarm : Type;
  swarm_listen_on : Swarm -> Multiaddr -> Swarm * result ListenerId string;
  swarm_add_external_address : Swarm -> Multiaddr -> Swarm;  (* with AddressScore::Infinite *)
  swarm_ban : Swarm -> PeerId -> Swarm;
  swarm_unban : Swarm -> PeerId -> Swarm
}.

Section Net.
Context `{P : Profile} `{C : Chrono} `{L : Libp2p} `{Ch : Channels} `{HO : HashOrder}.
Context `{Pr : !Protocols} `{Sw : !SwarmOps}.

(** ** Commands and events *)

Inductive ListenerEvent :=
| LeNewListenAddr (a : Multiaddr)
| LeExpiredListenAddr (a : Multiaddr)
| LeListenFailed (a : Multiaddr) (reason : string).

Inductive NetworkCommand :=
| ListenOn (a : Multiaddr) (response : Sender ListenerEvent)
| AddExternalAddress (a : Multiaddr)
| AddAddress (p : PeerId) (a : Multiaddr)
| AddAddresses (l : list (PeerId * Multiaddr))
| RemoveAddress (p : PeerId) (a : Multiaddr)
| PrunePeers (min_age : Duration)
| CmdDial (p : PeerId)
| DialAddress (p : PeerId) (a : Multiaddr)
| Ban (p : PeerId)
| Unban (p : PeerId)
| Bootstrap (initial : list (PeerId * Multiaddr)) (tx : Tx)
| Providers (key : Key) (tx : Tx)
| Provide (key : Key) (tx : Tx)
| Unprovide (key : Key)
| GetRecord (key : Key) (quorum : Quorum) (tx : Tx)
| PutRecord (record : KadRecord) (quorum : Quorum) (tx : Tx)
| RemoveRecord (key : Key)
| Subscribe (topic : string) (tx : Tx)
| Publish (topic : string) (msg : bytes) (tx : Tx)
| CmdBroadcast (topic : string) (msg : bytes) (tx : Tx)
| Get (cid : Cid) (providers : list PeerId) (tx : Tx)
| Sync (cid : Cid) (providers : list PeerId) (missing : list Cid) (tx : Tx)
| SwarmEvents (tx : Tx)
| CancelQuery (id : QueryId).

(** The swarm events [poll_swarm] distinguishes; [NetworkBackendBehaviourEvent::Peers]
    carries an uninhabited type. *)
Inductive SwarmEvent :=
| SeConnectionClosed (peer : PeerId) (endpoint : ConnectedPoint Multiaddr Endpoint)
    (num_established : Z) (cause : option (ConnectionError IoError (MyHandlerError ProtocolError)))
| SeKad (e : KademliaEvent)
| SeMdns (e : MdnsEvent)
| SePing (e : PingEvent)
| SeIdentify (e : IdentifyEvent)
| SeBitswap (e : BitswapEvent)
| SeGossipsub (e : GossipsubEvent)
| SeBroadcast (e : BroadcastEvent)
| SeOther.

(** What is answered on the one-shot channels of commands: the receiving ends
    are named by their channels. *)
Inductive net_reply :=
| NrSubscribe (r : result unit Error)
| NrUnit (r : result unit Error)
| NrGetQuery (id : QueryId) (rx : Tx)
| NrSyncQuery (id : QueryId) (rx : Tx)
| NrSwarmEvents.

Record Net := mkNet {
  backend : Backend;
  swarm : Swarm;
  tasks : list (ListenerId * Sender ListenerEvent);  (* spawned forward_listener_events *)
  failed_listens : list (Sender ListenerEvent);      (* responses that were told the listen failed *)
  net_replies : list (Tx * net_reply)
}.

Definition with_backend (st : Net) (b : Backend) : Net :=
  mkNet b (swarm st) (tasks st) (failed_listens st) (net_replies st).
Definition with_swarm (st : Net) (s : Swarm) : Net :=
  mkNet (backend st) s (tasks st) (failed_listens st) (net_replies st).
Definition spawn_forwarder (st : Net) (t : ListenerId * Sender ListenerEvent) : Net :=
  mkNet (backend st) (swarm st) (tasks st ++ [t]) (failed_listens st) (net_replies st).
Definition listen_failed (st : Net) (tx : Sender ListenerEvent) : Net :=
  mkNet (backend st) (swarm st) (tasks st) (failed_listens st ++ [tx]) (net_replies st).
Definition net_reply_to (st : Net) (tx : Tx) (r : net_reply) : Net :=
  mkNet (backend st) (swarm st) (tasks st) (failed_listens st) (net_replies st ++ [(tx, r)]).

(** What an iteration is given from outside: the clock and new channels. *)
Record Fresh := mkFresh {
  now : nat -> DateTime;
  now_at : Multiaddr -> AddressSource -> DateTime;
  events_tx : Sender Event.t;
  gossip_tx : Sender GossipEvent;
  query_tx : Tx
}.

(** ** One iteration of [poll_swarm] *)

Definition handle_swarm_event (f : Fresh) (st : Net) (ev : SwarmEvent) : outcome Net :=
  let b := backend st in
  match ev with
  | SeConnectionClosed peer endpoint num_established cause =>
      mret (with_backend st
        (on_book b (fun bk => connection_closed (now f 0) bk peer endpoint num_established cause)))
  | SeKad e => mret (with_backend st (inject_kad_event b e))
  | SeMdns e => b ← inject_mdns_event (now f) b e; mret (with_backend st b)
  | SePing e => b ← inject_ping_event b e; mret (with_backend st b)
  | SeIdentify e => b ← inject_id_event (now_at f) b e; mret (with_backend st b)
  | SeBitswap e => mret (with_backend st (inject_bitswap_event b e))
  | SeGossipsub e => mret (with_backend st (inject_gossip_event b e))
  | SeBroadcast e => b ← inject_broadcast_event b e; mret (with_backend st b)
  | SeOther => mret st
  end.

(** The loops of [AddAddresses] and [Bootstrap]. *)
Definition add_user_addresses (clk : nat -> DateTime) (b : Backend) (l : list (PeerId * Multiaddr)) :
    outcome Backend :=
  foldM (fun b '(n, (peer, addr)) => behaviour_add_address (clk n) b peer addr User) b (number l).

Definition add_and_dial (clk : nat -> DateTime) (b : Backend) (l : list (PeerId * Multiaddr)) :
    outcome Backend :=
  foldM (fun b '(n, (peer, addr)) =>
    b ← behaviour_add_address (clk n) b peer addr User;
    mret (on_book b (fun bk => dial bk peer))) b (number l).

Definition handle_command (f : Fresh) (st : Net) (cmd : NetworkCommand) : outcome Net :=
  let b := backend st in
  match cmd with
  | ListenOn addr response =>
      let st := with_backend st (on_book b (fun bk => swarm_events bk (events_tx f))) in
      let '(s, r) := swarm_listen_on (swarm st) addr in
      let st := with_swarm st s in
      match r with
      | Ok listener => mret (spawn_forwarder st (listener, response))
      | Err error =>
          mret (listen_failed st (default response (unbounded_send response (LeListenFailed addr error))))
      end
  | AddExternalAddress addr => mret (with_swarm st (swarm_add_external_address (swarm st) addr))
  | AddAddress peer addr =>
      b ← behaviour_add_address (now f 0) b peer addr User; mret (with_backend st b)
  | AddAddresses l => b ← add_user_addresses (now f) b l; mret (with_backend st b)
  | RemoveAddress peer addr => mret (with_backend st (behaviour_remove_address b peer addr))
  | PrunePeers min_age => mret (with_backend st (on_book b (fun bk => prune_peers (now f 0) bk min_age)))
  | CmdDial peer => mret (with_backend st (on_book b (fun bk => dial bk peer)))
  | DialAddress peer addr => mret (with_backend st (on_book b (fun bk => dial_address bk peer addr)))
  | Ban peer => mret (with_swarm st (swarm_ban (swarm st) peer))
  | Unban peer => mret (with_swarm st (swarm_unban (swarm st) peer))
  | Bootstrap initial tx =>
      b ← add_and_dial (now f) b initial;
      mret (with_backend st (behaviour_bootstrap b tx))
  | Providers key tx => mret (with_backend st (providers b key tx))
  | Provide key tx => mret (with_backend st (provide b key tx))
  | Unprovide key => mret (with_backend st (unprovide b key))
  | GetRecord key quorum tx => mret (with_backend st (get_record b key quorum tx))
  | PutRecord record quorum tx => mret (with_backend st (put_record b record quorum tx))
  | RemoveRecord key => mret (with_backend st (remove_record b key))
  | Subscribe topic tx =>
      let '(b, r) := subscribe b topic (gossip_tx f) in
      mret (net_reply_to (with_backend st b) tx (NrSubscribe r))
  | Publish topic msg tx =>
      let '(b, r) := publish b topic msg in
      mret (net_reply_to (with_backend st b) tx (NrUnit r))
  | CmdBroadcast topic msg tx =>
      let '(b, r) := broadcast_message b topic msg in
      mret (net_reply_to (with_backend st b) tx (NrUnit r))
  | Get cid providers tx =>
      '(b, id) ← get b cid providers (query_tx f);
      mret (net_reply_to (with_backend st b) tx (NrGetQuery id (query_tx f)))
  | Sync cid providers missing tx =>
      '(b, id) ← sync b cid providers missing (query_tx f);
      mret (net_reply_to (with_backend st b) tx (NrSyncQuery id (query_tx f)))
  | SwarmEvents tx =>
      let st := with_backend st (on_book b (fun bk => swarm_events bk (events_tx f))) in
      mret (net_reply_to st tx NrSwarmEvents)
  | CancelQuery id => b ← cancel b id; mret (with_backend st b)
  end.

(** What [future::select] yields: a swarm event or its end, a command or the end
    of the command channel. *)
Inductive input :=
| InSwarm (ev : option SwarmEvent)
| InCommand (cmd : option NetworkCommand).

Inductive flow := Continue (st : Net) | Return (st : Net).

Definition poll_swarm_step (f : Fresh) (st : Net) (i : input) : outcome flow :=
  match i with
  | InSwarm None | InCommand None => mret (Return st)
  | InSwarm (Some ev) => st ← handle_swarm_event f st ev; mret (Continue st)
  | InCommand (Some cmd) => st ← handle_command f st cmd; mret (Continue st)
  end.

(** The task on a finite sequence of inputs. *)
Fixpoint poll_swarm (st : Net) (inputs : list (Fresh * input)) : outcome flow :=
  match inputs with
  | [] => mret (Continue st)
  | (f, i) :: inputs =>
      r ← poll_swarm_step f st i;
      match r with Continue st => poll_swarm st inputs | Return st => mret (Return st) end
  end.

(** ** The task that forwards listener events *)

(** [None] when the closure of [take_while] returns false. *)
Definition forward_event (listener : ListenerId) (response : Sender ListenerEvent) (ev : Event.t) :
    option (Sender ListenerEvent) :=
  match ev with
  | Event.ListenerClosed id => if decide (id = listener) then None else Some response
  | Event.NewListenAddr id addr =>
      if decide (id = listener) then unbounded_send response (LeNewListenAddr addr) else Some response
  | Event.ExpiredListenAddr id addr =>
      if decide (id = listener) then unbounded_send response (LeExpiredListenAddr addr) else Some response
  | _ => Some response
  end.

(** The sender at the end of a sequence of events, and whether the task runs on. *)
Fixpoint forward_listener_events (listener : ListenerId) (response : Sender ListenerEvent)
    (events : list Event.t) : Sender ListenerEvent * bool :=
  match events with
  | [] => (response, true)
  | ev :: events =>
      match forward_event listener response ev with
      | Some response => forward_listener_events listener response events
      | None => (response, false)
      end
  end.
End Net.
