(* ===== verification/Service.v ===== *)
(** * The client side of the network service (src/net/mod.rs)

    [NetworkService] turns each call into a command on a bounded channel; a call
    whose command cannot be sent fails at once, otherwise its future waits for
    the answer.  [GetQuery] and [SyncQuery] are the handles of bitswap queries.
    The bounded command channel and the receiving ends of channels are
    interfaces. *)
From S2P Require Import Prelude Time Libp2p PeerInfo AddressHandler Peers Protocols Behaviour Net.

(** The bounded channel: [None] if the command was queued, else the error with
    [is_disconnected] and [into_inner]. *)
Class CommandChannel `{L : Libp2p} `{Ch : Channels} `{Pr : !Protocols} := {
  CmdTx : Type;
  channel : nat -> CmdTx;
  try_send : CmdTx -> NetworkCommand -> CmdTx * option (bool * NetworkCommand);
  cmd_queue : CmdTx -> list NetworkCommand
}.

Class CommandChannelLaws `{CC : CommandChannel} : Prop := {
  channel_empty n : cmd_queue (channel n) = [];
  try_send_ok c m c' : try_send c m = (c', None) -> cmd_queue c' = cmd_queue c ++ [m];
  try_send_err c m c' d m' :
    try_send c m = (c', Some (d, m')) -> m' = m /\ cmd_queue c' = cmd_queue c
}.

(** Receivers of unbounded channels. *)
Class Receivers := {
  Receiver : Type -> Type;
  rx_queue : forall {T}, Receiver T -> list T;
  rx_closed : forall {T}, Receiver T -> bool;  (* no sender is left *)
  poll_next : forall {T}, Receiver T -> Receiver T * Poll (option T)
}.

Class ReceiverLaws `{Rx : Receivers} : Prop := {
  poll_next_item {T} (r : Receiver T) x q : rx_queue r = x :: q ->
    exists r', poll_next r = (r', Ready (Some x)) /\ rx_queue r' = q /\ rx_closed r' = rx_closed r;
  poll_next_closed {T} (r : Receiver T) : rx_queue r = [] -> rx_closed r = true ->
    exists r', poll_next r = (r', Ready None) /\ rx_queue r' = [] /\ rx_closed r' = true;
  poll_next_pending {T} (r : Receiver T) : rx_queue r = [] -> rx_closed r = false ->
    exists r', poll_next r = (r', Pending) /\ rx_queue r' = [] /\ rx_closed r' = false
}.

Section Service.
Context `{P : Profile} `{C : Chrono} `{L : Libp2p} `{Ch : Channels} `{HO : HashOrder}.
Context `{Pr : !Protocols} `{CC : !CommandChannel}.

(** ** Sending commands *)

Record NetworkService := mkService {
  svc_public_key : PublicKey;
  svc_peer_id : PeerId;
  svc_node_name : string;
  svc_cmd : CmdTx
}.

Definition with_cmd (svc : NetworkService) (c : CmdTx) : NetworkService :=
  mkService (svc_public_key svc) (svc_peer_id svc) (svc_node_name svc) c.

Definition local_public_key (svc : NetworkService) : PublicKey := svc_public_key svc.
Definition svc_local_peer_id (svc : NetworkService) : PeerId := svc_peer_id svc.
Definition local_node_name (svc : NetworkService) : string := svc_node_name svc.

Definition handle_send_result (r : option (bool * NetworkCommand)) : option (NetworkCommand * string) :=
  match r with
  | None => None
  | Some (disconnected, val) =>
      Some (val, if disconnected : bool then "receiver went away" else "channel is full")
  end.

Definition cmd (svc : NetworkService) (msg : NetworkCommand) :
    NetworkService * option (NetworkCommand * string) :=
  let '(c, r) := try_send (svc_cmd svc) msg in
  (with_cmd svc c, handle_send_result r).

Inductive ClientError := Message (s : string) | BlockNotFound (cid : Cid).

(** What a call returns: a future that is ready, or one that waits on the
    channel [rx]. *)
Inductive call :=
| ReadyErr (e : ClientError)
| Awaits (rx : Tx).

(** The common shape of the calls that wait for an answer; [tx] is the channel
    the call makes. *)
Definition request (svc : NetworkService) (msg : NetworkCommand) (tx : Tx) : NetworkService * call :=
  let '(svc, r) := cmd svc msg in
  match r with
  | Some (_, err) => (svc, ReadyErr (Message err))
  | None => (svc, Awaits tx)
  end.

(** The common shape of the calls that ignore a failure. *)
Definition tell (svc : NetworkService) (msg : NetworkCommand) : NetworkService := (cmd svc msg).1.

(** The common shape of the calls that report a failure and do not wait. *)
Definition tell_checked (svc : NetworkService) (msg : NetworkCommand) :
    NetworkService * result unit ClientError :=
  let '(svc, r) := cmd svc msg in
  match r with Some (_, err) => (svc, Err (Message err)) | None => (svc, Ok tt) end.

(** [tx] is the sender of the stream that is returned. *)
Definition listen_on (svc : NetworkService) (addr : Multiaddr) (tx : Sender ListenerEvent) :
    NetworkService * Sender ListenerEvent :=
  let '(svc, r) := cmd svc (ListenOn addr tx) in
  match r with
  | Some (ListenOn addr tx, reason) =>
      (svc, default tx (unbounded_send tx (LeListenFailed addr ("cannot send to Swarm: " +:+ reason))))
  | _ => (svc, tx)
  end.

Definition add_external_address svc (addr : Multiaddr) : NetworkService :=
  tell svc (AddExternalAddress (normalize_addr addr (svc_peer_id svc))).
Definition svc_add_address svc p a : NetworkService := tell svc (AddAddress p a).
Definition svc_add_addresses svc l : NetworkService := tell svc (AddAddresses l).
Definition svc_remove_address svc p a : NetworkService := tell svc (RemoveAddress p a).
Definition svc_prune_peers svc d : NetworkService := tell svc (PrunePeers d).
Definition svc_dial svc p : NetworkService := tell svc (CmdDial p).
Definition svc_dial_address svc p a : NetworkService := tell svc (DialAddress p a).
Definition svc_ban svc p : NetworkService := tell svc (Ban p).
Definition svc_unban svc p : NetworkService := tell svc (Unban p).
Definition svc_unprovide svc k := tell_checked svc (Unprovide k).
Definition svc_remove_record svc k := tell_checked svc (RemoveRecord k).
Definition svc_bootstrap svc peers tx := request svc (Bootstrap peers tx) tx.
Definition svc_providers svc key tx := request svc (Providers key tx) tx.
Definition svc_provide svc key tx := request svc (Provide key tx) tx.
Definition svc_get_record svc key q tx := request svc (GetRecord key q tx) tx.
Definition svc_put_record svc r q tx := request svc (PutRecord r q tx) tx.
Definition svc_subscribe svc topic tx := request svc (Subscribe topic tx) tx.
Definition svc_publish svc topic msg tx := request svc (Publish topic msg tx) tx.
Definition svc_broadcast svc topic msg tx := request svc (CmdBroadcast topic msg tx) tx.
Definition svc_get svc cid ps tx := request svc (Get cid ps tx) tx.
Definition svc_swarm_events svc tx := request svc (SwarmEvents tx) tx.

(** ** Reading the shared variables: functions of the task's state *)

Definition is_bootstrapped (b : Backend) : bool := bootstrapped b.

Definition svc_listeners (b : AddressBook) : list Multiaddr := set_iter (listeners b).
Definition external_addresses (b : AddressBook) : list AddressRecord := external b.
Definition svc_peers (b : AddressBook) : list PeerId := (map_iter (peers b)).*1.
Definition peer_info (b : AddressBook) (p : PeerId) : option PeerInfo := peers b !! p.

Definition svc_connections (b : AddressBook) : list (PeerId * Multiaddr * DateTime * Direction) :=
  '(peer, info) ← map_iter (peers b);
  (fun '(a, (t, d)) => (peer, a, t, d)) <$> map_iter (connections info).

Definition is_connected (svc : NetworkService) (b : AddressBook) (peer : PeerId) : bool :=
  bool_decide (peer = svc_peer_id svc) ||
  match peers b !! peer with
  | Some info => negb (bool_decide (connections info = ∅))
  | None => false
  end.

(** ** Queries *)

Inductive SyncEvent := Progress (missing : nat) | Complete (r : result unit ClientError).

Inductive sync_call :=
| SyncReady (r : result unit ClientError)   (* a [SyncQuery::ready] *)
| SyncCall (c : call).

Definition svc_sync (svc : NetworkService) (cid : Cid) (providers : list PeerId) (missing : list Cid)
    (tx : Tx) : NetworkService * sync_call :=
  match missing with
  | [] => (svc, SyncReady (Ok tt))
  | m :: _ =>
      match providers with
      | [] => (svc, SyncReady (Err (BlockNotFound m)))
      | _ =>
          let '(svc, c) := request svc (Sync cid providers missing tx) tx in (svc, SyncCall c)
      end
  end.

(** [Future for GetQuery]: [inner] is the poll of the one-shot receiver, whose
    error is that the sender was dropped. *)
Definition get_query_poll {E} (inner : Poll (result (result unit E) E)) : Poll (result unit E) :=
  match inner with
  | Ready (Ok result) => Ready result
  | Ready (Err err) => Ready (Err err)
  | Pending => Pending
  end.

Definition get_query_drop (swarm : CmdTx) (id : QueryId) : CmdTx :=
  (try_send swarm (CancelQuery id)).1.

(** [Drop for SyncQuery]: only a query that was started cancels itself. *)
Definition sync_query_drop (id : option QueryId) (swarm : option CmdTx) : option CmdTx :=
  match id, swarm with
  | Some id, Some swarm => Some (try_send swarm (CancelQuery id)).1
  | _, _ => swarm
  end.

Context `{Rx : Receivers}.

(** [Future for SyncQuery]: the loop of [poll], with a bound on its iterations. *)
Fixpoint sync_query_poll (fuel : nat) (rx : Receiver SyncEvent) :
    option (Receiver SyncEvent * Poll (result unit ClientError)) :=
  match fuel with
  | 0 => None
  | S fuel =>
      match poll_next rx with
      | (rx, Ready (Some (Complete result))) => Some (rx, Ready result)
      | (rx, Ready _) => sync_query_poll fuel rx
      | (rx, Pending) => Some (rx, Pending)
      end
  end.

(** [Stream for SyncQuery]. *)
Definition sync_query_poll_next (rx : Receiver SyncEvent) := poll_next rx.
End Service.

(** ** Concrete channels *)
Module SimService.
Import Sim SimProtocols.

(** A command channel with room for a number of commands, or without receiver. *)
Record cmd_chan := mkCmdChan {
  chan_alive : bool;
  chan_room : nat;
  chan_cmds : list (@NetworkCommand sim sim_channels sim_protocols)
}.

#[export] Instance sim_commands : CommandChannel (L := sim) (Ch := sim_channels) (Pr := sim_protocols) | 100 := {|
  CmdTx := cmd_chan;
  channel := fun n => mkCmdChan true n [];
  try_send := fun c m =>
    if chan_alive c then
      match chan_room c with
      | 0 => (c, Some (false, m))
      | S n => (mkCmdChan true n (chan_cmds c ++ [m]), None)
      end
    else (c, Some (true, m));
  cmd_queue := chan_cmds
|}.

#[export] Instance sim_command_laws : CommandChannelLaws (CC := sim_commands).
Proof.
  split; [done|..]; intros [[] [|n] q] m c'; cbn; intros; by simplify_eq.
Qed.

Record rx (T : Type) := mkRx { rx_items : list T; rx_ended : bool }.
Arguments mkRx {_} _ _.
Arguments rx_items {_} _.
Arguments rx_ended {_} _.

#[export] Instance sim_receivers : Receivers | 100 := {|
  Receiver := rx;
  rx_queue := @rx_items;
  rx_closed := @rx_ended;
  poll_next := fun T r =>
    match rx_items r with
    | x :: q => (mkRx q (rx_ended r), Ready (Some x))
    | [] => (r, if rx_ended r then Ready None else Pending)
    end
|}.

#[export] Instance sim_receiver_laws : ReceiverLaws (Rx := sim_receivers).
Proof.
  split; intros T [items ended]; cbn; intros; subst; by eexists.
Qed.
End SimService.
