(* ===== verification/NetInv.v ===== *)
(** * The network task: invariants

    [backend_wf] is the invariant of the composed behaviour: the address book is
    well formed, every registered query carries a channel of the kind its id
    belongs to, no topic without subscribers is in the table.  [ledger] accounts
    for the one-shot and sync channels handed to the task. *)
From S2P Require Import Prelude Time Libp2p PeerInfo AddressHandler Peers PeersInv.
From S2P Require Import Protocols Behaviour Net.

Section NetInv.
Context `{P : Profile} `{C : Chrono} `{L : Libp2p} `{Ch : Channels} `{HO : HashOrder}.
Context `{Pr : !Protocols} `{Sw : !SwarmOps}.
Context {LL : Libp2pLaws} {HL : HashOrderLaws}.

(** ** Kinds of queries *)

Definition is_bitswap_channel (ch : QueryChannel) : bool :=
  match ch with ChGet _ | ChSync _ => true | _ => false end.

Definition kind_ok (id : QueryId) (ch : QueryChannel) : Prop :=
  match id with
  | BitswapId _ => is_bitswap_channel ch = true
  | KadId _ => is_bitswap_channel ch = false
  end.

Record backend_wf (B : Z) (st : Backend) : Prop := {
  bk_book : book_wf B (book st);
  bk_kinds : map_Forall kind_ok (queries st);
  bk_subs : map_Forall (fun _ l => l <> []) (subscriptions st)
}.

Lemma emit_wf B st d : backend_wf B st -> backend_wf B (emit st d).
Proof. by intros [???]. Qed.

Lemma with_kad_wf B st k : backend_wf B st -> backend_wf B (with_kad st k).
Proof. by intros [???]. Qed.

Lemma with_bitswap_wf B st b : backend_wf B st -> backend_wf B (with_bitswap st b).
Proof. by intros [???]. Qed.

Lemma with_bootstrapped_wf B st b : backend_wf B st -> backend_wf B (with_bootstrapped st b).
Proof. by intros [???]. Qed.

Lemma with_book_wf B st b : backend_wf B st -> book_wf B b -> backend_wf B (with_book st b).
Proof. by intros [???] ?. Qed.

Lemma with_gossipsub_wf B st g : backend_wf B st -> backend_wf B (with_gossipsub st g).
Proof. by intros [???]. Qed.

Lemma with_broadcast_wf B st b : backend_wf B st -> backend_wf B (with_broadcast st b).
Proof. by intros [???]. Qed.

Lemma with_queries_wf B st q :
  backend_wf B st -> map_Forall kind_ok q -> backend_wf B (with_queries st q).
Proof. by intros [???] ?. Qed.

Lemma register_wf B st id ch : backend_wf B st -> kind_ok id ch -> backend_wf B (register st id ch).
Proof.
  intros H Hk. unfold register.
  destruct (queries st !! id); apply with_queries_wf; auto using emit_wf;
    (apply map_Forall_insert_2; [done|apply H]).
Qed.

Lemma answer_wf B st id f : backend_wf B st -> backend_wf B (answer st id f).
Proof.
  intros H. unfold answer. destruct (queries st !! id); [|done].
  apply emit_wf, with_queries_wf; [done|]. by apply map_Forall_delete, H.
Qed.

Lemma unsubscribe_wf B st t : backend_wf B st -> backend_wf B (unsubscribe st t).
Proof.
  intros H. unfold unsubscribe.
  destruct (gossipsub st); cbn; (destruct (broadcast st); [apply with_broadcast_wf|]);
    auto using with_gossipsub_wf.
Qed.

Lemma unsubscribe_subscriptions st t : subscriptions (unsubscribe st t) = subscriptions st.
Proof. unfold unsubscribe. by destruct (gossipsub st); cbn; destruct (broadcast st). Qed.

Lemma notify_subscribers_wf B st t ev : backend_wf B st -> backend_wf B (notify_subscribers st t ev).
Proof.
  intros H. unfold notify_subscribers. destruct (subscriptions st !! t) as [subs|]; [|done].
  set (subs' := omap _ subs). case_decide as Hn.
  - pose proof (unsubscribe_wf B st t H) as [???]. split; cbn; [done..|].
    rewrite unsubscribe_subscriptions. by apply map_Forall_delete, H.
  - destruct H. split; cbn; [done..|]. apply map_Forall_insert_2; [by intros E; rewrite E in Hn|done].
Qed.

Lemma subscribe_wf B st t tx : backend_wf B st -> backend_wf B (subscribe st t tx).1.
Proof.
  intros [Hb Hk Hs]. unfold subscribe.
  assert (Hins : forall l (k : string), l <> [] ->
    map_Forall (fun _ (l : list (Sender GossipEvent)) => l <> []) (<[k := l]> (subscriptions st)))
    by (intros; by apply map_Forall_insert_2).
  repeat (case_match; simplify_eq; try done); split; cbn; try done; apply Hins; try done;
    (intros E; by apply app_nil in E as [_ ?]).
Qed.

(** ** Every handler returns and keeps the invariant *)

#[local] Hint Resolve emit_wf with_kad_wf with_bitswap_wf with_bootstrapped_wf with_gossipsub_wf
  with_broadcast_wf register_wf answer_wf notify_subscribers_wf subscribe_wf : ipfs.

Lemma inject_kad_event_wf B st ev : backend_wf B st -> backend_wf B (inject_kad_event st ev).
Proof.
  intros H. destruct ev as [kid r last|]; [|done]. cbn [inject_kad_event].
  destruct r as [[]|[]|[]|[]|[]|[]|[]|[]]; try done; try by apply answer_wf.
  - case_decide; [|done]. apply with_book_wf; [by auto with ipfs|]. apply notify_wf.
    unfold answer. cbn. destruct (queries st !! KadId kid); apply H.
  - unfold progress_providers. destruct (queries st !! KadId kid) as [[]|]; try done.
    set (st1 := with_queries _ _).
    assert (H1 : backend_wf B st1).
    { apply with_queries_wf; [done|]. apply map_Forall_insert_2; [done|apply H]. }
    destruct last; auto with ipfs.
  - unfold progress_record. destruct (queries st !! KadId kid) as [[]|]; try done.
    set (st1 := with_queries _ _).
    assert (H1 : backend_wf B st1).
    { apply with_queries_wf; [done|]. apply map_Forall_insert_2; [done|apply H]. }
    destruct (last || _); [|done]. destruct (kad st1); auto with ipfs.
Qed.

Lemma inject_bitswap_event_wf B st ev : backend_wf B st -> backend_wf B (inject_bitswap_event st ev).
Proof.
  intros H. destruct ev; cbn; [|by apply answer_wf].
  destruct (queries st !! BitswapId id) as [[]|]; auto with ipfs.
Qed.

Lemma with_book_notify_wf B st ev : backend_wf B st -> backend_wf B (with_book st (notify (book st) ev)).
Proof. intros H. apply with_book_wf; [done|]. apply notify_wf, H. Qed.

Lemma inject_gossip_event_wf B st ev : backend_wf B st -> backend_wf B (inject_gossip_event st ev).
Proof. intros H. destruct ev; cbn; auto using notify_subscribers_wf, with_book_notify_wf. Qed.

(** The topics of broadcast messages must be UTF-8. *)
Definition broadcast_ok (ev : BroadcastEvent) : Prop :=
  match ev with BcReceived _ topic _ => utf8_valid topic = true | _ => True end.

Lemma inject_broadcast_event_total B st ev :
  backend_wf B st -> broadcast_ok ev ->
  exists st', inject_broadcast_event st ev ↓ st' /\ backend_wf B st'.
Proof.
  intros H Hev. destruct ev as [p t d|p t|p t]; cbn in *; unfold from_utf8.
  - rewrite Hev. cbn. eauto with ipfs.
  - destruct (utf8_valid t); eexists; (split; [done|]); auto using notify_subscribers_wf, with_book_notify_wf.
  - destruct (utf8_valid t); eexists; (split; [done|]); auto using notify_subscribers_wf, with_book_notify_wf.
Qed.

Lemma behaviour_add_address_total B now st p a s :
  backend_wf B st -> exists st', behaviour_add_address now st p a s ↓ st' /\ backend_wf B st'.
Proof.
  intros H. unfold behaviour_add_address. set (st1 := match kad st with Some _ => _ | None => _ end).
  assert (H1 : backend_wf B st1) by (subst st1; destruct (kad st); auto with ipfs).
  destruct (add_address_total B now (book st1) p a s) as (b & -> & Hb & _); [apply H1|].
  eexists. split; [done|]. by apply with_book_wf.
Qed.

Lemma on_book_wf B st f :
  backend_wf B st -> (book_wf B (book st) -> book_wf B (f (book st))) -> backend_wf B (on_book st f).
Proof. intros H Hf. apply with_book_wf; [done|]. apply Hf, H. Qed.

Lemma behaviour_remove_address_wf B st p a :
  backend_wf B st -> backend_wf B (behaviour_remove_address st p a).
Proof.
  intros H. unfold behaviour_remove_address.
  assert (H1 : backend_wf B (with_book st (remove_address (book st) p a)))
    by (apply with_book_wf; [done|]; apply remove_address_wf, H).
  cbn. destruct (kad st); auto with ipfs.
Qed.

(** Requests for queries. *)
Ltac request_wf :=
  intros H; repeat (case_match; simplify_eq); auto using emit_wf, with_kad_wf;
  try (apply register_wf; [by auto using with_kad_wf|done]).

Lemma behaviour_bootstrap_wf B st tx : backend_wf B st -> backend_wf B (behaviour_bootstrap st tx).
Proof. unfold behaviour_bootstrap, reject. request_wf. Qed.
Lemma provide_wf B st k tx : backend_wf B st -> backend_wf B (provide st k tx).
Proof. unfold provide, reject. request_wf. Qed.
Lemma providers_wf B st k tx : backend_wf B st -> backend_wf B (providers st k tx).
Proof. unfold providers, reject. request_wf. Qed.
Lemma get_record_wf B st k q tx : backend_wf B st -> backend_wf B (get_record st k q tx).
Proof. unfold get_record, reject. request_wf. Qed.
Lemma put_record_wf B st r q tx : backend_wf B st -> backend_wf B (put_record st r q tx).
Proof. unfold put_record, reject. request_wf. Qed.
Lemma unprovide_wf B st k : backend_wf B st -> backend_wf B (unprovide st k).
Proof. unfold unprovide. request_wf. Qed.
Lemma remove_record_wf B st k : backend_wf B st -> backend_wf B (remove_record st k).
Proof. unfold remove_record. request_wf. Qed.
Lemma publish_wf B st t m : backend_wf B st -> backend_wf B (publish st t m).1.
Proof. unfold publish. request_wf; cbn; auto using with_gossipsub_wf. Qed.
Lemma broadcast_message_wf B st t m : backend_wf B st -> backend_wf B (broadcast_message st t m).1.
Proof. unfold broadcast_message. request_wf; cbn; auto using with_broadcast_wf. Qed.

Lemma get_total B st cid ps tx :
  backend_wf B st -> is_Some (bitswap st) ->
  exists st' id, get st cid ps tx ↓ (st', id) /\ backend_wf B st'.
Proof.
  intros H [b Hb]. unfold get. rewrite Hb. cbn. destruct (bitswap_get b cid ps) as [b' id].
  do 2 eexists. split; [done|]. apply register_wf; [by auto using with_bitswap_wf|done].
Qed.

Lemma sync_total B st cid ps ms tx :
  backend_wf B st -> is_Some (bitswap st) ->
  exists st' id, sync st cid ps ms tx ↓ (st', id) /\ backend_wf B st'.
Proof.
  intros H [b Hb]. unfold sync. rewrite Hb. cbn. destruct (bitswap_sync b cid ps ms) as [b' id].
  do 2 eexists. split; [done|]. apply register_wf; [by auto using with_bitswap_wf|done].
Qed.

Lemma cancel_total B st id :
  backend_wf B st -> (forall q, id = BitswapId q -> is_Some (bitswap st)) ->
  exists st', cancel st id ↓ st' /\ backend_wf B st'.
Proof.
  intros H Hid. unfold cancel. destruct id as [q|q]; [|by eauto using answer_wf].
  destruct (Hid q eq_refl) as [b Hb].
  replace (bitswap (answer st (BitswapId q) (fun _ => None))) with (bitswap st)
    by (unfold answer; by destruct (queries st !! BitswapId q)).
  rewrite Hb. cbn. eexists. split; [done|]. auto using with_bitswap_wf, answer_wf.
Qed.

(** ** The task *)

Definition ping_ok (B : Z) (b : AddressBook) (e : PingEvent) : Prop :=
  forall i, peers b !! ping_peer e = Some i ->
    match ping_result e with
    | Ok d => measurable B i (Some d)
    | Err PingUnsupported => True
    | Err _ => measurable B i None
    end.

(** What the task relies on: the swarm reports no connection to ourselves, round
    trip times are in range, broadcast topics are UTF-8, and bitswap is enabled
    if it is used. *)
Definition input_ok (B : Z) (b : Backend) (i : input) : Prop :=
  match i with
  | InSwarm (Some (SeConnectionClosed peer _ _ _)) => peer <> local_peer_id (book b)
  | InSwarm (Some (SePing e)) => ping_ok B (book b) e
  | InSwarm (Some (SeBroadcast e)) => broadcast_ok e
  | InCommand (Some (Get _ _ _ | Sync _ _ _ _ | CancelQuery (BitswapId _))) => is_Some (bitswap b)
  | _ => True
  end.

Lemma inject_ping_event_total B st e :
  backend_wf B st -> ping_ok B (book st) e ->
  exists st', inject_ping_event st e ↓ st' /\ backend_wf B st'.
Proof.
  intros H He. unfold inject_ping_event, ping_ok in *.
  assert (Hset : forall d, (forall i, peers (book st) !! ping_peer e = Some i -> measurable B i d) ->
    exists st', (b ← book_set_rtt (book st) (ping_peer e) d; mret (with_book st b)) ↓ st' /\
      backend_wf B st').
  { intros d Hd. destruct (book_set_rtt_total B (book st) (ping_peer e) d) as (b & -> & Hb & _);
      [apply H|done|]. eexists. split; [done|]. by apply with_book_wf. }
  destruct (ping_result e) as [d|[]]; eauto.
Qed.

Lemma inject_id_event_total B clk st e :
  backend_wf B st -> exists st', inject_id_event clk st e ↓ st' /\ backend_wf B st'.
Proof.
  intros H. destruct e as [p i|]; cbn; [|by eauto].
  destruct (set_info_total B clk (book st) p i) as (b & -> & Hb & _); [apply H|].
  eexists. split; [done|]. by apply with_book_wf.
Qed.

Lemma inject_mdns_event_total B clk st e :
  backend_wf B st -> exists st', inject_mdns_event clk st e ↓ st' /\ backend_wf B st'.
Proof.
  intros H. destruct e as [l|l]; cbn; [|by eauto]. apply foldM_invariant; [done|].
  intros b [n [p a]] _ Hb. by apply behaviour_add_address_total.
Qed.

Lemma add_user_addresses_total B clk b l :
  backend_wf B b -> exists b', add_user_addresses clk b l ↓ b' /\ backend_wf B b'.
Proof.
  intros H. apply foldM_invariant; [done|].
  intros b' [n [p a]] _ Hb. by apply behaviour_add_address_total.
Qed.

Lemma add_and_dial_total B clk b l :
  backend_wf B b -> exists b', add_and_dial clk b l ↓ b' /\ backend_wf B b'.
Proof.
  intros H. apply foldM_invariant; [done|]. intros b' [n [p a]] _ Hb.
  destruct (behaviour_add_address_total B (clk n) b' p a User Hb) as (b2 & -> & H2).
  eexists. split; [done|]. apply on_book_wf; [done|]. apply dial_wf.
Qed.

Lemma handle_swarm_event_total B f st ev :
  backend_wf B (backend st) -> input_ok B (backend st) (InSwarm (Some ev)) ->
  exists st', handle_swarm_event f st ev ↓ st' /\ backend_wf B (backend st').
Proof.
  intros H Hi. destruct ev; cbn in *.
  - eexists. split; [done|]. apply on_book_wf; [done|]. intros. by apply connection_closed_wf.
  - eexists. split; [done|]. by apply inject_kad_event_wf.
  - destruct (inject_mdns_event_total B (now f) _ e H) as (b & -> & Hb). by eexists.
  - destruct (inject_ping_event_total B _ e H Hi) as (b & -> & Hb). by eexists.
  - destruct (inject_id_event_total B (now_at f) _ e H) as (b & -> & Hb). by eexists.
  - eexists. split; [done|]. by apply inject_bitswap_event_wf.
  - eexists. split; [done|]. by apply inject_gossip_event_wf.
  - destruct (inject_broadcast_event_total B _ e H Hi) as (b & -> & Hb). by eexists.
  - by eexists.
Qed.

Lemma handle_command_total B f st cmd :
  backend_wf B (backend st) -> input_ok B (backend st) (InCommand (Some cmd)) ->
  exists st', handle_command f st cmd ↓ st' /\ backend_wf B (backend st').
Proof.
  intros H Hi. destruct cmd; cbn [handle_command] in *;
    try (eexists; split; [reflexivity|]; cbn;
         eauto using behaviour_remove_address_wf, providers_wf, provide_wf, unprovide_wf,
           get_record_wf, put_record_wf, remove_record_wf; fail).
  - destruct (swarm_listen_on _ a) as [s [l|e]]; eexists; (split; [done|]); cbn;
      (apply on_book_wf; [done|]); by intros [].
  - destruct (behaviour_add_address_total B (now f 0) _ p a User H) as (b & -> & Hb). by eexists.
  - destruct (add_user_addresses_total B (now f) _ l H) as (b & -> & Hb). by eexists.
  - eexists. split; [done|]. apply on_book_wf; [done|]. apply prune_peers_wf.
  - eexists. split; [done|]. apply on_book_wf; [done|]. apply dial_wf.
  - eexists. split; [done|]. apply on_book_wf; [done|]. apply dial_address_wf.
  - destruct (add_and_dial_total B (now f) _ initial H) as (b & -> & Hb).
    eexists. split; [done|]. by apply behaviour_bootstrap_wf.
  - pose proof (subscribe_wf B _ topic (gossip_tx f) H). destruct (subscribe _ _ _). by eexists.
  - pose proof (publish_wf B _ topic msg H). destruct (publish _ _ _). by eexists.
  - pose proof (broadcast_message_wf B _ topic msg H). destruct (broadcast_message _ _ _). by eexists.
  - destruct (get_total B _ cid providers (query_tx f) H Hi) as (b & id & -> & Hb). by eexists.
  - destruct (sync_total B _ cid providers missing (query_tx f) H Hi) as (b & id & -> & Hb). by eexists.
  - eexists. split; [done|]. apply on_book_wf; [done|]. by intros [].
  - destruct (cancel_total B _ id H) as (b & -> & Hb); [by intros q ->|]. by eexists.
Qed.

(** ** Accounting for channels *)

(** The channel on which nothing is sent after this. *)
Definition closes (d : delivery) : option Tx :=
  match d with Replied tx _ | SyncComplete tx _ | Dropped tx => Some tx | SyncProgress _ _ => None end.

Definition live (q : gmap QueryId QueryChannel) : list Tx := tx_of <$> (map_to_list q).*2.

Definition ledger (st : Backend) : list Tx := live (queries st) ++ omap closes (outbox st).

Lemma live_insert q id ch : q !! id = None -> live (<[id := ch]> q) ≡ₚ tx_of ch :: live q.
Proof. intros H. unfold live. by rewrite map_to_list_insert. Qed.

Lemma live_delete q id ch : q !! id = Some ch -> live q ≡ₚ tx_of ch :: live (delete id q).
Proof.
  intros H. rewrite <- (live_insert (delete id q)) by (by rewrite lookup_delete_eq).
  by rewrite insert_delete_id.
Qed.

Lemma live_replace q id ch ch' :
  q !! id = Some ch -> tx_of ch' = tx_of ch -> live (<[id := ch']> q) ≡ₚ live q.
Proof.
  intros H Ht. rewrite (live_delete q id ch H), <- insert_delete_eq, live_insert by (by rewrite lookup_delete_eq).
  by rewrite Ht.
Qed.

Lemma ledger_emit st d :
  ledger (emit st d) ≡ₚ match closes d with Some tx => [tx] | None => [] end ++ ledger st.
Proof.
  unfold ledger. cbn. rewrite omap_app. cbn. destruct (closes d); cbn; [|by rewrite app_nil_r].
  rewrite app_assoc. by rewrite Permutation_app_comm.
Qed.

(** Replies go to the channel that was registered. *)
Definition replies_to_sender (f : QueryChannel -> option delivery) : Prop :=
  forall ch d, f ch = Some d -> closes d = Some (tx_of ch).

Lemma ledger_answer st id f : replies_to_sender f -> ledger (answer st id f) ≡ₚ ledger st.
Proof.
  intros Hf. unfold answer. destruct (queries st !! id) as [ch|] eqn:E; [|done].
  rewrite ledger_emit. unfold ledger. cbn. rewrite (live_delete _ _ _ E).
  destruct (f ch) as [d|] eqn:Ef; cbn; [by rewrite (Hf _ _ Ef)|done].
Qed.

Lemma ledger_register st id ch : ledger (register st id ch) ≡ₚ tx_of ch :: ledger st.
Proof.
  unfold register. destruct (queries st !! id) as [old|] eqn:E.
  - unfold ledger. cbn. rewrite omap_app. cbn.
    rewrite <- insert_delete_eq, live_insert by (by rewrite lookup_delete_eq).
    rewrite (live_delete _ _ _ E). cbn. rewrite Permutation_app_comm. solve_Permutation.
  - unfold ledger. cbn. by rewrite live_insert.
Qed.

Lemma replies_ok :
  (forall r, replies_to_sender (to_bootstrap r)) /\ (forall r, replies_to_sender (to_closest_peers r)) /\
  (forall r, replies_to_sender (to_providers r)) /\ (forall r, replies_to_sender (to_start_providing r)) /\
  (forall r, replies_to_sender (to_record r)) /\ (forall r, replies_to_sender (to_put_record r)) /\
  (forall r, replies_to_sender (to_bitswap r)).
Proof. repeat split; intros r [] d; cbn; intros; by simplify_eq. Qed.

Lemma ledger_kad st ev : ledger (inject_kad_event st ev) ≡ₚ ledger st.
Proof.
  destruct replies_ok as (H1 & H2 & H3 & H4 & H5 & H6 & _).
  destruct ev as [kid r last|]; [|done]. cbn [inject_kad_event].
  destruct r as [[]|[]|[]|[]|[]|[]|[]|[]]; try done; try by apply ledger_answer.
  - case_decide; [|done]. by apply (ledger_answer (with_bootstrapped st true)).
  - unfold progress_providers. destruct (queries st !! KadId kid) as [[]|] eqn:E; try done.
    set (st1 := with_queries _ _).
    assert (Hl : ledger st1 ≡ₚ ledger st) by (unfold ledger; cbn; by rewrite (live_replace _ _ _ _ E)).
    destruct last; [by rewrite ledger_answer|done].
  - unfold progress_record. destruct (queries st !! KadId kid) as [[]|] eqn:E; try done.
    set (st1 := with_queries _ _).
    assert (Hl : ledger st1 ≡ₚ ledger st) by (unfold ledger; cbn; by rewrite (live_replace _ _ _ _ E)).
    destruct (last || _); [|done]. rewrite ledger_answer by done. by destruct (kad st1).
Qed.

Lemma ledger_bitswap st ev : ledger (inject_bitswap_event st ev) ≡ₚ ledger st.
Proof.
  destruct ev; cbn; [|by apply ledger_answer, replies_ok].
  destruct (queries st !! BitswapId id) as [[]|]; try done. by rewrite ledger_emit.
Qed.

(** Handlers that leave the channels alone. *)
Definition quiet_on_queries (st st' : Backend) : Prop :=
  queries st' = queries st /\ outbox st' = outbox st.

Lemma quiet_ledger st st' : quiet_on_queries st st' -> ledger st' = ledger st.
Proof. intros [Hq Ho]. unfold ledger. by rewrite Hq, Ho. Qed.

Lemma quiet_trans st1 st2 st3 :
  quiet_on_queries st1 st2 -> quiet_on_queries st2 st3 -> quiet_on_queries st1 st3.
Proof. unfold quiet_on_queries. intuition congruence. Qed.

Lemma quiet_unsubscribe st t : quiet_on_queries st (unsubscribe st t).
Proof. unfold unsubscribe. by destruct (gossipsub st); cbn; destruct (broadcast st). Qed.

Lemma quiet_notify_subscribers st t ev : quiet_on_queries st (notify_subscribers st t ev).
Proof.
  unfold notify_subscribers. destruct (subscriptions st !! t); [|done].
  case_decide; [|done]. apply (quiet_unsubscribe st t).
Qed.

Lemma quiet_gossip st ev : quiet_on_queries st (inject_gossip_event st ev).
Proof.
  destruct ev; cbn; try apply quiet_notify_subscribers; try done;
    (eapply quiet_trans; [|apply quiet_notify_subscribers]); done.
Qed.

Lemma quiet_broadcast st ev st' : inject_broadcast_event st ev ↓ st' -> quiet_on_queries st st'.
Proof.
  destruct ev as [p t d|p t|p t]; cbn; intros E; outcome_inv; [apply quiet_notify_subscribers| |];
    destruct (from_utf8 t); outcome_inv; try done;
    (eapply quiet_trans; [|apply quiet_notify_subscribers]); done.
Qed.

Lemma quiet_add_address now st p a s st' :
  behaviour_add_address now st p a s ↓ st' -> quiet_on_queries st st'.
Proof. unfold behaviour_add_address. intros E. outcome_inv. by destruct (kad st). Qed.

Lemma quiet_foldM {A} (f : Backend -> A -> outcome Backend) st l st' :
  foldM f st l ↓ st' -> (forall s x s', f s x ↓ s' -> quiet_on_queries s s') -> quiet_on_queries st st'.
Proof.
  intros E Hf. eapply (foldM_preserves f (quiet_on_queries st)); [exact E|done|].
  intros c x c' _ Hc Ex. eapply quiet_trans; [exact Hc|by eapply Hf].
Qed.

Lemma quiet_subscribe st t tx : quiet_on_queries st (subscribe st t tx).1.
Proof. unfold subscribe. by repeat (case_match; simplify_eq; try done). Qed.

Lemma quiet_publish st t m : quiet_on_queries st (publish st t m).1.
Proof. unfold publish. by repeat (case_match; simplify_eq; try done). Qed.

Lemma quiet_broadcast_message st t m : quiet_on_queries st (broadcast_message st t m).1.
Proof. unfold broadcast_message. by repeat (case_match; simplify_eq; try done). Qed.

(** The query channels an input hands to the task. *)
Definition handed (f : Fresh) (i : input) : list Tx :=
  match i with
  | InCommand (Some (Bootstrap _ tx | Providers _ tx | Provide _ tx | GetRecord _ _ tx | PutRecord _ _ tx)) =>
      [tx]
  | InCommand (Some (Get _ _ _ | Sync _ _ _ _)) => [query_tx f]
  | _ => []
  end.

(** Requests: the channel is registered, answered at once, or dropped. *)
Ltac request_ledger :=
  repeat (case_match; simplify_eq); cbn;
  rewrite ?ledger_register, ?ledger_emit; by try reflexivity.

Lemma ledger_bootstrap st tx : ledger (behaviour_bootstrap st tx) ≡ₚ tx :: ledger st.
Proof. unfold behaviour_bootstrap, reject. request_ledger. Qed.
Lemma ledger_provide st k tx : ledger (provide st k tx) ≡ₚ tx :: ledger st.
Proof. unfold provide, reject. request_ledger. Qed.
Lemma ledger_providers st k tx : ledger (providers st k tx) ≡ₚ tx :: ledger st.
Proof. unfold providers, reject. request_ledger. Qed.
Lemma ledger_get_record st k q tx : ledger (get_record st k q tx) ≡ₚ tx :: ledger st.
Proof. unfold get_record, reject. request_ledger. Qed.
Lemma ledger_put_record st r q tx : ledger (put_record st r q tx) ≡ₚ tx :: ledger st.
Proof. unfold put_record, reject. request_ledger. Qed.
Lemma ledger_get st cid ps tx st' id : get st cid ps tx ↓ (st', id) -> ledger st' ≡ₚ tx :: ledger st.
Proof. unfold get. intros E. outcome_inv. destruct (bitswap_get _ _ _). outcome_inv. simplify_eq. by rewrite ledger_register. Qed.
Lemma ledger_sync st cid ps ms tx st' id : sync st cid ps ms tx ↓ (st', id) -> ledger st' ≡ₚ tx :: ledger st.
Proof. unfold sync. intros E. outcome_inv. destruct (bitswap_sync _ _ _ _). outcome_inv. simplify_eq. by rewrite ledger_register. Qed.
Lemma ledger_cancel st id st' : cancel st id ↓ st' -> ledger st' ≡ₚ ledger st.
Proof.
  unfold cancel. intros E. rewrite <- (ledger_answer st id (fun _ => None)) by done.
  destruct id; outcome_inv; done.
Qed.

Lemma ledger_swarm_event f st ev st' :
  handle_swarm_event f st ev ↓ st' -> ledger (backend st') ≡ₚ ledger (backend st).
Proof.
  destruct ev; cbn; intros E; outcome_inv; cbn; try done.
  - apply ledger_kad.
  - rewrite (quiet_ledger (backend st)); [done|]. destruct e; cbn in *; outcome_inv; [|done].
    eapply quiet_foldM; [done|]. intros s [n [p a]] s'. apply quiet_add_address.
  - rewrite (quiet_ledger (backend st)); [done|]. unfold inject_ping_event in *.
    destruct (ping_result e) as [|[]]; outcome_inv; done.
  - rewrite (quiet_ledger (backend st)); [done|]. destruct e; cbn in *; outcome_inv; done.
  - apply ledger_bitswap.
  - by rewrite (quiet_ledger (backend st)) by apply quiet_gossip.
  - rewrite (quiet_ledger (backend st)); [done|]. by eapply quiet_broadcast.
Qed.

Lemma ledger_command f st cmd st' :
  handle_command f st cmd ↓ st' ->
  ledger (backend st') ≡ₚ handed f (InCommand (Some cmd)) ++ ledger (backend st).
Proof.
  destruct cmd; cbn [handle_command handed]; intros E; outcome_inv; cbn; try done.
  - destruct (swarm_listen_on _ a) as [s [l|e]]; outcome_inv; done.
  - rewrite (quiet_ledger (backend st)); [done|]. by eapply quiet_add_address.
  - rewrite (quiet_ledger (backend st)); [done|]. eapply quiet_foldM; [done|].
    intros s [n [p a]] s'. apply quiet_add_address.
  - rewrite (quiet_ledger (backend st)); [done|]. unfold behaviour_remove_address. cbn. by destruct (kad _).
  - rewrite ledger_bootstrap. rewrite (quiet_ledger (backend st)); [done|].
    eapply quiet_foldM; [done|]. intros s [n [p a]] s' Es. outcome_inv.
    eapply quiet_trans; [by eapply quiet_add_address|done].
  - by rewrite ledger_providers.
  - by rewrite ledger_provide.
  - rewrite (quiet_ledger (backend st)); [done|]. unfold unprovide. by destruct (kad _).
  - by rewrite ledger_get_record.
  - by rewrite ledger_put_record.
  - rewrite (quiet_ledger (backend st)); [done|]. unfold remove_record. by destruct (kad _).
  - pose proof (quiet_subscribe (backend st) topic (gossip_tx f)) as Hq.
    destruct (subscribe _ _ _). outcome_inv. cbn. by rewrite (quiet_ledger (backend st)).
  - pose proof (quiet_publish (backend st) topic msg) as Hq.
    destruct (publish _ _ _). outcome_inv. cbn. by rewrite (quiet_ledger (backend st)).
  - pose proof (quiet_broadcast_message (backend st) topic msg) as Hq.
    destruct (broadcast_message _ _ _). outcome_inv. cbn. by rewrite (quiet_ledger (backend st)).
  - destruct x. outcome_inv. cbn. by eapply ledger_get.
  - destruct x. outcome_inv. cbn. by eapply ledger_sync.
  - by eapply ledger_cancel.
Qed.

Lemma ledger_step f st i r :
  poll_swarm_step f st i ↓ r ->
  exists st', (r = Continue st' \/ r = Return st') /\
    ledger (backend st') ≡ₚ handed f i ++ ledger (backend st).
Proof.
  destruct i as [[ev|]|[cmd|]]; cbn [poll_swarm_step]; intros E; outcome_inv;
    (eexists; split; [by auto|]); try done.
  - by eapply ledger_swarm_event.
  - by eapply ledger_command.
Qed.
End NetInv.
