(* ===== verification/NetProps.v ===== *)
(** * The network task and its clients: properties

    The claims about src/net/behaviour.rs and src/net/mod.rs: the task as a
    transition system, the answers of each kind of query, subscriptions, the
    client calls and the futures.  Module [NetDemo] runs them on the concrete
    instances of the interfaces. *)
From S2P Require Import Prelude Time Libp2p PeerInfo AddressHandler Peers PeersInv PeersProps.
From S2P Require Import Protocols Behaviour Net Service NetInv.

(** ** The task as a transition system *)
Section Task.
Context `{P : Profile} `{C : Chrono} `{L : Libp2p} `{Ch : Channels} `{HO : HashOrder}.
Context `{Pr : !Protocols} `{Sw : !SwarmOps}.
Context {LL : Libp2pLaws} {HL : HashOrderLaws}.

Definition net_init (b : AddressBook) (k : option Kad) (bs : option Bitswap) (g : option Gossipsub)
    (bc : option Broadcast) (s : Swarm) : Net :=
  mkNet (mkBackend b k bs g bc false ∅ ∅ []) s [] [] [].

(** Polling the swarm moves the state of the protocols; none is switched on or
    off. *)
Definition protocols_moved (b : Backend) (k : option Kad) (bs : option Bitswap) (g : option Gossipsub)
    (bc : option Broadcast) : Backend :=
  mkBackend (book b) k bs g bc (bootstrapped b) (queries b) (subscriptions b) (outbox b).

Inductive net_reachable (B : Z) : Net -> Prop :=
| nr_init local pr el ka k bs g bc s :
    net_reachable B (net_init (new local pr el ka) k bs g bc s)
| nr_step f st i st' :
    net_reachable B st -> input_ok B (backend st) i ->
    poll_swarm_step f st i ↓ Continue st' -> net_reachable B st'
| nr_book st op b :
    net_reachable B st -> admissible B (book (backend st)) op ->
    exec op (book (backend st)) ↓ b -> net_reachable B (with_backend st (with_book (backend st) b))
| nr_protocols st k bs g bc :
    net_reachable B st -> (is_Some bs <-> is_Some (bitswap (backend st))) ->
    net_reachable B (with_backend st (protocols_moved (backend st) k bs g bc)).

Lemma step_total B f st i :
  backend_wf B (backend st) -> input_ok B (backend st) i ->
  exists r, poll_swarm_step f st i ↓ r /\
    forall st', r = Continue st' -> backend_wf B (backend st').
Proof.
  intros H Hi. destruct i as [[ev|]|[cmd|]]; cbn [poll_swarm_step].
  - destruct (handle_swarm_event_total B f st ev H Hi) as (st' & -> & H').
    eexists. split; [done|]. by intros ? [= <-].
  - by eexists.
  - destruct (handle_command_total B f st cmd H Hi) as (st' & -> & H').
    eexists. split; [done|]. by intros ? [= <-].
  - by eexists.
Qed.

Lemma net_reachable_wf B st : net_reachable B st -> backend_wf B (backend st).
Proof.
  induction 1 as [|f st i st' _ IH Hi E|st op b _ IH Hop E|st k bs g bc _ IH _].
  - split; cbn; [apply book_new_wf|apply map_Forall_empty..].
  - destruct (step_total B f st i IH Hi) as (r & E' & Hr). rewrite E in E'. simplify_eq. by apply Hr.
  - destruct (exec_total B op (book (backend st)) (bk_book _ _ IH) Hop) as (b' & E' & Hb & _).
    rewrite E in E'. simplify_eq. by apply with_book_wf.
  - by destruct IH.
Qed.

(** C1: the network task does not die: in every state it can reach, whatever
    command or swarm event comes next (topics of broadcast messages being UTF-8,
    bitswap being enabled where it is used, round-trip times in range, no
    connection to ourselves being reported as closed), its iteration returns; and
    the address book invariants hold throughout. *)
Theorem network_task_never_panics (B : Z) f st i :
  net_reachable B st -> input_ok B (backend st) i ->
  exists r, poll_swarm_step f st i ↓ r /\
    (forall st', r = Continue st' -> net_reachable B st') /\ book_wf B (book (backend st)).
Proof.
  intros H Hi. pose proof (net_reachable_wf B st H) as Hwf.
  destruct (step_total B f st i Hwf Hi) as (r & E & _). exists r. split; [done|].
  split; [|apply Hwf]. intros st' ->. by eapply nr_step.
Qed.

(** The inputs that kill the task, in a state. *)
Definition fatal (b : Backend) (i : input) : Prop :=
  match i with
  | InSwarm (Some (SeBroadcast (BcReceived _ t _))) => utf8_valid t = false
  | InCommand (Some (Get _ _ _ | Sync _ _ _ _ | CancelQuery (BitswapId _))) => bitswap b = None
  | _ => False
  end.

#[export] Instance fatal_dec b i : Decision (fatal b i).
Proof. unfold fatal. repeat case_match; apply _. Defined.

(** C23: exactly which inputs make the task panic.  In every state it can reach, of all the
    commands and swarm events (pings whose round-trip time and number of failures are in
    range), those are: a broadcast message on a topic that is not UTF-8, and with bitswap
    disabled a get, a sync, and the cancellation of a bitswap query. *)
Theorem task_panics_iff B f st i :
  net_reachable B st -> (forall e, i = InSwarm (Some (SePing e)) -> ping_ok B (book (backend st)) e) ->
  (is_done (poll_swarm_step f st i) = false <-> fatal (backend st) i).
Proof.
  intros H%net_reachable_wf Hping.
  assert (Hok : input_ok B (backend st) i -> is_done (poll_swarm_step f st i) = true).
  { intros Hi. by destruct (step_total B f st i H Hi) as (r & -> & _). }
  split.
  - intros Hp. destruct (decide (fatal (backend st) i)) as [Hf|Hf]; [done|]. exfalso.
    assert (Hno : is_done (poll_swarm_step f st i) = true); [|congruence].
    destruct i as [[[]|]|[[]|]]; try (by apply Hok); try done; apply Hok; cbn in *.
    + by apply Hping.
    + destruct e as [p t d| |]; cbn in *; [by destruct (utf8_valid t)|done..].
    + by destruct (bitswap (backend st)).
    + by destruct (bitswap (backend st)).
    + destruct id; cbn in *; [by destruct (bitswap (backend st))|done].
  - destruct i as [[[]|]|[[]|]]; cbn [fatal]; try done.
    + destruct e as [p t d| |]; [|done..]. intros Ht. cbn. unfold from_utf8. by rewrite Ht.
    + intros Hb. cbn. unfold get. by rewrite Hb.
    + intros Hb. cbn. unfold sync. by rewrite Hb.
    + destruct id as [q|q]; [|done]. intros Hb. cbn. unfold answer. by destruct (queries _ !! _); cbn; rewrite Hb.
Qed.

(** In every reachable state, the sender registered for a bitswap query is a
    get or sync channel, the one for a Kademlia query is not, and every topic in
    the table has a subscriber. *)
Theorem query_registry_kinds (B : Z) st :
  net_reachable B st ->
  (forall id ch, queries (backend st) !! BitswapId id = Some ch -> is_bitswap_channel ch = true) /\
  (forall id ch, queries (backend st) !! KadId id = Some ch -> is_bitswap_channel ch = false) /\
  (forall t l, subscriptions (backend st) !! t = Some l -> l <> []).
Proof.
  intros [Hb Hk Hs]%net_reachable_wf. split; [|split].
  - intros id ch. apply (Hk (BitswapId id)).
  - intros id ch. apply (Hk (KadId id)).
  - intros t l. apply Hs.
Qed.

(** C2: no channel of a query is lost, answered twice or answered after it was
    given up: on any run of the task from its start, the channels handed to it
    are exactly those still registered and those closed (by the reply, by the
    completion of the sync, or by dropping the sender), each once. *)
Theorem query_channels_accounted b k bs g bc s (inputs : list (Fresh * input)) st' :
  let all := mjoin ((fun fi => handed fi.1 fi.2) <$> inputs) in
  poll_swarm (net_init b k bs g bc s) inputs ↓ Continue st' -> NoDup all ->
  NoDup (live (queries (backend st')) ++ omap closes (outbox (backend st'))) /\
  forall tx, tx ∈ all <->
    tx ∈ live (queries (backend st')) \/ tx ∈ omap closes (outbox (backend st')).
Proof.
  intros all E Hnd.
  assert (H : ledger (backend st') ≡ₚ all).
  { cut (forall st, poll_swarm st inputs ↓ Continue st' ->
      ledger (backend st') ≡ₚ all ++ ledger (backend st)).
    { intros H. rewrite (H _ E). unfold ledger. cbn. unfold live. by rewrite map_to_list_empty, app_nil_r. }
    clear E Hnd. subst all. induction inputs as [|[f i] inputs IH]; intros st E; cbn in *; outcome_inv; [done|].
    destruct (ledger_step f st i _ H) as (st1 & [->| ->] & Hl); [|by outcome_inv].
    rewrite (IH _ H0), Hl. solve_Permutation. }
  rewrite <- H in Hnd. split; [exact Hnd|]. intros tx. rewrite <- H. apply elem_of_app.
Qed.
End Task.

(** ** Answers to queries *)
Section Answers.
Context `{P : Profile} `{C : Chrono} `{L : Libp2p} `{Ch : Channels} `{HO : HashOrder}.
Context `{Pr : !Protocols}.

Definition found (kid : KadQueryId) (r : PeerRecord) : KademliaEvent :=
  OutboundQueryProgressed kid (QrGetRecord (Ok (FoundRecord r))) false.

Lemma progress_record_unregistered st kid res last :
  queries st !! KadId kid = None -> progress_record st kid res last = st.
Proof. intros H. unfold progress_record. by rewrite H. Qed.

Lemma found_after_answer st kid rs :
  queries st !! KadId kid = None -> foldl inject_kad_event st (found kid <$> rs) = st.
Proof.
  intros H. induction rs as [|r rs IH]; cbn [fmap list_fmap foldl]; [done|].
  cbn [inject_kad_event found]. by rewrite progress_record_unregistered.
Qed.

(** One more record. *)
Lemma progress_found st kid q acc tx r :
  queries st !! KadId kid = Some (ChGetRecord q acc tx) ->
  exists st', inject_kad_event st (found kid r) = st' /\
    if bool_decide (q <= length acc + 1) then
      queries st' !! KadId kid = None /\
      outbox st' = outbox st ++ [Replied tx (RRecords (Ok (acc ++ [r])))]
    else queries st' !! KadId kid = Some (ChGetRecord q (acc ++ [r]) tx) /\ outbox st' = outbox st.
Proof.
  intros Hq. eexists. split; [done|]. cbn. unfold progress_record. rewrite Hq, length_app. cbn [length orb].
  case_bool_decide.
  - unfold answer. cbn. destruct (kad st); cbn; rewrite lookup_insert_eq; cbn; by rewrite lookup_delete_eq.
  - cbn. by rewrite lookup_insert_eq.
Qed.

Lemma get_record_run st kid q acc tx rs :
  queries st !! KadId kid = Some (ChGetRecord q acc tx) -> length acc < q ->
  let st' := foldl inject_kad_event st (found kid <$> rs) in
  if decide (length acc + length rs < q) then
    queries st' !! KadId kid = Some (ChGetRecord q (acc ++ rs) tx) /\ outbox st' = outbox st
  else
    queries st' !! KadId kid = None /\
    outbox st' = outbox st ++ [Replied tx (RRecords (Ok (take q (acc ++ rs))))].
Proof.
  intros Hq Hacc. revert st acc Hq Hacc. induction rs as [|r rs IH]; intros st acc Hq Hacc.
  { cbn. rewrite decide_True by lia. by rewrite app_nil_r. }
  cbn [fmap list_fmap foldl].
  destruct (progress_found st kid q acc tx r Hq) as (st1 & -> & Hst1).
  case_bool_decide as Hlen; destruct Hst1 as [Hq1 Ho1].
  - assert (q = S (length acc)) as -> by lia. rewrite decide_False by (cbn; lia).
    rewrite found_after_answer by done. split; [done|].
    rewrite Ho1. replace (acc ++ r :: rs) with ((acc ++ [r]) ++ rs) by (by rewrite <- app_assoc).
    rewrite take_app_length'; [done|]. rewrite length_app. cbn. lia.
  - specialize (IH st1 (acc ++ [r]) Hq1). rewrite length_app in IH. cbn [length] in IH |- *.
    specialize (IH ltac:(lia)). rewrite <- app_assoc, Ho1 in IH.
    replace (length acc + S (length rs)) with (length acc + 1 + length rs) by lia. exact IH.
Qed.

(** C20: a record query is answered as soon as its quorum is reached: with fewer
    records than the quorum nothing is sent and they are kept in order; otherwise
    the answer is the first [q] records, it is sent exactly once, and what arrives
    afterwards is ignored. *)
Theorem get_record_quorum st kid q tx rs :
  queries st !! KadId kid = Some (ChGetRecord q [] tx) -> 0 < q ->
  let st' := foldl inject_kad_event st (found kid <$> rs) in
  if decide (length rs < q) then
    queries st' !! KadId kid = Some (ChGetRecord q rs tx) /\ outbox st' = outbox st
  else
    queries st' !! KadId kid = None /\
    outbox st' = outbox st ++ [Replied tx (RRecords (Ok (take q rs)))].
Proof. intros Hq Hpos. apply (get_record_run st kid q [] tx rs Hq Hpos). Qed.

Definition found_providers (kid : KadQueryId) (ps : gset PeerId) : KademliaEvent :=
  OutboundQueryProgressed kid (QrGetProviders (Ok (FoundProviders ps))) false.

Lemma providers_run st kid acc tx pss :
  queries st !! KadId kid = Some (ChGetProviders acc tx) ->
  let st' := foldl inject_kad_event st (found_providers kid <$> pss) in
  queries st' !! KadId kid = Some (ChGetProviders (acc ∪ ⋃ pss) tx) /\ outbox st' = outbox st.
Proof.
  revert st acc. induction pss as [|ps pss IH]; intros st acc H; cbn.
  { by rewrite union_empty_r_L. }
  unfold progress_providers. rewrite H.
  specialize (IH (with_queries st (<[KadId kid := ChGetProviders (acc ∪ ps) tx]> (queries st))) (acc ∪ ps)
    ltac:(apply lookup_insert_eq)).
  by rewrite union_assoc_L.
Qed.

(** A provider query is answered once, by the last step of the query, with
    the union of all providers found; an error answers it instead. *)
Theorem providers_answer st kid tx pss e :
  queries st !! KadId kid = Some (ChGetProviders ∅ tx) ->
  let st1 := foldl inject_kad_event st (found_providers kid <$> pss) in
  outbox st1 = outbox st /\
  (let st2 := inject_kad_event st1
     (OutboundQueryProgressed kid (QrGetProviders (Ok FinishedWithNoAdditionalProviders)) true) in
   queries st2 !! KadId kid = None /\
   outbox st2 = outbox st ++ [Replied tx (RPeers (Ok (⋃ pss)))]) /\
  (let st2 := inject_kad_event st1 (OutboundQueryProgressed kid (QrGetProviders (Err e)) true) in
   queries st2 !! KadId kid = None /\
   outbox st2 = outbox st ++ [Replied tx (RPeers (Err (KadGetProvidersError e)))]).
Proof.
  intros H st1. destruct (providers_run st kid ∅ tx pss H) as [Hq Ho].
  fold st1 in Hq, Ho. rewrite union_empty_l_L in Hq. clearbody st1. split; [done|]. split.
  - cbn. unfold progress_providers. rewrite Hq. unfold answer. cbn. rewrite lookup_insert_eq. cbn.
    by rewrite lookup_delete_eq, Ho.
  - cbn. unfold answer. rewrite Hq. cbn. by rewrite lookup_delete_eq, Ho.
Qed.

(** A sync query's stream is its progress reports in order, then its
    completion, then nothing: events of a completed query are dropped. *)
Theorem sync_stream st id tx missing r late :
  queries st !! BitswapId id = Some (ChSync tx) ->
  let st1 := foldl inject_bitswap_event st (BitswapProgress id <$> missing) in
  let st2 := inject_bitswap_event st1 (BitswapComplete id r) in
  outbox st2 = outbox st ++ (SyncProgress tx <$> missing) ++
    [SyncComplete tx (err_map Datatypes.id OtherError r)] /\
  queries st2 = delete (BitswapId id) (queries st) /\
  foldl inject_bitswap_event st2 (BitswapProgress id <$> late) = st2.
Proof.
  intros H st1 st2.
  assert (H1 : queries st1 = queries st /\ outbox st1 = outbox st ++ (SyncProgress tx <$> missing)).
  { subst st1 st2. revert st H. induction missing as [|m ms IH]; intros st H; cbn.
    { by rewrite app_nil_r. }
    rewrite H. destruct (IH (emit st (SyncProgress tx m)) H) as [Hq Ho].
    rewrite Hq, Ho. cbn. by rewrite <- app_assoc. }
  destruct H1 as [Hq1 Ho1].
  assert (H2 : st2 = emit (with_queries st1 (delete (BitswapId id) (queries st1)))
    (SyncComplete tx (err_map Datatypes.id OtherError r))).
  { subst st2. cbn. unfold answer. rewrite Hq1, H. done. }
  rewrite H2. cbn. rewrite Ho1, Hq1, <- app_assoc. split; [done|]. split; [done|].
  clear H2 st2. induction late as [|m late IH]; cbn; [done|]. by rewrite lookup_delete_eq.
Qed.

(** Before the bootstrap completes every Kademlia request is refused with
    [NotBootstrapped], on its own channel, and changes nothing else. *)
Theorem not_bootstrapped_refused st key record q tx :
  bootstrapped st = false ->
  provide st key tx = emit st (Replied tx (RUnit (Err NotBootstrapped))) /\
  providers st key tx = emit st (Replied tx (RPeers (Err NotBootstrapped))) /\
  get_record st key q tx = emit st (Replied tx (RRecords (Err NotBootstrapped))) /\
  put_record st record q tx = emit st (Replied tx (RUnit (Err NotBootstrapped))).
Proof. intros H. unfold provide, providers, get_record, put_record. by rewrite H. Qed.

(** A bootstrap that finishes answers its caller, opens Kademlia requests for
    good, and is reported once on every event stream; while steps remain nothing
    changes. *)
Theorem bootstrap_completes st kid tx n last :
  queries st !! KadId kid = Some (ChBootstrap tx) ->
  let st' := inject_kad_event st (OutboundQueryProgressed kid (QrBootstrap (Ok n)) last) in
  (n = 0%Z -> bootstrapped st' = true /\ queries st' = delete (KadId kid) (queries st) /\
     outbox st' = outbox st ++ [Replied tx (RUnit (Ok tt))] /\
     event_stream (book st') = event_stream (notify (book st) Event.Bootstrapped)) /\
  (n <> 0%Z -> st' = st) /\
  (forall ev, bootstrapped st = true -> bootstrapped (inject_kad_event st ev) = true).
Proof.
  intros H st'. subst st'. cbn. split; [|split].
  - intros ->. cbn. unfold answer. cbn. rewrite H. done.
  - intros Hn. by rewrite decide_False.
  - intros ev Hb. destruct ev as [k r l|]; [|done]. cbn.
    assert (Ha : forall s id f, bootstrapped (answer s id f) = bootstrapped s)
      by (intros s id f; unfold answer; by destruct (queries s !! id)).
    destruct r as [[]|[]|[]|[]|[]|[]|[]|[]]; rewrite ?Ha; try done.
    + case_decide; [|done]. cbn. by rewrite Ha.
    + unfold progress_providers. repeat (case_match; simplify_eq; try done); by rewrite ?Ha.
    + unfold progress_record. repeat (case_match; simplify_eq; try done); by rewrite ?Ha.
Qed.
End Answers.

(** ** Topics *)
Section Topics.
Context `{P : Profile} `{C : Chrono} `{L : Libp2p} `{Ch : Channels} `{HO : HashOrder}.
Context `{Pr : !Protocols} {CL : ChannelLaws}.

Definition alive (tx : Sender GossipEvent) : Prop := connected tx = true.
#[local] Instance alive_dec tx : Decision (alive tx) := decide (connected tx = true).

Lemma send_all (l : list (Sender GossipEvent)) (ev : GossipEvent) :
  Forall2 (fun tx tx' => queued tx' = queued tx ++ [ev] /\ connected tx' = true)
    (filter alive l) (omap (fun tx => unbounded_send tx ev) l).
Proof.
  induction l as [|tx l IH]; [constructor|]. rewrite filter_cons. cbn. case_decide as E.
  - destruct (send_connected tx ev E) as (tx' & -> & Hq & Hc). cbn. by constructor.
  - apply not_true_is_false in E. by rewrite send_disconnected.
Qed.

(** A gossip event reaches exactly the live subscribers of its topic, once
    and after what they got before; subscribers that went away are forgotten;
    when none is left the topic is given up, in gossipsub and in broadcast.  No
    other topic is touched. *)
Theorem notify_subscribers_effect st topic ev subs :
  subscriptions st !! topic = Some subs ->
  let st' := notify_subscribers st topic ev in
  (filter alive subs = [] ->
     subscriptions st' = delete topic (subscriptions st) /\
     gossipsub st' = (fun g => gossip_unsubscribe g topic) <$> gossipsub st /\
     broadcast st' = (fun b => broadcast_unsubscribe b (Topic_new (topic_hash topic))) <$> broadcast st) /\
  (filter alive subs <> [] ->
     exists subs', subscriptions st' = <[topic := subs']> (subscriptions st) /\
       Forall2 (fun tx tx' => queued tx' = queued tx ++ [ev] /\ connected tx' = true)
         (filter alive subs) subs' /\
       gossipsub st' = gossipsub st /\ broadcast st' = broadcast st).
Proof.
  intros H st'. subst st'. unfold notify_subscribers. rewrite H.
  pose proof (send_all subs ev) as Hs. apply Forall2_length in Hs as Hlen.
  set (subs' := omap _ subs) in *. split; intros Hf.
  - rewrite Hf in Hlen. cbn in Hlen. rewrite decide_True by done. cbn.
    rewrite unsubscribe_subscriptions. unfold unsubscribe.
    destruct (gossipsub st) eqn:Eg; cbn; destruct (broadcast st) eqn:Eb; cbn; by rewrite ?Eg, ?Eb.
  - rewrite decide_False by (rewrite <- Hlen; by destruct (filter alive subs)).
    exists subs'. by split; [|split].
Qed.

(** A successful subscription receives the topic's events: the new stream is
    the last subscriber of the topic, and whatever is published there next is
    queued on it; the first subscriber of a topic also subscribes the node in
    gossipsub and broadcast. *)
Theorem subscribe_receives {PL : ProtocolLaws} st topic tx st' ev :
  subscribe st topic tx = (st', Ok tt) -> connected tx = true ->
  (exists before, subscriptions st' !! topic = Some (before ++ [tx]) /\
     (before = [] \/ subscriptions st !! topic = Some before)) /\
  (exists before tx', subscriptions (notify_subscribers st' topic ev) !! topic = Some (before ++ [tx']) /\
     queued tx' = queued tx ++ [ev]) /\
  (subscriptions st !! topic = None ->
     broadcast st' = (fun b => broadcast_subscribe b (Topic_new topic)) <$> broadcast st /\
     gossipsub st' = (fun g => (gossip_subscribe g topic).1) <$> gossipsub st).
Proof.
  intros E Hc.
  assert (Hsub : exists before, subscriptions st' !! topic = Some (before ++ [tx]) /\
    (before = [] \/ subscriptions st !! topic = Some before)).
  { unfold subscribe in E. rewrite !topic_hash_ident in E.
    repeat (case_match; simplify_eq); cbn; rewrite lookup_insert_eq;
      first [by exists []; auto | by eexists; split; [reflexivity|right]]. }
  split; [exact Hsub|]. split.
  - destruct Hsub as (before & Hs & _). unfold notify_subscribers. rewrite Hs, omap_app. cbn.
    destruct (send_connected tx ev Hc) as (tx' & -> & Hq & _). cbn.
    rewrite decide_False by (rewrite length_app; cbn; lia). cbn. rewrite lookup_insert_eq. eauto.
  - intros Hn. unfold subscribe in E. rewrite Hn, !topic_hash_ident in E.
    destruct (gossipsub st) as [g|] eqn:Eg; [destruct (gossip_subscribe g topic) as [g' [u|e]] eqn:Es|];
      cbn in E; destruct (broadcast st) eqn:Eb; simplify_eq; cbn; by rewrite ?Es, ?Eg, ?Eb.
Qed.

(** A subscription that gossipsub refuses leaves its topic in the table, so
    that the next subscription to it succeeds although the node never subscribed:
    neither gossipsub nor broadcast is asked again. *)
Theorem refused_subscription_sticks {PL : ProtocolLaws} st topic tx1 tx2 st1 e :
  subscribe st topic tx1 = (st1, Err (OtherError e)) ->
  exists st2, subscribe st1 topic tx2 = (st2, Ok tt) /\
    gossipsub st2 = gossipsub st1 /\ broadcast st2 = broadcast st1 /\ broadcast st1 = broadcast st.
Proof.
  intros E.
  assert (H : subscriptions st1 !! topic = Some [hang_up tx1] /\ broadcast st1 = broadcast st /\
    is_Some (gossipsub st1)).
  { unfold subscribe in E. rewrite !topic_hash_ident in E.
    repeat (case_match; simplify_eq); cbn; rewrite lookup_insert_eq; eauto. }
  destruct H as (Hs & Hb & [g Hg]). unfold subscribe. rewrite Hg, Hs.
  destruct (broadcast st1) eqn:Eb; eexists; (split; [done|]); cbn; by rewrite ?Hg, ?Eb.
Qed.

End Topics.

(** ** The client side *)
Section Client.
Context `{P : Profile} `{C : Chrono} `{L : Libp2p} `{Ch : Channels} `{HO : HashOrder}.
Context `{Pr : !Protocols} `{CC : !CommandChannel} {CCL : CommandChannelLaws}.
Context {CL : ChannelLaws}.

(** No call vanishes: a call either queues its command, last, and waits on
    its own channel, or fails at once with the reason and queues nothing.  A
    [listen_on] that cannot be queued says so on the stream it returns. *)
Theorem request_queued_or_refused svc msg tx addr ltx svc' lsvc ltx' c :
  request svc msg tx = (svc', c) -> listen_on svc addr ltx = (lsvc, ltx') -> connected ltx = true ->
  (match c with
   | Awaits rx => rx = tx /\ cmd_queue (svc_cmd svc') = cmd_queue (svc_cmd svc) ++ [msg]
   | ReadyErr e => (e = Message "receiver went away" \/ e = Message "channel is full") /\
       cmd_queue (svc_cmd svc') = cmd_queue (svc_cmd svc)
   end) /\
  ((ltx' = ltx /\ cmd_queue (svc_cmd lsvc) = cmd_queue (svc_cmd svc) ++ [ListenOn addr ltx]) \/
   (exists reason, queued ltx' = queued ltx ++ [LeListenFailed addr ("cannot send to Swarm: " +:+ reason)] /\
      cmd_queue (svc_cmd lsvc) = cmd_queue (svc_cmd svc))).
Proof.
  intros E El Hc. unfold request, listen_on, cmd, handle_send_result in *. split.
  - destruct (try_send (svc_cmd svc) msg) as [c' [[d m]|]] eqn:Et; simplify_eq; cbn.
    + destruct (try_send_err _ _ _ _ _ Et) as [_ Hq]. split; [|done]. destruct d; auto.
    + by apply try_send_ok in Et.
  - destruct (try_send (svc_cmd svc) (ListenOn addr ltx)) as [c' [[d m]|]] eqn:Et; simplify_eq; cbn.
    + destruct (try_send_err _ _ _ _ _ Et) as [-> Hq]. simplify_eq. right.
      destruct (send_connected ltx (LeListenFailed addr ("cannot send to Swarm: " +:+
        (if d then "receiver went away" else "channel is full"))) Hc) as (tx' & Es & Hqt & _).
      rewrite Es. cbn. eauto.
    + left. by apply try_send_ok in Et.
Qed.

(** When [sync] talks to the network: nothing is missing - done at once;
    something is missing and there is no provider - the first missing block is
    reported as not found; else the command is sent. *)
Theorem sync_decision svc cid ps ms tx svc' c :
  svc_sync svc cid ps ms tx = (svc', c) ->
  match ms, ps with
  | [], _ => svc' = svc /\ c = SyncReady (Ok tt)
  | m :: _, [] => svc' = svc /\ c = SyncReady (Err (BlockNotFound m))
  | _, _ => exists c', c = SyncCall c' /\ request svc (Sync cid ps ms tx) tx = (svc', c')
  end.
Proof.
  unfold svc_sync. destruct ms as [|m ms]; [by intros [= <- <-]|].
  destruct ps as [|p ps]; [by intros [= <- <-]|].
  destruct (request _ _ _) as [s c'] eqn:E. intros [= <- <-]. eauto.
Qed.

(** [is_connected] tells whether the peer is in the list of connections (or
    is ourselves), and the list has exactly the connections of the book. *)
Theorem connections_consistent {HL : HashOrderLaws} svc b peer :
  (is_connected svc b peer = true <->
     peer = svc_peer_id svc \/ exists a t d, (peer, a, t, d) ∈ svc_connections b) /\
  (forall p a t d, (p, a, t, d) ∈ svc_connections b <->
     exists i, peers b !! p = Some i /\ connections i !! a = Some (t, d)).
Proof.
  assert (Hl : forall p a t d, (p, a, t, d) ∈ svc_connections b <->
    exists i, peers b !! p = Some i /\ connections i !! a = Some (t, d)).
  { intros p a t d. unfold svc_connections. rewrite list_elem_of_bind. split.
    - intros ([p' i] & Hin & Hi). apply elem_of_map_iter in Hi.
      apply list_elem_of_fmap in Hin as ([a' [t' d']] & [= -> -> -> ->] & Ha).
      apply elem_of_map_iter in Ha. eauto.
    - intros (i & Hi & Ha). exists (p, i). rewrite elem_of_map_iter. split; [|done].
      apply list_elem_of_fmap. exists (a, (t, d)). by rewrite elem_of_map_iter. }
  split; [|exact Hl]. unfold is_connected. rewrite orb_true_iff, bool_decide_eq_true.
  setoid_rewrite Hl. destruct (peers b !! peer) as [i|]; [|naive_solver].
  rewrite negb_true_iff, bool_decide_eq_false. split.
  - intros [?|Hne]; [by left|right]. apply map_choose in Hne as (a & [t d] & Ha). naive_solver.
  - intros [?|(a & t & d & i' & [= <-] & Ha)]; [by left|right]. intros E. by rewrite E in Ha.
Qed.

Context `{Rx : !Receivers} {RL : ReceiverLaws}.

Definition is_complete (e : SyncEvent) : bool := match e with Complete _ => true | _ => false end.

Lemma sync_query_poll_run n rx :
  length (rx_queue rx) < n ->
  match list_find (fun e => is_complete e = true) (rx_queue rx) with
  | Some (_, e) => exists rx' r, e = Complete r /\ sync_query_poll n rx = Some (rx', Ready r)
  | None =>
      if rx_closed rx then sync_query_poll n rx = None
      else exists rx', sync_query_poll n rx = Some (rx', Pending) /\ rx_queue rx' = []
  end.
Proof.
  revert rx. induction n as [|n IH]; intros rx Hn; [lia|]. cbn.
  destruct (rx_queue rx) as [|e q] eqn:E; cbn [list_find].
  - destruct (rx_closed rx) eqn:Ec.
    + destruct (poll_next_closed rx E Ec) as (rx' & -> & E' & Ec').
      destruct n as [|n]; [done|]. specialize (IH rx'). rewrite E', Ec' in IH. apply IH. cbn. lia.
    + destruct (poll_next_pending rx E Ec) as (rx' & -> & E' & _). eauto.
  - destruct (poll_next_item rx e q E) as (rx' & -> & Hq & Hc).
    destruct e as [m|r]; cbn; [|rewrite decide_True by done; eauto].
    rewrite decide_False by done. specialize (IH rx'). rewrite Hq, Hc in IH. cbn in Hn.
    specialize (IH ltac:(lia)). destruct (list_find _ q) as [[k e]|]; cbn; exact IH.
Qed.

(** C22: polling a sync query.  With enough iterations it returns the first
    completion in its queue, or is pending after having eaten the progress
    reports.  But once its stream has ended without a completion (the network
    task dropped the sender), the loop never returns: no number of iterations is
    enough. *)
Theorem sync_query_poll_returns rx :
  (forall i e, list_find (fun e => is_complete e = true) (rx_queue rx) = Some (i, e) ->
     exists rx' r, e = Complete r /\ sync_query_poll (S (length (rx_queue rx))) rx = Some (rx', Ready r)) /\
  (list_find (fun e => is_complete e = true) (rx_queue rx) = None ->
     (rx_closed rx = false ->
        exists rx', sync_query_poll (S (length (rx_queue rx))) rx = Some (rx', Pending)) /\
     (rx_closed rx = true -> forall fuel, sync_query_poll fuel rx = None)).
Proof.
  pose proof (sync_query_poll_run (S (length (rx_queue rx))) rx ltac:(lia)) as H. split.
  - intros i e E. by rewrite E in H.
  - intros E. rewrite E in H. split; intros Hc; [rewrite Hc in H; naive_solver|].
    intros fuel. destruct (decide (length (rx_queue rx) < fuel)) as [Hf|Hf].
    + pose proof (sync_query_poll_run fuel rx Hf) as Hr. by rewrite E, Hc in Hr.
    + assert (Hle : fuel <= length (rx_queue rx)) by lia. clear Hf H Hc.
      revert rx E Hle. induction fuel as [|fuel IH]; intros rx E Hle; [done|]. cbn.
      destruct (rx_queue rx) as [|e q] eqn:Eq; cbn in Hle; [lia|].
      destruct (poll_next_item rx e q Eq) as (rx' & -> & Hq & _).
      cbn in E. destruct e as [m|r]; cbn in E; [|by rewrite decide_True in E].
      rewrite decide_False in E by done. apply IH; rewrite Hq; [|lia].
      by destruct (list_find _ q) as [[]|].
Qed.
End Client.

(** ** Listener events *)
Section Listeners.
Context `{P : Profile} `{C : Chrono} `{L : Libp2p} `{Ch : Channels}.
Context `{Pr : !Protocols} {CL : ChannelLaws}.

(** What concerns a listener, and the part of a stream before it is closed. *)
Definition listener_event (l : ListenerId) (ev : Event.t) : option ListenerEvent :=
  match ev with
  | Event.NewListenAddr id a => if decide (id = l) then Some (LeNewListenAddr a) else None
  | Event.ExpiredListenAddr id a => if decide (id = l) then Some (LeExpiredListenAddr a) else None
  | _ => None
  end.

Definition closes_listener (l : ListenerId) (ev : Event.t) : bool :=
  match ev with Event.ListenerClosed id => bool_decide (id = l) | _ => false end.

Fixpoint before_close (l : ListenerId) (evs : list Event.t) : list Event.t :=
  match evs with
  | [] => []
  | ev :: evs => if closes_listener l ev then [] else ev :: before_close l evs
  end.

Lemma forward_event_spec l response ev :
  connected response = true ->
  match forward_event l response ev with
  | None => closes_listener l ev = true
  | Some r' => closes_listener l ev = false /\ connected r' = true /\
      queued r' = queued response ++ option_list (listener_event l ev)
  end.
Proof.
  intros Hc. destruct ev; cbn; rewrite ?app_nil_r; auto; case_decide; cbn;
    rewrite ?bool_decide_eq_true_2, ?bool_decide_eq_false_2, ?app_nil_r by done; auto.
  - destruct (send_connected response (LeNewListenAddr a) Hc) as (r' & -> & Hq & Hc'). auto.
  - destruct (send_connected response (LeExpiredListenAddr a) Hc) as (r' & -> & Hq & Hc'). auto.
Qed.

(** The forwarding task of a listener passes on exactly the address events of
    its own listener, in order, until the listener is closed; then it ends. *)
Theorem forward_listener_events_exact l response evs :
  connected response = true ->
  exists r', forward_listener_events l response evs =
      (r', negb (existsb (closes_listener l) evs)) /\
    queued r' = queued response ++ omap (listener_event l) (before_close l evs).
Proof.
  revert response. induction evs as [|ev evs IH]; intros response Hc; cbn.
  { exists response. by rewrite app_nil_r. }
  pose proof (forward_event_spec l response ev Hc) as Hf.
  destruct (forward_event l response ev) as [r1|]; cycle 1.
  { rewrite Hf. exists response. by rewrite app_nil_r. }
  destruct Hf as (Hcl & Hc1 & Hq1). rewrite Hcl. cbn.
  destruct (IH r1 Hc1) as (r' & -> & Hq). exists r'. split; [done|].
  rewrite Hq, Hq1, <- app_assoc. by destruct (listener_event l ev).
Qed.
End Listeners.

(** ** Runs on the concrete instances *)
Module NetDemo.
Export Demo SimProtocols SimService.

(** The constants carry the interface's types, which selects the instances. *)
Definition cid (n : N) : @Cid sim sim_protocols := n.
Definition kid (n : N) : @KadQueryId sim sim_protocols := n.
Definition bid (n : N) : @BitswapQueryId sim sim_protocols := n.
Definition key (n : N) : @Key sim sim_protocols := n.
Definition krec (n : N) : @KadRecord sim sim_protocols := n.
Definition prec (n : N) : @PeerRecord sim sim_protocols := n.

Definition lid (n : nat) : @ListenerId sim := n.

Record sim_swarm := mkSimSwarm { sw_listeners : nat; sw_banned : list N }.

#[export] Instance sim_swarm_ops : SwarmOps (L := sim) | 100 := {|
  Swarm := sim_swarm;
  swarm_listen_on := fun s a =>
    if decide (a = []) then (s, Err "unsupported")
    else (mkSimSwarm (S (sw_listeners s)) (sw_banned s), Ok (sw_listeners s));
  swarm_add_external_address := fun s _ => s;
  swarm_ban := fun s p => mkSimSwarm (sw_listeners s) (p :: sw_banned s);
  swarm_unban := fun s p => mkSimSwarm (sw_listeners s) (filter (fun q => q <> p) (sw_banned s))
|}.

Definition gossip_chan : @Sender sim_channels (@GossipEvent sim) := mkChan true [].
Definition listen_chan : @Sender sim_channels (@ListenerEvent sim) := mkChan true [].

Definition env (n : nat) : @Fresh utc_nanos sim sim_channels :=
  mkFresh (fun k => at_ns (Z.of_nat k)) (fun _ _ => at_ns 0) stream gossip_chan n.

Definition kad0 : option (@Kad sim sim_protocols) := Some (mkKad 0 [] []).
Definition bitswap0 : option (@Bitswap sim sim_protocols) := Some (mkBitswap 0 []).
Definition gossip0 : option (@Gossipsub sim sim_protocols) := Some [].
Definition broadcast0 : option (@Broadcast sim sim_protocols) := Some [].
Definition swarm0 : @Swarm sim sim_swarm_ops := mkSimSwarm 0 [].

Definition start : @Net utc_nanos sim sim_channels sim_protocols sim_swarm_ops :=
  net_init fresh kad0 bitswap0 gossip0 broadcast0 swarm0.

(** A backend with one query of each kind. *)
Definition asked : @Backend utc_nanos sim sim_channels sim_protocols :=
  mkBackend fresh (Some (mkKad 9 [] [])) (Some (mkBitswap 9 [])) (Some ["t"]) (Some ["t"]) true
    (<[KadId 1%N := ChGetRecord 2 [] 11]> (<[KadId 2%N := ChGetProviders ∅ 12]>
      (<[BitswapId 3%N := ChSync 13]> (<[KadId 4%N := ChBootstrap 14]> ∅))))
    (<["t" := [gossip_chan]]> ∅) [].
End NetDemo.

Section NetWitness.
Import NetDemo.

Lemma network_task_never_panics_witness : exists r,
  poll_swarm_step (env 7) start (InCommand (Some (Get (cid 5) [bob] 1))) ↓ r.
Proof.
  destruct (network_task_never_panics 0 (env 7) start (InCommand (Some (Get (cid 5) [bob] 1))))
    as (r & E & _).
  - apply nr_init.
  - eexists. reflexivity.
  - exists r. exact E.
Defined.

(** A node without bitswap, and a message from the network. *)
Lemma task_panics_iff_witness :
  is_done (poll_swarm_step (env 7) (net_init fresh kad0 None gossip0 broadcast0 swarm0)
    (InCommand (Some (CancelQuery (BitswapId (bid 1)))))) = false /\
  is_done (poll_swarm_step (env 7) start (InSwarm (Some (SeBroadcast (BcReceived bob [255%Z] []))))) = false.
Proof.
  split.
  - apply (task_panics_iff 0 (env 7)); [apply nr_init|discriminate|reflexivity].
  - apply (task_panics_iff 0 (env 7)); [apply nr_init|discriminate|reflexivity].
Defined.

Lemma query_registry_kinds_witness : forall t l,
  subscriptions (backend start) !! t = Some l -> l <> [].
Proof. apply (query_registry_kinds 0 start). apply nr_init. Defined.

Definition asking : list (@Fresh utc_nanos sim sim_channels * @input sim sim_channels sim_protocols) :=
  [(env 7, InCommand (Some (Bootstrap [(bob, bob_4001)] 1)));
   (env 8, InCommand (Some (Get (cid 5) [bob] 2)));
   (env 9, InCommand (Some (Providers (key 3) 3)));
   (env 10, InSwarm (Some (SeBitswap (BitswapComplete (bid 0) (Ok tt)))))].

Definition after_asking : @Net utc_nanos sim sim_channels sim_protocols sim_swarm_ops :=
  match poll_swarm start asking with Done (Continue st) | Done (Return st) => st | Panic _ => start end.

Definition runs_on (m : outcome (@flow utc_nanos sim sim_channels sim_protocols sim_swarm_ops)) : bool :=
  match m with Done (Continue _) => true | _ => false end.

Lemma after_asking_run :
  runs_on (poll_swarm start asking) = true -> poll_swarm start asking ↓ Continue after_asking.
Proof. unfold after_asking. by destruct (poll_swarm start asking) as [[]|]. Qed.

Lemma query_channels_accounted_witness :
  NoDup (live (queries (backend after_asking)) ++ omap closes (outbox (backend after_asking))) /\
  8 ∈ omap closes (outbox (backend after_asking)).
Proof.
  split.
  - apply (query_channels_accounted fresh kad0 bitswap0 gossip0 broadcast0 swarm0 asking after_asking).
    + apply after_asking_run. vm_compute. reflexivity.
    + refine (bool_decide_eq_true_1 _ _). vm_compute. reflexivity.
  - refine (bool_decide_eq_true_1 _ _). vm_compute. reflexivity.
Defined.

Lemma get_record_quorum_witness :
  outbox (foldl inject_kad_event asked (found (kid 1) <$> (prec <$> [21; 22; 23]%N))) =
    [Replied 11 (RRecords (Ok (prec <$> [21; 22]%N)))].
Proof.
  pose proof (get_record_quorum asked (kid 1) 2 11 (prec <$> [21; 22; 23]%N)) as H.
  apply H; [vm_compute; reflexivity | lia].
Defined.

Lemma providers_answer_witness :
  let st1 := foldl inject_kad_event asked (found_providers (kid 2) <$> [{[bob]}; {[eve]}]) in
  let st2 := inject_kad_event st1
    (OutboundQueryProgressed (kid 2) (QrGetProviders (Ok FinishedWithNoAdditionalProviders)) true) in
  outbox st2 = outbox asked ++ [Replied 12 (RPeers (Ok (⋃ [{[bob]}; {[eve]}])))].
Proof.
  destruct (providers_answer asked (kid 2) 12 [{[bob]}; {[eve]}] "err") as (_ & [_ H] & _).
  - reflexivity.
  - exact H.
Defined.

Lemma sync_stream_witness :
  outbox (inject_bitswap_event
    (foldl inject_bitswap_event asked (BitswapProgress (bid 3) <$> [5; 4])) (BitswapComplete (bid 3) (Ok tt))) =
    [SyncProgress 13 5; SyncProgress 13 4; SyncComplete 13 (Ok tt)].
Proof. apply (sync_stream asked (bid 3) 13 [5; 4] (Ok tt) []). vm_compute. reflexivity. Defined.

Lemma not_bootstrapped_refused_witness :
  provide (backend start) (key 3) 1 = emit (backend start) (Replied 1 (RUnit (Err NotBootstrapped))).
Proof.
  apply (not_bootstrapped_refused (backend start) (key 3) (krec 4) QuorumOne 1). reflexivity.
Defined.

Lemma bootstrap_completes_witness :
  outbox (inject_kad_event asked (OutboundQueryProgressed (kid 4) (QrBootstrap (Ok 0%Z)) true)) =
    [Replied 14 (RUnit (Ok tt))].
Proof.
  destruct (bootstrap_completes asked (kid 4) 14 0 true) as [H _]; [vm_compute; reflexivity|].
  apply H. reflexivity.
Defined.

Lemma notify_subscribers_effect_witness : exists subs',
  subscriptions (notify_subscribers asked "t" (GeSubscribed bob)) =
    <["t" := subs']> (subscriptions asked).
Proof.
  destruct (notify_subscribers_effect asked "t" (GeSubscribed bob) [gossip_chan]) as [_ H].
  - reflexivity.
  - destruct H as (subs' & E & _); [discriminate|]. exists subs'. exact E.
Defined.

Lemma subscribe_receives_witness : exists before tx',
  subscriptions (notify_subscribers (subscribe asked "u" gossip_chan).1 "u" (GeSubscribed bob)) !! "u" =
    Some (before ++ [tx']) /\ queued tx' = [GeSubscribed bob].
Proof.
  destruct (subscribe_receives asked "u" gossip_chan (subscribe asked "u" gossip_chan).1 (GeSubscribed bob))
    as (_ & H & _).
  - reflexivity.
  - reflexivity.
  - exact H.
Defined.

(** A gossipsub that refuses every subscription. *)
Definition refusing : Protocols (L := sim) :=
  {| AnyError := string; Kad := unit; KadQueryId := N; Key := N; KadRecord := N; PeerRecord := N;
     KadErr := string; K_VALUE := 20; kad_add_address := fun k _ _ => k;
     kad_remove_address := fun k _ _ => k; kad_bootstrap := fun k => (k, Err "no");
     kad_start_providing := fun k _ => (k, Err "no"); kad_stop_providing := fun k _ => k;
     kad_get_providers := fun k _ => (k, 0%N); kad_get_record := fun k _ => (k, 0%N);
     kad_put_record := fun k _ _ => (k, Err "no"); kad_remove_record := fun k _ => k;
     kad_finish := fun k _ => k; Bitswap := unit; BitswapQueryId := N; Cid := N;
     bitswap_get := fun b _ _ => (b, 0%N); bitswap_sync := fun b _ _ _ => (b, 0%N);
     bitswap_cancel := fun b _ => b; Gossipsub := unit; topic_hash := fun t => t;
     gossip_subscribe := fun g _ => (g, Err "not allowed"); gossip_unsubscribe := fun g _ => g;
     gossip_publish := fun g _ _ => (g, Ok tt); Broadcast := unit; BTopic := string;
     Topic_new := fun t => t; broadcast_subscribe := fun b _ => b;
     broadcast_unsubscribe := fun b _ => b; broadcast_broadcast := fun b _ _ => b |}.

Lemma refusing_laws : ProtocolLaws (Pr := refusing).
Proof. by split. Qed.

Definition deaf : @Backend utc_nanos sim sim_channels refusing :=
  mkBackend (Pr := refusing) fresh None None (Some tt) None false ∅ ∅ [].

Lemma refused_subscription_sticks_witness : exists st2,
  subscribe (subscribe deaf "t" gossip_chan).1 "t" gossip_chan = (st2, Ok tt).
Proof.
  destruct (refused_subscription_sticks (PL := refusing_laws) deaf "t" gossip_chan gossip_chan
    (subscribe deaf "t" gossip_chan).1 ("not allowed" : @AnyError sim refusing)) as (st2 & E & _).
  - reflexivity.
  - exists st2. exact E.
Defined.

Definition svc (room : nat) : @NetworkService sim sim_channels sim_protocols sim_commands :=
  mkService (keypair_public (me : @Keypair sim)) me "me" (mkCmdChan true room []).

Lemma request_queued_or_refused_witness :
  cmd_queue (svc_cmd (request (svc 1) (CmdDial bob) 4).1) = [CmdDial bob] /\
  exists reason, queued (listen_on (svc 0) bob_4001 listen_chan).2 =
    [LeListenFailed bob_4001 ("cannot send to Swarm: " +:+ reason)].
Proof.
  split.
  - destruct (request_queued_or_refused (svc 1) (CmdDial bob) 4 bob_4001 listen_chan
      (request (svc 1) (CmdDial bob) 4).1 (listen_on (svc 1) bob_4001 listen_chan).1
      (listen_on (svc 1) bob_4001 listen_chan).2 (Awaits 4)) as [[_ H] _]; [reflexivity..|]. exact H.
  - destruct (request_queued_or_refused (svc 0) (CmdDial bob) 4 bob_4001 listen_chan
      (request (svc 0) (CmdDial bob) 4).1 (listen_on (svc 0) bob_4001 listen_chan).1
      (listen_on (svc 0) bob_4001 listen_chan).2 (ReadyErr (Message "channel is full")))
      as [_ [[_ H]|(reason & H & _)]]; [reflexivity..|discriminate H|]. exists reason. exact H.
Defined.

Lemma sync_decision_witness :
  (svc_sync (svc 1) (cid 5) [] [cid 6] 4).2 = SyncReady (Err (BlockNotFound (cid 6))).
Proof.
  apply (sync_decision (svc 1) (cid 5) [] [cid 6] 4 (svc_sync (svc 1) (cid 5) [] [cid 6] 4).1
    (svc_sync (svc 1) (cid 5) [] [cid 6] 4).2). reflexivity.
Defined.

Lemma connections_consistent_witness : is_connected (svc 1) book_connected bob = true.
Proof.
  apply (connections_consistent (svc 1) book_connected bob). right.
  exists bob_57634, (at_ns 11), Inbound.
  apply (connections_consistent (svc 1) book_connected bob).
  exists (entry book_connected bob). split; [apply entry_known; vm_compute; reflexivity|].
  vm_compute. reflexivity.
Defined.

Definition ended : @Receiver sim_receivers (@SyncEvent sim sim_protocols) := mkRx [Progress 3] true.
Definition complete : @Receiver sim_receivers (@SyncEvent sim sim_protocols) :=
  mkRx [Progress 3; Complete (Ok tt)] false.

Lemma sync_query_poll_returns_witness :
  (exists rx' r, Complete (Ok tt) = Complete r /\ sync_query_poll 3 complete = Some (rx', Ready r)) /\
  sync_query_poll 1000 ended = None.
Proof.
  split.
  - apply (proj1 (sync_query_poll_returns complete) 1 (Complete (Ok tt))). reflexivity.
  - apply (proj2 (proj2 (sync_query_poll_returns ended) eq_refl)). reflexivity.
Defined.

Lemma forward_listener_events_exact_witness : exists r',
  forward_listener_events (lid 0) listen_chan
    [Event.NewListenAddr (lid 0) my_4001; Event.NewListenAddr (lid 1) bob_4001; Event.ListenerClosed (lid 0)] = (r', false) /\
  queued r' = [LeNewListenAddr my_4001].
Proof.
  apply (forward_listener_events_exact (lid 0) listen_chan
    [Event.NewListenAddr (lid 0) my_4001; Event.NewListenAddr (lid 1) bob_4001; Event.ListenerClosed (lid 0)]).
  reflexivity.
Defined.
End NetWitness.
