(* ===== verification/NetAnswers.v ===== *)
(** * The life of a bitswap query: from the command to its answer

    Between the command that starts a query and the event that completes it the
    task handles other commands and events, and the swarm is polled.  [waits] is
    any such stretch of the run in which the query is neither completed nor
    cancelled. *)
From S2P Require Import Prelude Time Libp2p PeerInfo AddressHandler Peers PeersInv PeersProps.
From S2P Require Import Protocols Behaviour Net NetInv NetProps.

Section Answers.
Context `{P : Profile} `{C : Chrono} `{L : Libp2p} `{Ch : Channels} `{HO : HashOrder}.
Context `{Pr : !Protocols} `{Sw : !SwarmOps}.

(** The registration of one query is as it was. *)
Definition keeps (id : QueryId) (st st' : Backend) : Prop := queries st' !! id = queries st !! id.

Lemma keeps_trans id st1 st2 st3 : keeps id st1 st2 -> keeps id st2 st3 -> keeps id st1 st3.
Proof. unfold keeps. congruence. Qed.

Lemma quiet_keeps id st st' : quiet_on_queries st st' -> keeps id st st'.
Proof. intros [H _]. unfold keeps. by rewrite H. Qed.

Lemma answer_keeps id st id' f : id' <> id -> keeps id st (answer st id' f).
Proof.
  intros Hne. unfold keeps, answer. destruct (queries st !! id'); [|done]. cbn.
  by rewrite lookup_delete_ne.
Qed.

Lemma register_keeps id st id' ch : id' <> id -> keeps id st (register st id' ch).
Proof.
  intros Hne. unfold keeps, register. by destruct (queries st !! id'); cbn; rewrite lookup_insert_ne.
Qed.

Lemma replace_keeps id st id' ch :
  id' <> id -> keeps id st (with_queries st (<[id' := ch]> (queries st))).
Proof. intros Hne. unfold keeps. cbn. by rewrite lookup_insert_ne. Qed.

(** Kademlia's events and requests are about Kademlia's queries. *)
Lemma kad_event_keeps id st ev : keeps (BitswapId id) st (inject_kad_event st ev).
Proof.
  destruct ev as [kid r last|]; [|done]. cbn [inject_kad_event].
  destruct r as [[]|[]|[]|[]|[]|[]|[]|[]]; try done; try by apply answer_keeps.
  - case_decide; [|done]. by apply (answer_keeps _ (with_bootstrapped st true)).
  - unfold progress_providers. destruct (queries st !! KadId kid) as [[]|]; try done.
    destruct last; [|by apply replace_keeps].
    eapply keeps_trans; [|by apply answer_keeps]. by apply replace_keeps.
  - unfold progress_record. destruct (queries st !! KadId kid) as [[]|]; try done.
    destruct (last || _); [|by apply replace_keeps].
    eapply keeps_trans; [|by apply answer_keeps].
    destruct (kad _); by apply replace_keeps.
Qed.

Ltac request_keeps :=
  repeat (case_match; simplify_eq); try done;
  (eapply keeps_trans; [|by apply register_keeps]); done.

Lemma bootstrap_keeps id st tx : keeps (BitswapId id) st (behaviour_bootstrap st tx).
Proof. unfold behaviour_bootstrap, reject. request_keeps. Qed.
Lemma provide_keeps id st k tx : keeps (BitswapId id) st (provide st k tx).
Proof. unfold provide, reject. request_keeps. Qed.
Lemma providers_keeps id st k tx : keeps (BitswapId id) st (providers st k tx).
Proof. unfold providers, reject. request_keeps. Qed.
Lemma get_record_keeps id st k q tx : keeps (BitswapId id) st (get_record st k q tx).
Proof. unfold get_record, reject. request_keeps. Qed.
Lemma put_record_keeps id st r q tx : keeps (BitswapId id) st (put_record st r q tx).
Proof. unfold put_record, reject. request_keeps. Qed.

(** The inputs that end the query, or that start a query under its id. *)
Definition disturbs (id : BitswapQueryId) (b : Backend) (i : input) : bool :=
  match i with
  | InSwarm (Some (SeBitswap (BitswapComplete j _))) => bool_decide (j = id)
  | InCommand (Some (CancelQuery q)) => bool_decide (q = BitswapId id)
  | InCommand (Some (Get c ps _)) =>
      match bitswap b with Some bs => bool_decide ((bitswap_get bs c ps).2 = id) | None => false end
  | InCommand (Some (Sync c ps ms _)) =>
      match bitswap b with Some bs => bool_decide ((bitswap_sync bs c ps ms).2 = id) | None => false end
  | _ => false
  end.

Lemma swarm_event_keeps id f st ev st' :
  disturbs id (backend st) (InSwarm (Some ev)) = false ->
  handle_swarm_event f st ev ↓ st' -> keeps (BitswapId id) (backend st) (backend st').
Proof.
  destruct ev; cbn; intros Hd E; outcome_inv; cbn; try done.
  - apply kad_event_keeps.
  - apply quiet_keeps. destruct e; cbn in *; outcome_inv; [|done].
    eapply quiet_foldM; [done|]. intros s [n [p a]] s'. apply quiet_add_address.
  - apply quiet_keeps. unfold inject_ping_event in *.
    destruct (ping_result e) as [|[]]; outcome_inv; done.
  - apply quiet_keeps. destruct e; cbn in *; outcome_inv; done.
  - destruct e as [j m|j r]; cbn in *.
    + by destruct (queries (backend st) !! BitswapId j) as [[]|].
    + apply answer_keeps. apply bool_decide_eq_false in Hd. congruence.
  - apply quiet_keeps, quiet_gossip.
  - by eapply quiet_keeps, quiet_broadcast.
Qed.

Lemma command_keeps id f st cmd st' :
  disturbs id (backend st) (InCommand (Some cmd)) = false ->
  handle_command f st cmd ↓ st' -> keeps (BitswapId id) (backend st) (backend st').
Proof.
  destruct cmd; cbn [handle_command disturbs]; intros Hd E; outcome_inv; cbn; try done.
  - destruct (swarm_listen_on _ a) as [s [l|e]]; outcome_inv; done.
  - by eapply quiet_keeps, quiet_add_address.
  - eapply quiet_keeps, quiet_foldM; [done|]. intros s [n [p a]] s'. apply quiet_add_address.
  - apply quiet_keeps. unfold behaviour_remove_address. cbn. by destruct (kad _).
  - eapply keeps_trans; [|apply bootstrap_keeps]. eapply quiet_keeps, quiet_foldM; [done|].
    intros s [n [p a]] s' Es. outcome_inv. eapply quiet_trans; [by eapply quiet_add_address|done].
  - apply providers_keeps.
  - apply provide_keeps.
  - apply quiet_keeps. unfold unprovide. by destruct (kad _).
  - apply get_record_keeps.
  - apply put_record_keeps.
  - apply quiet_keeps. unfold remove_record. by destruct (kad _).
  - pose proof (quiet_subscribe (backend st) topic (gossip_tx f)) as Hq.
    destruct (subscribe _ _ _). outcome_inv. by apply quiet_keeps.
  - pose proof (quiet_publish (backend st) topic msg) as Hq.
    destruct (publish _ _ _). outcome_inv. by apply quiet_keeps.
  - pose proof (quiet_broadcast_message (backend st) topic msg) as Hq.
    destruct (broadcast_message _ _ _). outcome_inv. by apply quiet_keeps.
  - destruct x as [b q]. outcome_inv. cbn. unfold get in *. outcome_inv.
    destruct (bitswap (backend st)) as [bs|]; [|done]. cbn in *. simplify_eq.
    destruct (bitswap_get _ _ _) as [bs' j]. apply bool_decide_eq_false in Hd. outcome_inv. simplify_eq.
    eapply keeps_trans; [|apply register_keeps; cbn in Hd; congruence]. done.
  - destruct x as [b q]. outcome_inv. cbn. unfold sync in *. outcome_inv.
    destruct (bitswap (backend st)) as [bs|]; [|done]. cbn in *. simplify_eq.
    destruct (bitswap_sync _ _ _ _) as [bs' j]. apply bool_decide_eq_false in Hd. outcome_inv. simplify_eq.
    eapply keeps_trans; [|apply register_keeps; cbn in Hd; congruence]. done.
  - apply bool_decide_eq_false in Hd.
    eapply keeps_trans; [by apply (answer_keeps _ (backend st) id0 (fun _ => None))|].
    unfold cancel in *. destruct id0; outcome_inv; done.
Qed.

(** What polling the swarm can change: the address book and the protocols. *)
Definition swarm_polled (b b' : Backend) : Prop :=
  queries b' = queries b /\ outbox b' = outbox b /\ subscriptions b' = subscriptions b /\
  bootstrapped b' = bootstrapped b /\ (is_Some (bitswap b') <-> is_Some (bitswap b)).

Inductive waits (id : BitswapQueryId) : Net -> Net -> Prop :=
| waits_refl st : waits id st st
| waits_input f i st st1 st2 :
    disturbs id (backend st) i = false -> poll_swarm_step f st i ↓ Continue st1 ->
    waits id st1 st2 -> waits id st st2
| waits_swarm st b st2 :
    swarm_polled (backend st) b -> waits id (with_backend st b) st2 -> waits id st st2.

Lemma step_keeps id f st i st' :
  disturbs id (backend st) i = false -> poll_swarm_step f st i ↓ Continue st' ->
  keeps (BitswapId id) (backend st) (backend st').
Proof.
  destruct i as [[ev|]|[cmd|]]; cbn [poll_swarm_step]; intros Hd E; outcome_inv; simplify_eq.
  - by eapply swarm_event_keeps.
  - by eapply command_keeps.
Qed.

Lemma waits_keeps id st st' :
  waits id st st' -> keeps (BitswapId id) (backend st) (backend st').
Proof.
  induction 1 as [|f i st st1 st2 Hd E _ IH|st b st2 [Hq _] _ IH]; [done| |].
  - eapply keeps_trans; [by eapply step_keeps|done].
  - eapply keeps_trans; [|exact IH]. unfold keeps. cbn. by rewrite Hq.
Qed.

(** C7: a get query runs from its command to its answer.  The command is answered
    at once with the id of the query and the channel of its result.  Whatever the
    task handles and however the swarm is polled in between, the completion of
    that query is then sent on that channel, once; and if the caller drops the
    query instead, the channel is dropped and bitswap is told to stop. *)
Theorem get_answered st f bs cid ps tx :
  bitswap (backend st) = Some bs ->
  let id := (bitswap_get bs cid ps).2 in
  exists st1,
    poll_swarm_step f st (InCommand (Some (Get cid ps tx))) ↓ Continue st1 /\
    net_replies st1 = net_replies st ++ [(tx, NrGetQuery (BitswapId id) (query_tx f))] /\
    forall st2, waits id st1 st2 ->
      (forall f' r, exists st3,
         poll_swarm_step f' st2 (InSwarm (Some (SeBitswap (BitswapComplete id r)))) ↓ Continue st3 /\
         outbox (backend st3) = outbox (backend st2) ++
           [Replied (query_tx f) (RUnit (err_map Datatypes.id OtherError r))] /\
         queries (backend st3) = delete (BitswapId id) (queries (backend st2))) /\
      (forall f' bs', bitswap (backend st2) = Some bs' -> exists st3,
         poll_swarm_step f' st2 (InCommand (Some (CancelQuery (BitswapId id)))) ↓ Continue st3 /\
         outbox (backend st3) = outbox (backend st2) ++ [Dropped (query_tx f)] /\
         queries (backend st3) = delete (BitswapId id) (queries (backend st2)) /\
         bitswap (backend st3) = Some (bitswap_cancel bs' id)).
Proof.
  intros Hb id. cbn [poll_swarm_step handle_command]. unfold get. rewrite Hb. cbn.
  subst id. destruct (bitswap_get bs cid ps) as [bs1 id] eqn:Eg. cbn.
  eexists. split; [done|]. split; [done|]. intros st2 Hw%waits_keeps.
  assert (Hq : queries (backend st2) !! BitswapId id = Some (ChGet (query_tx f))).
  { rewrite Hw. cbn. unfold register. by destruct (queries _ !! _); cbn; rewrite lookup_insert_eq. }
  split.
  - intros f' r. eexists. split; [done|]. cbn. unfold answer. by rewrite Hq.
  - intros f' bs' Hbs. unfold cancel, answer. rewrite Hq. cbn. rewrite Hbs. cbn.
    eexists. by split; [done|].
Qed.
End Answers.

Section AnswersWitness.
Import NetDemo.

Definition idle : @Bitswap sim sim_protocols := mkBitswap 0 [].

(** The state after a step that goes on. *)
Definition sim_flow := outcome (@flow utc_nanos sim sim_channels sim_protocols sim_swarm_ops).
Definition goes_on (m : sim_flow) : bool := match m with Done (Continue _) => true | _ => false end.
Definition next (m : sim_flow) : @Net utc_nanos sim sim_channels sim_protocols sim_swarm_ops :=
  match m with Done (Continue st) => st | _ => start end.

Lemma goes_on_next m : goes_on m = true -> m ↓ Continue (next m).
Proof. by destruct m as [[]|]. Qed.

Definition asked_get := next (poll_swarm_step (env 7) start (InCommand (Some (Get (cid 5) [bob] 1)))).
Definition subscribed := next (poll_swarm_step (env 8) asked_get (InCommand (Some (Subscribe "t" 2)))).

(** A subscription is handled while the query runs. *)
Lemma get_answered_witness : exists st3,
  poll_swarm_step (env 9) subscribed (InSwarm (Some (SeBitswap (BitswapComplete (bid 0) (Ok tt))))) ↓
    Continue st3 /\
  outbox (backend st3) = outbox (backend subscribed) ++ [Replied 7 (RUnit (Ok tt))].
Proof.
  destruct (get_answered start (env 7) idle (cid 5) [bob] 1 eq_refl) as (st1 & E1 & _ & H).
  assert (Hs : st1 = asked_get) by (unfold asked_get; by rewrite E1).
  destruct (H subscribed) as [Hc _].
  { rewrite Hs. apply (waits_input _ (env 8) (InCommand (Some (Subscribe "t" 2))) _ subscribed);
      [reflexivity| |apply waits_refl].
    apply goes_on_next. vm_compute. reflexivity. }
  destruct (Hc (env 9) (Ok tt)) as (st3 & E3 & Ho & _). exists st3. split; [exact E3|exact Ho].
Defined.
End AnswersWitness.
