(* ===== verification/Config.v ===== *)
(** * Configuration and start-up of the network (src/net/config.rs,
      [NetworkBackendBehaviour::new], [NetworkService::new])

    The configurations and constructors of the protocol libraries, the transports
    and the swarm builder are the class [Builders].  The store that bitswap serves
    is captured by its constructor. *)
From S2P Require Import Prelude Time Libp2p PeerInfo AddressHandler Peers Protocols Behaviour Net.
From S2P Require Import Service PeersInv NetInv NetProps.

(** What the program sets of [identify::Config]; the rest are [O]. *)
Record IdentifyConfig (K O : Type) := mkIdentifyConfig {
  ic_protocol_version : string;
  ic_local_public_key : K;
  ic_agent_version : string;
  ic_options : O
}.
Arguments mkIdentifyConfig {_ _} _ _ _ _.
Arguments ic_protocol_version {_ _} _.
Arguments ic_local_public_key {_ _} _.
Arguments ic_agent_version {_ _} _.
Arguments ic_options {_ _} _.

Class Builders `{L : Libp2p} `{Pr : !Protocols} `{Sw : !SwarmOps} := {
  MdnsConfig : Type;
  KadConfig : Type;
  PingConfig : Type;
  IdentifyOptions : Type;
  GossipsubConfig : Type;
  BroadcastConfig : Type;
  BitswapConfig : Type;
  MdnsConfig_default : MdnsConfig;
  KadConfig_default : KadConfig;
  GossipsubConfig_default : GossipsubConfig;
  BroadcastConfig_default : BroadcastConfig;
  BitswapConfig_default : BitswapConfig;
  IdentifyConfig_new : string -> PublicKey -> IdentifyConfig PublicKey IdentifyOptions;
  (* the behaviours that have no state in [Backend] *)
  Mdns : Type;
  Ping : Type;
  Identify : Type;
  Mdns_new : MdnsConfig -> PeerId -> result Mdns AnyError;
  Kademlia_new : PeerId -> KadConfig -> Kad;
  Ping_new : PingConfig -> Ping;
  Identify_new : IdentifyConfig PublicKey IdentifyOptions -> Identify;
  Gossipsub_new : Keypair -> GossipsubConfig -> result Gossipsub AnyError;
  Broadcast_new : BroadcastConfig -> Broadcast;
  Bitswap_new : BitswapConfig -> Bitswap;
  (* transports and the swarm *)
  ResolverConfig : Type;
  ResolverOpts : Type;
  Transport : Type;
  read_system_conf : result (ResolverConfig * ResolverOpts) AnyError;
  tcp_transport : bool -> option (list Z) -> Keypair -> Transport;
  Dns_custom : Transport -> ResolverConfig -> ResolverOpts -> result Transport AnyError;
  Dns_system : Transport -> result Transport AnyError;
  build_swarm : Transport -> PeerId -> Swarm
}.

Section Config.
Context `{P : Profile} `{C : Chrono} `{L : Libp2p} `{Ch : Channels} `{HO : HashOrder}.
Context `{Pr : !Protocols} `{Sw : !SwarmOps} `{CC : !CommandChannel} `{Bu : !Builders}.

(** ** [NetworkConfig] *)

Inductive DnsConfig :=
| Custom (config : ResolverConfig) (opts : ResolverOpts)
| SystemWithFallback (config : ResolverConfig) (opts : ResolverOpts).

Record NetworkConfig := mkNetworkConfig {
  nc_enable_loopback : bool;
  nc_port_reuse : bool;
  nc_node_name : string;
  nc_node_key : Keypair;
  nc_psk : option (list Z);
  nc_dns : option DnsConfig;
  nc_mdns : option MdnsConfig;
  nc_kad : option KadConfig;
  nc_ping : option PingConfig;
  nc_identify : option (IdentifyConfig PublicKey IdentifyOptions);
  nc_gossipsub : option GossipsubConfig;
  nc_broadcast : option BroadcastConfig;
  nc_bitswap : option BitswapConfig;
  nc_keep_alive : bool
}.

(** [name] is the name the generator makes up. *)
Definition NetworkConfig_new (name : string) (node_key : Keypair) : NetworkConfig :=
  let identify := IdentifyConfig_new "/ipfs-embed/1.0" (keypair_public node_key) in
  mkNetworkConfig true true name node_key None None (Some MdnsConfig_default) (Some KadConfig_default)
    None (Some identify) (Some GossipsubConfig_default) (Some BroadcastConfig_default)
    (Some BitswapConfig_default) false.

(** ** [NetworkBackendBehaviour::new] *)

Record Behaviour := mkBehaviour {
  beh_backend : Backend;
  beh_mdns : option Mdns;
  beh_ping : option Ping;
  beh_identify : option Identify
}.

(** [if let Some(config) = config { Some(f(config)?) } else { None }]. *)
Definition build {A B} (c : option A) (f : A -> result B AnyError) : result (option B) AnyError :=
  match c with Some c => b ←? f c; Ok (Some b) | None => Ok None end.

(** The configuration of the protocols is taken out. *)
Definition take_protocols (c : NetworkConfig) : NetworkConfig :=
  mkNetworkConfig (nc_enable_loopback c) (nc_port_reuse c) (nc_node_name c) (nc_node_key c) (nc_psk c)
    (nc_dns c) None None None None None None None (nc_keep_alive c).

Definition behaviour_new (config : NetworkConfig) : result (NetworkConfig * Behaviour) AnyError :=
  let node_key := nc_node_key config in
  let node_name := nc_node_name config in
  let peer_id := public_to_peer (keypair_public node_key) in
  mdns ←? build (nc_mdns config) (fun c => Mdns_new c peer_id);
  let kad := Kademlia_new peer_id <$> nc_kad config in
  let ping := Ping_new <$> nc_ping config in
  let identify :=
    (fun c => Identify_new (mkIdentifyConfig (ic_protocol_version c) (keypair_public node_key)
                              node_name (ic_options c))) <$> nc_identify config in
  gossipsub ←? build (nc_gossipsub config) (Gossipsub_new node_key);
  let broadcast := Broadcast_new <$> nc_broadcast config in
  let bitswap := Bitswap_new <$> nc_bitswap config in
  let book := new peer_id (nc_port_reuse config) (nc_enable_loopback config) (nc_keep_alive config) in
  Ok (take_protocols config,
      mkBehaviour (mkBackend book kad bitswap gossipsub broadcast false ∅ ∅ []) mdns ping identify).

(** ** [NetworkService::new] *)

Definition dns_transport (dns : option DnsConfig) (tcp : Transport) : result Transport AnyError :=
  match dns with
  | Some (Custom config opts) => Dns_custom tcp config opts
  | Some (SystemWithFallback config opts) =>
      match read_system_conf with
      | Ok (config, opts) => Dns_custom tcp config opts
      | Err _ => Dns_custom tcp config opts
      end
  | None => Dns_system tcp
  end.

(** The handle, the behaviours without state in the model, and the state the task
    [poll_swarm] starts in. *)
Definition service_new (config : NetworkConfig) :
    result (NetworkService * Behaviour * Net) AnyError :=
  let public_key := keypair_public (nc_node_key config) in
  let peer_id := public_to_peer public_key in
  let node_name := nc_node_name config in
  '(config, behaviour) ←? behaviour_new config;
  let tcp := tcp_transport (nc_port_reuse config) (nc_psk config) (nc_node_key config) in
  transport ←? dns_transport (nc_dns config) tcp;
  let swarm := build_swarm transport peer_id in
  Ok (mkService public_key peer_id node_name (channel 100), behaviour,
      mkNet (beh_backend behaviour) swarm [] [] []).

(** ** Properties *)
Context {LL : Libp2pLaws} {HL : HashOrderLaws} {CL : CommandChannelLaws}.

Lemma build_ok {A B} (c : option A) (f : A -> result B AnyError) o :
  build c f = Ok o -> is_Some o <-> is_Some c.
Proof.
  destruct c as [c|]; cbn; [|by intros [= <-]]. destruct (f c); [|done]. intros [= <-].
  split; eauto.
Qed.

(** What a start that succeeds has set up. *)
Definition started_as (B : Z) (config : NetworkConfig) (svc : NetworkService) (beh : Behaviour)
    (net : Net) : Prop :=
  let key := keypair_public (nc_node_key config) in
  net_reachable B net /\
  svc_peer_id svc = public_to_peer key /\ local_peer_id (book (backend net)) = svc_peer_id svc /\
  svc_node_name svc = nc_node_name config /\ cmd_queue (svc_cmd svc) = [] /\
  (is_Some (kad (backend net)) <-> is_Some (nc_kad config)) /\
  (is_Some (bitswap (backend net)) <-> is_Some (nc_bitswap config)) /\
  (is_Some (gossipsub (backend net)) <-> is_Some (nc_gossipsub config)) /\
  (is_Some (broadcast (backend net)) <-> is_Some (nc_broadcast config)) /\
  (is_Some (beh_mdns beh) <-> is_Some (nc_mdns config)) /\
  (is_Some (beh_ping beh) <-> is_Some (nc_ping config)) /\
  beh_identify beh =
    (fun c => Identify_new (mkIdentifyConfig (ic_protocol_version c) key (nc_node_name config)
                              (ic_options c))) <$> nc_identify config.

Lemma service_new_ok (B : Z) config svc beh net :
  service_new config = Ok (svc, beh, net) -> started_as B config svc beh net.
Proof.
  unfold service_new, behaviour_new. cbn zeta.
  destruct (build (nc_mdns config) _) as [mdns|e] eqn:Em; cbn; [|done].
  destruct (build (nc_gossipsub config) _) as [gossip|e] eqn:Eg; cbn; [|done].
  destruct (dns_transport _ _) as [t|e]; cbn; [|done]. intros [= <- <- <-].
  split; [apply nr_init|]. apply build_ok in Em, Eg. cbn.
  rewrite channel_empty, !fmap_is_Some. done.
Qed.

(** Starting the network.  If it succeeds, the task is in an initial state of
    the transition system for which the invariants are proved; handle and address
    book have the peer id of the configured key; exactly the configured protocols
    run; and peers are told the configured node name and key, whatever the
    identify configuration says ([started_as]).  It fails exactly with the first
    error of mDNS, of gossipsub or of the DNS transport, in this order. *)
Theorem service_new_correct (B : Z) config :
  let key := keypair_public (nc_node_key config) in
  let tcp := tcp_transport (nc_port_reuse config) (nc_psk config) (nc_node_key config) in
  (forall svc beh net, service_new config = Ok (svc, beh, net) -> started_as B config svc beh net) /\
  (forall e, service_new config = Err e <->
     (_ ←? build (nc_mdns config) (fun c => Mdns_new c (public_to_peer key));
      _ ←? build (nc_gossipsub config) (Gossipsub_new (nc_node_key config));
      _ ←? dns_transport (nc_dns config) tcp; Ok tt) = Err e).
Proof.
  intros key tcp. split; [intros; by apply service_new_ok|]. intros e.
  unfold service_new, behaviour_new. fold key. cbn zeta.
  destruct (build (nc_mdns config) _); cbn; [|split; by intros [= ->]].
  destruct (build (nc_gossipsub config) _); cbn; [|split; by intros [= ->]].
  fold tcp. destruct (dns_transport _ _); cbn; split; by intros [= ->].
Qed.
End Config.

(** ** A concrete instance *)
Module SimConfig.
Export NetDemo.

#[export] Instance sim_builders : Builders (L := sim) (Pr := sim_protocols) (Sw := sim_swarm_ops) | 100 := {|
  MdnsConfig := unit;
  KadConfig := unit;
  PingConfig := unit;
  IdentifyOptions := unit;
  GossipsubConfig := unit;
  BroadcastConfig := unit;
  BitswapConfig := unit;
  MdnsConfig_default := tt;
  KadConfig_default := tt;
  GossipsubConfig_default := tt;
  BroadcastConfig_default := tt;
  BitswapConfig_default := tt;
  IdentifyConfig_new := fun v k => mkIdentifyConfig v k "rust-libp2p" tt;
  Mdns := N;
  Ping := unit;
  Identify := string * N;
  Mdns_new := fun _ p => Ok p;
  Kademlia_new := fun _ _ => mkKad 0 [] [];
  Ping_new := fun c => c;
  Identify_new := fun c => (ic_agent_version c, ic_local_public_key c);
  Gossipsub_new := fun _ _ => Ok [];
  Broadcast_new := fun _ => [];
  Bitswap_new := fun _ => mkBitswap 0 [];
  ResolverConfig := unit;
  ResolverOpts := unit;
  Transport := bool;
  read_system_conf := Err "no resolv.conf";
  tcp_transport := fun port_reuse _ _ => port_reuse;
  Dns_custom := fun t _ _ => Ok t;
  Dns_system := fun _ => Err "no resolv.conf";
  build_swarm := fun _ _ => mkSimSwarm 0 []
|}.

Definition my_key : @Keypair sim := 1%N.
Definition default_config : @NetworkConfig sim sim_protocols sim_swarm_ops sim_builders :=
  NetworkConfig_new "hungry-hippo-1234" my_key.

(** The same with a fallback for the missing resolver configuration. *)
Definition fallback_config : @NetworkConfig sim sim_protocols sim_swarm_ops sim_builders :=
  mkNetworkConfig true true "hungry-hippo-1234" my_key None
    (Some (SystemWithFallback (tt : @ResolverConfig sim sim_protocols sim_swarm_ops sim_builders)
                              (tt : @ResolverOpts sim sim_protocols sim_swarm_ops sim_builders)))
    (nc_mdns default_config) (nc_kad default_config) (nc_ping default_config)
    (nc_identify default_config) (nc_gossipsub default_config) (nc_broadcast default_config)
    (nc_bitswap default_config) false.

Definition started := service_new fallback_config.
End SimConfig.

Section ConfigWitness.
Import SimConfig.

(** The task starts with bitswap enabled. *)
Lemma service_new_correct_witness : exists svc beh net,
  started = Ok (svc, beh, net) /\ started_as 0 fallback_config svc beh net.
Proof.
  destruct started as [[[svc beh] net]|e] eqn:E.
  - exists svc, beh, net. split; [reflexivity|]. apply (service_new_correct 0 fallback_config). exact E.
  - discriminate E.
Defined.
End ConfigWitness.
