(* ===== verification/Cli.v ===== *)
(** * The line protocol of the command line tool (cli/src/lib.rs)

    The tests of the repository drive a node over its standard input and output,
    with one [Command] or [Event] per line.  A Rust string is the list of its
    characters (Unicode scalar values); parsing may panic (an [unwrap] on a
    missing word), fail, or succeed.  The texts of peer ids, addresses and CIDs,
    block validation and JSON are libraries: the class [CliText]. *)
From S2P Require Import Prelude Time Libp2p PeerInfo Protocols.

(** ** Text *)

Definition Text := list Z.

Definition txt (s : string) : Text :=
  (fun c => Z.of_N (Ascii.N_of_ascii c)) <$> String.list_ascii_of_string s.

(** [char::is_whitespace]: the characters with the Unicode property White_Space. *)
Definition is_whitespace (c : Z) : bool :=
  in_range 9 13 c || Z.eqb c 32 || Z.eqb c 133 || Z.eqb c 160 || Z.eqb c 5760 ||
  in_range 8192 8202 c || Z.eqb c 8232 || Z.eqb c 8233 || Z.eqb c 8239 || Z.eqb c 8287 || Z.eqb c 12288.

Definition space : Z := 32.

(** [str::split_whitespace], with the word read so far. *)
Fixpoint split_ws (cur l : Text) : list Text :=
  match l with
  | [] => if decide (cur = []) then [] else [cur]
  | c :: l =>
      if is_whitespace c
      then (if decide (cur = []) then [] else [cur]) ++ split_ws [] l
      else split_ws (cur ++ [c]) l
  end.

Definition split_whitespace (l : Text) : list Text := split_ws [] l.

(** [parts.collect::<Vec<_>>().join(" ")]. *)
Fixpoint join_words (ws : list Text) : Text :=
  match ws with
  | [] => []
  | [w] => w
  | w :: ws => w ++ space :: join_words ws
  end.

(** ** Hexadecimal data *)

Definition hex_digit (n : Z) : Z := if decide (n < 10)%Z then (48 + n)%Z else (87 + n)%Z.

(** [format!("{:02x}", byte)]. *)
Definition hex_byte (b : Z) : Text := [hex_digit (Z.div b 16); hex_digit (Z.modulo b 16)].

Definition hex_encode (data : bytes) : Text := mjoin (hex_byte <$> data).

Definition digit_value (c : Z) : option Z :=
  if in_range 48 57 c then Some (c - 48)%Z
  else if in_range 97 102 c then Some (c - 87)%Z
  else if in_range 65 70 c then Some (c - 55)%Z
  else None.

Fixpoint digits_value (acc : Z) (l : bytes) : option Z :=
  match l with
  | [] => Some acc
  | c :: l => d ← digit_value c; digits_value (acc * 16 + d) l
  end.

(** [u8::from_str_radix(s, 16)] on at most two bytes, so that the value cannot
    overflow: a leading [+] is skipped if something follows it. *)
Definition u8_from_hex (s : bytes) : option Z :=
  match s with
  | [] => None
  | 43%Z :: ((_ :: _) as r) => digits_value 0 r
  | _ => digits_value 0 s
  end.

(** The UTF-8 bytes of a string. *)
Definition utf8_char (c : Z) : bytes :=
  if decide (c < 128)%Z then [c]
  else if decide (c < 2048)%Z then [192 + Z.div c 64; 128 + Z.modulo c 64]%Z
  else if decide (c < 65536)%Z then
    [224 + Z.div c 4096; 128 + Z.modulo (Z.div c 64) 64; 128 + Z.modulo c 64]%Z
  else
    [240 + Z.div c 262144; 128 + Z.modulo (Z.div c 4096) 64; 128 + Z.modulo (Z.div c 64) 64;
     128 + Z.modulo c 64]%Z.

Definition as_bytes (t : Text) : bytes := mjoin (utf8_char <$> t).

(** [for chunk in bytes.chunks(2)]: the bytes of the data, or an error. *)
Fixpoint decode_chunks (l : bytes) : option bytes :=
  let one chunk := (if utf8_valid chunk then u8_from_hex chunk else None) in
  match l with
  | [] => Some []
  | [a] => x ← one [a]; Some [x]
  | a :: b :: l => x ← one [a; b]; xs ← decode_chunks l; Some (x :: xs)
  end.

(** ** The libraries *)

(** [serde] sees these fields of a [PeerInfoIo]. *)
Record PeerInfoIo `{L : Libp2p} := mkPeerInfoIo {
  io_protocol_version : option string;
  io_agent_version : option string;
  io_protocols : list string;
  io_listeners : list Multiaddr;
  io_addresses : gmap Multiaddr string;
  io_connections : list Multiaddr;
  io_failures : list string
}.

Class CliText `{L : Libp2p} `{Pr : !Protocols} := {
  Block : Type;
  block_cid : Block -> Cid;
  block_data : Block -> bytes;
  block_new : Cid -> bytes -> option Block;
  show_peer : PeerId -> Text;
  read_peer : Text -> option PeerId;
  show_addr : Multiaddr -> Text;
  read_addr : Text -> option Multiaddr;
  show_cid : Cid -> Text;
  read_cid : Text -> option Cid;
  to_json : PeerInfoIo -> Text;
  from_json : Text -> option PeerInfoIo
}.

(** A text that is read as one word. *)
Definition word (w : Text) : Prop := w <> [] /\ Forall (fun c => is_whitespace c = false) w.

#[export] Instance word_dec w : Decision (word w) := ltac:(unfold word; apply _).

Class CliTextLaws `{T : CliText} : Prop := {
  read_show_peer p : read_peer (show_peer p) = Some p;
  read_show_addr a : read_addr (show_addr a) = Some a;
  read_show_cid c : read_cid (show_cid c) = Some c;
  show_peer_word p : word (show_peer p);
  show_addr_word a : iter a <> [] -> word (show_addr a);
  show_addr_slash a : iter a <> [] -> head (show_addr a) = Some 47%Z;
  show_addr_empty a : iter a = [] -> show_addr a = [];   (* an address without components prints as nothing *)
  show_cid_word c : word (show_cid c);
  from_to_json i : from_json (to_json i) = Some i;
  block_new_data b : block_new (block_cid b) (block_data b) = Some b;
  block_bytes b : Forall (fun x => 0 <= x < 256)%Z (block_data b)
}.

(** ** Commands and events *)
Module CliCommand.
Section CliCommand.
Context `{T : CliText}.

Inductive t :=
| AddAddress (p : PeerId) (a : Multiaddr)
| Dial (p : PeerId)
| PrunePeers
| Get (c : Cid)
| Insert (b : Block)
| Alias (alias : Text) (c : option Cid)
| Flush
| Sync (c : Cid).
End CliCommand.
End CliCommand.

Module CliEvent.
Section CliEvent.
Context `{T : CliText}.

Inductive t :=
| NewListener
| NewListenAddr (a : Multiaddr)
| ExpiredListenAddr (a : Multiaddr)
| ListenerClosed
| NewExternalAddr (a : Multiaddr)
| ExpiredExternalAddr (a : Multiaddr)
| Discovered (p : PeerId)
| Unreachable (p : PeerId)
| Connected (p : PeerId)
| Disconnected (p : PeerId)
| Subscribed (p : PeerId) (topic : Text)
| Unsubscribed (p : PeerId) (topic : Text)
| BlockEvent (b : Block)
| Flushed
| Synced
| Bootstrapped
| PeerInfoEvent (p : PeerId) (i : PeerInfoIo)
| PeerRemoved (p : PeerId)
| DialFailure (p : PeerId) (a : Multiaddr) (e : Text)
| ConnectionEstablished (p : PeerId) (a : Multiaddr)
| ConnectionClosed (p : PeerId) (a : Multiaddr).
End CliEvent.
End CliEvent.

Inductive ParseError := BadWord | InvalidData | InvalidLine.

Section Cli.
Context `{P : Profile} `{C : Chrono} `{T : CliText}.

(** *** Printing *)

Definition show_command (c : CliCommand.t) : Text :=
  match c with
  | CliCommand.AddAddress p a => txt ">add-address " ++ show_peer p ++ txt " " ++ show_addr a
  | CliCommand.Dial p => txt ">dial " ++ show_peer p
  | CliCommand.PrunePeers => txt ">prune-peers"
  | CliCommand.Get c => txt ">get " ++ show_cid c
  | CliCommand.Insert b => txt ">insert " ++ show_cid (block_cid b) ++ txt " " ++ hex_encode (block_data b)
  | CliCommand.Alias alias c =>
      txt ">alias " ++ alias ++ match c with Some c => txt " " ++ show_cid c | None => [] end
  | CliCommand.Flush => txt ">flush"
  | CliCommand.Sync c => txt ">sync " ++ show_cid c
  end.

Definition show_event (e : CliEvent.t) : Text :=
  match e with
  | CliEvent.NewListener => txt "<new-listener"
  | CliEvent.NewListenAddr a => txt "<new-listen-addr " ++ show_addr a
  | CliEvent.ExpiredListenAddr a => txt "<expired-listen-addr " ++ show_addr a
  | CliEvent.ListenerClosed => txt "<listener-closed"
  | CliEvent.NewExternalAddr a => txt "<new-external-addr " ++ show_addr a
  | CliEvent.ExpiredExternalAddr a => txt "<expired-external-addr " ++ show_addr a
  | CliEvent.Discovered p => txt "<discovered " ++ show_peer p
  | CliEvent.Unreachable p => txt "<unreachable " ++ show_peer p
  | CliEvent.Connected p => txt "<connected " ++ show_peer p
  | CliEvent.Disconnected p => txt "<disconnected " ++ show_peer p
  | CliEvent.Subscribed p topic => txt "<subscribed " ++ show_peer p ++ txt " " ++ topic
  | CliEvent.Unsubscribed p topic => txt "<unsubscribed " ++ show_peer p ++ txt " " ++ topic
  | CliEvent.BlockEvent b => txt "<block " ++ show_cid (block_cid b) ++ txt " " ++ hex_encode (block_data b)
  | CliEvent.Flushed => txt "<flushed"
  | CliEvent.Synced => txt "<synced"
  | CliEvent.Bootstrapped => txt "<bootstrapped"
  | CliEvent.PeerInfoEvent p i => txt "<peer-info " ++ show_peer p ++ txt " " ++ to_json i
  | CliEvent.PeerRemoved p => txt "<peer-removed " ++ show_peer p
  | CliEvent.DialFailure p a e =>
      txt "<dial-failure " ++ show_peer p ++ txt " " ++ show_addr a ++ txt " " ++ e
  | CliEvent.ConnectionEstablished p a =>
      txt "<connection-established " ++ show_peer p ++ txt " " ++ show_addr a
  | CliEvent.ConnectionClosed p a =>
      txt "<connection-closed " ++ show_peer p ++ txt " " ++ show_addr a
  end.

(** *** Parsing: [parts.next().unwrap()] and [.parse()?] *)

Definition parse_result (A : Type) : Type := outcome (result A ParseError).

(** The next word, handed on with the words after it. *)
Definition next_word {A} (parts : list Text) (f : Text -> list Text -> parse_result A) : parse_result A :=
  match parts with
  | w :: parts => f w parts
  | [] => Panic "called `Option::unwrap()` on a `None` value"
  end.

(** The next word, parsed. *)
Definition next_parse {A B} (read : Text -> option B) (parts : list Text)
    (f : B -> list Text -> parse_result A) : parse_result A :=
  next_word parts (fun w parts =>
    match read w with Some b => f b parts | None => mret (Err BadWord) end).

Definition next_block {A} (parts : list Text) (f : Block -> parse_result A) : parse_result A :=
  next_parse read_cid parts (fun cid parts =>
    next_word parts (fun str_data _ =>
      match decode_chunks (as_bytes str_data) with
      | Some data =>
          match block_new cid data with Some b => f b | None => mret (Err InvalidData) end
      | None => mret (Err InvalidData)
      end)).

Definition ok {A} (a : A) : parse_result A := mret (Ok a).

(** [match parts.next()] on the first word: the arm of the first keyword that is
    equal to it. *)
Definition by_keyword {A} (parts : list Text) (arms : list (string * (list Text -> parse_result A))) :
    parse_result A :=
  match parts with
  | [] => mret (Err InvalidLine)
  | w :: parts =>
      match (i ← list_find (fun k => txt k = w) arms.*1; arms !! i.1) with
      | Some (_, arm) => arm parts
      | None => mret (Err InvalidLine)
      end
  end.

Definition parse_command (s : Text) : parse_result CliCommand.t :=
  by_keyword (split_whitespace s)
    [(">add-address", fun ps =>
        next_parse read_peer ps (fun peer ps =>
          next_parse read_addr ps (fun addr _ => ok (CliCommand.AddAddress peer addr))));
     (">dial", fun ps => next_parse read_peer ps (fun peer _ => ok (CliCommand.Dial peer)));
     (">prune-peers", fun _ => ok CliCommand.PrunePeers);
     (">get", fun ps => next_parse read_cid ps (fun cid _ => ok (CliCommand.Get cid)));
     (">insert", fun ps => next_block ps (fun b => ok (CliCommand.Insert b)));
     (">alias", fun ps =>
        next_word ps (fun alias ps =>
          match ps with
          | [] => ok (CliCommand.Alias alias None)
          | w :: _ =>
              match read_cid w with
              | Some cid => ok (CliCommand.Alias alias (Some cid))
              | None => mret (Err BadWord)
              end
          end));
     (">flush", fun _ => ok CliCommand.Flush);
     (">sync", fun ps => next_parse read_cid ps (fun cid _ => ok (CliCommand.Sync cid)))].

Definition parse_event (s : Text) : parse_result CliEvent.t :=
  let addr1 f := (fun ps => next_parse read_addr ps (fun a _ => ok (f a))) in
  let peer1 f := (fun ps => next_parse read_peer ps (fun p _ => ok (f p))) in
  let peer_addr f := (fun ps =>
    next_parse read_peer ps (fun p ps => next_parse read_addr ps (fun a _ => ok (f p a)))) in
  let peer_word f := (fun ps =>
    next_parse read_peer ps (fun p ps => next_word ps (fun t _ => ok (f p t)))) in
  by_keyword (split_whitespace s)
    [("<new-listener", fun _ => ok CliEvent.NewListener);
     ("<new-listen-addr", addr1 CliEvent.NewListenAddr);
     ("<expired-listen-addr", addr1 CliEvent.ExpiredListenAddr);
     ("<listener-closed", fun _ => ok CliEvent.ListenerClosed);
     ("<new-external-addr", addr1 CliEvent.NewExternalAddr);
     ("<expired-external-addr", addr1 CliEvent.ExpiredExternalAddr);
     ("<discovered", peer1 CliEvent.Discovered);
     ("<unreachable", peer1 CliEvent.Unreachable);
     ("<connected", peer1 CliEvent.Connected);
     ("<disconnected", peer1 CliEvent.Disconnected);
     ("<subscribed", peer_word CliEvent.Subscribed);
     ("<unsubscribed", peer_word CliEvent.Unsubscribed);
     ("<block", fun ps => next_block ps (fun b => ok (CliEvent.BlockEvent b)));
     ("<flushed", fun _ => ok CliEvent.Flushed);
     ("<synced", fun _ => ok CliEvent.Synced);
     ("<bootstrapped", fun _ => ok CliEvent.Bootstrapped);
     ("<peer-info", fun ps =>
        next_parse read_peer ps (fun p ps =>
          match from_json (join_words ps) with
          | Some i => ok (CliEvent.PeerInfoEvent p i)
          | None => mret (Err InvalidData)
          end));
     ("<peer-removed", peer1 CliEvent.PeerRemoved);
     ("<dial-failure", fun ps =>
        next_parse read_peer ps (fun p ps =>
          next_parse read_addr ps (fun a ps => ok (CliEvent.DialFailure p a (join_words ps)))));
     ("<connection-established", peer_addr CliEvent.ConnectionEstablished);
     ("<connection-closed", peer_addr CliEvent.ConnectionClosed)].

(** [From<PeerInfo> for PeerInfoIo]; [debug] is the derived [Debug] output. *)
Definition peer_info_io `{HashOrder} (debug_source : AddressSource -> string)
    (debug_failure : ConnectionFailure -> string) (i : PeerInfo) : PeerInfoIo :=
  mkPeerInfoIo _ (protocol_version i) (agent_version i) (protocols i) (PeerInfo.listeners i)
    ((fun v => debug_source v.1) <$> addresses i)
    ((map_iter (connections i)).*1)
    (debug_failure <$> failures i).
End Cli.
