(* ===== verification/CliProps.v ===== *)
(** * The line protocol: round trips *)
From Stdlib Require Strings.Byte.
From S2P Require Import Prelude Time Libp2p PeerInfo Protocols Cli.

(** ** Words *)

Lemma split_ws_word w cur t :
  Forall (fun c => is_whitespace c = false) w -> split_ws cur (w ++ t) = split_ws (cur ++ w) t.
Proof.
  intros H. revert cur. induction H as [|c w Hc Hw IH]; intros cur; cbn; [by rewrite app_nil_r|].
  rewrite Hc, IH, <- app_assoc. done.
Qed.

(** A word followed by a space and more, and a word at the end of the line. *)
Lemma split_word_space w t : word w -> split_whitespace (w ++ space :: t) = w :: split_whitespace t.
Proof.
  intros [Hne Hw]. unfold split_whitespace. rewrite split_ws_word by done. cbn.
  by rewrite decide_False.
Qed.

Lemma split_word_end w : word w -> split_whitespace w = [w].
Proof.
  intros [Hne Hw]. unfold split_whitespace. rewrite <- (app_nil_r w), split_ws_word by done. cbn.
  rewrite app_nil_r. by rewrite decide_False.
Qed.

(** ** Hexadecimal *)

Lemma digit_value_hex n : (0 <= n < 16)%Z -> digit_value (hex_digit n) = Some n.
Proof.
  intros H. unfold digit_value, hex_digit, in_range. case_decide.
  - replace ((48 <=? 48 + n)%Z && (48 + n <=? 57)%Z) with true by lia. f_equal. lia.
  - replace ((48 <=? 87 + n)%Z && (87 + n <=? 57)%Z) with false by lia.
    replace ((97 <=? 87 + n)%Z && (87 + n <=? 102)%Z) with true by lia. f_equal. lia.
Qed.

Lemma hex_digit_range n : (0 <= n < 16)%Z -> (48 <= hex_digit n <= 102)%Z /\ hex_digit n <> 43%Z.
Proof. intros H. unfold hex_digit. case_decide; lia. Qed.

Lemma nibbles b : (0 <= b < 256)%Z -> (0 <= b `div` 16 < 16)%Z /\ (0 <= b `mod` 16 < 16)%Z /\
  (b `div` 16 * 16 + b `mod` 16 = b)%Z.
Proof. intros H. Z.div_mod_to_equations; lia. Qed.

Lemma hex_byte_decodes b :
  (0 <= b < 256)%Z ->
  (if utf8_valid (hex_byte b) then u8_from_hex (hex_byte b) else None) = Some b.
Proof.
  intros H. destruct (nibbles b H) as (Hd & Hm & Hb). unfold hex_byte.
  destruct (hex_digit_range _ Hd) as [Rd Nd], (hex_digit_range _ Hm) as [Rm _].
  set (x := hex_digit (b `div` 16)) in *. set (y := hex_digit (b `mod` 16)) in *.
  assert (Hv : utf8_valid [x; y] = true).
  { cbn. unfold in_range. replace ((0 <=? x)%Z && (x <=? 127)%Z) with true by lia.
    by replace ((0 <=? y)%Z && (y <=? 127)%Z) with true by lia. }
  rewrite Hv. assert (Hu : u8_from_hex [x; y] = digits_value 0 [x; y]).
  { unfold u8_from_hex. destruct x as [|p|p]; try done. repeat (destruct p; try done). }
  rewrite Hu. cbn. subst x y. rewrite !digit_value_hex by done. cbn.
  f_equal. lia.
Qed.

Lemma decode_chunks_cons a b l :
  decode_chunks (a :: b :: l) =
    (x ← (if utf8_valid [a; b] then u8_from_hex [a; b] else None); xs ← decode_chunks l; Some (x :: xs)).
Proof. done. Qed.

Lemma decode_hex data :
  Forall (fun x => 0 <= x < 256)%Z data -> decode_chunks (as_bytes (hex_encode data)) = Some data.
Proof.
  induction 1 as [|b data Hb Hdata IH]; [done|].
  assert (E : as_bytes (hex_encode (b :: data)) = hex_byte b ++ as_bytes (hex_encode data)).
  { unfold as_bytes, hex_encode. cbn. destruct (nibbles b Hb) as (Hd & Hm & _).
    destruct (hex_digit_range _ Hd) as [Rd _], (hex_digit_range _ Hm) as [Rm _].
    unfold utf8_char at 1 2. rewrite !decide_True by lia. done. }
  rewrite E. unfold hex_byte. cbn [app]. rewrite decode_chunks_cons. fold (hex_byte b).
  by rewrite hex_byte_decodes, IH.
Qed.

Lemma hex_encode_word data :
  Forall (fun x => 0 <= x < 256)%Z data -> data <> [] -> word (hex_encode data).
Proof.
  intros H Hne. split.
  - destruct data; [done|]. done.
  - unfold hex_encode. apply Forall_join, Forall_fmap. eapply Forall_impl; [exact H|].
    intros b Hb. destruct (nibbles b Hb) as (Hd & Hm & _).
    destruct (hex_digit_range _ Hd) as [Rd _], (hex_digit_range _ Hm) as [Rm _].
    cbn. unfold hex_byte. repeat constructor; unfold is_whitespace, in_range; lia.
Qed.

(** ** Lines *)

Lemma split_literal l w t : l = w ++ [space] -> word w -> split_whitespace (l ++ t) = w :: split_whitespace t.
Proof. intros -> Hw. rewrite <- app_assoc. by apply split_word_space. Qed.

Lemma split_word_txt w t : word w -> split_whitespace (w ++ txt " " ++ t) = w :: split_whitespace t.
Proof. apply split_word_space. Qed.

Create HintDb cli.

Section RoundTrip.
Context `{P : Profile} `{T : CliText} {TL : CliTextLaws}.

#[local] Hint Resolve show_peer_word show_addr_word show_cid_word : cli.

(** Splits a printed line into the words it was made of. *)
Ltac word_by :=
  match goal with
  | |- Cli.word (txt _) => refine (bool_decide_eq_true_1 _ _); vm_compute; reflexivity
  | _ => by auto with cli
  end.
Ltac split_line k :=
  rewrite ?(split_literal _ (txt k)) by (first [reflexivity | word_by]);
  rewrite ?split_word_txt by word_by;
  rewrite ?split_word_end by word_by.

(** Looks up the keyword. *)
Ltac find_arm :=
  unfold by_keyword; cbn [fmap list_fmap fst];
  match goal with
  | |- context [list_find ?Q ?l] =>
      let r := eval vm_compute in (list_find Q l) in change (list_find Q l) with r
  end;
  cbn [mbind option_bind fst lookup list_lookup].

(** Reads a printed line with keyword [k]. *)
Ltac read_line k :=
  split_line k; find_arm; unfold next_parse, next_word;
  rewrite ?read_show_peer, ?read_show_addr, ?read_show_cid; try done.

(** Lines that can be read back: an alias is one word, a block has data, an address has
    components. *)
Definition printable_command (c : CliCommand.t) : Prop :=
  match c with
  | CliCommand.AddAddress _ a => iter a <> []
  | CliCommand.Insert b => block_data b <> []
  | CliCommand.Alias alias _ => word alias
  | _ => True
  end.

Lemma next_block_shown {A} b (f : Block -> parse_result A) :
  next_block [show_cid (block_cid b); hex_encode (block_data b)] f = f b.
Proof.
  unfold next_block, next_parse, next_word. rewrite read_show_cid.
  by rewrite decode_hex, block_new_data by apply block_bytes.
Qed.

Lemma command_reads_back c :
  printable_command c -> parse_command (show_command c) ↓ Ok c.
Proof.
  intros Hc. unfold parse_command.
  destruct c as [p a|p| |cid|b|alias [cid|]| |cid]; cbn [show_command printable_command] in *.
  - read_line ">add-address".
  - read_line ">dial".
  - read_line ">prune-peers".
  - read_line ">get".
  - split_line ">insert".
    rewrite split_word_end by (apply hex_encode_word; [apply block_bytes|done]).
    find_arm. by rewrite next_block_shown.
  - read_line ">alias".
  - rewrite app_nil_r. read_line ">alias".
  - read_line ">flush".
  - read_line ">sync".
Qed.

(** C25: every command whose alias is one word, whose block is not empty and whose address
    has components is read back from its line as it was; hence the line determines the
    command. *)
Theorem command_round_trip c :
  printable_command c ->
  parse_command (show_command c) ↓ Ok c /\
  forall c', printable_command c' -> show_command c' = show_command c -> c' = c.
Proof.
  intros Hc. pose proof (command_reads_back c Hc) as H. split; [done|].
  intros c' Hc' E. pose proof (command_reads_back c' Hc') as H'. rewrite E, H in H'. congruence.
Qed.

(** Texts that survive being split into words and joined again. *)
Definition single_spaced (t : Text) : Prop := join_words (split_whitespace t) = t.

Definition printable_event (e : CliEvent.t) : Prop :=
  match e with
  | CliEvent.NewListenAddr a | CliEvent.ExpiredListenAddr a | CliEvent.NewExternalAddr a
  | CliEvent.ExpiredExternalAddr a | CliEvent.ConnectionEstablished _ a | CliEvent.ConnectionClosed _ a => iter a <> []
  | CliEvent.Subscribed _ topic | CliEvent.Unsubscribed _ topic => word topic
  | CliEvent.BlockEvent b => block_data b <> []
  | CliEvent.PeerInfoEvent _ i => single_spaced (to_json i)
  | CliEvent.DialFailure _ a e => iter a <> [] /\ single_spaced e
  | _ => True
  end.

Lemma event_reads_back e :
  printable_event e -> parse_event (show_event e) ↓ Ok e.
Proof.
  intros He. unfold parse_event.
  destruct e as [|a|a| |a|a|p|p|p|p|p t|p t|b| | | |p i|p|p a t|p a|p a]; cbn [show_event printable_event] in *.
  - read_line "<new-listener".
  - read_line "<new-listen-addr".
  - read_line "<expired-listen-addr".
  - read_line "<listener-closed".
  - read_line "<new-external-addr".
  - read_line "<expired-external-addr".
  - read_line "<discovered".
  - read_line "<unreachable".
  - read_line "<connected".
  - read_line "<disconnected".
  - read_line "<subscribed".
  - read_line "<unsubscribed".
  - split_line "<block". rewrite split_word_end by (apply hex_encode_word; [apply block_bytes|done]).
    find_arm. by rewrite next_block_shown.
  - read_line "<flushed".
  - read_line "<synced".
  - read_line "<bootstrapped".
  - read_line "<peer-info". by rewrite He, from_to_json.
  - read_line "<peer-removed".
  - destruct He as [Ha He]. read_line "<dial-failure". by rewrite He.
  - read_line "<connection-established".
  - read_line "<connection-closed".
Qed.

(** C39: every event is read back from its line as it was, if its topic is one word, its block
    is not empty, its address has components, and its error text or JSON is single-spaced;
    hence the line determines the event. *)
Theorem event_round_trip e :
  printable_event e ->
  parse_event (show_event e) ↓ Ok e /\
  forall e', printable_event e' -> show_event e' = show_event e -> e' = e.
Proof.
  intros He. pose proof (event_reads_back e He) as H. split; [done|].
  intros e' He' E. pose proof (event_reads_back e' He') as H'. rewrite E, H in H'. congruence.
Qed.

(** The line of an empty block cannot be read back: its data is no word, and
    reading it panics, for the command and for the event. *)
Theorem empty_block_line_panics b :
  block_data b = [] ->
  is_done (parse_command (show_command (CliCommand.Insert b))) = false /\
  is_done (parse_event (show_event (CliEvent.BlockEvent b))) = false.
Proof.
  intros Hb. unfold parse_command, parse_event. cbn [show_command show_event]. rewrite Hb. split.
  - split_line ">insert". unfold next_block. by read_line ">insert".
  - split_line "<block". unfold next_block. by read_line "<block".
Qed.

(** Neither can the line of an address without components. *)
Theorem empty_address_line_panics p a :
  iter a = [] -> is_done (parse_command (show_command (CliCommand.AddAddress p a))) = false.
Proof.
  intros Ha. unfold parse_command. cbn [show_command]. rewrite show_addr_empty by done.
  split_line ">add-address". by read_line ">add-address".
Qed.
End RoundTrip.

(** ** A concrete instance: texts are the bits of an encoding *)
Module SimCli.
Import Sim SimProtocols.

Fixpoint bits (p : positive) : Text :=
  match p with xH => [49%Z] | xO p => 48%Z :: bits p | xI p => 49%Z :: bits p end.

Fixpoint unbits (t : Text) : option positive :=
  match t with
  | [] => None
  | [c] => if Z.eqb c 49 then Some xH else None
  | c :: t => p ← unbits t; Some (if Z.eqb c 49 then xI p else xO p)
  end.

Lemma bits_nonempty p : exists c t, bits p = c :: t.
Proof. destruct p; cbn; eauto. Qed.

Lemma unbits_bits p : unbits (bits p) = Some p.
Proof.
  induction p as [p IH|p IH|]; cbn [bits]; [| |done];
    destruct (bits_nonempty p) as (c & t & E); rewrite E in IH |- *; cbn [unbits];
    cbn [unbits] in IH; by rewrite IH.
Qed.

Lemma bits_word p : word (bits p).
Proof.
  split; [by destruct p|]. induction p as [p IH|p IH|]; cbn; repeat constructor; done.
Qed.

Definition show_c `{Countable A} (a : A) : Text := bits (encode a).
Definition read_c `{Countable A} (t : Text) : option A := p ← unbits t; decode p.

Lemma read_show_c `{Countable A} (a : A) : read_c (show_c a) = Some a.
Proof. unfold read_c, show_c. rewrite unbits_bits. cbn. apply decode_encode. Qed.

(** An address without components prints as nothing. *)
Definition show_a (a : @Multiaddr sim) : Text := match a with [] => [] | _ => 47%Z :: show_c a end.
Definition read_a (t : Text) : option (@Multiaddr sim) := match t with [] => Some [] | _ :: t => read_c t end.

Lemma read_show_a a : read_a (show_a a) = Some a.
Proof.
  pose proof (read_show_c a) as H. by destruct a.
Qed.

Definition io_tuple (i : @PeerInfoIo sim) :=
  (io_protocol_version i, io_agent_version i, io_protocols i, io_listeners i, io_addresses i,
   io_connections i, io_failures i).

Definition tuple_io x : @PeerInfoIo sim :=
  let '(v, a, p, l, ad, c, f) := x in mkPeerInfoIo sim v a p l ad c f.

Definition data_of (l : list Byte.byte) : bytes := (fun b => Z.of_N (Byte.to_N b)) <$> l.
Definition of_data (l : bytes) : option (list Byte.byte) := mapM (fun z => Byte.of_N (Z.to_N z)) l.

Lemma of_data_of l : of_data (data_of l) = Some l.
Proof.
  unfold of_data, data_of. induction l as [|b l IH]; [done|]. cbn.
  rewrite N2Z.id, Byte.of_to_N. cbn. by rewrite IH.
Qed.

#[export] Instance sim_text : CliText (L := sim) (Pr := sim_protocols) | 100 := {|
  Block := N * list Byte.byte;
  block_cid := fst;
  block_data := fun b => data_of b.2;
  block_new := fun c d => d ← of_data d; Some (c, d);
  show_peer := show_c;
  read_peer := read_c;
  show_addr := show_a;
  read_addr := read_a;
  show_cid := show_c;
  read_cid := read_c;
  to_json := fun i => show_c (io_tuple i);
  from_json := fun t => x ← read_c t; Some (tuple_io x)
|}.

#[export] Instance sim_text_laws : CliTextLaws (T := sim_text).
Proof.
  split; intros; cbn -[show_c read_c show_a read_a]; try apply read_show_c; try apply read_show_a; try apply bits_word.
  - destruct a; [done|]. destruct (bits_word (encode (p :: a))) as [_ Hw]. split; [done|]. by constructor.
  - by destruct a.
  - by destruct a.
  - rewrite read_show_c. by destruct i.
  - rewrite of_data_of. by destruct b.
  - unfold data_of. apply Forall_fmap, Forall_forall. intros x _. cbn.
    pose proof (Byte.to_N_bounded x). lia.
Qed.

Definition hello : @Block sim sim_protocols sim_text := (7%N, [Byte.x68; Byte.xff]).
Definition nothing : @Block sim sim_protocols sim_text := (7%N, []).
Definition somebody : @PeerId sim := 5%N.
Definition somewhere : @Multiaddr sim := addr 1 4001.
Definition dial_failed : @CliEvent.t sim sim_protocols sim_text :=
  CliEvent.DialFailure somebody somewhere (txt "no route").
End SimCli.

Section CliWitness.
Import SimCli.

Lemma command_round_trip_witness :
  parse_command (show_command (CliCommand.Insert hello)) ↓ Ok (CliCommand.Insert hello).
Proof. apply (command_round_trip (CliCommand.Insert hello)). discriminate. Defined.

Lemma event_round_trip_witness :
  parse_event (show_event dial_failed) ↓ Ok dial_failed.
Proof. apply (event_round_trip dial_failed). split; [discriminate|vm_compute; reflexivity]. Defined.

Lemma empty_block_line_panics_witness :
  is_done (parse_command (T := sim_text) (show_command (CliCommand.Insert nothing))) = false.
Proof. apply (empty_block_line_panics nothing). reflexivity. Defined.
End CliWitness.
