(* ===== verification/Growth.v ===== *)
(** * What every step of the network task leaves behind

    Deliveries are never taken back, commands are answered on the channel they bring
    along, and bitswap never gives an id twice: what the parts of the node that run
    beside the task can rely on.  The receiving end of the command channel and the ids
    bitswap gives to its queries are interfaces. *)
From S2P Require Import Prelude Time Libp2p PeerInfo AddressHandler Peers PeersInv PeersProps.
From S2P Require Import Protocols Behaviour Net Service NetInv NetProps NetAnswers.

(** The receiver of the command channel: first in, first out. *)
Class CommandReceiver `{CC : CommandChannel} := {
  cmd_next : CmdTx -> option (NetworkCommand * CmdTx)
}.

Class CommandReceiverLaws `{CR : CommandReceiver} : Prop := {
  cmd_next_some c m c' : cmd_next c = Some (m, c') -> cmd_queue c = m :: cmd_queue c';
  cmd_next_is_some c : cmd_queue c <> [] -> is_Some (cmd_next c)
}.

(** Bitswap numbers its queries: no id is given twice. *)
Class BitswapIds `{Pr : Protocols} := {
  handed_out : Bitswap -> BitswapQueryId -> Prop;
  bitswap_get_new b c ps : ~ handed_out b (bitswap_get b c ps).2;
  bitswap_get_handed b c ps j :
    handed_out (bitswap_get b c ps).1 j <-> j = (bitswap_get b c ps).2 \/ handed_out b j;
  bitswap_sync_new b c ps ms : ~ handed_out b (bitswap_sync b c ps ms).2;
  bitswap_sync_handed b c ps ms j :
    handed_out (bitswap_sync b c ps ms).1 j <-> j = (bitswap_sync b c ps ms).2 \/ handed_out b j;
  bitswap_cancel_handed b i j : handed_out (bitswap_cancel b i) j <-> handed_out b j
}.

(** ** What a step of the task leaves behind *)
Section Growth.
Context `{P : Profile} `{C : Chrono} `{L : Libp2p} `{Ch : Channels} `{HO : HashOrder}.
Context `{Pr : !Protocols} `{Sw : !SwarmOps}.

(** Deliveries are never taken back, and bitswap is left alone. *)
Definition grows (b b' : Backend) : Prop :=
  outbox b `prefix_of` outbox b' /\ bitswap b' = bitswap b.

#[local] Instance grows_preorder : PreOrder grows.
Proof.
  split; [by intros b|]. intros b1 b2 b3 [H1 E1] [H2 E2].
  split; [by etrans|congruence].
Qed.

Lemma grows_answer b id f : grows b (answer b id f).
Proof. unfold answer. destruct (queries b !! id); [|done]. split; [by eexists|done]. Qed.

Lemma grows_register b id ch : grows b (register b id ch).
Proof. unfold register. destruct (queries b !! id); cbn; split; try done. by eexists. Qed.

Lemma register_lookup b id ch : queries (register b id ch) !! id = Some ch.
Proof. unfold register. destruct (queries b !! id); cbn; apply lookup_insert_eq. Qed.

Ltac grow := repeat (case_match; simplify_eq); try done;
  first [by split; [eexists|]
        |by apply grows_register
        |etrans; [|apply grows_register]; done].

Lemma grows_bootstrap b tx : grows b (behaviour_bootstrap b tx).
Proof. unfold behaviour_bootstrap, reject. grow. Qed.
Lemma grows_provide b k tx : grows b (provide b k tx).
Proof. unfold provide, reject. grow. Qed.
Lemma grows_providers b k tx : grows b (providers b k tx).
Proof. unfold providers, reject. grow. Qed.
Lemma grows_get_record b k q tx : grows b (get_record b k q tx).
Proof. unfold get_record, reject. grow. Qed.
Lemma grows_put_record b r q tx : grows b (put_record b r q tx).
Proof. unfold put_record, reject. grow. Qed.
Lemma grows_subscribe b t tx : grows b (subscribe b t tx).1.
Proof. unfold subscribe. by repeat (case_match; simplify_eq; try done). Qed.
Lemma grows_publish b t m : grows b (publish b t m).1.
Proof. unfold publish. by repeat (case_match; simplify_eq; try done). Qed.
Lemma grows_broadcast_message b t m : grows b (broadcast_message b t m).1.
Proof. unfold broadcast_message. by repeat (case_match; simplify_eq; try done). Qed.

Lemma grows_kad b ev : grows b (inject_kad_event b ev).
Proof.
  destruct ev as [kid r last|]; [|done]. cbn [inject_kad_event].
  destruct r as [[]|[]|[]|[]|[]|[]|[]|[]]; try done; try apply grows_answer.
  - case_decide; [|done]. apply (grows_answer (with_bootstrapped b true)).
  - unfold progress_providers. destruct (queries b !! KadId kid) as [[]|]; try done.
    destruct last; [|done]. eapply (grows_answer (with_queries b _)).
  - unfold progress_record. destruct (queries b !! KadId kid) as [[]|]; try done.
    destruct (last || _); [|done]. etrans; [|apply grows_answer]. by destruct (kad _).
Qed.

Lemma grows_notify_subscribers b t ev : grows b (notify_subscribers b t ev).
Proof.
  unfold notify_subscribers. destruct (subscriptions b !! t); [|done].
  case_decide; [|done]. unfold unsubscribe. cbn. by destruct (gossipsub b); cbn; destruct (broadcast b).
Qed.

Lemma grows_gossip b ev : grows b (inject_gossip_event b ev).
Proof.
  destruct ev; cbn; try apply grows_notify_subscribers; try done;
    (etrans; [|apply grows_notify_subscribers]); done.
Qed.

Lemma grows_broadcast b ev b' : inject_broadcast_event b ev ↓ b' -> grows b b'.
Proof.
  destruct ev as [p t d|p t|p t]; cbn; intros E; outcome_inv; [apply grows_notify_subscribers| |];
    destruct (from_utf8 t); outcome_inv; try done;
    (etrans; [|apply grows_notify_subscribers]); done.
Qed.

Lemma grows_add_address now b p a s b' : behaviour_add_address now b p a s ↓ b' -> grows b b'.
Proof. unfold behaviour_add_address. intros E. outcome_inv. by destruct (kad b). Qed.

Lemma grows_foldM {A} (f : Backend -> A -> outcome Backend) b l b' :
  foldM f b l ↓ b' -> (forall s x s', f s x ↓ s' -> grows s s') -> grows b b'.
Proof.
  intros E Hf. eapply (foldM_preserves f (grows b)); [exact E|done|].
  intros c x c' _ Hc Ex. etrans; [exact Hc|by eapply Hf].
Qed.

Lemma grows_swarm_event f st ev st' :
  handle_swarm_event f st ev ↓ st' ->
  grows (backend st) (backend st') /\ net_replies st' = net_replies st.
Proof.
  destruct ev; cbn; intros E; outcome_inv; cbn; try done; split; try done.
  - apply grows_kad.
  - destruct e; cbn in *; outcome_inv; [|done]. eapply grows_foldM; [done|].
    intros s [n [p a]] s'. apply grows_add_address.
  - unfold inject_ping_event in *. destruct (ping_result e) as [|[]]; outcome_inv; done.
  - destruct e; cbn in *; outcome_inv; done.
  - destruct e as [j m|j r]; cbn; [|apply grows_answer].
    destruct (queries (backend st) !! BitswapId j) as [[]|]; try done. by split; [eexists|].
  - apply grows_gossip.
  - by eapply grows_broadcast.
Qed.

(** The one-shot channel a command brings along. *)
Definition cmd_tx (m : NetworkCommand) : option Tx :=
  match m with
  | Bootstrap _ tx | Providers _ tx | Provide _ tx | GetRecord _ _ tx | PutRecord _ _ tx
  | Subscribe _ tx | Publish _ _ tx | CmdBroadcast _ _ tx | Get _ _ tx | Sync _ _ _ tx
  | SwarmEvents tx => Some tx
  | _ => None
  end.

(** The commands that bitswap is told about. *)
Definition for_bitswap (m : NetworkCommand) : bool :=
  match m with Get _ _ _ | Sync _ _ _ _ | CancelQuery (BitswapId _) => true | _ => false end.

Lemma command_replies f st m st' :
  handle_command f st m ↓ st' ->
  net_replies st' = net_replies st \/
  exists tx r, cmd_tx m = Some tx /\ net_replies st' = net_replies st ++ [(tx, r)].
Proof.
  destruct m; cbn [handle_command cmd_tx]; intros E; repeat (outcome_inv; case_match; simplify_eq);
    outcome_inv; try (by left); right; by do 2 eexists.
Qed.

Lemma grows_command f st m st' :
  handle_command f st m ↓ st' -> for_bitswap m = false -> grows (backend st) (backend st').
Proof.
  destruct m; cbn [handle_command for_bitswap]; intros E Hb; outcome_inv; cbn; try done.
  - destruct (swarm_listen_on _ a) as [s [l|e]]; outcome_inv; done.
  - by eapply grows_add_address.
  - eapply grows_foldM; [done|]. intros s [n [p a]] s'. apply grows_add_address.
  - unfold behaviour_remove_address. cbn. by destruct (kad _).
  - etrans; [|apply grows_bootstrap]. eapply grows_foldM; [done|].
    intros s [n [p a]] s' Es. outcome_inv. etrans; [by eapply grows_add_address|done].
  - apply grows_providers.
  - apply grows_provide.
  - unfold unprovide. by destruct (kad _).
  - apply grows_get_record.
  - apply grows_put_record.
  - unfold remove_record. by destruct (kad _).
  - pose proof (grows_subscribe (backend st) topic (gossip_tx f)) as Hg.
    destruct (subscribe _ _ _). by outcome_inv.
  - pose proof (grows_publish (backend st) topic msg) as Hg. destruct (publish _ _ _). by outcome_inv.
  - pose proof (grows_broadcast_message (backend st) topic msg) as Hg.
    destruct (broadcast_message _ _ _). by outcome_inv.
  - destruct id; [done|]. unfold cancel in *. outcome_inv. apply grows_answer.
Qed.

(** The ids of the bitswap queries so far. *)
Context `{BI : !BitswapIds}.

Definition issued (b : Backend) (id : BitswapQueryId) : Prop :=
  exists bs, bitswap b = Some bs /\ handed_out bs id.

(** What every step keeps: deliveries, the bitswap protocol and the ids given out. *)
Record advances (b b' : Backend) : Prop := {
  adv_outbox : outbox b `prefix_of` outbox b';
  adv_bitswap : is_Some (bitswap b) -> is_Some (bitswap b');
  adv_issued id : issued b id -> issued b' id
}.

Lemma grows_advances b b' : grows b b' -> advances b b'.
Proof. intros [Ho Hb]. split; [done|by rewrite Hb|]. intros id. unfold issued. by rewrite Hb. Qed.

Lemma issued_iff b bs id : bitswap b = Some bs -> issued b id <-> handed_out bs id.
Proof. intros E. unfold issued. rewrite E. naive_solver. Qed.

Lemma start_advances b bs bs' id ch :
  bitswap b = Some bs -> ~ handed_out bs id ->
  (forall j, handed_out bs' j <-> j = id \/ handed_out bs j) ->
  let b' := register (with_bitswap b bs') (BitswapId id) ch in
  advances b b' /\ ~ issued b id /\ issued b' id /\ queries b' !! BitswapId id = Some ch.
Proof.
  intros Eb Hn Hh b'. destruct (grows_register (with_bitswap b bs') (BitswapId id) ch) as [Ho Hb].
  change (bitswap b' = Some bs') in Hb.
  rewrite (issued_iff b bs id Eb), (issued_iff b' bs' id Hb), Hh.
  split_and!; [|done|by left|].
  - split; [done|by rewrite Hb|]. intros j. rewrite (issued_iff _ _ _ Eb), (issued_iff _ _ _ Hb), Hh. by right.
  - apply register_lookup.
Qed.

Lemma get_advances b c ps tx b' q :
  get b c ps tx ↓ (b', q) ->
  exists id, q = BitswapId id /\
    advances b b' /\ ~ issued b id /\ issued b' id /\ queries b' !! BitswapId id = Some (ChGet tx).
Proof.
  unfold get. intros E. outcome_inv. destruct (bitswap b) as [bs|] eqn:Eb; [|done]. cbn in *. simplify_eq.
  pose proof (bitswap_get_new x c ps). pose proof (bitswap_get_handed x c ps).
  destruct (bitswap_get x c ps) as [bs' id]. outcome_inv. simplify_eq.
  exists id. split; [done|]. by eapply start_advances.
Qed.

Lemma sync_advances b c ps ms tx b' q :
  sync b c ps ms tx ↓ (b', q) ->
  exists id, q = BitswapId id /\
    advances b b' /\ ~ issued b id /\ issued b' id /\ queries b' !! BitswapId id = Some (ChSync tx).
Proof.
  unfold sync. intros E. outcome_inv. destruct (bitswap b) as [bs|] eqn:Eb; [|done]. cbn in *. simplify_eq.
  pose proof (bitswap_sync_new x c ps ms). pose proof (bitswap_sync_handed x c ps ms).
  destruct (bitswap_sync x c ps ms) as [bs' id]. outcome_inv. simplify_eq.
  exists id. split; [done|]. by eapply start_advances.
Qed.

Lemma cancel_advances b id b' : cancel b (BitswapId id) ↓ b' -> advances b b'.
Proof.
  unfold cancel. pose proof (grows_answer b (BitswapId id) (fun _ => None)) as [Ho Hb].
  intros E. outcome_inv. destruct (bitswap (answer b _ _)) as [bs|] eqn:Eb; [|done]. cbn in *. simplify_eq.
  split; [done|done|]. intros j. rewrite (issued_iff b x) by congruence.
  rewrite (issued_iff _ (bitswap_cancel x id)) by done. by rewrite bitswap_cancel_handed.
Qed.

Lemma command_advances f st m st' :
  handle_command f st m ↓ st' -> advances (backend st) (backend st').
Proof.
  intros E. destruct (for_bitswap m) eqn:Em; [|by eapply grows_advances, grows_command].
  destruct m as [| | | | | | | | | | | | | | | | | | | | | | |[id|]]; try done;
    cbn [handle_command] in E; outcome_inv; [destruct x; outcome_inv..|]; cbn.
  - edestruct get_advances as (? & _ & ? & _); eauto.
  - edestruct sync_advances as (? & _ & ? & _); eauto.
  - by eapply cancel_advances.
Qed.

(** A query of bitswap is disturbed only by its completion or its cancellation: no
    other query gets its id. *)
Lemma command_disturbs id b m :
  issued b id -> m <> CancelQuery (BitswapId id) -> disturbs id b (InCommand (Some m)) = false.
Proof.
  intros (bs & Eb & Hi) Hm. destruct m; try done; cbn; rewrite ?Eb.
  - apply bool_decide_eq_false. intros <-. by eapply bitswap_get_new.
  - apply bool_decide_eq_false. intros <-. by eapply bitswap_sync_new.
  - apply bool_decide_eq_false. congruence.
Qed.
End Growth.

(** ** The concrete command channel and bitswap *)
Module SimGrowth.
Import Sim SimProtocols SimService.

#[export] Instance sim_command_receiver : CommandReceiver (CC := sim_commands) | 100 := {|
  cmd_next := fun c =>
    match chan_cmds c with
    | [] => None
    | m :: q => Some (m, mkCmdChan (chan_alive c) (S (chan_room c)) q)
    end
|}.

#[export] Instance sim_command_receiver_laws : CommandReceiverLaws (CR := sim_command_receiver).
Proof. split; intros [alive room [|m q]]; cbn; intros; simplify_eq; eauto. Qed.

#[export] Instance sim_bitswap_ids : BitswapIds (Pr := sim_protocols) | 100.
Proof.
  refine {| handed_out := fun (b : @Bitswap sim sim_protocols) j => (j < bs_next b)%N |};
    intros; cbn in *; lia.
Defined.

End SimGrowth.
