(* ===== verification/Db.v ===== *)
(** * The block store service (src/db.rs)

    [StorageService] wraps the block store of a library with transactions and
    metrics.  The store, its transactions and their effects are the class
    [BlockStores]; [StoreLaws] states what its documentation promises.  A
    transaction that is dropped without a commit leaves the store as
    [txn_drop] says; [DropLaws] is what the tests and the documentation of
    batches say about it. *)
From S2P Require Import Prelude Time Libp2p Protocols.

Class BlockStores `{L : Libp2p} `{Pr : !Protocols} := {
  StoreData : Type;
  StoreErr : Type;
  BlockStore : Type;
  Txn : Type;
  TempPin : Type;
  (* BlockStore *)
  transaction : BlockStore -> Txn;
  incremental_gc : BlockStore -> Z -> Duration -> BlockStore * result bool StoreErr;
  store_flush : BlockStore -> BlockStore * result unit StoreErr;
  (* Transaction *)
  txn_commit : Txn -> BlockStore * result unit StoreErr;
  txn_drop : Txn -> BlockStore;
  txn_temp_pin : Txn -> Txn * TempPin;
  extend_temp_pin : Txn -> TempPin -> Cid -> Txn * TempPin * result unit StoreErr;
  get_block_cids : Txn -> Txn * result (list Cid) StoreErr;
  has_block : Txn -> Cid -> Txn * result bool StoreErr;
  get_block : Txn -> Cid -> Txn * result (option StoreData) StoreErr;
  put_block : Txn -> Cid -> StoreData -> Txn * result unit StoreErr;
  txn_resolve : Txn -> list Z -> Txn * result (option Cid) StoreErr;
  txn_alias : Txn -> list Z -> option Cid -> Txn * result unit StoreErr;
  txn_aliases : Txn -> Txn * result (list (list Z * Cid)) StoreErr;
  txn_reverse_alias : Txn -> Cid -> Txn * result (option (gset (list Z))) StoreErr;
  get_missing_blocks : Txn -> Cid -> Txn * result (list Cid) StoreErr
}.

(** What a store holds, as its clients see it. *)
Record store_view `{BS : BlockStores} := mkView {
  v_blocks : gmap Cid StoreData;
  v_aliases : gmap (list Z) Cid
}.

(** The documented behaviour the properties rely on: what each operation of a
    transaction that succeeds does to the blocks and aliases, that a commit makes
    it visible, and that a garbage collection that reports unfinished work has
    removed at least one block. *)
Class StoreLaws `{BS : BlockStores} := {
  view : BlockStore -> store_view;
  txn_view : Txn -> store_view;
  transaction_view s : txn_view (transaction s) = view s;
  commit_view t s : txn_commit t = (s, Ok tt) -> view s = txn_view t;
  put_block_view t c d t' :
    put_block t c d = (t', Ok tt) ->
    txn_view t' = mkView _ _ _ (<[c := d]> (v_blocks (txn_view t))) (v_aliases (txn_view t));
  get_block_view t c t' r :
    get_block t c = (t', Ok r) -> r = v_blocks (txn_view t) !! c /\ txn_view t' = txn_view t;
  has_block_view t c t' r :
    has_block t c = (t', Ok r) ->
    r = bool_decide (is_Some (v_blocks (txn_view t) !! c)) /\ txn_view t' = txn_view t;
  get_block_cids_view t t' r :
    get_block_cids t = (t', Ok r) ->
    NoDup r /\ list_to_set r = dom (v_blocks (txn_view t)) /\ txn_view t' = txn_view t;
  txn_alias_view t a c t' :
    txn_alias t a c = (t', Ok tt) ->
    txn_view t' = mkView _ _ _ (v_blocks (txn_view t))
      (match c with
       | Some c => <[a := c]> (v_aliases (txn_view t))
       | None => delete a (v_aliases (txn_view t))
       end);
  txn_resolve_view t a t' r :
    txn_resolve t a = (t', Ok r) -> r = v_aliases (txn_view t) !! a /\ txn_view t' = txn_view t;
  txn_aliases_view t t' r :
    txn_aliases t = (t', Ok r) ->
    r ≡ₚ map_to_list (v_aliases (txn_view t)) /\ txn_view t' = txn_view t;
  txn_reverse_alias_view t c t' r :
    txn_reverse_alias t c = (t', Ok r) -> txn_view t' = txn_view t;
  get_missing_blocks_view t c t' r :
    get_missing_blocks t c = (t', Ok r) -> txn_view t' = txn_view t;
  txn_temp_pin_view t : txn_view (txn_temp_pin t).1 = txn_view t;
  extend_temp_pin_view t p c t' p' :
    extend_temp_pin t p c = (t', p', Ok tt) -> txn_view t' = txn_view t;
  gc_progress s n d s' :
    (0 < n)%Z -> incremental_gc s n d = (s', Ok false) ->
    size (v_blocks (view s')) < size (v_blocks (view s))
}.

(** The documentation of [Ipfs::batch_ops] promises no atomicity, and its test that a
    batch that fails has written what came before: a transaction that is dropped without
    a commit leaves its writes. *)
Class DropLaws `{SL : StoreLaws} : Prop := {
  drop_view t : view (txn_drop t) = txn_view t
}.

Definition blocks `{SL : StoreLaws} (s : BlockStore) : gmap Cid StoreData := v_blocks (view s).

(** The file system and the constructors of the library. *)
Class StoreFiles `{BS : BlockStores} := {
  Fs : Type;
  is_file : Fs -> string -> bool;
  create_dir_all : string -> Fs -> Fs * result unit StoreErr;
  path_join : string -> string -> string;
  CacheTracker : Type;
  InMemCacheTracker_new : CacheTracker;
  SqliteCacheTracker_open : string -> Fs -> Fs * result CacheTracker StoreErr;
  BlockStore_open : string -> Z * Z -> CacheTracker -> Fs -> Fs * result BlockStore StoreErr;
  BlockStore_memory : Z * Z -> CacheTracker -> result BlockStore StoreErr;
  additional_connection : BlockStore -> Fs -> Fs * result unit StoreErr
}.

Section Db.
Context `{BS : BlockStores}.

Record StorageConfig := mkStorageConfig {
  path : option string;
  access_db_path : option string;
  cache_size_blocks : Z;
  cache_size_bytes : Z;
  gc_interval : Duration;
  gc_min_blocks : Z;
  gc_target_duration : Duration
}.

(** [usize] is 64 bits wide. *)
Definition StorageConfig_new (path access_db_path : option string) (cache_size : Z)
    (gc_interval : Duration) : StorageConfig :=
  mkStorageConfig path access_db_path cache_size U64_MAX gc_interval U64_MAX
    (mkDuration U64_MAX (1000000000 - 1)).

Record StorageService := mkStorage {
  store : BlockStore;
  svc_gc_min_blocks : Z;
  svc_gc_target_duration : Duration;
  QUERIES_TOTAL : gmap string nat
}.

Definition with_store (st : StorageService) (s : BlockStore) : StorageService :=
  mkStorage s (svc_gc_min_blocks st) (svc_gc_target_duration st) (QUERIES_TOTAL st).

Definition count_query (st : StorageService) (op : string) : StorageService :=
  mkStorage (store st) (svc_gc_min_blocks st) (svc_gc_target_duration st)
    (<[op := S (default 0 (QUERIES_TOTAL st !! op))]> (QUERIES_TOTAL st)).

(** What [rw] runs inside a transaction: a closure, and one that captures a
    [&mut M]. *)
Definition batch (R : Type) : Type := Txn -> Txn * result R StoreErr.
Definition batch_mut (M R : Type) : Type := Txn -> M -> Txn * M * result R StoreErr.

Definition rw_mut {M R} (st : StorageService) (op : string) (m : M) (f : batch_mut M R) :
    StorageService * M * result R StoreErr :=
  let st := count_query st op in
  let '(txn, m, res) := f (transaction (store st)) m in
  match res with
  | Ok r =>
      let '(s, c) := txn_commit txn in
      (with_store st s, m, match c with Ok _ => Ok r | Err e => Err e end)
  | Err e => (with_store st (txn_drop txn), m, Err e)
  end.

Definition rw {R} (st : StorageService) (op : string) (f : batch R) : StorageService * result R StoreErr :=
  let '(st, _, r) := rw_mut st op tt (fun t u => let '(t, r) := f t in (t, u, r)) in (st, r).

(** [Batch]'s methods. *)
Definition batch_create_temp_pin : batch TempPin := fun t => let '(t, p) := txn_temp_pin t in (t, Ok p).

Fixpoint batch_temp_pin (links : list Cid) : batch_mut TempPin unit := fun t temp =>
  match links with
  | [] => (t, temp, Ok tt)
  | link :: links =>
      let '(t, temp, r) := extend_temp_pin t temp link in
      match r with Ok _ => batch_temp_pin links t temp | Err e => (t, temp, Err e) end
  end.

Definition batch_iter : batch (list Cid) := get_block_cids.
Definition batch_contains (c : Cid) : batch bool := fun t => has_block t c.
Definition batch_get (c : Cid) : batch (option StoreData) := fun t => get_block t c.
Definition batch_insert (c : Cid) (d : StoreData) : batch unit := fun t => put_block t c d.
Definition batch_resolve (a : list Z) : batch (option Cid) := fun t => txn_resolve t a.
Definition batch_alias (a : list Z) (c : option Cid) : batch unit := fun t => txn_alias t a c.
Definition batch_aliases : batch (list (list Z * Cid)) := txn_aliases.
Definition batch_reverse_alias (c : Cid) : batch (option (gset (list Z))) :=
  fun t => txn_reverse_alias t c.
Definition batch_missing_blocks (c : Cid) : batch (list Cid) := fun t => get_missing_blocks t c.

(** [StorageService]'s methods. *)
Definition db_create_temp_pin st := rw st "create_temp_pin" batch_create_temp_pin.
Definition db_temp_pin st temp links := rw_mut st "temp_pin" temp (batch_temp_pin links).
Definition db_iter st := rw st "iter" batch_iter.
Definition db_contains st c := rw st "contains" (batch_contains c).
Definition db_get st c := rw st "get" (batch_get c).
Definition db_insert st c d := rw st "insert" (batch_insert c d).
Definition db_alias st a c := rw st "alias" (batch_alias a c).
Definition db_aliases st := rw st "aliases" batch_aliases.
Definition db_resolve st a := rw st "resolve" (batch_resolve a).
Definition db_reverse_alias st c := rw st "reverse_alias" (batch_reverse_alias c).
Definition db_missing_blocks st c := rw st "missing_blocks" (batch_missing_blocks c).

(** The loop of [evict], with a bound on its iterations. *)
Fixpoint evict (fuel : nat) (st : StorageService) : option (StorageService * result unit StoreErr) :=
  match fuel with
  | 0 => None
  | S fuel =>
      let '(s, r) := incremental_gc (store st) (svc_gc_min_blocks st) (svc_gc_target_duration st) in
      let st := with_store st s in
      match r with
      | Err e => Some (st, Err e)
      | Ok true => Some (st, Ok tt)
      | Ok false => evict fuel st
      end
  end.

(** [flush] runs under [observe_future]. *)
Definition db_flush (st : StorageService) : StorageService * result unit StoreErr :=
  let '(s, r) := store_flush (store st) in
  (with_store (count_query st "flush") s, r).

(** One round of the background garbage collector: its error is only logged. *)
Definition gc_round (st : StorageService) : StorageService :=
  with_store st (incremental_gc (store st) (svc_gc_min_blocks st) (svc_gc_target_duration st)).1.

(** ** Opening the store

    A computation on the file system that may fail; [x ← m; k] is [m?]. *)
Context {SF : StoreFiles}.

Definition io (A : Type) : Type := Fs -> Fs * result A StoreErr.
#[local] Instance io_ret : MRet io := fun A a fs => (fs, Ok a).
#[local] Instance io_bind : MBind io := fun A B f m fs =>
  let '(fs, r) := m fs in match r with Ok a => f a fs | Err e => (fs, Err e) end.

(** [if path.is_file() { path } else { create_dir_all(&path)?; path.join(name) }]. *)
Definition file_at (path name : string) : io string := fun fs =>
  if is_file fs path then (fs, Ok path)
  else (_ ← (create_dir_all path : io unit); mret (path_join path name) : io string) fs.

Definition open_tracker (config : StorageConfig) : io CacheTracker :=
  match access_db_path config with
  | Some path => path ← file_at path "access"; SqliteCacheTracker_open path
  | None => mret InMemCacheTracker_new
  end.

Definition open_store (config : StorageConfig) (tracker : CacheTracker) : io BlockStore :=
  let targets := (cache_size_blocks config, cache_size_bytes config) in
  match path config with
  | Some path => path ← file_at path "db"; BlockStore_open path targets tracker
  | None => fun fs => (fs, BlockStore_memory targets tracker)
  end.

(** The service, and whether the garbage collector has a connection of its own.
    The counters of queries are those of the process, here from its start. *)
Definition open (config : StorageConfig) : io (StorageService * bool) :=
  tracker ← open_tracker config;
  store ← open_store config tracker;
  own_connection ←
    match path config with
    | None => mret false
    | Some _ => _ ← (additional_connection store : io unit); mret true
    end;
  mret (mkStorage store (gc_min_blocks config) (gc_target_duration config) ∅, own_connection).

(** ** Programs of batch operations

    What a closure given to [Ipfs::batch_ops] can do: call [Batch]'s methods, use
    what they return, and stop with a result or an error. *)
Inductive store_op : Type -> Type :=
| SoCreateTempPin : store_op TempPin
| SoTempPin (temp : TempPin) (links : list Cid) : store_op TempPin
| SoIter : store_op (list Cid)
| SoContains (c : Cid) : store_op bool
| SoGet (c : Cid) : store_op (option StoreData)
| SoInsert (c : Cid) (d : StoreData) : store_op unit
| SoResolve (a : list Z) : store_op (option Cid)
| SoAlias (a : list Z) (c : option Cid) : store_op unit
| SoAliases : store_op (list (list Z * Cid))
| SoReverseAlias (c : Cid) : store_op (option (gset (list Z)))
| SoMissingBlocks (c : Cid) : store_op (list Cid).

Definition run_op {R} (o : store_op R) : batch R :=
  match o in store_op R return batch R with
  | SoCreateTempPin => batch_create_temp_pin
  | SoTempPin temp links => fun t =>
      let '(t, temp, r) := batch_temp_pin links t temp in
      (t, match r with Ok _ => Ok temp | Err e => Err e end)
  | SoIter => batch_iter
  | SoContains c => batch_contains c
  | SoGet c => batch_get c
  | SoInsert c d => batch_insert c d
  | SoResolve a => batch_resolve a
  | SoAlias a c => batch_alias a c
  | SoAliases => batch_aliases
  | SoReverseAlias c => batch_reverse_alias c
  | SoMissingBlocks c => batch_missing_blocks c
  end.

Inductive batch_program (R : Type) : Type :=
| Return (r : R)
| Stop (e : StoreErr)
| Do {A} (o : store_op A) (k : A -> batch_program R).
#[global] Arguments Return {R} r.
#[global] Arguments Stop {R} e.
#[global] Arguments Do {R A} o k.

Fixpoint run_batch {R} (p : batch_program R) : batch R := fun t =>
  match p with
  | Return r => (t, Ok r)
  | Stop e => (t, Err e)
  | Do o k =>
      let '(t, r) := run_op o t in
      match r with Ok a => run_batch (k a) t | Err e => (t, Err e) end
  end.

(** ** The abstract store: what each operation promises its caller *)
Definition spec_op {R} (o : store_op R) : store_view -> store_view -> R -> Prop :=
  match o in store_op R return store_view -> store_view -> R -> Prop with
  | SoCreateTempPin | SoTempPin _ _ => fun v v' _ => v' = v
  | SoIter => fun v v' r => v' = v /\ NoDup r /\ list_to_set r = dom (v_blocks v)
  | SoContains c => fun v v' r => v' = v /\ r = bool_decide (is_Some (v_blocks v !! c))
  | SoGet c => fun v v' r => v' = v /\ r = v_blocks v !! c
  | SoInsert c d => fun v v' _ => v' = mkView _ _ _ (<[c := d]> (v_blocks v)) (v_aliases v)
  | SoResolve a => fun v v' r => v' = v /\ r = v_aliases v !! a
  | SoAlias a c => fun v v' _ =>
      v' = mkView _ _ _ (v_blocks v)
        (match c with Some c => <[a := c]> (v_aliases v) | None => delete a (v_aliases v) end)
  | SoAliases => fun v v' r => v' = v /\ r ≡ₚ map_to_list (v_aliases v)
  | SoReverseAlias _ => fun v v' _ => v' = v
  | SoMissingBlocks _ => fun v v' _ => v' = v
  end.

Fixpoint spec_batch {R} (p : batch_program R) (v v'' : store_view) (r : R) : Prop :=
  match p with
  | Return r' => v'' = v /\ r = r'
  | Stop _ => False
  | Do o k => exists v' a, spec_op o v v' a /\ spec_batch (k a) v' v'' r
  end.

(** The same for a program that stops with error [e] of its own. *)
Fixpoint spec_stopped {R} (p : batch_program R) (v v'' : store_view) (e : StoreErr) : Prop :=
  match p with
  | Return _ => False
  | Stop e' => v'' = v /\ e = e'
  | Do o k => exists v' a, spec_op o v v' a /\ spec_stopped (k a) v' v'' e
  end.

(** No operation of the store fails; the program may stop. *)
Fixpoint ops_succeed {R} (p : batch_program R) (t : Txn) : bool :=
  match p with
  | Return _ | Stop _ => true
  | Do o k =>
      let '(t, r) := run_op o t in
      match r with Ok a => ops_succeed (k a) t | Err _ => false end
  end.
End Db.

(** ** Properties *)
Section DbProps.
Context `{BS : BlockStores} {SL : StoreLaws}.

Lemma rw_ok {R} st op (f : batch R) st' r :
  rw st op f = (st', Ok r) ->
  exists t s, f (transaction (store st)) = (t, Ok r) /\ txn_commit t = (s, Ok tt) /\ store st' = s.
Proof.
  unfold rw, rw_mut. cbn. destruct (f (transaction (store st))) as [t [a|e]]; [|done].
  destruct (txn_commit t) as [s [[]|e]] eqn:E; intros [= <- <-]. eauto.
Qed.

Lemma temp_pin_view links t temp t' temp' :
  batch_temp_pin links t temp = (t', temp', Ok tt) -> txn_view t' = txn_view t.
Proof.
  revert t temp. induction links as [|link links IH]; intros t temp; cbn; [by intros [= <- <-]|].
  destruct (extend_temp_pin t temp link) as [[t1 p1] [[]|e]] eqn:E; [|done].
  intros H. rewrite (IH _ _ H). by apply extend_temp_pin_view in E.
Qed.

(** Every method of [Batch] that succeeds does what the abstract store says. *)
Lemma op_refines {R} (o : store_op R) t t' r :
  run_op o t = (t', Ok r) -> spec_op o (txn_view t) (txn_view t') r.
Proof.
  destruct o; cbn -[batch_temp_pin]; intros E.
  - unfold batch_create_temp_pin in E. pose proof (txn_temp_pin_view t) as H.
    destruct (txn_temp_pin t). by simplify_eq.
  - destruct (batch_temp_pin links t temp) as [[t1 p1] [[]|e]] eqn:Et; simplify_eq.
    by apply temp_pin_view in Et.
  - apply get_block_cids_view in E. naive_solver.
  - apply has_block_view in E. naive_solver.
  - apply get_block_view in E. naive_solver.
  - destruct r. by apply put_block_view.
  - apply txn_resolve_view in E. naive_solver.
  - destruct r. by apply txn_alias_view.
  - apply txn_aliases_view in E. naive_solver.
  - by eapply txn_reverse_alias_view.
  - by eapply get_missing_blocks_view.
Qed.

Lemma batch_refines {R} (p : batch_program R) t t' r :
  run_batch p t = (t', Ok r) -> spec_batch p (txn_view t) (txn_view t') r.
Proof.
  revert t. induction p as [r'|e|A o k IH]; intros t; cbn; [by intros [= <- <-]|done|].
  destruct (run_op o t) as [t1 [a|e]] eqn:E; [|done]. intros H.
  exists (txn_view t1), a. split; [by apply op_refines|by apply IH].
Qed.

(** C15: the storage service implements the abstract store: any program of batch
    operations whose transaction succeeds takes the blocks and aliases of the
    store to those the abstract store prescribes, and returns what it prescribes. *)
Theorem storage_refines {R} st op (p : batch_program R) st' r :
  rw st op (run_batch p) = (st', Ok r) ->
  spec_batch p (view (store st)) (view (store st')) r.
Proof.
  intros (t & s & Ef & Ec & <-)%rw_ok. apply batch_refines in Ef.
  rewrite transaction_view in Ef. by rewrite (commit_view _ _ Ec).
Qed.

Lemma stopped_refines {R} (p : batch_program R) t t' e :
  ops_succeed p t = true -> run_batch p t = (t', Err e) ->
  spec_stopped p (txn_view t) (txn_view t') e.
Proof.
  revert t. induction p as [r'|e'|A o k IH]; intros t; cbn; [done|by intros _ [= <- <-]|].
  destruct (run_op o t) as [t1 [a|x]] eqn:E; [|done]. intros Ho H.
  exists (txn_view t1), a. split; [by apply op_refines|by apply IH].
Qed.


(** Each method of [StorageService] is the program of one operation. *)
Lemma rw_one_op {R} st op (o : store_op R) : rw st op (run_op o) = rw st op (run_batch (Do o Return)).
Proof.
  unfold rw, rw_mut. cbn. by destruct (run_op o (transaction (store st))) as [t [r|e]].
Qed.

Lemma rw_op_refines {R} st op (o : store_op R) st' r :
  rw st op (run_op o) = (st', Ok r) -> spec_op o (view (store st)) (view (store st')) r.
Proof.
  intros (t & s & Ef & Ec & <-)%rw_ok. apply op_refines in Ef.
  rewrite transaction_view in Ef. by rewrite (commit_view _ _ Ec).
Qed.

Lemma evict_returns st :
  (0 < svc_gc_min_blocks st)%Z ->
  exists st' r, evict (S (size (blocks (store st)))) st = Some (st', r).
Proof.
  unfold blocks. intros Hn. remember (size (v_blocks (view (store st)))) as n eqn:En.
  assert (Hle : size (v_blocks (view (store st))) <= n) by lia. clear En.
  revert st Hn Hle. induction n as [|n IH]; intros st Hn Hle; cbn [evict];
    destruct (incremental_gc _ _ _) as [s [[]|e]] eqn:E; eauto;
    apply gc_progress in E; [lia|done| |done].
  apply IH; cbn; [done|lia].
Qed.

Lemma evict_fuel n m st res : n <= m -> evict n st = Some res -> evict m st = Some res.
Proof.
  revert m st. induction n as [|n IH]; intros [|m] st Hle; cbn; [done..|lia|].
  destruct (incremental_gc _ _ _) as [s [[]|e]]; [done| |done]. apply IH. lia.
Qed.

Lemma open_gc_min_blocks {SF : StoreFiles} config fs fs' st own :
  open config fs = (fs', Ok (st, own)) -> svc_gc_min_blocks st = gc_min_blocks config.
Proof.
  unfold open, mbind, io_bind, mret, io_ret.
  destruct (open_tracker config fs) as [fs1 [t|e]]; [|done].
  destruct (open_store config t fs1) as [fs2 [s|e]]; [|done].
  destruct (path config); [|by intros [= _ <- _]].
  destruct (additional_connection s fs2) as [fs3 [[]|e]]; [|done]. by intros [= _ <- _].
Qed.

(** Eviction terminates (while nothing else adds blocks): each round that leaves work has removed a block, so
    that the loop returns within one round more than there are blocks, with
    success or with the error of the garbage collector; more fuel changes
    nothing. *)
Theorem evict_terminates st :
  (0 < svc_gc_min_blocks st)%Z ->
  exists st' r, evict (S (size (blocks (store st)))) st = Some (st', r) /\
    forall fuel, S (size (blocks (store st))) <= fuel -> evict fuel st = Some (st', r).
Proof.
  intros Hn. destruct (evict_returns st Hn) as (st' & r & E). exists st', r. split; [done|].
  intros fuel Hf. by eapply evict_fuel.
Qed.

(** Transactions: the work of an operation that fails is never committed
    (the store is what dropping the transaction leaves), a failing commit is
    reported, and the query counter of the operation goes up by one in every
    case. *)
Theorem rw_commits_iff_ok {R} st op (f : batch R) st' res :
  rw st op f = (st', res) ->
  QUERIES_TOTAL st' !! op = Some (S (default 0 (QUERIES_TOTAL st !! op))) /\
  match f (transaction (store st)) with
  | (t, Ok r) =>
      store st' = (txn_commit t).1 /\
      res = match (txn_commit t).2 with Ok _ => Ok r | Err e => Err e end
  | (t, Err e) => store st' = txn_drop t /\ res = Err e
  end.
Proof.
  unfold rw, rw_mut. cbn. destruct (f (transaction (store st))) as [t [a|e]].
  - destruct (txn_commit t) as [s c]. intros [= <- <-]. cbn. by rewrite lookup_insert_eq.
  - intros [= <- <-]. cbn. by rewrite lookup_insert_eq.
Qed.
End DbProps.

(** ** A concrete store: a map of blocks without links, with a limit *)
Module SimStore.
Import Sim SimProtocols.

Record mem := mkMem { mem_blocks : gmap N N; mem_aliases : gmap (list Z) N; mem_limit : nat }.

Definition mem_gc (s : mem) : mem * result bool string :=
  match map_to_list (mem_blocks s) with
  | (c, _) :: _ =>
      if decide (mem_limit s < size (mem_blocks s)) then
        (mkMem (delete c (mem_blocks s)) (mem_aliases s) (mem_limit s), Ok false)
      else (s, Ok true)
  | [] => (s, Ok true)
  end.

#[export] Instance sim_store : BlockStores (L := sim) (Pr := sim_protocols) | 100 := {|
  StoreData := N;
  StoreErr := string;
  BlockStore := mem;
  Txn := mem;
  TempPin := list N;
  transaction := fun s => s;
  incremental_gc := fun s _ _ => mem_gc s;
  store_flush := fun s => (s, Ok tt);
  txn_commit := fun t => (t, Ok tt);
  txn_drop := fun t => t;
  txn_temp_pin := fun t => (t, []);
  extend_temp_pin := fun t p c => (t, c :: p, Ok tt);
  get_block_cids := fun t => (t, Ok (map_to_list (mem_blocks t)).*1);
  has_block := fun t c => (t, Ok (bool_decide (is_Some (mem_blocks t !! c))));
  get_block := fun t c => (t, Ok (mem_blocks t !! c));
  put_block := fun t c d => (mkMem (<[c := d]> (mem_blocks t)) (mem_aliases t) (mem_limit t), Ok tt);
  txn_resolve := fun t a => (t, Ok (mem_aliases t !! a));
  txn_alias := fun t a c =>
    (mkMem (mem_blocks t)
       (match c with Some c => <[a := c]> (mem_aliases t) | None => delete a (mem_aliases t) end)
       (mem_limit t),
     if decide (a = []) then Err "empty alias" else Ok tt);
  txn_aliases := fun t => (t, Ok (map_to_list (mem_aliases t)));
  txn_reverse_alias := fun t _ => (t, Ok None);
  get_missing_blocks := fun t c => (t, Ok (if decide (is_Some (mem_blocks t !! c)) then [] else [c]))
|}.

Definition mem_view (m : mem) : @store_view sim sim_protocols sim_store :=
  @mkView sim sim_protocols sim_store (mem_blocks m) (mem_aliases m).

Lemma mem_gc_progress s s' :
  mem_gc s = (s', Ok false) -> size (mem_blocks s') < size (mem_blocks s).
Proof.
  unfold mem_gc. destruct (map_to_list (mem_blocks s)) as [|[c x] l] eqn:E; [done|].
  case_decide; [|done]. intros [= <-]. cbn. rewrite map_size_delete_Some; [lia|].
  exists x. apply elem_of_map_to_list. rewrite E. apply list_elem_of_here.
Qed.

#[export] Instance sim_store_laws : StoreLaws (BS := sim_store).
Proof.
  refine {| view := mem_view : @BlockStore sim sim_protocols sim_store -> _;
            txn_view := mem_view : @Txn sim sim_protocols sim_store -> _ |}; cbn; intros;
    simplify_eq; try done.
  - split; [apply NoDup_fst_map_to_list|]. split; [|done].
    apply set_eq. intros c. rewrite elem_of_list_to_set, elem_of_dom, list_elem_of_fmap. split.
    + intros ([c' d] & -> & H%elem_of_map_to_list). by exists d.
    + intros [d H]. exists (c, d). by rewrite elem_of_map_to_list.
  - by apply mem_gc_progress.
Defined.

#[export] Instance sim_store_drop : DropLaws (SL := sim_store_laws).
Proof. by split. Defined.

Definition three : @StorageService sim sim_protocols sim_store :=
  mkStorage (mkMem {[1%N := 10%N; 2%N := 20%N; 3%N := 30%N]} ∅ 1) U64_MAX ZERO ∅.

Definition cid (n : N) : @Cid sim sim_protocols := n.
Definition data (n : N) : @StoreData sim sim_protocols sim_store := n.
End SimStore.

Section DbWitness.
Import Sim SimProtocols SimStore.

(** Insert a block, point an alias at it and follow the alias. *)
Definition publish_block : @batch_program sim sim_protocols sim_store (option N) :=
  Do (SoInsert (cid 4) (data 40)) (fun _ =>
  Do (SoAlias [97%Z] (Some (cid 4))) (fun _ =>
  Do (SoResolve [97%Z]) (fun c =>
  match c with Some c => Do (SoGet c) Return | None => Return None end))).

Lemma storage_refines_witness :
  spec_batch publish_block (view (store three))
    (view (store (rw three "batch_ops" (run_batch publish_block)).1)) (Some 40%N).
Proof.
  apply (storage_refines three "batch_ops" publish_block
    (rw three "batch_ops" (run_batch publish_block)).1 (Some 40%N)). reflexivity.
Defined.

(** [db.insert(c)?; bail!("nope!"); db.insert(d)?]. *)
Definition nope : @batch_program sim sim_protocols sim_store unit :=
  Do (SoInsert (cid 7) (data 70)) (fun _ => Stop ("nope!" : @StoreErr sim sim_protocols sim_store)).

Lemma evict_terminates_witness : exists st' r, evict 100 three = Some (st', r).
Proof.
  destruct (evict_terminates three) as (st' & r & _ & H); [reflexivity|].
  exists st', r. apply H. vm_compute. lia.
Defined.

Lemma rw_commits_iff_ok_witness :
  QUERIES_TOTAL (db_alias three [] None).1 !! "alias" = Some 1.
Proof.
  apply (rw_commits_iff_ok three "alias" (batch_alias [] None) (db_alias three [] None).1
    (db_alias three [] None).2). reflexivity.
Defined.
End DbWitness.
