(* ===== verification/Pins.v ===== *)
(** * What the garbage collector may remove (src/db.rs, documentation of
      [StorageConfig] and of [Ipfs::reverse_alias])

    A block is pinned if an alias points to it or if a pinned block that is stored
    links to it; "the store will never delete pinned blocks".  [PinLaws] states this
    of one incremental collection of the library.  [storage_event] is everything that
    can happen to the storage of a running node: batches of operations, whether they
    succeed, give up or meet errors of the store, flushes, rounds of the background
    collector and evictions, in any order; [storage_step] is the part of it in which the
    calls succeed.  [FailureLaws] is what a store promises when it fails.  Shown here: data
    below an alias that nobody touches stays complete, whatever happens. *)
From S2P Require Import Prelude Time Libp2p Protocols Db.

Section Pinned.
Context `{BS : BlockStores} (links : StoreData -> list Cid).

Inductive pinned (v : store_view) : Cid -> Prop :=
| pinned_alias a c : v_aliases v !! a = Some c -> pinned v c
| pinned_link p d c : pinned v p -> v_blocks v !! p = Some d -> c ∈ links d -> pinned v c.
End Pinned.

(** [data_links] are the references of a block; [content c d] holds if [d] is the data
    that [c] names. *)
Class PinLaws `{SL : StoreLaws} := {
  data_links : StoreData -> list Cid;
  content : Cid -> StoreData -> Prop;
  content_unique c d d' : content c d -> content c d' -> d = d';
  gc_aliases s n d s' r : incremental_gc s n d = (s', r) -> v_aliases (view s') = v_aliases (view s);
  gc_keeps_pinned s n d s' r c x :
    incremental_gc s n d = (s', r) -> pinned data_links (view s) c ->
    v_blocks (view s) !! c = Some x -> v_blocks (view s') !! c = Some x;
  flush_view s s' : store_flush s = (s', Ok tt) -> view s' = view s
}.

(** Failures of the store.  An operation that fails has done nothing, or what it does; a
    transaction that is dropped, or whose commit fails, leaves the store as it was before,
    or as the transaction saw it last; a flush that fails changes nothing. *)
Class FailureLaws `{SL : StoreLaws} : Prop := {
  op_failed {R} (o : store_op R) t t' e : run_op o t = (t', Err e) ->
    txn_view t' = txn_view t \/ exists x, spec_op o (txn_view t) (txn_view t') x;
  drop_leaves {R} (p : batch_program R) s t e : run_batch p (transaction s) = (t, Err e) ->
    view (txn_drop t) = view s \/ view (txn_drop t) = txn_view t;
  commit_failed {R} (p : batch_program R) s t x s' e :
    run_batch p (transaction s) = (t, Ok x) -> txn_commit t = (s', Err e) ->
    view s' = view s \/ view s' = txn_view t;
  flush_failed s s' e : store_flush s = (s', Err e) -> view s' = view s
}.

Section Pins.
Context `{PL : PinLaws}.

(** *** Data below an alias *)

(** [c] can be reached from [root] through the blocks of [T]. *)
Inductive below (T : gmap Cid StoreData) (root : Cid) : Cid -> Prop :=
| below_root : below T root root
| below_link p d c : below T root p -> T !! p = Some d -> c ∈ data_links d -> below T root c.

(** A set of blocks that hangs together below [root]. *)
Definition tree (T : gmap Cid StoreData) (root : Cid) : Prop :=
  map_Forall content T /\ forall c d, T !! c = Some d -> below T root c.

(** The store has all of it, under the alias [a]. *)
Definition kept (v : store_view) (a : list Z) (root : Cid) (T : gmap Cid StoreData) : Prop :=
  v_aliases v !! a = Some root /\ T ⊆ v_blocks v.

Lemma below_pinned v a root T c :
  kept v a root T -> below T root c -> pinned data_links v c.
Proof.
  intros [Ha HT]. induction 1 as [|p d c _ IH Hd Hc]; [by eapply pinned_alias|].
  eapply pinned_link; [exact IH| |exact Hc]. by eapply lookup_weaken.
Qed.

Lemma below_mono T T' root c : T ⊆ T' -> below T root c -> below T' root c.
Proof.
  intros HT. induction 1 as [|p d c _ IH Hd Hc]; [constructor|].
  eapply below_link; [exact IH|by eapply lookup_weaken|done].
Qed.

(** Trees grow from the root: the root first, then whatever a block of the tree links to. *)
Lemma tree_empty root : tree ∅ root.
Proof. split; [apply map_Forall_empty|]. intros c d H. by rewrite lookup_empty in H. Qed.

Lemma tree_grow T root c d :
  tree T root -> content c d -> c = root \/ (exists p dp, T !! p = Some dp /\ c ∈ data_links dp) ->
  tree (<[c := d]> T) root.
Proof.
  intros [Hc Hb] Hcd Hlink.
  assert (Hsub : T ⊆ <[c := d]> T).
  { apply map_subseteq_spec. intros c' x Hx. destruct (decide (c = c')) as [<-|Hne].
    - rewrite lookup_insert_eq. f_equal. by eapply content_unique; [|eapply Hc].
    - by rewrite lookup_insert_ne. }
  split; [by apply map_Forall_insert_2|]. intros c' x Hx.
  apply lookup_insert_Some in Hx as [[<- <-]|[_ Hx]].
  - destruct Hlink as [->|(p & dp & Hp & Hl)]; [constructor|].
    eapply below_link; [eapply (below_mono T); [done|by eapply Hb]|by eapply lookup_weaken|done].
  - eapply below_mono; [exact Hsub|by eapply Hb].
Qed.

(** *** The steps of a store in use *)

(** Operations that leave alias [a] alone and store a block under its own name. *)
Definition op_safe {R} (a : list Z) (o : store_op R) : Prop :=
  match o with
  | SoAlias a' _ => a' <> a
  | SoInsert c d => content c d
  | _ => True
  end.

Fixpoint safe {R} (a : list Z) (p : batch_program R) : Prop :=
  match p with
  | Return _ | Stop _ => True
  | Do o k => op_safe a o /\ forall x, safe a (k x)
  end.

Inductive storage_step (a : list Z) : StorageService -> StorageService -> Prop :=
| ss_batch {R} st op (p : batch_program R) st' r :
    safe a p -> rw st op (run_batch p) = (st', Ok r) -> storage_step a st st'
| ss_gc st : storage_step a st (gc_round st)
| ss_evict st fuel st' r : evict fuel st = Some (st', r) -> storage_step a st st'
| ss_flush st st' : db_flush st = (st', Ok tt) -> storage_step a st st'.

Definition st_kept (st : StorageService) := kept (view (store st)).

Lemma op_kept {R} a (o : store_op R) v v' r root T :
  op_safe a o -> map_Forall content T -> spec_op o v v' r -> kept v a root T -> kept v' a root T.
Proof.
  intros Hs Hc Ho [Ha HT]. destruct o; cbn in *; try (subst v'; by split);
    try (by match type of Ho with _ /\ _ => destruct Ho as [-> _] end; split); subst v'; split; cbn; try done.
  - apply map_subseteq_spec. intros c' x Hx. destruct (decide (c = c')) as [<-|Hne].
    + rewrite lookup_insert_eq. f_equal. by eapply content_unique; [|eapply Hc].
    + rewrite lookup_insert_ne by done. by eapply lookup_weaken.
  - destruct c; [by rewrite lookup_insert_ne|by rewrite lookup_delete_ne].
Qed.

Lemma batch_kept {R} a (p : batch_program R) v v' r root T :
  safe a p -> map_Forall content T -> spec_batch p v v' r -> kept v a root T -> kept v' a root T.
Proof.
  intros Hs Hc. revert v Hs. induction p as [x|e|A o k IH]; intros v Hs; cbn in *; [by intros [-> _]|done|].
  intros (v1 & x & Ho & Hb) Hk. eapply IH; [apply Hs|done|]. eapply op_kept; [apply Hs|done..].
Qed.

Lemma gc_kept s n d s' r a root T :
  tree T root -> incremental_gc s n d = (s', r) -> kept (view s) a root T -> kept (view s') a root T.
Proof.
  intros [_ Hb] Hgc Hk. pose proof Hk as [Ha HT]. split; [by rewrite (gc_aliases _ _ _ _ _ Hgc)|].
  apply map_subseteq_spec. intros c x Hx. eapply gc_keeps_pinned; [done| |by eapply lookup_weaken].
  eapply below_pinned; [done|by eapply Hb].
Qed.

Lemma evict_kept fuel st st' r a root T :
  tree T root -> evict fuel st = Some (st', r) -> st_kept st a root T -> st_kept st' a root T.
Proof.
  intros Ht. revert st. induction fuel as [|fuel IH]; intros st; cbn; [done|].
  destruct (incremental_gc (store st) _ _) as [s res] eqn:E. intros Hev Hk.
  assert (Hk' : st_kept (with_store st s) a root T) by (by eapply gc_kept).
  destruct res as [[]|e]; [by injection Hev as <- _| |by injection Hev as <- _]. by eapply IH.
Qed.

Lemma step_kept a root T st st' :
  tree T root -> storage_step a st st' -> st_kept st a root T -> st_kept st' a root T.
Proof.
  intros Ht Hst Hk. destruct Hst as [R st op p st' r Hs E|st|st fuel st' r E|st st' E].
  - eapply batch_kept; [exact Hs|apply Ht| |exact Hk].
    destruct (rw_ok _ _ _ _ _ E) as (t & s & Ef & Ec & <-). apply batch_refines in Ef.
    rewrite transaction_view in Ef. by rewrite (commit_view _ _ Ec).
  - unfold gc_round. destruct (incremental_gc _ _ _) as [s r] eqn:E. by eapply gc_kept.
  - by eapply evict_kept.
  - unfold db_flush in E. destruct (store_flush (store st)) as [s [[]|e]] eqn:Ef; [|done].
    injection E as <-. unfold st_kept. cbn. by rewrite (flush_view _ _ Ef).
Qed.

Lemma steps_kept a root T st st' :
  tree T root -> rtc (storage_step a) st st' -> st_kept st a root T -> st_kept st' a root T.
Proof. intros Ht. induction 1; eauto using step_kept. Qed.

(** Inserting a block of the tree adds it to what is kept. *)
Lemma insert_kept st c d st' a root T :
  tree T root -> content c d -> db_insert st c d = (st', Ok tt) -> st_kept st a root T ->
  st_kept st' a root (<[c := d]> T).
Proof.
  intros Ht Hc E [Ha HT]. apply (rw_op_refines st "insert" (SoInsert c d)) in E. cbn in E.
  unfold st_kept. rewrite E. split; [done|]. cbn. by apply insert_mono.
Qed.

(** *** Failures *)

(** Whatever happens to the storage; the calls may fail. *)
Inductive storage_event (a : list Z) : StorageService -> StorageService -> Prop :=
| ev_batch {R} st op (p : batch_program R) : safe a p -> storage_event a st (rw st op (run_batch p)).1
| ev_gc st : storage_event a st (gc_round st)
| ev_evict st fuel st' r : evict fuel st = Some (st', r) -> storage_event a st st'
| ev_flush st : storage_event a st (db_flush st).1.

Section Failures.
Context {FL : FailureLaws}.

Lemma any_batch_kept {R} a (p : batch_program R) t t' r root T :
  safe a p -> map_Forall content T -> run_batch p t = (t', r) ->
  kept (txn_view t) a root T -> kept (txn_view t') a root T.
Proof.
  intros Hs Hc. revert t Hs. induction p as [x|e|A o k IH]; intros t Hs; cbn in *;
    [by intros [= <- _]|by intros [= <- _]|].
  destruct (run_op o t) as [t1 [x|e]] eqn:E; intros H Hk.
  - eapply IH; [apply Hs|exact H|]. eapply op_kept; [apply Hs|done|by eapply op_refines|done].
  - injection H as <- _. destruct (op_failed _ _ _ _ E) as [->|[x Hx]]; [done|].
    by eapply op_kept; [apply Hs|..].
Qed.

Lemma any_rw_kept {R} a st op (p : batch_program R) root T :
  safe a p -> map_Forall content T -> st_kept st a root T -> st_kept (rw st op (run_batch p)).1 a root T.
Proof.
  intros Hs Hc Hk. unfold rw, rw_mut, st_kept in *. cbn.
  destruct (run_batch p (transaction (store st))) as [t r] eqn:E.
  assert (Ht : kept (txn_view t) a root T) by (eapply any_batch_kept; [done..|exact E|by rewrite transaction_view]).
  destruct r as [x|e]; cbn.
  - destruct (txn_commit t) as [s [[]|e]] eqn:Ec; cbn; [by rewrite (commit_view _ _ Ec)|].
    by destruct (commit_failed p _ _ _ _ _ E Ec) as [->| ->].
  - by destruct (drop_leaves p _ _ _ E) as [->| ->].
Qed.

Lemma event_kept a root T st st' :
  tree T root -> storage_event a st st' -> st_kept st a root T -> st_kept st' a root T.
Proof.
  intros Ht Hst Hk. destruct Hst as [R st op p Hs|st|st fuel st' r E|st].
  - apply any_rw_kept; [done|apply Ht|done].
  - eapply step_kept; [done|apply ss_gc|done].
  - by eapply evict_kept.
  - unfold db_flush. destruct (store_flush (store st)) as [s [[]|e]] eqn:Ef; unfold st_kept; cbn;
      [by rewrite (flush_view _ _ Ef)|by rewrite (flush_failed _ _ _ Ef)].
Qed.

(** C14: data below an alias is never lost.  If the store has all blocks of a tree and
    an alias that points to its root, then it still has every one of them, unchanged,
    and [get] returns it unless it fails, after any sequence of batches that do not change
    this alias and store blocks under their own CIDs, flushes, rounds of the garbage
    collector and evictions; also if batches give up, or operations, commits and flushes
    of the store fail.  The collector may choose what it removes as it likes, as long as
    it keeps blocks that are linked from an alias. *)
Theorem aliased_tree_survives a root T st st' :
  tree T root -> st_kept st a root T -> rtc (storage_event a) st st' ->
  st_kept st' a root T /\
  forall c d st'' r, T !! c = Some d -> db_get st' c = (st'', Ok r) -> r = Some d.
Proof.
  intros Ht Hk Hr. assert (Hk' : st_kept st' a root T) by (induction Hr; eauto using event_kept). split; [done|].
  intros c d st'' r Hd E. apply (rw_op_refines st' "get" (SoGet c)) in E. destruct E as [_ ->].
  destruct Hk' as [_ HT]. by eapply lookup_weaken.
Qed.
End Failures.

(** The blocks of [l], in this order, each followed by anything that can happen. *)
Inductive inserting (a : list Z) : list (Cid * StoreData) -> StorageService -> StorageService -> Prop :=
| ins_nil st : inserting a [] st st
| ins_cons c d l st st1 st2 st' :
    db_insert st c d = (st1, Ok tt) -> rtc (storage_step a) st1 st2 -> inserting a l st2 st' ->
    inserting a ((c, d) :: l) st st'.

(** Every block is the root or is linked from one before it. *)
Fixpoint top_down (root : Cid) (T : gmap Cid StoreData) (l : list (Cid * StoreData)) : Prop :=
  match l with
  | [] => True
  | (c, d) :: l =>
      content c d /\ (c = root \/ exists p dp, T !! p = Some dp /\ c ∈ data_links dp) /\
      top_down root (<[c := d]> T) l
  end.

Lemma inserting_kept a root l T st st' :
  tree T root -> top_down root T l -> st_kept st a root T -> inserting a l st st' ->
  tree (foldl (fun T cd => <[cd.1 := cd.2]> T) T l) root /\
  st_kept st' a root (foldl (fun T cd => <[cd.1 := cd.2]> T) T l).
Proof.
  intros Ht Htd Hk Hi. revert T Ht Htd Hk.
  induction Hi as [st|c d l st st1 st2 st' E Hr Hi IH]; intros T Ht Htd Hk; [done|]. cbn in *.
  destruct Htd as (Hc & Hl & Htd). assert (Ht' := tree_grow T root c d Ht Hc Hl).
  apply IH; [done|done|]. eapply steps_kept; [done|exact Hr|]. by eapply insert_kept.
Qed.

(** The blocks that were inserted are all there. *)
Lemma foldl_inserts root l T :
  map_Forall content T -> top_down root T l ->
  (forall c d, T !! c = Some d -> foldl (fun T cd => <[cd.1 := cd.2]> T) T l !! c = Some d) /\
  (forall c d, (c, d) ∈ l -> foldl (fun T cd => <[cd.1 := cd.2]> T) T l !! c = Some d).
Proof.
  revert T. induction l as [|[c d] l IH]; intros T HT Htd; cbn in *; [split; [done|by intros ?? ?%not_elem_of_nil]|].
  destruct Htd as (Hc & _ & Htd). destruct (IH (<[c := d]> T)) as [H1 H2];
    [by apply map_Forall_insert_2|done|]. split.
  - intros c' x Hx. apply H1. destruct (decide (c = c')) as [<-|Hne]; [|by rewrite lookup_insert_ne].
    rewrite lookup_insert_eq. f_equal. by eapply content_unique; [|eapply HT].
  - intros c' x [[= -> ->]|Hx]%elem_of_cons; [|by apply H2]. apply H1. by rewrite lookup_insert_eq.
Qed.

(** Inserting a tree while the collector runs.  With the alias set first and the
    blocks inserted from the root downwards, each block is pinned from the moment it is
    stored: whatever the collector does between two insertions, in the end the store
    has the whole tree. *)
Theorem top_down_insert_complete a root l st st' :
  top_down root ∅ l -> v_aliases (view (store st)) !! a = Some root -> inserting a l st st' ->
  v_aliases (view (store st')) !! a = Some root /\
  forall c d, (c, d) ∈ l -> blocks (store st') !! c = Some d.
Proof.
  intros Htd Ha Hi. destruct (inserting_kept a root l ∅ st st') as [[Hc _] [Ha' HT]];
    [apply tree_empty|done|split; [done|apply map_empty_subseteq]|done|].
  split; [done|]. intros c d Hin. eapply lookup_weaken; [|exact HT].
  by apply (foldl_inserts root l ∅ (map_Forall_empty _) Htd).
Qed.
End Pins.

(** ** A concrete store that collects: blocks are their links *)
Module SimPins.
Import Sim SimProtocols.

Record dag := mkDag { dag_blocks : gmap N (list N); dag_aliases : gmap (list Z) N; dag_limit : nat }.

(** Is [c] the root of an alias or linked from a stored block? *)
Definition referenced (s : dag) (c : N) : bool :=
  bool_decide (c ∈ (map_to_list (dag_aliases s)).*2) ||
  bool_decide (Exists (fun x => c ∈ x.2) (map_to_list (dag_blocks s))).

Definition dag_gc (s : dag) : dag * result bool string :=
  match filter (fun x => referenced s x.1 = false) (map_to_list (dag_blocks s)) with
  | (c, _) :: _ =>
      if decide (dag_limit s < size (dag_blocks s)) then
        (mkDag (delete c (dag_blocks s)) (dag_aliases s) (dag_limit s), Ok false)
      else (s, Ok true)
  | [] => (s, Ok true)
  end.

#[export] Instance dag_store : BlockStores (L := sim) (Pr := sim_protocols) | 100 := {|
  StoreData := list N;
  StoreErr := string;
  BlockStore := dag;
  Txn := dag;
  TempPin := list N;
  transaction := fun s => s;
  incremental_gc := fun s _ _ => dag_gc s;
  store_flush := fun s => (s, Ok tt);
  txn_commit := fun t => (t, Ok tt);
  txn_drop := fun t => t;
  txn_temp_pin := fun t => (t, []);
  extend_temp_pin := fun t p c => (t, c :: p, Ok tt);
  get_block_cids := fun t => (t, Ok (map_to_list (dag_blocks t)).*1);
  has_block := fun t c => (t, Ok (bool_decide (is_Some (dag_blocks t !! c))));
  get_block := fun t c => (t, Ok (dag_blocks t !! c));
  put_block := fun t c d => (mkDag (<[c := d]> (dag_blocks t)) (dag_aliases t) (dag_limit t), Ok tt);
  txn_resolve := fun t a => (t, Ok (dag_aliases t !! a));
  txn_alias := fun t a c =>
    (mkDag (dag_blocks t)
       (match c with Some c => <[a := c]> (dag_aliases t) | None => delete a (dag_aliases t) end)
       (dag_limit t), Ok tt);
  txn_aliases := fun t => (t, Ok (map_to_list (dag_aliases t)));
  txn_reverse_alias := fun t _ => (t, Ok None);
  get_missing_blocks := fun t _ => (t, Ok [])
|}.

Definition dag_view (m : dag) : @store_view sim sim_protocols dag_store :=
  @mkView sim sim_protocols dag_store (dag_blocks m) (dag_aliases m).

Lemma dag_gc_spec s s' r :
  dag_gc s = (s', r) ->
  (s' = s /\ r = Ok true) \/
  (r = Ok false /\ exists c d, dag_blocks s !! c = Some d /\ referenced s c = false /\
     s' = mkDag (delete c (dag_blocks s)) (dag_aliases s) (dag_limit s)).
Proof.
  unfold dag_gc. destruct (filter _ _) as [|[c d] l] eqn:E; [intros [= <- <-]; by left|].
  case_decide; [|intros [= <- <-]; by left]. intros [= <- <-]. right. split; [done|]. exists c, d.
  assert (Hin : (c, d) ∈ filter (fun x => referenced s x.1 = false) (map_to_list (dag_blocks s)))
    by (rewrite E; apply list_elem_of_here).
  apply list_elem_of_filter in Hin as [Hr Hin]. apply elem_of_map_to_list in Hin. done.
Qed.

#[export] Instance dag_store_laws : StoreLaws (BS := dag_store).
Proof.
  refine {| view := dag_view : @BlockStore sim sim_protocols dag_store -> _;
            txn_view := dag_view : @Txn sim sim_protocols dag_store -> _ |};
    cbn -[dag_gc]; intros; simplify_eq; try done.
  - split; [apply NoDup_fst_map_to_list|]. split; [|done].
    apply set_eq. intros c. rewrite elem_of_list_to_set, elem_of_dom, list_elem_of_fmap. split.
    + intros ([c' d] & -> & H%elem_of_map_to_list). by exists d.
    + intros [d H]. exists (c, d). by rewrite elem_of_map_to_list.
  - match goal with H : dag_gc _ = _ |- _ => apply dag_gc_spec in H as [[_ ?]|(_ & c & x & Hc & _ & ->)] end;
      [done|]. cbn. rewrite map_size_delete_Some by (by exists x).
    assert (size (dag_blocks s) <> 0) by (intros H0%map_size_empty_iff; by rewrite H0, lookup_empty in Hc). lia.
Defined.

(** The content of the names: 1 is the root of 2 and 3. *)
Definition doc (c : N) : list N := if decide (c = 1%N) then [2%N; 3%N] else [].

Lemma referenced_pinned s c :
  pinned (BS := dag_store) (fun d : @StoreData _ _ dag_store => d) (dag_view s) c -> referenced s c = true.
Proof.
  unfold referenced. rewrite orb_true_iff, !bool_decide_eq_true. intros [a c' Ha|p d c' _ Hd Hc]; cbn in *.
  - left. apply list_elem_of_fmap. exists (a, c'). split; [done|]. by apply elem_of_map_to_list.
  - right. apply Exists_exists. exists (p, d). split; [by apply elem_of_map_to_list|done].
Qed.

#[export] Instance dag_pin_laws : PinLaws (SL := dag_store_laws).
Proof.
  refine {| data_links := fun d : @StoreData _ _ dag_store => d : list (@Cid sim sim_protocols);
            content := fun (c : @Cid sim sim_protocols) (d : @StoreData _ _ dag_store) => d = doc c |};
    cbn -[dag_gc]; intros.
  - congruence.
  - by match goal with H : dag_gc _ = _ |- _ => apply dag_gc_spec in H as [[-> _]|(_ & c & x & _ & _ & ->)] end.
  - match goal with H : dag_gc _ = _ |- _ => apply dag_gc_spec in H as [[-> _]|(_ & c' & x' & _ & Hr & ->)] end;
      [done|]. cbn. rewrite lookup_delete_ne; [done|]. intros ->.
    match goal with H : pinned _ _ _ |- _ => apply referenced_pinned in H end. congruence.
  - by simplify_eq.
Defined.

Definition empty_dag : @StorageService sim sim_protocols dag_store := mkStorage (mkDag ∅ ∅ 0) U64_MAX ZERO ∅.
Definition root_of_tree : @Cid sim sim_protocols := 1%N.
Definition whole_tree : list (@Cid sim sim_protocols * @StoreData sim sim_protocols dag_store) :=
  [(1%N, doc 1); (2%N, doc 2); (3%N, doc 3)].
Definition root_alias : list Z := [114%Z].
(** The alias is set and each insertion is followed by a round of the collector. *)
Definition aliased := (db_alias empty_dag root_alias (Some root_of_tree)).1.
Definition add_and_collect (st : @StorageService sim sim_protocols dag_store) x :=
  gc_round (db_insert st x.1 x.2).1.
Definition filled := foldl add_and_collect aliased whole_tree.

Lemma collect_inserting a l st : inserting a l st (foldl add_and_collect st l).
Proof.
  revert st. induction l as [|[c d] l IH]; intros st; cbn [foldl]; [apply ins_nil|].
  eapply ins_cons; [reflexivity|apply rtc_once, ss_gc|apply IH].
Qed.

Lemma filled_inserting : inserting root_alias whole_tree aliased filled.
Proof. apply collect_inserting. Qed.

Lemma whole_tree_top_down : top_down (PL := dag_pin_laws) root_of_tree ∅ whole_tree.
Proof.
  split; [reflexivity|]. split; [by left|]. split; [reflexivity|].
  split; [right; exists 1%N, (doc 1); split; [reflexivity|vm_compute; by left]|]. split; [reflexivity|].
  split; [right; exists 1%N, (doc 1); split; [reflexivity|vm_compute; by right; left]|]. exact I.
Qed.
End SimPins.

Section PinsWitness.
Import Sim SimProtocols SimPins.

Lemma top_down_insert_complete_witness :
  blocks (store filled) !! (3%N : @Cid sim sim_protocols) = Some (doc 3).
Proof.
  apply (top_down_insert_complete root_alias root_of_tree whole_tree aliased filled
    whole_tree_top_down eq_refl filled_inserting).
  right. right. left.
Defined.

Definition tree_map : gmap (@Cid sim sim_protocols) (@StoreData sim sim_protocols dag_store) :=
  foldl (fun T cd => <[cd.1 := cd.2]> T) ∅ whole_tree.

Lemma filled_tree : tree (PL := dag_pin_laws) tree_map root_of_tree /\ st_kept filled root_alias root_of_tree tree_map.
Proof.
  apply (inserting_kept root_alias root_of_tree whole_tree ∅ aliased filled).
  - apply tree_empty.
  - apply whole_tree_top_down.
  - split; [reflexivity|apply map_empty_subseteq].
  - apply filled_inserting.
Qed.

(** This store never fails by itself; a batch that gives up leaves what it wrote. *)
#[local] Instance dag_failures : FailureLaws (SL := dag_store_laws).
Proof.
  split; [|by right|done|done].
  assert (Hpin : forall links t p t' p' e, batch_temp_pin (BS := dag_store) links t p <> (t', p', Err e)).
  { intros links. induction links as [|l links IH]; intros t p t' p' e; cbn; [done|apply IH]. }
  intros R o t t' e E. destruct o; try done. cbn -[batch_temp_pin] in E.
  match type of E with context [batch_temp_pin ?l ?u ?p] =>
    destruct (batch_temp_pin (BS := dag_store) l u p) as [[u' p'] [[]|x]] eqn:Ep; [done|by destruct (Hpin _ _ _ _ _ _ Ep)] end.
Qed.

(** A batch stores an unrelated block and gives up; then the collector runs twice. *)
Definition giving_up := rw filled "batch_ops" (run_batch (Do (SoInsert (9%N : @Cid sim sim_protocols)
  (doc 9 : @StoreData sim sim_protocols dag_store)) (fun _ => Stop (R := unit) ("nope!" : @StoreErr _ _ dag_store)))).

Lemma aliased_tree_survives_witness :
  giving_up.2 = Err "nope!" /\ st_kept (gc_round (gc_round giving_up.1)) root_alias root_of_tree tree_map.
Proof.
  split; [reflexivity|]. destruct filled_tree as [Ht Hk].
  apply (aliased_tree_survives root_alias root_of_tree tree_map filled (gc_round (gc_round giving_up.1)) Ht Hk).
  eapply rtc_l; [|eapply rtc_l; [apply ev_gc|apply rtc_once, ev_gc]].
  apply ev_batch. split; [reflexivity|]. intros x. exact I.
Defined.
End PinsWitness.
