(* ===== verification/Cache.v ===== *)
(** * What eviction removes (src/db.rs, documentation of [StorageConfig])

    "Up to this number, the store will retain everything even if not pinned.  Once this
    number is exceeded, the store will run garbage collection of all unpinned blocks until
    the block criterion is met again"; access times make it an LRU cache.  [CacheLaws]
    states this of the library: every transaction keeps the order in which blocks were
    last used, one incremental collection removes the unpinned blocks that were used the
    longest ago, and [reverse_alias] names the aliases that keep a block.

    Shown here: [evict] as a whole removes exactly such blocks, and no more of them than
    the number asks for, however its work is cut into rounds. *)
From S2P Require Import Prelude Time Libp2p Protocols Db Pins.

(** The order in which blocks were last used, the oldest first. *)
Definition touch `{EqDecision A} (c : A) (l : list A) : list A := filter (fun x => x <> c) l ++ [c].

Section Spec.
Context `{PL : PinLaws}.

(** [c_temp]: temporary pins have been made, which keep further blocks. *)
Record cache := mkCache {
  c_view : store_view;
  c_recent : list Cid;
  c_target : Z;
  c_temp : bool
}.

Definition touched {R} (o : store_op R) : R -> list Cid -> list Cid :=
  match o in store_op R return R -> list Cid -> list Cid with
  | SoInsert c _ => fun _ => touch c
  | SoGet c => fun r l => match r with Some _ => touch c l | None => l end
  | _ => fun _ l => l
  end.

Definition makes_temp_pin {R} (o : store_op R) : bool :=
  match o with SoCreateTempPin | SoTempPin _ _ => true | _ => false end.

Definition stored (v : cache) (c : Cid) : Prop := is_Some (v_blocks (c_view v) !! c).
Definition unpinned (v : cache) (c : Cid) : Prop := stored v c /\ ~ pinned data_links (c_view v) c.
Definition n_stored (v : cache) : Z := Z.of_nat (size (v_blocks (c_view v))).

(** [rm] is removed from [v]: unpinned blocks, each of them used before every unpinned
    block that is left, and only while the store holds more than its target. *)
Record collected (v v' : cache) (rm : gset Cid) : Prop := {
  col_target : c_target v' = c_target v;
  col_temp : c_temp v' = c_temp v;
  col_aliases : v_aliases (c_view v') = v_aliases (c_view v);
  col_blocks : v_blocks (c_view v') = filter (fun x => x.1 ∉ rm) (v_blocks (c_view v));
  col_recent : c_recent v' = filter (fun c => c ∉ rm) (c_recent v);
  col_unpinned c : c ∈ rm -> unpinned v c;
  col_oldest c d : c ∈ rm -> unpinned v' d -> [c; d] `sublist_of` c_recent v;
  col_needed : rm = ∅ \/ (c_target v <= n_stored v')%Z
}.

(** Nothing is left to do. *)
Definition within_target (v : cache) : Prop := (n_stored v <= c_target v)%Z \/ forall c, ~ unpinned v c.

(** What a call that succeeds does, and what it answers. *)
Definition reverse_ok (v : store_view) (c : Cid) (r : option (gset (list Z))) : Prop :=
  match r with
  | None => v_blocks v !! c = None
  | Some s => is_Some (v_blocks v !! c) /\
      forall a, a ∈ s <-> exists root, v_aliases v !! a = Some root /\ below (v_blocks v) root c
  end.

Definition answers {R} (o : store_op R) (v v' : cache) (r : R) : Prop :=
  spec_op o (c_view v) (c_view v') r /\ c_recent v' = touched o r (c_recent v) /\
  c_target v' = c_target v /\ (makes_temp_pin o = false -> c_temp v' = c_temp v) /\
  match o in store_op R return R -> Prop with
  | SoReverseAlias c => reverse_ok (c_view v) c
  | _ => fun _ => True
  end r.
End Spec.

Class CacheLaws `{PL : PinLaws} := {
  recency : BlockStore -> list Cid;
  target : BlockStore -> Z;
  temp_pinned : BlockStore -> bool;
  txn_cache : Txn -> list Cid * Z * bool;
  transaction_cache s : txn_cache (transaction s) = (recency s, target s, temp_pinned s);
  commit_cache t s : txn_commit t = (s, Ok tt) -> txn_cache t = (recency s, target s, temp_pinned s);
  op_cache {R} (o : store_op R) t t' r : run_op o t = (t', Ok r) ->
    exists b, txn_cache t' = (touched o r (txn_cache t).1.1, (txn_cache t).1.2, b) /\
      (makes_temp_pin o = false -> b = (txn_cache t).2);
  reverse_alias_exact t c t' r : txn_reverse_alias t c = (t', Ok r) -> reverse_ok (txn_view t) c r;
  flush_cache s s' : store_flush s = (s', Ok tt) ->
    (recency s', target s', temp_pinned s') = (recency s, target s, temp_pinned s);
  gc_lru s n d s' fin : incremental_gc s n d = (s', Ok fin) -> temp_pinned s = false ->
    exists rm, collected (mkCache (view s) (recency s) (target s) false)
      (mkCache (view s') (recency s') (target s') (temp_pinned s')) rm /\
      (fin = true -> within_target (mkCache (view s') (recency s') (target s') (temp_pinned s')))
}.

Section Evict.
Context `{CL : CacheLaws}.

Definition cache_of (st : StorageService) : cache :=
  mkCache (view (store st)) (recency (store st)) (target (store st)) (temp_pinned (store st)).

(** Every call of the service that succeeds. *)
Lemma rw_answers {R} st op (o : store_op R) st' r :
  rw st op (run_op o) = (st', Ok r) -> answers o (cache_of st) (cache_of st') r.
Proof.
  intros E. pose proof (rw_op_refines _ _ _ _ _ E) as Hv.
  destruct (rw_ok _ _ _ _ _ E) as (t & s & Ef & Ec & Es).
  destruct (op_cache _ _ _ _ Ef) as (b & Hc & Hb). rewrite (commit_cache _ _ Ec), transaction_cache in Hc. cbn in Hc.
  rewrite transaction_cache in Hb. unfold cache_of, answers. rewrite Es in *. cbn. simplify_eq.
  split_and!; [done|done|done|done|]. destruct o; try done. cbn in Ef. apply reverse_alias_exact in Ef.
  by rewrite transaction_view in Ef.
Qed.

Lemma flush_answers st st' : db_flush st = (st', Ok tt) -> cache_of st' = cache_of st.
Proof.
  unfold db_flush. destruct (store_flush (store st)) as [s [[]|e]] eqn:E; [|done]. intros [= <-].
  unfold cache_of. cbn. rewrite (flush_view _ _ E). by pose proof (flush_cache _ _ E) as [= -> -> ->].
Qed.

(** *** Rounds add up *)

Lemma collected_pinned (v v' : cache) rm c :
  collected v v' rm -> pinned data_links (c_view v') c <-> pinned data_links (c_view v) c.
Proof.
  intros H. split.
  - induction 1 as [a c Ha|p d c _ IH Hd Hl]; [apply (pinned_alias _ _ a); by rewrite <- (col_aliases _ _ _ H)|].
    rewrite (col_blocks _ _ _ H) in Hd. apply map_lookup_filter_Some in Hd as [Hd _].
    by eapply pinned_link.
  - induction 1 as [a c Ha|p d c Hp IH Hd Hl]; [apply (pinned_alias _ _ a); by rewrite (col_aliases _ _ _ H)|].
    eapply pinned_link; [exact IH| |exact Hl]. rewrite (col_blocks _ _ _ H).
    apply map_lookup_filter_Some. split; [done|]. cbn. intros Hrm. by apply (col_unpinned _ _ _ H) in Hrm as [_ ?].
Qed.

Lemma collected_stored (v v' : cache) rm c : collected v v' rm -> stored v' c <-> stored v c /\ c ∉ rm.
Proof.
  intros H. unfold stored. rewrite (col_blocks _ _ _ H). split.
  - intros [d Hd]. apply map_lookup_filter_Some in Hd as [Hd Hc]. split; [by exists d|done].
  - intros [[d Hd] Hc]. exists d. by apply map_lookup_filter_Some.
Qed.

Lemma collected_unpinned (v v' : cache) rm c : collected v v' rm -> unpinned v' c <-> unpinned v c /\ c ∉ rm.
Proof. intros H. unfold unpinned. rewrite (collected_stored _ _ _ _ H), (collected_pinned _ _ _ _ H). naive_solver. Qed.

Lemma collected_none (v : cache) : collected v v ∅.
Proof.
  split; try done.
  - symmetry. apply map_filter_id. set_solver.
  - induction (c_recent v) as [|c l IH]; [done|]. rewrite filter_cons_True by set_solver. by f_equal.
  - by left.
Qed.

Lemma collected_trans (v v1 v2 : cache) rm1 rm2 :
  collected v v1 rm1 -> collected v1 v2 rm2 -> collected v v2 (rm1 ∪ rm2).
Proof.
  intros H1 H2. split.
  - by rewrite (col_target _ _ _ H2), (col_target _ _ _ H1).
  - by rewrite (col_temp _ _ _ H2), (col_temp _ _ _ H1).
  - by rewrite (col_aliases _ _ _ H2), (col_aliases _ _ _ H1).
  - rewrite (col_blocks _ _ _ H2), (col_blocks _ _ _ H1), map_filter_filter.
    apply map_filter_ext. intros c d _. cbn. set_solver.
  - rewrite (col_recent _ _ _ H2), (col_recent _ _ _ H1), list_filter_filter.
    apply list_filter_iff. intros c. set_solver.
  - intros c [Hc|Hc]%elem_of_union; [by apply (col_unpinned _ _ _ H1)|].
    apply (col_unpinned _ _ _ H2), (collected_unpinned _ _ _ _ H1) in Hc. by destruct Hc.
  - intros c d [Hc|Hc]%elem_of_union Hd.
    + apply (col_oldest _ _ _ H1); [done|]. by apply (collected_unpinned _ _ _ _ H2) in Hd as [? _].
    + etrans; [by eapply (col_oldest _ _ _ H2)|]. rewrite (col_recent _ _ _ H1). apply sublist_filter.
  - destruct (col_needed _ _ _ H2) as [->|Hn]; [|right; by rewrite <- (col_target _ _ _ H1)].
    destruct (col_needed _ _ _ H1) as [->|Hn]; [left; set_solver|]. right. unfold n_stored in *.
    rewrite (col_blocks _ _ _ H2), map_filter_id by set_solver. done.
Qed.

(** Each block of [rm] counts once. *)
Lemma collected_size (v v' : cache) rm : collected v v' rm -> n_stored v' = (n_stored v - Z.of_nat (size rm))%Z.
Proof.
  intros H. unfold n_stored. rewrite <- !(size_dom (D := gset Cid)).
  assert (Hd : dom (v_blocks (c_view v')) = dom (v_blocks (c_view v)) ∖ rm).
  { apply set_eq. intros c. rewrite elem_of_difference, !elem_of_dom. apply (collected_stored _ _ _ _ H). }
  assert (Hs : rm ⊆ dom (v_blocks (c_view v))).
  { intros c Hc. apply elem_of_dom. by apply (col_unpinned _ _ _ H) in Hc as [? _]. }
  rewrite Hd, size_difference by done. apply subseteq_size in Hs. lia.
Qed.

(** Eviction.  However the collector cuts its work into rounds, in the end exactly the
    unpinned blocks that were used the longest ago are gone, no more of them than were
    needed to get down to the target; and nothing more could be removed unless the store
    is within its target. *)
Theorem evict_lru fuel st st' :
  temp_pinned (store st) = false -> evict fuel st = Some (st', Ok tt) ->
  exists rm, collected (cache_of st) (cache_of st') rm /\ within_target (cache_of st').
Proof.
  revert st. induction fuel as [|fuel IH]; intros st Ht; cbn [evict]; [done|].
  destruct (incremental_gc (store st) _ _) as [s [fin|e]] eqn:E; [|done].
  destruct (gc_lru _ _ _ _ _ E Ht) as (rm & Hc & Hw).
  assert (Hc' : collected (cache_of st) (cache_of (with_store st s)) rm).
  { unfold cache_of. by rewrite Ht. }
  destruct fin; [intros [= <-]; exists rm; split; [done|by apply Hw]|].
  intros Hev. destruct (IH (with_store st s)) as (rm' & Hc2 & Hw2); [|done|].
  { pose proof (col_temp _ _ _ Hc) as H. exact H. }
  exists (rm ∪ rm'). split; [by eapply collected_trans|done].
Qed.
End Evict.

(** ** What can be reached along links, computed *)
Section Reach.
Context (T : gmap N (list N)).

Definition step (X : gset N) : gset N := X ∪ set_bind (fun c => list_to_set (default [] (T !! c))) X.
Definition universe (root : N) : gset N := {[root]} ∪ ⋃ ((fun x => list_to_set x.2) <$> map_to_list T).
Fixpoint steps (n : nat) (root : N) : gset N :=
  match n with 0 => {[root]} | S n => step (steps n root) end.
Definition reach (root : N) : gset N := steps (size (universe root)) root.

Inductive path (root : N) : N -> Prop :=
| path_root : path root root
| path_link p l c : path root p -> T !! p = Some l -> c ∈ l -> path root c.

Lemma elem_of_step X c : c ∈ step X <-> c ∈ X \/ exists p l, p ∈ X /\ T !! p = Some l /\ c ∈ l.
Proof.
  unfold step. rewrite elem_of_union, elem_of_set_bind. setoid_rewrite elem_of_list_to_set. split.
  - intros [?|(p & Hp & Hc)]; [by left|]. destruct (T !! p) as [l|] eqn:E; [right; by eauto|by apply not_elem_of_nil in Hc].
  - intros [?|(p & l & Hp & E & Hc)]; [by left|]. right. exists p. by rewrite E.
Qed.

Lemma in_universe root p l c : T !! p = Some l -> c ∈ l -> c ∈ universe root.
Proof.
  intros E Hc. unfold universe. apply elem_of_union_r, elem_of_union_list.
  exists (list_to_set l). split; [|by apply elem_of_list_to_set].
  apply list_elem_of_fmap. exists (p, l). split; [done|by apply elem_of_map_to_list].
Qed.

Lemma iter_sound root n c : c ∈ steps n root -> path root c /\ c ∈ universe root.
Proof.
  revert c. induction n as [|n IH]; intros c; cbn.
  - intros ->%elem_of_singleton. split; [constructor|]. unfold universe. set_solver.
  - intros [?|(p & l & [Hp _]%IH & E & Hc)]%elem_of_step; [by apply IH|].
    split; [by eapply path_link|by eapply in_universe].
Qed.

(** As long as a step adds something the set grows; it stays within the universe. *)
Lemma iter_grows root n :
  step (steps n root) = steps n root \/ S n <= size (steps n root).
Proof.
  induction n as [|n IH]; [right; cbn; by rewrite size_singleton|].
  destruct IH as [IH|IH]; [left; cbn; by rewrite !IH|].
  destruct (decide (step (steps n root) = steps n root)) as [E|Hne]; [left; cbn; by rewrite !E|].
  right. cbn. assert (Hs : steps n root ⊂ step (steps n root)).
  { split; [intros c Hc; apply elem_of_step; by left|]. intros Hsub. apply Hne, set_eq. intros c.
    split; [apply Hsub|]. intros Hc. apply elem_of_step. by left. }
  apply subset_size in Hs. lia.
Qed.

Lemma reach_closed root : step (reach root) = reach root.
Proof.
  unfold reach. destruct (iter_grows root (size (universe root))) as [E|H]; [done|]. exfalso.
  assert (Hsub : steps (size (universe root)) root ⊆ universe root) by (intros c [_ ?]%iter_sound; done).
  apply subseteq_size in Hsub. lia.
Qed.

Lemma root_in_iter root n : root ∈ steps n root.
Proof. induction n as [|n IH]; cbn; [by apply elem_of_singleton|apply elem_of_step; by left]. Qed.

Lemma reach_path root c : c ∈ reach root <-> path root c.
Proof.
  split; [by intros [? _]%iter_sound|]. induction 1 as [|p l c _ IH E Hc]; [apply root_in_iter|].
  rewrite <- reach_closed. apply elem_of_step. right. eauto.
Qed.
End Reach.

(** ** A concrete store: its entries in the order of their last use *)
Module SimLru.
Import Sim SimProtocols.

Record lru := mkLru {
  entries : list (N * list N);
  lru_aliases : gmap (list Z) N;
  lru_target : Z;
  lru_held : gset N   (* by temporary pins *)
}.

Definition lru_blocks (s : lru) : gmap N (list N) := list_to_map (entries s).
Definition is_pinned (s : lru) (c : N) : bool :=
  bool_decide (Exists (fun x => c ∈ reach (lru_blocks s) x.2) (map_to_list (lru_aliases s))).
Definition use (c : N) (d : list N) (s : lru) : lru :=
  mkLru (filter (fun x => x.1 <> c) (entries s) ++ [(c, d)]) (lru_aliases s) (lru_target s) (lru_held s).
Definition drop_entry (c : N) (s : lru) : lru :=
  mkLru (filter (fun x => x.1 <> c) (entries s)) (lru_aliases s) (lru_target s) (lru_held s).

(** One block per round, as long as there are too many. *)
Definition free (s : lru) (c : N) : Prop := is_pinned s c = false /\ c ∉ lru_held s.
#[export] Instance free_dec s c : Decision (free s c) := and_dec _ _.
Definition lru_gc (s : lru) : lru * result bool string :=
  match filter (fun x => free s x.1) (entries s) with
  | (c, _) :: _ =>
      if decide (lru_target s < Z.of_nat (size (lru_blocks s)))%Z then (drop_entry c s, Ok false) else (s, Ok true)
  | [] => (s, Ok true)
  end.

Definition lru_reverse (s : lru) (c : N) : option (gset (list Z)) :=
  match lru_blocks s !! c with
  | Some _ => Some (dom (filter (fun x => c ∈ reach (lru_blocks s) x.2) (lru_aliases s)))
  | None => None
  end.

#[export] Instance lru_store : BlockStores (L := sim) (Pr := sim_protocols) | 100 := {|
  StoreData := list N;
  StoreErr := string;
  BlockStore := lru;
  Txn := lru;
  TempPin := list N;
  transaction := fun s => s;
  incremental_gc := fun s _ _ => lru_gc s;
  store_flush := fun s => (s, Ok tt);
  txn_commit := fun t => (t, Ok tt);
  txn_drop := fun t => t;
  txn_temp_pin := fun t => (t, []);
  extend_temp_pin := fun t p c =>
    (mkLru (entries t) (lru_aliases t) (lru_target t) ({[c]} ∪ lru_held t), c :: p, Ok tt);
  get_block_cids := fun t => (t, Ok (map_to_list (lru_blocks t)).*1);
  has_block := fun t c => (t, Ok (bool_decide (is_Some (lru_blocks t !! c))));
  get_block := fun t c => match lru_blocks t !! c with Some d => (use c d t, Ok (Some d)) | None => (t, Ok None) end;
  put_block := fun t c d => (use c d t, Ok tt);
  txn_resolve := fun t a => (t, Ok (lru_aliases t !! a));
  txn_alias := fun t a c =>
    (mkLru (entries t)
       (match c with Some c => <[a := c]> (lru_aliases t) | None => delete a (lru_aliases t) end)
       (lru_target t) (lru_held t), Ok tt);
  txn_aliases := fun t => (t, Ok (map_to_list (lru_aliases t)));
  txn_reverse_alias := fun t c => (t, Ok (lru_reverse t c));
  get_missing_blocks := fun t c =>
    (t, Ok (elements (filter (fun x => lru_blocks t !! x = None) (reach (lru_blocks t) c))))
|}.

Definition lru_view (m : lru) : @store_view sim sim_protocols lru_store :=
  @mkView sim sim_protocols lru_store (lru_blocks m) (lru_aliases m).

Lemma filter_lookup (l : list (N * list N)) c c' :
  (list_to_map (filter (fun x => x.1 <> c) l) : gmap N (list N)) !! c' =
    if decide (c' = c) then None else (list_to_map l : gmap N (list N)) !! c'.
Proof.
  induction l as [|[k d] l IH]; [cbn; rewrite !lookup_empty; by case_decide|].
  destruct (decide (k = c)) as [->|Hk].
  - rewrite filter_cons_False by naive_solver. rewrite IH. cbn. case_decide; [done|]. by rewrite lookup_insert_ne.
  - rewrite filter_cons_True by done. cbn. destruct (decide (c' = k)) as [->|Hc'].
    + rewrite !lookup_insert_eq. by rewrite decide_False.
    + by rewrite !lookup_insert_ne, IH by done.
Qed.

Lemma use_blocks c d s : lru_blocks (use c d s) = <[c := d]> (lru_blocks s).
Proof.
  apply map_eq. intros c'. unfold lru_blocks, use. cbn. rewrite list_to_map_app.
  rewrite lookup_union, filter_lookup. cbn. destruct (decide (c' = c)) as [->|Hne].
  - by rewrite !lookup_insert_eq.
  - rewrite !lookup_insert_ne, lookup_empty by done. by destruct (_ !! c').
Qed.

Lemma use_same c d s : lru_blocks s !! c = Some d -> lru_blocks (use c d s) = lru_blocks s.
Proof. intros H. rewrite use_blocks. by apply insert_id. Qed.

Lemma drop_entry_blocks c s : lru_blocks (drop_entry c s) = delete c (lru_blocks s).
Proof.
  apply map_eq. intros c'. unfold lru_blocks, drop_entry. cbn. rewrite filter_lookup.
  destruct (decide (c' = c)) as [->|Hne]; [by rewrite lookup_delete_eq|by rewrite lookup_delete_ne].
Qed.

Lemma lru_gc_spec s s' r :
  lru_gc s = (s', r) ->
  (s' = s /\ r = Ok true /\
     ((Z.of_nat (size (lru_blocks s)) <= lru_target s)%Z \/ forall x, x ∈ entries s -> ~ free s x.1)) \/
  (r = Ok false /\ (lru_target s < Z.of_nat (size (lru_blocks s)))%Z /\ exists c d l,
     filter (fun x => free s x.1) (entries s) = (c, d) :: l /\ s' = drop_entry c s).
Proof.
  unfold lru_gc. destruct (filter _ _) as [|[c d] l] eqn:E.
  - intros [= <- <-]. left. split_and!; [done|done|]. right. intros x Hx.
    intros Hf. apply (not_elem_of_nil x). rewrite <- E. by apply list_elem_of_filter.
  - case_decide; intros [= <- <-]; [right; by eauto 10|]. left. split_and!; [done|done|]. left. lia.
Qed.

Lemma victim s c d l :
  filter (fun x => free s x.1) (entries s) = (c, d) :: l ->
  free s c /\ is_Some (lru_blocks s !! c).
Proof.
  intros E. assert (Hin : (c, d) ∈ filter (fun x => free s x.1) (entries s))
    by (rewrite E; apply list_elem_of_here).
  apply list_elem_of_filter in Hin as [Hp Hin]. split; [done|].
  destruct (lru_blocks s !! c) eqn:Ec; [done|]. apply not_elem_of_list_to_map in Ec.
  exfalso. apply Ec. apply list_elem_of_fmap. by exists (c, d).
Qed.

#[export] Instance lru_store_laws : StoreLaws (BS := lru_store).
Proof.
  refine {| view := lru_view : @BlockStore sim sim_protocols lru_store -> _;
            txn_view := lru_view : @Txn sim sim_protocols lru_store -> _ |};
    cbn -[lru_gc lru_blocks use]; intros; simplify_eq; try done.
  - unfold lru_view. by rewrite use_blocks.
  - destruct (lru_blocks t !! c) as [d|] eqn:E; simplify_eq; [|done]. split; [done|].
    unfold lru_view. by rewrite use_same.
  - split; [apply NoDup_fst_map_to_list|]. split; [|done].
    apply set_eq. intros c. rewrite elem_of_list_to_set, elem_of_dom, list_elem_of_fmap. split.
    + intros ([c' d] & -> & H%elem_of_map_to_list). by exists d.
    + intros [d H]. exists (c, d). by rewrite elem_of_map_to_list.
  - match goal with H : lru_gc _ = _ |- _ =>
      apply lru_gc_spec in H as [(_ & ? & _)|(_ & _ & c & x & l & [_ Hc]%victim & ->)] end; [done|].
    rewrite drop_entry_blocks, map_size_delete_Some by done.
    assert (size (lru_blocks s) <> 0); [|lia].
    intros H0%map_size_empty_iff. rewrite H0, lookup_empty in Hc. by destruct Hc.
Defined.

(** Blocks are their links; the blocks of the tests have these. *)
Definition doc (c : N) : list N :=
  match c with 2 | 3 => [1] | 6 => [1; 4] | 7 => [1; 5] | _ => [] end%N.

Lemma is_pinned_iff s c :
  is_pinned s c = true <-> pinned (BS := lru_store) (fun d : @StoreData _ _ lru_store => d) (lru_view s) c.
Proof.
  unfold is_pinned. rewrite bool_decide_eq_true, Exists_exists. split.
  - intros ([a root] & Ha%elem_of_map_to_list & Hp%reach_path). cbn in Hp.
    induction Hp as [|p l c Hp IH E Hc]; [by eapply (pinned_alias (BS := lru_store) _ (lru_view s) a)|].
    by eapply (pinned_link (BS := lru_store) _ (lru_view s) p l).
  - induction 1 as [a c Ha|p d c _ ([a root] & Ha & Hp) Hd Hl].
    + exists (a, c). split; [by apply elem_of_map_to_list|]. apply reach_path. constructor.
    + exists (a, root). split; [done|]. apply reach_path. apply reach_path in Hp. by eapply path_link.
Qed.

Lemma gc_collects s s' r :
  lru_gc s = (s', r) -> lru_aliases s' = lru_aliases s /\ lru_target s' = lru_target s /\ lru_held s' = lru_held s.
Proof. by intros [(-> & _)|(_ & _ & c & d & l & _ & ->)]%lru_gc_spec. Qed.

#[export] Instance lru_pin_laws : PinLaws (SL := lru_store_laws).
Proof.
  refine {| data_links := fun d : @StoreData _ _ lru_store => d : list (@Cid sim sim_protocols);
            content := fun (c : @Cid sim sim_protocols) (d : @StoreData _ _ lru_store) => d = doc c |};
    cbn -[lru_gc lru_blocks]; intros.
  - congruence.
  - by edestruct gc_collects as [-> _].
  - match goal with H : lru_gc _ = _ |- _ =>
      apply lru_gc_spec in H as [(-> & _)|(_ & _ & c' & x' & l & [[Hv _] _]%victim & ->)] end; [done|].
    rewrite drop_entry_blocks, lookup_delete_ne; [done|]. intros ->.
    match goal with H : pinned _ _ _ |- _ => apply is_pinned_iff in H end. congruence.
  - by simplify_eq.
Defined.

Lemma below_path s root c : below (PL := lru_pin_laws) (lru_blocks s) root c <-> path (lru_blocks s) root c.
Proof.
  split; induction 1; try constructor.
  - by eapply path_link.
  - by eapply (below_link (PL := lru_pin_laws)).
Qed.

(** Everything that is stored is in the order, and the first entry without a pin is the
    oldest. *)
Lemma stored_recent s c : is_Some (lru_blocks s !! c) -> c ∈ (entries s).*1.
Proof. intros [d Hd]. apply elem_of_list_to_map_2 in Hd. apply list_elem_of_fmap. by exists (c, d). Qed.

Lemma victim_first s c d l e :
  filter (fun x => free s x.1) (entries s) = (c, d) :: l ->
  e ∈ (entries s).*1 -> free s e -> e <> c -> [c; e] `sublist_of` (entries s).*1.
Proof.
  intros E ([e' x] & -> & Hin)%list_elem_of_fmap Hp Hne. cbn in *.
  assert (Hin' : (e', x) ∈ (c, d) :: l) by (rewrite <- E; by apply list_elem_of_filter).
  apply elem_of_cons in Hin' as [[= -> ->]|Hl]; [done|].
  trans ((c :: l.*1)).
  - apply sublist_skip, singleton_sublist_l. apply list_elem_of_fmap. by exists (e', x).
  - change (c :: l.*1) with (((c, d) :: l).*1). rewrite <- E. apply fmap_sublist, sublist_filter.
Qed.

Definition cache_in (s : lru) : cache (BS := lru_store) :=
  mkCache (BS := lru_store) (lru_view s) (entries s).*1 (lru_target s) (bool_decide (lru_held s <> ∅)).

Lemma lru_collected s c d l :
  lru_held s = ∅ -> (lru_target s < Z.of_nat (size (lru_blocks s)))%Z ->
  filter (fun x => free s x.1) (entries s) = (c, d) :: l ->
  collected (cache_in s) (cache_in (drop_entry c s)) {[c]}.
Proof.
  intros H0 Ht E. destruct (victim _ _ _ _ E) as [[Hp _] Hs]. split; try done.
  - change (lru_blocks (drop_entry c s) = filter (fun x => x.1 ∉ ({[c]} : gset N)) (lru_blocks s)).
    rewrite drop_entry_blocks. apply map_eq. intros c'. destruct (decide (c' = c)) as [->|Hne].
    + rewrite lookup_delete_eq. symmetry. apply map_lookup_filter_None_2. right. intros x _. cbn. set_solver.
    + rewrite lookup_delete_ne by done. destruct (lru_blocks s !! c') as [x|] eqn:Ex; symmetry.
      * apply map_lookup_filter_Some_2; [done|]. cbn. set_solver.
      * apply map_lookup_filter_None_2. by left.
  - cbn. clear. induction (entries s) as [|[k x] es IH]; [done|]. destruct (decide (k = c)) as [->|Hk].
    + rewrite filter_cons_False by naive_solver. cbn [fmap list_fmap fst]. rewrite filter_cons_False by set_solver. exact IH.
    + rewrite filter_cons_True by done. cbn [fmap list_fmap fst]. rewrite filter_cons_True by set_solver. by f_equal.
  - intros c' ->%elem_of_singleton. split; [exact Hs|]. intros Hq%is_pinned_iff. congruence.
  - intros c' e ->%elem_of_singleton [He Hq].
    assert (He' : is_Some (lru_blocks s !! e) /\ e <> c).
    { destruct He as [x Hx]. cbn -[lru_blocks] in Hx. rewrite drop_entry_blocks in Hx.
      apply lookup_delete_Some in Hx as [? ?]. by split; [eexists|]. }
    destruct He' as [He' Hne]. apply (victim_first s c d l e E); [by apply stored_recent| |done].
    split; [|rewrite H0; set_solver]. destruct (is_pinned s e) eqn:Ee; [|done]. exfalso. apply Hq. apply is_pinned_iff in Ee.
    clear -Ee Hp. revert Ee. induction 1 as [a e Ha|p x e Hpp IH Hd Hl].
    + by eapply (pinned_alias (BS := lru_store) _ (lru_view (drop_entry c s)) a).
    + eapply (pinned_link (BS := lru_store) _ (lru_view (drop_entry c s)) p x); [done| |done].
      cbn -[lru_blocks] in Hd |- *. rewrite drop_entry_blocks, lookup_delete_ne; [done|].
      intros ->. apply is_pinned_iff in Hpp. congruence.
  - right. unfold n_stored. cbn -[lru_blocks]. rewrite drop_entry_blocks, map_size_delete_Some by done. lia.
Qed.

Lemma use_recent c d s : (entries (use c d s)).*1 = touch c (entries s).*1.
Proof.
  unfold use, touch. cbn [entries]. rewrite fmap_app. cbn [fmap list_fmap fst]. f_equal.
  induction (entries s) as [|[k x] es IH]; [done|]. destruct (decide (k = c)) as [->|Hk].
  - rewrite filter_cons_False by naive_solver. cbn [fmap list_fmap fst]. rewrite filter_cons_False by naive_solver. exact IH.
  - rewrite filter_cons_True by done. cbn [fmap list_fmap fst]. rewrite filter_cons_True by done. by f_equal.
Qed.

Lemma temp_pins_keep (links : list (@Cid sim sim_protocols)) (t : @Txn _ _ lru_store) p t' p' r :
  batch_temp_pin links t p = (t', p', r) -> entries t' = entries t /\ lru_target t' = lru_target t.
Proof.
  revert t p. induction links as [|c links IH]; intros t p; cbn; [by intros [= <- <- <-]|].
  intros [H1 H2]%IH. by rewrite H1, H2.
Qed.

Lemma op_keeps {R} (o : store_op R) (t t' : @Txn _ _ lru_store) r :
  run_op o t = (t', Ok r) ->
  (entries t').*1 = touched (BS := lru_store) o r (entries t).*1 /\ lru_target t' = lru_target t /\
  (makes_temp_pin (BS := lru_store) o = false -> lru_held t' = lru_held t).
Proof.
  destruct o; cbn -[lru_blocks lru_reverse use batch_temp_pin]; intros E; try by simplify_eq.
  - destruct (batch_temp_pin links t temp) as [[t1 p1] [[]|e]] eqn:Et; simplify_eq.
    apply temp_pins_keep in Et as [H1 H2]. by rewrite H1, H2.
  - unfold batch_get in E. cbn -[lru_blocks use] in E. case_match; simplify_eq; [by rewrite use_recent|done].
  - unfold batch_insert in E. cbn -[use] in E. simplify_eq. by rewrite use_recent.
Qed.

Lemma reverse_exact s (c : N) : reverse_ok (PL := lru_pin_laws) (lru_view s) c (lru_reverse s c).
Proof.
  unfold lru_reverse. destruct (lru_blocks s !! c) as [d|] eqn:E; cbn -[lru_blocks]; [|exact E].
  split; [by exists d|]. intros a. rewrite elem_of_dom. split.
  - intros [root Hr]. apply map_lookup_filter_Some in Hr as [Ha Hc]. exists root. split; [done|].
    by apply below_path, reach_path.
  - intros (root & Ha & Hb). exists root. apply map_lookup_filter_Some. split; [done|].
    by apply reach_path, below_path.
Qed.

Lemma lru_round s s' fin :
  lru_held s = ∅ -> lru_gc s = (s', Ok fin) ->
  exists rm, collected (cache_in s) (cache_in s') rm /\ (fin = true -> within_target (cache_in s')).
Proof.
  intros H0 [(-> & [= ->] & Hw)|([= ->] & Ht & c & d & l & E & ->)]%lru_gc_spec.
  - exists ∅. split; [apply collected_none|]. intros _. destruct Hw as [?|Hp]; [by left|right].
    intros c [Hs Hu]. apply stored_recent, list_elem_of_fmap in Hs as (x & -> & Hx). apply Hu, is_pinned_iff.
    destruct (is_pinned s x.1) eqn:Ex; [done|]. exfalso. apply (Hp x Hx). split; [done|rewrite H0; set_solver].
  - exists {[c]}. split; [by eapply lru_collected|done].
Qed.

#[export] Instance lru_cache_laws : CacheLaws (PL := lru_pin_laws).
Proof.
  refine {| recency := (fun s => (entries s).*1) : @BlockStore _ _ lru_store -> list (@Cid sim sim_protocols);
            target := lru_target : @BlockStore _ _ lru_store -> Z;
            temp_pinned := (fun s => bool_decide (lru_held s <> ∅)) : @BlockStore _ _ lru_store -> bool;
            txn_cache := (fun t => ((entries t).*1, lru_target t, bool_decide (lru_held t <> ∅))) :
              @Txn _ _ lru_store -> list (@Cid sim sim_protocols) * Z * bool |}.
  - done.
  - intros t s [= ->]. done.
  - intros R o t t' r (He & Ht & Hb)%op_keeps. exists (bool_decide (lru_held t' <> ∅)).
    split; [by rewrite He, Ht|]. intros H. by rewrite Hb.
  - intros t c t' r [= <- <-]. apply reverse_exact.
  - by intros s s' [= <-].
  - intros s n d s' fin E Ht. change (lru_gc s = (s', Ok fin)) in E.
    cbn in Ht. pose proof Ht as H0. apply bool_decide_eq_false, dec_stable in H0.
    destruct (lru_round s s' fin H0 E) as (rm & Hc & Hw). exists rm. split; [|exact Hw].
    unfold cache_in in Hc. by rewrite Ht in Hc.
Defined.
End SimLru.
