(* ===== verification/StoreTests.v ===== *)
(** * The tests of the storage (src/db.rs, [mod tests])

    A test is a computation that calls the storage, unwraps what it returns and makes
    assertions: [test] is a state monad with failures, and [triple] its logic, in which a
    test may stop with an error of the storage but not with a failed assertion, nor hang.
    The bodies of the tests are translated one to one; the blocks they make are arguments.

    Shown: on every store that keeps the laws of [Cache], no assertion of these tests
    fails.  The tests of whole nodes are in [NodeTests]. *)
From S2P Require Import Prelude Time Libp2p Protocols Db Pins Cache.

(** ** Tests and their logic *)
Inductive failure (E : Type) := Unwrapped (e : E) | Assertion | Hangs.
Arguments Unwrapped {E} e.
Arguments Assertion {E}.
Arguments Hangs {E}.

Definition test (S E A : Type) : Type := S -> S * result A (failure E).
#[export] Instance test_ret {S E} : MRet (test S E) := fun A a s => (s, Ok a).
#[export] Instance test_bind {S E} : MBind (test S E) := fun A B k m s =>
  match m s with
  | (s, Ok a) => k a s
  | (s, Err f) => (s, Err f)
  end.

Section Logic.
Context {S E : Type} (allowed : E -> Prop).

(** [f(..).unwrap()], or [f(..)?] in a test that returns a result. *)
Definition call {A} (f : S -> S * result A E) : test S E A := fun s =>
  let '(s, r) := f s in (s, match r with Ok a => Ok a | Err e => Err (Unwrapped e) end).
Definition assert (b : bool) : test S E unit := fun s => (s, if b then Ok tt else Err Assertion).

Definition triple {A} (P : S -> Prop) (m : test S E A) (Q : A -> S -> Prop) : Prop := forall s, P s ->
  match m s with
  | (s', Ok a) => Q a s'
  | (_, Err (Unwrapped e)) => allowed e
  | _ => False
  end.

Lemma t_bind {A B} P (m : test S E A) Q (k : A -> test S E B) R :
  triple P m Q -> (forall a, triple (Q a) (k a) R) -> triple P (m ≫= k) R.
Proof.
  intros Hm Hk s Hs. specialize (Hm s Hs). unfold mbind, test_bind.
  destruct (m s) as [s' [a|f]]; [by apply Hk|done].
Qed.

(** A step that is certain about the state it leaves. *)
Lemma t_seq {A B} P (m : test S E A) P' (k : test S E B) R :
  triple P m (fun _ => P') -> triple P' k R -> triple P (m ;; k) R.
Proof. intros Hm Hk. eapply t_bind; [exact Hm|]. intros a. exact Hk. Qed.

Lemma t_conseq {A} P P' (m : test S E A) Q Q' :
  (forall s, P s -> P' s) -> triple P' m Q' -> (forall a s, Q' a s -> Q a s) -> triple P m Q.
Proof.
  intros HP Hm HQ s Hs. specialize (Hm s (HP s Hs)). destruct (m s) as [s' [a|f]]; [by apply HQ|done].
Qed.

Lemma t_fact {A} (F : Prop) P (m : test S E A) Q : (F -> triple P m Q) -> triple (fun s => F /\ P s) m Q.
Proof. intros H s [HF HP]. by apply H. Qed.

Lemma t_ret {A} (a : A) (P : S -> Prop) : triple P (mret a) (fun _ => P).
Proof. by intros s Hs. Qed.

Lemma t_assert (b : bool) (P : S -> Prop) : b = true -> triple P (assert b) (fun _ => P).
Proof. by intros -> s Hs. Qed.

Lemma t_call {A} P (f : S -> S * result A E) Q :
  (forall s s' a, P s -> f s = (s', Ok a) -> Q a s') -> (forall s s' e, P s -> f s = (s', Err e) -> allowed e) ->
  triple P (call f) Q.
Proof. intros HQ HE s Hs. unfold call. destruct (f s) as [s' [a|e]] eqn:E'; eauto. Qed.

(** No assertion fails and nothing hangs. *)
Definition no_assertion_fails {A} (r : result A (failure E)) : Prop :=
  match r with Ok _ => True | Err (Unwrapped e) => allowed e | _ => False end.

Lemma triple_no_assertion {A} P (m : test S E A) Q s : triple P m Q -> P s -> no_assertion_fails (m s).2.
Proof. intros Hm Hs. specialize (Hm s Hs). unfold no_assertion_fails. by destruct (m s) as [s' [a|[]]]. Qed.
End Logic.

(** ** The tests of src/db.rs *)
Section DbTests.
Context `{CL : CacheLaws} {SF : StoreFiles}.

Abbreviation db := (test StorageService StoreErr).

(** A block: its CID and its data. *)
Definition TestBlock : Type := Cid * StoreData.

Definition insert (b : TestBlock) : db unit := call (fun s => db_insert s b.1 b.2).
Definition get (b : TestBlock) : db (option StoreData) := call (fun s => db_get s b.1).
Definition alias (a : list Z) (c : option TestBlock) : db unit := call (fun s => db_alias s a (fst <$> c)).
Definition flush : db unit := call db_flush.
Definition evict_now : db unit := fun s =>
  match evict (S (size (blocks (store s)))) s with
  | Some (s, Ok _) => (s, Ok tt)
  | Some (s, Err e) => (s, Err (Unwrapped e))
  | None => (s, Err Hangs)
  end.
Definition reverse_alias (b : TestBlock) : db (option (gset (list Z))) := call (fun s => db_reverse_alias s b.1).

(** The macros. *)
Definition assert_evicted (b : TestBlock) : db unit :=
  r ← reverse_alias b; assert (bool_decide (r = None)).
Definition has_aliases (r : option (gset (list Z))) : option bool := (fun a => negb (bool_decide (a = ∅))) <$> r.
Definition assert_pinned (b : TestBlock) : db unit :=
  r ← reverse_alias b; assert (bool_decide (has_aliases r = Some true)).
Definition assert_unpinned (b : TestBlock) : db unit :=
  r ← reverse_alias b; assert (bool_decide (has_aliases r = Some false)).

Definition test_config : StorageConfig := StorageConfig_new None None 2 (from_secs 100).

(** A test from its start: [create_store] and the body. *)
Definition with_store_of {A} (config : StorageConfig) (body : db A) (fs : Fs) : result A (failure StoreErr) :=
  match open config fs with
  | (_, Ok (st, _)) => (body st).2
  | (_, Err e) => Err (Unwrapped e)
  end.

Definition test_store_evict (a b c d : TestBlock) : db unit :=
  insert a ;; insert b ;; flush ;; evict_now ;;
  assert_unpinned a ;; assert_unpinned b ;;
  insert c ;; flush ;; evict_now ;;
  assert_evicted a ;; assert_unpinned b ;; assert_unpinned c ;;
  get b ;; insert d ;; flush ;; evict_now ;;
  assert_unpinned b ;; assert_evicted c ;; assert_unpinned d.

Definition test_store_unpin (a b c : TestBlock) (x y : list Z) : db unit :=
  insert a ;; insert b ;; insert c ;;
  alias x (Some b) ;; alias y (Some c) ;; flush ;;
  assert_pinned a ;; assert_pinned b ;; assert_pinned c ;;
  alias x None ;; flush ;;
  assert_pinned a ;; assert_unpinned b ;; assert_pinned c ;;
  alias y None ;; flush ;;
  assert_unpinned a ;; assert_unpinned b ;; assert_unpinned c.

Definition test_store_unpin2 (a b : TestBlock) (x y : list Z) : db unit :=
  insert a ;; insert b ;;
  alias x (Some b) ;; alias y (Some b) ;; flush ;;
  assert_pinned a ;; assert_pinned b ;;
  alias x None ;; flush ;;
  assert_pinned a ;; assert_pinned b ;;
  alias y None ;; flush ;;
  assert_unpinned a ;; assert_unpinned b.

(** *** The state between two calls *)

Definition At (v : cache) (st : StorageService) : Prop := cache_of st = v /\ (0 < svc_gc_min_blocks st)%Z.
Abbreviation t := (triple (S := StorageService) (fun _ : StoreErr => True)).

Definition inserted (v : cache) (b : TestBlock) : cache :=
  mkCache (mkView _ _ _ (<[b.1 := b.2]> (v_blocks (c_view v))) (v_aliases (c_view v)))
    (touch b.1 (c_recent v)) (c_target v) (c_temp v).
Definition aliased (v : cache) (a : list Z) (c : option TestBlock) : cache :=
  mkCache (mkView _ _ _ (v_blocks (c_view v))
      (match c with Some b => <[a := b.1]> (v_aliases (c_view v)) | None => delete a (v_aliases (c_view v)) end))
    (c_recent v) (c_target v) (c_temp v).
Definition used (v : cache) (b : TestBlock) : cache :=
  mkCache (c_view v) (touch b.1 (c_recent v)) (c_target v) (c_temp v).

Lemma rw_keeps_config {R} st op (f : batch R) st' r :
  rw st op f = (st', r) -> svc_gc_min_blocks st' = svc_gc_min_blocks st.
Proof.
  unfold rw, rw_mut. cbn. destruct (f _) as [u [a|e]]; [destruct (txn_commit u)|]; by intros [= <- _].
Qed.

Lemma cache_eq (v v' : cache) :
  c_view v' = c_view v -> c_recent v' = c_recent v -> c_target v' = c_target v -> c_temp v' = c_temp v -> v' = v.
Proof. destruct v, v'. cbn. intros. by subst. Qed.

(** Every call of one operation. *)
Lemma t_op {R} v op (o : store_op R) :
  t (At v) (call (fun s => rw s op (run_op o))) (fun r s => exists v', answers o v v' r /\ At v' s).
Proof.
  apply t_call; [|done]. intros s s' r [<- Hg] E. exists (cache_of s'). split; [by apply rw_answers in E|].
  split; [done|]. by rewrite (rw_keeps_config _ _ _ _ _ E).
Qed.

Lemma t_insert (v : cache) (b : TestBlock) : t (At v) (insert b) (fun _ => At (inserted v b)).
Proof.
  eapply t_conseq; [done|apply (t_op v "insert" (SoInsert b.1 b.2))|].
  intros [] s (v' & (Hv & Hr & Ht & Hm & _) & Hat). cbn in *.
  by rewrite <- (cache_eq (inserted v b) v') by auto.
Qed.

Lemma t_alias v a c : t (At v) (alias a c) (fun _ => At (aliased v a c)).
Proof.
  eapply t_conseq; [done|apply (t_op v "alias" (SoAlias a (fst <$> c)))|].
  intros [] s (v' & (Hv & Hr & Ht & Hm & _) & Hat). cbn in *.
  rewrite <- (cache_eq (aliased v a c) v'); [done| |by auto..]. rewrite Hv. by destruct c.
Qed.

Lemma t_get v (b : TestBlock) d :
  v_blocks (c_view v) !! b.1 = Some d -> t (At v) (get b) (fun r s => r = Some d /\ At (used v b) s).
Proof.
  intros Hb. eapply t_conseq; [done|apply (t_op v "get" (SoGet b.1))|].
  intros r s (v' & ([Hv ->] & Hr & Ht & Hm & _) & Hat). cbn in *. rewrite Hb in Hr. split; [done|].
  by rewrite <- (cache_eq (used v b) v') by auto.
Qed.

Lemma t_flush v : t (At v) flush (fun _ => At v).
Proof.
  apply t_call; [|done]. intros s s' [] [<- Hg] E. split; [by apply flush_answers|].
  unfold db_flush in E. destruct (store_flush (store s)). by injection E as <- _.
Qed.

Lemma evict_keeps_config fuel st st' r :
  evict fuel st = Some (st', r) -> svc_gc_min_blocks st' = svc_gc_min_blocks st.
Proof.
  revert st. induction fuel as [|fuel IH]; intros st; cbn [evict]; [done|].
  destruct (incremental_gc _ _ _) as [s [[]|e]]; [by intros [= <- _]| |by intros [= <- _]].
  intros H. by rewrite (IH _ H).
Qed.

Lemma t_evict {A} v (k : db A) Q :
  c_temp v = false ->
  (forall v' rm, collected v v' rm -> within_target v' -> t (At v') k Q) -> t (At v) (evict_now ;; k) Q.
Proof.
  intros Ht Hk. apply (t_bind _ _ _ (fun _ s => exists v' rm, collected v v' rm /\ within_target v' /\ At v' s)).
  - intros s [<- Hg]. unfold evict_now. destruct (evict_returns s Hg) as (s' & r & E). rewrite E.
    destruct r as [[]|e]; [|done]. destruct (evict_lru _ _ _ Ht E) as (rm & Hc & Hw).
    exists (cache_of s'), rm. split_and!; [done|done|]. split; [done|]. by rewrite (evict_keeps_config _ _ _ _ E).
  - intros _ s (v' & rm & Hc & Hw & Hat). by apply (Hk v' rm Hc Hw).
Qed.

(** *** The macros *)

Lemma t_reverse (v : cache) (b : TestBlock) : t (At v) (reverse_alias b) (fun r s => reverse_ok (c_view v) b.1 r /\ At v s).
Proof.
  eapply t_conseq; [done|apply (t_op v "reverse_alias" (SoReverseAlias b.1))|].
  intros r s (v' & (Hv & Hr & Ht & Hm & Ha) & Hat). cbn in *. split; [done|].
  by rewrite <- (cache_eq v v') by auto.
Qed.

Lemma t_macro (v : cache) (b : TestBlock) (f : option (gset (list Z)) -> bool) :
  (forall r, reverse_ok (c_view v) b.1 r -> f r = true) ->
  t (At v) (r ← reverse_alias b; assert (f r)) (fun _ => At v).
Proof.
  intros Hf. eapply t_bind; [apply t_reverse|]. intros r s [Hr Hs]. cbn. by rewrite Hf.
Qed.

(** [c] is kept by an alias. *)
Definition kept_by (v : cache) (c : Cid) : Prop :=
  exists a root, v_aliases (c_view v) !! a = Some root /\ below (v_blocks (c_view v)) root c.

Lemma t_assert_evicted (v : cache) (b : TestBlock) : v_blocks (c_view v) !! b.1 = None -> t (At v) (assert_evicted b) (fun _ => At v).
Proof.
  intros Hb. apply t_macro. intros [s|] Hr; [|done]. destruct Hr as [[d Hd] _]. congruence.
Qed.

Lemma t_assert_pinned (v : cache) (b : TestBlock) :
  stored v b.1 -> kept_by v b.1 -> t (At v) (assert_pinned b) (fun _ => At v).
Proof.
  intros [d Hd] (a & root & Ha & Hb). apply t_macro. intros [s|] Hr; cbn in Hr; [|congruence].
  destruct Hr as [_ Hr]. apply bool_decide_eq_true. cbn. f_equal. apply negb_true_iff, bool_decide_eq_false.
  intros ->. apply (not_elem_of_empty (C := gset (list Z)) a), Hr. eauto.
Qed.

Lemma t_assert_unpinned (v : cache) (b : TestBlock) :
  stored v b.1 -> ~ kept_by v b.1 -> t (At v) (assert_unpinned b) (fun _ => At v).
Proof.
  intros [d Hd] Hk. apply t_macro. intros [s|] Hr; cbn in Hr; [|congruence].
  destruct Hr as [_ Hr]. apply bool_decide_eq_true. cbn. f_equal. apply negb_false_iff, bool_decide_eq_true.
  apply set_eq. intros a. split; [|by intros ?%not_elem_of_empty]. intros (root & Ha & Hb)%Hr. exfalso. apply Hk. by exists a, root.
Qed.

(** *** Reachability in a store of a few blocks *)

Lemma kept_root v a c : v_aliases (c_view v) !! a = Some c -> kept_by v c.
Proof. intros Ha. exists a, c. split; [done|constructor]. Qed.

Lemma kept_child v a root d c :
  v_aliases (c_view v) !! a = Some root -> v_blocks (c_view v) !! root = Some d -> c ∈ data_links d -> kept_by v c.
Proof. intros Ha Hd Hc. exists a, root. split; [done|]. eapply below_link; [constructor|done|done]. Qed.

(** What can be reached stays in a set that has the roots and is closed under links. *)
Lemma below_in (T : gmap Cid StoreData) (X : list Cid) root c :
  root ∈ X -> (forall p d q, p ∈ X -> T !! p = Some d -> q ∈ data_links d -> q ∈ X) -> below T root c -> c ∈ X.
Proof. intros Hr Hx. induction 1; eauto. Qed.

Lemma not_kept v (X : list Cid) c :
  c ∉ X -> (forall a root, v_aliases (c_view v) !! a = Some root -> root ∈ X) ->
  (forall p d q, p ∈ X -> v_blocks (c_view v) !! p = Some d -> q ∈ data_links d -> q ∈ X) -> ~ kept_by v c.
Proof. intros Hc Ha Hx (a & root & Hr & Hb). apply Hc. eapply below_in; [by eapply Ha|exact Hx|exact Hb]. Qed.

Lemma not_kept_no_alias v c : v_aliases (c_view v) = ∅ -> ~ kept_by v c.
Proof. intros Hv (a & root & Hr & _). by rewrite Hv, lookup_empty in Hr. Qed.

Lemma kept_pinned v c : pinned data_links (c_view v) c <-> kept_by v c.
Proof.
  split.
  - induction 1 as [a c Ha|p d c _ (a & root & Ha & Hb) Hd Hl]; [by eapply kept_root|].
    exists a, root. split; [done|]. by eapply below_link.
  - intros (a & root & Ha & Hb). induction Hb as [|p d c _ IH Hd Hl]; [by eapply pinned_alias|by eapply pinned_link].
Qed.

End DbTests.

(** Calls that succeed; then assertions, by the alias of the block, by the alias of a block
    that links to it, or by a set of blocks that nothing leaves. *)
Ltac run_calls := repeat (eapply t_seq; [first [apply t_insert | apply t_alias | apply t_flush]|]).
Ltac check_next tac := eapply t_seq; [tac|].
Ltac check_last tac := eapply t_conseq; [done|tac|done].
Ltac in_store := unfold stored; cbn; simplify_map_eq; by eauto.
Ltac linked :=
  match goal with H : data_links ?d = _ |- _ ∈ data_links ?d => rewrite H end; rewrite !elem_of_cons; by auto.
Ltac by_alias a := apply t_assert_pinned; [in_store|apply (kept_root _ a); cbn; by simplify_map_eq].
Ltac by_parent a p := apply t_assert_pinned; [in_store|
  eapply (kept_child _ a p); cbn; [by simplify_map_eq|by simplify_map_eq|linked]].
Ltac roots :=
  let a := fresh in let root := fresh in let Hal := fresh in intros a root Hal; repeat (apply lookup_delete_Some in Hal as [? Hal] || apply lookup_insert_Some in Hal as [[? ?]|[? Hal]]);
  simplify_map_eq; rewrite ?elem_of_cons; auto.
Ltac closed :=
  let p := fresh in let d := fresh in let q := fresh in let Hp := fresh in intros p d q Hp; rewrite ?elem_of_cons, elem_of_nil in Hp; destruct_or? Hp; try done; subst; simplify_map_eq;
  let Hd := fresh in intros Hd; try (injection Hd as <-);
  match goal with H : data_links ?d = _ |- _ ∈ data_links ?d -> _ => rewrite H end; rewrite ?elem_of_cons, ?elem_of_nil; tauto.
Ltac outside X := apply t_assert_unpinned; [in_store|apply (not_kept _ X); cbn;
  [rewrite ?elem_of_cons, elem_of_nil; intuition congruence|roots|closed]].
Ltac no_alias := outside (@nil Cid).

(** The number of blocks and the order of their last use, for a given state. *)
Ltac count := unfold n_stored; cbn;
  repeat first [rewrite map_size_insert_None by (by simplify_map_eq) | rewrite map_size_delete_Some by (simplify_map_eq; by eauto)];
  rewrite map_size_empty; done.
Ltac order := cbn; unfold touch;
  repeat first [progress cbn | rewrite decide_True by congruence | rewrite decide_False by (intuition congruence)];
  done.

(** ** No assertion fails *)
Section DbTestRuns.
Context `{CL : CacheLaws} {SF : StoreFiles}.
Abbreviation db := (test StorageService StoreErr).
Abbreviation t := (triple (S := StorageService) (fun _ : StoreErr => True)).

(** A store in memory is empty at first, and only counts blocks if its size has no limit. *)
Class MemoryLaws : Prop := {
  memory_empty n s : BlockStore_memory (n, U64_MAX) InMemCacheTracker_new = Ok s ->
    view s = mkView _ _ _ ∅ ∅ /\ recency s = [] /\ target s = n /\ temp_pinned s = false
}.
Context {ML : MemoryLaws}.

Definition empty_cache (n : Z) : cache := mkCache (mkView _ _ _ ∅ ∅) [] n false.

Lemma open_memory n interval fs fs' st own :
  open (StorageConfig_new None None n interval) fs = (fs', Ok (st, own)) -> At (empty_cache n) st.
Proof.
  intros E. pose proof (open_gc_min_blocks _ _ _ _ _ E) as Hg.
  unfold open, open_tracker, open_store, mbind, io_bind, mret, io_ret in E. cbn in E.
  destruct (BlockStore_memory _ _) as [s|e] eqn:Em; [|done]. injection E as <- <- <-.
  destruct (memory_empty _ _ Em) as (Hv & Hr & Ht & Hp). split; [|by rewrite Hg].
  unfold cache_of, empty_cache. cbn. by rewrite Hv, Hr, Ht, Hp.
Qed.

Lemma test_passes {A} n interval (body : db A) Q fs :
  t (At (empty_cache n)) body Q ->
  no_assertion_fails (fun _ => True) (with_store_of (StorageConfig_new None None n interval) body fs).
Proof.
  intros H. unfold with_store_of. destruct (open _ fs) as [fs' [[st own]|e]] eqn:E; [|done].
  eapply triple_no_assertion; [exact H|]. by eapply open_memory.
Qed.

Lemma unpin_run (a b c : TestBlock) x y :
  NoDup [a.1; b.1; c.1] -> x <> y ->
  data_links a.2 = [] -> data_links b.2 = [a.1] -> data_links c.2 = [a.1] ->
  t (At (empty_cache 2)) (test_store_unpin a b c x y) (fun _ _ => True).
Proof.
  intros Hnd Hxy Ha Hb Hc.
  rewrite !NoDup_cons, !not_elem_of_cons in Hnd. destruct Hnd as ((Hab & Hac & _) & (Hbc & _) & _).
  unfold test_store_unpin. run_calls.
  check_next ltac:(by_parent x b.1). check_next ltac:(by_alias x). check_next ltac:(by_alias y). run_calls.
  check_next ltac:(by_parent y c.1). check_next ltac:(outside [c.1; a.1]). check_next ltac:(by_alias y). run_calls.
  check_next ltac:(no_alias). check_next ltac:(no_alias). check_last ltac:(no_alias).
Qed.

Lemma unpin2_run (a b : TestBlock) x y :
  a.1 <> b.1 -> x <> y -> data_links a.2 = [] -> data_links b.2 = [a.1] ->
  t (At (empty_cache 2)) (test_store_unpin2 a b x y) (fun _ _ => True).
Proof.
  intros Hab Hxy Ha Hb. unfold test_store_unpin2. run_calls.
  check_next ltac:(by_parent x b.1). check_next ltac:(by_alias x). run_calls.
  check_next ltac:(by_parent y b.1). check_next ltac:(by_alias y). run_calls.
  check_next ltac:(no_alias). check_last ltac:(no_alias).
Qed.

(** *** Eviction without aliases *)

Lemma collected_same (v v' : cache) : collected v v' ∅ -> v' = v.
Proof.
  intros H. destruct (collected_none v) as [? ? ? Hb Hr _ _ _]. destruct H as [Ht Hm Ha Hb' Hr' _ _ _].
  apply cache_eq; [|congruence..]. destruct (c_view v), (c_view v'). cbn in *. congruence.
Qed.

(** Within the target nothing is removed. *)
Lemma evict_nothing (v v' : cache) rm :
  (n_stored v <= c_target v)%Z -> collected v v' rm -> v' = v.
Proof.
  intros Hn H. assert (rm = ∅) as ->.
  { destruct (col_needed _ _ _ H) as [?|Hm]; [done|]. rewrite (collected_size _ _ _ H) in Hm.
    apply leibniz_equiv, size_empty_inv. lia. }
  by apply collected_same.
Qed.

Definition without (v : cache) (c : Cid) : cache :=
  mkCache (mkView _ _ _ (delete c (v_blocks (c_view v))) (v_aliases (c_view v)))
    (filter (fun x => x <> c) (c_recent v)) (c_target v) (c_temp v).

(** One block too many and no alias: the one that was used the longest ago is removed. *)
Lemma evict_one (v v' : cache) rm c rest :
  n_stored v = (c_target v + 1)%Z -> v_aliases (c_view v) = ∅ ->
  c_recent v = c :: rest -> NoDup (c :: rest) -> stored v c ->
  collected v v' rm -> within_target v' -> v' = without v c.
Proof.
  intros Hn Ha Hr Hnd Hc H Hw.
  assert (Hup : forall e, stored v e -> unpinned v e).
  { intros e He. split; [done|]. rewrite kept_pinned. by apply not_kept_no_alias. }
  assert (Hrm : rm <> ∅).
  { intros ->. apply collected_same in H as ->. destruct Hw as [Hw|Hw]; [lia|]. by apply (Hw c), Hup. }
  assert (Hin : c ∈ rm).
  { apply set_choose_L in Hrm as [e He]. destruct (decide (c ∈ rm)) as [?|Hcr]; [done|]. exfalso.
    assert (Hu : unpinned v' c) by (apply (collected_unpinned _ _ _ _ H); auto).
    pose proof (col_oldest _ _ _ H e c He Hu) as Hs. rewrite Hr in Hs.
    apply NoDup_cons in Hnd as [Hnc _]. apply sublist_cons_r in Hs as [Hs|(l & [= <- <-] & Hs)].
    - apply Hnc. eapply elem_of_sublist; [|exact Hs]. set_solver.
    - apply Hnc. eapply elem_of_sublist; [|exact Hs]. set_solver. }
  assert (rm = {[c]}) as ->.
  { destruct (col_needed _ _ _ H) as [?|Hm]; [done|]. rewrite (collected_size _ _ _ H), Hn in Hm.
    apply set_eq. intros e. rewrite elem_of_singleton. split; [|by intros ->]. intros He.
    destruct (decide (e = c)) as [?|Hne]; [done|]. exfalso.
    assert (Hs : ({[c; e]} : gset Cid) ⊆ rm) by set_solver. apply subseteq_size in Hs.
    rewrite size_union, !size_singleton in Hs by set_solver. lia. }
  apply cache_eq; cbn; [|rewrite (col_recent _ _ _ H); apply list_filter_iff; set_solver|apply H|apply H].
  destruct (c_view v') as [bs' as'] eqn:Ev. pose proof (col_blocks _ _ _ H) as Hb. pose proof (col_aliases _ _ _ H) as Hal.
  rewrite Ev in Hb, Hal. cbn in Hb, Hal. subst. f_equal. apply map_eq. intros e.
  destruct (decide (e = c)) as [->|Hne].
  - rewrite lookup_delete_eq. apply map_lookup_filter_None_2. right. intros x _. cbn. set_solver.
  - rewrite lookup_delete_ne by done. destruct (v_blocks (c_view v) !! e) as [x|] eqn:Ex.
    + apply map_lookup_filter_Some_2; [done|]. cbn. set_solver.
    + apply map_lookup_filter_None_2. by left.
Qed.

Lemma evict_run (a b c d : TestBlock) :
  NoDup [a.1; b.1; c.1; d.1] ->
  t (At (empty_cache 2)) (test_store_evict a b c d) (fun _ _ => True).
Proof.
  intros Hnd. pose proof Hnd as Hnd'.
  rewrite !NoDup_cons, !not_elem_of_cons in Hnd'.
  destruct Hnd' as ((Hab & Hac & Had & _) & (Hbc & Hbd & _) & (Hcd & _) & _).
  unfold test_store_evict. run_calls. apply t_evict; [done|]. intros v' rm Hv _.
  apply evict_nothing in Hv as ->; [|count].
  check_next ltac:(no_alias). check_next ltac:(no_alias). run_calls.
  apply t_evict; [done|]. intros v' rm' Hv Hw.
  apply (evict_one _ _ _ a.1 [b.1; c.1]) in Hv as ->; [|count|done|order| |in_store|done].
  2: { repeat constructor; rewrite ?elem_of_cons, ?elem_of_nil; intuition congruence. }
  check_next ltac:(apply t_assert_evicted; cbn; by simplify_map_eq).
  check_next ltac:(no_alias). check_next ltac:(no_alias).
  eapply t_bind; [eapply t_get; cbn; by simplify_map_eq|]. intros r. apply t_fact. intros ->. run_calls.
  apply t_evict; [done|]. intros v' rm2 Hv Hw2.
  apply (evict_one _ _ _ c.1 [b.1; d.1]) in Hv as ->; [|count|done|order| |in_store|done].
  2: { repeat constructor; rewrite ?elem_of_cons, ?elem_of_nil; intuition congruence. }
  check_next ltac:(no_alias). check_next ltac:(apply t_assert_evicted; cbn; by simplify_map_eq).
  check_last ltac:(no_alias).
Qed.

(** C32: the tests of src/db.rs.  On every store that keeps its laws, whatever blocks with
    these links and different CIDs they are given: the assertions of test_store_evict,
    test_store_unpin and test_store_unpin2 hold, and no eviction hangs; if a test fails it
    fails because the store reported an error. *)
Theorem db_tests_hold fs (e1 e2 e3 e4 a b c : TestBlock) x y :
  NoDup [e1.1; e2.1; e3.1; e4.1] -> NoDup [a.1; b.1; c.1] -> x <> y ->
  data_links a.2 = [] -> data_links b.2 = [a.1] -> data_links c.2 = [a.1] ->
  let holds body := no_assertion_fails (fun _ => True) (with_store_of test_config body fs) in
  holds (test_store_evict e1 e2 e3 e4) /\ holds (test_store_unpin a b c x y) /\ holds (test_store_unpin2 a b x y).
Proof.
  intros He Hnd Hxy Ha Hb Hc holds. split_and!; eapply test_passes.
  - by apply evict_run.
  - by apply unpin_run.
  - apply unpin2_run; try done. rewrite !NoDup_cons, !not_elem_of_cons in Hnd. tauto.
Qed.
End DbTestRuns.

(** ** On the concrete store *)
Module SimTests.
Import Sim SimProtocols SimLru.

#[export] Instance lru_files : StoreFiles (BS := lru_store) := {|
  Fs := list string;
  is_file := fun fs p => bool_decide (p ∈ fs);
  create_dir_all := fun p fs => (p :: fs, Ok tt);
  path_join := fun p q => p +:+ "/" +:+ q;
  CacheTracker := unit;
  InMemCacheTracker_new := tt;
  SqliteCacheTracker_open := fun _ fs => (fs, Ok tt);
  BlockStore_open := fun p _ _ fs => (p :: fs, Err "read-only");
  BlockStore_memory := fun limit _ => Ok (mkLru [] ∅ limit.1 ∅);
  additional_connection := fun _ fs => (fs, Ok tt)
|}.

#[export] Instance lru_memory : MemoryLaws (CL := lru_cache_laws) (SF := lru_files).
Proof. split. by intros n s [= <-]. Qed.
#[export] Instance lru_drop : DropLaws (SL := lru_store_laws).
Proof. by split. Qed.
#[export] Instance lru_data_eq : EqDecision (@StoreData sim sim_protocols lru_store) := list_eq_dec (A := N).

Abbreviation sim_block := (@TestBlock sim sim_protocols lru_store).
Definition blk (c : N) : sim_block := ((c : @Cid sim sim_protocols), (doc c : @StoreData sim sim_protocols lru_store)).
Definition x1 : list Z := [120%Z].
Definition y1 : list Z := [121%Z].
Definition no_fs : @Fs sim sim_protocols lru_store lru_files := [].

Lemma db_tests_hold_witness :
  no_assertion_fails (fun _ => True) (with_store_of test_config (test_store_unpin (blk 1) (blk 2) (blk 3) x1 y1) no_fs).
Proof.
  apply (db_tests_hold no_fs (blk 10) (blk 11) (blk 12) (blk 13) (blk 1) (blk 2) (blk 3) x1 y1); try reflexivity.
  - apply (bool_decide_unpack _). vm_compute. exact I.
  - apply (bool_decide_unpack _). vm_compute. exact I.
  - discriminate.
Defined.

(** On this store the tests pass. *)
Example db_tests_pass :
  with_store_of test_config (test_store_evict (blk 10) (blk 11) (blk 12) (blk 13)) no_fs = Ok tt /\
  with_store_of test_config (test_store_unpin (blk 1) (blk 2) (blk 3) x1 y1) no_fs = Ok tt /\
  with_store_of test_config (test_store_unpin2 (blk 1) (blk 2) x1 y1) no_fs = Ok tt.
Proof. vm_compute. done. Qed.
End SimTests.
