(* ===== verification/Metrics.v ===== *)
(** * Metrics and telemetry (src/db.rs, src/net/peers.rs, src/lib.rs, src/telemetry.rs)

    The collectors of the crate and their registration in a prometheus registry (class
    [Registries]; [RegistryLaws] is its documented behaviour: a name can be registered
    once).  The statistics of the store are collected when the registry is asked. *)
From S2P Require Import Prelude Time Libp2p Protocols Db.

Inductive collector :=
| CQueriesTotal | CQueryDuration | CStoreStats
| CListeners | CListenAddrs | CExternalAddrs | CDiscovered | CConnected | CConnections
| CListenerError | CAddressReachFailure | CDialFailure.

(** The names the collectors describe themselves with. *)
Definition desc (c : collector) : string :=
  match c with
  | CQueriesTotal => "block_store_queries_total"
  | CQueryDuration => "block_store_query_duration"
  | CStoreStats => "block_store_stats"
  | CListeners => "peers_listeners"
  | CListenAddrs => "peers_listen_addrs"
  | CExternalAddrs => "peers_external_addrs"
  | CDiscovered => "peers_discovered"
  | CConnected => "peers_connected"
  | CConnections => "peers_connections"
  | CListenerError => "peers_listener_error"
  | CAddressReachFailure => "peers_address_reach_failure"
  | CDialFailure => "peers_dial_failure"
  end.

Class Registries := {
  Registry : Type;
  RegistryError : Type;
  register : collector -> Registry -> Registry * result unit RegistryError
}.

Class RegistryLaws `{Registries} := {
  names : Registry -> gset string;
  register_spec c r :
    if decide (desc c ∈ names r) then exists e, register c r = (r, Err e)
    else exists r', register c r = (r', Ok tt) /\ names r' = {[desc c]} ∪ names r
}.

(** [u64 as i64]. *)
Definition as_i64 (x : Z) : Z := if decide (x < 2 ^ 63)%Z then x else (x - 2 ^ 64)%Z.

Section Metrics.
Context `{R : Registries}.

(** [registry.register(..)?; registry.register(..)?; ...; Ok(())]. *)
Fixpoint register_all (cs : list collector) (r : Registry) : Registry * result unit RegistryError :=
  match cs with
  | [] => (r, Ok tt)
  | c :: cs =>
      let '(r, res) := register c r in
      match res with Ok _ => register_all cs r | Err e => (r, Err e) end
  end.

Definition storage_collectors : list collector := [CQueriesTotal; CQueryDuration; CStoreStats].
Definition storage_register_metrics : Registry -> Registry * result unit RegistryError :=
  register_all storage_collectors.

Definition peers_collectors : list collector :=
  [CListeners; CListenAddrs; CExternalAddrs; CDiscovered; CConnected; CConnections; CListenerError;
   CAddressReachFailure; CDialFailure].
Definition peers_register_metrics : Registry -> Registry * result unit RegistryError :=
  register_all peers_collectors.

(** [Ipfs::register_metrics]. *)
Definition ipfs_register_metrics (r : Registry) : Registry * result unit RegistryError :=
  let '(r, res) := storage_register_metrics r in
  match res with Ok _ => peers_register_metrics r | Err e => (r, Err e) end.

(** [telemetry]: the registry of the process, and the servers that were started. *)
Definition telemetry {Addr} (addr : Addr) (r : Registry) (servers : list Addr) :
    Registry * list Addr * result unit RegistryError :=
  let '(r, res) := ipfs_register_metrics r in
  match res with Ok _ => (r, servers ++ [addr], Ok tt) | Err e => (r, servers, Err e) end.

(** [get_metric], which answers each request; [gather] and [encode] are the library's. *)
Record Response := mkResponse { status : Z; content_type : string; body : list Z }.
Definition get_metric {Family Err} (gather : Registry -> list Family) (encode : list Family -> result (list Z) Err)
    (r : Registry) : outcome Response :=
  buffer ← unwrap "encode" (match encode (gather r) with Ok b => Some b | Err _ => None end);
  Done (mkResponse 200 "text/plain; version=0.0.4" buffer).

(** *** Statistics of the store *)
Context `{BS : BlockStores} (get_store_stats : BlockStore -> result (Z * Z) StoreErr).

(** [SqliteStoreCollector::collect]: name and value of each family. *)
Definition collect (s : BlockStore) : list (string * Z) :=
  match get_store_stats s with
  | Ok (count, size) => [("block_store_block_count", as_i64 count); ("block_store_size", as_i64 size)]
  | Err _ => []
  end.

(** *** Durations: how many observations each label has *)
Definition durations := gmap string nat.
Definition observe_duration (label : string) (d : durations) : durations :=
  <[label := S (default 0 (d !! label))]> d.

(** The two timers of [rw]: the first is stopped once the lock is there, the second
    dropped at the end, on every path. *)
Definition rw_durations (op : string) (d : durations) : durations :=
  observe_duration op (observe_duration "lock_wait" d).

(** [observe_future]: counted at once, timed only if it succeeds. *)
Definition observe_future {A E} (name : string) (queries : gmap string nat) (d : durations)
    (query : result A E) : gmap string nat * durations * result A E :=
  (<[name := S (default 0 (queries !! name))]> queries,
   if is_ok query then observe_duration name d else d, query).
End Metrics.

Section MetricsProps.
Context `{R : Registries} {RL : RegistryLaws}.

Definition our_names : gset string := list_to_set (desc <$> (storage_collectors ++ peers_collectors)).

Lemma register_all_app cs1 cs2 r :
  register_all (cs1 ++ cs2) r =
    let '(r, res) := register_all cs1 r in
    match res with Ok _ => register_all cs2 r | Err e => (r, Err e) end.
Proof.
  revert r. induction cs1 as [|c cs1 IH]; intros r; cbn; [done|]. destruct (register c r) as [r' [[]|e]]; auto.
Qed.

Lemma register_all_fresh cs r :
  NoDup (desc <$> cs) -> (forall c, c ∈ cs -> desc c ∉ names r) ->
  exists r', register_all cs r = (r', Ok tt) /\ names r' = list_to_set (desc <$> cs) ∪ names r.
Proof.
  revert r. induction cs as [|c cs IH]; intros r Hnd Hf; cbn.
  { exists r. split; [done|]. set_solver. }
  apply NoDup_cons in Hnd as [Hc Hnd]. pose proof (register_spec c r) as H.
  rewrite decide_False in H by (apply Hf; left). destruct H as (r1 & -> & Hn1).
  destruct (IH r1) as (r' & -> & Hn'); [done| |].
  - intros c' Hc'. rewrite Hn1, not_elem_of_union, not_elem_of_singleton. split; [|apply Hf; by right].
    intros E. apply Hc. rewrite <- E. by apply list_elem_of_fmap_2.
  - exists r'. split; [done|]. rewrite Hn', Hn1. cbn. set_solver.
Qed.

(** Registering metrics.  In a registry with none of the names of the crate all
    twelve collectors are registered, and nothing else.  A second registration in the
    same registry, of this node or of another one in the process, fails at its first
    collector and changes nothing: [telemetry], which uses the registry of the process,
    starts a server for the first node only. *)
Theorem register_metrics_once {Addr} r (a1 a2 : Addr) servers :
  our_names ## names r ->
  exists r', telemetry a1 r servers = (r', servers ++ [a1], Ok tt) /\ names r' = our_names ∪ names r /\
    exists e, ipfs_register_metrics r' = (r', Err e) /\
      telemetry a2 r' (servers ++ [a1]) = (r', servers ++ [a1], Err e).
Proof.
  intros Hdis.
  assert (Hreg : forall r, ipfs_register_metrics r = register_all (storage_collectors ++ peers_collectors) r)
    by (intros; by rewrite register_all_app).
  destruct (register_all_fresh (storage_collectors ++ peers_collectors) r) as (r' & E & Hn).
  - apply (bool_decide_unpack _). vm_compute. exact I.
  - intros c Hc Hin. apply (Hdis (desc c)); [|done]. unfold our_names.
    rewrite elem_of_list_to_set. by apply list_elem_of_fmap_2.
  - exists r'. unfold telemetry. rewrite Hreg, E. split; [done|]. split; [exact Hn|].
    assert (Hq : desc CQueriesTotal ∈ names r') by (rewrite Hn; cbn; set_solver).
    pose proof (register_spec CQueriesTotal r') as H. rewrite decide_True in H by done.
    destruct H as [e He]. exists e. rewrite Hreg. cbn [app storage_collectors register_all]. by rewrite He.
Qed.

(** A request is answered with what the process has registered, unless it cannot be encoded. *)
Lemma get_metric_answers {Family Err} gather (encode : list Family -> result (list Z) Err) r resp :
  get_metric gather encode r ↓ resp <->
  encode (gather r) = Ok (body resp) /\ status resp = 200%Z /\ content_type resp = "text/plain; version=0.0.4".
Proof.
  unfold get_metric. destruct resp as [st ct b]. cbn. destruct (encode (gather r)) as [b'|e]; cbn; naive_solver.
Qed.

(** Statistics are those of the store, or none; a [u64] from [2^63] on turns negative. *)
Lemma collect_spec `{BS : BlockStores} stats s count size :
  stats s = Ok (count, size) -> (0 <= count < 2 ^ 63)%Z -> (0 <= size < 2 ^ 63)%Z ->
  collect stats s = [("block_store_block_count", count); ("block_store_size", size)].
Proof. intros E Hc Hs. unfold collect, as_i64. rewrite E, !decide_True by lia. done. Qed.

Lemma collect_wraps `{BS : BlockStores} stats s count size :
  stats s = Ok (count, size) -> (2 ^ 63 <= size <= U64_MAX)%Z ->
  exists n, ("block_store_size", n) ∈ collect stats s /\ (n < 0)%Z.
Proof.
  intros E Hs. exists (size - 2 ^ 64)%Z. unfold collect, as_i64. rewrite E, (decide_False (P := (size < _)%Z)) by lia.
  split; [right; left|]. unfold U64_MAX in Hs. lia.
Qed.
End MetricsProps.

(** A registry is the set of its names. *)
Module SimRegistry.
#[export] Instance sim_registries : Registries | 100 := {|
  Registry := gset string;
  RegistryError := string;
  register := fun c r =>
    if decide (desc c ∈ r) then (r, Err "Duplicate metrics collector registration attempted")
    else ({[desc c]} ∪ r, Ok tt)
|}.
#[export] Instance sim_registry_laws : RegistryLaws (H := sim_registries).
Proof.
  refine {| names := fun r : @Registry sim_registries => r |}.
  intros c r. cbn. case_decide; eauto.
Defined.
Definition default_registry : @Registry sim_registries := ∅.
End SimRegistry.

Section MetricsWitness.
Import SimRegistry.

Lemma register_metrics_once_witness : exists r' e,
  telemetry ":9090" default_registry [] = (r', [":9090"], Ok tt) /\ telemetry ":9091" r' [":9090"] = (r', [":9090"], Err e).
Proof.
  destruct (register_metrics_once default_registry ":9090" ":9091" []) as (r' & E & _ & e & _ & E2).
  - apply disjoint_empty_r.
  - exists r', e. split; [exact E|exact E2].
Defined.
End MetricsWitness.
