(* ===== verification/Ipfs.v ===== *)
(** * The node (src/lib.rs)

    [Ipfs] holds the storage service and the handle of the network task.  Between
    a request to the network and its answer other tasks work on the store
    (bitswap inserts what it receives, the garbage collector removes): what
    [fetch] finds afterwards is the argument [world].

    The traits through which others use the node are the classes [IpldStore]
    ([libipld::store::Store], for callers) and [BitswapStore] (for bitswap);
    [IpldStoreLaws] is what callers may rely on. *)
From S2P Require Import Prelude Time Libp2p PeerInfo AddressHandler Peers Protocols Behaviour Net.
From S2P Require Import Service NetProps Config Db.

Section Ipfs.
Context `{P : Profile} `{C : Chrono} `{L : Libp2p} `{Ch : Channels} `{HO : HashOrder}.
Context `{Pr : !Protocols} `{CC : !CommandChannel} `{BS : !BlockStores}.

Record Ipfs := mkIpfs {
  storage : StorageService;
  network : NetworkService
}.

Inductive IpfsError :=
| StorageError (e : StoreErr)
| NetworkError (e : ClientError)
| StartError (e : AnyError)
| NotFound (cid : Cid).

(** *** Start *)
Context `{Sw : !SwarmOps} `{Bu : !Builders} {SF : StoreFiles}.

Record IpfsConfig := mkIpfsConfig {
  config_storage : StorageConfig;
  config_network : NetworkConfig
}.

(** [name] is the node name that is made up. *)
Definition IpfsConfig_new (name path : string) (keypair : Keypair) : IpfsConfig :=
  let sweep_interval := mkDuration 10 0 in
  mkIpfsConfig
    (StorageConfig_new (Some (path_join path "blocks")) None 0 sweep_interval)
    (NetworkConfig_new name keypair).

(** The node and the state its network task starts in. *)
Definition ipfs_new (config : IpfsConfig) (fs : Fs) : Fs * result (Ipfs * Net) IpfsError :=
  let '(fs, r) := open (config_storage config) fs in
  match r with
  | Err e => (fs, Err (StorageError e))
  | Ok (storage, _) =>
      (fs, match service_new (config_network config) with
           | Ok (network, _, net) => Ok (mkIpfs storage network, net)
           | Err e => Err (StartError e)
           end)
  end.

(** A block: its CID and data, made with [Block::new_unchecked]. *)
Definition IpfsBlock : Type := Cid * StoreData.

Definition with_storage (st : Ipfs) (s : StorageService) : Ipfs := mkIpfs s (network st).
Definition with_network (st : Ipfs) (n : NetworkService) : Ipfs := mkIpfs (storage st) n.

(** [self.storage.f(..)] and [self.network.f(..)]. *)
Definition on_storage {R} (st : Ipfs) (f : StorageService -> StorageService * result R StoreErr) :
    Ipfs * result R IpfsError :=
  let '(s, r) := f (storage st) in
  (with_storage st s, match r with Ok a => Ok a | Err e => Err (StorageError e) end).

Definition on_network (st : Ipfs) (f : NetworkService -> NetworkService) : Ipfs :=
  with_network st (f (network st)).

Definition on_network_call {R} (st : Ipfs) (f : NetworkService -> NetworkService * R) : Ipfs * R :=
  let '(n, r) := f (network st) in (with_network st n, r).

(** *** Identity, listeners and addresses *)
Definition ipfs_local_public_key (st : Ipfs) := local_public_key (network st).
Definition ipfs_local_peer_id (st : Ipfs) := svc_local_peer_id (network st).
Definition ipfs_local_node_name (st : Ipfs) := local_node_name (network st).
Definition ipfs_listen_on st addr tx := on_network_call st (fun n => listen_on n addr tx).
Definition ipfs_listeners (st : Ipfs) (b : AddressBook) := svc_listeners b.
Definition ipfs_add_external_address st addr := on_network st (fun n => add_external_address n addr).
Definition ipfs_external_addresses (st : Ipfs) (b : AddressBook) := external_addresses b.
Definition ipfs_add_address st peer addr := on_network st (fun n => svc_add_address n peer addr).
Definition ipfs_add_addresses st addresses := on_network st (fun n => svc_add_addresses n addresses).
Definition ipfs_remove_address st peer addr := on_network st (fun n => svc_remove_address n peer addr).
Definition ipfs_prune_peers st min_age := on_network st (fun n => svc_prune_peers n min_age).
Definition ipfs_dial st peer := on_network st (fun n => svc_dial n peer).
Definition ipfs_dial_address st peer addr := on_network st (fun n => svc_dial_address n peer addr).
Definition ipfs_ban st peer := on_network st (fun n => svc_ban n peer).
Definition ipfs_unban st peer := on_network st (fun n => svc_unban n peer).
Definition ipfs_peers (st : Ipfs) (b : AddressBook) := svc_peers b.
Definition ipfs_connections (st : Ipfs) (b : AddressBook) := svc_connections b.
Definition ipfs_is_connected (st : Ipfs) (b : AddressBook) peer := is_connected (network st) b peer.
Definition ipfs_peer_info (st : Ipfs) (b : AddressBook) peer := peer_info b peer.

(** *** The distributed hash table and topics *)
Definition ipfs_bootstrap st nodes tx := on_network_call st (fun n => svc_bootstrap n nodes tx).
Definition ipfs_is_bootstrapped (st : Ipfs) (b : Backend) := is_bootstrapped b.
Definition ipfs_providers st key tx := on_network_call st (fun n => svc_providers n key tx).
Definition ipfs_provide st key tx := on_network_call st (fun n => svc_provide n key tx).
Definition ipfs_unprovide st key := on_network_call st (fun n => svc_unprovide n key).
Definition ipfs_get_record st key quorum tx :=
  on_network_call st (fun n => svc_get_record n key quorum tx).
Definition ipfs_put_record st record quorum tx :=
  on_network_call st (fun n => svc_put_record n record quorum tx).
Definition ipfs_remove_record st key := on_network_call st (fun n => svc_remove_record n key).
Definition ipfs_subscribe st topic tx := on_network_call st (fun n => svc_subscribe n topic tx).
Definition ipfs_publish st topic msg tx := on_network_call st (fun n => svc_publish n topic msg tx).
Definition ipfs_broadcast st topic msg tx := on_network_call st (fun n => svc_broadcast n topic msg tx).
Definition ipfs_swarm_events st tx := on_network_call st (fun n => svc_swarm_events n tx).

(** *** The block store *)
Definition ipfs_create_temp_pin st := on_storage st db_create_temp_pin.
Definition ipfs_temp_pin (st : Ipfs) (tmp : TempPin) (cid : Cid) :
    Ipfs * TempPin * result unit IpfsError :=
  let '(s, tmp, r) := db_temp_pin (storage st) tmp [cid] in
  (with_storage st s, tmp, match r with Ok _ => Ok tt | Err e => Err (StorageError e) end).
Definition ipfs_iter st := on_storage st db_iter.
Definition ipfs_contains st cid := on_storage st (fun s => db_contains s cid).
Definition ipfs_alias st alias cid := on_storage st (fun s => db_alias s alias cid).
Definition ipfs_aliases st := on_storage st db_aliases.
Definition ipfs_resolve st alias := on_storage st (fun s => db_resolve s alias).
Definition ipfs_reverse_alias st cid := on_storage st (fun s => db_reverse_alias s cid).
Definition ipfs_flush st := on_storage st db_flush.
Definition batch_ops {R} st (f : batch R) := on_storage st (fun s => rw s "batch_ops" f).
Definition ipfs_evict (fuel : nat) (st : Ipfs) : option (Ipfs * result unit IpfsError) :=
  '(s, r) ← evict fuel (storage st);
  Some (with_storage st s, match r with Ok _ => Ok tt | Err e => Err (StorageError e) end).

(** [if let Some(data) = self.storage.get(cid)?]. *)
Definition lookup_block (st : Ipfs) (cid : Cid) : Ipfs * result (option IpfsBlock) IpfsError :=
  let '(s, r) := db_get (storage st) cid in
  (with_storage st s,
   match r with
   | Ok (Some data) => Ok (Some (cid, data))
   | Ok None => Ok None
   | Err e => Err (StorageError e)
   end).

Definition ipfs_get (st : Ipfs) (cid : Cid) : Ipfs * result IpfsBlock IpfsError :=
  let '(st, r) := lookup_block st cid in
  (st, match r with Ok (Some b) => Ok b | Ok None => Err (NotFound cid) | Err e => Err e end).

(** How [network.get(..).await?.await?] ends: without a query, because its channel
    was dropped, or with the end of its query. *)
Inductive awaited :=
| NoQuery (e : ClientError)
| QueryEnded (id : QueryId) (r : result unit ClientError).

(** The awaited [GetQuery] is dropped before the store is looked at again; [world] is
    what happens while the future waits: the store moves on and the query ends. *)
Definition fetch_resume (st : Ipfs) (cid : Cid) (w : awaited) : Ipfs * result IpfsBlock IpfsError :=
  match w with
  | NoQuery e => (st, Err (NetworkError e))
  | QueryEnded id r =>
      let st := with_network st (with_cmd (network st) (get_query_drop (svc_cmd (network st)) id)) in
      match r with
      | Err e => (st, Err (NetworkError e))
      | Ok _ => ipfs_get st cid
      end
  end.

Definition fetch (st : Ipfs) (cid : Cid) (providers : list PeerId) (tx : Tx)
    (world : StorageService -> StorageService * awaited) : Ipfs * result IpfsBlock IpfsError :=
  let '(st, r) := lookup_block st cid in
  match r with
  | Err e => (st, Err e)
  | Ok (Some b) => (st, Ok b)
  | Ok None =>
      match providers with
      | [] => (st, Err (NotFound cid))
      | _ =>
          let '(n, c) := svc_get (network st) cid providers tx in
          let st := with_network st n in
          match c with
          | ReadyErr e => (st, Err (NetworkError e))
          | Awaits _ =>
              let '(s, w) := world (storage st) in
              fetch_resume (with_storage st s) cid w
          end
      end
  end.

Definition ipfs_insert (st : Ipfs) (cid : Cid) (data : StoreData) : Ipfs * result unit IpfsError :=
  on_storage st (fun s => db_insert s cid data).

Definition ipfs_sync (st : Ipfs) (cid : Cid) (providers : list PeerId) (tx : Tx) : Ipfs * sync_call :=
  let '(s, r) := db_missing_blocks (storage st) cid in
  let missing := match r with Ok l => l | Err _ => [] end in
  let '(n, c) := svc_sync (network st) cid providers missing tx in
  (mkIpfs s n, c).

(** *** [Store for Ipfs] *)
Definition store_temp_pin st tmp cid := ipfs_temp_pin st tmp cid.
Definition store_insert (st : Ipfs) (block : IpfsBlock) := ipfs_insert st block.1 block.2.
Definition store_reverse_alias (st : Ipfs) (cid : Cid) : Ipfs * result (option (list (list Z))) IpfsError :=
  let '(st, r) := ipfs_reverse_alias st cid in
  (st, match r with Ok x => Ok (set_iter <$> x) | Err e => Err e end).
Definition store_fetch st (book : AddressBook) cid tx world := fetch st cid (svc_peers book) tx world.
Definition store_sync st (book : AddressBook) cid tx := ipfs_sync st cid (svc_peers book) tx.
End Ipfs.

(** ** The traits *)

Class BitswapStore `{BS : BlockStores} (T : Type) := {
  bs_contains : T -> Cid -> T * result bool StoreErr;
  bs_get : T -> Cid -> T * result (option StoreData) StoreErr;
  bs_insert : T -> Cid * StoreData -> T * result unit StoreErr;
  bs_missing_blocks : T -> Cid -> T * result (list Cid) StoreErr
}.

#[export] Instance BitswapStorage `{BS : BlockStores} : BitswapStore StorageService := {|
  bs_contains := db_contains;
  bs_get := db_get;
  bs_insert := fun s block => db_insert s block.1 block.2;
  bs_missing_blocks := db_missing_blocks
|}.

(** The methods of [Store] that answer at once. *)
Class IpldStore `{BS : BlockStores} (T E : Type) := {
  st_contains : T -> Cid -> T * result bool E;
  st_get : T -> Cid -> T * result (Cid * StoreData) E;
  st_insert : T -> Cid * StoreData -> T * result unit E;
  st_alias : T -> list Z -> option Cid -> T * result unit E;
  st_resolve : T -> list Z -> T * result (option Cid) E
}.

(** What a caller may rely on when the calls succeed. *)
Class IpldStoreLaws `{IS : IpldStore T E} := {
  st_view : T -> store_view;
  st_contains_view s c s' r : st_contains s c = (s', Ok r) ->
    r = bool_decide (is_Some (v_blocks (st_view s) !! c)) /\ st_view s' = st_view s;
  st_get_view s c s' b : st_get s c = (s', Ok b) ->
    b.1 = c /\ v_blocks (st_view s) !! c = Some b.2 /\ st_view s' = st_view s;
  st_insert_view s b s' : st_insert s b = (s', Ok tt) ->
    st_view s' = mkView _ _ _ (<[b.1 := b.2]> (v_blocks (st_view s))) (v_aliases (st_view s));
  st_alias_view s a c s' : st_alias s a c = (s', Ok tt) ->
    st_view s' = mkView _ _ _ (v_blocks (st_view s))
      (match c with
       | Some c => <[a := c]> (v_aliases (st_view s))
       | None => delete a (v_aliases (st_view s))
       end);
  st_resolve_view s a s' r : st_resolve s a = (s', Ok r) ->
    r = v_aliases (st_view s) !! a /\ st_view s' = st_view s
}.

#[export] Instance ipfs_store `{C : Chrono} `{L : Libp2p} `{Ch : Channels} `{Pr : !Protocols}
    `{CC : !CommandChannel} `{BS : !BlockStores} : IpldStore Ipfs IpfsError := {|
  st_contains := ipfs_contains;
  st_get := ipfs_get;
  st_insert := store_insert;
  st_alias := ipfs_alias;
  st_resolve := ipfs_resolve
|}.

Section IpfsProps.
Context `{P : Profile} `{C : Chrono} `{L : Libp2p} `{Ch : Channels} `{HO : HashOrder}.
Context `{Pr : !Protocols} `{CC : !CommandChannel} `{BS : !BlockStores} {SL : StoreLaws}.
Context {CCL : CommandChannelLaws}.

Context `{Sw : !SwarmOps} `{Bu : !Builders} {SF : StoreFiles}.
Context {LL : Libp2pLaws} {HL : HashOrderLaws}.

(** A node started from the default configuration is ready: its task is in an
    initial state of the proved transition system with Kademlia, bitswap,
    gossipsub and broadcast enabled, it has the peer id of its key, no command
    is pending, and eviction of its store terminates. *)
Theorem ipfs_new_ready (B : Z) name path key fs fs' st net :
  ipfs_new (IpfsConfig_new name path key) fs = (fs', Ok (st, net)) ->
  net_reachable B net /\
  is_Some (kad (backend net)) /\ is_Some (bitswap (backend net)) /\
  is_Some (gossipsub (backend net)) /\ is_Some (broadcast (backend net)) /\
  svc_peer_id (network st) = public_to_peer (keypair_public key) /\
  cmd_queue (svc_cmd (network st)) = [] /\
  exists st' r, ipfs_evict (S (size (blocks (store (storage st))))) st = Some (st', r).
Proof.
  unfold ipfs_new. destruct (open _ fs) as [fs1 [[stg own]|e]] eqn:Eo; [|done].
  destruct (service_new _) as [[[svc beh] n]|e] eqn:E; [|done]. cbn in E. intros [= <- <- <-].
  destruct (service_new_ok B (NetworkConfig_new name key) svc beh n E) as (Hr & Hp & _ & _ & Hc & Hk & Hb & Hg & Hbc & _).
  apply open_gc_min_blocks in Eo. cbn in Eo.
  destruct (evict_returns stg) as (stg' & r & Ee); [rewrite Eo; done|].
  repeat split; try done; try (apply Hk || apply Hb || apply Hg || apply Hbc; by eexists).
  unfold ipfs_evict. cbn -[evict]. rewrite Ee. cbn. eauto.
Qed.

(** Every method of the storage that succeeds does what the abstract store says,
    and sends nothing. *)
Lemma on_storage_refines {R} st op (o : store_op R) st' r :
  on_storage st (fun s => rw s op (run_op o)) = (st', Ok r) ->
  spec_op o (view (store (storage st))) (view (store (storage st'))) r /\ network st' = network st.
Proof.
  unfold on_storage. destruct (rw (storage st) op (run_op o)) as [s [a|e]] eqn:E; [|done].
  intros [= <- <-]. split; [|done]. by apply rw_op_refines in E.
Qed.

Lemma lookup_block_spec st cid st' r :
  lookup_block st cid = (st', r) -> is_ok r = true ->
  r = Ok ((fun d => (cid, d)) <$> (blocks (store (storage st)) !! cid)) /\
  network st' = network st.
Proof.
  unfold lookup_block. destruct (db_get (storage st) cid) as [s [o|e]] eqn:E; [|by intros [= <- <-]].
  destruct (rw_ok _ _ _ _ _ E) as (t & s' & Ef & _ & _). apply get_block_view in Ef as [-> _].
  rewrite transaction_view. intros [= <- <-] _.
  fold (blocks (store (storage st))). by destruct (blocks (store (storage st)) !! cid).
Qed.

#[export] Instance ipfs_store_laws : IpldStoreLaws (IS := ipfs_store).
Proof.
  refine {| st_view := fun s => view (store (storage s)) |}; intros.
  - apply (on_storage_refines _ _ (SoContains c)) in H. naive_solver.
  - cbn in H. unfold ipfs_get, lookup_block in H.
    destruct (db_get (storage s) c) as [s1 [[d|]|e]] eqn:E; simplify_eq.
    apply (rw_op_refines _ _ (SoGet c)) in E. cbn in E. naive_solver.
  - by apply (on_storage_refines _ _ (SoInsert b.1 b.2)) in H as [H _].
  - by apply (on_storage_refines _ _ (SoAlias a c)) in H as [H _].
  - apply (on_storage_refines _ _ (SoResolve a)) in H. naive_solver.
Defined.

Lemma get_query_drop_queue c id : exists l,
  cmd_queue (get_query_drop c id) = cmd_queue c ++ l /\ (l = [] \/ l = [CancelQuery id]).
Proof.
  unfold get_query_drop. destruct (try_send c (CancelQuery id)) as [c' [[d m]|]] eqn:E; cbn.
  - apply try_send_err in E as [_ ->]. exists []. rewrite app_nil_r. by auto.
  - apply try_send_ok in E as ->. by eauto.
Qed.

(** C17: [fetch] returns the right block or says why not.  A block in the store is
    returned without asking the network; otherwise, if there are providers,
    exactly one get command is sent, followed at most by the cancellation that
    comes with the end of the query, and the result is the block the store holds
    once the query has ended.  It reports a block as not found only if it is not
    in the store and either there is nobody to ask or the query has ended without
    leaving it there. *)
Theorem fetch_correct st cid providers tx world st' res :
  fetch st cid providers tx world = (st', res) ->
  let found := blocks (store (storage st)) !! cid in
  let asked id := exists l,
    cmd_queue (svc_cmd (network st')) = cmd_queue (svc_cmd (network st)) ++ Get cid providers tx :: l /\
    (l = [] \/ l = [CancelQuery id]) in
  match res with
  | Ok r =>
      r.1 = cid /\
      ((found = Some r.2 /\ network st' = network st) \/
       (found = None /\ providers <> [] /\
        exists s id, asked id /\ (world s).2 = QueryEnded id (Ok tt) /\
          blocks (store (world s).1) !! cid = Some r.2))
  | Err (NotFound c) =>
      c = cid /\ found = None /\
      ((providers = [] /\ network st' = network st) \/
       (providers <> [] /\
        exists s id, asked id /\ (world s).2 = QueryEnded id (Ok tt) /\
          blocks (store (world s).1) !! cid = None))
  | Err _ => True
  end.
Proof.
  unfold fetch. destruct (lookup_block st cid) as [st1 r1] eqn:E.
  destruct r1 as [o|e]; [|intros [= <- <-]; unfold lookup_block in E; by destruct (db_get _ _) as [s [[]|]]; simplify_eq].
  destruct (lookup_block_spec _ _ _ _ E eq_refl) as [[= ->] Hn]. cbn zeta.
  destruct (blocks (store (storage st)) !! cid) as [d|] eqn:Eb; cbn; [intros [= <- <-]; by auto|].
  destruct providers as [|p ps]; [intros [= <- <-]; by auto|]. unfold svc_get, request, cmd. rewrite Hn.
  destruct (try_send _ _) as [c' o] eqn:Et. cbn. destruct o as [[dis m]|]; [by intros [= <- <-]|]. cbn.
  destruct (world (storage st1)) as [s [e|id [[]|e]]] eqn:Ew; [by intros [= <- <-]| |by intros [= <- <-]].
  cbn [fetch_resume]. unfold ipfs_get.
  destruct (lookup_block (with_network _ _) cid) as [st2 r2] eqn:E2.
  destruct (get_query_drop_queue c' id) as (l & Hl & Hl'). apply try_send_ok in Et. rewrite Et, <- app_assoc in Hl.
  destruct r2 as [o|e]; [|intros [= <- <-]; unfold lookup_block in E2; by destruct (db_get _ _) as [s' [[]|]]; simplify_eq].
  destruct (lookup_block_spec _ _ _ _ E2 eq_refl) as [[= ->] Hn2]. cbn in *.
  destruct (blocks (store s) !! cid) as [d|] eqn:Ed; cbn; intros [= <- <-]; rewrite Hn2; cbn.
  - split; [done|]. right. repeat split; [done..|]. exists (storage st1), id. rewrite Ew. by eauto.
  - repeat split; [done..|]. right. repeat split; [done..|]. exists (storage st1), id. rewrite Ew. by eauto.
Qed.

(** When the store cannot tell which blocks are missing, [sync] treats it as
    none missing: it reports success without asking any peer. *)
Theorem sync_hides_storage_errors st cid providers tx e :
  (db_missing_blocks (storage st) cid).2 = Err e ->
  (ipfs_sync st cid providers tx).2 = SyncReady (Ok tt) /\
  network (ipfs_sync st cid providers tx).1 = network st.
Proof.
  intros H. unfold ipfs_sync. destruct (db_missing_blocks (storage st) cid) as [s r]. cbn in H. by rewrite H.
Qed.
End IpfsProps.

Section IpfsWitness.
Import NetDemo SimService SimStore.

Definition node : @Ipfs sim sim_channels sim_protocols sim_commands sim_store :=
  mkIpfs three (mkService (1%N : @PublicKey sim) (1%N : @PeerId sim) "node" (mkCmdChan true 1 [])).

(** Directories can always be made and a store is empty when it is made. *)
#[local] Instance sim_files : StoreFiles (BS := sim_store) := {|
  Fs := list string;
  is_file := fun fs p => bool_decide (p ∈ fs);
  create_dir_all := fun p fs => (p :: fs, Ok tt);
  path_join := fun p q => p +:+ "/" +:+ q;
  CacheTracker := unit;
  InMemCacheTracker_new := tt;
  SqliteCacheTracker_open := fun _ fs => (fs, Ok tt);
  BlockStore_open := fun p _ _ fs => (p :: fs, Ok (mkMem ∅ ∅ 0));
  BlockStore_memory := fun _ _ => Ok (mkMem ∅ ∅ 0);
  additional_connection := fun _ fs => (fs, Ok tt)
|}.

(** A machine with a resolver configuration. *)
#[local] Instance resolving : Builders (L := sim) (Pr := sim_protocols) (Sw := sim_swarm_ops) := {|
  MdnsConfig_default := tt; KadConfig_default := tt; GossipsubConfig_default := tt;
  BroadcastConfig_default := tt; BitswapConfig_default := tt;
  IdentifyConfig_new := fun v k => mkIdentifyConfig v k "rust-libp2p" tt;
  Mdns_new := fun _ p => Ok p; Kademlia_new := fun _ _ => mkKad 0 [] []; Ping_new := fun c : unit => c;
  Identify_new := fun c => ic_agent_version c; Gossipsub_new := fun _ (_ : unit) => Ok [];
  Broadcast_new := fun _ => []; Bitswap_new := fun _ => mkBitswap 0 [];
  read_system_conf := Ok (tt, tt); tcp_transport := fun _ _ _ => tt;
  Dns_custom := fun t _ _ => Ok t; Dns_system := fun t => Ok t;
  build_swarm := fun _ _ => mkSimSwarm 0 [] |}.

Definition no_files : @Fs sim sim_protocols sim_store sim_files := [].
Definition new_node := ipfs_new (IpfsConfig_new "made-up-1" "." (1%N : @Keypair sim)) no_files.

Lemma ipfs_new_ready_witness : exists fs st net,
  new_node = (fs, Ok (st, net)) /\ net_reachable 0 net /\ is_Some (Behaviour.bitswap (backend net)).
Proof.
  destruct new_node as [fs [[st net]|e]] eqn:E.
  - destruct (ipfs_new_ready 0 "made-up-1" "." (1%N : @Keypair sim) no_files fs st net) as (Hr & _ & Hb & _).
    + exact E.
    + exists fs, st, net. split; [reflexivity|]. split; [exact Hr|exact Hb].
  - discriminate E.
Defined.

(** Bitswap stores block 7. *)
Definition bitswap_delivers (s : @StorageService sim sim_protocols sim_store) :
    @StorageService sim sim_protocols sim_store * @awaited sim sim_protocols :=
  ((db_insert s (cid 7) (data 70)).1, QueryEnded (BitswapId 0%N) (Ok tt)).

Lemma fetch_correct_witness : exists st',
  fetch node (cid 7) [(2%N : @PeerId sim)] 5 bitswap_delivers = (st', Ok (cid 7, data 70)) /\
  exists l, cmd_queue (svc_cmd (network st')) = Get (cid 7) [(2%N : @PeerId sim)] 5 :: l.
Proof.
  exists (fetch node (cid 7) [(2%N : @PeerId sim)] 5 bitswap_delivers).1. split; [reflexivity|].
  destruct (fetch_correct node (cid 7) [(2%N : @PeerId sim)] 5 bitswap_delivers
    (fetch node (cid 7) [(2%N : @PeerId sim)] 5 bitswap_delivers).1 (Ok (cid 7, data 70)))
    as (_ & [(H & _)|(_ & _ & s & id & (l & H & _) & _)]).
  - reflexivity.
  - discriminate H.
  - exists l. exact H.
Defined.

(** A store whose query for missing blocks fails. *)
Definition broken_store : BlockStores (L := sim) (Pr := sim_protocols) := {|
  StoreData := N; StoreErr := string; BlockStore := unit; Txn := unit; TempPin := unit;
  transaction := fun s => s; incremental_gc := fun s _ _ => (s, Ok true);
  store_flush := fun s => (s, Ok tt); txn_commit := fun t => (t, Ok tt); txn_drop := fun t => t;
  txn_temp_pin := fun t => (t, tt); extend_temp_pin := fun t p _ => (t, p, Ok tt);
  get_block_cids := fun t => (t, Ok []); has_block := fun t _ => (t, Ok false);
  get_block := fun t _ => (t, Ok None); put_block := fun t _ _ => (t, Err "disk full");
  txn_resolve := fun t _ => (t, Ok None); txn_alias := fun t _ _ => (t, Ok tt);
  txn_aliases := fun t => (t, Ok []); txn_reverse_alias := fun t _ => (t, Ok None);
  get_missing_blocks := fun t _ => (t, Err "database is locked") |}.

Definition broken : @Ipfs sim sim_channels sim_protocols sim_commands broken_store :=
  mkIpfs (mkStorage (BS := broken_store) tt 1 ZERO ∅) (mkService (1%N : @PublicKey sim) (1%N : @PeerId sim) "node" (mkCmdChan true 1 [])).

Lemma sync_hides_storage_errors_witness :
  (ipfs_sync broken (cid 7) [] 5).2 = SyncReady (Ok tt).
Proof.
  apply (sync_hides_storage_errors (BS := broken_store) broken (cid 7) [] 5 "database is locked").
  reflexivity.
Defined.
End IpfsWitness.
