(* ===== verification/NodeTests.v ===== *)
(** * The tests of whole nodes (src/lib.rs, [mod tests])

    The tests that use the storage of one node, in the logic of [StoreTests], and
    [test_sync], in which two nodes exchange trees of blocks; there bitswap and the
    other node are an argument, with what bitswap promises as a hypothesis.  Also shown:
    inserting a tree from its leaves while the collector runs can lose blocks. *)
From S2P Require Import Prelude Time Libp2p PeerInfo AddressHandler Peers Protocols Behaviour Net Service NetProps.
From S2P Require Import Config Db Pins Cache Ipfs StoreTests.

(** ** The tests of src/lib.rs *)
Section LibTests.
Context `{CL : CacheLaws} {SF : StoreFiles} `{Ch : Channels} `{HO : HashOrder}.
Context `{CC : !CommandChannel} `{Co : Chrono} `{ED : EqDecision StoreData}.

Abbreviation node := (test Ipfs IpfsError).

Definition n_insert (b : TestBlock) : node unit := call (fun st => ipfs_insert st b.1 b.2).
Definition n_alias (a : list Z) (c : option TestBlock) : node unit := call (fun st => ipfs_alias st a (fst <$> c)).
Definition n_flush : node unit := call ipfs_flush.
Definition n_contains (b : TestBlock) : node bool := call (fun st => ipfs_contains st b.1).
Definition n_get (b : TestBlock) : node IpfsBlock := call (fun st => ipfs_get st b.1).
Definition n_batch {R} (p : batch_program R) : node R := call (fun st => batch_ops st (run_batch p)).
Definition n_reverse_alias (b : TestBlock) : node (option (gset (list Z))) := call (fun st => ipfs_reverse_alias st b.1).
Definition n_assert_pinned (b : TestBlock) : node unit :=
  r ← n_reverse_alias b; assert (bool_decide (has_aliases r = Some true)).
Definition n_assert_unpinned (b : TestBlock) : node unit :=
  r ← n_reverse_alias b; assert (bool_decide (has_aliases r = Some false)).

(** [let _ = ..]. *)
Definition ignore {R} (m : node R) : node unit := fun st => let '(st, _) := m st in (st, Ok tt).

Definition test_local_store (block : TestBlock) : node unit :=
  tmp ← call ipfs_create_temp_pin;
  call (fun st => let '(st, _, r) := ipfs_temp_pin st tmp block.1 in (st, r)) ;;
  n_insert block ;;
  block2 ← n_get block;
  assert (bool_decide (block.2 = block2.2)).

Definition test_batch_read (a b : TestBlock) : node unit :=
  n_insert a ;; n_insert b ;;
  has_blocks ← n_batch (Do (SoContains a.1) (fun x => if x then Do (SoContains b.1) Return else Return false));
  assert has_blocks.

(** [nope] is the error of [bail!("nope!")]. *)
Definition test_batch_write (a b c d : TestBlock) (nope : StoreErr) : node unit :=
  n_batch (Do (SoInsert a.1 a.2) (fun _ => Do (SoInsert b.1 b.2) (fun _ => Return tt))) ;;
  x ← n_contains a; y ← (if (x : bool) then n_contains b else mret false); assert y ;;
  ignore (n_batch (R := unit) (Do (SoInsert c.1 c.2) (fun _ => Stop nope))) ;;
  x ← n_contains d; y ← (if negb x then n_contains c else mret false);
  z ← (if (y : bool) then n_contains b else mret false); assert z.

(** *** A node's calls are those of its storage *)

Definition zoom {A} (m : test StorageService StoreErr A) : node A := fun st =>
  let '(s, r) := m (storage st) in
  (with_storage st s,
   match r with
   | Ok a => Ok a
   | Err (Unwrapped e) => Err (Unwrapped (StorageError e))
   | Err Assertion => Err Assertion
   | Err Hangs => Err Hangs
   end).

Definition from_storage (e : IpfsError) : Prop := exists x, e = StorageError x.
Abbreviation tn := (triple (S := Ipfs) from_storage).
Abbreviation t := (triple (S := StorageService) (fun _ : StoreErr => True)).

Lemma t_zoom {A} P (m : test StorageService StoreErr A) Q (m' : node A) :
  (forall st, m' st = zoom m st) -> t P m Q -> tn (fun st => P (storage st)) m' (fun a st => Q a (storage st)).
Proof.
  intros Hm Ht st Hs. rewrite Hm. specialize (Ht _ Hs). unfold zoom.
  destruct (m (storage st)) as [s [a|[e| |]]]; [done|by exists e|done|done].
Qed.

Lemma on_storage_zoom {R} (f : StorageService -> StorageService * result R StoreErr) st :
  call (fun st => on_storage st f) st = zoom (call f) st.
Proof. unfold call, zoom, on_storage. by destruct (f (storage st)) as [s [a|e]]. Qed.

Lemma macro_zoom (b : TestBlock) (f : option (gset (list Z)) -> bool) st :
  (r ← n_reverse_alias b; assert (f r)) st = zoom (r ← reverse_alias b; assert (f r)) st.
Proof.
  unfold mbind, test_bind, zoom, n_reverse_alias, reverse_alias, call, ipfs_reverse_alias, on_storage.
  destruct (db_reverse_alias (storage st) b.1) as [s [r|e]]; [|done]. cbn. unfold assert. by destruct (f r).
Qed.

Definition AtN (v : cache) (st : Ipfs) : Prop := At v (storage st).

Lemma n_insert_run v b : tn (AtN v) (n_insert b) (fun _ => AtN (inserted v b)).
Proof. apply (t_zoom (At v) (insert b) (fun _ => At (inserted v b))); [apply on_storage_zoom|apply t_insert]. Qed.
Lemma n_alias_run v a c : tn (AtN v) (n_alias a c) (fun _ => AtN (aliased v a c)).
Proof. apply (t_zoom (At v) (alias a c) (fun _ => At (aliased v a c))); [apply on_storage_zoom|apply t_alias]. Qed.
Lemma n_flush_run v : tn (AtN v) n_flush (fun _ => AtN v).
Proof. apply (t_zoom (At v) flush (fun _ => At v)); [apply on_storage_zoom|apply t_flush]. Qed.

Lemma n_contains_run (v : cache) (b : TestBlock) :
  tn (AtN v) (n_contains b) (fun r st => r = bool_decide (stored v b.1) /\ AtN v st).
Proof.
  apply (t_zoom (At v) (call (fun s => db_contains s b.1)) (fun r s => r = bool_decide (stored v b.1) /\ At v s));
    [apply on_storage_zoom|].
  eapply t_conseq; [done|apply (t_op v "contains" (SoContains b.1))|].
  intros r s (v' & ([Hv ->] & Hr & Ht & Hm & _) & Hat). cbn in *. split; [done|].
  by rewrite <- (cache_eq v v') by auto.
Qed.

Lemma n_get_run (v : cache) (b : TestBlock) d :
  v_blocks (c_view v) !! b.1 = Some d -> tn (AtN v) (n_get b) (fun r st => r = (b.1, d) /\ AtN (used v b) st).
Proof.
  intros Hb st Hs. unfold n_get, call, ipfs_get, lookup_block.
  pose proof (t_get v b d Hb (storage st) Hs) as H. unfold get, call in H.
  destruct (db_get (storage st) b.1) as [s [r|e]]; [|by exists e]. destruct H as [-> H]. by split.
Qed.

Lemma n_batch_run (v : cache) {R} (p : batch_program R) :
  tn (AtN v) (n_batch p) (fun r st => exists v', spec_batch p (c_view v) (c_view v') r /\ AtN v' st).
Proof.
  apply (t_zoom (At v) (call (fun s => rw s "batch_ops" (run_batch p)))
    (fun r s => exists v', spec_batch p (c_view v) (c_view v') r /\ At v' s)); [apply on_storage_zoom|].
  apply t_call; [|done]. intros s s' r [<- Hg] E. exists (cache_of s'). split.
  - destruct (rw_ok _ _ _ _ _ E) as (u & u' & Ef & Ec & Es). apply batch_refines in Ef.
    rewrite transaction_view in Ef. unfold cache_of. cbn. by rewrite Es, (commit_view _ _ Ec).
  - split; [done|]. by rewrite (rw_keeps_config _ _ _ _ _ E).
Qed.

(** Temporary pins change nothing that a test can see. *)
Lemma temp_pin_op s tmp l s' tmp' r :
  db_temp_pin s tmp l = (s', tmp', r) ->
  rw s "temp_pin" (run_op (SoTempPin tmp l)) = (s', match r with Ok _ => Ok tmp' | Err e => Err e end).
Proof.
  unfold db_temp_pin, rw, rw_mut, run_op. destruct (batch_temp_pin l _ tmp) as [[u p] [[]|e]]; [|by intros [= <- <- <-]].
  destruct (txn_commit u) as [x [[]|e]]; by intros [= <- <- <-].
Qed.

Lemma n_create_temp_pin_run (v : cache) :
  tn (AtN v) (call ipfs_create_temp_pin) (fun _ st => exists v', c_view v' = c_view v /\ AtN v' st).
Proof.
  apply (t_zoom (At v) (call db_create_temp_pin) (fun _ s => exists v', c_view v' = c_view v /\ At v' s)); [apply on_storage_zoom|].
  eapply t_conseq; [done|apply (t_op v "create_temp_pin" SoCreateTempPin)|]. intros r s (v' & [Hv _] & Hat). by exists v'.
Qed.

Lemma n_temp_pin_run (v : cache) tmp c :
  tn (AtN v) (call (fun st => let '(st, _, r) := ipfs_temp_pin st tmp c in (st, r)))
    (fun _ st => exists v', c_view v' = c_view v /\ AtN v' st).
Proof.
  intros st Hs. unfold call, ipfs_temp_pin. destruct (db_temp_pin (storage st) tmp [c]) as [[s tmp'] r] eqn:E.
  apply temp_pin_op in E. destruct r as [[]|e]; [|by exists e].
  pose proof (t_op v "temp_pin" (SoTempPin tmp [c]) (storage st) Hs) as H. unfold call in H. rewrite E in H.
  destruct H as (v' & [Hv _] & Hat). by exists v'.
Qed.

Lemma t_exists {A X} (P : X -> Ipfs -> Prop) (F : X -> Prop) (m : node A) Q :
  (forall x, F x -> tn (P x) m Q) -> tn (fun st => exists x, F x /\ P x st) m Q.
Proof. intros H st (x & HF & HP). by apply (H x). Qed.

Lemma local_store_run v block : tn (AtN v) (test_local_store block) (fun _ _ => True).
Proof.
  unfold test_local_store. eapply t_bind; [apply n_create_temp_pin_run|]. intros tmp. apply t_exists. intros v1 H1.
  eapply t_bind; [apply n_temp_pin_run|]. intros u. apply t_exists. intros v2 H2.
  eapply t_seq; [apply n_insert_run|].
  eapply t_bind; [apply (n_get_run _ _ block.2); cbn; apply lookup_insert_eq|]. intros r. apply t_fact. intros ->.
  eapply t_conseq; [done|apply t_assert; by apply bool_decide_eq_true|done].
Qed.

Lemma batch_read_run v a b : tn (AtN v) (test_batch_read a b) (fun _ _ => True).
Proof.
  unfold test_batch_read. eapply t_seq; [apply n_insert_run|]. eapply t_seq; [apply n_insert_run|].
  eapply t_bind; [apply n_batch_run|]. intros r. apply t_exists. intros v' Hv.
  eapply t_conseq; [done|apply t_assert|done]. cbn in Hv. destruct Hv as (v1 & x & [-> ->] & Hv).
  assert (Ha : is_Some (<[b.1:=b.2]> (<[a.1:=a.2]> (v_blocks (c_view v))) !! a.1)).
  { destruct (decide (a.1 = b.1)) as [->|?]; [rewrite lookup_insert_eq; by eexists|].
    rewrite lookup_insert_ne, lookup_insert_eq by done. by eexists. }
  rewrite bool_decide_eq_true_2 in Hv by done. destruct Hv as (v2 & y & [-> ->] & _ & ->).
  apply bool_decide_eq_true. cbn. rewrite lookup_insert_eq. by eexists.
Qed.

(** A batch that gives up after an insertion keeps it. *)
Lemma nope_run {DL : DropLaws} (v : cache) (c : TestBlock) nope :
  (forall u, is_ok (put_block u c.1 c.2).2 = true) ->
  tn (AtN v) (ignore (n_batch (R := unit) (Do (SoInsert c.1 c.2) (fun _ => Stop nope))))
    (fun _ st => exists v', c_view v' = c_view (inserted v c) /\ AtN v' st).
Proof.
  intros Hput st [<- Hg]. unfold ignore, n_batch, call, batch_ops, on_storage, rw, rw_mut. cbn.
  unfold batch_insert. specialize (Hput (transaction (store (storage st)))).
  destruct (put_block (transaction (store (storage st))) c.1 c.2) as [u [[]|e]] eqn:E; [|done]. cbn.
  eexists (cache_of (with_store (count_query (storage st) "batch_ops") (txn_drop u))). split; [|by split].
  cbn. rewrite drop_view, (put_block_view _ _ _ _ E), transaction_view. done.
Qed.

Lemma t_contains (v : cache) (b : TestBlock) {A} (k : bool -> node A) Q :
  tn (AtN v) (k (bool_decide (stored v b.1))) Q -> tn (AtN v) (x ← n_contains b; k x) Q.
Proof. intros H. eapply t_bind; [apply n_contains_run|]. intros x. apply t_fact. by intros ->. Qed.

Lemma batch_write_run {DL : DropLaws} n (a b c d : TestBlock) nope :
  NoDup [a.1; b.1; c.1; d.1] -> (forall u, is_ok (put_block u c.1 c.2).2 = true) ->
  tn (AtN (empty_cache n)) (test_batch_write a b c d nope) (fun _ _ => True).
Proof.
  intros Hnd Hput. rewrite !NoDup_cons, !not_elem_of_cons in Hnd.
  destruct Hnd as ((Hab & Hac & Had & _) & (Hbc & Hbd & _) & (Hcd & _) & _).
  unfold test_batch_write. eapply t_bind; [apply n_batch_run|]. intros u. apply t_exists. intros v Hv.
  cbn in Hv. destruct Hv as (v1 & [] & -> & v2 & [] & -> & Hv & _). cbn in Hv.
  apply t_contains. rewrite bool_decide_eq_true_2; [|unfold stored; rewrite Hv; cbn; by simplify_map_eq].
  apply t_contains. rewrite bool_decide_eq_true_2; [|unfold stored; rewrite Hv; cbn; by simplify_map_eq].
  eapply t_seq; [by apply t_assert|]. eapply t_bind; [by apply nope_run|]. intros w. apply t_exists. intros v' Hv'.
  cbn in Hv'. rewrite Hv in Hv'. cbn in Hv'.
  apply t_contains. rewrite bool_decide_eq_false_2;
    [|unfold stored; rewrite Hv'; cbn; simplify_map_eq; by apply is_Some_None].
  apply t_contains. rewrite bool_decide_eq_true_2; [|unfold stored; rewrite Hv'; cbn; by simplify_map_eq].
  apply t_contains. rewrite bool_decide_eq_true_2; [|unfold stored; rewrite Hv'; cbn; by simplify_map_eq].
  eapply t_conseq; [done|by apply t_assert|done].
Qed.
End LibTests.

(** ** Two nodes: test_sync *)
Section SyncTest.
Context `{CL : CacheLaws} {SF : StoreFiles} `{Ch : Channels} `{HO : HashOrder}.
Context `{CC : !CommandChannel} `{Co : Chrono}.

Abbreviation node := (test Ipfs IpfsError).
Abbreviation nodes := (test (Ipfs * Ipfs) IpfsError).

Definition on1 {A} (m : node A) : nodes A := fun s => let '(s1, r) := m s.1 in ((s1, s.2), r).
Definition on2 {A} (m : node A) : nodes A := fun s => let '(s2, r) := m s.2 in ((s.1, s2), r).

(** The end of an awaited [SyncQuery], which is then dropped. *)
Definition sync_resume (st : Ipfs) (w : awaited) : Ipfs * result unit IpfsError :=
  match w with
  | NoQuery e => (st, Err (NetworkError e))
  | QueryEnded id r =>
      let c := svc_cmd (network st) in
      (with_network st (with_cmd (network st) (default c (sync_query_drop (Some id) (Some c)))),
       match r with Ok _ => Ok tt | Err e => Err (NetworkError e) end)
  end.

(** [sync(..).await?.await?]; [world] is what happens while it waits: the storage moves on
    and the query ends. *)
Definition sync_done (world : StorageService -> StorageService * awaited) (b : TestBlock)
    (providers : list PeerId) (tx : Tx) : node unit := call (fun st =>
  let '(st, c) := ipfs_sync st b.1 providers tx in
  match c with
  | SyncReady r => (st, match r with Ok _ => Ok tt | Err e => Err (NetworkError e) end)
  | SyncCall (ReadyErr e) => (st, Err (NetworkError e))
  | SyncCall (Awaits _) => let '(s, w) := world (storage st) in sync_resume (with_storage st s) w
  end).

Definition add_address_of (peer : PeerId) (addr : Multiaddr) : node unit :=
  call (fun st => (ipfs_add_address st peer addr, Ok tt)).

(** [local.listeners()[0]]: without a listener the test panics. *)
Definition first_listener {S} (b : AddressBook) : test S IpfsError Multiaddr := fun s =>
  (s, match svc_listeners b with addr :: _ => Ok addr | [] => Err Assertion end).

(** [book1] and [book2] are the address books when the listeners are read. *)
Definition test_sync (a1 b1 c1 b2 c2 : TestBlock) (x : list Z) (p1 p2 : PeerId) (book1 book2 : AddressBook) (tx1 tx2 : Tx)
    (world1 world2 : StorageService -> StorageService * awaited) : nodes unit :=
  addr2 ← first_listener book2; on1 (add_address_of p2 addr2) ;;
  addr1 ← first_listener book1; on2 (add_address_of p1 addr1) ;;
  on1 (n_insert a1) ;; on1 (n_insert b1) ;; on1 (n_insert c1) ;; on1 (n_alias x (Some c1)) ;; on1 n_flush ;;
  on1 (n_assert_pinned a1) ;; on1 (n_assert_pinned b1) ;; on1 (n_assert_pinned c1) ;;
  on2 (n_alias x (Some c1)) ;; on2 (sync_done world2 c1 [p1] tx2) ;; on2 n_flush ;;
  on2 (n_assert_pinned a1) ;; on2 (n_assert_pinned b1) ;; on2 (n_assert_pinned c1) ;;
  on2 (n_insert b2) ;; on2 (n_insert c2) ;; on2 (n_alias x (Some c2)) ;; on2 n_flush ;;
  on2 (n_assert_pinned a1) ;; on2 (n_assert_unpinned b1) ;; on2 (n_assert_unpinned c1) ;;
  on2 (n_assert_pinned b2) ;; on2 (n_assert_pinned c2) ;;
  on1 (n_alias x (Some c2)) ;; on1 (sync_done world1 c2 [p2] tx1) ;; on1 n_flush ;;
  on1 (n_assert_pinned a1) ;; on1 (n_assert_unpinned b1) ;; on1 (n_assert_unpinned c1) ;;
  on1 (n_assert_pinned b2) ;; on1 (n_assert_pinned c2) ;;
  on2 (n_alias x None) ;; on2 n_flush ;;
  on2 (n_assert_unpinned a1) ;; on2 (n_assert_unpinned b1) ;; on2 (n_assert_unpinned c1) ;;
  on2 (n_assert_unpinned b2) ;; on2 (n_assert_unpinned c2) ;;
  on1 (n_alias x None) ;; on2 n_flush ;;
  on1 (n_assert_unpinned a1) ;; on1 (n_assert_unpinned b1) ;; on1 (n_assert_unpinned c1) ;;
  on1 (n_assert_unpinned b2) ;; on1 (n_assert_unpinned c2).

(** *** Rules *)
Abbreviation t := (triple (S := StorageService) (fun _ : StoreErr => True)).
Definition from_outside (e : IpfsError) : Prop := from_storage e \/ exists x, e = NetworkError x.
Abbreviation t2 := (triple (S := Ipfs * Ipfs) from_outside).
Definition At2 (v1 v2 : cache) (s : Ipfs * Ipfs) : Prop := AtN v1 s.1 /\ AtN v2 s.2.

Lemma on1_of {A} v1 v2 v1' (m : test StorageService StoreErr A) (m' : node A) :
  (forall st, m' st = zoom m st) -> t (At v1) m (fun _ => At v1') -> t2 (At2 v1 v2) (on1 m') (fun _ => At2 v1' v2).
Proof.
  intros Hm Ht [s1 s2] [H1 H2]. unfold on1. cbn [fst snd] in *.
  pose proof (t_zoom (At v1) m (fun _ => At v1') m' Hm Ht s1 H1) as H.
  destruct (m' s1) as [s1' [a|[e| |]]]; [by split|by left|done|done].
Qed.

Lemma on2_of {A} v1 v2 v2' (m : test StorageService StoreErr A) (m' : node A) :
  (forall st, m' st = zoom m st) -> t (At v2) m (fun _ => At v2') -> t2 (At2 v1 v2) (on2 m') (fun _ => At2 v1 v2').
Proof.
  intros Hm Ht [s1 s2] [H1 H2]. unfold on2. cbn [fst snd] in *.
  pose proof (t_zoom (At v2) m (fun _ => At v2') m' Hm Ht s2 H2) as H.
  destruct (m' s2) as [s2' [a|[e| |]]]; [by split|by left|done|done].
Qed.

(** A node that listens: the first event of its listener is an address, which is in the
    book when the listeners are read. *)
Definition listens (first : option ListenerEvent) (b : AddressBook) : Prop :=
  exists addr, first = Some (LeNewListenAddr addr) /\ addr ∈ svc_listeners b.

Lemma t2_listener first b {A} (k : Multiaddr -> nodes A) P Q :
  listens first b -> (forall addr, t2 P (k addr) Q) -> t2 P (addr ← first_listener b; k addr) Q.
Proof.
  intros (addr & _ & Hin) Hk s Hs. unfold mbind, test_bind, first_listener.
  destruct (svc_listeners b) as [|a l]; [by apply not_elem_of_nil in Hin|]. by apply Hk.
Qed.

Lemma t2_address1 v1 v2 p a : t2 (At2 v1 v2) (on1 (add_address_of p a)) (fun _ => At2 v1 v2).
Proof. intros [s1 s2] [H1 H2]. unfold on1, add_address_of, call. cbn. by split. Qed.
Lemma t2_address2 v1 v2 p a : t2 (At2 v1 v2) (on2 (add_address_of p a)) (fun _ => At2 v1 v2).
Proof. intros [s1 s2] [H1 H2]. unfold on2, add_address_of, call. cbn. by split. Qed.

(** What bitswap promises of a query for [root] with a provider that has [T], if CIDs mean
    the same on both sides: when it ends without an error, the blocks of [T] below [root]
    are stored, and neither blocks nor aliases are lost. *)
Definition delivers (world : StorageService -> StorageService * awaited)
    (T : gmap Cid StoreData) (root : Cid) : Prop :=
  forall s s' id, world s = (s', QueryEnded id (Ok tt)) -> map_agree T (blocks (store s)) ->
    svc_gc_min_blocks s' = svc_gc_min_blocks s /\
    v_aliases (view (store s')) = v_aliases (view (store s)) /\
    blocks (store s) ⊆ blocks (store s') /\
    forall c d, below T root c -> T !! c = Some d -> blocks (store s') !! c = Some d.

(** The storage can tell that a root is missing. *)
Definition tells_missing : Prop := forall s root,
  blocks (store s) !! root = None -> exists s' c l, db_missing_blocks s root = (s', Ok (c :: l)).

Definition with_blocks (v : cache) (T : gmap Cid StoreData) (r : list Cid) (n : Z) (p : bool) : cache :=
  mkCache (mkView _ _ _ T (v_aliases (c_view v))) r n p.

Lemma sync_done_run v world (b : TestBlock) p tx T st :
  tells_missing -> delivers world T b.1 -> v_blocks (c_view v) !! b.1 = None ->
  map_agree T (v_blocks (c_view v)) -> AtN v st ->
  match sync_done world b [p] tx st with
  | (st', Ok _) => exists T' r n tp, AtN (with_blocks v T' r n tp) st' /\ v_blocks (c_view v) ⊆ T' /\
      forall c d, below T b.1 c -> T !! c = Some d -> T' !! c = Some d
  | (_, Err (Unwrapped e)) => from_outside e
  | _ => False
  end.
Proof.
  intros Hm Hd Hb Hagree [<- Hg]. unfold sync_done, call, ipfs_sync.
  destruct (Hm (storage st) b.1 Hb) as (s1 & c & l & E). rewrite E.
  pose proof (rw_answers _ _ (SoMissingBlocks b.1) _ _ E) as (Hv & _ & _ & _ & _). cbn in Hv.
  assert (Hg1 : svc_gc_min_blocks s1 = svc_gc_min_blocks (storage st)) by by eapply rw_keeps_config.
  cbn [svc_sync]. destruct (request _ _ tx) as [nw [e|?]]; cbn; [right; by eexists|].
  destruct (world s1) as [s2 [e|id [[]|e]]] eqn:Ew; [right; by eexists| |right; by eexists]. cbn.
  destruct (Hd _ _ _ Ew) as (Hg2 & Ha & Hs & Hn); [unfold blocks; by rewrite Hv|].
  exists (blocks (store s2)), (recency (store s2)), (target (store s2)), (temp_pinned (store s2)). split_and!.
  - split; cbn; [|by rewrite Hg2, Hg1]. unfold cache_of, with_blocks. cbn. f_equal. rewrite Hv in Ha.
    rewrite <- Ha. unfold blocks. by destruct (view (store s2)).
  - unfold blocks in Hs. by rewrite Hv in Hs.
  - done.
Qed.

Lemma on1_sync {A} v1 v2 world (b : TestBlock) p tx T (k : nodes A) Q :
  tells_missing -> delivers world T b.1 -> v_blocks (c_view v1) !! b.1 = None ->
  map_agree T (v_blocks (c_view v1)) ->
  (forall T' r n tp, v_blocks (c_view v1) ⊆ T' -> (forall c d, below T b.1 c -> T !! c = Some d -> T' !! c = Some d) ->
     t2 (At2 (with_blocks v1 T' r n tp) v2) k Q) ->
  t2 (At2 v1 v2) (on1 (sync_done world b [p] tx) ;; k) Q.
Proof.
  intros Hm Hd Hb Ha Hk [s1 s2] [H1 H2]. pose proof (sync_done_run v1 world b p tx T s1 Hm Hd Hb Ha H1) as H.
  unfold mbind, test_bind, on1. cbn [fst snd]. destruct (sync_done world b [p] tx s1) as [s1' [a|f]]; [|done].
  destruct H as (T' & r & n & tp & Hat & Hsub & Hin). by apply (Hk T' r n tp Hsub Hin).
Qed.

Lemma on2_sync {A} v1 v2 world (b : TestBlock) p tx T (k : nodes A) Q :
  tells_missing -> delivers world T b.1 -> v_blocks (c_view v2) !! b.1 = None ->
  map_agree T (v_blocks (c_view v2)) ->
  (forall T' r n tp, v_blocks (c_view v2) ⊆ T' -> (forall c d, below T b.1 c -> T !! c = Some d -> T' !! c = Some d) ->
     t2 (At2 v1 (with_blocks v2 T' r n tp)) k Q) ->
  t2 (At2 v1 v2) (on2 (sync_done world b [p] tx) ;; k) Q.
Proof.
  intros Hm Hd Hb Ha Hk [s1 s2] [H1 H2]. pose proof (sync_done_run v2 world b p tx T s2 Hm Hd Hb Ha H2) as H.
  unfold mbind, test_bind, on2. cbn [fst snd]. destruct (sync_done world b [p] tx s2) as [s2' [a|f]]; [|done].
  destruct H as (T' & r & n & tp & Hat & Hsub & Hin). by apply (Hk T' r n tp Hsub Hin).
Qed.

Lemma insert1 v1 v2 b : t2 (At2 v1 v2) (on1 (n_insert b)) (fun _ => At2 (inserted v1 b) v2).
Proof. apply (on1_of _ _ _ (insert b)); [intros; apply on_storage_zoom|apply t_insert]. Qed.
Lemma insert2 v1 v2 b : t2 (At2 v1 v2) (on2 (n_insert b)) (fun _ => At2 v1 (inserted v2 b)).
Proof. apply (on2_of _ _ _ (insert b)); [intros; apply on_storage_zoom|apply t_insert]. Qed.
Lemma alias1 v1 v2 a c : t2 (At2 v1 v2) (on1 (n_alias a c)) (fun _ => At2 (aliased v1 a c) v2).
Proof. apply (on1_of _ _ _ (alias a c)); [intros; apply on_storage_zoom|apply t_alias]. Qed.
Lemma alias2 v1 v2 a c : t2 (At2 v1 v2) (on2 (n_alias a c)) (fun _ => At2 v1 (aliased v2 a c)).
Proof. apply (on2_of _ _ _ (alias a c)); [intros; apply on_storage_zoom|apply t_alias]. Qed.
Lemma flush1 v1 v2 : t2 (At2 v1 v2) (on1 n_flush) (fun _ => At2 v1 v2).
Proof. apply (on1_of _ _ _ flush); [intros; apply on_storage_zoom|apply t_flush]. Qed.
Lemma flush2 v1 v2 : t2 (At2 v1 v2) (on2 n_flush) (fun _ => At2 v1 v2).
Proof. apply (on2_of _ _ _ flush); [intros; apply on_storage_zoom|apply t_flush]. Qed.

Lemma pinned1 v1 v2 b :
  t (At v1) (assert_pinned b) (fun _ => At v1) -> t2 (At2 v1 v2) (on1 (n_assert_pinned b)) (fun _ => At2 v1 v2).
Proof. apply on1_of. intros. apply macro_zoom. Qed.
Lemma unpinned1 v1 v2 b :
  t (At v1) (assert_unpinned b) (fun _ => At v1) -> t2 (At2 v1 v2) (on1 (n_assert_unpinned b)) (fun _ => At2 v1 v2).
Proof. apply on1_of. intros. apply macro_zoom. Qed.
Lemma pinned2 v1 v2 b :
  t (At v2) (assert_pinned b) (fun _ => At v2) -> t2 (At2 v1 v2) (on2 (n_assert_pinned b)) (fun _ => At2 v1 v2).
Proof. apply on2_of. intros. apply macro_zoom. Qed.
Lemma unpinned2 v1 v2 b :
  t (At v2) (assert_unpinned b) (fun _ => At v2) -> t2 (At2 v1 v2) (on2 (n_assert_unpinned b)) (fun _ => At2 v1 v2).
Proof. apply on2_of. intros. apply macro_zoom. Qed.

Ltac calls2 := repeat (eapply t_seq;
  [first [apply t2_address1 | apply t2_address2 | apply insert1 | apply insert2 | apply alias1 | apply alias2 |
          apply flush1 | apply flush2]|]).
Ltac macro2 tac := first [apply pinned1 | apply pinned2 | apply unpinned1 | apply unpinned2]; tac.
Ltac next2 tac := eapply t_seq; [macro2 ltac:(tac)|].
Ltac last2 tac := eapply t_conseq; [done|macro2 ltac:(tac)|done].

(** The blocks of the test: [c1] links to [a1] and [b1], [c2] to [a1] and [b2]. *)
Context (a1 b1 c1 b2 c2 : TestBlock) (x : list Z).
Hypothesis Hnd : NoDup [a1.1; b1.1; c1.1; b2.1; c2.1].
Hypothesis La1 : data_links a1.2 = [].
Hypothesis Lb2 : data_links b2.2 = [].
Hypothesis Lc1 : data_links c1.2 = [a1.1; b1.1].
Hypothesis Lc2 : data_links c2.2 = [a1.1; b2.1].

Definition tree1 : gmap Cid StoreData := <[c1.1 := c1.2]> (<[b1.1 := b1.2]> {[a1.1 := a1.2]}).
Definition tree2 : gmap Cid StoreData := <[c2.1 := c2.2]> (<[b2.1 := b2.2]> {[a1.1 := a1.2]}).

Lemma below_tree1 (T' : gmap Cid StoreData) :
  (forall c d, below tree1 c1.1 c -> tree1 !! c = Some d -> T' !! c = Some d) ->
  T' !! a1.1 = Some a1.2 /\ T' !! b1.1 = Some b1.2 /\ T' !! c1.1 = Some c1.2.
Proof.
  intros H. rewrite !NoDup_cons, !not_elem_of_cons in Hnd. destruct_and! Hnd.
  assert (Hc : tree1 !! c1.1 = Some c1.2) by (unfold tree1; by simplify_map_eq).
  split_and!; apply H; try (by constructor); try (unfold tree1; by simplify_map_eq);
    (eapply below_link; [constructor|exact Hc|]; rewrite Lc1; rewrite !elem_of_cons; auto).
Qed.

Lemma below_tree2 (T' : gmap Cid StoreData) :
  (forall c d, below tree2 c2.1 c -> tree2 !! c = Some d -> T' !! c = Some d) ->
  T' !! a1.1 = Some a1.2 /\ T' !! b2.1 = Some b2.2 /\ T' !! c2.1 = Some c2.2.
Proof.
  intros H. rewrite !NoDup_cons, !not_elem_of_cons in Hnd. destruct_and! Hnd.
  assert (Hc : tree2 !! c2.1 = Some c2.2) by (unfold tree2; by simplify_map_eq).
  split_and!; apply H; try (by constructor); try (unfold tree2; by simplify_map_eq);
    (eapply below_link; [constructor|exact Hc|]; rewrite Lc2; rewrite !elem_of_cons; auto).
Qed.

Lemma trees_agree : map_agree tree2 (<[c1.1 := c1.2]> (<[b1.1 := b1.2]> (<[a1.1 := a1.2]> ∅))).
Proof.
  rewrite !NoDup_cons, !not_elem_of_cons in Hnd. destruct_and! Hnd. apply map_agree_spec. unfold tree2.
  intros c d d' Hc. apply lookup_insert_Some in Hc as [[<- <-]|[? Hc]]; [by intros; simplify_map_eq|].
  apply lookup_insert_Some in Hc as [[<- <-]|[? Hc]]; [by intros; simplify_map_eq|].
  apply lookup_singleton_Some in Hc as [<- <-]. intros. by simplify_map_eq.
Qed.

Lemma sync_run p1 p2 first1 first2 book1 book2 tx1 tx2 world1 world2 n :
  listens first1 book1 -> listens first2 book2 -> tells_missing -> delivers world2 tree1 c1.1 -> delivers world1 tree2 c2.1 ->
  t2 (At2 (empty_cache n) (empty_cache n))
    (test_sync a1 b1 c1 b2 c2 x p1 p2 book1 book2 tx1 tx2 world1 world2) (fun _ _ => True).
Proof.
  intros Hb1 Hb2 Hm H2 H1. pose proof Hnd as Hd. rewrite !NoDup_cons, !not_elem_of_cons in Hd. destruct_and! Hd.
  unfold test_sync. eapply t2_listener; [exact Hb2|]. intros addr2. eapply t_seq; [apply t2_address1|].
  eapply t2_listener; [exact Hb1|]. intros addr1. calls2.
  next2 ltac:(by_parent x c1.1). next2 ltac:(by_parent x c1.1). next2 ltac:(by_alias x). calls2.
  eapply on2_sync; [done|exact H2|cbn; by simplify_map_eq|cbn; apply map_agree_empty_r|]. intros T' r m tp _ HT.
  destruct (below_tree1 _ HT) as (Ta1 & Tb1 & Tc1). clear HT. calls2.
  next2 ltac:(by_parent x c1.1). next2 ltac:(by_parent x c1.1). next2 ltac:(by_alias x). calls2.
  next2 ltac:(by_parent x c2.1). next2 ltac:(outside [c2.1; a1.1; b2.1]). next2 ltac:(outside [c2.1; a1.1; b2.1]).
  next2 ltac:(by_parent x c2.1). next2 ltac:(by_alias x). calls2.
  eapply on1_sync; [done|exact H1|cbn; by simplify_map_eq|cbn; by apply trees_agree|]. intros S' r' m' tp' Hsub HS.
  destruct (below_tree2 _ HS) as (Sa1 & Sb2 & Sc2). clear HS. cbn in Hsub.
  assert (Sb1 : S' !! b1.1 = Some b1.2) by (eapply lookup_weaken; [|exact Hsub]; by simplify_map_eq).
  assert (Sc1 : S' !! c1.1 = Some c1.2) by (eapply lookup_weaken; [|exact Hsub]; by simplify_map_eq).
  clear Hsub. calls2.
  next2 ltac:(by_parent x c2.1). next2 ltac:(outside [c2.1; a1.1; b2.1]). next2 ltac:(outside [c2.1; a1.1; b2.1]).
  next2 ltac:(by_parent x c2.1). next2 ltac:(by_alias x). calls2.
  do 5 next2 ltac:(no_alias). calls2. do 4 next2 ltac:(no_alias). last2 ltac:(no_alias).
Qed.
End SyncTest.

(** ** From the start of the nodes *)
Section LibClaims.
Context `{CL : CacheLaws} `{Ch : Channels} `{HO : HashOrder}.
Context `{CC : !CommandChannel} `{Co : Chrono} `{Sw : !SwarmOps} `{Bu : !Builders} {SF : StoreFiles}.
Context {ML : MemoryLaws} {DL : DropLaws} `{ED : EqDecision StoreData}.

Definition without_mdns (c : NetworkConfig) : NetworkConfig :=
  mkNetworkConfig (nc_enable_loopback c) (nc_port_reuse c) (nc_node_name c) (nc_node_key c) (nc_psk c) (nc_dns c) None
    (nc_kad c) (nc_ping c) (nc_identify c) (nc_gossipsub c) (nc_broadcast c) (nc_bitswap c) (nc_keep_alive c).

(** The configurations of the tests: [create_store(enable_mdns)], and the one of the tests
    of batches. *)
Definition create_store_config (enable_mdns : bool) (name : string) (key : Keypair) : IpfsConfig :=
  let storage := StorageConfig_new None None 10 (mkDuration 10 0) in
  let network := NetworkConfig_new name key in
  mkIpfsConfig storage (if enable_mdns then network else without_mdns network).
Definition batch_config (name : string) (key : Keypair) : IpfsConfig :=
  mkIpfsConfig (StorageConfig_new None None 1000000 (from_secs 3600)) (NetworkConfig_new name key).

(** [create_store] listens and waits for the first event of its listener, [first]; it
    panics if the stream ends without one. *)
Definition create_store (config : IpfsConfig) (any : Multiaddr) (tx : Sender ListenerEvent)
    (first : option ListenerEvent) (fs : Fs) : Fs * result Ipfs (failure IpfsError) :=
  let '(fs, r) := ipfs_new config fs in
  (fs,
   match r with
   | Ok (st, _) =>
       let st := (ipfs_listen_on st any tx).1 in
       match first with Some _ => Ok st | None => Err Assertion end
   | Err e => Err (Unwrapped e)
   end).

Definition run_node {A} (config : IpfsConfig) (body : test Ipfs IpfsError A) (fs : Fs) : result A (failure IpfsError) :=
  match ipfs_new config fs with
  | (_, Ok (st, _)) => (body st).2
  | (_, Err e) => Err (Unwrapped e)
  end.

Definition run_created {A} (config : IpfsConfig) (any : Multiaddr) (tx : Sender ListenerEvent)
    (first : option ListenerEvent) (body : test Ipfs IpfsError A) (fs : Fs) : result A (failure IpfsError) :=
  match create_store config any tx first fs with
  | (_, Ok st) => (body st).2
  | (_, Err f) => Err f
  end.

Definition run_two {A} (config1 config2 : IpfsConfig) (any : Multiaddr) (tx : Sender ListenerEvent)
    (first1 first2 : option ListenerEvent) (body : test (Ipfs * Ipfs) IpfsError A) (fs : Fs) : result A (failure IpfsError) :=
  match create_store config1 any tx first1 fs with
  | (_, Err f) => Err f
  | (fs, Ok st1) =>
      match create_store config2 any tx first2 fs with
      | (_, Ok st2) => (body (st1, st2)).2
      | (_, Err f) => Err f
      end
  end.

(** Errors that the test did not make. *)
Definition not_found (e : IpfsError) : Prop := exists c, e = NotFound c.

Lemma ipfs_new_at n interval network fs fs' st net :
  ipfs_new (mkIpfsConfig (StorageConfig_new None None n interval) network) fs = (fs', Ok (st, net)) ->
  AtN (empty_cache n) st.
Proof.
  unfold ipfs_new. cbn [config_storage config_network]. destruct (open _ fs) as [fs1 [[s own]|e]] eqn:E; [|done].
  destruct (service_new network) as [[[svc beh] nt]|e]; [|done]. intros [= <- <- <-]. by eapply open_memory.
Qed.

Lemma ipfs_new_error config fs fs' e : ipfs_new config fs = (fs', Err e) -> ~ not_found e.
Proof.
  unfold ipfs_new. destruct (open _ fs) as [fs1 [[s own]|x]]; [|intros [= <- <-] [c Hc]; done].
  destruct (service_new _) as [[[svc beh] nt]|x]; [done|]. intros [= <- <-] [c Hc]. done.
Qed.

Lemma create_store_at b name key any tx first fs fs' st :
  create_store (create_store_config b name key) any tx first fs = (fs', Ok st) -> AtN (empty_cache 10) st.
Proof.
  unfold create_store. destruct (ipfs_new _ fs) as [fs1 [[st1 nt]|e]] eqn:E; [|done].
  apply ipfs_new_at in E. destruct first; [|done]. intros [= <- <-]. unfold AtN, ipfs_listen_on, on_network_call.
  by destruct (listen_on (network st1) any tx).
Qed.

Lemma create_store_error {A} config any tx first fs fs' f :
  is_Some first -> create_store config any tx first fs = (fs', Err f) ->
  no_assertion_fails (fun e => ~ not_found e) (Err f : result A (failure IpfsError)).
Proof.
  intros [ev ->]. unfold create_store. destruct (ipfs_new config fs) as [fs1 [[st1 nt]|x]] eqn:E; [done|].
  intros [= <- <-]. by eapply ipfs_new_error.
Qed.

Lemma listens_first first b : listens first b -> is_Some first.
Proof. by intros (addr & -> & _). Qed.

Lemma outside_found {S A} (r : result A (failure IpfsError)) (P : IpfsError -> Prop) (m : test S IpfsError A) s :
  r = (m s).2 -> no_assertion_fails P (m s).2 -> (forall e, P e -> ~ not_found e) ->
  no_assertion_fails (fun e => ~ not_found e) r.
Proof. intros -> H HP. unfold no_assertion_fails in *. destruct (m s).2 as [a|[e| |]]; auto. Qed.

Lemma storage_found e : from_storage e -> ~ not_found e.
Proof. by intros [x ->] [c Hc]. Qed.
Lemma outside_found' e : from_outside e -> ~ not_found e.
Proof. by intros [[x ->]|[x ->]] [c Hc]. Qed.

(** The tests of src/lib.rs that need one node.  On every store that keeps its laws:
    no assertion of test_local_store, test_batch_read and test_batch_write fails and no
    block that was inserted is reported as not found; for test_local_store if the listener reports anything; for test_batch_write, which ignores
    the result of the batch that gives up, if that batch can store its block. *)
Theorem lib_tests_hold fs mdns name key any tx first (block a b c d : TestBlock) nope :
  is_Some first ->
  NoDup [a.1; b.1; c.1; d.1] -> (forall u, is_ok (put_block u c.1 c.2).2 = true) ->
  let holds r := no_assertion_fails (fun e => ~ not_found e) r in
  holds (run_created (create_store_config mdns name key) any tx first (test_local_store block) fs) /\
  holds (run_node (batch_config name key) (test_batch_read a b) fs) /\
  holds (run_node (batch_config name key) (test_batch_write a b c d nope) fs).
Proof.
  intros Hfirst Hnd Hput holds.
  assert (Hrun : forall m, triple from_storage (AtN (empty_cache 1000000)) m (fun _ _ => True) ->
    holds (run_node (batch_config name key) m fs)).
  { intros m Hm. unfold run_node. destruct (ipfs_new _ fs) as [fs' [[st nt]|e]] eqn:E; [|by eapply ipfs_new_error].
    eapply outside_found; [done| |apply storage_found]. eapply triple_no_assertion; [exact Hm|]. by eapply ipfs_new_at. }
  split_and!; [|apply Hrun, batch_read_run|by apply Hrun, batch_write_run].
  unfold run_created. destruct (create_store _ any tx first fs) as [fs' [st|e]] eqn:E; [|by eapply create_store_error].
  eapply outside_found; [done| |apply storage_found].
  eapply triple_no_assertion; [apply local_store_run|]. by eapply create_store_at.
Qed.

(** C33: the test of synchronisation between two nodes.  Suppose that both nodes come to
    listen ([listens]), that the storage can tell that a root is missing, rather than fail
    ([tells_missing]; the node would take the error for nothing missing), and that a query
    of bitswap that ends without an error has stored the blocks below its root, and lost
    neither blocks nor aliases ([delivers]); the blocks are different and linked as in the
    test.  Then test_sync does not panic: none of its assertions fails, on any store that
    keeps its laws.  Each node has the tree of its alias pinned and nothing else, before
    and after each synchronisation. *)
Theorem sync_test_holds fs name1 name2 key1 key2 any tx first1 first2 (a1 b1 c1 b2 c2 : TestBlock) x p1 p2 book1 book2 tx1 tx2
    world1 world2 :
  NoDup [a1.1; b1.1; c1.1; b2.1; c2.1] ->
  data_links a1.2 = [] -> data_links b2.2 = [] ->
  data_links c1.2 = [a1.1; b1.1] -> data_links c2.2 = [a1.1; b2.1] ->
  listens first1 book1 -> listens first2 book2 ->
  tells_missing -> delivers world2 (tree1 a1 b1 c1) c1.1 -> delivers world1 (tree2 a1 b2 c2) c2.1 ->
  no_assertion_fails (fun e => ~ not_found e)
    (run_two (create_store_config false name1 key1) (create_store_config false name2 key2) any tx first1 first2
      (test_sync a1 b1 c1 b2 c2 x p1 p2 book1 book2 tx1 tx2 world1 world2) fs).
Proof.
  intros Hnd La1 Lb2 Lc1 Lc2 Hl1 Hl2 Hm H2 H1. unfold run_two.
  destruct (create_store _ any tx first1 fs) as [fs' [st1|f]] eqn:E1;
    [|eapply create_store_error; [exact (listens_first _ _ Hl1)|exact E1]].
  destruct (create_store _ any tx first2 fs') as [fs'' [st2|f]] eqn:E2;
    [|eapply create_store_error; [exact (listens_first _ _ Hl2)|exact E2]].
  eapply outside_found; [done| |apply outside_found'].
  eapply triple_no_assertion; [by eapply (sync_run a1 b1 c1 b2 c2 x Hnd La1 Lb2 Lc1 Lc2)|].
  split; by eapply create_store_at.
Qed.
End LibClaims.

(** ** On the concrete store *)
Section TestWitness.
Import NetDemo SimService SimLru SimTests.

#[local] Existing Instance resolving.
Definition any_address : @Multiaddr sim := [].
Definition listener : @Sender sim_channels (@ListenerEvent sim) := mkChan true [].
Definition a_key (n : N) : @Keypair sim := n.

Lemma lib_tests_hold_witness :
  no_assertion_fails (fun e => ~ not_found e)
    (run_node (batch_config "node" (a_key 1)) (test_batch_write (blk 1) (blk 2) (blk 3) (blk 4) ("nope!" : @StoreErr _ _ lru_store)) no_fs).
Proof.
  apply (lib_tests_hold (ML := lru_memory) no_fs false "node" (a_key 1) any_address listener (Some (LeNewListenAddr any_address)) (blk 9)
    (blk 1) (blk 2) (blk 3) (blk 4) ("nope!" : @StoreErr _ _ lru_store)).
  - by eexists.
  - apply (bool_decide_unpack _). vm_compute. exact I.
  - intros u. reflexivity.
Defined.

(** A provider that delivers all it has. *)
Definition give (T : gmap N (list N)) (s : @StorageService sim sim_protocols lru_store) :
    @StorageService sim sim_protocols lru_store * @awaited sim sim_protocols :=
  let m := store s in
  (with_store s (mkLru (entries m ++ map_to_list T) (lru_aliases m) (lru_target m) (lru_held m)), QueryEnded (BitswapId (bid 9)) (Ok tt)).

Lemma give_delivers T root : delivers (PL := lru_pin_laws) (give T) T root.
Proof.
  intros s s' id [= <- _] Ha. cbn -[lru_blocks].
  assert (E : lru_blocks (mkLru (entries (store s) ++ map_to_list T) (lru_aliases (store s))
    (lru_target (store s)) (lru_held (store s))) = lru_blocks (store s) ∪ T).
  { unfold lru_blocks. cbn. by rewrite list_to_map_app, list_to_map_to_list. }
  unfold blocks. cbn -[lru_blocks]. rewrite E. split_and!; [done|done|apply map_union_subseteq_l|].
  intros c d _ Hd. apply lookup_union_Some_raw. destruct (lru_blocks (store s) !! c) as [d'|] eqn:Ec; [left|by right].
  f_equal. rewrite map_agree_spec in Ha. symmetry. by apply (Ha c).
Qed.

Lemma lru_tells_missing : tells_missing (SL := lru_store_laws).
Proof.
  intros s root Hr. cbn -[lru_blocks] in Hr. unfold db_missing_blocks, rw, rw_mut. cbn -[lru_blocks].
  set (X := filter (fun y => lru_blocks (store s) !! y = None) (reach (lru_blocks (store s)) root)).
  assert (Hx : root ∈ elements X).
  { apply elem_of_elements. unfold X. apply elem_of_filter. split; [done|]. apply reach_path. constructor. }
  destruct (elements X) as [|c l]; [by apply not_elem_of_nil in Hx|]. by eexists _, c, l.
Qed.

(** The book of a node that listens. *)
Definition listening (self : @PeerId sim) : @AddressBook utc_nanos sim sim_channels :=
  new_listen_addr (new self false false false) (1 : @ListenerId sim) any_address.

Lemma sync_test_holds_witness :
  no_assertion_fails (fun e => ~ not_found e)
    (run_two (create_store_config false "one" (a_key 1)) (create_store_config false "two" (a_key 2)) any_address listener
      (Some (LeNewListenAddr any_address)) (Some (LeNewListenAddr any_address))
      (test_sync (blk 1) (blk 4) (blk 6) (blk 5) (blk 7) x1 1%N 2%N (listening 1%N) (listening 2%N) 3 4
        (give (tree2 (blk 1) (blk 5) (blk 7))) (give (tree1 (blk 1) (blk 4) (blk 6)))) no_fs).
Proof.
  apply (sync_test_holds (ML := lru_memory) no_fs "one" "two" (a_key 1) (a_key 2) any_address listener
    (Some (LeNewListenAddr any_address)) (Some (LeNewListenAddr any_address))
    (blk 1) (blk 4) (blk 6) (blk 5) (blk 7) x1 1%N 2%N (listening 1%N) (listening 2%N) 3 4); try reflexivity.
  - apply (bool_decide_unpack _). vm_compute. exact I.
  - exists any_address. split; [reflexivity|]. apply (bool_decide_unpack _). vm_compute. exact I.
  - exists any_address. split; [reflexivity|]. apply (bool_decide_unpack _). vm_compute. exact I.
  - apply lru_tells_missing.
  - apply give_delivers.
  - apply give_delivers.
Defined.

(** test_bitswap_sync_chain and test_bitswap_sync_tree set the alias and insert the blocks
    of a tree from the leaves to the root, while the collector runs: a store that is
    full may lose a leaf before its parent is there, though every call succeeds. *)
Definition bottom_up : @StorageService sim sim_protocols lru_store :=
  let st := (db_alias (mkStorage (mkLru [] ∅ 0 ∅) U64_MAX ZERO ∅) x1 (Some (2%N : @Cid sim sim_protocols))).1 in
  let st := gc_round (db_insert st (blk 1).1 (blk 1).2).1 in
  gc_round (db_insert st (blk 2).1 (blk 2).2).1.

Example bottom_up_loses_leaf :
  v_aliases (view (store bottom_up)) !! x1 = Some (2%N : @Cid sim sim_protocols) /\
  (blk 1).1 ∈ data_links (blk 2).2 /\ blocks (store bottom_up) !! (blk 1).1 = None.
Proof. vm_compute. split_and!; [done|by left|done]. Qed.
End TestWitness.
