(* ===== verification/BookTests.v ===== *)
(** * The tests of the address book (src/net/tests.rs)

    [test_dial_basic], [from_docker_host] and [from_docker_container] drive one address
    book through dials, failures, connections and identify messages and compare, after
    each step, the events it sent, the dials it asked for and the addresses it holds.
    The three functions below are these tests, on any libp2p; at the end they are run on
    one whose texts are those the tests expect.  All assertions hold. *)
From stdpp Require Import sorting pretty.
From S2P Require Import Prelude Time Libp2p PeerInfo AddressHandler Peers Protocols Db Pins Cache StoreTests.

#[export] Instance ConnectedPoint_eq_dec {A R} `{EqDecision A} `{EqDecision R} : EqDecision (ConnectedPoint A R).
Proof. solve_decision. Defined.

Section BookTests.
Context `{P : Profile} `{C : Chrono} `{L : Libp2p} `{Ch : Channels} `{HO : HashOrder}.
Context `{ED : EqDecision Endpoint}.

#[export] Instance Event_eq_dec : EqDecision Event.t.
Proof. solve_decision. Defined.

(** [Ord] of addresses, and the [io::Error::new(ErrorKind::Other, ..)] of the tests. *)
Context (addr_le : Multiaddr -> Multiaddr -> Prop) `{addr_le_dec : !RelDecision addr_le}.
Context (other_error : string -> IoError).

(** The clock and the generator; their values do not matter to the tests. *)
Context (clk : nat -> DateTime) (rnd : nat -> Z).

(** A book and how many events were taken from its stream. *)
Abbreviation bt := (test (AddressBook * nat) string).

Definition op (f : AddressBook -> outcome AddressBook) : bt unit := fun '(book, n) =>
  match f book with
  | Done book => ((book, n), Ok tt)
  | Panic w => ((book, n), Err (Unwrapped w))
  end.

Definition sent (book : AddressBook) : list Event.t := event_stream book ≫= queued.

(** [Events::next]. *)
Definition next : bt (list Event.t) := fun '(book, n) => ((book, length (sent book)), Ok (drop n (sent book))).

Definition assert_eq {A} `{EqDecision A} (x y : A) : bt unit := assert (bool_decide (x = y)).

(** [book.info(&peer).unwrap()]. *)
Definition info (peer : PeerId) : bt PeerInfo := fun '(book, n) =>
  ((book, n), match peers book !! peer with Some i => Ok i | None => Err (Unwrapped "info") end).

Definition pair_le (x y : Multiaddr * AddressSource) : Prop :=
  x.1 <> y.1 /\ addr_le x.1 y.1 \/ x.1 = y.1 /\ source_rank x.2 <= source_rank y.2.
#[local] Instance pair_le_dec : RelDecision pair_le.
Proof. intros x y. unfold pair_le. apply _. Defined.

Definition addrs (peer : PeerId) : bt (list (Multiaddr * AddressSource)) :=
  i ← info peer;
  mret (merge_sort pair_le ((fun '(a, (s, _)) => (a, s)) <$> map_iter (addresses i))).

Inductive Dial := DialA (a : Multiaddr) | DialP (p : PeerId) (l : list Multiaddr).
#[export] Instance Dial_eq_dec : EqDecision Dial.
Proof. solve_decision. Defined.

(** The addresses of the peer would be added to a dial by peer, with a method of the book
    that is commented out; no test expects such a dial. *)
Definition dial_of (a : ToSwarm) : Dial :=
  match own (handler a), keep (handler a) with
  | Some (address, _), false => DialA address
  | _, _ => DialP (opts_peer (opts a)) []
  end.

(** Dials of addresses come first; among those of peers the order is left open. *)
Definition dial_le (x y : Dial) : Prop :=
  match x, y with
  | DialA a, DialA b => addr_le a b
  | DialP _ _, DialA _ => False
  | _, _ => True
  end.
#[local] Instance dial_le_dec : RelDecision dial_le.
Proof. intros [a|p l] [b|q m]; cbn; apply _. Defined.

Definition dials : bt (list Dial) := fun '(book, n) =>
  ((with_actions book [], n), Ok (merge_sort dial_le (dial_of <$> actions book))).

(** [book.peers()]. *)
Definition known_peers : bt (list PeerId) := fun '(book, n) => ((book, n), Ok (map_iter (peers book)).*1).

(** [assert_eq!(f, expected)] for what is read of the book. *)
Definition check {A} `{EqDecision A} (m : bt A) (expected : A) : bt unit := x ← m; assert_eq x expected.

Definition own_dial_failed (addr : Multiaddr) (retries : Z) (peer : PeerId) (error : string) : bt unit :=
  op (fun book => dial_failure clk rnd book (mkIntoAddressHandler (Some (addr, retries)) false) (Some peer)
    (ConnectionIo (other_error error))).

(** The addresses of the tests, bare and with the peer. *)
Definition with_p2p (a : Multiaddr) (peer : PeerId) : Multiaddr := push a (P2p (peer_to_multihash peer)).

Definition quote : string := String (Ascii.ascii_of_nat 34) EmptyString.
Definition custom (error : string) : string := "Custom { kind: Other, error: " +:+ quote +:+ error +:+ quote +:+ " }".
Definition dial_error_text (error : string) : string :=
  "Dial error: An I/O error occurred on the connection: " +:+ custom error +:+ ".".

Definition test_dial_basic (peer_a : PeerId) (addr_1 addr_2 : Multiaddr) : bt unit :=
  let addr_1p := with_p2p addr_1 peer_a in
  let addr_2p := with_p2p addr_2 peer_a in
  op (fun book => add_address (clk 0) book peer_a addr_1 PeerInfo.Mdns) ;;
  check next [Event.NewInfo peer_a] ;;
  check dials [DialA addr_1p] ;;
  op (fun book => add_address (clk 1) book peer_a addr_1p User) ;;
  check next [Event.Discovered peer_a; Event.NewInfo peer_a] ;;
  op (fun book => add_address (clk 2) book peer_a addr_2 Incoming) ;;
  check next [Event.NewInfo peer_a] ;;
  check known_peers [peer_a] ;;
  own_dial_failed addr_1 3 peer_a "my error" ;;
  check next [Event.DialFailure peer_a addr_1 (dial_error_text "my error"); Event.NewInfo peer_a] ;;
  op (fun book => dial_failure clk rnd book (mkIntoAddressHandler None false) (Some peer_a)
    (DialTransport [(addr_2, TransportOther (other_error "my other error"))])) ;;
  check next [Event.DialFailure peer_a addr_2 ("Other(" +:+ custom "my other error" +:+ ")");
    Event.Unreachable peer_a; Event.NewInfo peer_a] ;;
  check (l ← known_peers; mret (head l)) (Some peer_a) ;;
  check (i ← info peer_a; mret ((fun f => (kind f, failure_addr f, display f)) <$> head (failures i)))
    (Some (DialErrorKind, addr_2, "transport error: my other error")) ;;
  check dials [] ;;
  check (addrs peer_a) [(addr_1p, User); (addr_2p, Incoming)] ;;
  op (fun book => Done (remove_address book peer_a addr_1p)) ;;
  op (fun book => Done (remove_address book peer_a addr_2p)) ;;
  check (addrs peer_a) [] ;;
  op (fun book => add_address (clk 3) book peer_a addr_2 PeerInfo.Kad) ;;
  check (addrs peer_a) [(addr_2p, PeerInfo.Kad)] ;;
  check next [Event.NewInfo peer_a] ;;
  op (fun book => add_address (clk 4) book peer_a addr_2 User) ;;
  check (addrs peer_a) [(addr_2p, User)] ;;
  check next [Event.Discovered peer_a; Event.NewInfo peer_a].

(** The parts that the other two tests share: [peer_b] connects from a port of its own,
    and identifies itself with the addresses [listen]. *)
Definition connects (peer_b : PeerId) (addr_a_1p addr_b_1p : Multiaddr) : bt unit :=
  let cp := Listener addr_a_1p addr_b_1p in
  op (fun book => on_swarm_event clk rnd book (FromSwarm.ConnectionEstablished peer_b cp 0)) ;;
  check next [Event.NewInfo peer_b; Event.Connected peer_b; Event.ConnectionEstablished peer_b cp] ;;
  check dials [] ;;
  check (addrs peer_b) [(addr_b_1p, Incoming)].

Definition identifies (peer_b : PeerId) (listen : list Multiaddr) : bt unit :=
  op (fun book => set_info (fun _ _ => clk 0) book peer_b
    (mkIdentifyInfo "my protocol" "my agent" listen ["my proto"])) ;;
  check next [Event.NewInfo peer_b].

Definition dialled (peer_b : PeerId) (addr_b_2p : Multiaddr) (role : Endpoint)
    (known : list (Multiaddr * AddressSource)) : bt unit :=
  let cp2 := Dialer addr_b_2p role in
  op (fun book => on_swarm_event clk rnd book (FromSwarm.ConnectionEstablished peer_b cp2 0)) ;;
  check next [Event.Discovered peer_b; Event.NewInfo peer_b; Event.Connected peer_b;
    Event.ConnectionEstablished peer_b cp2] ;;
  check dials [] ;;
  check (addrs peer_b) known.

Definition fails_again (peer_b : PeerId) (addr : Multiaddr) (error : string)
    (known : list (Multiaddr * AddressSource)) : bt unit :=
  own_dial_failed addr 3 peer_b error ;;
  check next [Event.DialFailure peer_b addr (dial_error_text error); Event.NewInfo peer_b] ;;
  check dials [] ;;
  check (addrs peer_b) known.

Definition from_docker_host (peer_a peer_b : PeerId) (role : Endpoint)
    (addr_a_1 addr_b_1 addr_b_2 addr_b_3 addr_b_4 : Multiaddr) : bt unit :=
  let addr_b_2p := with_p2p addr_b_2 peer_b in
  let addr_b_3p := with_p2p addr_b_3 peer_b in
  connects peer_b (with_p2p addr_a_1 peer_a) (with_p2p addr_b_1 peer_b) ;;
  identifies peer_b [addr_b_2; addr_b_3; addr_b_4] ;;
  check dials [DialA addr_b_2p; DialA addr_b_3p] ;;
  check (addrs peer_b) [(addr_b_2p, Listen); (addr_b_3p, Listen)] ;;
  dialled peer_b addr_b_2p role [(addr_b_2p, PeerInfo.Dial); (addr_b_3p, Listen)] ;;
  fails_again peer_b addr_b_3p "didn’t work, mate!" [(addr_b_2p, PeerInfo.Dial)].

Definition from_docker_container (peer_a peer_b : PeerId) (role : Endpoint)
    (addr_a_1 addr_b_1 addr_b_2 addr_b_3 addr_b_4 : Multiaddr) : bt unit :=
  let addr_b_2p := with_p2p addr_b_2 peer_b in
  let addr_b_3p := with_p2p addr_b_3 peer_b in
  connects peer_b (with_p2p addr_a_1 peer_a) (with_p2p addr_b_1 peer_b) ;;
  identifies peer_b [addr_b_3; addr_b_4] ;;
  check dials [DialA addr_b_2p; DialA addr_b_3p] ;;
  check (addrs peer_b) [(addr_b_2p, Listen); (addr_b_3p, Listen)] ;;
  identifies peer_b [addr_b_2; addr_b_3; addr_b_4] ;;
  check dials [] ;;
  check (addrs peer_b) [(addr_b_2p, Listen); (addr_b_3p, Listen)] ;;
  fails_again peer_b addr_b_3p "play it again, Sam" [(addr_b_2p, Listen)] ;;
  dialled peer_b addr_b_2p role [(addr_b_2p, PeerInfo.Dial)] ;;
  fails_again peer_b addr_b_2p "play it yet another time, Sam" [(addr_b_2p, PeerInfo.Dial)] ;;
  check (i ← info peer_b; mret ((fun f => (multiaddr_display (failure_addr f), display f, debug f)) <$> failures i))
    [("/ip4/10.0.0.10/tcp/4001", "I/O error: play it yet another time, Sam",
      "ConnectionIo(" +:+ custom "play it yet another time, Sam" +:+ ")");
     ("/ip4/172.17.0.3/tcp/4001", "I/O error: play it again, Sam",
      "ConnectionIo(" +:+ custom "play it again, Sam" +:+ ")")].
End BookTests.

(** ** The tests on a libp2p with the texts they expect *)
Module SimBooks.
Import Sim.
Local Open Scope string_scope.

Definition octet (a k : Z) : string := pretty (Z.land (Z.shiftr a k) 255).
Definition proto_text (p : Proto) : string :=
  match p with
  | Ip4 a => "/ip4/" +:+ octet a 24 +:+ "." +:+ octet a 16 +:+ "." +:+ octet a 8 +:+ "." +:+ octet a 0
  | Ip6 a => "/ip6/" +:+ pretty a
  | Tcp p => "/tcp/" +:+ pretty p
  | P2p h => "/p2p/" +:+ pretty h
  | OtherProtocol o => "/" +:+ pretty o
  end.

Definition io_text (e : io) : string := match e with IoText t => t | _ => "io" end.
Definition io_debug (e : io) : string := custom (io_text e).

#[export] Instance texts : Libp2p | 90 := {|
  PeerId := N;
  Multihash := N;
  RestProtocol := N;
  Multiaddr := list Proto;
  ListenerId := nat;
  Endpoint := unit;
  IoError := io;
  PnetError := unit;
  ProtocolError := string;
  AddressRecord := list Proto;
  Keypair := N;
  PublicKey := N;
  keypair_public := fun k => k;
  public_to_peer := fun k => k;
  iter := fun a => a;
  push := fun a p => (a ++ [p])%list;
  pop := fun a => take (length a - 1) a;
  replace := sim_replace;
  peer_to_multihash := fun p => p;
  multihash_to_peer := Some;
  get_remote_address := sim_remote;
  is_dialer := sim_is_dialer;
  io_kind := sim_kind;
  io_dns := sim_dns;
  io_transport := sim_transport;
  io_display := io_text;
  multiaddr_display := fun a => foldr (fun p s => proto_text p +:+ s) EmptyString a;
  protocol_error_display := fun s => s;
  dial_error_display := fun e =>
    match e with
    | ConnectionIo e => "Dial error: An I/O error occurred on the connection: " +:+ io_debug e +:+ "."
    | _ => "Dial error"
    end;
  dial_error_debug := fun e => match e with ConnectionIo e => "ConnectionIo(" +:+ io_debug e +:+ ")" | _ => "DialError" end;
  transport_error_display := fun e => match e with TransportOther _ => EmptyString | MultiaddrNotSupported _ => "not supported" end;
  transport_error_source := fun e => match e with TransportOther e => Some (io_text e) | MultiaddrNotSupported _ => None end;
  transport_error_debug := fun e => match e with TransportOther e => "Other(" +:+ io_debug e +:+ ")" | MultiaddrNotSupported _ => "MultiaddrNotSupported" end;
  connection_error_debug := fun _ => "ConnectionError"
|}.

#[export] Instance texts_laws : Libp2pLaws (L := texts).
Proof.
  split; [by intros ?? | done | done | | done..].
  intros a i p Hi. cbn in *. unfold sim_replace. rewrite decide_True by done. eauto.
Qed.

(** The order of addresses: that of their binary form, protocol codes first. *)
Definition proto_key (p : Proto) : list Z :=
  match p with
  | Ip4 a => [4; a] | Tcp p => [6; p] | Ip6 a => [41; a] | P2p h => [421; Z.of_N h] | OtherProtocol o => [500; Z.of_N o]
  end%Z.
Fixpoint keys_le (l m : list Z) : bool :=
  match l, m with
  | [], _ => true
  | _ :: _, [] => false
  | x :: l, y :: m => (x <? y)%Z || ((x =? y)%Z && keys_le l m)
  end.
Definition le (a b : @Multiaddr texts) : Prop := keys_le (a ≫= proto_key) (b ≫= proto_key) = true.
#[export] Instance le_dec : RelDecision le.
Proof. intros a b. unfold le. apply _. Defined.

Definition ip (a b c d : Z) : Z := (((a * 256 + b) * 256 + c) * 256 + d)%Z.
Definition peer_a : @PeerId texts := 1%N.
Definition peer_b : @PeerId texts := 2%N.
Definition at_ (i p : Z) : @Multiaddr texts := [Ip4 i; Tcp p].
Definition clock (n : nat) : @DateTime utc_nanos := Z.of_nat n.
Definition zeros (n : nat) : Z := 0%Z.

Definition fresh_book (p : @PeerId texts) : @AddressBook utc_nanos texts sim_channels * nat :=
  (swarm_events (new p false false false) (mkChan true []), 0).

Definition run_dial_basic :=
  (test_dial_basic (L := texts) le IoText clock zeros peer_a (at_ (ip 1 1 1 1) 3333) (at_ (ip 2 2 2 2) 3333) (fresh_book 9%N)).2.
Definition run_docker_host :=
  (from_docker_host (L := texts) le IoText clock zeros peer_a peer_b tt (at_ (ip 10 0 0 2) 4001) (at_ (ip 10 0 0 10) 57634)
    (at_ (ip 10 0 0 10) 4001) (at_ (ip 172 17 0 3) 4001) (at_ (ip 127 0 0 1) 4001) (fresh_book peer_a)).2.
Definition run_docker_container :=
  (from_docker_container (L := texts) le IoText clock zeros peer_a peer_b tt (at_ (ip 10 0 0 2) 4001) (at_ (ip 10 0 0 10) 57634)
    (at_ (ip 10 0 0 10) 4001) (at_ (ip 172 17 0 3) 4001) (at_ (ip 127 0 0 1) 4001) (fresh_book peer_a)).2.
End SimBooks.

(** The three tests pass. *)
Theorem book_tests_pass :
  SimBooks.run_dial_basic = Ok tt /\ SimBooks.run_docker_host = Ok tt /\ SimBooks.run_docker_container = Ok tt.
Proof.
  assert (H : forall r : result unit (failure string), is_ok r = true -> r = Ok tt) by (by intros [[]|]).
  split_and!; apply H; vm_compute; reflexivity.
Qed.
