(* ===== verification/Caller.v ===== *)
(** * A caller beside the network task

    A caller of the node (src/lib.rs) sends one command over the bounded channel, gets
    the handle of a bitswap query from the network task, and waits for its end.  The
    class [Caller] is such a future, whatever it does with the query; [CallerLaws] is
    how it behaves between its polls.  [sys_step] is a step of any part of the node:
    the caller, the task, the swarm, other callers, and whoever uses the store.

    Shown for every caller: it is never forgotten, its command waits for the commands
    before it only, it gets the completion of its own query, and it can always
    finish. *)
From S2P Require Import Prelude Time Libp2p PeerInfo AddressHandler Peers PeersInv PeersProps.
From S2P Require Import Protocols Behaviour Net Service NetInv NetProps NetAnswers Growth Config Db Ipfs.

(** Where a caller stands. *)
Inductive stage `{Pr : Protocols} := Unasked | Asked | Holds (id : QueryId) (rx : Tx) | Over.

Section Callers.
Context `{P : Profile} `{C : Chrono} `{L : Libp2p} `{Ch : Channels} `{HO : HashOrder}.
Context `{Pr : !Protocols} `{Sw : !SwarmOps} `{CC : !CommandChannel} `{BS : !BlockStores}.
Context `{BI : !BitswapIds}.

(** [own_tx] is the one-shot channel of its command, [own] the commands it may send,
    [query_in] the query handle in an answer, [channel_of] the channel that is registered
    for its query, and [completion] how the end of the query arrives on it. *)
Class Caller (Client : Type) := {
  stage_of : Client -> stage;
  poll_client : Ipfs -> Net -> Client -> Ipfs * Client;
  own_tx : Tx;
  own : NetworkCommand -> Prop;
  query_in : net_reply -> option (QueryId * Tx);
  channel_of : Tx -> QueryChannel;
  completion : Tx -> result unit AnyError -> delivery
}.

(** [rx.await] on the channel of the command. *)
Definition made (tx : Tx) (f : net_reply -> option (QueryId * Tx)) (x : Tx * net_reply) :
    option (QueryId * Tx) := if decide (x.1 = tx) then f x.2 else None.
Definition reply_on (tx : Tx) (f : net_reply -> option (QueryId * Tx)) (n : Net) : option (QueryId * Tx) :=
  head (omap (made tx f) (net_replies n)).

Definition own_reply `{CA : Caller Client} (n : Net) : option (QueryId * Tx) := reply_on own_tx query_in n.

Class CallerLaws `{CA : Caller Client} : Prop := {
  own_cmd_tx m : own m -> cmd_tx m = Some own_tx;
  completion_closes rx r : closes (completion rx r) = Some rx;
  channel_tx rx : tx_of (channel_of rx) = rx;
  own_completed b id rx r :
    queries b !! BitswapId id = Some (channel_of rx) ->
    outbox (inject_bitswap_event b (BitswapComplete id r)) = outbox b ++ [completion rx r];
  own_handled f n m n' :
    own m -> handle_command f n m ↓ n' ->
    exists id r, net_replies n' = net_replies n ++ [(own_tx, r)] /\
      query_in r = Some (BitswapId id, query_tx f) /\
      ~ issued (backend n) id /\ issued (backend n') id /\
      queries (backend n') !! BitswapId id = Some (channel_of (query_tx f));
  poll_cases st n c st' c' :
    poll_client st n c = (st', c') -> exists l,
      cmd_queue (svc_cmd (network st')) = cmd_queue (svc_cmd (network st)) ++ l /\
      match stage_of c, stage_of c' with
      | Unasked, Over => l = []
      | Unasked, Asked => exists m, own m /\ l = [m]
      | Asked, Asked => l = [] /\ own_reply n = None
      | Asked, Holds id rx => l = [] /\ own_reply n = Some (id, rx)
      | Holds id rx, Holds id' rx' => l = [] /\ id' = id /\ rx' = rx
      | Holds id _, Over => l = [] \/ l = [CancelQuery id]
      | Over, Over => l = []
      | _, _ => False
      end;
  poll_completed st n c id rx r :
    stage_of c = Holds id rx -> NoDup (ledger (backend n)) -> completion rx r ∈ outbox (backend n) ->
    stage_of (poll_client st n c).2 = Over
}.

(** ** The system *)
Context `{CA : Caller Client}.
Context `{CR : !CommandReceiver}.
Variable B : Z.

(** [names] are the one-shot channels made so far. *)
Record System := mkSystem {
  node : Ipfs;
  net : Net;
  names : gset Tx;
  client : Client
}.

Definition with_queue (st : Ipfs) (c : CmdTx) : Ipfs := with_network st (with_cmd (network st) c).
Definition commands (s : System) : CmdTx := svc_cmd (network (node s)).
Definition queue (s : System) : list NetworkCommand := cmd_queue (commands s).
Definition with_net (s : System) (n : Net) : System := mkSystem (node s) n (names s) (client s).

(** The query that was made for this caller. *)
Definition owns (n : Net) (id : BitswapQueryId) : Prop :=
  exists r rx, (own_tx, r) ∈ net_replies n /\ query_in r = Some (BitswapId id, rx).

(** Other callers send on channels of their own, and cancel queries that are theirs. *)
Definition other_ok (s : System) (m : NetworkCommand) : Prop :=
  (forall t, cmd_tx m = Some t -> t ∉ names s) /\
  (forall id, m = CancelQuery (BitswapId id) -> issued (backend (net s)) id /\ ~ owns (net s) id).

(** What can be seen of a step: the task takes a command, or handles an event of the
    swarm. *)
Inductive label := Takes | Handles (ev : SwarmEvent) | Silent.
Definition takes (l : label) : bool := match l with Takes => true | _ => false end.

Inductive sys_step : label -> System -> System -> Prop :=
| step_poll s st c :
    poll_client (node s) (net s) (client s) = (st, c) ->
    sys_step Silent s (mkSystem st (net s) (names s) c)
| step_serve s f m q n :
    cmd_next (commands s) = Some (m, q) -> query_tx f ∉ names s ->
    poll_swarm_step f (net s) (InCommand (Some m)) ↓ Continue n ->
    sys_step Takes s (mkSystem (with_queue (node s) q) n ({[query_tx f]} ∪ names s) (client s))
| step_event s f ev n :
    input_ok B (backend (net s)) (InSwarm (Some ev)) ->
    poll_swarm_step f (net s) (InSwarm (Some ev)) ↓ Continue n -> sys_step (Handles ev) s (with_net s n)
| step_book s op b :
    admissible B (book (backend (net s))) op -> exec op (book (backend (net s))) ↓ b ->
    sys_step Silent s (with_net s (with_backend (net s) (with_book (backend (net s)) b)))
| step_protocols s k bs g bc :
    (is_Some bs <-> is_Some (bitswap (backend (net s)))) ->
    (forall x y id, bs = Some x -> bitswap (backend (net s)) = Some y ->
       (handed_out x id <-> handed_out y id)) ->
    sys_step Silent s (with_net s (with_backend (net s) (protocols_moved (backend (net s)) k bs g bc)))
| step_other s m q r :
    other_ok s m -> try_send (commands s) m = (q, r) ->
    sys_step Silent s (mkSystem (with_queue (node s) q) (net s) (option_to_set (cmd_tx m) ∪ names s) (client s))
| step_storage s x :
    sys_step Silent s (mkSystem (with_storage (node s) x) (net s) (names s) (client s)).

(** Runs, with the number of commands the task takes. *)
Inductive sys_run : nat -> System -> System -> Prop :=
| run_refl s : sys_run 0 s s
| run_step l k s s1 s2 :
    sys_step l s s1 -> sys_run k s1 s2 -> sys_run (if takes l then S k else k) s s2.

(** The same with everything that can be seen of the steps, the last one at the end. *)
Inductive sys_trace : list label -> System -> System -> Prop :=
| trace_refl s : sys_trace [] s s
| trace_snoc ls l s s1 s2 :
    sys_trace ls s s1 -> sys_step l s1 s2 -> sys_trace (ls ++ [l]) s s2.

(** A node that was just started, with bitswap. *)
Definition just_started (s : System) : Prop :=
  (exists local pr el ka k bs g bc sw, net s = net_init (new local pr el ka) k (Some bs) g bc sw) /\
  queue s = [] /\ names s = {[own_tx]} /\ stage_of (client s) = Unasked.

(** ** The invariant *)

Definition pending_txs (s : System) : list Tx := omap cmd_tx (queue s) ++ ledger (backend (net s)).
Definition unanswered (n : Net) : Prop := forall r, (own_tx, r) ∉ net_replies n.

(** The query of the caller is registered with its channel, or its completion was sent. *)
Definition tracked (s : System) (id : BitswapQueryId) (rx : Tx) : Prop :=
  own_reply (net s) = Some (BitswapId id, rx) /\
  issued (backend (net s)) id /\ (CancelQuery (BitswapId id) ∉ queue s) /\
  (queries (backend (net s)) !! BitswapId id = Some (channel_of rx) \/
   exists r, completion rx r ∈ outbox (backend (net s))).

(** A command of the caller is in the queue, after the commands [q]. *)
Definition queued (s : System) (q : list NetworkCommand) : Prop :=
  unanswered (net s) /\ exists m q2, own m /\ queue s = q ++ m :: q2.

Definition client_ok (s : System) : Prop :=
  match stage_of (client s) with
  | Unasked => unanswered (net s) /\ own_tx ∉ pending_txs s
  | Asked => (exists q, queued s q) \/ exists id rx, tracked s id rx
  | Holds id rx => exists j, id = BitswapId j /\ tracked s j rx
  | Over => True
  end.

Record sys_ok (s : System) : Prop := {
  ok_wf : backend_wf B (backend (net s));
  ok_bitswap : is_Some (bitswap (backend (net s)));
  ok_txs : NoDup (pending_txs s);
  ok_names t : t ∈ own_tx :: pending_txs s -> t ∈ names s;
  ok_cancels id : CancelQuery (BitswapId id) ∈ queue s -> issued (backend (net s)) id;
  ok_client : client_ok s
}.

Context {CAL : CallerLaws}.
Context {CCL : CommandChannelLaws} {CRL : CommandReceiverLaws} {LL : Libp2pLaws} {HL : HashOrderLaws}.

Lemma ok_ledger s : sys_ok s -> NoDup (ledger (backend (net s))).
Proof. intros H. by destruct (proj1 (NoDup_app _ _) (ok_txs _ H)) as (_ & _ & ?). Qed.

(** *** Answers stay *)

Lemma head_omap_app {A A'} (f : A -> option A') l l' x :
  head (omap f l) = Some x -> head (omap f (l ++ l')) = Some x.
Proof. rewrite omap_app. by destruct (omap f l). Qed.

Lemma own_reply_stays n n' l x :
  net_replies n' = net_replies n ++ l -> own_reply n = Some x -> own_reply n' = Some x.
Proof. intros E. unfold own_reply, reply_on. rewrite E. apply head_omap_app. Qed.

Lemma own_reply_owns n id rx : own_reply n = Some (BitswapId id, rx) -> owns n id.
Proof.
  unfold own_reply, reply_on. intros H%head_Some_elem_of. apply list_elem_of_omap in H as ([t r] & Hin & Hr).
  unfold made in Hr. cbn in Hr. case_decide; [|done]. subst t. by exists r, rx.
Qed.

Lemma unanswered_made n : unanswered n -> omap (made own_tx query_in) (net_replies n) = [].
Proof.
  intros Hu. apply elem_of_nil_inv. intros x ([t r] & Hin & Hx)%list_elem_of_omap.
  unfold made in Hx. cbn in Hx. case_decide; [|done]. subst t. by eapply Hu.
Qed.

Lemma unanswered_none n : unanswered n -> own_reply n = None.
Proof. intros Hu. unfold own_reply, reply_on. by rewrite unanswered_made. Qed.

Lemma unanswered_reply n n' r x :
  unanswered n -> net_replies n' = net_replies n ++ [(own_tx, r)] -> query_in r = Some x ->
  own_reply n' = Some x.
Proof.
  intros Hu E Hr. unfold own_reply, reply_on. rewrite E, omap_app, unanswered_made by done. cbn.
  unfold made. cbn. rewrite decide_True by done. by rewrite Hr.
Qed.

(** The completion of the query is what is sent on its channel. *)
Lemma completion_sent f n id rx r n' :
  queries (backend n) !! BitswapId id = Some (channel_of rx) ->
  poll_swarm_step f n (InSwarm (Some (SeBitswap (BitswapComplete id r)))) ↓ Continue n' ->
  completion rx r ∈ outbox (backend n').
Proof.
  intros Hq E. assert (n' = with_backend n (inject_bitswap_event (backend n) (BitswapComplete id r))) as ->
    by (by injection E). cbn [backend with_backend].
  rewrite (own_completed _ _ _ _ Hq). set_solver.
Qed.

(** Nothing was sent on the channel of a query that is still registered. *)
Lemma registered_open n id rx :
  NoDup (ledger (backend n)) -> queries (backend n) !! id = Some (channel_of rx) ->
  rx ∉ omap closes (outbox (backend n)).
Proof.
  intros Hnd Hq Hin. unfold ledger in Hnd. apply NoDup_app in Hnd as (_ & Hnd & _). apply (Hnd rx); [|done].
  unfold live. apply list_elem_of_fmap. exists (channel_of rx). split; [by rewrite channel_tx|].
  apply list_elem_of_fmap. exists (id, channel_of rx). split; [done|]. by apply elem_of_map_to_list.
Qed.

Lemma tracked_mono s s' id rx l :
  tracked s id rx -> net_replies (net s') = net_replies (net s) ++ l ->
  advances (backend (net s)) (backend (net s')) -> CancelQuery (BitswapId id) ∉ queue s' ->
  (queries (backend (net s)) !! BitswapId id = Some (channel_of rx) ->
   keeps (BitswapId id) (backend (net s)) (backend (net s')) \/
   exists r, completion rx r ∈ outbox (backend (net s'))) ->
  tracked s' id rx.
Proof.
  intros (Hr & Hi & _ & Ht) El [[l' Ho] _ Ha] Hc Hk. split_and!; [by eapply own_reply_stays|by apply Ha|done|].
  destruct Ht as [Ht|[r Ht]].
  - destruct (Hk Ht) as [Hk'|Hk']; [left|by right]. unfold keeps in Hk'. by rewrite Hk'.
  - right. exists r. rewrite Ho. set_solver.
Qed.

(** *** The invariant is kept *)

Lemma started_ok s : just_started s -> sys_ok s.
Proof.
  intros ((local & pr & el & ka & k & bs & g & bc & sw & En) & Eq & Em & Ec).
  assert (Hp : pending_txs s = []).
  { unfold pending_txs, ledger, live. rewrite Eq, En. cbn. by rewrite map_to_list_empty. }
  split; rewrite ?Hp, ?Eq, ?Em, ?En; cbn.
  - split; cbn; [apply book_new_wf|apply map_Forall_empty..].
  - by eexists.
  - constructor.
  - intros t Ht%list_elem_of_singleton. set_solver.
  - intros id Hid. by apply elem_of_nil in Hid.
  - unfold client_ok. rewrite Ec, Hp. split; [|apply not_elem_of_nil].
    intros r. rewrite En. apply not_elem_of_nil.
Qed.

(** Steps that leave the queue and the answered commands as they are. *)
Lemma net_step_ok s s' :
  sys_ok s -> queue s' = queue s -> names s' = names s -> client s' = client s ->
  net_replies (net s') = net_replies (net s) -> backend_wf B (backend (net s')) ->
  advances (backend (net s)) (backend (net s')) ->
  ledger (backend (net s')) ≡ₚ ledger (backend (net s)) ->
  (forall id rx, queries (backend (net s)) !! BitswapId id = Some (channel_of rx) ->
     keeps (BitswapId id) (backend (net s)) (backend (net s')) \/
     exists r, completion rx r ∈ outbox (backend (net s'))) ->
  sys_ok s'.
Proof.
  intros [Hw Hb Ht Hn Hc Hcl] Eq Em Ec Er Hw' Ha El Hk.
  assert (Ep : pending_txs s' ≡ₚ pending_txs s) by (unfold pending_txs; by rewrite Eq, El).
  assert (Htr : forall id rx, tracked s id rx -> tracked s' id rx).
  { intros id rx Hi. eapply (tracked_mono s s' id rx []); [done|by rewrite app_nil_r|done| |apply Hk].
    rewrite Eq. apply Hi. }
  split; rewrite ?Ep, ?Eq, ?Em; try done.
  - by eapply adv_bitswap.
  - intros t. rewrite Ep. apply Hn.
  - intros id Hid. by eapply adv_issued, Hc.
  - unfold client_ok, queued, unanswered in *. rewrite Ec, Eq, Er.
    destruct (stage_of (client s)); [by rewrite Ep| |naive_solver..].
    destruct Hcl as [?|(id & rx' & ?)]; [by left|right; eauto].
Qed.

Lemma event_ok s f ev n :
  sys_ok s -> input_ok B (backend (net s)) (InSwarm (Some ev)) ->
  poll_swarm_step f (net s) (InSwarm (Some ev)) ↓ Continue n -> sys_ok (with_net s n).
Proof.
  intros H Hi E. destruct (step_total B f _ _ (ok_wf _ H) Hi) as (r & E' & Hw).
  rewrite E in E'. simplify_eq. destruct (ledger_step _ _ _ _ E) as (n' & [[= <-]|[=]] & El).
  assert (Eh : handle_swarm_event f (net s) ev ↓ n) by (cbn in E; outcome_inv; by simplify_eq).
  destruct (grows_swarm_event _ _ _ _ Eh) as [Hg Er].
  apply (net_step_ok s); try done; [by apply Hw|by apply grows_advances|].
  intros id rx Hq. destruct (disturbs id (backend (net s)) (InSwarm (Some ev))) eqn:Ed.
  - right. destruct ev as [| | | | |[|j r]| | |]; try done. cbn in Ed. apply bool_decide_eq_true in Ed as ->.
    exists r. by eapply completion_sent.
  - left. by eapply step_keeps.
Qed.

Lemma book_ok s op b :
  sys_ok s -> admissible B (book (backend (net s))) op -> exec op (book (backend (net s))) ↓ b ->
  sys_ok (with_net s (with_backend (net s) (with_book (backend (net s)) b))).
Proof.
  intros H Hop E. apply (net_step_ok s); try done; [|by left].
  destruct (exec_total B op _ (bk_book _ _ (ok_wf _ H)) Hop) as (b' & E' & Hb & _).
  rewrite E in E'. simplify_eq. apply with_book_wf; [apply H|done].
Qed.

Lemma protocols_ok s k bs g bc :
  sys_ok s -> (is_Some bs <-> is_Some (bitswap (backend (net s)))) ->
  (forall x y id, bs = Some x -> bitswap (backend (net s)) = Some y ->
     (handed_out x id <-> handed_out y id)) ->
  sys_ok (with_net s (with_backend (net s) (protocols_moved (backend (net s)) k bs g bc))).
Proof.
  intros H Hi Hh. apply (net_step_ok s); try done; [by destruct (ok_wf _ H)| |by left].
  split; [done|apply Hi|]. intros id (y & Ey & Hy). destruct (proj2 Hi) as [x Ex]; [by eexists|].
  exists x. split; [done|]. by apply (Hh x y).
Qed.

Lemma storage_ok s x : sys_ok s -> sys_ok (mkSystem (with_storage (node s) x) (net s) (names s) (client s)).
Proof. intros H. apply (net_step_ok s); try done; [apply H|by left]. Qed.

(** *** The task takes a command *)

Lemma handed_cases f m :
  handed f (InCommand (Some m)) = [] \/
  (exists t, cmd_tx m = Some t /\ handed f (InCommand (Some m)) = [t]) \/
  handed f (InCommand (Some m)) = [query_tx f].
Proof. destruct m; cbn; eauto. Qed.

Lemma handled f n m n' : poll_swarm_step f n (InCommand (Some m)) ↓ Continue n' -> handle_command f n m ↓ n'.
Proof. cbn. intros E. outcome_inv. by simplify_eq. Qed.

Section Serve.
Context (s : System) (f : Fresh) (m : NetworkCommand) (q : CmdTx) (n : Net).
Let s' := mkSystem (with_queue (node s) q) n ({[query_tx f]} ∪ names s) (client s).
Context (H : sys_ok s) (Eq : cmd_next (commands s) = Some (m, q)) (Hf : query_tx f ∉ names s).
Context (E : poll_swarm_step f (net s) (InCommand (Some m)) ↓ Continue n).

Lemma serve_queue : queue s = m :: queue s'.
Proof. unfold queue at 1. by rewrite (cmd_next_some _ _ _ Eq). Qed.

Lemma serve_pending :
  pending_txs s' ≡ₚ handed f (InCommand (Some m)) ++ omap cmd_tx (queue s') ++ ledger (backend (net s)).
Proof.
  destruct (ledger_step _ _ _ _ E) as (n' & [[= <-]|[=]] & El).
  unfold pending_txs. change (net s') with n. rewrite El. solve_Permutation.
Qed.

Lemma serve_pending_before :
  pending_txs s = omap cmd_tx [m] ++ omap cmd_tx (queue s') ++ ledger (backend (net s)).
Proof. unfold pending_txs. rewrite serve_queue, app_assoc, <- omap_app. done. Qed.

Lemma serve_txs : NoDup (pending_txs s') /\ forall t, t ∈ pending_txs s' -> t = query_tx f \/ t ∈ pending_txs s.
Proof.
  pose proof (ok_txs _ H) as Hn. pose proof (ok_names _ H (query_tx f)) as Hq.
  assert (Hsub : forall t, t ∈ omap cmd_tx (queue s') ++ ledger (backend (net s)) -> t ∈ pending_txs s).
  { intros t. rewrite serve_pending_before, (elem_of_app (omap cmd_tx [m])). by right. }
  rewrite serve_pending. setoid_rewrite serve_pending.
  destruct (handed_cases f m) as [->|[(t & Et & ->)| ->]]; cbn.
  - rewrite serve_pending_before in Hn. apply NoDup_app in Hn as (_ & _ & Hn). auto.
  - rewrite serve_pending_before in Hn |- *. cbn in Hn |- *. rewrite Et in Hn |- *. auto.
  - rewrite serve_pending_before in Hn. apply NoDup_app in Hn as (_ & _ & Hn). split.
    + constructor; [|done]. intros Hin. apply Hf, Hq. right. auto.
    + intros t [->|Ht]%elem_of_cons; auto.
Qed.

(** Commands of others are answered on other channels. *)
Lemma serve_unanswered : unanswered (net s) -> cmd_tx m <> Some own_tx -> unanswered (net s').
Proof.
  intros Hu Ht r. change (net s') with n.
  destruct (command_replies _ _ _ _ (handled _ _ _ _ E)) as [->|(t & r' & Et & ->)]; [apply Hu|].
  rewrite elem_of_app, list_elem_of_singleton. intros [Hin|[= <- _]]; [by eapply Hu|done].
Qed.

(** The command of the caller moves forward, until its query is registered. *)
Lemma serve_behind c q1 : queued s (c :: q1) -> queued s' q1.
Proof.
  intros [Hu (m' & q2 & Hm & Hq)]. rewrite serve_queue in Hq. injection Hq as <- Hq.
  split; [|by exists m', q2]. apply serve_unanswered; [done|]. intros Hc.
  pose proof (ok_txs _ H) as Hn. rewrite serve_pending_before, Hq in Hn. cbn in Hn. rewrite Hc in Hn.
  apply NoDup_cons in Hn as [Hn _]. apply Hn. rewrite omap_app. cbn. rewrite (own_cmd_tx _ Hm). set_solver.
Qed.

Lemma serve_own : queued s [] -> exists id rx, tracked s' id rx.
Proof.
  intros [Hu (m' & q2 & Hm & Hq)]. pose proof serve_queue as Es. rewrite Hq in Es. injection Es as Em _.
  assert (Hm' : own m) by (by rewrite <- Em).
  destruct (own_handled f (net s) m n Hm') as (id & r & Er & Hr & Hni & Hi & Hreg); [by apply handled|].
  exists id, (query_tx f). split_and!; [by eapply unanswered_reply|done| |by left].
  intros Hin. apply Hni, (ok_cancels _ H). rewrite serve_queue. by right.
Qed.

Lemma serve_tracked id rx : tracked s id rx -> tracked s' id rx.
Proof.
  intros Ht. pose proof Ht as (_ & Hi & Hc & _). pose proof (handled _ _ _ _ E) as Eh.
  rewrite serve_queue in Hc. apply not_elem_of_cons in Hc as [Hm Hc].
  assert (El : exists l, net_replies (net s') = net_replies (net s) ++ l).
  { change (net s') with n. destruct (command_replies _ _ _ _ Eh) as [->|(t & r' & _ & ->)]; [|by eexists].
    exists []. by rewrite app_nil_r. }
  destruct El as [l El]. eapply tracked_mono; [done|exact El|by eapply command_advances|done|].
  intros _. left. eapply step_keeps; [|exact E]. apply command_disturbs; [done|congruence].
Qed.

Lemma serve_ok : sys_ok s'.
Proof.
  pose proof serve_txs as [Hn Hsub]. pose proof (command_advances _ _ _ _ (handled _ _ _ _ E)) as Ha.
  assert (Hi : input_ok B (backend (net s)) (InCommand (Some m))).
  { destruct m; cbn; try done; try apply H. case_match; [apply H|done]. }
  destruct (step_total B f _ _ (ok_wf _ H) Hi) as (r & E' & Hw). rewrite E in E'. simplify_eq.
  assert (Htx : own_tx <> query_tx f) by (intros Et; apply Hf; rewrite <- Et; apply (ok_names _ H); by left).
  split; [by apply Hw|by eapply adv_bitswap, H|done|..].
  - intros t [->|Ht]%elem_of_cons; cbn; apply elem_of_union.
    + right. apply (ok_names _ H). by left.
    + destruct (Hsub t Ht) as [->|Ht']; [left; set_solver|]. right. apply (ok_names _ H). by right.
  - intros id Hin. eapply adv_issued; [exact Ha|]. apply (ok_cancels _ H). rewrite serve_queue. by right.
  - pose proof (ok_client _ H) as Hc. revert Hc. unfold client_ok. change (client s') with (client s).
    generalize (stage_of (client s)). intros [| |qid rx|] Hc; try done.
    + destruct Hc as [Hu Hc]. split.
      * apply serve_unanswered; [done|]. intros Et. apply Hc. rewrite serve_pending_before. cbn.
        rewrite Et. by left.
      * intros [Et|Ht]%Hsub; done.
    + destruct Hc as [[[|c q1] Hq]|(id & rx & Ht)].
      * right. by apply serve_own.
      * left. exists q1. by eapply serve_behind.
      * right. exists id, rx. by apply serve_tracked.
    + destruct Hc as (j & -> & Ht). exists j. split; [done|]. by apply serve_tracked.
Qed.
End Serve.

(** *** Commands are sent *)

Lemma sent_queue s m q r :
  try_send (commands s) m = (q, r) -> exists l, cmd_queue q = queue s ++ l /\
    (l = [m] /\ r = None \/ l = [] /\ r <> None).
Proof.
  destruct r as [[d m']|]; intros E.
  - apply try_send_err in E as [_ E]. exists []. rewrite app_nil_r. by auto.
  - apply try_send_ok in E. by eauto.
Qed.

Lemma sent_ok s s' l :
  sys_ok s -> net s' = net s -> queue s' = queue s ++ l -> names s ⊆ names s' ->
  NoDup (omap cmd_tx l ++ pending_txs s) -> (forall t, t ∈ omap cmd_tx l -> t ∈ names s') ->
  (forall id, CancelQuery (BitswapId id) ∈ l -> issued (backend (net s)) id) ->
  client_ok s' -> sys_ok s'.
Proof.
  intros [Hw Hb Ht Hn Hc _] En Eq Hsub Hnd Hnew Hi Hcl.
  assert (Ep : pending_txs s' ≡ₚ omap cmd_tx l ++ pending_txs s).
  { unfold pending_txs. rewrite En, Eq, omap_app. solve_Permutation. }
  split; rewrite ?En, ?Ep; try done.
  - intros t [->|Hin]%elem_of_cons; [apply Hsub, Hn; by left|]. rewrite Ep in Hin.
    apply elem_of_app in Hin as [Hin|Hin]; [by apply Hnew|]. apply Hsub, Hn. by right.
  - intros id. rewrite Eq, elem_of_app. intros [Hin|Hin]; auto.
Qed.

Lemma client_ok_sent s s' l :
  client_ok s -> client s' = client s -> net s' = net s -> queue s' = queue s ++ l ->
  own_tx ∉ omap cmd_tx l -> (forall id, CancelQuery (BitswapId id) ∈ l -> ~ owns (net s) id) ->
  client_ok s'.
Proof.
  intros H Ec En Eq Ht Hi.
  assert (Htr : forall id rx, tracked s id rx -> tracked s' id rx).
  { intros id rx (Hr & Ha & Hc & Hq). unfold tracked. rewrite En. split_and!; [done..| |done].
    rewrite Eq, not_elem_of_app. split; [done|]. intros Hin. by eapply Hi, own_reply_owns. }
  unfold client_ok in *. rewrite Ec. destruct (stage_of (client s)); [| |naive_solver..].
  - rewrite En. split; [apply H|]. unfold pending_txs in *. rewrite En, Eq, omap_app. set_solver.
  - destruct H as [(q & Hu & m & q2 & Hm & E)|(id & rx' & ?)]; [|right; by eauto].
    left. exists q. split; [by rewrite En|]. exists m, (q2 ++ l). rewrite Eq, E. by rewrite <- app_assoc.
Qed.

Lemma other_step_ok s m q r :
  sys_ok s -> other_ok s m -> try_send (commands s) m = (q, r) ->
  sys_ok (mkSystem (with_queue (node s) q) (net s) (option_to_set (cmd_tx m) ∪ names s) (client s)).
Proof.
  intros H [Hn Hc] E. destruct (sent_queue _ _ _ _ E) as (l & El & Hl).
  assert (Hsub : forall t, t ∈ omap cmd_tx l -> cmd_tx m = Some t).
  { intros t (m' & Hm & Et)%list_elem_of_omap. destruct Hl as [[-> _]|[-> _]]; set_solver. }
  assert (Hcn : forall id, CancelQuery (BitswapId id) ∈ l -> m = CancelQuery (BitswapId id)).
  { intros id. destruct Hl as [[-> _]|[-> _]]; set_solver. }
  apply (sent_ok s _ l); try done.
  - cbn. set_solver.
  - apply NoDup_app. split_and!; [destruct Hl as [[-> _]|[-> _]]; [|constructor]| |apply H].
    + cbn. destruct (cmd_tx m); [apply NoDup_singleton|constructor].
    + intros t Ht Hp. apply (Hn t); [auto|]. apply (ok_names _ H). by right.
  - intros t Ht%Hsub. cbn. rewrite Ht. set_solver.
  - intros id Hin%Hcn. by eapply Hc.
  - apply (client_ok_sent s _ l); try done; [apply H| |].
    + intros Ht%Hsub. apply (Hn _ Ht). apply (ok_names _ H). by left.
    + intros id Hin%Hcn. by eapply Hc.
Qed.

(** *** The caller is polled *)

Lemma poll_ok s st c :
  sys_ok s -> poll_client (node s) (net s) (client s) = (st, c) ->
  sys_ok (mkSystem st (net s) (names s) c).
Proof.
  intros H E. pose proof (ok_client _ H) as Hc. destruct (poll_cases _ _ _ _ _ E) as (l & El & Hl).
  assert (Hsend : omap cmd_tx l = [] -> (forall id, CancelQuery (BitswapId id) ∈ l -> issued (backend (net s)) id) ->
    client_ok (mkSystem st (net s) (names s) c) -> sys_ok (mkSystem st (net s) (names s) c)).
  { intros Ho Hi Hk. pose proof (ok_txs _ H). apply (sent_ok s _ l); rewrite ?Ho; try done. set_solver. }
  assert (Htr : l = [] -> forall id rx, tracked s id rx -> tracked (mkSystem st (net s) (names s) c) id rx).
  { intros -> id rx (? & ? & ? & ?). split_and!; try done. unfold queue, commands. cbn. by rewrite El, app_nil_r. }
  unfold client_ok in Hc, Hsend. cbn [client] in Hsend.
  destruct (stage_of (client s)) as [| |qid rx|]; destruct (stage_of c) as [| |qid' rx'|] eqn:Ec; try done.
  - destruct Hl as (m & Hm & ->). destruct Hc as [Hu Hp]. apply (sent_ok s _ [m]); try done.
    + cbn. rewrite (own_cmd_tx _ Hm). constructor; [done|apply H].
    + intros t. cbn. rewrite (own_cmd_tx _ Hm). intros ->%list_elem_of_singleton. apply (ok_names _ H). by left.
    + intros id Hin%list_elem_of_singleton. subst m. by apply own_cmd_tx in Hm.
    + unfold client_ok. cbn [client]. rewrite Ec. left. exists (queue s). split; [done|]. by exists m, [].
  - subst l. apply Hsend; [done|set_solver|done].
  - destruct Hl as [-> _]. apply Hsend; [done|set_solver|].
    destruct Hc as [(q & Hu & m & q2 & Hm & Eq)|(id & rx & Ht)]; [left|right; by eauto].
    exists q. split; [done|]. exists m, q2. split; [done|]. unfold queue, commands. cbn. by rewrite El, app_nil_r.
  - destruct Hl as [-> Hr]. apply Hsend; [done|set_solver|].
    destruct Hc as [(q & Hu & _)|(id & rx & Ht)]; [by rewrite unanswered_none in Hr|].
    pose proof Ht as [Hr' _]. rewrite Hr' in Hr. simplify_eq. exists id. split; [done|]. by apply Htr.
  - destruct Hl as (-> & -> & ->). apply Hsend; [done|set_solver|].
    destruct Hc as (j & -> & Ht). exists j. split; [done|]. by apply Htr.
  - destruct Hc as (j & -> & _ & Hi & _). apply Hsend; [by destruct Hl as [->| ->]| |done].
    intros id Hin. destruct Hl as [->| ->]; set_solver.
  - subst l. apply Hsend; [done|set_solver|done].
Qed.

Lemma step_ok b s s' : sys_ok s -> sys_step b s s' -> sys_ok s'.
Proof.
  intros H Hs. destruct Hs.
  - by apply poll_ok.
  - by eapply serve_ok.
  - by eapply event_ok.
  - by eapply book_ok.
  - by apply protocols_ok.
  - by eapply other_step_ok.
  - by apply storage_ok.
Qed.

Lemma run_ok k s s' : sys_ok s -> sys_run k s s' -> sys_ok s'.
Proof. intros H Hr. induction Hr; [done|]. eauto using step_ok. Qed.

(** *** A command waits for the commands before it *)

Lemma step_replies b s s' : sys_step b s s' -> exists l, net_replies (net s') = net_replies (net s) ++ l.
Proof.
  assert (Hnil : forall A (l : list A), exists l', l = l ++ l') by (intros A l; exists []; by rewrite app_nil_r).
  intros Hs. destruct Hs; cbn [net with_net with_backend net_replies]; try apply Hnil.
  - destruct (command_replies _ _ _ _ (handled _ _ _ _ H1)) as [->|(t & r & _ & ->)]; [apply Hnil|by eexists].
  - cbn in H0. outcome_inv. simplify_eq. edestruct grows_swarm_event as [_ ->]; [done|apply Hnil].
Qed.

Lemma step_outbox b s s' : sys_ok s -> sys_step b s s' -> exists o, outbox (backend (net s')) = outbox (backend (net s)) ++ o.
Proof.
  assert (Hnil : forall A (l : list A), exists l', l = l ++ l') by (intros A l; exists []; by rewrite app_nil_r).
  intros H Hs. destruct Hs as [|s f m q n Eq Hf E|s f ev n Hi E| | | |]; cbn [net with_net with_backend backend];
    try apply Hnil.
  - by destruct (command_advances _ _ _ _ (handled _ _ _ _ E)) as [[l ->] _ _]; eexists.
  - cbn in E. outcome_inv. simplify_eq. edestruct grows_swarm_event as [[[l ->] _] _]; [done|]. by eexists.
Qed.

Lemma run_replies k s s' x : sys_run k s s' -> own_reply (net s) = Some x -> own_reply (net s') = Some x.
Proof.
  induction 1 as [|b k s s1 s2 Hs _ IH]; [done|]. intros Hq. apply IH.
  destruct (step_replies _ _ _ Hs) as [l El]. by eapply own_reply_stays.
Qed.

(** Other steps leave the place in the queue as it is. *)
Lemma step_queued l0 s s' q :
  sys_ok s -> sys_step l0 s s' -> takes l0 = false -> queued s q -> stage_of (client s) = Asked ->
  queued s' q /\ stage_of (client s') = Asked.
Proof.
  intros Hok Hs Hl0 [Hu (m & q2 & Hm & Hq)] Hc.
  assert (Hstay : forall n q' nm c l, unanswered n -> queue (mkSystem q' n nm c) = queue s ++ l ->
    queued (mkSystem q' n nm c) q).
  { intros n q' nm c l Hn Hl. split; [done|]. exists m, (q2 ++ l). split; [done|]. rewrite Hl, Hq. by rewrite <- app_assoc. }
  inversion Hs; subst; cbn [client with_net]; try done; try (split; [|done]).
  - destruct (poll_cases _ _ _ _ _ H) as (l & El & Hl). rewrite Hc, unanswered_none in Hl by done.
    destruct (stage_of c) eqn:Ec; try done; [|by destruct Hl]. destruct Hl as [-> _].
    split; [by eapply Hstay|done].
  - eapply (Hstay _ _ _ _ []); [|by rewrite app_nil_r]. cbn in H0. outcome_inv. simplify_eq. unfold unanswered.
    edestruct grows_swarm_event as [_ ->]; [done|]. exact Hu.
  - eapply (Hstay _ _ _ _ []); [exact Hu|by rewrite app_nil_r].
  - eapply (Hstay _ _ _ _ []); [exact Hu|by rewrite app_nil_r].
  - destruct (sent_queue _ _ _ _ H0) as (l & El & _). by eapply Hstay.
  - eapply (Hstay _ _ _ _ []); [exact Hu|by rewrite app_nil_r].
Qed.

Lemma served_in_turn k s s' q :
  sys_run k s s' -> sys_ok s -> stage_of (client s) = Asked -> queued s q -> length q < k ->
  exists id rx, own_reply (net s') = Some (BitswapId id, rx).
Proof.
  intros Hr. revert q. induction Hr as [|l k s s1 s2 Hs Hr IH]; intros q Hok Hc Hq Hk; [lia|].
  pose proof (step_ok _ _ _ Hok Hs) as Hok1. destruct (takes l) eqn:El.
  - destruct l; try done. inversion Hs; subst. destruct q as [|m' q].
    + edestruct (serve_own s f m q0 n) as (id & rx & Ht & _); [done..|]. exists id, rx. by eapply run_replies.
    + apply (IH q); [done|done| |cbn in Hk; lia]. by eapply serve_behind.
  - destruct (step_queued _ _ _ _ Hok Hs El Hq Hc) as [Hq' Hc']. by eapply IH.
Qed.

(** *** The caller can finish *)

Lemma run_trans k1 k2 s s1 s2 : sys_run k1 s s1 -> sys_run k2 s1 s2 -> sys_run (k1 + k2) s s2.
Proof.
  induction 1 as [|b k s s' s1 Hs _ IH]; [done|]. intros H2.
  pose proof (run_step b (k + k2) s s' s2 Hs (IH H2)) as Hr. by destruct (takes b).
Qed.

Lemma run_one b s s' : sys_step b s s' -> sys_run (if takes b then 1 else 0) s s'.
Proof. intros Hs. apply (run_step b 0 s s'); [done|constructor]. Qed.

Definition finishes (k : nat) (s : System) : Prop :=
  exists n s', sys_run n s s' /\ n <= k /\ stage_of (client s') = Over.

Lemma finishes_step b k s s' : sys_step b s s' -> finishes k s' -> finishes (if takes b then S k else k) s.
Proof.
  intros Hs (n & s2 & Hr & Hn & Hf). exists ((if takes b then 1 else 0) + n), s2.
  split; [eapply run_trans; [by apply run_one|done]|]. split; [destruct (takes b); lia|done].
Qed.

Lemma finishes_le k k' s : finishes k s -> k <= k' -> finishes k' s.
Proof. intros (n & s2 & ? & ? & ?) ?. exists n, s2. split_and!; [done|lia|done]. Qed.

Lemma finished_now s : stage_of (client s) = Over -> finishes 0 s.
Proof. intros H. exists 0, s. split_and!; [constructor|lia|done]. Qed.

Lemma finish_completed s qid rx r :
  sys_ok s -> stage_of (client s) = Holds qid rx -> completion rx r ∈ outbox (backend (net s)) -> finishes 0 s.
Proof.
  intros H Hc Hr. pose proof (poll_completed (node s) (net s) (client s) qid rx r Hc (ok_ledger _ H) Hr) as Ho.
  destruct (poll_client (node s) (net s) (client s)) as [st c] eqn:E.
  apply (finishes_step Silent 0 s (mkSystem st (net s) (names s) c)); [by apply step_poll|by apply finished_now].
Qed.

Section Finish.
Context (f0 : Fresh).

Lemma finish_holds s id rx :
  sys_ok s -> stage_of (client s) = Holds (BitswapId id) rx -> tracked s id rx -> finishes 0 s.
Proof.
  intros H Hc (_ & _ & _ & [Hq|[r Hr]]); [|by eapply finish_completed].
  set (ev := SeBitswap (BitswapComplete id (Ok tt))).
  set (n := with_backend (net s) (inject_bitswap_event (backend (net s)) (BitswapComplete id (Ok tt)))).
  assert (E : poll_swarm_step f0 (net s) (InSwarm (Some ev)) ↓ Continue n) by done.
  apply (finishes_step (Handles ev) 0 s (with_net s n)); [by apply (step_event s f0 ev)|].
  eapply finish_completed; [by apply (event_ok s f0 ev)|exact Hc|by eapply completion_sent].
Qed.

Lemma finish_asked s id rx : sys_ok s -> stage_of (client s) = Asked -> tracked s id rx -> finishes 0 s.
Proof.
  intros H Hc Ht. pose proof Ht as [Hr _].
  destruct (poll_client (node s) (net s) (client s)) as [st c] eqn:E.
  apply (finishes_step Silent 0 s (mkSystem st (net s) (names s) c)); [by apply step_poll|].
  pose proof (poll_ok _ _ _ H E) as H'. destruct (poll_cases _ _ _ _ _ E) as (l & El & Hl).
  rewrite Hc, Hr in Hl. destruct (stage_of c) as [| |qid rx'|] eqn:Ec; try done; [by destruct Hl|].
  destruct Hl as [_ [= <- <-]]. pose proof (ok_client _ H') as Hk. unfold client_ok in Hk. cbn [client] in Hk.
  rewrite Ec in Hk. destruct Hk as (j & [= <-] & Ht'). by eapply finish_holds.
Qed.

Definition with_fresh_tx (ns : gset Tx) : Fresh :=
  mkFresh (now f0) (now_at f0) (events_tx f0) (gossip_tx f0) (fresh ns).

Lemma can_serve s : sys_ok s -> queue s <> [] -> exists f m q n,
  cmd_next (commands s) = Some (m, q) /\ (query_tx f ∉ names s) /\
  poll_swarm_step f (net s) (InCommand (Some m)) ↓ Continue n.
Proof.
  intros H Hq. destruct (cmd_next_is_some _ Hq) as [[m q] Em].
  destruct (handle_command_total B (with_fresh_tx (names s)) (net s) m (ok_wf _ H)) as (n & En & _).
  { destruct m; cbn; try done; try apply H. case_match; [apply H|done]. }
  exists (with_fresh_tx (names s)), m, q, n. split_and!; [done|apply is_fresh|].
  cbn. by rewrite En.
Qed.

Lemma finish_queued s q : sys_ok s -> stage_of (client s) = Asked -> queued s q -> finishes (S (length q)) s.
Proof.
  revert s. induction q as [|c q IH]; intros s H Hc Hq.
  all: destruct (can_serve s H) as (f & m & qq & n & Em & Hf & E);
    [destruct Hq as [_ (m & q2 & _ & ->)]; by apply not_eq_sym, app_cons_not_nil|].
  all: pose proof (serve_ok _ _ _ _ _ H Em Hf E) as H'; eapply (finishes_step Takes); [by eapply step_serve|].
  - edestruct serve_own as (id & rx & Ht); [exact H|exact Em|exact E|exact Hq|]. by eapply finish_asked.
  - apply IH; [done|done|]. by eapply serve_behind.
Qed.

Lemma finish_from_asked s : sys_ok s -> stage_of (client s) = Asked -> finishes (length (queue s)) s.
Proof.
  intros H Hc. pose proof (ok_client _ H) as Hk. unfold client_ok in Hk. rewrite Hc in Hk.
  destruct Hk as [[q Hq]|(id & rx' & Ht)].
  - eapply finishes_le; [by eapply finish_queued|]. destruct Hq as [_ (m & q2 & _ & ->)]. rewrite length_app. cbn. lia.
  - eapply finishes_le; [by eapply finish_asked|lia].
Qed.

Lemma finish_always s : sys_ok s -> finishes (S (length (queue s))) s.
Proof.
  intros H. pose proof (ok_client _ H) as Hk. unfold client_ok in Hk.
  destruct (stage_of (client s)) as [| |qid rx|] eqn:Hc.
  - destruct (poll_client (node s) (net s) (client s)) as [st c] eqn:E.
    destruct (poll_cases _ _ _ _ _ E) as (l & El & Hl). rewrite Hc in Hl.
    apply (finishes_step Silent _ s (mkSystem st (net s) (names s) c)); [by apply step_poll|].
    pose proof (poll_ok _ _ _ H E) as H'. destruct (stage_of c) as [| |qid rx|] eqn:Ec; try done.
    + destruct Hl as (m & _ & ->). eapply finishes_le; [by eapply finish_from_asked|].
      unfold queue, commands. cbn. rewrite El, length_app. unfold queue, commands. cbn. lia.
    + eapply finishes_le; [by apply finished_now|lia].
  - eapply finishes_le; [by eapply finish_from_asked|lia].
  - destruct Hk as (j & -> & Ht). eapply finishes_le; [by eapply finish_holds|lia].
  - eapply finishes_le; [by apply finished_now|lia].
Qed.

End Finish.

(** ** What holds of every caller *)

(** A registered query stays registered until its own completion is handled, which is what
    is sent on its channel. *)
Lemma registered_step l s s' id rx :
  sys_ok s -> tracked s id rx -> queries (backend (net s)) !! BitswapId id = Some (channel_of rx) ->
  sys_step l s s' ->
  queries (backend (net s')) !! BitswapId id = Some (channel_of rx) \/
  exists r, l = Handles (SeBitswap (BitswapComplete id r)) /\
    outbox (backend (net s')) = outbox (backend (net s)) ++ [completion rx r].
Proof.
  intros H Ht Hq Hs. destruct Hs as [s st c|s f m q n Eq Hf E|s f ev n Hi E| | | |]; try (by left).
  - left. pose proof Ht as (_ & _ & Hc & _). rewrite (serve_queue _ f _ _ n Eq) in Hc.
    apply not_elem_of_cons in Hc as [Hm _].
    assert (Hk : keeps (BitswapId id) (backend (net s)) (backend n)).
    { eapply step_keeps; [|exact E]. apply command_disturbs; [apply Ht|congruence]. }
    cbn. unfold keeps in Hk. by rewrite Hk.
  - destruct (disturbs id (backend (net s)) (InSwarm (Some ev))) eqn:Ed.
    + right. destruct ev as [| | | | |[|j r]| | |]; try done. cbn in Ed. apply bool_decide_eq_true in Ed as ->.
      exists r. split; [done|]. injection E as <-. by apply own_completed.
    + left. pose proof (step_keeps _ _ _ _ _ Ed E) as Hk. cbn. unfold keeps in Hk. by rewrite Hk.
Qed.

Lemma closer_unique (o : list delivery) d d' t :
  NoDup (omap closes o) -> d ∈ o -> d' ∈ o -> closes d = Some t -> closes d' = Some t -> d = d'.
Proof.
  induction o as [|x o IH]; intros Hnd Hd Hd' E E'; [by apply elem_of_nil in Hd|].
  assert (Hin : forall y, y ∈ o -> closes y = Some t -> t ∈ omap closes o)
    by (intros y Hy Ey; apply list_elem_of_omap; by exists y).
  cbn in Hnd. apply elem_of_cons in Hd as [->|Hd], Hd' as [->|Hd']; [done|..];
    [rewrite E in Hnd; apply NoDup_cons in Hnd as [Hn _]; by destruct (Hn (Hin d' Hd' E'))
    |rewrite E' in Hnd; apply NoDup_cons in Hnd as [Hn _]; by destruct (Hn (Hin d Hd E))
    |apply IH; try done; by destruct (closes x); [apply NoDup_cons in Hnd as [_ ?]|]].
Qed.

Lemma outbox_closers s : sys_ok s -> NoDup (omap closes (outbox (backend (net s)))).
Proof. intros H%ok_ledger. unfold ledger in H. by apply NoDup_app in H as (_ & _ & ?). Qed.

(** The caller waits, and its query was made. *)
Definition waits (s : System) : bool := match stage_of (client s) with Asked | Holds _ _ => true | _ => false end.

Lemma waits_tracked s id rx :
  sys_ok s -> stage_of (client s) <> Over -> own_reply (net s) = Some (BitswapId id, rx) -> tracked s id rx.
Proof.
  intros H Hc Hr. pose proof (ok_client _ H) as Hk. unfold client_ok in Hk.
  assert (Hu : unanswered (net s) -> False) by (intros Hu; by rewrite (unanswered_none _ Hu) in Hr).
  destruct (stage_of (client s)) as [| |qid rx'|]; [by destruct (Hu (proj1 Hk))| | |done].
  - destruct Hk as [(q & Hq & _)|(id' & rx' & Ht)]; [by destruct (Hu Hq)|].
    pose proof Ht as [Hr' _]. rewrite Hr in Hr'. by simplify_eq.
  - destruct Hk as (j & -> & Ht). pose proof Ht as [Hr' _]. rewrite Hr in Hr'. by simplify_eq.
Qed.

(** A caller that waits was waiting or has not asked before. *)
Lemma step_waits l s s' : sys_step l s s' -> waits s' = true -> stage_of (client s) <> Over.
Proof.
  unfold waits. intros Hs. destruct Hs as [s st c E| | | | | |]; cbn; try (by intros Hw Ho; rewrite Ho in Hw).
  destruct (poll_cases _ _ _ _ _ E) as (k & _ & Hk). intros H Ho. rewrite Ho in Hk. by destruct (stage_of c).
Qed.

(** The command of the caller is answered in the step that registers its query. *)
Lemma step_makes l s s' id rx :
  sys_ok s -> stage_of (client s) <> Over -> sys_step l s s' -> own_reply (net s) = None ->
  own_reply (net s') = Some (BitswapId id, rx) -> queries (backend (net s')) !! BitswapId id = Some (channel_of rx).
Proof.
  intros H Hc Hs Hn Hr. destruct Hs as [s st c|s f m q n Eq Hf E|s f ev n Hi E| | | |]; cbn [net with_net] in *;
    try (by change (own_reply (net s) = Some (BitswapId id, rx)) in Hr; rewrite Hn in Hr).
  - destruct (command_replies _ _ _ _ (handled _ _ _ _ E)) as [Er|(t & r & Et & Er)].
    { unfold own_reply, reply_on in *. rewrite Er in Hr. by rewrite Hn in Hr. }
    assert (Hm : t = own_tx).
    { unfold own_reply, reply_on in *. rewrite Er, omap_app in Hr. destruct (omap _ (net_replies (net s))); [|done].
      cbn in Hr. unfold made in Hr. cbn in Hr. by destruct (decide (t = own_tx)). }
    subst t. assert (Ho : own m).
    { pose proof (ok_client _ H) as Hk. unfold client_ok in Hk. pose proof (ok_txs _ H) as Hnd.
      pose proof (serve_queue _ f _ _ n Eq) as Es. unfold pending_txs in *. rewrite Es in *. cbn in Hnd, Hk.
      rewrite Et in Hnd, Hk. destruct (stage_of (client s)) as [| |qid rx'|]; [|..|done].
      - destruct Hk as [_ Hk]. destruct Hk. by left.
      - destruct Hk as [(q' & _ & m' & q2 & Hm' & Eq')|(id' & rx' & Ht & _)]; [|by rewrite Hn in Ht].
        rewrite Es in Eq'. destruct q' as [|c q']; [by injection Eq' as <- _|]. injection Eq' as -> Eq'.
        apply NoDup_cons in Hnd as [Hnd _]. destruct Hnd. rewrite Eq', omap_app. cbn. rewrite (own_cmd_tx _ Hm'). set_solver.
      - destruct Hk as (j & _ & Ht & _). by rewrite Hn in Ht. }
    destruct (own_handled f (net s) m n Ho (handled _ _ _ _ E)) as (id' & r' & Er' & Hr' & _ & _ & Hreg).
    rewrite Er in Er'. apply app_inj_2 in Er' as [_ [= ->]]; [|done].
    unfold own_reply, reply_on in *. rewrite Er, omap_app in Hr. destruct (omap _ (net_replies (net s))); [|done].
    cbn in Hr. unfold made in Hr. cbn in Hr. rewrite decide_True, Hr' in Hr by done. by injection Hr as <- <-.
  - cbn in E. outcome_inv. simplify_eq. edestruct grows_swarm_event as [_ Er]; [done|].
    unfold own_reply, reply_on in *. rewrite Er in Hr. by rewrite Hn in Hr.
Qed.

Lemma trace_ok ls s s' : sys_ok s -> sys_trace ls s s' -> sys_ok s'.
Proof. intros H Ht. induction Ht; [done|]. eauto using step_ok. Qed.

(** Whatever was sent on the channel of the caller's query is the completion of this query,
    as the task handled it. *)
Lemma trace_completion ls s0 s id rx d :
  just_started s0 -> sys_trace ls s0 s -> waits s = true -> own_reply (net s) = Some (BitswapId id, rx) ->
  d ∈ outbox (backend (net s)) -> closes d = Some rx ->
  exists r, Handles (SeBitswap (BitswapComplete id r)) ∈ ls /\ d = completion rx r.
Proof.
  intros H0 Ht. revert id rx d. induction Ht as [s|ls l s s1 s2 Ht IH Hs]; intros id rx d Hw Hr Hd Ed.
  { destruct H0 as (_ & _ & _ & Hc). unfold waits in Hw. by rewrite Hc in Hw. }
  specialize (IH H0). pose proof (trace_ok _ _ _ (started_ok _ H0) Ht) as H1. pose proof (step_ok _ _ _ H1 Hs) as H2.
  pose proof (step_waits _ _ _ Hs Hw) as Hc.
  assert (Hopen : queries (backend (net s2)) !! BitswapId id = Some (channel_of rx) -> False).
  { intros Hq. eapply registered_open; [apply ok_ledger, H2|exact Hq|]. apply list_elem_of_omap. by exists d. }
  destruct (own_reply (net s1)) as [[qid rx']|] eqn:Hr1.
  2:{ destruct Hopen. exact (step_makes _ _ _ _ _ H1 Hc Hs Hr1 Hr). }
  destruct (step_replies _ _ _ Hs) as [l' El]. rewrite (own_reply_stays _ _ _ _ El Hr1) in Hr. injection Hr as -> ->.
  pose proof (waits_tracked _ _ _ H1 Hc Hr1) as Htr. pose proof Htr as (_ & _ & _ & [Hq|[r Hin]]).
  - destruct (registered_step _ _ _ _ _ H1 Htr Hq Hs) as [Hq2|(r & -> & Eo)]; [by destruct Hopen|].
    exists r. split; [set_solver|]. rewrite Eo, elem_of_app, list_elem_of_singleton in Hd. destruct Hd as [Hd| ->]; [|done].
    exfalso. eapply registered_open; [apply ok_ledger, H1|exact Hq|]. apply list_elem_of_omap. by exists d.
  - assert (Hw1 : waits s1 = true).
    { unfold waits. pose proof (ok_client _ H1) as Hk. unfold client_ok in Hk. revert Hk Hc.
      destruct (stage_of (client s1)); intros Hk Hc'; try done. by rewrite (unanswered_none _ (proj1 Hk)) in Hr1. }
    destruct (IH id rx (completion rx r) Hw1 eq_refl Hin (completion_closes _ _)) as (r' & Hl & Er).
    exists r'. split; [set_solver|]. rewrite <- Er. eapply closer_unique; [by apply outbox_closers, H2|exact Hd| |exact Ed|apply completion_closes].
    destruct (step_outbox _ _ _ H1 Hs) as [o ->]. set_solver.
Qed.

(** The completion of query [id] has arrived on [rx]: the one that the task handled, and
    nothing else; or nothing has arrived, and what arrives next is this completion. *)
Definition answering (ls : list label) (s : System) (id : BitswapQueryId) (rx : Tx) : Prop :=
  (exists r, completion rx r ∈ outbox (backend (net s)) /\ Handles (SeBitswap (BitswapComplete id r)) ∈ ls) \/
  ((rx ∉ omap closes (outbox (backend (net s)))) /\
   (forall f r n,
      poll_swarm_step f (net s) (InSwarm (Some (SeBitswap (BitswapComplete id r)))) ↓ Continue n ->
      outbox (backend n) = outbox (backend (net s)) ++ [completion rx r]) /\
   forall l s', sys_step l s s' ->
     (rx ∉ omap closes (outbox (backend (net s')))) \/
     exists r, l = Handles (SeBitswap (BitswapComplete id r)) /\
       outbox (backend (net s')) = outbox (backend (net s)) ++ [completion rx r]).

Lemma tracked_answering ls s0 s id rx :
  just_started s0 -> sys_trace ls s0 s -> waits s = true -> tracked s id rx -> answering ls s id rx.
Proof.
  intros H0 Ht Hw Htr. pose proof (trace_ok _ _ _ (started_ok _ H0) Ht) as H.
  pose proof Htr as (Hr & _ & _ & [Hq|[r Hin]]).
  - right. split; [by eapply registered_open, Hq; apply ok_ledger|]. split.
    + intros f r n E. injection E as <-. by apply own_completed.
    + intros l s' Hs. destruct (registered_step _ _ _ _ _ H Htr Hq Hs) as [Hq'|Hc]; [left|by right].
      eapply registered_open, Hq'. apply ok_ledger. by eapply step_ok.
  - left. destruct (trace_completion _ _ _ id rx (completion rx r) H0 Ht Hw Hr Hin (completion_closes _ _)) as (r' & Hl & Er).
    exists r'. by rewrite <- Er.
Qed.

Lemma caller_waits ls s0 s :
  just_started s0 -> sys_trace ls s0 s ->
  match stage_of (client s) with
  | Asked =>
      (exists q m q2, own m /\ queue s = q ++ m :: q2) \/
      exists id rx, own_reply (net s) = Some (BitswapId id, rx) /\ tracked s id rx /\ answering ls s id rx
  | Holds qid rx => exists id, qid = BitswapId id /\ own_reply (net s) = Some (BitswapId id, rx) /\
      tracked s id rx /\ answering ls s id rx
  | _ => True
  end.
Proof.
  intros H0 Ht. pose proof (trace_ok _ _ _ (started_ok _ H0) Ht) as H. pose proof (ok_client _ H) as Hc.
  unfold client_ok in Hc. pose proof (fun Hw id rx => tracked_answering ls s0 s id rx H0 Ht Hw) as Ha.
  unfold waits in Ha. destruct (stage_of (client s)) as [| |qid rx|]; [done| | |done].
  - destruct Hc as [(q & _ & m & q2 & Hm & Eq)|(id & rx' & Htr)]; [left; by eauto 6|].
    right. exists id, rx'. split; [apply Htr|]. split; [done|by apply Ha].
  - destruct Hc as (id & -> & Htr). exists id. split; [done|]. split; [apply Htr|]. split; [done|by apply Ha].
Qed.

(** The bound holds from any place in the queue. *)
Lemma caller_served s q m q2 k s' :
  sys_ok s -> stage_of (client s) = Asked -> own_reply (net s) = None -> own m ->
  queue s = q ++ m :: q2 -> sys_run k s s' -> length q < k ->
  exists id rx, own_reply (net s') = Some (BitswapId id, rx).
Proof.
  intros H Hc Hn Hm Eq Hr Hk. eapply served_in_turn; [exact Hr|done|done| |exact Hk].
  split; [|by exists m, q2]. pose proof (ok_client _ H) as Hk'. unfold client_ok in Hk'. rewrite Hc in Hk'.
  destruct Hk' as [(q' & Hu & _)|(id & rx & Ht & _)]; [done|]. by rewrite Hn in Ht.
Qed.
End Callers.
