(* ===== verification/System.v ===== *)
(** * [Ipfs::fetch] beside the network task

    [fetch_poll] is the future of [fetch] (src/lib.rs) as the state machine it compiles
    to; it is a [Caller] of the system of file [Caller].  The claims: a caller of [fetch]
    that waits is never forgotten, its command waits for the commands before it only,
    and it gets the answer of its own query. *)
From S2P Require Import Prelude Time Libp2p PeerInfo AddressHandler Peers PeersInv PeersProps.
From S2P Require Import Protocols Behaviour Net Service NetInv NetProps NetAnswers Growth Config Db Ipfs Caller.

Section Fetch.
Context `{P : Profile} `{C : Chrono} `{L : Libp2p} `{Ch : Channels} `{HO : HashOrder}.
Context `{Pr : !Protocols} `{Sw : !SwarmOps} `{CC : !CommandChannel} `{BS : !BlockStores}.

(** ** The future *)

(** Where the future stands: not polled yet, waiting for its [GetQuery], waiting for the
    result of the query, or finished. *)
Inductive fetching :=
| Fetching
| AwaitsQuery
| AwaitsGet (id : QueryId) (rx : Tx)
| Fetched (r : result IpfsBlock IpfsError).

(** The text of an error of the task. *)
Variable describe : Error -> string.

(** [rx.await] of [NetworkService::get]. *)
Definition get_query (r : net_reply) : option (QueryId * Tx) :=
  match r with NrGetQuery id rx => Some (id, rx) | _ => None end.
Definition query_reply (n : Net) (rx : Tx) : option (QueryId * Tx) := reply_on rx get_query n.

Definition got (rx : Tx) (d : delivery) : option (result (result unit ClientError) ClientError) :=
  match d with
  | Replied t (RUnit r) =>
      if decide (t = rx) then Some (Ok (err_map (fun x => x) (fun e => Message (describe e)) r)) else None
  | Dropped t => if decide (t = rx) then Some (Err (Message "oneshot canceled")) else None
  | _ => None
  end.

(** The poll of the receiver in a [GetQuery]. *)
Definition get_reply (n : Net) (rx : Tx) : Poll (result (result unit ClientError) ClientError) :=
  match head (omap (got rx) (outbox (backend n))) with Some x => Ready x | None => Pending end.

Context (cid : Cid) (providers : list PeerId) (tx : Tx).

Definition fetch_poll (st : Ipfs) (n : Net) (c : fetching) : Ipfs * fetching :=
  match c with
  | Fetching =>
      let '(st, r) := lookup_block st cid in
      match r with
      | Err e => (st, Fetched (Err e))
      | Ok (Some b) => (st, Fetched (Ok b))
      | Ok None =>
          match providers with
          | [] => (st, Fetched (Err (NotFound cid)))
          | _ =>
              let '(net, c) := svc_get (network st) cid providers tx in
              let st := with_network st net in
              match c with
              | ReadyErr e => (st, Fetched (Err (NetworkError e)))
              | Awaits _ => (st, AwaitsQuery)
              end
          end
      end
  | AwaitsQuery =>
      match query_reply n tx with
      | Some (id, rx) => (st, AwaitsGet id rx)
      | None => (st, AwaitsQuery)
      end
  | AwaitsGet id rx =>
      match get_query_poll (get_reply n rx) with
      | Ready r => let '(st, r) := fetch_resume st cid (QueryEnded id r) in (st, Fetched r)
      | Pending => (st, AwaitsGet id rx)
      end
  | Fetched r => (st, Fetched r)
  end.

(** The first poll is the part of [fetch] before it waits, and the last poll the part
    after it. *)
Theorem fetch_poll_start st n :
  match fetch_poll st n Fetching with
  | (st1, Fetched r) => forall world, fetch st cid providers tx world = (st1, r)
  | (st1, AwaitsQuery) => forall world,
      fetch st cid providers tx world =
        let '(s, w) := world (storage st1) in fetch_resume (with_storage st1 s) cid w
  | _ => False
  end.
Proof.
  unfold fetch_poll, fetch. destruct (lookup_block st cid) as [st1 [[b|]|e]]; [done| |done].
  destruct providers as [|p ps]; [done|]. unfold svc_get, request.
  destruct (cmd (network st1) _) as [n' [[m e]|]]; done.
Qed.

(** ** [fetch] as a caller *)

#[local] Instance fetch_caller : Caller fetching := {|
  stage_of := fun c =>
    match c with
    | Fetching => Unasked
    | AwaitsQuery => Asked
    | AwaitsGet id rx => Holds id rx
    | Fetched _ => Over
    end;
  poll_client := fetch_poll;
  own_tx := tx;
  own := fun m => m = Get cid providers tx;
  query_in := get_query;
  channel_of := ChGet;
  completion := fun rx r => Replied rx (RUnit (err_map id OtherError r))
|}.

Lemma got_closes rx d x : got rx d = Some x -> closes d = Some rx.
Proof. destruct d as [t []|t m|t r|t]; cbn; try done; case_decide; naive_solver. Qed.

Lemma open_pending n rx : rx ∉ omap closes (outbox (backend n)) -> omap (got rx) (outbox (backend n)) = [].
Proof.
  intros Ho. apply elem_of_nil_inv. intros x (d & Hin & Hx)%list_elem_of_omap. apply Ho.
  apply list_elem_of_omap. exists d. split; [done|]. by eapply got_closes.
Qed.

(** What the completion of a query is to the caller. *)
Definition to_client (r : result unit AnyError) : result unit ClientError :=
  err_map (fun x => x) (fun e => Message (describe (OtherError e))) r.

Lemma got_completion rx r : got rx (completion rx r) = Some (Ok (to_client r)).
Proof. cbn. rewrite decide_True by done. by destruct r. Qed.

Lemma completion_received n rx r :
  NoDup (ledger (backend n)) -> completion rx r ∈ outbox (backend n) ->
  get_reply n rx = Ready (Ok (to_client r)).
Proof.
  intros Hnd Hin. unfold ledger in Hnd. apply NoDup_app in Hnd as (_ & _ & Hnd).
  apply list_elem_of_split in Hin as (l1 & l2 & E). unfold get_reply. rewrite E in *.
  assert (Ho : omap (got rx) l1 = []).
  { apply elem_of_nil_inv. intros x (d & Hd & Hx)%list_elem_of_omap.
    rewrite omap_app in Hnd. apply NoDup_app in Hnd as (_ & Hnd & _). apply (Hnd rx).
    - apply list_elem_of_omap. exists d. split; [done|]. by eapply got_closes.
    - cbn. by left. }
  rewrite omap_app, Ho. cbn. rewrite decide_True by done. by destruct r.
Qed.

Context `{BI : !BitswapIds} {CCL : CommandChannelLaws}.

Lemma lookup_block_network st : network (lookup_block st cid).1 = network st.
Proof. unfold lookup_block. by destruct (db_get (storage st) cid) as [s [[]|]]. Qed.

Lemma ipfs_get_network st : network (ipfs_get st cid).1 = network st.
Proof. unfold ipfs_get. pose proof (lookup_block_network st). by destruct (lookup_block st cid). Qed.

Lemma fetch_resume_network st id r :
  network (fetch_resume st cid (QueryEnded id r)).1 =
    with_cmd (network st) (get_query_drop (svc_cmd (network st)) id).
Proof. unfold fetch_resume. destruct r; [apply ipfs_get_network|done]. Qed.

#[local] Instance fetch_caller_laws : CallerLaws (CA := fetch_caller).
Proof.
  split.
  - by intros m ->.
  - done.
  - done.
  - intros b j rx r Hq. cbn. unfold answer. by rewrite Hq.
  - intros f n m n' -> E. cbn [handle_command] in E. outcome_inv. destruct x as [b qid]. outcome_inv.
    edestruct get_advances as (j & -> & _ & ? & ? & ?); [done|]. by exists j, (NrGetQuery (BitswapId j) (query_tx f)).
  - intros st n c st' c' E. cbn [poll_client fetch_caller] in E.
    destruct c as [| |qid rx|r]; cbn [fetch_poll] in E.
    + pose proof (lookup_block_network st) as Hn. destruct (lookup_block st cid) as [st1 r1]. cbn in Hn.
      assert (Hq : cmd_queue (svc_cmd (network st1)) = cmd_queue (svc_cmd (network st)) ++ [])
        by (rewrite app_nil_r; by rewrite Hn).
      destruct r1 as [[b|]|e]; [simplify_eq; by exists []| |simplify_eq; by exists []].
      destruct providers as [|p ps] eqn:Ep; [simplify_eq; by exists []|]. unfold svc_get, request, cmd in E.
      rewrite Hn in E. destruct (try_send _ _) as [q [[d m]|]] eqn:Es; cbn in E; simplify_eq; cbn.
      * apply try_send_err in Es as [_ ->]. exists []. by rewrite app_nil_r.
      * apply try_send_ok in Es as ->. eexists. split; [done|]. eexists. split; [done|]. by rewrite Ep.
    + exists []. rewrite app_nil_r. cbn. unfold own_reply. fold (query_reply n tx).
      change (reply_on own_tx query_in n) with (query_reply n tx).
      destruct (query_reply n tx) as [[id rx]|]; by simplify_eq.
    + destruct (get_query_poll _) as [r|]; [|simplify_eq; exists []; by rewrite app_nil_r].
      pose proof (fetch_resume_network st qid r) as Hn. destruct (fetch_resume _ _ _) as [st2 r'].
      simplify_eq. cbn in Hn |- *. rewrite Hn. cbn.
      destruct (get_query_drop_queue (svc_cmd (network st)) qid) as (l & Hl & Hl'). by exists l.
    + simplify_eq. exists []. by rewrite app_nil_r.
  - intros st n c qid rx r Hc Hnd Hin. destruct c; simplify_eq. cbn [poll_client fetch_caller fetch_poll].
    cbn in Hc. injection Hc as -> ->. rewrite (completion_received _ _ _ Hnd Hin). cbn [get_query_poll].
    by destruct (fetch_resume _ _ _).
Qed.

(** ** Claims *)
Context `{CR : !CommandReceiver} {CRL : CommandReceiverLaws} {LL : Libp2pLaws} {HL : HashOrderLaws}.
Context {SL : StoreLaws} (B : Z) (f0 : Fresh).

(** The caller was told the end of its own query [id], as the task handled it; or it has
    heard nothing, hears of the end when it comes, and of nothing else: any other step
    leaves it waiting. *)
Definition fetch_answering (ls : list label) (s : System (Client := fetching)) (id : BitswapQueryId) (rx : Tx) : Prop :=
  (exists r, get_reply (net s) rx = Ready (Ok (to_client r)) /\ Handles (SeBitswap (BitswapComplete id r)) ∈ ls) \/
  (get_reply (net s) rx = Pending /\
   (forall f r n,
      poll_swarm_step f (net s) (InSwarm (Some (SeBitswap (BitswapComplete id r)))) ↓ Continue n ->
      get_reply n rx = Ready (Ok (to_client r))) /\
   forall l s', sys_step B l s s' ->
     get_reply (net s') rx = Pending \/
     exists r, l = Handles (SeBitswap (BitswapComplete id r)) /\ get_reply (net s') rx = Ready (Ok (to_client r))).

Lemma open_reply n rx : rx ∉ omap closes (outbox (backend n)) -> get_reply n rx = Pending.
Proof. intros Ho. unfold get_reply. by rewrite open_pending. Qed.

Lemma completed_reply n n' rx r :
  rx ∉ omap closes (outbox (backend n)) -> outbox (backend n') = outbox (backend n) ++ [completion rx r] ->
  get_reply n' rx = Ready (Ok (to_client r)).
Proof.
  intros Ho E. unfold get_reply. rewrite E, omap_app, open_pending by done. cbn [omap list_omap app].
  by rewrite got_completion.
Qed.

Lemma answering_fetch ls s id rx : sys_ok B s -> answering B ls s id rx -> fetch_answering ls s id rx.
Proof.
  intros H [(r & Hr & Hl)|(Ho & Hc & Hs)].
  { left. exists r. split; [|done]. by apply completion_received; [eapply ok_ledger|]. }
  right. split_and!; [by apply open_reply|intros f r n E; by eapply completed_reply, Hc|].
  intros l s' Hst. destruct (Hs l s' Hst) as [Ho'|(r & -> & E)]; [left; by apply open_reply|].
  right. exists r. split; [done|]. by eapply completed_reply.
Qed.

Lemma ipfs_get_found st st' b :
  ipfs_get st cid = (st', Ok b) -> b.1 = cid /\ blocks (store (storage st)) !! cid = Some b.2.
Proof.
  unfold ipfs_get. destruct (lookup_block st cid) as [st1 [[b'|]|e]] eqn:E; try done. intros [= <- <-].
  destruct (lookup_block_spec _ _ _ _ E eq_refl) as [[= H] _].
  destruct (blocks (store (storage st)) !! cid) as [d|]; [|done]. cbn in H. by simplify_eq.
Qed.

(** The block that is returned is the one in the store when the future finishes. *)
Lemma fetch_poll_found st n c st' b :
  fetch_poll st n c = (st', Fetched (Ok b)) -> (forall r, c <> Fetched r) ->
  b.1 = cid /\ blocks (store (storage st)) !! cid = Some b.2.
Proof.
  intros E Hc. destruct c as [| |qid rx|r]; [| | |by destruct (Hc r)]; cbn [fetch_poll] in E.
  - apply (ipfs_get_found st st'). unfold ipfs_get.
    destruct (lookup_block st cid) as [st1 [[b'|]|e]]; [by simplify_eq| |done].
    destruct providers; [done|]. by destruct (svc_get _ _ _ _) as [? []].
  - by destruct (query_reply n tx) as [[]|].
  - destruct (get_query_poll _) as [[[]|e]|]; cbn [fetch_resume] in E; [|done|done].
    destruct (ipfs_get _ cid) as [st2 r] eqn:Eg. simplify_eq. by apply ipfs_get_found in Eg.
Qed.

(** C3: a caller of [fetch] is never forgotten, and never given the answer of another.
    In any run of a started node with bitswap, with other callers, swarm events and changes
    of the store in any order ([ls] is what the task took and handled), a caller that waits
    for its query has its command in the queue or its query made.  From then on it is
    told the end of this query and nothing else: whatever it was told is the result of a
    completion of its own query that the task handled, and while it was told nothing,
    this completion is the only step that ends its wait.  A block that is returned is the
    one in the store at that moment. *)
Theorem fetch_never_forgotten ls s0 s :
  just_started s0 -> sys_trace B ls s0 s ->
  match client s with
  | AwaitsQuery =>
      (exists q q2, queue s = q ++ Get cid providers tx :: q2) \/
      exists id rx, query_reply (net s) tx = Some (BitswapId id, rx) /\ fetch_answering ls s id rx
  | AwaitsGet qid rx => exists id, qid = BitswapId id /\ query_reply (net s) tx = Some (BitswapId id, rx) /\
      fetch_answering ls s id rx
  | _ => True
  end /\
  forall st b, fetch_poll (node s) (net s) (client s) = (st, Fetched (Ok b)) ->
    (forall r, client s <> Fetched r) -> b.1 = cid /\ blocks (store (storage (node s))) !! cid = Some b.2.
Proof.
  intros H0 Hr. pose proof (trace_ok B _ _ _ (started_ok B _ H0) Hr) as H.
  split; [|intros st b; apply fetch_poll_found].
  pose proof (caller_waits B ls s0 s H0 Hr) as Hw. destruct (client s) as [| |qid rx|r]; [done| | |done].
  - destruct Hw as [(q & m & q2 & -> & Eq)|(id & rx & Hq & _ & Ha)]; [left; by eauto|].
    right. exists id, rx. split; [done|]. by apply answering_fetch.
  - destruct Hw as (id & -> & Hq & _ & Ha). exists id. split_and!; [done|done|]. by apply answering_fetch.
Qed.

(** C4: a caller of [fetch] is served in turn.  Once its command is in the queue, no
    later command overtakes it: when the task has taken as many commands as were
    before it and one more, its query is made, whatever else happens.  And from every
    state the caller can finish, after the task has taken at most one command more
    than were in the queue: the node never gets stuck. *)
Theorem fetch_served k s0 s :
  just_started s0 -> sys_run B k s0 s ->
  (forall q q2 n s', client s = AwaitsQuery -> query_reply (net s) tx = None ->
     queue s = q ++ Get cid providers tx :: q2 -> sys_run B n s s' -> length q < n ->
     exists id rx, query_reply (net s') tx = Some (BitswapId id, rx)) /\
  exists n s' r, sys_run B n s s' /\ n <= S (length (queue s)) /\ client s' = Fetched r.
Proof.
  intros H0%(started_ok B) Hr. pose proof (run_ok B _ _ _ H0 Hr) as H. split.
  - intros q q2 n s' Hc Hn Eq Hr' Hk.
    destruct (caller_served B s q (Get cid providers tx) q2 n s') as (id & rx & E); try done; [by rewrite Hc|].
    exists id, rx. exact E.
  - destruct (finish_always B f0 s H) as (n & s' & Hs & Hn & Ho).
    destruct (client s') as [| | |r] eqn:Ec; try done. by exists n, s', r.
Qed.
End Fetch.

(** ** A run on the concrete interfaces *)
Section FetchWitness.
Import NetDemo Sim SimProtocols SimService SimGrowth SimStore.

Definition plain (e : @Error sim sim_protocols) : string := "error".
Definition sim_poll := fetch_poll plain (cid 7) [bob] 5.
#[local] Instance sim_fetch : Caller fetching := fetch_caller plain (cid 7) [bob] 5.
Definition sim_system := @System utc_nanos sim sim_channels sim_protocols sim_swarm_ops sim_commands sim_store
  (@fetching sim sim_protocols sim_store).

Definition s0 : sim_system := mkSystem Ipfs.node start {[5]} Fetching.
Definition asked_at : sim_system :=
  mkSystem (sim_poll Ipfs.node start Fetching).1 start {[5]} (sim_poll Ipfs.node start Fetching).2.
Definition own_get := InCommand (Some (Get (cid 7) [bob] 5)).
Definition taken : @CmdTx sim sim_channels sim_protocols sim_commands :=
  match cmd_next (commands asked_at) with Some (_, q) => q | None => commands asked_at end.
Definition served_at : sim_system :=
  mkSystem (with_queue (node asked_at) taken) (next (poll_swarm_step (env 9) start own_get)) {[9; 5]}
    (client asked_at).

Lemma sim_started : just_started s0.
Proof. split; [by do 9 eexists|done]. Qed.

Lemma sim_asks : sys_run 0 0 s0 asked_at.
Proof. apply (run_one 0 Silent), step_poll. reflexivity. Qed.

Lemma sim_served : sys_run 0 1 s0 served_at.
Proof.
  eapply (run_trans 0 0 1); [apply sim_asks|].
  apply (run_one 0 Takes), (step_serve 0 asked_at (env 9) (Get (cid 7) [bob] 5)).
  - reflexivity.
  - refine (bool_decide_eq_true_1 _ _). vm_compute. reflexivity.
  - apply goes_on_next. vm_compute. reflexivity.
Qed.

(** Bitswap completes another query and then the one of the caller; the caller is told of
    its own. *)
Definition foreign := SeBitswap (BitswapComplete (L := sim) (bid 77) (Ok tt)).
Definition own_end := SeBitswap (BitswapComplete (L := sim) (bid 0) (Err "no peers"%string)).
Definition after_foreign : sim_system := with_net served_at (next (poll_swarm_step (env 4) (net served_at) (InSwarm (Some foreign)))).
Definition after_own : sim_system := with_net after_foreign (next (poll_swarm_step (env 4) (net after_foreign) (InSwarm (Some own_end)))).

Lemma sim_trace : sys_trace 0 [Silent; Takes; Handles foreign; Handles own_end] s0 after_own.
Proof.
  apply (trace_snoc 0 [Silent; Takes; Handles foreign] (Handles own_end) s0 after_foreign);
    [apply (trace_snoc 0 [Silent; Takes] (Handles foreign) s0 served_at);
      [apply (trace_snoc 0 [Silent] Takes s0 asked_at); [apply (trace_snoc 0 [] Silent s0 s0); [constructor|]|]|]|].
  - apply step_poll. reflexivity.
  - apply (step_serve 0 asked_at (env 9) (Get (cid 7) [bob] 5)).
    + reflexivity.
    + refine (bool_decide_eq_true_1 _ _). vm_compute. reflexivity.
    + apply goes_on_next. vm_compute. reflexivity.
  - apply (step_event 0 served_at (env 4)); [exact I|]. apply goes_on_next. vm_compute. reflexivity.
  - apply (step_event 0 after_foreign (env 4)); [exact I|]. apply goes_on_next. vm_compute. reflexivity.
Qed.

Lemma fetch_never_forgotten_witness : exists id rx,
  query_reply (net after_own) 5 = Some (BitswapId id, rx) /\
  fetch_answering plain (cid 7) [bob] 5 0 [Silent; Takes; Handles foreign; Handles own_end] after_own id rx.
Proof.
  destruct (fetch_never_forgotten plain (cid 7) [bob] 5 0 _ s0 after_own sim_started sim_trace)
    as [[(q & q2 & E)|H] _].
  - exfalso. assert (Hq : queue after_own = []) by reflexivity. rewrite Hq in E. by destruct q.
  - exact H.
Defined.

Lemma fetch_served_witness : exists n s' r,
  sys_run 0 n asked_at s' /\ n <= 2 /\ client s' = Fetched r.
Proof. apply (fetch_served plain (cid 7) [bob] 5 0 (env 3) 0 s0 asked_at sim_started sim_asks). Defined.
End FetchWitness.
