(* ===== verification/SyncSystem.v ===== *)
(** * [Ipfs::sync] beside the network task

    [sync_poll] is the future [ipfs.sync(cid, providers).await?.await?] (src/lib.rs, with
    [NetworkService::sync] and [Future for SyncQuery] of src/net/mod.rs): the missing
    blocks are asked of the store, the command is sent, and the events of the query are
    read until its completion.  It is a [Caller] of the system of file [Caller].  The
    claims: a caller of [sync] is never forgotten and can always finish, it passes over
    the progress of its own query in order, and it reports success only if no block was
    reported missing or if its own query was completed. *)
From S2P Require Import Prelude Time Libp2p PeerInfo AddressHandler Peers PeersInv PeersProps.
From S2P Require Import Protocols Behaviour Net Service NetInv NetProps NetAnswers Growth Config Db Ipfs Caller.

Section Sync.
Context `{P : Profile} `{C : Chrono} `{L : Libp2p} `{Ch : Channels} `{HO : HashOrder}.
Context `{Pr : !Protocols} `{Sw : !SwarmOps} `{CC : !CommandChannel} `{BS : !BlockStores}.

(** ** The future *)

(** Where the future stands: not called yet, waiting for its [SyncQuery], holding one made
    by [SyncQuery::ready], reading the events of a query, or finished.  What the reader
    has passed over are reports of progress, as the first completion ends it; so a poll
    is on all that has arrived ([stream_poll] below). *)
Inductive syncing :=
| Syncing
| AwaitsSyncQuery
| HoldsReady (r : result unit ClientError)
| Streams (id : QueryId) (rx : Tx)
| Synced (r : result unit ClientError).

Variable describe : Error -> string.

Definition sync_query (r : net_reply) : option (QueryId * Tx) :=
  match r with NrSyncQuery id rx => Some (id, rx) | _ => None end.

(** What arrives on the channel of a sync query. *)
Definition sync_got (rx : Tx) (d : delivery) : option SyncEvent :=
  match d with
  | SyncProgress t m => if decide (t = rx) then Some (Progress m) else None
  | SyncComplete t r =>
      if decide (t = rx) then Some (Complete (err_map (fun x => x) (fun e => Message (describe e)) r)) else None
  | _ => None
  end.
Definition sync_events (n : Net) (rx : Tx) : list SyncEvent := omap (sync_got rx) (outbox (backend n)).

(** The loop of [SyncQuery::poll] on the events that have arrived: the first completion. *)
Fixpoint first_complete (l : list SyncEvent) : option (result unit ClientError) :=
  match l with
  | [] => None
  | Complete r :: _ => Some r
  | Progress _ :: l => first_complete l
  end.

Section Call.
Context (cid : Cid) (providers : list PeerId) (tx : Tx).

Definition sync_poll (st : Ipfs) (n : Net) (c : syncing) : Ipfs * syncing :=
  match c with
  | Syncing =>
      let '(st, call) := ipfs_sync st cid providers tx in
      (st, match call with
           | SyncReady r => HoldsReady r
           | SyncCall (ReadyErr e) => Synced (Err e)
           | SyncCall (Awaits _) => AwaitsSyncQuery
           end)
  | AwaitsSyncQuery =>
      match reply_on tx sync_query n with
      | Some (id, rx) => (st, Streams id rx)
      | None => (st, AwaitsSyncQuery)
      end
  | HoldsReady r => (st, Synced r)
  | Streams id rx =>
      match first_complete (sync_events n rx) with
      | Some r =>
          let c := default (svc_cmd (network st)) (sync_query_drop (Some id) (Some (svc_cmd (network st)))) in
          (with_network st (with_cmd (network st) c), Synced r)
      | None => (st, Streams id rx)
      end
  | Synced r => (st, Synced r)
  end.

(** ** [sync] as a caller *)

#[local] Instance sync_caller : Caller syncing := {|
  stage_of := fun c =>
    match c with
    | Syncing => Unasked
    | AwaitsSyncQuery => Asked
    | Streams id rx => Holds id rx
    | HoldsReady _ | Synced _ => Over
    end;
  poll_client := sync_poll;
  own_tx := tx;
  own := fun m => exists missing, m = Sync cid providers missing tx;
  query_in := sync_query;
  channel_of := ChSync;
  completion := fun rx r => SyncComplete rx (err_map id OtherError r)
|}.

(** *** What is read *)

Lemma sync_got_closes rx d e : sync_got rx d = Some e -> is_complete e = true -> closes d = Some rx.
Proof. destruct d as [t r|t m|t r|t]; cbn; try done; case_decide; naive_solver. Qed.

Lemma first_complete_app l l' :
  first_complete (l ++ l') = match first_complete l with Some r => Some r | None => first_complete l' end.
Proof. induction l as [|[m|r] l IH]; [done|exact IH|done]. Qed.

Lemma first_complete_elem l r : first_complete l = Some r -> Complete r ∈ l.
Proof. induction l as [|[m|r'] l IH]; cbn; [done|set_solver|]. intros [= ->]. by left. Qed.

Lemma first_complete_none l : (forall r, Complete r ∉ l) -> first_complete l = None.
Proof.
  intros H. destruct (first_complete l) as [r|] eqn:E; [|done]. apply first_complete_elem in E. by destruct (H r).
Qed.

(** The events that a lawful receiver still holds, after it has passed over progress,
    give the poll of the source. *)
Lemma stream_poll `{Rx : !Receivers} {RL : ReceiverLaws} n rx k (q : Receiver SyncEvent) :
  rx_queue q = drop k (sync_events n rx) -> rx_closed q = false ->
  first_complete (take k (sync_events n rx)) = None ->
  exists q', sync_query_poll (S (length (rx_queue q))) q =
    Some (q', match first_complete (sync_events n rx) with Some r => Ready r | None => Pending end).
Proof.
  intros Eq Hc Ht. pose proof (sync_query_poll_run (S (length (rx_queue q))) q ltac:(lia)) as H.
  rewrite <- (take_drop k (sync_events n rx)), first_complete_app, Ht, <- Eq.
  assert (Hf : forall l, first_complete l =
    match list_find (fun e => is_complete e = true) l with Some (_, Complete r) => Some r | _ => None end).
  { clear. induction l as [|[m|r] l IH]; [done| |by cbn; rewrite decide_True].
    cbn. rewrite decide_False by done. rewrite IH. by destruct (list_find _ l) as [[]|]. }
  rewrite Hf. destruct (list_find _ _) as [[i e]|].
  - destruct H as (q' & r & -> & E). by exists q'.
  - rewrite Hc in H. destruct H as (q' & E & _). by exists q'.
Qed.

(** What the completion of a query is to the caller. *)
Definition sync_result (r : result unit AnyError) : result unit ClientError :=
  err_map (fun x => x) (fun e => Message (describe (OtherError e))) r.

Lemma got_sync_completion rx r : sync_got rx (completion rx r) = Some (Complete (sync_result r)).
Proof. cbn. rewrite decide_True by done. by destruct r. Qed.

Lemma sync_open n rx : rx ∉ omap closes (outbox (backend n)) -> first_complete (sync_events n rx) = None.
Proof.
  intros Ho. apply first_complete_none. intros r (d & Hin & Hd)%list_elem_of_omap. apply Ho.
  apply list_elem_of_omap. exists d. split; [done|]. by eapply sync_got_closes.
Qed.

(** One completion arrives, and it is the first. *)
Lemma sync_completed n rx r :
  NoDup (ledger (backend n)) -> completion rx r ∈ outbox (backend n) ->
  first_complete (sync_events n rx) = Some (sync_result r).
Proof.
  intros Hnd Hin. unfold ledger in Hnd. apply NoDup_app in Hnd as (_ & _ & Hnd).
  apply list_elem_of_split in Hin as (l1 & l2 & E). unfold sync_events. rewrite E in *.
  rewrite omap_app, first_complete_app. rewrite omap_app in Hnd.
  apply NoDup_app in Hnd as (_ & Hnd & _). rewrite first_complete_none.
  - cbn [omap list_omap]. by rewrite got_sync_completion.
  - intros x (d & Hd & Hx)%list_elem_of_omap. apply (Hnd rx).
    + apply list_elem_of_omap. exists d. split; [done|]. by eapply sync_got_closes.
    + cbn. by left.
Qed.

Context `{BI : !BitswapIds} {CCL : CommandChannelLaws}.

Lemma sync_drop_queue (c : CmdTx) id : exists l,
  cmd_queue (default c (sync_query_drop (Some id) (Some c))) = cmd_queue c ++ l /\ (l = [] \/ l = [CancelQuery id]).
Proof. apply (get_query_drop_queue c id). Qed.

#[local] Instance sync_caller_laws : CallerLaws (CA := sync_caller).
Proof.
  split.
  - by intros m [ms ->].
  - done.
  - done.
  - intros b j rx r Hq. cbn. unfold answer. by rewrite Hq.
  - intros f n m n' [ms ->] E. cbn [handle_command] in E. outcome_inv. destruct x as [b qid]. outcome_inv.
    edestruct sync_advances as (j & -> & _ & ? & ? & ?); [done|]. by exists j, (NrSyncQuery (BitswapId j) (query_tx f)).
  - intros st n c st' c' E. cbn [poll_client sync_caller] in E.
    destruct c as [| |r|qid rx|r]; cbn [sync_poll] in E.
    + unfold ipfs_sync, svc_sync in E. destruct (db_missing_blocks (storage st) cid) as [s r].
      destruct (match r with Ok l => l | Err _ => [] end) as [|m ms]; [simplify_eq; exists []; by rewrite app_nil_r|].
      destruct providers as [|p ps] eqn:Ep; [simplify_eq; exists []; by rewrite app_nil_r|].
      unfold request, cmd in E. destruct (try_send _ _) as [q [[d m']|]] eqn:Es; cbn in E; simplify_eq; cbn.
      * apply try_send_err in Es as [_ ->]. exists []. by rewrite app_nil_r.
      * apply try_send_ok in Es as ->. eexists. split; [done|]. eexists. split; [by exists (m :: ms)|]. by rewrite Ep.
    + exists []. rewrite app_nil_r. cbn.
      change (own_reply n) with (reply_on tx sync_query n).
      destruct (reply_on tx sync_query n) as [[id rx]|]; by simplify_eq.
    + simplify_eq. exists []. by rewrite app_nil_r.
    + destruct (first_complete _) as [r|]; [|simplify_eq; exists []; by rewrite app_nil_r].
      simplify_eq. cbn. destruct (sync_drop_queue (svc_cmd (network st)) qid) as (l & Hl & Hl'). by exists l.
    + simplify_eq. exists []. by rewrite app_nil_r.
  - intros st n c qid rx r Hc Hnd Hin. destruct c; simplify_eq. cbn [poll_client sync_caller sync_poll].
    cbn in Hc. injection Hc as -> ->. by rewrite (sync_completed _ _ _ Hnd Hin).
Qed.

(** ** Claims *)
Context `{CR : !CommandReceiver} {CRL : CommandReceiverLaws} {LL : Libp2pLaws} {HL : HashOrderLaws}.
Context (B : Z) (f0 : Fresh).

(** What an event of bitswap is to the reader of query [id]. *)
Definition report (id : BitswapQueryId) (ev : BitswapEvent) : list SyncEvent :=
  match ev with
  | BitswapProgress j missing => if decide (j = id) then [Progress missing] else []
  | BitswapComplete j r => if decide (j = id) then [Complete (sync_result r)] else []
  end.

(** The caller was told the end of its own query [id], as the task handled it; or it was
    not, reads every report of bitswap on this query as it comes and none on another, and
    only the end of this query is read as its end. *)
Definition sync_answering (ls : list label) (s : System (Client := syncing)) (id : BitswapQueryId) (rx : Tx) : Prop :=
  (exists r, first_complete (sync_events (net s) rx) = Some (sync_result r) /\
     Handles (SeBitswap (BitswapComplete id r)) ∈ ls) \/
  (first_complete (sync_events (net s) rx) = None /\
   (forall f ev n, poll_swarm_step f (net s) (InSwarm (Some (SeBitswap ev))) ↓ Continue n ->
      sync_events n rx = sync_events (net s) rx ++ report id ev) /\
   forall l s', sys_step B l s s' ->
     first_complete (sync_events (net s') rx) = None \/
     exists r, l = Handles (SeBitswap (BitswapComplete id r)) /\
       first_complete (sync_events (net s') rx) = Some (sync_result r)).

(** Other queries have other channels. *)
Lemma channels_differ b i j ci cj :
  NoDup (ledger b) -> queries b !! i = Some ci -> queries b !! j = Some cj -> i <> j -> tx_of ci <> tx_of cj.
Proof.
  intros Hnd Hi Hj Hij E. unfold ledger in Hnd. apply NoDup_app in Hnd as (Hnd & _).
  rewrite <- (insert_id _ _ _ Hi), <- insert_delete_eq, live_insert in Hnd by apply lookup_delete_eq.
  apply NoDup_cons in Hnd as [Hnd _]. apply Hnd. rewrite E. unfold live. apply list_elem_of_fmap. exists cj. split; [done|].
  apply list_elem_of_fmap. exists (j, cj). split; [done|]. apply elem_of_map_to_list. by rewrite lookup_delete_ne.
Qed.

Lemma reported b id rx ev :
  NoDup (ledger b) -> queries b !! BitswapId id = Some (ChSync rx) ->
  omap (sync_got rx) (outbox (inject_bitswap_event b ev)) = omap (sync_got rx) (outbox b) ++ report id ev.
Proof.
  intros Hnd Hq. destruct ev as [j m|j r]; cbn -[decide]; case_decide as Hj; [subst j| |subst j|].
  - rewrite Hq. cbn. rewrite omap_app. cbn. by rewrite decide_True.
  - rewrite app_nil_r. destruct (queries b !! BitswapId j) as [ch|] eqn:Ej; [|done].
    assert (rx <> tx_of ch) by (apply (channels_differ b (BitswapId id) (BitswapId j) _ _ Hnd Hq Ej); congruence).
    destruct ch; try done. cbn in *. rewrite omap_app. cbn. by rewrite decide_False, app_nil_r by done.
  - unfold answer. rewrite Hq. cbn. rewrite omap_app. cbn. rewrite decide_True by done. by destruct r.
  - rewrite app_nil_r. unfold answer. destruct (queries b !! BitswapId j) as [ch|] eqn:Ej; [|done].
    assert (rx <> tx_of ch) by (apply (channels_differ b (BitswapId id) (BitswapId j) _ _ Hnd Hq Ej); congruence).
    cbn. rewrite omap_app. cbn. destruct ch; cbn in *; rewrite ?decide_False by done; by rewrite app_nil_r.
Qed.

Lemma completed_events n n' rx r :
  rx ∉ omap closes (outbox (backend n)) -> outbox (backend n') = outbox (backend n) ++ [completion rx r] ->
  first_complete (sync_events n' rx) = Some (sync_result r).
Proof.
  intros Ho%sync_open E. unfold sync_events in *. rewrite E, omap_app, first_complete_app, Ho. cbn [omap list_omap].
  by rewrite got_sync_completion.
Qed.

Lemma tracked_sync ls s id rx : sys_ok B s -> tracked s id rx -> answering B ls s id rx -> sync_answering ls s id rx.
Proof.
  intros H Ht [(r & Hr & Hl)|(Ho & _ & Hs)].
  { left. exists r. split; [|done]. by apply sync_completed; [eapply ok_ledger|]. }
  right. split_and!; [by apply sync_open| |].
  - intros f ev n E. assert (Hq : queries (backend (net s)) !! BitswapId id = Some (ChSync rx)).
    { pose proof Ht as (_ & _ & _ & [Hq|[r Hr]]); [done|]. destruct Ho. apply list_elem_of_omap. by eexists. }
    cbn in E. injection E as <-. by apply reported; [eapply ok_ledger|].
  - intros l s' Hst. destruct (Hs l s' Hst) as [Ho'|(r & -> & E)]; [left; by apply sync_open|].
    right. exists r. split; [done|]. by eapply completed_events.
Qed.

Lemma sync_poll_success st n c st' :
  sync_poll st n c = (st', Synced (Ok tt)) -> (forall r, c <> Synced r) ->
  c = HoldsReady (Ok tt) \/
  exists qid rx, c = Streams qid rx /\ completion rx (Ok tt) ∈ outbox (backend n).
Proof.
  intros E Hc. destruct c as [| |r|qid rx|r]; [| | | |by destruct (Hc r)]; cbn [sync_poll] in E.
  - destruct (ipfs_sync st cid providers tx) as [st1 [r|[e|t]]]; by simplify_eq.
  - by destruct (reply_on tx sync_query n) as [[]|].
  - left. by simplify_eq.
  - right. exists qid, rx. split; [done|].
    destruct (first_complete _) as [r|] eqn:Ef; [|done]. simplify_eq.
    apply first_complete_elem in Ef. apply list_elem_of_omap in Ef as (d & Hin & Hd).
    destruct d as [t x|t m|t x|t]; cbn in Hd; try done; case_decide; try done.
    subst t. by destruct x as [[]|]; simplify_eq.
Qed.

(** A query that is ready at once is a success if no block is missing, or if the store
    could not tell. *)
Lemma sync_poll_ready st n st' :
  sync_poll st n Syncing = (st', HoldsReady (Ok tt)) ->
  (db_missing_blocks (storage st) cid).2 = Ok [] \/ exists e, (db_missing_blocks (storage st) cid).2 = Err e.
Proof.
  cbn. unfold ipfs_sync, svc_sync. destruct (db_missing_blocks (storage st) cid) as [s [[|m ms]|e]]; [by left| |eauto].
  destruct providers; [done|]. cbn. by destruct (request _ _ _) as [? []].
Qed.

(** C5: a caller of [sync] is never forgotten, and never misled by another query.  In any
    run of a started node with bitswap, with other callers, swarm events and changes of
    the store in any order ([ls] is what the task took and handled), a caller that waits
    for its query has its command in the queue or its query made; from then on it reads
    every report of bitswap on this query, and none on another, and takes nothing but the
    end of this query for its end.  It reports success only if the task handled a completion
    of its own query without an error, or if, when it was called, the store named no
    missing block or failed to say which are missing. *)
Theorem sync_never_forgotten ls s0 s :
  just_started s0 -> sys_trace B ls s0 s ->
  match client s with
  | AwaitsSyncQuery =>
      (exists missing q q2, queue s = q ++ Sync cid providers missing tx :: q2) \/
      exists id rx, reply_on tx sync_query (net s) = Some (BitswapId id, rx) /\ sync_answering ls s id rx
  | Streams qid rx => exists id, qid = BitswapId id /\ reply_on tx sync_query (net s) = Some (BitswapId id, rx) /\
      sync_answering ls s id rx
  | _ => True
  end /\
  (forall st, sync_poll (node s) (net s) (client s) = (st, Synced (Ok tt)) -> (forall r, client s <> Synced r) ->
     client s = HoldsReady (Ok tt) \/
     exists id rx, client s = Streams (BitswapId id) rx /\ Handles (SeBitswap (BitswapComplete id (Ok tt))) ∈ ls) /\
  (forall st, sync_poll (node s) (net s) Syncing = (st, HoldsReady (Ok tt)) ->
     (db_missing_blocks (storage (node s)) cid).2 = Ok [] \/
     exists e, (db_missing_blocks (storage (node s)) cid).2 = Err e).
Proof.
  intros H0 Hr. pose proof (trace_ok B _ _ _ (started_ok B _ H0) Hr) as H. pose proof (caller_waits B ls s0 s H0 Hr) as Hw.
  split_and!; [|clear Hw|intros st; apply sync_poll_ready].
  - destruct (client s) as [| |r|qid rx|r]; try done.
    + destruct Hw as [(q & m & q2 & [ms ->] & Eq)|(id & rx & Hq & Ht & Ha)]; [left; by eauto|].
      right. exists id, rx. split; [done|by apply tracked_sync].
    + destruct Hw as (id & -> & Hq & Ht & Ha). exists id. split_and!; [done|done|by apply tracked_sync].
  - intros st E Hc. destruct (sync_poll_success _ _ _ _ E Hc) as [?|(qid & rx & Ec & Hin)]; [by left|right].
    pose proof (caller_waits B ls s0 s H0 Hr) as Hw. rewrite Ec in Hw. destruct Hw as (id & -> & Hq & _).
    assert (Hwt : waits s = true) by (unfold waits; by rewrite Ec).
    destruct (trace_completion B ls s0 s id rx _ H0 Hr Hwt Hq Hin) as (r & Hl & Er); [done|].
    exists id, rx. split; [done|]. by destruct r as [[]|e].
Qed.

(** C6: a caller of [sync] is served in turn and can always finish: when the task has
    taken as many commands as were before its own and one more, its query is made; and
    from every state the caller can finish after the task has taken at most one command
    more than were in the queue, so that the loop of [SyncQuery::poll] is never left
    without a completion while the node runs. *)
Theorem sync_served k s0 s :
  just_started s0 -> sys_run B k s0 s ->
  (forall missing q q2 n s', client s = AwaitsSyncQuery -> reply_on tx sync_query (net s) = None ->
     queue s = q ++ Sync cid providers missing tx :: q2 -> sys_run B n s s' -> length q < n ->
     exists id rx, reply_on tx sync_query (net s') = Some (BitswapId id, rx)) /\
  exists n s' r, sys_run B n s s' /\ n <= S (length (queue s)) /\ client s' = Synced r.
Proof.
  intros H0%(started_ok B) Hr. pose proof (run_ok B _ _ _ H0 Hr) as H. split.
  - intros ms q q2 n s' Hc Hn Eq Hr' Hk.
    destruct (caller_served B s q (Sync cid providers ms tx) q2 n s') as (id & rx & E); try done;
      [by rewrite Hc|by exists ms|]. exists id, rx. exact E.
  - destruct (finish_always B f0 s H) as (n & s' & Hs & Hn & Ho).
    destruct (client s') as [| |r| |r] eqn:Ec; try done; [|by exists n, s', r].
    exists (n + 0), (mkSystem (node s') (net s') (names s') (Synced r)), r. split_and!; [|lia|done].
    eapply run_trans; [exact Hs|]. apply (run_one B Silent), step_poll. by rewrite Ec.
Qed.
End Call.
End Sync.

(** ** A run on the concrete interfaces *)
Section SyncWitness.
Import NetDemo Sim SimProtocols SimService SimGrowth SimStore.

Definition untold (e : @Error sim sim_protocols) : string := "error".
Definition sim_sync_poll := sync_poll untold (cid 7) [bob] 5.
#[local] Instance sim_sync : Caller syncing := sync_caller untold (cid 7) [bob] 5.
Definition sync_system := @System utc_nanos sim sim_channels sim_protocols sim_swarm_ops sim_commands sim_store
  (@syncing sim sim_protocols).

Definition sync_s0 : sync_system := mkSystem Ipfs.node start {[5]} Syncing.
Definition sync_asked : sync_system :=
  mkSystem (sim_sync_poll Ipfs.node start Syncing).1 start {[5]} (sim_sync_poll Ipfs.node start Syncing).2.
Definition own_sync := InCommand (Some (Sync (cid 7) [bob] [cid 7] 5)).
Definition sync_taken : @CmdTx sim sim_channels sim_protocols sim_commands :=
  match cmd_next (commands sync_asked) with Some (_, q) => q | None => commands sync_asked end.
Definition sync_made : sync_system :=
  mkSystem (with_queue (node sync_asked) sync_taken) (next (poll_swarm_step (env 9) start own_sync)) {[9; 5]}
    (client sync_asked).

Lemma sync_started : just_started sync_s0.
Proof. split; [by do 9 eexists|done]. Qed.

Lemma sync_asks : sys_run 0 0 sync_s0 sync_asked.
Proof. apply (run_one 0 Silent), step_poll. reflexivity. Qed.

Lemma sync_makes : sys_run 0 1 sync_s0 sync_made.
Proof.
  eapply (run_trans 0 0 1); [apply sync_asks|].
  apply (run_one 0 Takes), (step_serve 0 sync_asked (env 9) (Sync (cid 7) [bob] [cid 7] 5)).
  - reflexivity.
  - refine (bool_decide_eq_true_1 _ _). vm_compute. reflexivity.
  - apply goes_on_next. vm_compute. reflexivity.
Qed.

(** Bitswap completes another query and then reports on the one of the caller. *)
Definition not_ours := SeBitswap (BitswapComplete (L := sim) (bid 77) (Ok tt)).
Definition ours := SeBitswap (BitswapProgress (L := sim) (bid 0) 1).
Definition past_foreign : sync_system := with_net sync_made (next (poll_swarm_step (env 4) (net sync_made) (InSwarm (Some not_ours)))).
Definition past_report : sync_system := with_net past_foreign (next (poll_swarm_step (env 4) (net past_foreign) (InSwarm (Some ours)))).

Lemma sync_trace : sys_trace 0 [Silent; Takes; Handles not_ours; Handles ours] sync_s0 past_report.
Proof.
  apply (trace_snoc 0 [Silent; Takes; Handles not_ours] (Handles ours) sync_s0 past_foreign);
    [apply (trace_snoc 0 [Silent; Takes] (Handles not_ours) sync_s0 sync_made);
      [apply (trace_snoc 0 [Silent] Takes sync_s0 sync_asked); [apply (trace_snoc 0 [] Silent sync_s0 sync_s0); [constructor|]|]|]|].
  - apply step_poll. reflexivity.
  - apply (step_serve 0 sync_asked (env 9) (Sync (cid 7) [bob] [cid 7] 5)).
    + reflexivity.
    + refine (bool_decide_eq_true_1 _ _). vm_compute. reflexivity.
    + apply goes_on_next. vm_compute. reflexivity.
  - apply (step_event 0 sync_made (env 4)); [exact I|]. apply goes_on_next. vm_compute. reflexivity.
  - apply (step_event 0 past_foreign (env 4)); [exact I|]. apply goes_on_next. vm_compute. reflexivity.
Qed.

Lemma sync_never_forgotten_witness : exists id rx,
  reply_on 5 sync_query (net past_report) = Some (BitswapId id, rx) /\
  sync_answering untold (cid 7) [bob] 5 0 [Silent; Takes; Handles not_ours; Handles ours] past_report id rx.
Proof.
  destruct (sync_never_forgotten untold (cid 7) [bob] 5 0 _ sync_s0 past_report sync_started sync_trace)
    as [[(ms & q & q2 & E)|H] _].
  - exfalso. assert (Hq : queue past_report = []) by reflexivity. rewrite Hq in E. by destruct q.
  - exact H.
Defined.

Lemma sync_served_witness : exists n s' r,
  sys_run 0 n sync_asked s' /\ n <= 2 /\ client s' = Synced r.
Proof. apply (sync_served untold (cid 7) [bob] 5 0 (env 3) 0 sync_s0 sync_asked sync_started sync_asks). Defined.
End SyncWitness.
