(* ===== verification/SharedVar.v ===== *)
(** * Shared variables (src/variable.rs)

    A [Writer] and its [Reader]s share one value behind a readers-writer lock
    ([parking_lot::RwLock], which makes new readers wait while a writer waits).  A
    task is a sequence of lock instructions; the operations of the file are the
    sequences of Section [Operations]; [sys_step] interleaves tasks in any order.
    Shown here: tasks that take locks in a fixed order and let go of what they took
    are never stuck and all return; and a reader only ever sees a value from between
    the critical sections of the writer. *)
From S2P Require Import Prelude.

Section Cells.
Context {V : Type} `{EqDecision V} {cell : V -> Type}.

Definition cells := forall v : V, cell v.

Definition update (s : cells) (v : V) (x : cell v) : cells := fun w =>
  match decide (v = w) with
  | left E => eq_rect v cell x w E
  | right _ => s w
  end.

Lemma update_eq s v x : update s v x v = x.
Proof.
  unfold update. destruct (decide (v = v)) as [E|]; [|done]. by rewrite (proof_irrel E eq_refl).
Qed.

Lemma update_ne s v x w : v <> w -> update s v x w = s w.
Proof. unfold update. by destruct (decide (v = w)). Qed.

Inductive instr :=
| ReadLock (v : V)
| WriteLock (v : V)
| Look (v : V)
| Modify (v : V) (f : cell v -> cell v)
| Release (v : V).

(** A guard: of which variable, and whether it is a write guard. *)
Definition guard : Type := V * bool.

Definition after_held (i : instr) (h : list guard) : list guard :=
  match i with
  | ReadLock v => (v, false) :: h
  | WriteLock v => (v, true) :: h
  | Release v => filter (fun g => g.1 <> v) h
  | Look _ | Modify _ _ => h
  end.

Definition after_store (i : instr) (s : cells) : cells :=
  match i with Modify v f => update s v (f (s v)) | _ => s end.

(** What a task sees through its guard. *)
Definition observation : Type := {v : V & cell v}.
Definition observe (i : instr) (s : cells) : list observation :=
  match i with Look v => [existT v (s v)] | _ => [] end.

Record task := mkTask { code : list instr; held : list guard }.

Definition start (c : list instr) : task := mkTask c [].

Record sys := mkSys {
  store : cells;
  tasks : list task;
  log : list (nat * observation)
}.

(** *** The lock *)
Definition next_write (t : task) : option V :=
  match code t with WriteLock v :: _ => Some v | _ => None end.

Definition lets_read (v : V) (t : task) : Prop := ((v, true) ∉ held t) /\ next_write t <> Some v.
Definition lets_write (v : V) (t : task) : Prop := ((v, true) ∉ held t) /\ ((v, false) ∉ held t).

Definition can_do (ts : list task) (i : instr) : Prop :=
  match i with
  | ReadLock v => Forall (lets_read v) ts
  | WriteLock v => Forall (lets_write v) ts
  | _ => True
  end.

#[export] Instance can_do_dec ts i : Decision (can_do ts i).
Proof. destruct i; unfold can_do, lets_read, lets_write; apply _. Defined.

Definition do_instr (s : sys) (n : nat) (i : instr) (t' : task) : sys :=
  mkSys (after_store i (store s)) (<[n := t']> (tasks s)) (log s ++ (pair n <$> observe i (store s))).

Inductive sys_step : sys -> sys -> Prop :=
| sys_step_intro s n t i rest :
    tasks s !! n = Some t -> code t = i :: rest -> can_do (tasks s) i ->
    sys_step s (do_instr s n i (mkTask rest (after_held i (held t)))).

(** A run by the numbers of the tasks that move. *)
Definition sys_do (s : sys) (n : nat) : option sys :=
  match tasks s !! n with
  | Some (mkTask (i :: rest) h) =>
      if decide (can_do (tasks s) i) then Some (do_instr s n i (mkTask rest (after_held i h))) else None
  | _ => None
  end.

Fixpoint sys_run (s : sys) (schedule : list nat) : option sys :=
  match schedule with
  | [] => Some s
  | n :: schedule => match sys_do s n with Some s => sys_run s schedule | None => None end
  end.

Lemma sys_run_steps s schedule s' :
  sys_run s schedule = Some s' -> nsteps sys_step (length schedule) s s'.
Proof.
  revert s. induction schedule as [|n schedule IH]; intros s; cbn; [intros [= ->]; constructor|].
  unfold sys_do. destruct (tasks s !! n) as [[[|i rest] h]|] eqn:Ht; try done.
  case_decide as Hcan; [|done]. intros H%IH. econstructor; [|exact H].
  by apply (sys_step_intro s n (mkTask (i :: rest) h)).
Qed.

(** *** The operations of [Writer] and [Reader] *)
Definition write (v : V) (f : cell v -> cell v) : list instr := [WriteLock v; Modify v f; Release v].
Definition read (v : V) : list instr := [ReadLock v; Look v; Release v].
Definition project (v : V) : list instr := read v.
Definition get (v : V) : list instr := read v.
Definition get_cloned (v : V) : list instr := read v.

(** ** No deadlock *)
Section Discipline.
Context (rank : V -> nat).

(** Locks are taken in the order of their ranks, used while held, and given back. *)
Fixpoint well_locked (h : list guard) (c : list instr) : Prop :=
  match c with
  | [] => h = []
  | i :: c =>
      match i with
      | ReadLock v | WriteLock v => Forall (fun g => rank g.1 < rank v) h
      | Look v => (v, true) ∈ h \/ (v, false) ∈ h
      | Modify v _ => (v, true) ∈ h
      | Release v => (v, true) ∈ h \/ (v, false) ∈ h
      end /\ well_locked (after_held i h) c
  end.

Definition task_ok (t : task) : Prop := well_locked (held t) (code t).
Definition sys_ok (s : sys) : Prop := Forall task_ok (tasks s).

Lemma sys_step_ok s s' : sys_ok s -> sys_step s s' -> sys_ok s'.
Proof.
  intros Hok Hst. destruct Hst as [s n t i rest Ht Hc Hcan]. unfold sys_ok. cbn.
  apply Forall_insert; [done|]. apply (Forall_lookup_1 _ _ _ _ Hok) in Ht.
  unfold task_ok in *. rewrite Hc in Ht. apply Ht.
Qed.

Definition enabled (s : sys) : Prop := exists s', sys_step s s'.

(** The lock a task wants next. *)
Definition wants (t : task) : option V :=
  match code t with ReadLock v :: _ | WriteLock v :: _ => Some v | _ => None end.

Lemma step_or_wants s n t i rest :
  tasks s !! n = Some t -> code t = i :: rest -> enabled s \/ is_Some (wants t).
Proof.
  intros Ht Hc. unfold wants. rewrite Hc. destruct i; try (right; by eexists);
    left; eexists; by econstructor.
Qed.

(** Who holds a lock can go on, or wants one of a higher rank. *)
Lemma holder_goes_on s n t v b :
  sys_ok s -> tasks s !! n = Some t -> (v, b) ∈ held t ->
  enabled s \/ exists w, wants t = Some w /\ rank v < rank w.
Proof.
  intros Hok Ht Hb. pose proof (Forall_lookup_1 _ _ _ _ Hok Ht) as Hwl. unfold task_ok in Hwl.
  destruct (code t) as [|i rest] eqn:Hc; [by rewrite Hwl in Hb; apply not_elem_of_nil in Hb|].
  destruct (step_or_wants s n t i rest Ht Hc) as [?|[w Hw]]; [by left|right].
  exists w. split; [done|]. unfold wants in Hw. rewrite Hc in Hw. destruct Hwl as [Hwl _].
  destruct i; try done; injection Hw as <-; by apply (proj1 (Forall_forall _ _) Hwl (v, b)).
Qed.

Lemma not_lets_write s v :
  ~ Forall (lets_write v) (tasks s) -> exists n t b, tasks s !! n = Some t /\ (v, b) ∈ held t.
Proof.
  intros H. apply not_Forall_Exists in H; [|unfold lets_write; apply _].
  apply Exists_exists in H as (t & Ht & Hl). apply list_elem_of_lookup in Ht as [n Hn].
  unfold lets_write in Hl.
  destruct (decide ((v, true) ∈ held t)) as [?|?]; [by exists n, t, true|].
  destruct (decide ((v, false) ∈ held t)) as [?|?]; [by exists n, t, false|]. by destruct Hl.
Qed.

Lemma not_lets_read s v :
  ~ Forall (lets_read v) (tasks s) ->
  (exists n t, tasks s !! n = Some t /\ (v, true) ∈ held t) \/
  (exists n t rest, tasks s !! n = Some t /\ code t = WriteLock v :: rest).
Proof.
  intros H. apply not_Forall_Exists in H; [|unfold lets_read; apply _].
  apply Exists_exists in H as (t & Ht & Hl). apply list_elem_of_lookup in Ht as [n Hn].
  unfold lets_read in Hl.
  destruct (decide ((v, true) ∈ held t)) as [?|?]; [left; by exists n, t|]. right.
  destruct (decide (next_write t = Some v)) as [Hw|?]; [|by destruct Hl].
  unfold next_write in Hw. destruct (code t) as [|[] rest] eqn:Hc; try done.
  injection Hw as <-. by exists n, t, rest.
Qed.

(** If a task cannot take [v], one that is enabled or wants a lock above [v] exists. *)
Lemma blocked_on s n t i rest v :
  sys_ok s -> tasks s !! n = Some t -> code t = i :: rest -> i = ReadLock v \/ i = WriteLock v ->
  enabled s \/ exists n' t' w, tasks s !! n' = Some t' /\ wants t' = Some w /\ rank v < rank w.
Proof.
  intros Hok Ht Hc Hi. destruct (decide (can_do (tasks s) i)) as [Hcan|Hno];
    [left; eexists; by econstructor|].
  assert (Hhold : forall n' t' b, tasks s !! n' = Some t' -> (v, b) ∈ held t' ->
    enabled s \/ exists n' t' w, tasks s !! n' = Some t' /\ wants t' = Some w /\ rank v < rank w).
  { intros n' t' b Ht' Hb. destruct (holder_goes_on s n' t' v b Hok Ht' Hb) as [?|(w & ? & ?)];
      [by left|right; by exists n', t', w]. }
  destruct Hi as [-> | ->]; cbn in Hno.
  - apply not_lets_read in Hno as [(n' & t' & Ht' & Hb)|(n' & t' & rest' & Ht' & Hc')]; [by eauto|].
    destruct (decide (can_do (tasks s) (WriteLock v))) as [Hcan|Hno];
      [left; eexists; by eapply (sys_step_intro s n' t')|].
    apply not_lets_write in Hno as (n'' & t'' & b & Ht'' & Hb). by eauto.
  - apply not_lets_write in Hno as (n' & t' & b & Ht' & Hb). by eauto.
Qed.

Lemma wants_code t v : wants t = Some v ->
  exists i rest, code t = i :: rest /\ (i = ReadLock v \/ i = WriteLock v).
Proof.
  unfold wants. destruct (code t) as [|[] rest]; try done; intros [= ->]; eauto 10.
Qed.

Lemma wanted_enabled s n t v K :
  sys_ok s -> (forall m t' w, tasks s !! m = Some t' -> wants t' = Some w -> rank w < K) ->
  tasks s !! n = Some t -> wants t = Some v -> enabled s.
Proof.
  intros Hok HK. remember (K - rank v) as d eqn:Hd.
  revert n t v Hd. induction (lt_wf d) as [d _ IH]. intros n t v Hd Ht Hv.
  destruct (wants_code t v Hv) as (i & rest & Hc & Hi).
  destruct (blocked_on s n t i rest v Hok Ht Hc Hi) as [?|(n' & t' & w & Ht' & Hw & Hlt)]; [done|].
  pose proof (HK _ _ _ Ht' Hw). eapply (IH (K - rank w)); [lia|done..].
Qed.

Definition finished (s : sys) : Prop := Forall (fun t => code t = []) (tasks s).
Definition work (s : sys) : nat := sum_list_with (fun t => length (code t)) (tasks s).

Lemma rank_bound (ts : list task) :
  exists K, forall m t w, ts !! m = Some t -> wants t = Some w -> rank w < K.
Proof.
  induction ts as [|t ts [K HK]]; [by exists 0|].
  exists (S (K + match wants t with Some w => rank w | None => 0 end)).
  intros [|m] t' w Hm Hw; cbn in Hm.
  - injection Hm as <-. rewrite Hw. lia.
  - pose proof (HK m t' w Hm Hw). lia.
Qed.

(** Tasks that follow the order of ranks are never stuck. *)
Lemma never_stuck s : sys_ok s -> ~ finished s -> enabled s.
Proof.
  intros Hok Hnf. unfold finished in Hnf. apply not_Forall_Exists in Hnf; [|].
  2:{ intros t. destruct (code t); [left|right]; done. }
  apply Exists_exists in Hnf as (t & Ht & Hc). apply list_elem_of_lookup in Ht as [n Ht].
  destruct (code t) as [|i rest] eqn:E; [done|].
  destruct (step_or_wants s n t i rest Ht E) as [?|[v Hv]]; [done|].
  destruct (rank_bound (tasks s)) as [K HK]. by apply (wanted_enabled s n t v K).
Qed.

Lemma step_work s s' : sys_step s s' -> work s = S (work s').
Proof.
  intros [s0 n t i rest Ht Hc Hcan]. unfold work. cbn.
  apply list_elem_of_split_length in Ht as (l1 & l2 & -> & ->).
  rewrite <- (Nat.add_0_r (length l1)), insert_app_r, !sum_list_with_app. cbn. rewrite Hc. cbn. lia.
Qed.

(** Every run ends, with all tasks finished, within as many steps as there are
    instructions. *)
Lemma all_return s : sys_ok s ->
  (exists s', rtc sys_step s s' /\ finished s') /\
  forall s' n, nsteps sys_step n s s' -> n <= work s /\ (finished s' \/ enabled s').
Proof.
  intros Hok. split.
  - remember (work s) as w eqn:Hw. revert s Hok Hw. induction w as [|w IH]; intros s Hok Hw;
      (destruct (decide (finished s)) as [?|Hnf]; [by exists s|]);
      destruct (never_stuck s Hok Hnf) as [s1 Hs1]; pose proof (step_work _ _ Hs1); [lia|].
    destruct (IH s1) as (s2 & Hr & Hf); [by eapply sys_step_ok|lia|].
    exists s2. split; [by eapply rtc_l|done].
  - intros s' n Hn. induction Hn as [s|n s s1 s' Hs1 Hn IH].
    + split; [lia|]. destruct (decide (finished s)) as [?|Hnf]; [by left|right; by apply never_stuck].
    + pose proof (step_work _ _ Hs1). destruct IH as [? ?]; [by eapply sys_step_ok|]. split; [lia|done].
Qed.
End Discipline.

(** ** What readers see: one writing task among readers *)

Definition run_store (c : list instr) (s : cells) : cells := foldl (fun s i => after_store i s) s c.
Definition run_held (c : list instr) (h : list guard) : list guard := foldl (fun h i => after_held i h) h c.

Definition reads_only (i : instr) : Prop :=
  match i with WriteLock _ | Modify _ _ => False | _ => True end.

(** A reader between two of its instructions, beside a writer that holds [h]. *)
Definition reader_ok (h : list guard) (t : task) : Prop :=
  Forall reads_only (code t) /\ (exists rank, task_ok rank t) /\
  Forall (fun g => g.2 = false /\ ((g.1, true) ∉ h)) (held t).

(** [x] is a value of [v] from a point of the program [c0] of the writer at which
    it does not hold [v] for writing. *)
Definition between_sections (c0 : list instr) (s0 : cells) (v : V) (x : cell v) : Prop :=
  exists p q, c0 = p ++ q /\ ((v, true) ∉ run_held p []) /\ x = run_store p s0 v.

Record single_writer (c0 : list instr) (s0 : cells) (s : sys) : Prop := {
  sw_progress : exists p t, tasks s !! 0 = Some t /\ c0 = p ++ code t /\
    store s = run_store p s0 /\ held t = run_held p [] /\
    forall n t', tasks s !! S n = Some t' -> reader_ok (held t) t';
  sw_log : forall n v x, (S n, existT v x) ∈ log s -> between_sections c0 s0 v x
}.

Lemma run_store_snoc p i s : run_store (p ++ [i]) s = after_store i (run_store p s).
Proof. unfold run_store. by rewrite foldl_app. Qed.

Lemma run_held_snoc p i h : run_held (p ++ [i]) h = after_held i (run_held p h).
Proof. unfold run_held. by rewrite foldl_app. Qed.

(** The writer takes a lock only when no reader has it. *)
Lemma writer_step_readers ts h i t' n :
  can_do ts i -> ts !! n = Some t' -> reader_ok h t' -> reader_ok (after_held i h) t'.
Proof.
  intros Hcan Hn (Hro & Hok & Hh). split_and!; [done..|].
  apply Forall_forall. intros [v b] Hg. rewrite Forall_forall in Hh. destruct (Hh _ Hg) as [Hb Hno].
  cbn in *. split; [done|]. destruct i as [w|w|w|w f|w]; cbn;
    [by intros [[=]|?]%elem_of_cons| |done|done|by intros [_ ?]%list_elem_of_filter].
  intros [[= <-]|?]%elem_of_cons; [|done]. apply (Forall_lookup_1 _ _ _ _ Hcan) in Hn.
  destruct Hn as [_ Hn]. by subst b.
Qed.

Lemma reader_step_ok h t i rest :
  reader_ok h t -> code t = i :: rest ->
  (forall v, i = ReadLock v -> (v, true) ∉ h) -> reader_ok h (mkTask rest (after_held i (held t))).
Proof.
  intros (Hro & [rank Hok] & Hh) Hc Hl. rewrite Hc in Hro. apply Forall_cons in Hro as [Hi Hro].
  unfold task_ok in Hok. rewrite Hc in Hok. destruct Hok as [_ Hok].
  split_and!; [done|by exists rank|]. cbn. destruct i as [v|v|v|v f|v]; cbn in *; try done.
  - apply Forall_cons. auto.
  - apply Forall_forall. intros g [_ Hg]%list_elem_of_filter. by apply (proj1 (Forall_forall _ _) Hh).
Qed.

Lemma reader_sees h t v rest c0 s0 p q :
  reader_ok h t -> code t = Look v :: rest -> c0 = p ++ q -> h = run_held p [] ->
  between_sections c0 s0 v (run_store p s0 v).
Proof.
  intros (_ & [rank Hok] & Hh) Hc -> ->. exists p, q. split_and!; [done| |done].
  unfold task_ok in Hok. rewrite Hc in Hok. destruct Hok as [Hv _]. rewrite Forall_forall in Hh.
  destruct Hv as [Hv|Hv]; by apply Hh in Hv as [??].
Qed.

Lemma single_writer_step c0 s0 s s' : single_writer c0 s0 s -> sys_step s s' -> single_writer c0 s0 s'.
Proof.
  intros [(p & t0 & Ht0 & Hc0 & Hs & Hh & Hr) Hlog] Hst.
  destruct Hst as [s n t i rest Ht Hc Hcan]. destruct n as [|n].
  - rewrite Ht0 in Ht. injection Ht as <-. split; cbn.
    + exists (p ++ [i]), (mkTask rest (after_held i (held t0))).
      rewrite run_store_snoc, run_held_snoc, <- Hs, <- Hh, <- app_assoc. cbn.
      split_and!; [|by rewrite Hc0, Hc|done|done|].
      * rewrite list_lookup_insert_eq; [done|]. by apply lookup_lt_Some in Ht0.
      * intros n t' Hn. rewrite list_lookup_insert_ne in Hn by done.
        eapply writer_step_readers; [done|exact Hn|by eapply Hr].
    + intros n v x [Hx|Hx]%elem_of_app; [by eapply Hlog|].
      apply list_elem_of_fmap in Hx as (o & [=] & _).
  - pose proof (Hr n t Ht) as Hrt. assert (Hstore : after_store i (store s) = store s).
    { destruct Hrt as (Hro & _ & _). rewrite Hc in Hro. apply Forall_cons in Hro as [Hi _].
      by destruct i. }
    split; cbn.
    + exists p, t0. rewrite list_lookup_insert_ne by done. rewrite Hstore. split_and!; [done..|].
      intros m t' Hm. destruct (decide (n = m)) as [<-|Hne].
      * apply list_lookup_insert_Some in Hm as [(_ & <- & _)|(? & _)]; [|done].
        eapply reader_step_ok; [done..|]. intros v ->. by apply (Forall_lookup_1 _ _ _ _ Hcan Ht0).
      * rewrite list_lookup_insert_ne in Hm by congruence. by eapply Hr.
    + intros m v x [Hx|Hx]%elem_of_app; [by eapply Hlog|].
      apply list_elem_of_fmap in Hx as (o & [= -> <-] & Ho). destruct i as [w|w|w|w f|w]; cbn in Ho;
        try by apply not_elem_of_nil in Ho.
      apply list_elem_of_singleton in Ho. rewrite Hs in Ho.
      assert (existT v x = existT w (run_store p s0 w) -> between_sections c0 s0 v x) as Hgo.
      { intros E. inversion E; subst w. apply (Eqdep_dec.inj_pair2_eq_dec V (fun a b => decide (a = b))) in E. subst x.
        by eapply reader_sees. }
      by apply Hgo.
Qed.

(** The program of one task and the readers around it. *)
Definition launch (s0 : cells) (c0 : list instr) (readers : list (list instr)) : sys :=
  mkSys s0 (start c0 :: (start <$> readers)) [].

Lemma single_writer_launch s0 c0 readers rank :
  Forall (fun c => Forall reads_only c /\ well_locked rank [] c) readers ->
  single_writer c0 s0 (launch s0 c0 readers).
Proof.
  intros Hr. split; cbn; [|by intros ??? ?%not_elem_of_nil].
  exists [], (start c0). split_and!; [done..|]. intros n t' Hn.
  apply list_lookup_fmap_Some in Hn as (c & -> & Hc). apply (Forall_lookup_1 _ _ _ _ Hr) in Hc as [??].
  split_and!; [done|by exists rank|by apply Forall_nil].
Qed.

Lemma single_writer_steps c0 s0 s s' :
  single_writer c0 s0 s -> rtc sys_step s s' -> single_writer c0 s0 s'.
Proof. induction 2; eauto using single_writer_step. Qed.

(** ** Programs made of critical sections *)

(** Read a variable; or take one for writing, read others meanwhile, and leave a new
    value. *)
Inductive section :=
| RSec (v : V)
| WSec (v : V) (ws : list V) (x : cell v).

Definition reads (ws : list V) : list instr := flat_map read ws.

Definition section_code (sec : section) : list instr :=
  match sec with
  | RSec v => read v
  | WSec v ws x => WriteLock v :: reads ws ++ [Modify v (fun _ => x); Release v]
  end.

Definition program (secs : list section) : list instr := flat_map section_code secs.

(** Which values a program leaves in [v]. *)
Definition written (v : V) (secs : list section) (x : cell v) : Prop := exists ws, WSec v ws x ∈ secs.

Definition apply_section (s : cells) (sec : section) : cells :=
  match sec with RSec _ => s | WSec v _ x => update s v x end.

Section Sections.
Context (rank : V -> nat).

Definition section_ok (sec : section) : Prop :=
  match sec with RSec _ => True | WSec v ws _ => Forall (fun w => rank v < rank w) ws end.

Lemma release_top v b (h : list guard) :
  Forall (fun g => rank g.1 < rank v) h -> after_held (Release v) ((v, b) :: h) = h.
Proof.
  intros Hr. unfold after_held. rewrite filter_cons, decide_False by (cbn; tauto).
  apply list_filter_all. eapply Forall_impl; [exact Hr|]. intros g Hg E. cbn in *. rewrite E in Hg. lia.
Qed.

Lemma read_locked h v c :
  Forall (fun g => rank g.1 < rank v) h -> well_locked rank h c -> well_locked rank h (read v ++ c).
Proof.
  intros Hr Hc. cbn [read app well_locked]. split_and!; [done|right; apply list_elem_of_here..|].
  change (after_held (Look v) (after_held (ReadLock v) h)) with ((v, false) :: h).
  by rewrite release_top.
Qed.

Lemma reads_locked h ws c :
  Forall (fun w => Forall (fun g => rank g.1 < rank w) h) ws ->
  well_locked rank h c -> well_locked rank h (reads ws ++ c).
Proof.
  intros Hws Hc. induction Hws as [|w ws Hw _ IH]; [done|]. unfold reads. cbn [flat_map].
  rewrite <- app_assoc. by apply read_locked.
Qed.

Lemma section_locked sec c :
  section_ok sec -> well_locked rank [] c -> well_locked rank [] (section_code sec ++ c).
Proof.
  destruct sec as [v|v ws x]; cbn [section_ok section_code]; intros Hok Hc; [by apply read_locked|].
  cbn [app well_locked]. split; [apply Forall_nil, I|]. rewrite <- app_assoc. apply reads_locked.
  - eapply Forall_impl; [exact Hok|]. intros w Hw. by apply Forall_singleton.
  - cbn [app well_locked]. split_and!; [apply list_elem_of_here|left; apply list_elem_of_here|].
    change (after_held (Modify v _) (after_held (WriteLock v) [])) with [(v, true)].
    by rewrite release_top.
Qed.

Lemma program_locked secs : Forall section_ok secs -> well_locked rank [] (program secs).
Proof. induction 1 as [|sec secs H _ IH]; [done|]. cbn. by apply section_locked. Qed.

(** *** What can be seen of a program between its sections *)
Definition quiet (i : instr) : Prop := match i with Modify _ _ => False | _ => True end.

Lemma quiet_store p s : Forall quiet p -> run_store p s = s.
Proof. revert s. induction p as [|i p IH]; intros s H; [done|]. apply Forall_cons in H as [Hi H]. cbn. rewrite <- (IH s H) at 2. by destruct i. Qed.

Lemma reads_quiet ws : Forall quiet (reads ws).
Proof. induction ws as [|w ws IH]; [by apply Forall_nil|]. cbn. by rewrite !Forall_cons. Qed.

Lemma reads_held ws h :
  Forall (fun w => Forall (fun g => rank g.1 < rank w) h) ws -> run_held (reads ws) h = h.
Proof.
  induction 1 as [|w ws Hw _ IH]; [done|]. unfold reads, run_held. cbn [flat_map].
  rewrite foldl_app. cbn [read foldl].
  replace (after_held (Release w) _) with h; [exact IH|].
  symmetry. by apply (release_top w false h).
Qed.

Lemma section_run sec s :
  section_ok sec ->
  run_store (section_code sec) s = apply_section s sec /\ run_held (section_code sec) [] = [].
Proof.
  destruct sec as [v|v ws x]; cbn [section_ok section_code apply_section]; intros Hok.
  - split; [done|]. cbn. by rewrite decide_False by (cbn; tauto).
  - unfold run_store, run_held. cbn [foldl]. rewrite !foldl_app.
    fold (run_store (reads ws) (after_store (WriteLock v) s)).
    fold (run_held (reads ws) (after_held (WriteLock v) [])).
    rewrite (quiet_store _ _ (reads_quiet ws)), reads_held; [split; [done|]|].
    + cbn. by rewrite decide_False by (cbn; tauto).
    + eapply Forall_impl; [exact Hok|]. intros w Hw. by apply Forall_singleton.
Qed.

Lemma program_run secs s :
  Forall section_ok secs -> run_store (program secs) s = foldl apply_section s secs.
Proof.
  intros Hok. revert s. induction Hok as [|sec secs Hsec _ IH]; intros s; [done|].
  destruct (section_run sec s Hsec) as [Hst _]. cbn. unfold run_store in *. by rewrite foldl_app, Hst.
Qed.

(** In the middle of a section: the old value, or the section holds the variable. *)
Lemma section_middle sec s p k v :
  section_ok sec -> section_code sec = p ++ k -> k <> [] -> ((v, true) ∉ run_held p []) ->
  run_store p s v = s v.
Proof.
  intros Hok Hp Hk Hno. destruct sec as [w|w ws x]; cbn [section_code] in Hp.
  - rewrite quiet_store; [done|]. assert (H : Forall quiet (p ++ k)) by (rewrite <- Hp; by repeat constructor).
    by apply Forall_app in H as [? _].
  - destruct k as [|z k _] using rev_ind; [done|].
    rewrite app_assoc, app_comm_cons in Hp.
    change [Modify w (fun _ => x); Release w] with ([Modify w (fun _ => x)] ++ [Release w]) in Hp.
    rewrite app_assoc in Hp. apply app_inj_tail in Hp as [Hp _].
    destruct k as [|z' k _] using rev_ind.
    + rewrite app_nil_r in Hp. subst p. revert Hno. unfold run_store, run_held.
      rewrite !foldl_app. cbn [foldl]. fold (run_held (reads ws) (after_held (WriteLock w) [])).
      fold (run_store (reads ws) (after_store (WriteLock w) s)).
      rewrite (quiet_store _ _ (reads_quiet ws)), reads_held.
      2:{ eapply Forall_impl; [exact Hok|]. intros u Hu. by apply Forall_singleton. }
      cbn. intros Hno. apply update_ne. intros ->. apply Hno, list_elem_of_here.
    + rewrite app_assoc in Hp. apply app_inj_tail in Hp as [Hp _]. rewrite quiet_store; [done|].
      assert (H : Forall quiet (p ++ k)) by (rewrite <- Hp; constructor; [done|apply reads_quiet]).
      by apply Forall_app in H as [? _].
Qed.

Lemma apply_section_cases s sec v : apply_section s sec v = s v \/ written v [sec] (apply_section s sec v).
Proof.
  destruct sec as [w|w ws x]; cbn; [by left|]. destruct (decide (w = v)) as [->|Hne].
  - right. exists ws. rewrite update_eq. apply list_elem_of_here.
  - left. by apply update_ne.
Qed.

(** A reader sees the initial value or one that a section has written. *)
Lemma between_program secs s v x :
  Forall section_ok secs -> between_sections (program secs) s v x -> x = s v \/ written v secs x.
Proof.
  intros Hok. revert s x. induction Hok as [|sec secs Hsec Hok IH]; intros s x (p & q & Hpq & Hno & ->).
  - symmetry in Hpq. apply app_eq_nil in Hpq as [-> ->]. by left.
  - cbn in Hpq. destruct (section_run sec s Hsec) as [Hst Hh].
    assert (Hlate : forall l, p = section_code sec ++ l -> program secs = l ++ q ->
      run_store p s v = s v \/ written v (sec :: secs) (run_store p s v)).
    { intros l -> Hl. unfold run_store, run_held in *. rewrite foldl_app, Hst.
      rewrite foldl_app, Hh in Hno.
      destruct (IH (apply_section s sec) (run_store l (apply_section s sec) v)) as [Hx|[ws Hx]];
        [by exists l, q| |]; unfold run_store in Hx.
      - rewrite Hx.
        destruct (apply_section_cases s sec v) as [?|[ws Hw]]; [by left|right].
        exists ws. apply list_elem_of_singleton in Hw. rewrite Hw. apply list_elem_of_here.
      - right. exists ws. by right. }
    apply app_eq_app in Hpq as (l & [[H1 H2]|[H1 H2]]).
    + destruct l as [|i l].
      * apply (Hlate []); [by rewrite H1, !app_nil_r|by rewrite H2].
      * left. by apply (section_middle sec s p (i :: l)).
    + by apply (Hlate l).
Qed.
End Sections.
End Cells.
