(* ===== verification/Locks.v ===== *)
(** * Locking of the state shared between the network task and its clients

    [NetworkService] reads the tables of the address book through [Reader]s while the
    network task changes them through [Writer]s.  [op_sections] are the critical
    sections of each operation of the address book, read off src/net/peers.rs: which
    locks it takes, in which order, and what it leaves in them; [client_code] are the
    reads of [NetworkService].  The value a section leaves is that of the operation of
    file [Peers], and [op_sections_sound] shows that the sections of an operation
    together have its effect. *)
From S2P Require Import Prelude Time Libp2p PeerInfo AddressHandler Peers PeersInv PeersProps.
From S2P Require Import SharedVar.

Inductive shared := Peers | Listeners | External | Bootstrapped.

#[export] Instance shared_eq_dec : EqDecision shared.
Proof. solve_decision. Defined.

(** The one nesting of the program is [peers] around [listeners], in [set_info]. *)
Definition shared_rank (v : shared) : nat :=
  match v with Peers => 0 | Listeners => 1 | External => 2 | Bootstrapped => 3 end.

Section Locks.
Context `{P : Profile} `{C : Chrono} `{L : Libp2p} `{Ch : Channels} `{HO : HashOrder}.

Definition shared_cell (v : shared) : Type :=
  match v with
  | Peers => gmap PeerId PeerInfo
  | Listeners => gset Multiaddr
  | External => list AddressRecord
  | Bootstrapped => bool
  end.

Definition book_cells (b : bool) (st : AddressBook) : cells (cell := shared_cell) := fun v =>
  match v with
  | Peers => peers st
  | Listeners => listeners st
  | External => external st
  | Bootstrapped => b
  end.

Definition lock_section : Type := SharedVar.section (cell := shared_cell).
Definition write_peers (ws : list shared) (t : gmap PeerId PeerInfo) : lock_section :=
  WSec (cell := shared_cell) Peers ws t.
Definition write_listeners (l : gset Multiaddr) : lock_section := WSec (cell := shared_cell) Listeners [] l.
Definition write_external (l : list AddressRecord) : lock_section := WSec (cell := shared_cell) External [] l.

Definition peers_after (m : outcome AddressBook) (st : AddressBook) : gmap PeerId PeerInfo :=
  match m with Done st' => peers st' | Panic _ => peers st end.

Definition add_address_sections (now : DateTime) (st : AddressBook) (peer : PeerId)
    (address : Multiaddr) (source : AddressSource) : list lock_section :=
  if decide (peer = local_peer_id st) then []
  else if negb (enable_loopback st) && is_loopback address then []
  else
    let addr := match normalize_addr_ref address peer with Borrowed _ => pop address | Owned _ => address end in
    [RSec Peers; RSec Listeners] ++
    (if decide (addr ∈ listeners st) then []
     else [write_peers [] (peers_after (add_address now st peer address source) st)]).

(** One guard per peer that is removed. *)
Fixpoint remove_sections (t : gmap PeerId PeerInfo) (remove : list PeerId) : list lock_section :=
  match remove with
  | [] => []
  | peer :: remove => write_peers [] (delete peer t) :: remove_sections (delete peer t) remove
  end.

Definition pruned (now : DateTime) (st : AddressBook) (min_age : Duration) : list PeerId :=
  fst <$> filter (fun '(_, info) => prunable now min_age info = true) (map_iter (peers st)).

Definition prune_sections (now : DateTime) (st : AddressBook) (min_age : Duration) : list lock_section :=
  RSec Peers :: remove_sections (peers st) (pruned now st min_age).

(** The listeners are read once per derived address, with the guard of the peers
    held. *)
Definition set_info_sections (clk : Multiaddr -> AddressSource -> DateTime) (st : AddressBook)
    (peer : PeerId) (identify : IdentifyInfo Multiaddr) : list lock_section :=
  let ws :=
    match peers st !! peer with
    | Some info =>
        match derived_addresses st peer (identified info identify) with
        | Done translated => (fun _ => Listeners) <$> set_iter translated
        | Panic _ => []
        end
    | None => []
    end in
  [write_peers ws (peers_after (set_info clk st peer identify) st)].

Definition dial_failure_sections (clk : nat -> DateTime) (rnd : nat -> Z) (st : AddressBook)
    (h : IntoAddressHandler) (peer_id : option PeerId) (error : DialError Multiaddr IoError) : list lock_section :=
  match (match handler_peer_id h with Some p => Some p | None => peer_id end) with
  | None => []
  | Some _ => [write_peers [] (peers_after (dial_failure clk rnd st h peer_id error) st)]
  end.

Definition on_swarm_event_sections (clk : nat -> DateTime) (rnd : nat -> Z) (st : AddressBook)
    (event : FromSwarm.t) : list lock_section :=
  let st' := on_swarm_event clk rnd st event in
  match event with
  | FromSwarm.ConnectionEstablished peer endpoint _ =>
      let conn := normalize_connected_point endpoint (local_peer_id st) peer in
      add_address_sections (clk 0) st peer (get_remote_address conn) (source_of_connection conn) ++
      [write_peers [] (peers_after st' st)]
  | FromSwarm.AddressChange peer _ new =>
      let new := normalize_connected_point new (local_peer_id st) peer in
      add_address_sections (clk 0) st peer (get_remote_address new) (source_of_connection new) ++
      [write_peers [] (peers_after st' st)]
  | FromSwarm.DialFailure h peer error => dial_failure_sections clk rnd st h peer error
  | FromSwarm.NewListenAddr l a => [write_listeners (listeners (new_listen_addr st l a))]
  | FromSwarm.ExpiredListenAddr l a => [write_listeners (listeners (expired_listen_addr st l a))]
  | _ => []
  end.

Definition op_sections (op : book_op) (st : AddressBook) : list lock_section :=
  match op with
  | OpDialAddress peer a =>
      if decide (peer = local_peer_id st) then [] else [write_peers [] (peers (dial_address st peer a))]
  | OpAddAddress now peer a source => add_address_sections now st peer a source
  | OpRemoveAddress peer a => [write_peers [] (peers (remove_address st peer a))]
  | OpPrunePeers now min_age => prune_sections now st min_age
  | OpConnectionClosed now peer cp n e => [write_peers [] (peers (connection_closed now st peer cp n e))]
  | OpSetRtt peer d => [write_peers [] (peers_after (book_set_rtt st peer d) st)]
  | OpSetInfo clk peer identify => set_info_sections clk st peer identify
  | OpPoll ext _ => if refresh_external st then [write_external ext] else []
  | OpOnSwarmEvent clk rnd event => on_swarm_event_sections clk rnd st event
  | OpDial _ | OpSwarmEvents _ | OpNotify _ | OpReceivers _ => []
  end.

(** [poll_swarm] around [inject_kad_event]: the flag is read, the guard given back,
    and the flag written only if it has changed. *)
Definition kad_event_sections (old new : bool) : list lock_section :=
  RSec Bootstrapped :: (if decide (new = old) then [] else [WSec (cell := shared_cell) Bootstrapped [] new]).

(** *** The reads of [NetworkService] *)
Inductive client_read :=
| ReadListeners
| ReadExternal
| ReadPeers
| ReadConnections
| ReadIsConnected (peer : PeerId)
| ReadPeerInfo (peer : PeerId)
| ReadIsBootstrapped.

Definition client_code (local : PeerId) (r : client_read) : list (instr (cell := shared_cell)) :=
  match r with
  | ReadListeners => project Listeners
  | ReadExternal => get_cloned External
  | ReadPeers | ReadConnections | ReadPeerInfo _ => project Peers
  | ReadIsConnected peer => if decide (peer = local) then [] else project Peers
  | ReadIsBootstrapped => get Bootstrapped
  end.

(** ** The sections of an operation have its effect *)

(** Nothing but the table of peers has changed. *)
Definition only_peers (st st' : AddressBook) : Prop :=
  listeners st' = listeners st /\ external st' = external st.

Lemma only_peers_refl st : only_peers st st.
Proof. done. Qed.

Lemma only_peers_trans st1 st2 st3 : only_peers st1 st2 -> only_peers st2 st3 -> only_peers st1 st3.
Proof. unfold only_peers. intuition congruence. Qed.

Lemma notify_all_only_peers es st : only_peers st (foldl notify st es).
Proof. by apply (foldl_invariant _ (only_peers st)). Qed.

Lemma add_address_only_peers now st peer a source st' :
  add_address now st peer a source ↓ st' -> only_peers st st'.
Proof.
  unfold add_address. case_decide; [by intros [= <-]|].
  destruct (_ && _); [by intros [= <-]|]. destruct (normalize_addr_ref a peer);
    (case_decide; [by intros [= <-]|]); intros E; outcome_inv; repeat case_match; outcome_inv; done.
Qed.

Lemma set_rtt_only_peers st peer d st' : book_set_rtt st peer d ↓ st' -> only_peers st st'.
Proof.
  unfold book_set_rtt. destruct (peers st !! peer); intros E; outcome_inv; done.
Qed.

Lemma set_info_only_peers clk st peer identify st' :
  set_info clk st peer identify ↓ st' -> only_peers st st'.
Proof.
  unfold set_info. destruct (peers st !! peer); intros E; outcome_inv; [|done].
  destruct x0 as [??]. by outcome_inv.
Qed.

Lemma defer_only_peers st r a st' : defer st r a ↓ st' -> only_peers st st'.
Proof. unfold defer. intros E. by outcome_inv. Qed.

Lemma dial_failure_only_peers clk rnd st h peer_id error st' :
  dial_failure clk rnd st h peer_id error ↓ st' -> only_peers st st'.
Proof.
  unfold dial_failure. destruct (match handler_peer_id h with Some p => Some p | None => peer_id end) as [peer|];
    [|by intros [= <-]].
  destruct (peers st !! peer) as [info|]; [|by intros [= <-]].
  destruct (own h) as [[addr retries]|].
  - unfold validation_failure. intros E. outcome_inv.
    destruct (any_sim_open error && _); [|by outcome_inv].
    match goal with H : defer _ _ _ ↓ _ |- _ => apply defer_only_peers in H end. done.
  - destruct error; intros E; try by outcome_inv.
    unfold peer_dial_failure in E. destruct (foldl _ _ _) as [[i events] redials]. outcome_inv.
    change (only_peers st x). eapply (foldM_preserves _ (only_peers st)); [eassumption| |].
    + destruct redials; apply (notify_all_only_peers events (put_info st peer i)).
    + intros c [n y] c' _ Hc Hd. eapply only_peers_trans; [exact Hc|by eapply defer_only_peers].
Qed.

(** The sections of an operation: nested in the order of ranks; one after the other
    they turn the shared variables before the operation into those after it; and
    every table of peers they leave is one that the invariant allows. *)
Definition table_wf (B : Z) (local : PeerId) (t : gmap PeerId PeerInfo) : Prop :=
  map_Forall (fun _ i => info_wf B i) t /\ t !! local = None.

Definition sections_sound (B : Z) (b b' : bool) (st st' : AddressBook) (secs : list lock_section) : Prop :=
  Forall (section_ok shared_rank) secs /\
  (forall v, foldl apply_section (book_cells b st) secs v = book_cells b' st' v) /\
  (forall t, written Peers secs t -> table_wf B (local_peer_id st) t).

Lemma book_table_wf B st : book_wf B st -> table_wf B (local_peer_id st) (peers st).
Proof. intros [Hp Hl _ _ _]. done. Qed.

Lemma written_nil v (x : shared_cell v) : ~ written v [] x.
Proof. by intros [ws H%not_elem_of_nil]. Qed.

Lemma written_app v (secs1 secs2 : list lock_section) x :
  written v (secs1 ++ secs2) x <-> written v secs1 x \/ written v secs2 x.
Proof. unfold written. setoid_rewrite elem_of_app. naive_solver. Qed.

(** The table a section leaves. *)
Definition table_of (sec : lock_section) : option (gmap PeerId PeerInfo) :=
  match sec with
  | RSec _ => None
  | WSec v _ x => match v return shared_cell v -> option (gmap PeerId PeerInfo) with Peers => Some | _ => fun _ => None end x
  end.

Lemma written_peers ws t t' : written Peers [write_peers ws t] t' -> t' = t.
Proof. intros [ws' H%list_elem_of_singleton]. apply (f_equal table_of) in H. by injection H. Qed.

Lemma sound_nothing B b st st' :
  only_peers st st' -> peers st' = peers st -> sections_sound B b b st st' [].
Proof.
  intros [Hl He] Hp. split_and!; [constructor| |by intros t ?%written_nil].
  intros []; cbn; congruence.
Qed.

Lemma sound_peers B b st st' ws :
  only_peers st st' -> book_wf B st' -> local_peer_id st' = local_peer_id st ->
  Forall (fun w => w = Listeners) ws ->
  sections_sound B b b st st' [write_peers ws (peers st')].
Proof.
  intros [Hl He] Hwf Hloc Hws. split_and!.
  - apply Forall_singleton. cbn. eapply Forall_impl; [exact Hws|]. intros ? ->. cbn. lia.
  - intros []; [reflexivity|exact (eq_sym Hl)|exact (eq_sym He)|reflexivity].
  - intros t ->%written_peers. rewrite <- Hloc. by apply book_table_wf.
Qed.

Lemma sound_app B b b1 b2 st st1 st2 secs1 secs2 :
  sections_sound B b b1 st st1 secs1 -> sections_sound B b1 b2 st1 st2 secs2 ->
  local_peer_id st1 = local_peer_id st -> sections_sound B b b2 st st2 (secs1 ++ secs2).
Proof.
  intros (Ho1 & Ha1 & Hw1) (Ho2 & Ha2 & Hw2) Hl. split_and!.
  - by apply Forall_app.
  - intros v. rewrite foldl_app, <- Ha2.
    assert (H : forall secs (s s' : cells (cell := shared_cell)), (forall w, s w = s' w) ->
      forall w, foldl apply_section s secs w = foldl apply_section s' secs w).
    { clear. induction secs as [|[u|u ws x] secs IH]; intros s s' Hs w; cbn; [done|by apply IH|].
      apply IH. intros z. unfold update. by destruct (decide (u = z)). }
    by apply H.
  - intros t [?|?]%written_app; [by apply Hw1|]. rewrite <- Hl. by apply Hw2.
Qed.

Lemma sound_read B b st v secs st' b' :
  sections_sound B b b' st st' secs -> sections_sound B b b' st st' (RSec v :: secs).
Proof.
  intros (Ho & Ha & Hw). split_and!; [by constructor|done|].
  intros t [ws [[=]|H]%elem_of_cons]. apply Hw. by exists ws.
Qed.

Lemma after_Done m st st' : m ↓ st' -> peers_after m st = peers st'.
Proof. by intros ->. Qed.

Context {LL : Libp2pLaws} {HL : HashOrderLaws}.

Lemma add_address_sound B b now st peer a source st' :
  book_wf B st -> add_address now st peer a source ↓ st' ->
  sections_sound B b b st st' (add_address_sections now st peer a source).
Proof.
  intros Hwf E. pose proof (add_address_only_peers _ _ _ _ _ _ E) as Hf.
  destruct (add_address_total B now st peer a source Hwf) as (st'' & E' & Hwf' & Hl).
  rewrite E in E'. injection E' as <-.
  unfold add_address_sections. rewrite (after_Done _ _ _ E). unfold add_address in E.
  case_decide; [injection E as <-; by apply sound_nothing|].
  destruct (_ && _); [injection E as <-; by apply sound_nothing|].
  do 2 apply sound_read. destruct (normalize_addr_ref a peer);
    (case_decide; [injection E as <-; by apply sound_nothing|apply sound_peers; [done..|constructor]]).
Qed.

Lemma remove_sections_spec (s : cells (cell := shared_cell)) t remove :
  s Peers = t ->
  (foldl apply_section s (remove_sections t remove) Peers : gmap PeerId PeerInfo) = foldl (fun t p => delete p t) t remove /\
  forall v, v <> Peers -> foldl apply_section s (remove_sections t remove) v = s v.
Proof.
  revert s t. induction remove as [|p remove IH]; intros s t Hs; cbn; [done|].
  destruct (IH (update s Peers (delete p t : shared_cell Peers)) (delete p t)) as [H1 H2].
  - apply (update_eq (cell := shared_cell)).
  - split; [done|]. intros v Hv. rewrite H2 by done. by apply (update_ne (cell := shared_cell)).
Qed.

Lemma remove_sections_wf B local t t' remove :
  table_wf B local t -> written Peers (remove_sections t remove) t' -> table_wf B local t'.
Proof.
  revert t. induction remove as [|p remove IH]; intros t [Hp Hl]; cbn; [by intros ?%written_nil|].
  assert (Hd : table_wf B local (delete p t)).
  { split; [by apply map_Forall_delete|]. by rewrite lookup_delete_None; auto. }
  intros [ws [H|H]%elem_of_cons]; [apply (f_equal table_of) in H; by injection H as ->|]. apply (IH (delete p t)); [done|by exists ws].
Qed.

Lemma prune_peers_tables now st min_age :
  peers (prune_peers now st min_age) = foldl (fun t p => delete p t) (peers st) (pruned now st min_age) /\
  only_peers st (prune_peers now st min_age).
Proof.
  unfold prune_peers, pruned. generalize (fst <$> filter (fun '(_, info) => prunable now min_age info = true)
    (map_iter (peers st))). intros l. revert st. induction l as [|p l IH]; intros st; cbn; [done|].
  destruct (IH (notify (with_peers st (delete p (peers st))) (Event.NewInfo p))) as [H1 H2].
  split; [exact H1|]. eapply only_peers_trans; [|exact H2]. done.
Qed.

Lemma prune_sound B b now st min_age :
  book_wf B st -> sections_sound B b b st (prune_peers now st min_age) (prune_sections now st min_age).
Proof.
  intros Hwf. apply sound_read. destruct (prune_peers_tables now st min_age) as (Hp & Hl & He).
  destruct (remove_sections_spec (book_cells b st) (peers st) (pruned now st min_age) eq_refl) as [H1 H2].
  split_and!.
  - generalize (pruned now st min_age), (peers st). intros l. induction l as [|p l IH]; intros t; cbn;
      constructor; [constructor|apply IH].
  - intros []; [rewrite H1; symmetry; exact Hp|rewrite H2 by done; cbn; congruence..].
  - intros t. apply remove_sections_wf. by apply book_table_wf.
Qed.

Lemma sound_listeners B b st st' :
  peers st' = peers st -> external st' = external st ->
  sections_sound B b b st st' [write_listeners (listeners st')].
Proof.
  intros Hp He. split_and!; [by repeat constructor| |by intros t [ws [=]%list_elem_of_singleton]].
  intros []; [exact (eq_sym Hp)|reflexivity|exact (eq_sym He)|reflexivity].
Qed.

Lemma connection_sound B b now st peer a source st1 st' :
  book_wf B st -> add_address now st peer a source ↓ st1 -> only_peers st1 st' -> book_wf B st' ->
  local_peer_id st' = local_peer_id st ->
  sections_sound B b b st st' (add_address_sections now st peer a source ++ [write_peers [] (peers st')]).
Proof.
  intros Hwf E Hf Hwf' Hl. pose proof (add_address_sound B b _ _ _ _ _ _ Hwf E) as Hs.
  destruct (add_address_total B now st peer a source Hwf) as (st'' & E' & _ & Hl1).
  rewrite E in E'. injection E' as <-.
  eapply sound_app; [exact Hs| |done]. apply sound_peers; [done..|congruence|constructor].
Qed.

Lemma set_info_sound B b clk st peer identify st' :
  set_info clk st peer identify ↓ st' -> book_wf B st' -> local_peer_id st' = local_peer_id st ->
  sections_sound B b b st st' (set_info_sections clk st peer identify).
Proof.
  intros E Hwf' Hl. unfold set_info_sections. rewrite (after_Done _ _ _ E).
  apply sound_peers; [by eapply set_info_only_peers|done|done|].
  destruct (peers st !! peer); [|constructor]. destruct (derived_addresses _ _ _); [|constructor].
  apply Forall_fmap, Forall_true. done.
Qed.

Lemma on_swarm_event_sound B b clk rnd st event st' :
  book_wf B st -> on_swarm_event clk rnd st event ↓ st' -> book_wf B st' ->
  local_peer_id st' = local_peer_id st ->
  sections_sound B b b st st' (on_swarm_event_sections clk rnd st event).
Proof.
  intros Hwf E Hwf' Hl. unfold on_swarm_event_sections. rewrite (after_Done _ _ _ E). cbn zeta.
  destruct event; cbn in E; try (outcome_inv; by apply sound_nothing).
  - unfold connection_established in E. outcome_inv. eapply connection_sound; [done..| |done|done].
    by case_decide.
  - unfold address_change in E. outcome_inv. by eapply connection_sound.
  - unfold dial_failure_sections. pose proof (dial_failure_only_peers _ _ _ _ _ _ _ E) as Hf.
    rewrite (after_Done _ _ _ E). unfold dial_failure in E.
    destruct (match handler_peer_id _ with Some p => Some p | None => peer end).
    + apply sound_peers; [done..|constructor].
    + injection E as <-. by apply sound_nothing.
  - outcome_inv. apply sound_listeners; unfold new_listen_addr; by case_decide.
  - outcome_inv. apply sound_listeners; unfold expired_listen_addr; by case_decide.
Qed.

Lemma op_sections_sound B b op st st' :
  book_wf B st -> admissible B st op -> exec op st ↓ st' ->
  sections_sound B b b st st' (op_sections op st).
Proof.
  intros Hwf Hop E. destruct (exec_total B op st Hwf Hop) as (st'' & E' & Hwf' & Hl).
  rewrite E in E'. injection E' as <-.
  destruct op; cbn [exec op_sections] in *; try (injection E as <-);
    try (rewrite (after_Done _ _ _ E)).
  - apply sound_nothing; unfold dial; by case_decide.
  - unfold dial_address in *. case_decide; [by apply sound_nothing|].
    apply sound_peers; [|done..|constructor]. by destruct (is_connected_to _ _).
  - by eapply add_address_sound.
  - apply sound_peers; [|done..|constructor]. unfold remove_address. by destruct (peers st !! peer).
  - by apply prune_sound.
  - apply sound_peers; [|done..|constructor]. unfold connection_closed.
    destruct (close_reason error). by case_decide.
  - apply sound_peers; [by eapply set_rtt_only_peers|done..|constructor].
  - by apply set_info_sound.
  - by apply sound_nothing.
  - by apply sound_nothing.
  - unfold poll. destruct (refresh_external st) eqn:Er.
    + split_and!; [by repeat constructor| |by intros t [ws [=]%list_elem_of_singleton]].
      intros v. transitivity (book_cells b (with_external st external_addresses false) v);
        [by destruct v|]. destruct v; cbn;
      (destruct (actions st); cbn; [|done]); (destruct timer; cbn; [|done]);
      by destruct (deferred st !! n) as [[]|].
    + apply sound_nothing; (destruct (actions st); cbn; [|done]); (destruct timer; cbn; [|done]);
      by destruct (deferred st !! n) as [[]|].
  - by eapply on_swarm_event_sound.
  - by apply sound_nothing.
Qed.

(** ** The task beside its clients *)

(** What the network task does to the shared variables: operations of the address
    book, and Kademlia events that may set the flag. *)
Inductive task_run (B : Z) : bool -> AddressBook -> bool -> AddressBook -> list lock_section -> Prop :=
| tr_nil b st : task_run B b st b st []
| tr_book b st op st1 b' st' secs :
    admissible B st op -> exec op st ↓ st1 -> task_run B b st1 b' st' secs ->
    task_run B b st b' st' (op_sections op st ++ secs)
| tr_kad b st new b' st' secs :
    task_run B new st b' st' secs -> task_run B b st b' st' (kad_event_sections b new ++ secs).

Lemma kad_event_sound B b new st : sections_sound B b new st st (kad_event_sections b new).
Proof.
  apply sound_read. case_decide as H; [subst; by apply sound_nothing|].
  split_and!; [by repeat constructor|by intros []|by intros t [ws [=]%list_elem_of_singleton]].
Qed.

Lemma task_run_sound B b st b' st' secs :
  book_wf B st -> task_run B b st b' st' secs -> sections_sound B b b' st st' secs.
Proof.
  intros Hwf Hr. induction Hr as [b st|b st op st1 b' st' secs Hop E Hr IH|b st new b' st' secs Hr IH].
  - by apply sound_nothing.
  - destruct (exec_total B op st Hwf Hop) as (st'' & E' & Hwf' & Hl).
    rewrite E in E'. injection E' as <-.
    eapply sound_app; [by apply op_sections_sound|by apply IH|done].
  - eapply sound_app; [apply kad_event_sound|by apply IH|done].
Qed.

Definition clients_code (local : PeerId) (clients : list (list client_read)) :
    list (list (instr (cell := shared_cell))) := flat_map (client_code local) <$> clients.

Lemma client_code_locked local rs :
  Forall reads_only (flat_map (client_code local) rs) /\
  well_locked shared_rank [] (flat_map (client_code local) rs).
Proof.
  induction rs as [|r rs [IH1 IH2]]; cbn; [by split; [constructor|]|].
  assert (Hv : client_code local r = [] \/ exists v, client_code local r = read v)
    by (destruct r; cbn; try case_decide; eauto; right; by eexists).
  destruct Hv as [-> | [v ->]]; [done|]. split; [by repeat constructor|].
  apply read_locked; [constructor|done].
Qed.

(** The node as it runs: the network task and any number of clients. *)
Definition shared_system (b : bool) (st : AddressBook) (secs : list lock_section)
    (clients : list (list client_read)) : sys (cell := shared_cell) :=
  launch (book_cells b st) (program secs) (clients_code (local_peer_id st) clients).

Lemma shared_system_ok B b st b' st' secs clients :
  book_wf B st -> task_run B b st b' st' secs -> sys_ok shared_rank (shared_system b st secs clients).
Proof.
  intros Hwf Hr. destruct (task_run_sound _ _ _ _ _ _ Hwf Hr) as [Ho _].
  apply Forall_cons. split; [by apply program_locked|]. unfold clients_code.
  rewrite Forall_fmap, Forall_fmap. apply Forall_true. intros rs. cbn. apply client_code_locked.
Qed.

Lemma sys_steps_ok (s s' : sys (cell := shared_cell)) :
  sys_ok shared_rank s -> rtc sys_step s s' -> sys_ok shared_rank s'.
Proof. induction 2; eauto using sys_step_ok. Qed.

(** C10: clients beside the network task.  The task runs any operations of the address
    book, each of which takes the locks of the shared tables the way the code does,
    while any number of clients read through [NetworkService], in any interleaving.
    Then nobody is ever stuck: as long as someone is not finished a step is possible,
    and all have returned after at most as many steps as there are instructions.  A
    client only sees tables of peers that the invariant allows, never one in the
    middle of a change: the initial one or one left by a complete critical section.
    And when all have returned the variables are those of the book the operations
    make of the initial one. *)
Theorem clients_read_consistently B b st b' st' secs clients n s :
  book_reachable B st -> task_run B b st b' st' secs ->
  nsteps sys_step n (shared_system b st secs clients) s ->
  (finished s \/ exists s', sys_step s s') /\
  n <= work (shared_system b st secs clients) /\
  (forall i t, (S i, existT Peers t) ∈ log s ->
     (t = peers st \/ written Peers secs t) /\ table_wf B (local_peer_id st) t) /\
  (finished s -> forall v, store s v = book_cells b' st' v).
Proof.
  intros Hre Hr Hn. pose proof (reachable_wf _ _ Hre) as Hwf.
  pose proof (shared_system_ok B b st b' st' secs clients Hwf Hr) as Hok.
  destruct (task_run_sound _ _ _ _ _ _ Hwf Hr) as (Ho & Ha & Hw).
  destruct (all_return shared_rank _ Hok) as [_ Hall]. destruct (Hall s n Hn) as [Hle Hgo].
  assert (Hsw : single_writer (program secs) (book_cells b st) s).
  { eapply single_writer_steps; [|by apply rtc_nsteps_2 in Hn].
    apply (single_writer_launch _ _ _ shared_rank). unfold clients_code.
    rewrite Forall_fmap. apply Forall_true. intros rs. apply client_code_locked. }
  destruct Hsw as [(p & t0 & Ht0 & Hp & Hst & _ & _) Hlog]. split_and!; [done|done| |].
  - intros i t Hi. apply Hlog, (between_program shared_rank secs) in Hi; [|done].
    split; [done|]. destruct Hi as [->|Hi]; [by apply book_table_wf|by apply Hw].
  - intros Hf v. apply (Forall_lookup_1 _ _ _ _ Hf) in Ht0. cbn in Ht0. rewrite Ht0, app_nil_r in Hp.
    subst p. rewrite Hst. rewrite (program_run shared_rank) by done. apply Ha.
Qed.
End Locks.

Section LocksWitness.
Import Demo.

(** The task dials bob; meanwhile a client asks for the peers. *)
Definition dial_bob : book_op := OpDialAddress bob bob_4001.
Definition dialled : @AddressBook utc_nanos sim sim_channels := dial_address fresh bob bob_4001.
Definition dial_sections : list lock_section := op_sections dial_bob fresh ++ [].
Definition beside := sys_run (shared_system false fresh dial_sections [[ReadPeers]]) [0; 0; 0; 1; 1; 1].

Lemma clients_read_consistently_witness : exists s,
  beside = Some s /\ finished s /\ store s Peers = peers dialled.
Proof.
  assert (Hrun : match beside with Some s => bool_decide (finished s) | None => false end = true)
    by (vm_compute; reflexivity).
  destruct beside as [s|] eqn:E; [|discriminate Hrun].
  exists s. split; [reflexivity|]. assert (Hf : finished s) by (apply (bool_decide_unpack _); by rewrite Hrun).
  split; [exact Hf|].
  apply (clients_read_consistently 0 false fresh false dialled dial_sections [[ReadPeers]] 6 s).
  - apply reach_new.
  - apply (tr_book 0 false fresh dial_bob dialled); [exact I|reflexivity|apply tr_nil].
  - apply (sys_run_steps _ [0; 0; 0; 1; 1; 1]). exact E.
  - exact Hf.
Defined.
End LocksWitness.
