(* ===== verification/HashEquiv.v ===== *)
(** * The iteration order of hash maps does not matter

    Rust iterates over a hash map in an unspecified order, which [HashOrder] leaves
    open.  [book_equiv] relates two address books that differ only in the order of the
    dials they have queued and of the events in their streams.  Every operation of the
    book respects it, also when the two books iterate in different orders. *)
From S2P Require Import Prelude Time Libp2p PeerInfo AddressHandler Peers PeersInv PeersProps.
From S2P Require Import Protocols Behaviour Net Service.

Section HashEquiv.
Context `{P : Profile} `{C : Chrono} `{L : Libp2p} `{Ch : Channels}.

Definition stream_equiv (tx1 tx2 : Sender Event.t) : Prop :=
  connected tx1 = connected tx2 /\ queued tx1 ≡ₚ queued tx2.

Record book_equiv (st1 st2 : AddressBook) : Prop := {
  be_state : st2 = with_event_stream (with_actions st1 (actions st2)) (event_stream st2);
  be_actions : actions st1 ≡ₚ actions st2;
  be_streams : Forall2 stream_equiv (event_stream st1) (event_stream st2)
}.

#[export] Instance stream_equiv_equiv : Equivalence stream_equiv.
Proof.
  unfold stream_equiv. split.
  - done.
  - intros x y []. by split.
  - intros x y z [H1 H2] [H3 H4]. split; [congruence|by rewrite H2].
Qed.

#[export] Instance book_equiv_equiv : Equivalence book_equiv.
Proof.
  split.
  - intros st. split; [by destruct st|done|done].
  - intros x y [Hs Ha He]. split; [rewrite Hs; by destruct x|done|by symmetry].
  - intros x y z [H1 H2 H3] [H4 H5 H6]. split; [|by rewrite H2|by etransitivity].
    rewrite H4, H1. by destruct z.
Qed.

(** What an equivalent book looks like. *)
Lemma book_equiv_intro st acts evs :
  actions st ≡ₚ acts -> Forall2 stream_equiv (event_stream st) evs ->
  book_equiv st (with_event_stream (with_actions st acts) evs).
Proof. intros Ha He. by split. Qed.

#[export] Instance put_info_proper : Proper (book_equiv ==> eq ==> eq ==> book_equiv) put_info.
Proof. intros x y [Hs Ha He] p ? <- i ? <-. rewrite Hs. by split. Qed.

#[export] Instance push_action_proper : Proper (book_equiv ==> eq ==> book_equiv) push_action.
Proof. intros x y [Hs Ha He] a ? <-. rewrite Hs. split; [done| |done]. cbn. by rewrite Ha. Qed.

(** Operations that only read the rest of the book. *)
Lemma with_peers_equiv st1 st2 t : book_equiv st1 st2 -> book_equiv (with_peers st1 t) (with_peers st2 t).
Proof. intros [Hs Ha He]. rewrite Hs. by split. Qed.

Context {CL : ChannelLaws}.

Lemma send_equiv tx1 tx2 e :
  stream_equiv tx1 tx2 ->
  match unbounded_send tx1 e, unbounded_send tx2 e with
  | Some tx1', Some tx2' => stream_equiv tx1' tx2'
  | None, None => True
  | _, _ => False
  end.
Proof.
  intros [Hc Hq]. destruct (connected tx1) eqn:E.
  - destruct (send_connected tx1 e E) as (s1 & -> & Hq1 & Hc1).
    destruct (send_connected tx2 e (eq_sym Hc)) as (s2 & -> & Hq2 & Hc2).
    split; [congruence|]. by rewrite Hq1, Hq2, Hq.
  - by rewrite !send_disconnected.
Qed.

#[export] Instance notify_proper : Proper (book_equiv ==> eq ==> book_equiv) notify.
Proof.
  intros x y [Hs Ha He] e ? <-. rewrite Hs. split; [done|done|]. cbn.
  clear Hs Ha. induction He as [|tx1 tx2 l1 l2 Htx He IH]; cbn; [done|].
  pose proof (send_equiv tx1 tx2 e Htx) as H.
  destruct (unbounded_send tx1 e), (unbounded_send tx2 e); try done. by constructor.
Qed.

Lemma notify_all_equiv es st1 st2 :
  book_equiv st1 st2 -> book_equiv (foldl notify st1 es) (foldl notify st2 es).
Proof. revert st1 st2. induction es as [|e es IH]; intros; cbn; [done|]. apply IH. by apply notify_proper. Qed.

(** Two events may be sent in either order. *)
Lemma notify_comm st e1 e2 : book_equiv (notify (notify st e1) e2) (notify (notify st e2) e1).
Proof.
  split; [done|done|]. cbn. induction (event_stream st) as [|tx l IH]; cbn; [done|].
  destruct (connected tx) eqn:E.
  - destruct (send_connected tx e1 E) as (s1 & -> & Hq1 & Hc1).
    destruct (send_connected tx e2 E) as (s2 & -> & Hq2 & Hc2). cbn.
    destruct (send_connected s1 e2 Hc1) as (s1' & -> & Hq1' & Hc1').
    destruct (send_connected s2 e1 Hc2) as (s2' & -> & Hq2' & Hc2').
    constructor; [|done]. split; [congruence|]. rewrite Hq1', Hq2', Hq1, Hq2, <- !app_assoc.
    cbn. by apply Permutation_app_head, perm_swap.
  - by rewrite !send_disconnected.
Qed.

(** *** [prune_peers] *)
#[export] Instance drop_peer_proper : Proper (book_equiv ==> eq ==> book_equiv) drop_peer.
Proof.
  intros x y H p ? <-. apply notify_proper; [|done].
  replace (peers y) with (peers x) by (rewrite (be_state _ _ H); done). by apply with_peers_equiv.
Qed.

Lemma drop_peer_comm (st : AddressBook) p q :
  book_equiv (drop_peer (drop_peer st p) q) (drop_peer (drop_peer st q) p).
Proof.
  pose proof (notify_comm (with_peers st (delete p (delete q (peers st)))) (Event.NewInfo p) (Event.NewInfo q)) as H.
  unfold drop_peer. cbn [peers notify with_peers with_event_stream]. rewrite (delete_delete _ q p). exact H.
Qed.

Lemma prune_all_proper l st1 st2 :
  book_equiv st1 st2 -> book_equiv (foldl drop_peer st1 l) (foldl drop_peer st2 l).
Proof. revert st1 st2. induction l as [|p l IH]; intros; cbn; [done|]. apply IH. by apply drop_peer_proper. Qed.

Lemma prune_loop_equiv l1 l2 st : l1 ≡ₚ l2 -> book_equiv (foldl drop_peer st l1) (foldl drop_peer st l2).
Proof.
  intros Hl. revert st. induction Hl as [|p l1 l2 Hl IH|p q l|l1 l2 l3 H1 IH1 H2 IH2]; intros st; cbn.
  - done.
  - apply IH.
  - apply prune_all_proper, drop_peer_comm.
  - by rewrite IH1.
Qed.
End HashEquiv.

(** ** The other operations *)
Section Respects.
Context `{P : Profile} `{C : Chrono} `{L : Libp2p} `{Ch : Channels}.
Context {LL : Libp2pLaws} {CL : ChannelLaws}.

Lemma be_reads st1 st2 : book_equiv st1 st2 ->
  port_reuse st2 = port_reuse st1 /\ enable_loopback st2 = enable_loopback st1 /\
  keep_alive st2 = keep_alive st1 /\ local_peer_id st2 = local_peer_id st1 /\
  listeners st2 = listeners st1 /\ peers st2 = peers st1 /\ external st2 = external st1 /\
  refresh_external st2 = refresh_external st1 /\ deferred st2 = deferred st1 /\ metrics st2 = metrics st1.
Proof. intros [Hs _ _]. rewrite Hs. done. Qed.

Definition respects (f : AddressBook -> outcome AddressBook) : Prop :=
  forall st1 st2 st1', book_equiv st1 st2 -> f st1 ↓ st1' ->
  exists st2', f st2 ↓ st2' /\ book_equiv st1' st2'.

Lemma respects_ret (f : AddressBook -> AddressBook) :
  (forall st1 st2, book_equiv st1 st2 -> book_equiv (f st1) (f st2)) -> respects (fun st => mret (f st)).
Proof. intros Hf st1 st2 st1' H [= <-]. eauto. Qed.

Lemma respects_bind f g : respects f -> respects g -> respects (fun st => f st ≫= g).
Proof.
  intros Hf Hg st1 st2 st1' H E. outcome_inv.
  edestruct Hf as (y & -> & Hy); [done..|]. cbn. by eapply Hg.
Qed.

(** Changes of fields that do not look at the queues. *)
Lemma with_listeners_equiv st1 st2 l :
  book_equiv st1 st2 -> book_equiv (with_listeners st1 l) (with_listeners st2 l).
Proof. intros [Hs Ha He]. rewrite Hs. by split. Qed.
Lemma with_metrics_equiv st1 st2 m :
  book_equiv st1 st2 -> book_equiv (with_metrics st1 m) (with_metrics st2 m).
Proof. intros [Hs Ha He]. rewrite Hs. by split. Qed.
Lemma with_external_equiv st1 st2 e r :
  book_equiv st1 st2 -> book_equiv (with_external st1 e r) (with_external st2 e r).
Proof. intros [Hs Ha He]. rewrite Hs. by split. Qed.
Lemma with_deferred_equiv st1 st2 d :
  book_equiv st1 st2 -> book_equiv (with_deferred st1 d) (with_deferred st2 d).
Proof. intros [Hs Ha He]. rewrite Hs. by split. Qed.
Lemma swarm_events_equiv st1 st2 tx :
  book_equiv st1 st2 -> book_equiv (swarm_events st1 tx) (swarm_events st2 tx).
Proof.
  intros [Hs Ha He]. rewrite Hs. split; [done..|]. cbn. apply Forall2_app; [done|]. by constructor.
Qed.

(** Rewrites everything that is read of the second book into the first. *)
Ltac same_reads H :=
  destruct (be_reads _ _ H) as (?Hpr & ?Hel & ?Hka & ?Hlo & ?Hli & ?Hpe & ?Hex & ?Hre & ?Hde & ?Hme);
  unfold entry, new_handler in *; cbn in *;
  rewrite ?Hpr, ?Hel, ?Hka, ?Hlo, ?Hli, ?Hpe, ?Hex, ?Hre, ?Hde, ?Hme.
Ltac equiv_step :=
  first [done | apply notify_proper; [|done] | apply push_action_proper; [|done]
        | apply put_info_proper; [|done..] | apply with_metrics_equiv | apply with_listeners_equiv
        | apply with_external_equiv | apply with_deferred_equiv | case_decide | case_match ].

Lemma dial_equiv peer st1 st2 : book_equiv st1 st2 -> book_equiv (dial st1 peer) (dial st2 peer).
Proof. intros H. unfold dial. same_reads H. repeat equiv_step. Qed.

Lemma dial_address_equiv peer a st1 st2 :
  book_equiv st1 st2 -> book_equiv (dial_address st1 peer a) (dial_address st2 peer a).
Proof. intros H. unfold dial_address. same_reads H. repeat equiv_step. Qed.

Lemma remove_address_equiv peer a st1 st2 :
  book_equiv st1 st2 -> book_equiv (remove_address st1 peer a) (remove_address st2 peer a).
Proof. intros H. unfold remove_address. same_reads H. repeat equiv_step. Qed.

Lemma connection_closed_equiv now peer cp n e st1 st2 :
  book_equiv st1 st2 -> book_equiv (connection_closed now st1 peer cp n e) (connection_closed now st2 peer cp n e).
Proof. intros H. unfold connection_closed. same_reads H. repeat equiv_step. Qed.

Lemma add_address_respects now peer a source : respects (fun st => add_address now st peer a source).
Proof.
  intros st1 st2 st1' H. rewrite !add_address_spec. intros [= <-]. eexists. split; [done|].
  unfold ignored, added, undiscovered. same_reads H. repeat equiv_step.
Qed.

Lemma set_rtt_respects peer d : respects (fun st => book_set_rtt st peer d).
Proof.
  intros st1 st2 st1' H. unfold book_set_rtt. same_reads H.
  destruct (peers st1 !! peer) as [i|]; [|intros [= <-]; eauto].
  destruct (set_rtt i d); cbn; [|done]. intros [= <-]. eexists. split; [done|]. repeat equiv_step.
Qed.

Lemma defer_respects r a : respects (fun st => defer st r a).
Proof.
  intros st1 st2 st1' H. unfold defer, redial_delay. same_reads H. intros E. outcome_inv.
  repeat match goal with E : _ ↓ _ |- _ => rewrite E; cbn; clear E end.
  eexists. split; [done|]. repeat equiv_step.
Qed.

Lemma defer_all_respects rnd (l : list (nat * ToSwarm)) :
  respects (fun st => foldM (fun st '(n, a) => defer st (rnd n) a) st l).
Proof.
  induction l as [|[n a] l IH]; cbn; [intros st1 st2 ? H [= <-]; eauto|].
  apply (respects_bind (fun st => defer st (rnd n) a)); [apply defer_respects|exact IH].
Qed.

Lemma validation_failure_respects now r peer info addr retries keep error :
  respects (fun st => validation_failure now r st peer info addr retries keep error).
Proof.
  intros st1 st2 st1' H. unfold validation_failure. cbn zeta. intros E. outcome_inv.
  match goal with E : (if ?b then _ else _) ↓ _ |- _ => destruct b eqn:?; outcome_inv end.
  - edestruct defer_respects as (y & -> & Hy); [|done|]; [by apply put_info_proper|].
    eexists. split; [done|]. repeat equiv_step.
  - eexists. split; [done|]. repeat equiv_step.
Qed.

Lemma transport_failures_same clk st1 st2 peer acc l :
  book_equiv st1 st2 -> foldl (transport_failure clk st1 peer) acc l = foldl (transport_failure clk st2 peer) acc l.
Proof.
  intros H. destruct (be_reads _ _ H) as (_ & _ & Hka & _). revert acc.
  induction l as [|[n [a e]] l IH]; intros [[i es] rs]; cbn; [done|]. by rewrite IH, Hka.
Qed.

Lemma peer_dial_failure_respects clk rnd peer info v :
  respects (fun st => peer_dial_failure clk rnd st peer info v).
Proof.
  intros st1 st2 st1' H. unfold peer_dial_failure. rewrite (transport_failures_same clk st1 st2) by done.
  destruct (foldl _ _ _) as [[i es] rs]. intros E. outcome_inv.
  edestruct (defer_all_respects rnd (number rs)) as (y & Ey & Hy); [|done|].
  2:{ rewrite Ey. eexists. split; [done|]. by apply notify_proper. }
  destruct rs; [apply notify_proper; [|done]|]; by apply notify_all_equiv, put_info_proper.
Qed.

Lemma dial_failure_respects clk rnd h peer_id error :
  respects (fun st => dial_failure clk rnd st h peer_id error).
Proof.
  intros st1 st2 st1' H. unfold dial_failure. destruct (be_reads _ _ H) as (_ & _ & _ & _ & _ & -> & _).
  destruct (match handler_peer_id h with Some p => Some p | None => peer_id end) as [peer|];
    [|intros [= <-]; eauto].
  destruct (peers st1 !! peer) as [info|]; [|intros [= <-]; eauto].
  destruct (own h) as [[a n]|]; [by apply validation_failure_respects|].
  destruct error; try (intros [= <-]; eexists; split; [done|repeat equiv_step]).
  by apply peer_dial_failure_respects.
Qed.

Lemma established_respects t1 t2 peer cp n :
  respects (fun st => connection_established t1 t2 st peer cp n).
Proof.
  intros st1 st2 st1' H. unfold connection_established.
  destruct (be_reads _ _ H) as (_ & _ & _ & -> & _). intros E. outcome_inv.
  edestruct add_address_respects as (y & -> & Hy); [exact H|done|]. cbn.
  eexists. split; [done|]. unfold entry. destruct (be_reads _ _ Hy) as (_ & _ & _ & _ & _ & -> & _).
  repeat equiv_step.
Qed.

Lemma address_change_respects t1 t2 peer old new :
  respects (fun st => address_change t1 t2 st peer old new).
Proof.
  intros st1 st2 st1' H. unfold address_change.
  destruct (be_reads _ _ H) as (_ & _ & _ & -> & _). intros E. outcome_inv.
  edestruct add_address_respects as (y & -> & Hy); [exact H|done|]. cbn.
  eexists. split; [done|]. unfold entry. destruct (be_reads _ _ Hy) as (_ & _ & _ & _ & _ & -> & _).
  repeat equiv_step.
Qed.

Lemma on_swarm_event_respects clk rnd event : respects (fun st => on_swarm_event clk rnd st event).
Proof.
  intros st1 st2 st1' H. destruct event; cbn [on_swarm_event];
    first [by apply established_respects | by apply address_change_respects
          | by apply dial_failure_respects | idtac];
    intros [= <-]; eexists; (split; [done|]);
    unfold new_listen_addr, expired_listen_addr, external_addr_changed; same_reads H; repeat equiv_step.
Qed.
End Respects.

(** ** Two iteration orders *)
Section TwoOrders.
Context `{P : Profile} `{C : Chrono} `{L : Libp2p} `{Ch : Channels}.
Context {LL : Libp2pLaws} {CL : ChannelLaws}.
Context (HO1 HO2 : HashOrder) {HL1 : HashOrderLaws (H := HO1)} {HL2 : HashOrderLaws (H := HO2)}.

Lemma map_iter_perm `{Countable K} {A} (m : gmap K A) : map_iter (H := HO1) m ≡ₚ map_iter (H := HO2) m.
Proof. unfold map_iter. by rewrite !hash_order_perm. Qed.

Lemma mbind_perm {A B} (f g : A -> list B) (l : list A) :
  (forall x, f x ≡ₚ g x) -> l ≫= f ≡ₚ l ≫= g.
Proof. intros H. induction l as [|x l IH]; cbn; [done|]. by rewrite H, IH. Qed.

Lemma prunable_order now min_age i : prunable (HO := HO1) now min_age i = prunable (HO := HO2) now min_age i.
Proof. apply eq_bool_prop_intro. rewrite !Is_true_true, !prunable_stale. done. Qed.

Lemma prune_peers_equiv now st1 st2 min_age :
  book_equiv st1 st2 ->
  book_equiv (prune_peers (HO := HO1) now st1 min_age) (prune_peers (HO := HO2) now st2 min_age).
Proof.
  intros H. unfold prune_peers. fold drop_peer.
  replace (peers st2) with (peers st1) by (rewrite (be_state _ _ H); done).
  etransitivity; [by apply prune_all_proper|]. apply prune_loop_equiv, fmap_Permutation.
  rewrite (map_iter_perm (peers st1)). erewrite (list_filter_iff _ _); [reflexivity|].
  intros [p i]. by rewrite prunable_order.
Qed.

Lemma set_info_equiv clk st1 st2 peer identify st1' :
  (forall i, peers st1 !! peer = Some i -> map_Forall (fun a _ => ends_in_p2p a) (addresses i)) ->
  book_equiv st1 st2 -> set_info (HO := HO1) clk st1 peer identify ↓ st1' ->
  exists st2', set_info (HO := HO2) clk st2 peer identify ↓ st2' /\ book_equiv st1' st2'.
Proof.
  intros Hp [Hs Ha He] E.
  assert (Hpe : peers st2 = peers st1) by (by rewrite Hs).
  destruct (peers st1 !! peer) as [info|] eqn:Ei; cycle 1.
  { unfold set_info in *. rewrite Ei in E. injection E as <-. exists st2. rewrite Hpe, Ei. split; [done|]. by split. }
  specialize (Hp info eq_refl).
  destruct (set_info_spec (HO := HO1) clk st1 peer identify info Ei Hp) as (o1 & i1 & Hn1 & Hd1 & E1 & Hi1 & Ha1).
  destruct (set_info_spec (HO := HO2) clk st2 peer identify info ltac:(by rewrite Hpe) Hp)
    as (o2 & i2 & Hn2 & Hd2 & E2 & Hi2 & Ha2).
  rewrite E in E1. injection E1 as ->. eexists. split; [exact E2|].
  assert (Ho : o1 ≡ₚ o2).
  { apply NoDup_Permutation; [done..|]. intros a. rewrite Hd1, Hd2. by rewrite Hs. }
  assert (Hii : i1 = i2).
  { rewrite Hi1, Hi2. f_equal. apply map_eq. intros b. rewrite Ha1, Ha2. rewrite Hs.
    assert (Hb : b ∈ o1 <-> b ∈ o2) by (by rewrite Ho). repeat case_decide; tauto || done. }
  rewrite Hii. apply notify_proper; [|done]. apply put_info_proper; [|done..].
  split; [rewrite Hs; done| |exact He]. cbn. apply Permutation_app; [done|]. apply fmap_Permutation.
  rewrite Ho. rewrite Hs. done.
Qed.

(** Operations that do not take from the queues. *)
Definition only_queues (op : book_op) : bool :=
  match op with OpPoll _ _ | OpReceivers _ => false | _ => true end.

Lemma exec_equiv B op st1 st2 st1' :
  book_wf B st1 -> only_queues op = true -> book_equiv st1 st2 -> exec (HO := HO1) op st1 ↓ st1' ->
  exists st2', exec (HO := HO2) op st2 ↓ st2' /\ book_equiv st1' st2'.
Proof.
  intros Hwf Ho H. destruct op; try done; cbn [exec].
  - apply (respects_ret (fun st => dial st peer)); [apply dial_equiv|done].
  - apply (respects_ret (fun st => dial_address st peer a)); [apply dial_address_equiv|done].
  - by apply add_address_respects.
  - apply (respects_ret (fun st => remove_address st peer a)); [apply remove_address_equiv|done].
  - intros [= <-]. eexists. split; [done|]. by apply prune_peers_equiv.
  - apply (respects_ret (fun st => connection_closed now st peer cp num_established error));
      [apply connection_closed_equiv|done].
  - by apply set_rtt_respects.
  - apply set_info_equiv; [|done]. intros i Hi. by apply (bw_peers _ _ Hwf _ _ Hi).
  - apply (respects_ret (fun st => swarm_events st tx)); [|done]. intros ???. by apply swarm_events_equiv.
  - apply (respects_ret (fun st => notify st event)); [|done]. intros ???. by apply notify_proper.
  - by apply on_swarm_event_respects.
Qed.

(** Each operation is one the swarm can ask for in the state it is asked in. *)
Fixpoint admissible_run (B : Z) (st : AddressBook) (ops : list book_op) : Prop :=
  match ops with
  | [] => True
  | op :: ops => admissible B st op /\ forall st', exec (HO := HO1) op st ↓ st' -> admissible_run B st' ops
  end.

(** C13: the iteration order of hash maps does not matter.  Two address books that are
    equal up to the order of queued dials and of events, and whose hash maps iterate
    in different orders, are still equal in this sense after any sequence of requests,
    reports and events: same tables, listeners, external addresses, delayed dials and
    metrics; the same dials and events, possibly in another order.  Clients get the
    same information about every peer and the same lists up to order. *)
Theorem hash_order_irrelevant B ops st1 st2 st1' :
  book_wf B st1 -> book_equiv st1 st2 -> forallb only_queues ops = true -> admissible_run B st1 ops ->
  foldM (fun st op => exec (HO := HO1) op st) st1 ops ↓ st1' ->
  exists st2', foldM (fun st op => exec (HO := HO2) op st) st2 ops ↓ st2' /\ book_equiv st1' st2' /\
    (forall p, peer_info st2' p = peer_info st1' p) /\
    svc_peers (HO := HO1) st1' ≡ₚ svc_peers (HO := HO2) st2' /\
    svc_listeners (HO := HO1) st1' ≡ₚ svc_listeners (HO := HO2) st2' /\
    svc_connections (HO := HO1) st1' ≡ₚ svc_connections (HO := HO2) st2'.
Proof.
  revert st1 st2. induction ops as [|op ops IH]; intros st1 st2 Hwf H Ho Hadm E; cbn in *.
  - injection E as <-. exists st2. destruct (be_reads _ _ H) as (_ & _ & _ & _ & Hl & Hp & _).
    unfold peer_info, svc_peers, svc_listeners, svc_connections. rewrite Hl, Hp. split_and!; [done|done|done|..].
    + apply fmap_Permutation, map_iter_perm.
    + unfold set_iter. by rewrite !hash_order_perm.
    + rewrite (map_iter_perm (peers st1)). apply mbind_perm. intros [p i].
      apply fmap_Permutation, map_iter_perm.
  - apply andb_prop in Ho as [Ho1 Ho2]. destruct Hadm as [Hop Hadm]. outcome_inv.
    destruct (exec_equiv B op st1 st2 x) as (y & Ey & Hy); [done..|].
    destruct (exec_total (HO := HO1) B op st1 Hwf Hop) as (x0 & Ex & Hwf0 & _).
    match goal with E : exec (HO := HO1) op st1 ↓ _ |- _ => pose proof E as E1; rewrite E1 in Ex; injection Ex as <- end.
    rewrite Ey. cbn. apply (IH x y); auto.
Qed.
End TwoOrders.

Section HashEquivWitness.
Import Demo.

(** One hash map iterates backwards. *)
Definition backwards : HashOrder := {| hash_order := fun A l => reverse l |}.
Lemma backwards_laws : HashOrderLaws (H := backwards).
Proof. split. intros A l. apply reverse_Permutation. Qed.

(** Bob connects and tells his addresses; later peers are pruned. *)
Definition bob_visits : list book_op :=
  [OpOnSwarmEvent (fun _ => at_ns 10) zeros (FromSwarm.ConnectionEstablished bob incoming 0);
   OpSetInfo noon bob bobs_identify;
   OpPrunePeers (at_ns 1000) (from_secs 1)].
Definition visited := foldM (fun st op => exec (HO := sim_order) op st) fresh bob_visits.

Lemma hash_order_irrelevant_witness : exists st2,
  foldM (fun st op => exec (HO := backwards) op st) fresh bob_visits ↓ st2 /\
  actions (run visited) ≡ₚ actions st2.
Proof.
  destruct (hash_order_irrelevant sim_order backwards (HL1 := sim_order_laws) (HL2 := backwards_laws) 0
    bob_visits fresh fresh (run visited)) as (st2 & E & H & _).
  - apply book_new_wf.
  - reflexivity.
  - reflexivity.
  - split; [intros H; discriminate H|]. intros st' _. split; [exact I|]. intros st'' _. split; [exact I|].
    intros st3 _. exact I.
  - apply run_done. vm_compute. reflexivity.
  - exists st2. split; [exact E|]. apply (be_actions _ _ H).
Defined.
End HashEquivWitness.
