(* ===== verification/Executor.v ===== *)
(** * Task spawning (src/executor.rs)

    The crate is compiled with the features [tokio], [async_global] or both
    ([Features]); an enum variant behind [#[cfg(feature = ..)]] is a constructor
    that carries the proof that its feature is on, so that a match that compiles
    only under some features is total here for the same reason.  The two runtimes
    are the class [Runtimes]; what the crate relies on of them, that dropping a task
    of async-global-executor cancels it and that dropping a handle of tokio detaches
    its task, is [RuntimeLaws]. *)
From S2P Require Import Prelude.

Class Features := {
  tokio : bool;
  async_global : bool;
  an_executor : Is_true (tokio || async_global)
}.

Class Runtimes := {
  Rt : Type;
  Future : Type -> Type;
  Closure : Type -> Type;
  JoinError : Type;
  TokioHandle : Type -> Type;
  AgTask : Type -> Type;
  tokio_spawn : forall {T}, Rt -> Future T -> outcome (Rt * TokioHandle T);
  tokio_spawn_blocking : forall {T}, Rt -> Closure T -> outcome (Rt * TokioHandle T);
  tokio_abort : forall {T}, Rt -> TokioHandle T -> Rt;
  tokio_drop : forall {T}, Rt -> TokioHandle T -> Rt;
  tokio_poll : forall {T}, Rt -> TokioHandle T -> outcome (Poll (result T JoinError));
  ag_spawn : forall {T}, Rt -> Future T -> Rt * AgTask T;
  ag_spawn_blocking : forall {T}, Rt -> Closure T -> Rt * AgTask T;
  task_future : forall {T}, AgTask T -> Future T;
  ag_detach : forall {T}, Rt -> AgTask T -> Rt;
  ag_drop : forall {T}, Rt -> AgTask T -> Rt;
  ag_poll : forall {T}, Rt -> AgTask T -> outcome (Poll T)
}.

(** [scheduled rt i]: the runtime will go on running task [i]. *)
Class RuntimeLaws `{R : Runtimes} := {
  TaskId : Type;
  scheduled : Rt -> TaskId -> Prop;
  blocking : TaskId -> Prop;
  tokio_id : forall {T}, TokioHandle T -> TaskId;
  ag_id : forall {T}, AgTask T -> TaskId;
  in_tokio : Rt -> bool;
  (* spawning on tokio needs its context; a spawned task is a new one and runs *)
  tokio_spawn_spec : forall T rt (f : Future T),
    match tokio_spawn rt f with
    | Done (rt', h) => in_tokio rt = true /\ ~ scheduled rt (tokio_id h) /\ ~ blocking (tokio_id h) /\
        in_tokio rt' = in_tokio rt /\
        forall i, scheduled rt' i <-> i = tokio_id h \/ scheduled rt i
    | Panic _ => in_tokio rt = false
    end;
  tokio_spawn_blocking_spec : forall T rt (f : Closure T),
    match tokio_spawn_blocking rt f with
    | Done (rt', h) => in_tokio rt = true /\ ~ scheduled rt (tokio_id h) /\
        in_tokio rt' = in_tokio rt /\
        forall i, scheduled rt' i <-> i = tokio_id h \/ scheduled rt i
    | Panic _ => in_tokio rt = false
    end;
  tokio_abort_spec : forall T rt (h : TokioHandle T),
    ~ blocking (tokio_id h) ->
    forall i, scheduled (tokio_abort rt h) i <-> scheduled rt i /\ i <> tokio_id h;
  tokio_drop_spec : forall T rt (h : TokioHandle T) i, scheduled (tokio_drop rt h) i <-> scheduled rt i;
  ag_spawn_spec : forall T rt (f : Future T),
    let '(rt', t) := ag_spawn rt f in
    ~ scheduled rt (ag_id t) /\ in_tokio rt' = in_tokio rt /\
    forall i, scheduled rt' i <-> i = ag_id t \/ scheduled rt i;
  ag_spawn_blocking_spec : forall T rt (f : Closure T),
    let '(rt', t) := ag_spawn_blocking rt f in
    ~ scheduled rt (ag_id t) /\ in_tokio rt' = in_tokio rt /\
    forall i, scheduled rt' i <-> i = ag_id t \/ scheduled rt i;
  ag_detach_spec : forall T rt (t : AgTask T) i, scheduled (ag_detach rt t) i <-> scheduled rt i;
  ag_drop_spec : forall T rt (t : AgTask T) i,
    scheduled (ag_drop rt t) i <-> scheduled rt i /\ i <> ag_id t
}.

Section Executor.
Context `{F : Features} `{R : Runtimes}.

Inductive Executor : Type :=
| Tokio (on : Is_true tokio)
| AsyncGlobal (on : Is_true async_global).

Inductive JoinHandle (T : Type) : Type :=
| JTokio (on : Is_true tokio) (t : TokioHandle T)
| JAsyncGlobal (on : Is_true async_global) (t : option (AgTask T)).
#[global] Arguments JTokio {T} on t.
#[global] Arguments JAsyncGlobal {T} on t.

Lemma tokio_otherwise : ~ Is_true async_global -> Is_true tokio.
Proof. pose proof an_executor. destruct tokio, async_global; cbn in *; tauto. Qed.

(** Under [cfg(all(feature = "tokio", not(feature = "async_global")))] there is no
    variant [AsyncGlobal]. *)
Lemma no_async_global : Is_true (tokio && negb async_global) -> Is_true async_global -> False.
Proof. destruct tokio, async_global; cbn; tauto. Qed.

Lemma cfg_tokio_only : Is_true (tokio && negb async_global) -> negb async_global = true.
Proof. destruct tokio, async_global; cbn; tauto. Qed.

Lemma cfg_otherwise : ~ Is_true (tokio && negb async_global) -> Is_true tokio -> negb async_global = false.
Proof. destruct tokio, async_global; cbn; tauto. Qed.

(** The first [return] that is compiled. *)
Definition Executor_new : Executor :=
  match decide (Is_true async_global) with
  | left on => AsyncGlobal on
  | right off => Tokio (tokio_otherwise off)
  end.

Definition Executor_default : Executor := Executor_new.

Definition spawn {T} (self : Executor) (future : Future T) (rt : Rt) : outcome (Rt * JoinHandle T) :=
  match self with
  | AsyncGlobal on =>
      let '(rt, task) := ag_spawn rt future in Done (rt, JAsyncGlobal on (Some task))
  | Tokio on =>
      '(rt, task) ← tokio_spawn rt future; Done (rt, JTokio on task)
  end.

Definition spawn_blocking {T} (self : Executor) (f : Closure T) (rt : Rt) :
    outcome (Rt * JoinHandle T) :=
  match self with
  | AsyncGlobal on =>
      let '(rt, inner) := ag_spawn_blocking rt f in
      let '(rt, task) := ag_spawn rt (task_future inner) in
      Done (rt, JAsyncGlobal on (Some task))
  | Tokio on =>
      '(rt, task) ← tokio_spawn_blocking rt f; Done (rt, JTokio on task)
  end.

(** What the end of the scope of a handle does. *)
Definition drop_handle {T} (self : JoinHandle T) (rt : Rt) : Rt :=
  match self with
  | JTokio _ t => tokio_drop rt t
  | JAsyncGlobal _ (Some t) => ag_drop rt t
  | JAsyncGlobal _ None => rt
  end.

Definition detach {T} (self : JoinHandle T) (rt : Rt) : Rt :=
  match self with
  | JAsyncGlobal _ (Some t) => ag_detach rt t
  | other => drop_handle other rt
  end.

Definition abort {T} (self : JoinHandle T) (rt : Rt) : Rt :=
  match decide (Is_true (tokio && negb async_global)) with
  | left cfg =>
      match self with
      | JTokio _ t => tokio_drop (tokio_abort rt t) t
      | JAsyncGlobal on _ => match no_async_global cfg on with end
      end
  | right _ => drop_handle self rt
  end.

(** The two errors of the [Future] of a handle. *)
Inductive HandleError :=
| WithContext (message : string) (cause : JoinError)
| FutureDetached.

Definition poll_handle {T} (self : JoinHandle T) (rt : Rt) : outcome (Poll (result T HandleError)) :=
  match self with
  | JTokio _ j =>
      p ← tokio_poll rt j;
      Done match p with
           | Ready (Ok t) => Ready (Ok t)
           | Ready (Err e) => Ready (Err (WithContext "tokio::task::JoinHandle Error" e))
           | Pending => Pending
           end
  | JAsyncGlobal _ (Some handle) =>
      p ← ag_poll rt handle;
      Done match p with Ready r => Ready (Ok r) | Pending => Pending end
  | JAsyncGlobal _ None => Done (Ready (Err FutureDetached))
  end.
End Executor.

(** ** What the handles do *)
Section ExecutorProps.
Context `{F : Features} `{R : Runtimes} {RL : RuntimeLaws}.

(** The task of a handle. *)
Definition handle_id {T} (h : JoinHandle T) : option TaskId :=
  match h with
  | JTokio _ t => Some (tokio_id t)
  | JAsyncGlobal _ t => ag_id <$> t
  end.

(** A handle of the runtime of [e], with a task in it. *)
Definition handle_of {T} (e : Executor) (h : JoinHandle T) : Prop :=
  match e, h with
  | Tokio _, JTokio _ _ => True
  | AsyncGlobal _, JAsyncGlobal _ (Some _) => True
  | _, _ => False
  end.

Definition can_spawn (e : Executor) (rt : Rt) : bool :=
  match e with Tokio _ => in_tokio rt | AsyncGlobal _ => true end.

(** [i] is a task that was not there and is the only new one. *)
Definition spawned (rt rt' : Rt) (i : TaskId) : Prop :=
  ~ scheduled rt i /\ forall j, scheduled rt' j <-> j = i \/ scheduled rt j.

Lemma spawn_cases {T} e (f : Future T) rt :
  match spawn e f rt with
  | Done (rt', h) => can_spawn e rt = true /\ handle_of e h /\ in_tokio rt' = in_tokio rt /\
      exists i, handle_id h = Some i /\ spawned rt rt' i /\
        (forall on t, h = JTokio on t -> ~ blocking i)
  | Panic _ => can_spawn e rt = false
  end.
Proof.
  destruct e as [on|on]; cbn.
  - pose proof (tokio_spawn_spec T rt f) as H. destruct (tokio_spawn rt f) as [[rt' h]|w]; cbn; [|done].
    destruct H as (Hc & Hn & Hb & Hk & Hs). split_and!; [done..|]. exists (tokio_id h). done.
  - pose proof (ag_spawn_spec T rt f) as H. destruct (ag_spawn rt f) as [rt' t].
    destruct H as (Hn & Hk & Hs). split_and!; [done..|]. by exists (ag_id t).
Qed.

(** A handle that holds a task never reports that its task was detached. *)
Lemma handle_of_poll {T} e (h : JoinHandle T) rt :
  handle_of e h -> poll_handle h rt <> Done (Ready (Err FutureDetached)).
Proof.
  destruct e, h as [? t|? [t|]]; cbn; try done; intros _.
  - by destruct (tokio_poll rt t) as [[[]|]|].
  - by destruct (ag_poll rt t) as [[]|].
Qed.

(** Detaching leaves every task running. *)
Lemma detach_keeps {T} (h : JoinHandle T) rt i : scheduled (detach h rt) i <-> scheduled rt i.
Proof.
  destruct h as [? t|? [t|]]; cbn; [apply tokio_drop_spec|apply ag_detach_spec|done].
Qed.

(** Whether dropping or aborting a handle of [e] stops its task. *)
Definition drop_stops (e : Executor) : bool :=
  match e with Tokio _ => false | AsyncGlobal _ => true end.
Definition abort_stops (e : Executor) : bool :=
  match e with Tokio _ => negb async_global | AsyncGlobal _ => true end.

Lemma drop_exact {T} e (h : JoinHandle T) rt i :
  handle_of e h -> handle_id h = Some i ->
  forall j, scheduled (drop_handle h rt) j <-> scheduled rt j /\ (drop_stops e = true -> j <> i).
Proof.
  destruct e, h as [? t|? [t|]]; cbn; try done; intros _ [= <-] j.
  - rewrite tokio_drop_spec. naive_solver.
  - rewrite ag_drop_spec. naive_solver.
Qed.

Lemma abort_exact {T} e (h : JoinHandle T) rt i :
  handle_of e h -> handle_id h = Some i -> (forall on t, h = JTokio on t -> ~ blocking i) ->
  forall j, scheduled (abort h rt) j <-> scheduled rt j /\ (abort_stops e = true -> j <> i).
Proof.
  intros He Hi Hb j. unfold abort. case_decide as Hcfg.
  - destruct e as [on|on], h as [on' t|on' t]; cbn in *; try done.
    + injection Hi as <-. rewrite tokio_drop_spec, tokio_abort_spec by eauto.
      rewrite (cfg_tokio_only Hcfg). naive_solver.
    + destruct (no_async_global _ _).
  - rewrite (drop_exact e h rt i He Hi). destruct e as [on|on]; cbn; [|done].
    by rewrite (cfg_otherwise Hcfg on).
Qed.

(** [abort] does what it says for the executor that the crate chooses. *)
Lemma abort_stops_default : abort_stops Executor_new = true.
Proof.
  unfold Executor_new. case_decide as H; [done|]. cbn. clear -H. by destruct async_global.
Qed.

(** The typing of handles.  Spawning panics exactly if the executor is tokio and
    the caller is outside of its runtime.  Otherwise the handle is one of the
    runtime of its executor and holds exactly one new task, which runs; awaiting it
    never reports a detached future, whatever happens to the runtime.  [detach]
    leaves all tasks running. *)
Theorem spawn_typed {T} e (f : Future T) rt :
  match spawn e f rt with
  | Done (rt', h) =>
      can_spawn e rt = true /\ handle_of e h /\
      (exists i, handle_id h = Some i /\ spawned rt rt' i) /\
      (forall rt'', poll_handle h rt'' <> Done (Ready (Err FutureDetached))) /\
      (forall rt'' j, scheduled (detach h rt'') j <-> scheduled rt'' j)
  | Panic _ => can_spawn e rt = false
  end.
Proof.
  pose proof (spawn_cases e f rt) as H. destruct (spawn e f rt) as [[rt' h]|w]; [|done].
  destruct H as (Hc & He & _ & i & Hi & Hs & _). split_and!; [done..|by eauto| |].
  - intros rt''. by apply (handle_of_poll e).
  - intros rt'' j. apply detach_keeps.
Qed.

(** A spawned task and the ways to let go of its handle.  With the executor that
    the crate chooses ([Executor::new]), [abort] stops exactly that task, under
    either feature; and so does dropping the handle with async-global.  With both
    features and an explicit tokio executor, [abort] leaves the task running. *)
Theorem abort_effect {T} e (f : Future T) rt rt' h i :
  spawn e f rt = Done (rt', h) -> handle_id h = Some i ->
  (forall rt'' j, scheduled (abort h rt'') j <-> scheduled rt'' j /\ (abort_stops e = true -> j <> i)) /\
  (forall rt'' j, scheduled (drop_handle h rt'') j <-> scheduled rt'' j /\ (drop_stops e = true -> j <> i)) /\
  (e = Executor_new -> forall j, scheduled (abort h rt') j <-> scheduled rt j) /\
  (Is_true tokio -> Is_true async_global -> drop_stops e = false -> scheduled (abort h rt') i).
Proof.
  intros E Hi. pose proof (spawn_cases e f rt) as H. rewrite E in H.
  destruct H as (_ & He & _ & i' & Hi' & [Hn Hs] & Hb). rewrite Hi in Hi'. injection Hi' as <-.
  assert (Ha : forall rt'' j, scheduled (abort h rt'') j <-> scheduled rt'' j /\ (abort_stops e = true -> j <> i))
    by (intros; by apply abort_exact).
  split_and!; [done|intros; by apply drop_exact| |].
  - intros -> j. rewrite Ha, abort_stops_default, Hs. naive_solver.
  - intros _ Hag Hd. rewrite Ha, Hs. split; [by left|]. destruct e; cbn in *; [|done].
    clear -Hag. by destruct async_global.
Qed.
End ExecutorProps.

(** ** Two concrete runtimes: the tasks that run, and whether we are inside tokio *)
Module SimExecutor.
Record rt := mkRt { next_task : nat; live : gset nat; inside : bool }.

Definition run_task (s : rt) : rt * nat :=
  (mkRt (S (next_task s)) ({[next_task s]} ∪ filter (fun i => i < next_task s) (live s)) (inside s), next_task s).
Definition stop_task (s : rt) (i : nat) : rt := mkRt (next_task s) (live s ∖ {[i]}) (inside s).

#[export] Instance sim_runtimes : Runtimes | 100 := {|
  Rt := rt;
  Future := fun T => T;
  Closure := fun T => T;
  JoinError := string;
  TokioHandle := fun _ => nat;
  AgTask := fun T => (nat * T)%type;
  tokio_spawn := fun _ s _ =>
    if inside s then Done (run_task s) else Panic "no reactor running";
  tokio_spawn_blocking := fun _ s _ =>
    if inside s then Done (run_task s) else Panic "no reactor running";
  tokio_abort := fun _ s h => stop_task s h;
  tokio_drop := fun _ s _ => s;
  tokio_poll := fun _ s h => Done (if decide (h ∈ live s) then Pending else Ready (Err "cancelled"));
  ag_spawn := fun _ s f => let '(s, i) := run_task s in (s, (i, f));
  ag_spawn_blocking := fun _ s f => let '(s, i) := run_task s in (s, (i, f));
  task_future := fun _ t => t.2;
  ag_detach := fun _ s _ => s;
  ag_drop := fun _ s t => stop_task s t.1;
  ag_poll := fun _ s t => if decide (t.1 ∈ live s) then Done Pending else Panic "task has been canceled"
|}.

(** The runtime forgets tasks with a number it has not given out. *)
Definition sim_scheduled (s : rt) (i : nat) : Prop := i < next_task s /\ i ∈ live s.

Lemma run_task_spec s j :
  sim_scheduled (run_task s).1 j <-> j = next_task s \/ sim_scheduled s j.
Proof. unfold sim_scheduled. cbn. set_unfold. intuition lia. Qed.

Lemma stop_task_spec s i j : sim_scheduled (stop_task s i) j <-> sim_scheduled s j /\ j <> i.
Proof. unfold sim_scheduled. cbn. set_solver. Qed.

#[export] Instance sim_runtime_laws : RuntimeLaws (R := sim_runtimes).
Proof.
  refine {| TaskId := nat; scheduled := sim_scheduled : @Rt sim_runtimes -> nat -> Prop;
            blocking := fun _ => False; tokio_id := fun _ (h : @TokioHandle sim_runtimes _) => h;
            ag_id := fun _ (t : @AgTask sim_runtimes _) => t.1;
            in_tokio := inside : @Rt sim_runtimes -> bool |};
    cbn [tokio_spawn tokio_spawn_blocking ag_spawn ag_spawn_blocking sim_runtimes]; intros;
    try apply stop_task_spec; try done;
    try (destruct (inside rt0) eqn:E; [|done]); unfold run_task; split_and!;
    first [done | by intros [H _]; cbn in H; lia | exact id | intros j; apply run_task_spec].
Defined.

(** Both features, as a build with [--features tokio] has them. *)
#[export] Instance both_features : Features | 100 :=
  {| tokio := true; async_global := true; an_executor := I |}.
Definition on_tokio : Executor := Tokio (F := both_features) I.
Definition job : @Future sim_runtimes nat := 5.
Definition idle : @Rt sim_runtimes := mkRt 0 ∅ true.
End SimExecutor.

Section ExecutorWitness.
Import SimExecutor.

Lemma spawn_typed_witness : exists rt' h,
  spawn on_tokio job idle = Done (rt', h) /\ handle_of on_tokio h.
Proof.
  pose proof (spawn_typed on_tokio job idle) as H.
  eexists _, _. split; [reflexivity|]. exact (proj1 (proj2 H)).
Defined.

(** The garbage collector on an explicit tokio executor is not stopped. *)
Lemma abort_effect_witness : exists rt' h,
  spawn on_tokio job idle = Done (rt', h) /\ scheduled (abort h rt') 0.
Proof.
  eexists _, _. split; [reflexivity|].
  apply (abort_effect on_tokio job idle _ _ (0 : @TaskId sim_runtimes sim_runtime_laws));
    first [reflexivity | exact I].
Defined.
End ExecutorWitness.
