(* ===== verification/Lifetime.v ===== *)
(** * The background tasks of a node and who keeps them alive
      ([Ipfs::new0], [NetworkService::new], [Drop for StorageServiceInner])

    A node owns two tasks.  The handle of the network task is shared by the clones of
    [NetworkService]; the handle of the garbage collector belongs to
    [StorageServiceInner], shared by the clones of [StorageService], one of which is
    inside the future of the network task, with bitswap.  That future also holds
    a sender of its own command channel.  [Node] counts these references;
    [node_step] is what callers and runtime can do. *)
From S2P Require Import Prelude Executor Time Libp2p PeerInfo AddressHandler Peers Protocols Behaviour Net.
From S2P Require Import Service NetProps Config Db Ipfs.

Section Lifetime.
Context `{F : Features} `{R : Runtimes}.

(** [StorageServiceInner], for its task. *)
Record StorageServiceInner := mkInner { gc_task : option (JoinHandle unit) }.

(** The future of [poll_swarm]: whether bitswap, in the swarm, has the store. *)
Record SwarmFuture := mkSwarmFuture { holds_store : bool }.

Record Node := mkNode {
  n_rt : Rt;
  ipfs_refs : nat;
  query_refs : nat;
  _swarm_task : option (JoinHandle unit);
  swarm_future : option SwarmFuture;
  inner : option StorageServiceInner
}.

(** Owners of the [Arc<StorageServiceInner>], and of a sender of commands. *)
Definition storage_refs (n : Node) : nat :=
  ipfs_refs n + match swarm_future n with Some f => if holds_store f then 1 else 0 | None => 0 end.
Definition cmd_senders (n : Node) : nat :=
  ipfs_refs n + query_refs n + match swarm_future n with Some _ => 1 | None => 0 end.

(** [Drop for StorageServiceInner]. *)
Definition drop_inner (s : StorageServiceInner) (rt : Rt) : Rt :=
  match gc_task s with Some t => abort t rt | None => rt end.

(** What happens when an owner is gone: the last one drops what it owned. *)
Definition release_storage (n : Node) : Node :=
  if decide (storage_refs n = 0) then
    mkNode (match inner n with Some s => drop_inner s (n_rt n) | None => n_rt n end)
      (ipfs_refs n) (query_refs n) (_swarm_task n) (swarm_future n) None
  else n.

Definition release_network (n : Node) : Node :=
  if decide (ipfs_refs n = 0) then
    mkNode (match _swarm_task n with Some t => drop_handle t (n_rt n) | None => n_rt n end)
      (ipfs_refs n) (query_refs n) None (swarm_future n) (inner n)
  else n.

Definition with_refs (n : Node) (ipfs queries : nat) : Node :=
  mkNode (n_rt n) ipfs queries (_swarm_task n) (swarm_future n) (inner n).

(** The fields of [Ipfs] are dropped in the order of their declaration. *)
Definition drop_ipfs (n : Node) : Node :=
  release_network (release_storage (with_refs n (ipfs_refs n - 1) (query_refs n))).
Definition clone_ipfs (n : Node) : Node := with_refs n (S (ipfs_refs n)) (query_refs n).

(** The runtime drops the future of the network task. *)
Definition drop_swarm_future (n : Node) : Node :=
  release_storage (mkNode (n_rt n) (ipfs_refs n) (query_refs n) (_swarm_task n) None (inner n)).

(** [gc_loop] and [swarm_loop] are the futures that are spawned. *)
Context (gc_loop swarm_loop : Future unit).

(** [StorageService::open], up to the store itself. *)
Definition spawn_gc (e : Executor) (rt : Rt) : outcome (Rt * StorageServiceInner) :=
  '(rt, t) ← spawn e gc_loop rt; Done (rt, mkInner (Some t)).

(** The end of [NetworkService::new]. *)
Definition spawn_swarm (e : Executor) (bitswap : bool) (s : StorageServiceInner) (rt : Rt) : outcome Node :=
  '(rt, t) ← spawn e swarm_loop rt;
  Done (mkNode rt 1 0 (Some t) (Some (mkSwarmFuture bitswap)) (Some s)).

Context `{P : Profile} `{C : Chrono} `{L : Libp2p} `{Ch : Channels} `{HO : HashOrder}.
Context `{Pr : !Protocols} `{CC : !CommandChannel} `{BS : !BlockStores}.
Context `{Sw : !SwarmOps} `{Bu : !Builders} {SF : StoreFiles}.

(** [Ipfs::new0]: an error of the network drops the storage that was opened. *)
Definition new0 (e : Executor) (config : IpfsConfig) (fs : Fs) (rt : Rt) :
    outcome (Fs * Rt * result (Ipfs * Net * Node) IpfsError) :=
  let '(fs, r) := open (config_storage config) fs in
  match r with
  | Err why => Done (fs, rt, Err (StorageError why))
  | Ok (storage, _) =>
      '(rt, s) ← spawn_gc e rt;
      match service_new (config_network config) with
      | Ok (network, _, net) =>
          n ← spawn_swarm e (bool_decide (is_Some (nc_bitswap (config_network config)))) s rt;
          Done (fs, n_rt n, Ok (mkIpfs storage network, net, n))
      | Err why => Done (fs, drop_inner s rt, Err (StartError why))
      end
  end.

(** The tests of src/executor.rs: a node is started, and [unwrap] has a node. *)
Definition started_ok (r : outcome (Fs * Rt * result (Ipfs * Net * Node) IpfsError)) : outcome unit :=
  '(_, _, r) ← r;
  match r with Ok _ => Done tt | Err _ => Panic "called `Result::unwrap()` on an `Err` value" end.
Definition should_work_with_async_global_per_default (config : IpfsConfig) (fs : Fs) (rt : Rt) : outcome unit :=
  started_ok (new0 Executor_new config fs rt).
Definition should_panic_without_a_tokio_runtime (on : Is_true tokio) (config : IpfsConfig) (fs : Fs) (rt : Rt) :
    outcome unit :=
  _ ← new0 (Tokio on) config fs rt; Done tt.
Definition should_not_panic_with_a_tokio_runtime (on : Is_true tokio) (config : IpfsConfig) (fs : Fs) (rt : Rt) :
    outcome unit :=
  started_ok (new0 (Tokio on) config fs rt).
End Lifetime.

(** ** What callers and the runtime can do *)
Section LifetimeSteps.
Context `{F : Features} `{R : Runtimes} {RL : RuntimeLaws}.
Context (e : Executor) (swarm_id gc_id : TaskId) (store : bool).

Definition with_rt (n : Node) (rt : Rt) : Node :=
  mkNode rt (ipfs_refs n) (query_refs n) (_swarm_task n) (swarm_future n) (inner n).

(** A task that is no longer scheduled has its future dropped; the network task
    returns when no sender of commands is left; other tasks go on, end, and are started,
    such as those that the swarm and the listeners detach (src/net/mod.rs).  The stream
    of a libp2p swarm does not end, so that this is no way for the network task to return. *)
Inductive node_step : Node -> Node -> Prop :=
| ns_clone n : 0 < ipfs_refs n -> node_step n (clone_ipfs n)
| ns_drop n : 0 < ipfs_refs n -> node_step n (drop_ipfs n)
| ns_query n : is_Some (swarm_future n) -> node_step n (with_refs n (ipfs_refs n) (S (query_refs n)))
| ns_drop_query n : node_step n (with_refs n (ipfs_refs n) (query_refs n - 1))
| ns_cancelled n :
    is_Some (swarm_future n) -> ~ scheduled (n_rt n) swarm_id -> node_step n (drop_swarm_future n)
| ns_closed n rt' :
    is_Some (swarm_future n) -> cmd_senders n = 0 ->
    (forall i, scheduled rt' i <-> scheduled (n_rt n) i /\ i <> swarm_id) ->
    node_step n (drop_swarm_future (with_rt n rt'))
| ns_other n rt' :
    (forall i, i = swarm_id \/ i = gc_id -> scheduled rt' i <-> scheduled (n_rt n) i) ->
    node_step n (with_rt n rt').

(** *** The invariant *)
Definition managed (h : JoinHandle unit) (i : TaskId) : Prop :=
  handle_of e h /\ handle_id h = Some i /\ forall on t, h = JTokio on t -> ~ blocking i.

Definition storage_live (n : Node) : Prop :=
  (exists h, inner n = Some (mkInner (Some h)) /\ managed h gc_id) /\ scheduled (n_rt n) gc_id.
Definition storage_ok (n : Node) : Prop :=
  if decide (storage_refs n = 0) then inner n = None /\ (scheduled (n_rt n) gc_id <-> abort_stops e = false)
  else storage_live n.

Definition network_live (n : Node) : Prop :=
  (exists h, _swarm_task n = Some h /\ managed h swarm_id) /\ scheduled (n_rt n) swarm_id.
Definition network_ok (n : Node) : Prop :=
  if decide (ipfs_refs n = 0) then _swarm_task n = None /\ (scheduled (n_rt n) swarm_id <-> drop_stops e = false)
  else network_live n.

Definition node_wf (n : Node) : Prop :=
  storage_ok n /\ network_ok n /\
  (scheduled (n_rt n) swarm_id -> swarm_future n = Some (mkSwarmFuture store)) /\
  (forall f, swarm_future n = Some f -> f = mkSwarmFuture store).

Hypothesis distinct : swarm_id <> gc_id.

Lemma release_storage_fields n :
  let n' := release_storage n in
  ipfs_refs n' = ipfs_refs n /\ query_refs n' = query_refs n /\ _swarm_task n' = _swarm_task n /\
  swarm_future n' = swarm_future n /\ storage_refs n' = storage_refs n.
Proof. unfold release_storage. by case_decide. Qed.

Lemma release_network_fields n :
  let n' := release_network n in
  ipfs_refs n' = ipfs_refs n /\ query_refs n' = query_refs n /\ inner n' = inner n /\
  swarm_future n' = swarm_future n /\ storage_refs n' = storage_refs n.
Proof. unfold release_network. by case_decide. Qed.

(** Dropping the last reference stops the garbage collector where [abort] does. *)
Lemma release_storage_ok n :
  (if decide (storage_refs n = 0) then storage_live n \/ storage_ok n else storage_live n) ->
  storage_ok (release_storage n) /\
  (scheduled (n_rt (release_storage n)) swarm_id <-> scheduled (n_rt n) swarm_id).
Proof.
  unfold release_storage. case_decide as H0.
  - intros [[(h & Hh & Hm & Hi & Hb) Hs]|Hok].
    + unfold storage_ok. cbn. fold (storage_refs n). rewrite decide_True by done.
      rewrite Hh. unfold drop_inner. cbn. rewrite !(abort_exact e h (n_rt n) gc_id) by done.
      split; [split; [done|]|naive_solver]. destruct (abort_stops e); naive_solver.
    + unfold storage_ok in *. cbn. fold (storage_refs n). rewrite decide_True in Hok |- * by done.
      destruct Hok as [-> Hg]. done.
  - intros Hl. split; [|done]. unfold storage_ok. by rewrite decide_False.
Qed.

Lemma release_network_ok n :
  network_live n ->
  network_ok (release_network n) /\
  (scheduled (n_rt (release_network n)) gc_id <-> scheduled (n_rt n) gc_id) /\
  (scheduled (n_rt (release_network n)) swarm_id -> scheduled (n_rt n) swarm_id).
Proof.
  intros [(h & Hh & Hm & Hi & Hb) Hs]. unfold release_network.
  case_decide as H0; unfold network_ok; cbn.
  - rewrite decide_True by done. rewrite Hh, !(drop_exact e h (n_rt n) swarm_id) by done.
    split_and!; [done| |naive_solver..]. destruct (drop_stops e); naive_solver.
  - rewrite decide_False by done. split_and!; [|done..]. split; [|done]. by exists h.
Qed.

(** The conditions depend on the fields they name only. *)
Lemma storage_ok_ext n n' :
  storage_refs n' = storage_refs n -> inner n' = inner n ->
  (scheduled (n_rt n') gc_id <-> scheduled (n_rt n) gc_id) -> storage_ok n -> storage_ok n'.
Proof. unfold storage_ok, storage_live. intros -> -> H. case_decide; by rewrite H. Qed.

Lemma network_ok_ext n n' :
  ipfs_refs n' = ipfs_refs n -> _swarm_task n' = _swarm_task n ->
  (scheduled (n_rt n') swarm_id <-> scheduled (n_rt n) swarm_id) -> network_ok n -> network_ok n'.
Proof. unfold network_ok, network_live. intros -> -> H. case_decide; by rewrite H. Qed.

Lemma wf_live n : node_wf n -> 0 < ipfs_refs n -> storage_live n /\ network_live n.
Proof.
  unfold node_wf, storage_ok, network_ok, storage_refs. intros (Hs & Hn & _) H.
  rewrite decide_False in Hs by lia. by rewrite decide_False in Hn by lia.
Qed.

Lemma clone_wf n : node_wf n -> 0 < ipfs_refs n -> node_wf (clone_ipfs n).
Proof.
  intros Hwf H. destruct (wf_live n Hwf H) as [Hs Hn]. destruct Hwf as (_ & _ & Hf).
  split_and!; [| |apply Hf..]; unfold storage_ok, network_ok, storage_refs; cbn; done.
Qed.

Lemma drop_ipfs_wf n : node_wf n -> 0 < ipfs_refs n -> node_wf (drop_ipfs n).
Proof.
  intros Hwf H. destruct (wf_live n Hwf H) as [Hs Hn]. destruct Hwf as (_ & _ & Hf1 & Hf2).
  unfold drop_ipfs. set (n1 := with_refs n _ _).
  destruct (release_storage_ok n1) as [Hs1 Hk1]; [case_decide; [by left|done]|].
  destruct (release_storage_fields n1) as (Hi1 & _ & Ht1 & Hf & _).
  set (n2 := release_storage n1) in *.
  destruct (release_network_ok n2) as (Hn2 & Hg2 & Hw2).
  { unfold network_live. rewrite Hk1, Ht1. exact Hn. }
  destruct (release_network_fields n2) as (Hi2 & _ & Hin2 & Hf2' & Hr2).
  split_and!; [by apply (storage_ok_ext n2)|done| |]; rewrite Hf2', Hf; cbn.
  - intros Hsch. apply Hf1. apply Hw2 in Hsch. by apply Hk1 in Hsch.
  - apply Hf2.
Qed.

Lemma drop_future_wf n :
  node_wf n -> is_Some (swarm_future n) -> ~ scheduled (n_rt n) swarm_id -> node_wf (drop_swarm_future n).
Proof.
  intros (Hs & Hn & Hf1 & Hf2) [f Hf] Hno. unfold drop_swarm_future. set (n1 := mkNode _ _ _ _ _ _).
  destruct (release_storage_fields n1) as (Hi1 & _ & Ht1 & Hfu & _).
  destruct (release_storage_ok n1) as [Hs1 Hk1].
  { assert (Hle : storage_refs n1 <= storage_refs n)
      by (unfold storage_refs; rewrite Hf; cbn; destruct (holds_store f); lia).
    unfold storage_ok in Hs. destruct (decide (storage_refs n = 0)) as [H0|H0].
    - rewrite decide_True by lia. right. unfold storage_ok. by rewrite decide_True by lia.
    - case_decide; [by left|done]. }
  split_and!; [done| | |].
  - by apply (network_ok_ext n).
  - intros Hsch. by apply Hk1 in Hsch.
  - rewrite Hfu. done.
Qed.

Lemma node_step_wf n n' : node_wf n -> node_step n n' -> node_wf n'.
Proof.
  intros Hwf Hst. destruct Hst as [n H|n H|n H|n|n H1 H2|n rt' [f H1] H2 H3|n rt' H].
  - by apply clone_wf.
  - by apply drop_ipfs_wf.
  - exact Hwf.
  - exact Hwf.
  - by apply drop_future_wf.
  - unfold cmd_senders in H2. rewrite H1 in H2. lia.
  - destruct Hwf as (Hs & Hn & Hf1 & Hf2). split_and!; [| | |done].
    + apply (storage_ok_ext n); [done..| |done]. apply H. by right.
    + apply (network_ok_ext n); [done..| |done]. apply H. by left.
    + cbn. rewrite H by (by left). done.
Qed.

Lemma node_steps_wf n n' : node_wf n -> rtc node_step n n' -> node_wf n'.
Proof. induction 2; eauto using node_step_wf. Qed.

(** The network task never sees the end of its commands: it holds a sender. *)
Lemma commands_never_close n : is_Some (swarm_future n) -> 0 < cmd_senders n.
Proof. intros [f H]. unfold cmd_senders. rewrite H. lia. Qed.
End LifetimeSteps.

(** ** Properties *)
Section LifetimeProps.
Context `{F : Features} `{R : Runtimes} {RL : RuntimeLaws}.
Context (gc_loop swarm_loop : Future unit).
Context `{P : Profile} `{C : Chrono} `{L : Libp2p} `{Ch : Channels} `{HO : HashOrder}.
Context `{Pr : !Protocols} `{CC : !CommandChannel} `{BS : !BlockStores}.
Context `{Sw : !SwarmOps} `{Bu : !Builders} {SF : StoreFiles}.

Definition bitswap_enabled (config : IpfsConfig) : bool :=
  bool_decide (is_Some (nc_bitswap (config_network config))).

(** A node that was just started, with two tasks that were not there before. *)
Definition just_started (e : Executor) (config : IpfsConfig) (rt0 : Rt) (n : Node)
    (swarm_id gc_id : TaskId) : Prop :=
  swarm_id <> gc_id /\ ~ scheduled rt0 swarm_id /\ ~ scheduled rt0 gc_id /\
  node_wf e swarm_id gc_id (bitswap_enabled config) n /\ ipfs_refs n = 1 /\
  forall j, scheduled (n_rt n) j <-> j = swarm_id \/ j = gc_id \/ scheduled rt0 j.

Lemma spawn_swarm_started e config s h gc_id rt0 rt1 n :
  spawned rt0 rt1 gc_id -> managed e h gc_id -> s = mkInner (Some h) ->
  spawn_swarm swarm_loop e (bitswap_enabled config) s rt1 = Done n ->
  exists swarm_id, just_started e config rt0 n swarm_id gc_id.
Proof.
  intros [Hn1 Hs1] Hm -> E. unfold spawn_swarm in E. pose proof (spawn_cases e swarm_loop rt1) as Hc.
  destruct (spawn e swarm_loop rt1) as [[rt2 t]|]; [|done]. cbn in E. injection E as <-.
  destruct Hc as (_ & He & _ & i & Hi & [Hn2 Hs2] & Hb). exists i.
  assert (i <> gc_id) by (intros ->; apply Hn2, Hs1; by left).
  assert (Hi2 : scheduled rt2 i) by (apply Hs2; by left).
  assert (Hg2 : scheduled rt2 gc_id) by (apply Hs2; right; apply Hs1; by left).
  split_and!; [done| |done| |done|].
  - intros H'. apply Hn2, Hs1. by right.
  - split_and!; [| |done|by intros f [= <-]]; unfold storage_ok, network_ok; cbn.
    + split; [|done]. exists h. done.
    + split; [|done]. exists t. done.
  - intros j. cbn. rewrite Hs2, Hs1. done.
Qed.

(** What [new0] does to the tasks, on each of its ways out. *)
Lemma new0_cases e config fs rt0 :
  match new0 gc_loop swarm_loop e config fs rt0 with
  | Done (_, rt', Ok (_, _, n)) => n_rt n = rt' /\ exists swarm_id gc_id,
      just_started e config rt0 n swarm_id gc_id
  | Done (_, rt', Err _) => abort_stops e = true -> forall j, scheduled rt' j <-> scheduled rt0 j
  | Panic _ => can_spawn e rt0 = false
  end.
Proof.
  unfold new0. destruct (open _ fs) as [fs1 [[stg own]|err]]; [|done].
  unfold spawn_gc. pose proof (spawn_cases e gc_loop rt0) as Hc.
  destruct (spawn e gc_loop rt0) as [[rt1 h]|w]; [|done]. cbn.
  destruct Hc as (Hcan & He & Hin & gc_id & Hi & Hsp & Hb).
  destruct (service_new _) as [[[svc beh] net]|err].
  - fold (bitswap_enabled config).
    destruct (spawn_swarm swarm_loop e (bitswap_enabled config) (mkInner (Some h)) rt1) as [n|w] eqn:E; cbn.
    + split; [done|]. eapply spawn_swarm_started in E as [swarm_id Hj]; [|done..]. by eauto.
    + unfold spawn_swarm in E. pose proof (spawn_cases e swarm_loop rt1) as Hc'.
      destruct (spawn e swarm_loop rt1) as [[rt2 t]|w']; [done|].
      destruct e; cbn in *; congruence.
  - intros Ha j. unfold drop_inner. cbn. rewrite (abort_exact e h rt1 gc_id) by done.
    destruct Hsp as [Hn Hs]. rewrite Hs. naive_solver.
Qed.

(** Starting a node panics exactly if a task cannot be spawned and there is one to spawn. *)
Lemma new0_panics e config fs rt0 :
  is_done (new0 gc_loop swarm_loop e config fs rt0) = can_spawn e rt0 || negb (is_ok (open (config_storage config) fs).2).
Proof.
  pose proof (new0_cases e config fs rt0) as Hc. destruct (new0 _ _ e config fs rt0) as [x|w] eqn:E.
  - cbn. unfold new0 in E. destruct (open _ fs) as [fs1 [[stg own]|err]]; cbn; [|by rewrite orb_true_r].
    rewrite orb_false_r. unfold spawn_gc in E. pose proof (spawn_cases e gc_loop rt0) as Hs.
    destruct (spawn e gc_loop rt0) as [[rt1 h]|w]; [|done]. by destruct Hs.
  - rewrite Hc. unfold new0 in E. by destruct (open _ fs) as [fs1 [[stg own]|err]].
Qed.

(** The tests of the executor.  Where the store and the network of the configuration can
    be opened, a node starts on the default executor if that is async-global, wherever
    it is called; on tokio it starts inside of a tokio runtime and panics outside. *)
Theorem executor_tests_exact config fs rt :
  is_ok (open (config_storage config) fs).2 = true -> is_ok (service_new (config_network config)) = true ->
  (Is_true async_global ->
     should_work_with_async_global_per_default gc_loop swarm_loop config fs rt ↓ tt) /\
  (forall on, is_done (should_panic_without_a_tokio_runtime gc_loop swarm_loop on config fs rt) = in_tokio rt) /\
  (forall on, is_done (should_not_panic_with_a_tokio_runtime gc_loop swarm_loop on config fs rt) = in_tokio rt).
Proof.
  intros Ho Hs.
  assert (Hst : forall e, is_done (started_ok (new0 gc_loop swarm_loop e config fs rt)) = can_spawn e rt).
  { intros e. pose proof (new0_panics e config fs rt) as Hp. rewrite Ho, orb_false_r in Hp. rewrite <- Hp.
    unfold new0. destruct (open _ fs) as [fs1 [[stg own]|err]]; [|done].
    destruct (spawn_gc gc_loop e rt) as [[rt1 s]|w]; [|done]. cbn. destruct (service_new _) as [[[svc beh] net]|err]; [|done].
    by destruct (spawn_swarm _ _ _ _ _) as [n|w]. }
  split_and!.
  - intros on. unfold should_work_with_async_global_per_default. specialize (Hst Executor_new).
    unfold Executor_new in *. destruct (decide (Is_true async_global)) as [on'|]; [|done]. cbn in Hst.
    by destruct (started_ok _) as [[]|].
  - intros on. unfold should_panic_without_a_tokio_runtime. pose proof (new0_panics (Tokio on) config fs rt) as Hp.
    rewrite Ho, orb_false_r in Hp. cbn in Hp. rewrite <- Hp. by destruct (new0 _ _ _ config fs rt).
  - intros on. apply (Hst (Tokio on)).
Qed.

(** The end of a node whose tasks stop when their handles are dropped. *)
Lemma stopped_node e swarm_id gc_id store n :
  swarm_id <> gc_id -> drop_stops e = true -> abort_stops e = true -> ipfs_refs n = 0 ->
  node_wf e swarm_id gc_id store n ->
  exists n', rtc (node_step swarm_id gc_id) n n' /\
    ~ scheduled (n_rt n') swarm_id /\ ~ scheduled (n_rt n') gc_id /\ inner n' = None /\
    swarm_future n' = None.
Proof.
  intros Hd Hdrop Habort H0 Hwf. pose proof Hwf as (_ & Hn & _).
  unfold network_ok in Hn. rewrite decide_True in Hn by done.
  destruct Hn as [_ Hsw]. rewrite Hdrop in Hsw.
  assert (Hend : forall m, node_wf e swarm_id gc_id store m -> ipfs_refs m = 0 -> swarm_future m = None ->
    ~ scheduled (n_rt m) swarm_id /\ ~ scheduled (n_rt m) gc_id /\ inner m = None /\ swarm_future m = None).
  { intros m (Hs & Hm & Hf & _) Hm0 Hmf. unfold storage_ok, storage_refs in Hs. rewrite Hmf, Hm0 in Hs.
    cbn in Hs. destruct Hs as [Hin Hgc]. rewrite Habort in Hgc.
    split_and!; [|naive_solver..]. intros Hsm. specialize (Hf Hsm). congruence. }
  destruct (swarm_future n) as [f|] eqn:Ef.
  - exists (drop_swarm_future n). split.
    + apply rtc_once, ns_cancelled; [by eauto|naive_solver].
    + unfold drop_swarm_future. set (n1 := mkNode _ _ _ _ _ _).
      destruct (release_storage_fields n1) as (Hi & _ & _ & Hfu & _).
      apply Hend; [|by rewrite Hi|by rewrite Hfu].
      apply (drop_future_wf e swarm_id gc_id store Hd); [done|by eauto|naive_solver].
  - exists n. split; [done|]. by apply Hend.
Qed.

(** C18: the tasks of a node, from its start to its end, for an executor that stops a
    task whose handle is dropped (async-global, the default).  A start that fails
    leaves no task behind, and it panics only outside of the runtime it needs.
    A started node runs two new tasks; they run as long as a clone of it is left,
    whatever clones, queries and other tasks do; and once the last clone is dropped
    the runtime gets rid of both tasks, of the network future and of the storage. *)
Theorem node_stops_when_dropped e config fs rt0 :
  drop_stops e = true ->
  match new0 gc_loop swarm_loop e config fs rt0 with
  | Done (_, rt', Ok (_, _, n)) => exists swarm_id gc_id,
      (forall j, scheduled rt' j <-> j = swarm_id \/ j = gc_id \/ scheduled rt0 j) /\
      ~ scheduled rt0 swarm_id /\ ~ scheduled rt0 gc_id /\
      forall n', rtc (node_step swarm_id gc_id) n n' ->
        (0 < ipfs_refs n' -> scheduled (n_rt n') swarm_id /\ scheduled (n_rt n') gc_id) /\
        (ipfs_refs n' = 0 -> exists n'', rtc (node_step swarm_id gc_id) n' n'' /\
           ~ scheduled (n_rt n'') swarm_id /\ ~ scheduled (n_rt n'') gc_id /\ inner n'' = None /\
           swarm_future n'' = None)
  | Done (_, rt', Err _) => forall j, scheduled rt' j <-> scheduled rt0 j
  | Panic _ => can_spawn e rt0 = false
  end.
Proof.
  intros Hdrop. assert (Habort : abort_stops e = true) by (by destruct e).
  pose proof (new0_cases e config fs rt0) as Hc.
  destruct (new0 _ _ e config fs rt0) as [[[fs' rt'] [[[st net] n]|err]]|w]; [|by auto|done].
  destruct Hc as (<- & sid & gid & Hd & Hns & Hng & Hwf & _ & Hsch). exists sid, gid.
  split_and!; [done..|]. intros n' Hrtc.
  pose proof (node_steps_wf e sid gid _ Hd n n' Hwf Hrtc) as Hwf'. split.
  - intros H. destruct (wf_live _ _ _ _ n' Hwf' H) as [[_ ?] [_ ?]]. done.
  - intros H0. by apply (stopped_node e sid gid (bitswap_enabled config)).
Qed.

(** C19: under tokio the network task of a node cannot be stopped.  Dropping its handle
    detaches it, and it holds a sender of its command channel, so that it never sees the
    channel close: whatever is dropped, the task stays (the stream of a libp2p swarm, whose
    end would be the other way out, does not end).  With bitswap enabled, as it is by
    default, it also holds the storage, so that the storage and the garbage collector
    stay.  Without bitswap the storage goes with the last handle of the node, and the
    collector with it, if aborting a task has an effect. *)
Theorem tokio_node_never_stops e config fs rt0 fs' rt' st net n :
  drop_stops e = false ->
  new0 gc_loop swarm_loop e config fs rt0 = Done (fs', rt', Ok (st, net, n)) ->
  exists swarm_id gc_id, ~ scheduled rt0 swarm_id /\ ~ scheduled rt0 gc_id /\
    forall n', rtc (node_step swarm_id gc_id) n n' ->
      scheduled (n_rt n') swarm_id /\ 0 < cmd_senders n' /\
      match nc_bitswap (config_network config) with
      | Some _ => is_Some (inner n') /\ scheduled (n_rt n') gc_id
      | None =>
          if decide (ipfs_refs n' = 0) then inner n' = None /\ (scheduled (n_rt n') gc_id <-> abort_stops e = false)
          else is_Some (inner n') /\ scheduled (n_rt n') gc_id
      end.
Proof.
  intros Hdrop E. pose proof (new0_cases e config fs rt0) as Hc. rewrite E in Hc.
  destruct Hc as (_ & sid & gid & Hd & Hns & Hng & Hwf & _). exists sid, gid. split_and!; [done..|].
  intros n' Hrtc. pose proof (node_steps_wf e sid gid _ Hd n n' Hwf Hrtc) as (Hs & Hn & Hf & _).
  assert (Hsw : scheduled (n_rt n') sid).
  { unfold network_ok in Hn. case_decide; [by apply Hn|apply Hn]. }
  specialize (Hf Hsw). split_and!; [done|apply commands_never_close; by rewrite Hf|].
  assert (Hlive : storage_live e gid n' -> is_Some (inner n') /\ scheduled (n_rt n') gid).
  { intros [(h & Hi & _) Hg]. by rewrite Hi. }
  unfold storage_ok, storage_refs in Hs. rewrite Hf in Hs. unfold bitswap_enabled in Hs. cbn in Hs.
  destruct (nc_bitswap (config_network config)).
  - rewrite bool_decide_eq_true_2, decide_False in Hs by (done || lia). by apply Hlive.
  - rewrite bool_decide_eq_false_2, Nat.add_0_r in Hs by (by intros [? ?]). case_decide; [done|by apply Hlive].
Qed.
End LifetimeProps.

Section LifetimeWitness.
Import SimExecutor NetDemo SimService SimStore.
#[local] Existing Instances sim_files resolving.

Definition loop : @Future sim_runtimes unit := tt.
Definition my_config := IpfsConfig_new "made-up-1" "." (1%N : @Keypair sim).
Definition launched (e : Executor) := new0 loop loop e my_config no_files idle.
Definition on_async_global : Executor := AsyncGlobal (F := both_features) I.

(** One clone more and both dropped. *)
Lemma node_stops_when_dropped_witness : exists fs rt' st net n n' swarm_id gc_id,
  launched on_async_global = Done (fs, rt', Ok (st, net, n)) /\
  rtc (node_step swarm_id gc_id) (drop_ipfs (drop_ipfs (clone_ipfs n))) n' /\ inner n' = None.
Proof.
  pose proof (node_stops_when_dropped loop loop on_async_global my_config no_files idle eq_refl) as H.
  fold (launched on_async_global) in H.
  destruct (launched on_async_global) as [[[fs rt'] [[[st net] n]|e]]|w] eqn:E; [|discriminate E..].
  assert (Hn : ipfs_refs n = 1) by (injection E as _ _ _ _ <-; reflexivity).
  destruct H as (sid & gid & _ & _ & _ & H).
  destruct (H (drop_ipfs (drop_ipfs (clone_ipfs n)))) as [_ Hend].
  - injection E as _ _ _ _ <-.
    eapply rtc_l; [apply ns_clone; vm_compute; lia|].
    eapply rtc_l; [apply ns_drop; vm_compute; lia|].
    eapply rtc_l; [apply ns_drop; vm_compute; lia|]. apply rtc_refl.
  - destruct Hend as (n' & Hr & _ & _ & Hin & _); [injection E as _ _ _ _ <-; reflexivity|].
    exists fs, rt', st, net, n, n', sid, gid. auto.
Defined.

Lemma tokio_node_never_stops_witness : exists fs rt' st net n,
  launched on_tokio = Done (fs, rt', Ok (st, net, n)) /\ ipfs_refs (drop_ipfs n) = 0 /\
  exists gc_id, scheduled (n_rt (drop_ipfs n)) gc_id.
Proof.
  destruct (launched on_tokio) as [[[fs rt'] [[[st net] n]|e]]|w] eqn:E; [|discriminate E..].
  exists fs, rt', st, net, n. split; [reflexivity|]. split; [injection E as _ _ _ _ <-; reflexivity|].
  destruct (tokio_node_never_stops loop loop on_tokio my_config no_files idle fs rt' st net n eq_refl)
    as (sid & gid & _ & _ & H); [exact E|].
  exists gid. apply (H (drop_ipfs n)). apply rtc_once, ns_drop.
  injection E as _ _ _ _ <-. vm_compute. lia.
Defined.

Lemma executor_tests_exact_witness :
  should_work_with_async_global_per_default (F := both_features) loop loop my_config no_files idle ↓ tt.
Proof.
  apply (executor_tests_exact (F := both_features) loop loop my_config no_files idle); reflexivity || exact I.
Defined.
End LifetimeWitness.
