(* ===== verification/Main.v ===== *)
(** * The command line tool (cli/src/main.rs, [Config] and [keypair] of cli/src/lib.rs)

    The tool starts a node from its options, prints the node's events as lines,
    and handles one command per line of its input.  [Console] is the node with
    what was written to the two outputs.  While a [Sync] is awaited the rest of
    the program goes on: how it ends is part of [Meanwhile]. *)
From stdpp Require Import pretty.
From S2P Require Import Prelude Time Libp2p PeerInfo AddressHandler Peers Protocols Behaviour Net.
From S2P Require Import Service NetProps Config Cli CliProps Db Ipfs.

(** ** Text of Rust strings: [str::chars] of UTF-8 bytes *)

Fixpoint utf8_decode (l : bytes) : Text :=
  match l with
  | [] => []
  | b :: l1 =>
      if decide (b < 128)%Z then b :: utf8_decode l1
      else if decide (b < 224)%Z then
        match l1 with c :: l2 => ((b - 192) * 64 + (c - 128))%Z :: utf8_decode l2 | [] => [] end
      else if decide (b < 240)%Z then
        match l1 with
        | c :: d :: l3 => ((b - 224) * 4096 + (c - 128) * 64 + (d - 128))%Z :: utf8_decode l3
        | _ => []
        end
      else
        match l1 with
        | c :: d :: e :: l4 =>
            ((b - 240) * 262144 + (c - 128) * 4096 + (d - 128) * 64 + (e - 128))%Z :: utf8_decode l4
        | _ => []
        end
  end.

Definition chars (s : string) : Text := utf8_decode (txt s).

(** A Unicode scalar value. *)
Definition is_scalar (c : Z) : Prop := (0 <= c < 55296 \/ 57344 <= c < 1114112)%Z.

Lemma utf8_decode_char c l : is_scalar c -> utf8_decode (utf8_char c ++ l) = c :: utf8_decode l.
Proof.
  unfold is_scalar, utf8_char. intros Hc.
  repeat case_decide; cbn [app utf8_decode]; repeat case_decide;
    try (Z.div_mod_to_equations; lia); f_equal; Z.div_mod_to_equations; lia.
Qed.

Lemma utf8_decode_as_bytes t : Forall is_scalar t -> utf8_decode (as_bytes t) = t.
Proof.
  induction 1 as [|c t Hc _ IH]; [done|]. change (as_bytes (c :: t)) with (utf8_char c ++ as_bytes t).
  by rewrite utf8_decode_char, IH.
Qed.

(** ** Options and start-up *)

Record CliConfig `{L : Libp2p} := mkCliConfig {
  cli_path : option string;
  cli_node_name : option string;
  cli_keypair : Z;
  cli_enable_mdns : bool;
  cli_listen_on : list Multiaddr;
  cli_bootstrap : list Multiaddr;
  cli_external : list Multiaddr;
  cli_disable_port_reuse : bool
}.

(** [u64::to_be_bytes]. *)
Definition to_be_bytes (i : Z) : bytes :=
  (fun k => Z.land (Z.shiftr i (8 * k)) 255) <$> [7; 6; 5; 4; 3; 2; 1; 0]%Z.

(** The secret of [keypair(i)]: eight bytes of the number and zeros. *)
Definition secret (i : Z) : bytes := to_be_bytes i ++ replicate 24 0%Z.

(** [SecretKey::from_bytes(..).unwrap()] and the conversions of blocks. *)
Class CliNode `{T : CliText} `{BS : !BlockStores} := {
  keypair_of_secret : bytes -> Keypair;
  block_new_unchecked : Cid -> StoreData -> Block;
  block_into_data : Block -> StoreData
}.

Class CliNodeLaws `{N : CliNode} : Prop := {
  new_unchecked_parts b : block_new_unchecked (block_cid b) (block_into_data b) = b
}.

Section Main.
Context `{P : Profile} `{C : Chrono} `{L : Libp2p} `{Ch : Channels} `{HO : HashOrder}.
Context `{Pr : !Protocols} `{Sw : !SwarmOps} `{CC : !CommandChannel} `{Bu : !Builders}.
Context `{T : !CliText} `{BS : !BlockStores} `{N : !CliNode}.

Definition keypair (i : Z) : Keypair := keypair_of_secret (secret i).
Definition peer_id (i : Z) : PeerId := public_to_peer (keypair_public (keypair i)).

Definition CliConfig_new (keypair : Z) (default_listen : Multiaddr) : CliConfig :=
  mkCliConfig L None None keypair false [default_listen] [] [] false.

(** The arguments of the process that runs the tool, as bytes. *)
Definition cli_args (c : CliConfig) : list Text :=
  match cli_path c with Some p => [txt "--path"; txt p] | None => [] end ++
  match cli_node_name c with Some n => [txt "--node-name"; txt n] | None => [] end ++
  [txt "--keypair"; txt (pretty (cli_keypair c))] ++
  (a ← cli_listen_on c; [txt "--listen-on"; show_addr a]) ++
  (a ← cli_bootstrap c; [txt "--bootstrap"; show_addr a]) ++
  (a ← cli_external c; [txt "--external"; show_addr a]) ++
  (if cli_enable_mdns c then [txt "--enable-mdns"] else []) ++
  (if cli_disable_port_reuse c then [txt "--disable-port-reuse"] else []).

Definition with_agent_version (i : IdentifyConfig PublicKey IdentifyOptions) (v : string) :=
  mkIdentifyConfig (ic_protocol_version i) (ic_local_public_key i) v (ic_options i).

(** The configuration of the node; [name] and [generated] are the name and the
    key that [NetworkConfig::default()] makes up. *)
Definition node_config (name : string) (generated : Keypair) (config : CliConfig) :
    outcome (StorageConfig * NetworkConfig) :=
  let sweep_interval := mkDuration 10 0 in
  let storage := StorageConfig_new (cli_path config) None 10 sweep_interval in
  let default := NetworkConfig_new name generated in
  let node_name :=
    match cli_node_name config with
    | Some node_name => node_name
    | None => "node" +:+ pretty (cli_keypair config)
    end in
  identify ← unwrap "called `Option::unwrap()` on a `None` value" (nc_identify default);
  mret (storage,
    mkNetworkConfig (nc_enable_loopback default) (negb (cli_disable_port_reuse config))
      (nc_node_name default) (keypair (cli_keypair config)) (nc_psk default) (nc_dns default)
      (if cli_enable_mdns config then Some MdnsConfig_default else None) None (nc_ping default)
      (Some (with_agent_version identify node_name)) (nc_gossipsub default) (nc_broadcast default)
      (nc_bitswap default) (nc_keep_alive default)).

(** The node listens on and announces the given addresses; the streams of the
    listeners are dropped. *)
Definition start_node (config : CliConfig) (tx : nat -> Sender ListenerEvent) (events : Tx) (st : Ipfs) :
    outcome (Ipfs * call) :=
  let '(st, swarm_events) := ipfs_swarm_events st events in
  match swarm_events with
  | ReadyErr e => mret (st, ReadyErr e)
  | Awaits rx =>
      let st := foldl (fun st '(n, a) => (ipfs_listen_on st a (tx n)).1) st (number (cli_listen_on config)) in
      let st := foldl ipfs_add_external_address st (cli_external config) in
      match cli_bootstrap config with
      | [] => mret (st, Awaits rx)
      | _ => Panic "not implemented"
      end
  end.

(** ** Printing the events of the node *)

(** [info] is the peer information at the time the event is printed. *)
Definition print_event (debug_source : AddressSource -> string)
    (debug_failure : ConnectionFailure -> string) (info : PeerId -> option PeerInfo) (e : Event.t) :
    option CliEvent.t :=
  match e with
  | Event.NewListener _ => Some CliEvent.NewListener
  | Event.NewListenAddr _ addr => Some (CliEvent.NewListenAddr addr)
  | Event.ExpiredListenAddr _ addr => Some (CliEvent.ExpiredListenAddr addr)
  | Event.ListenerClosed _ => Some CliEvent.ListenerClosed
  | Event.NewExternalAddr addr => Some (CliEvent.NewExternalAddr addr)
  | Event.ExpiredExternalAddr addr => Some (CliEvent.ExpiredExternalAddr addr)
  | Event.Discovered peer => Some (CliEvent.Discovered peer)
  | Event.Unreachable peer => Some (CliEvent.Unreachable peer)
  | Event.Connected peer => Some (CliEvent.Connected peer)
  | Event.Disconnected peer => Some (CliEvent.Disconnected peer)
  | Event.Subscribed peer topic => Some (CliEvent.Subscribed peer (chars topic))
  | Event.Unsubscribed peer topic => Some (CliEvent.Unsubscribed peer (chars topic))
  | Event.Bootstrapped => Some CliEvent.Bootstrapped
  | Event.NewInfo peer =>
      match info peer with
      | Some i => Some (CliEvent.PeerInfoEvent peer (peer_info_io debug_source debug_failure i))
      | None => Some (CliEvent.PeerRemoved peer)
      end
  | Event.ListenerError _ _ => None
  | Event.DialFailure p a e => Some (CliEvent.DialFailure p a (chars e))
  | Event.ConnectionEstablished p a => Some (CliEvent.ConnectionEstablished p (get_remote_address a))
  | Event.ConnectionClosed p a => Some (CliEvent.ConnectionClosed p (get_remote_address a))
  | Event.AddressChanged _ _ _ => None
  end.

(** ** The loop over the input lines *)

Inductive MainError :=
| BadLine (e : ParseError)
| NodeError (e : IpfsError).

Record Console := mkConsole {
  node : Ipfs;
  stdout : list Text;
  stderr : list (Text * MainError)  (* main loop error (line = ..): .. *)
}.

Definition on_node (c : Console) (st : Ipfs) : Console := mkConsole st (stdout c) (stderr c).
Definition print (c : Console) (e : CliEvent.t) : Console :=
  mkConsole (node c) (stdout c ++ [show_event e]) (stderr c).
Definition report (c : Console) (line : Text) (e : MainError) : Console :=
  mkConsole (node c) (stdout c) (stderr c ++ [(line, e)]).

(** What an iteration is given from outside: the address book it reads, a new
    channel, and how an awaited sync ends. *)
Record Meanwhile := mkMeanwhile {
  mw_book : AddressBook;
  mw_tx : Tx;
  mw_sync : Ipfs -> Ipfs * result unit ClientError
}.

(** [result.map(|x| println!(..))] or the report of the error. *)
Definition conclude {A} (c : Console) (line : Text) (r : Ipfs * result A IpfsError)
    (said : A -> option CliEvent.t) : Console :=
  let c := on_node c r.1 in
  match r.2 with
  | Ok a => match said a with Some e => print c e | None => c end
  | Err e => report c line (NodeError e)
  end.

(** [ipfs.sync(&cid, providers).and_then(|f| f)], awaited. *)
Definition await_sync (m : Meanwhile) (st : Ipfs) (cid : Cid) : Ipfs * result unit IpfsError :=
  let providers := ipfs_peers st (mw_book m) in
  let '(st, call) := ipfs_sync st cid providers (mw_tx m) in
  match call with
  | SyncReady r => (st, match r with Ok _ => Ok tt | Err e => Err (NetworkError e) end)
  | SyncCall (ReadyErr e) => (st, Err (NetworkError e))
  | SyncCall (Awaits _) =>
      let '(st, r) := mw_sync m st in
      (st, match r with Ok _ => Ok tt | Err e => Err (NetworkError e) end)
  end.

Definition handle_line (m : Meanwhile) (c : Console) (line : Text) : outcome Console :=
  r ← parse_command line;
  mret match r with
  | Ok (CliCommand.AddAddress peer addr) => on_node c (ipfs_add_address (node c) peer addr)
  | Ok (CliCommand.Dial peer) => on_node c (ipfs_dial (node c) peer)
  | Ok CliCommand.PrunePeers => on_node c (ipfs_prune_peers (node c) ZERO)
  | Ok (CliCommand.Get cid) =>
      conclude c line (ipfs_get (node c) cid)
        (fun b => Some (CliEvent.BlockEvent (block_new_unchecked b.1 b.2)))
  | Ok (CliCommand.Insert block) =>
      conclude c line (ipfs_insert (node c) (block_cid block) (block_into_data block)) (fun _ => None)
  | Ok (CliCommand.Alias alias cid) =>
      conclude c line (ipfs_alias (node c) (as_bytes alias) cid) (fun _ => None)
  | Ok CliCommand.Flush => conclude c line (ipfs_flush (node c)) (fun _ => Some CliEvent.Flushed)
  | Ok (CliCommand.Sync cid) =>
      conclude c line (await_sync m (node c) cid) (fun _ => Some CliEvent.Synced)
  | Err e => report c line (BadLine e)
  end.

(** [stdin.read_line]: [None] is an error; at the end of the input the line stays
    empty. *)
Definition read_stdin (stdin : list (option Text)) : option Text * list (option Text) :=
  match stdin with
  | [] => (Some [], [])
  | l :: rest => (l, rest)
  end.

Inductive run := Running (c : Console) | Returned (c : Console).

(** [n] iterations of the loop, each with what it is given from outside. *)
Fixpoint main_loop (ms : list Meanwhile) (c : Console) (stdin : list (option Text)) : outcome run :=
  match ms with
  | [] => mret (Running c)
  | m :: ms =>
      let '(line, stdin) := read_stdin stdin in
      match line with
      | None => mret (Returned c)
      | Some line => c ← handle_line m c line; main_loop ms c stdin
      end
  end.

(** ** Properties *)

Definition with_node_name (c : CliConfig) (n : option string) : CliConfig :=
  mkCliConfig L (cli_path c) n (cli_keypair c) (cli_enable_mdns c) (cli_listen_on c) (cli_bootstrap c)
    (cli_external c) (cli_disable_port_reuse c).

(** The option [--node-name] has no effect: the network started from the
    options is the same for every node name, and its name is the one that was
    made up (the agent version set here is overwritten when the behaviour is
    built). *)
Theorem node_name_option_ignored name generated c n :
  (p ← node_config name generated (with_node_name c n); mret (service_new p.2)) =
    (p ← node_config name generated c; mret (service_new p.2)) /\
  forall storage network svc beh net,
    node_config name generated c ↓ (storage, network) -> service_new network = Ok (svc, beh, net) ->
    local_node_name svc = name.
Proof.
  split; [done|]. intros storage network svc beh net [= <- <-].
  unfold service_new, behaviour_new. cbn.
  destruct (build (if cli_enable_mdns c then _ else _) _); cbn; [|done].
  destruct (Gossipsub_new _ _); cbn; [|done].
  destruct (Dns_system _); cbn; [|done]. by intros [= <- _ _].
Qed.

(** At the end of its input the tool does not stop: however many iterations it
    makes, the loop goes on, and each has reported the empty line as invalid and
    done nothing else. *)
Theorem console_spins_at_eof ms c :
  main_loop ms c [] ↓
    Running (mkConsole (node c) (stdout c) (stderr c ++ replicate (length ms) ([], BadLine InvalidLine))).
Proof.
  revert c. induction ms as [|m ms IH]; intros c.
  - cbn. rewrite app_nil_r. by destruct c.
  - change (main_loop (m :: ms) c []) with (main_loop ms (report c [] (BadLine InvalidLine)) []).
    rewrite IH. cbn. by rewrite <- app_assoc.
Qed.

Context {SL : StoreLaws} {CCL : CommandChannelLaws} {TL : CliTextLaws} {NL : CliNodeLaws}.

(** Inserting a block and asking for it, over the lines of the tool: if the
    storage does not fail, the tool prints exactly the line of that block (from
    which the block can be read back) and reports no error. *)
Theorem console_insert_get m1 m2 c b :
  let inserted := ipfs_insert (node c) (block_cid b) (block_into_data b) in
  block_data b <> [] -> is_ok inserted.2 = true -> is_ok (ipfs_get inserted.1 (block_cid b)).2 = true ->
  exists c', (c1 ← handle_line m1 c (show_command (CliCommand.Insert b));
              handle_line m2 c1 (show_command (CliCommand.Get (block_cid b)))) ↓ c' /\
    stdout c' = stdout c ++ [show_event (CliEvent.BlockEvent b)] /\ stderr c' = stderr c /\
    parse_event (show_event (CliEvent.BlockEvent b)) ↓ Ok (CliEvent.BlockEvent b).
Proof.
  intros inserted Hb Hi Hg. unfold handle_line.
  rewrite (command_reads_back (CliCommand.Insert b)) by done. cbn -[show_command show_event].
  rewrite (command_reads_back (CliCommand.Get (block_cid b))) by done. cbn -[show_command show_event].
  fold inserted. unfold conclude. destruct inserted as [st1 r] eqn:Ei.
  cbn -[show_event] in *. destruct r as [[]|]; [|done]. cbn -[show_event].
  pose proof (st_insert_view (node c) (block_cid b, block_into_data b) st1 Ei) as Hv.
  destruct (ipfs_get st1 (block_cid b)) as [st2 [[c' d]|e]] eqn:Eg; [|done].
  pose proof (st_get_view st1 (block_cid b) st2 (c', d)) as Hget.
  cbn in Hv, Hget. destruct (Hget Eg) as (-> & Hd & _). rewrite Hv in Hd. cbn in Hd.
  rewrite lookup_insert_eq in Hd. injection Hd as <-.
  eexists. split; [done|]. cbn -[show_event]. rewrite new_unchecked_parts. repeat split.
  by apply event_reads_back.
Qed.
End Main.

(** The number of a node is in its secret. *)
Lemma to_be_bytes_value i :
  (0 <= i < 2 ^ 64)%Z -> foldl (fun acc b => acc * 256 + b)%Z 0%Z (to_be_bytes i) = i.
Proof.
  intros Hi. unfold to_be_bytes. cbn [fmap list_fmap foldl].
  change 255%Z with (Z.ones 8). rewrite !Z.land_ones, !Z.shiftr_div_pow2 by lia.
  change (2 ^ 64)%Z with 18446744073709551616%Z in Hi. cbn -[Z.div Z.modulo Z.mul].
  Z.div_mod_to_equations. lia.
Qed.

(** Nodes with different numbers have different secrets, of 32 bytes. *)
Theorem secret_inj i j :
  (0 <= i < 2 ^ 64)%Z -> (0 <= j < 2 ^ 64)%Z ->
  length (secret i) = 32 /\ Forall (fun b => 0 <= b < 256)%Z (secret i) /\
  (secret i = secret j -> i = j).
Proof.
  intros Hi Hj. split; [done|]. split.
  - apply Forall_app. split; [|apply Forall_replicate; lia].
    apply Forall_fmap, Forall_forall. intros k _. cbn. change 255%Z with (Z.ones 8).
    rewrite Z.land_ones by lia. apply (Z.mod_pos_bound _ (2 ^ 8)). lia.
  - intros E. apply app_inj_1 in E as [E _]; [|done].
    by rewrite <- (to_be_bytes_value i Hi), <- (to_be_bytes_value j Hj), E.
Qed.

(** ** A concrete instance *)
Module SimMain.
Export SimConfig SimCli SimStore.

Definition data_code (l : list Byte.byte) : N := Npos (encode (Byte.to_N <$> l)).
Definition data_decode (n : N) : list Byte.byte :=
  match n with
  | N0 => []
  | Npos p => default [] (l ← (decode p : option (list N)); mapM Byte.of_N l)
  end.

Lemma data_decode_code l : data_decode (data_code l) = l.
Proof.
  unfold data_decode, data_code. rewrite decode_encode. cbn.
  assert (H : mapM Byte.of_N (Byte.to_N <$> l) = Some l); [|by rewrite H].
  induction l as [|b l IH]; [done|]. cbn. rewrite Byte.of_to_N. cbn. by rewrite IH.
Qed.

#[export] Instance sim_node : CliNode (T := sim_text) (BS := sim_store) | 100 := {|
  keypair_of_secret := fun l => Z.to_N (foldl (fun acc b => acc * 256 + b)%Z 0%Z (take 8 l));
  block_new_unchecked := fun c d => (c, data_decode d);
  block_into_data := fun b => data_code b.2
|}.

#[export] Instance sim_node_laws : CliNodeLaws (N := sim_node).
Proof. split. intros [c d]. cbn -[data_decode data_code]. by rewrite data_decode_code. Qed.

Definition console : @Console sim sim_channels sim_protocols sim_commands sim_store :=
  mkConsole Ipfs.node [] [].

Definition meanwhile :
    @Meanwhile utc_nanos sim sim_channels sim_protocols sim_commands sim_store :=
  mkMeanwhile fresh 1 (fun st => (st, Ok tt)).

Definition generated : @Keypair sim := 99%N.
Definition options : @CliConfig sim := CliConfig_new 1 [].
End SimMain.

Section MainWitness.
Import SimMain.

Lemma console_insert_get_witness : exists c',
  (c1 ← handle_line meanwhile console (show_command (CliCommand.Insert hello));
   handle_line meanwhile c1 (show_command (CliCommand.Get (block_cid hello)))) ↓ c' /\
  stdout c' = [show_event (CliEvent.BlockEvent hello)] /\ stderr c' = [].
Proof.
  destruct (console_insert_get meanwhile meanwhile console hello) as (c' & E & Ho & He & _).
  - discriminate.
  - vm_compute. reflexivity.
  - vm_compute. reflexivity.
  - exists c'. split; [exact E|]. split; [exact Ho|exact He].
Defined.

Lemma node_name_option_ignored_witness :
  (p ← node_config "made-up-1" generated (with_node_name options (Some "alice"));
   mret (service_new p.2)) =
  (p ← node_config "made-up-1" generated options; mret (service_new p.2)).
Proof. apply (node_name_option_ignored "made-up-1" generated options (Some "alice")). Defined.

Lemma secret_inj_witness : secret 1 = secret 258 -> 1%Z = 258%Z.
Proof. apply (secret_inj 1 258); lia. Defined.
End MainWitness.
