(* ===== verification/Args.v ===== *)
(** * The arguments of the command line tool (cli/src/lib.rs)

    [Config] is passed to the tool as process arguments ([From<Config> for Command], the
    function [cli_args]) and read back by the parser that structopt derives from the
    attributes of its fields.  The parser is an interface: [arg] are the options that the
    fields declare, [config_of] is what they mean, and [StructOptLaws] is the documented
    behaviour of the derived parser on options that are given one after the other.  Shown:
    the tool gets the configuration that was passed. *)
From stdpp Require Import pretty.
From S2P Require Import Prelude Time Libp2p PeerInfo AddressHandler Peers Protocols Net Service.
From S2P Require Import Config Cli CliProps Db Ipfs Main.

(** ** Numbers *)

(** [str::parse::<u64>]. *)
Fixpoint decimal (acc : Z) (l : Text) : option Z :=
  match l with
  | [] => Some acc
  | c :: l =>
      if in_range 48 57 c then
        let acc := (acc * 10 + (c - 48))%Z in
        if decide (acc <= U64_MAX)%Z then decimal acc l else None
      else None
  end.
Definition parse_u64 (t : Text) : option Z :=
  match t with
  | [] => None
  | 43%Z :: ((_ :: _) as t) => decimal 0 t
  | _ => decimal 0 t
  end.

(** The bytes of an argument as a string. *)
Definition untxt (t : Text) : string :=
  String.string_of_list_ascii ((fun c => Ascii.ascii_of_N (Z.to_N c)) <$> t).

Lemma txt_cons c s : txt (String c s) = Z.of_N (Ascii.N_of_ascii c) :: txt s.
Proof. done. Qed.

Lemma untxt_txt s : untxt (txt s) = s.
Proof.
  induction s as [|c s IH]; [done|]. rewrite txt_cons. unfold untxt in *. cbn.
  by rewrite IH, N2Z.id, Ascii.ascii_N_embedding.
Qed.

Lemma txt_app s t : txt (s +:+ t) = txt s ++ txt t.
Proof. induction s as [|c s IH]; [done|]. change (String c s +:+ t) with (String c (s +:+ t)). by rewrite !txt_cons, IH. Qed.

Lemma digit_char d : (d < 10)%N -> Z.of_N (Ascii.N_of_ascii (pretty_N_char d)) = (48 + Z.of_N d)%Z.
Proof.
  intros H. assert (Hd : d ∈ [0; 1; 2; 3; 4; 5; 6; 7; 8; 9]%N) by (set_unfold; lia).
  repeat (apply elem_of_cons in Hd as [->|Hd]; [done|]). by apply not_elem_of_nil in Hd.
Qed.

(** The digits of a number, before those of [s]. *)
Lemma decimal_pretty x s :
  (Z.of_N x <= U64_MAX)%Z -> decimal 0 (txt (pretty_N_go x s)) = decimal (Z.of_N x) (txt s).
Proof.
  revert s. induction (N.lt_wf_0 x) as [x _ IH]; intros s Hx. destruct (decide (x = 0)%N) as [->|Hne].
  { by rewrite pretty_N_go_0. }
  pose proof (N.mod_lt x 10 ltac:(lia)) as Hm. pose proof (N.div_mod x 10 ltac:(lia)) as Hdm.
  rewrite pretty_N_go_step by lia. generalize dependent (x `div` 10)%N. generalize dependent (x `mod` 10)%N.
  intros r Hr q Hq. rewrite IH; [|lia|lia]. rewrite txt_cons. cbn [decimal]. rewrite digit_char by done.
  replace (in_range 48 57 _) with true by (unfold in_range; lia).
  replace (Z.of_N q * 10 + (48 + Z.of_N r - 48))%Z with (Z.of_N x) by lia. by rewrite decide_True.
Qed.

Lemma pretty_go_digits x s :
  Forall (fun c => 48 <= c <= 57)%Z (txt s) -> Forall (fun c => 48 <= c <= 57)%Z (txt (pretty_N_go x s)).
Proof.
  revert s. induction (N.lt_wf_0 x) as [x _ IH]; intros s Hs. destruct (decide (x = 0)%N) as [->|Hne].
  { by rewrite pretty_N_go_0. }
  pose proof (N.mod_lt x 10 ltac:(lia)) as Hm. pose proof (N.div_mod x 10 ltac:(lia)) as Hdm.
  rewrite pretty_N_go_step by lia. apply IH; [apply N.div_lt; lia|]. rewrite txt_cons, digit_char by done.
  constructor; [|done]. generalize dependent (x `mod` 10)%N. lia.
Qed.

Lemma pretty_digits (x : N) : Forall (fun c => 48 <= c <= 57)%Z (txt (pretty x)).
Proof. unfold pretty, pretty_N. case_decide; [|by apply pretty_go_digits].
  constructor; [done|constructor]. Qed.

Lemma pretty_go_ne x s : x <> 0%N \/ txt s <> [] -> txt (pretty_N_go x s) <> [].
Proof.
  revert s. induction (N.lt_wf_0 x) as [x _ IH]; intros s Hs. destruct (decide (x = 0)%N) as [->|Hne].
  { rewrite pretty_N_go_0. naive_solver. }
  rewrite pretty_N_go_step by lia. apply IH; [apply N.div_lt; lia|by right].
Qed.

Lemma pretty_ne (x : N) : txt (pretty x) <> [].
Proof. unfold pretty, pretty_N. case_decide; [done|]. apply pretty_go_ne. by left. Qed.

Lemma pretty_Z_N n : (0 <= n)%Z -> (pretty n : string) = pretty (Z.to_N n).
Proof. by destruct n. Qed.

Lemma parse_u64_pretty n : (0 <= n <= U64_MAX)%Z -> parse_u64 (txt (pretty n)) = Some n.
Proof.
  intros Hn. rewrite pretty_Z_N by lia. pose proof (pretty_digits (Z.to_N n)) as Hd.
  assert (E : decimal 0 (txt (pretty (Z.to_N n))) = Some n).
  { unfold pretty, pretty_N. case_decide as H0; [|rewrite decimal_pretty by lia; cbn; f_equal; lia].
    replace n with 0%Z by lia. done. }
  pose proof (pretty_ne (Z.to_N n)) as Hne. destruct (txt (pretty (Z.to_N n))) as [|c t]; [done|].
  apply Forall_cons in Hd as [Hc _]. rewrite <- E. unfold parse_u64. by repeat case_match; subst; try lia.
Qed.

(** ** Options *)

(** The options that the fields of [Config] declare, with their values. *)
Inductive arg :=
| APath (v : Text)
| ANodeName (v : Text)
| AKeypair (v : Text)
| AEnableMdns
| AListenOn (v : Text)
| ABootstrap (v : Text)
| AExternal (v : Text)
| ADisablePortReuse.

Definition spelled (a : arg) : list Text :=
  match a with
  | APath v => [txt "--path"; v]
  | ANodeName v => [txt "--node-name"; v]
  | AKeypair v => [txt "--keypair"; v]
  | AEnableMdns => [txt "--enable-mdns"]
  | AListenOn v => [txt "--listen-on"; v]
  | ABootstrap v => [txt "--bootstrap"; v]
  | AExternal v => [txt "--external"; v]
  | ADisablePortReuse => [txt "--disable-port-reuse"]
  end.

(** A value that cannot be taken for an option. *)
Definition plain (v : Text) : bool :=
  match v with [] => false | c :: _ => negb (Z.eqb c 45) end.

(** A [String] is given as UTF-8. *)
Definition plain_arg (a : arg) : bool :=
  match a with
  | ANodeName v => plain v && utf8_valid v
  | APath v | AKeypair v | AListenOn v | ABootstrap v | AExternal v => plain v
  | AEnableMdns | ADisablePortReuse => true
  end.

(** A field that is not a [Vec] is given at most once. *)
Definition at_most_once {A} (l : list A) : option (option A) :=
  match l with [] => Some None | [a] => Some (Some a) | _ => None end.

Section Args.
Context `{P : Profile} `{C : Chrono} `{L : Libp2p} `{Ch : Channels} `{HO : HashOrder}.
Context `{Pr : !Protocols} `{Sw : !SwarmOps} `{CC : !CommandChannel} `{Bu : !Builders}.
Context `{T : !CliText} `{BS : !BlockStores} `{N : !CliNode}.

(** What options say: an [Option] field may be missing, [keypair: u64] may not, a [Vec]
    has the values in order and a [bool] is whether the flag is there. *)
Definition config_of (l : list arg) : option CliConfig :=
  path ← at_most_once (omap (fun a => match a with APath v => Some v | _ => None end) l);
  node_name ← at_most_once (omap (fun a => match a with ANodeName v => Some v | _ => None end) l);
  keypair ← at_most_once (omap (fun a => match a with AKeypair v => Some v | _ => None end) l);
  keypair ← keypair ≫= parse_u64;
  enable_mdns ← at_most_once (omap (fun a => match a with AEnableMdns => Some tt | _ => None end) l);
  listen_on ← mapM read_addr (omap (fun a => match a with AListenOn v => Some v | _ => None end) l);
  bootstrap ← mapM read_addr (omap (fun a => match a with ABootstrap v => Some v | _ => None end) l);
  external ← mapM read_addr (omap (fun a => match a with AExternal v => Some v | _ => None end) l);
  disable_port_reuse ← at_most_once (omap (fun a => match a with ADisablePortReuse => Some tt | _ => None end) l);
  Some (mkCliConfig L (untxt <$> path) (untxt <$> node_name) keypair (bool_decide (is_Some enable_mdns))
    listen_on bootstrap external (bool_decide (is_Some disable_port_reuse))).

(** [Config::from_args]; without a configuration the process prints the usage and ends. *)
Class StructOpt := { from_args : list Text -> option CliConfig }.

(** Options one after the other, each with a value that is not an option. *)
Class StructOptLaws `{SO : StructOpt} : Prop := {
  from_args_options l : Forall (fun a => plain_arg a = true) l -> from_args (l ≫= spelled) = config_of l
}.

(** The options of [cli_args]. *)
Definition args_of (c : CliConfig) : list arg :=
  match cli_path c with Some p => [APath (txt p)] | None => [] end ++
  match cli_node_name c with Some n => [ANodeName (txt n)] | None => [] end ++
  [AKeypair (txt (pretty (cli_keypair c)))] ++
  (AListenOn <$> (show_addr <$> cli_listen_on c)) ++
  (ABootstrap <$> (show_addr <$> cli_bootstrap c)) ++
  (AExternal <$> (show_addr <$> cli_external c)) ++
  (if cli_enable_mdns c then [AEnableMdns] else []) ++
  (if cli_disable_port_reuse c then [ADisablePortReuse] else []).

Lemma spelled_addrs (k : Text -> arg) name (l : list Multiaddr) :
  (forall v, spelled (k v) = [name; v]) ->
  (k <$> (show_addr <$> l)) ≫= spelled = (a ← l; [name; show_addr a]).
Proof. intros Hk. induction l as [|a l IH]; [done|]. cbn. by rewrite Hk, IH. Qed.

(** The arguments spell these options. *)
Lemma args_spelled c : cli_args c = args_of c ≫= spelled.
Proof.
  unfold cli_args, args_of. rewrite !bind_app, (spelled_addrs AListenOn (txt "--listen-on")),
    (spelled_addrs ABootstrap (txt "--bootstrap")), (spelled_addrs AExternal (txt "--external")) by done.
  by destruct (cli_path c), (cli_node_name c), (cli_enable_mdns c), (cli_disable_port_reuse c).
Qed.

(** Configurations that can be passed: what is given as a word is one, the number is in
    range and the addresses have components. *)
Definition passable (c : CliConfig) : Prop :=
  (if cli_path c is Some p then plain (txt p) = true else True) /\
  (if cli_node_name c is Some n then plain (txt n) = true /\ utf8_valid (txt n) = true else True) /\
  (0 <= cli_keypair c <= U64_MAX)%Z /\
  Forall (fun a => iter a <> []) (cli_listen_on c ++ cli_bootstrap c ++ cli_external c).

Context {TL : CliTextLaws} `{SO : !StructOpt} {SOL : StructOptLaws}.

Lemma plain_addr a : iter a <> [] -> plain (show_addr a) = true.
Proof. intros H%show_addr_slash. destruct (show_addr a); [done|]. by injection H as ->. Qed.

Lemma plain_number n : (0 <= n)%Z -> plain (txt (pretty n)) = true.
Proof.
  intros Hn. rewrite pretty_Z_N by done. pose proof (pretty_digits (Z.to_N n)) as Hd.
  pose proof (pretty_ne (Z.to_N n)) as Hne. destruct (txt (pretty (Z.to_N n))) as [|c t]; [done|].
  apply Forall_cons in Hd as [Hc _]. cbn. lia.
Qed.

Lemma args_plain c : passable c -> Forall (fun a => plain_arg a = true) (args_of c).
Proof.
  intros (Hp & Hn & Hk & Ha). unfold args_of. rewrite !Forall_app in *. destruct Ha as (Hl & Hb & He).
  assert (Hv : forall (k : Text -> arg) l, (forall v, plain_arg (k v) = plain v) -> Forall (fun a => iter a <> []) l ->
    Forall (fun a => plain_arg a = true) (k <$> (show_addr <$> l))).
  { intros k l Hkv Hf. rewrite !Forall_fmap. eapply Forall_impl; [exact Hf|]. intros a Hi. cbn. rewrite Hkv. by apply plain_addr. }
  assert (Hf : forall (b : bool) k, plain_arg k = true -> Forall (fun a => plain_arg a = true) (if b then [k] else []))
    by (intros [] k Hk'; [by apply Forall_singleton|done]).
  split_and!; [..|by apply Hv|by apply Hv|by apply Hv|by apply Hf|by apply Hf].
  - destruct (cli_path c); [by apply Forall_singleton|done].
  - destruct (cli_node_name c); [|done]. apply Forall_singleton. cbn. by destruct Hn as [-> ->].
  - apply Forall_singleton, plain_number. lia.
Qed.

Lemma mapM_read_show l : mapM read_addr (show_addr <$> l) = Some l.
Proof. induction l as [|a l IH]; [done|]. cbn. by rewrite read_show_addr, IH. Qed.

Lemma omap_all {A B} (f : A -> option B) (k : B -> A) (l : list B) : (forall b, f (k b) = Some b) -> omap f (k <$> l) = l.
Proof. intros H. induction l as [|b l IH]; [done|]. cbn. by rewrite H, IH. Qed.

Lemma omap_none {A B D} (f : A -> option B) (k : D -> A) (l : list D) : (forall d, f (k d) = None) -> omap f (k <$> l) = [].
Proof. intros H. induction l as [|d l IH]; [done|]. cbn. by rewrite H. Qed.

(** The tool reads what was passed. *)
Lemma args_reach c : passable c -> from_args (cli_args c) = Some c.
Proof.
  intros Hc. rewrite args_spelled, from_args_options by (by apply args_plain). destruct Hc as (_ & _ & Hk & _).
  unfold config_of, args_of. rewrite !omap_app.
  repeat match goal with
  | |- context [omap ?f (?k <$> (show_addr <$> ?l))] =>
      first [rewrite (omap_none f k (show_addr <$> l)) by done|rewrite (omap_all f k (show_addr <$> l)) by done]
  end.
  destruct c as [path name k mdns l b x reuse]. cbn in *.
  destruct path, name, mdns, reuse; cbn; by rewrite ?app_nil_r, parse_u64_pretty, !mapM_read_show, ?untxt_txt.
Qed.

(** C37: the command line tool is started with the configuration that was meant for it.  Any
    configuration whose path and node name are words that do not look like options and whose
    addresses are not empty is passed as arguments from which the parser that is derived
    from the fields of [Config] reads exactly this configuration: every field, the flags
    and the order of the addresses included; two such configurations are never passed alike. *)
Theorem args_round_trip c :
  passable c ->
  from_args (cli_args c) = Some c /\ forall c', passable c' -> cli_args c = cli_args c' -> c = c'.
Proof.
  intros Hc. split; [by apply args_reach|]. intros c' Hc' E. apply (inj Some). by rewrite <- !args_reach, E.
Qed.
End Args.

(** ** A parser *)
Module SimArgs.
Import SimMain.

Fixpoint read_options (l : list Text) : option (list arg) :=
  match l with
  | [] => Some []
  | o :: l =>
      if decide (o = txt "--enable-mdns") then cons AEnableMdns <$> read_options l
      else if decide (o = txt "--disable-port-reuse") then cons ADisablePortReuse <$> read_options l
      else match l with
           | [] => None
           | v :: l =>
               k ← (if decide (o = txt "--path") then Some APath
                    else if decide (o = txt "--node-name") then Some ANodeName
                    else if decide (o = txt "--keypair") then Some AKeypair
                    else if decide (o = txt "--listen-on") then Some AListenOn
                    else if decide (o = txt "--bootstrap") then Some ABootstrap
                    else if decide (o = txt "--external") then Some AExternal
                    else None);
               cons (k v) <$> read_options l
           end
  end.

Lemma read_spelled l : read_options (l ≫= spelled) = Some l.
Proof. induction l as [|a l IH]; [done|]. destruct a; cbn [mbind list_bind spelled app read_options]; repeat case_decide; try done; cbn; by rewrite IH. Qed.

#[export] Instance sim_args : StructOpt (L := sim) | 100 :=
  {| from_args := fun l => read_options l ≫= config_of (T := sim_text) |}.
#[export] Instance sim_args_laws : StructOptLaws (T := sim_text) (SO := sim_args).
Proof. split. intros l _. cbn [from_args sim_args]. by rewrite read_spelled. Qed.

(** A configuration in which everything is set. *)
Definition all_set : @CliConfig sim :=
  mkCliConfig sim (Some "/tmp/1") (Some "alice") 18446744073709551615 true [addr 1 4001; addr 2 4002] [addr 3 4003] [addr 4 4004] true.
End SimArgs.

Section ArgsWitness.
Import SimMain SimArgs.

Lemma args_round_trip_witness : from_args (StructOpt := sim_args) (cli_args (T := sim_text) all_set) = Some all_set.
Proof. apply (args_round_trip (T := sim_text) (SO := sim_args) all_set). split_and!; try done. by apply (bool_decide_eq_true_1 _). Defined.
End ArgsWitness.
