(* ===== verification/TestTree.v ===== *)
(** * The trees of the tests (src/test_util.rs, the same code in harness/src/lib.rs)

    [build_tree] makes a complete tree of blocks, children before their parents.  The
    encoding of blocks is a parameter; [decode] reads back what was encoded.  [built]
    describes the trees without accumulators; [build_tree_correct] shows that
    [build_tree] makes exactly these; and what the tests do with them, setting an alias
    and inserting the blocks from the root downwards, is shown to leave the whole tree
    in the store whatever the garbage collector does meanwhile. *)
From S2P Require Import Prelude Time Libp2p Protocols Db Pins.

Definition ISIZE_MAX : Z := 9223372036854775807.

Record TreeNode (Cid : Type) := mkTreeNode {
  node_links : list Cid;
  node_depth : Z;
  node_payload : list Z
}.
Arguments mkTreeNode {_} _ _ _.
Arguments node_links {_} _.
Arguments node_depth {_} _.
Arguments node_payload {_} _.

(** [Block::encode], [Block::cid], the size of a [Cid] and the generator of the thread. *)
Class TreeBlocks (Cid : Type) := {
  TBlock : Type;
  TErr : Type;
  TRng : Type;
  cid_size : Z;
  block_cid : TBlock -> Cid;
  encode : TreeNode Cid -> result TBlock TErr;
  fill_bytes : Z -> TRng -> list Z * TRng;
  (* what a block holds, as [DagCbor] would decode it *)
  decode : TBlock -> TreeNode Cid
}.

Class TreeLaws `{TB : TreeBlocks} : Prop := {
  decode_encode n b : encode n = Ok b -> decode b = n;
  fill_length n r : (0 <= n)%Z -> Z.of_nat (length (fill_bytes n r).1) = n
}.

Section TestTree.
Context {Cid : Type} `{TB : !TreeBlocks Cid}.

Definition create_block (links : list Cid) (depth : Z) (rng : TRng) : TRng * result TBlock TErr :=
  let '(payload, rng) :=
    match links with
    | [] => fill_bytes (1024 * 16) rng
    | _ => fill_bytes 512 rng
    end in
  (rng, encode (mkTreeNode links depth payload)).

(** The generator and the blocks so far. *)
Definition tree_state : Type := TRng * list TBlock.

(** [for _ in 0..n { links.push(f(blocks)?) }]. *)
Fixpoint push_links (f : tree_state -> outcome (tree_state * result Cid TErr)) (n : nat) (s : tree_state)
    (links : list Cid) : outcome (tree_state * result (list Cid) TErr) :=
  match n with
  | 0 => Done (s, Ok links)
  | S n =>
      '(s, r) ← f s;
      match r with
      | Ok cid => push_links f n s (links ++ [cid])
      | Err e => Done (s, Err e)
      end
  end.

Fixpoint build_tree_0 (width depth : nat) (s : tree_state) : outcome (tree_state * result Cid TErr) :=
  '(s, links) ←
    match depth with
    | 0 => Done (s, Ok [])
    | S depth =>
        if decide (Z.of_nat width * cid_size <= ISIZE_MAX)%Z then
          push_links (build_tree_0 width depth) width s []
        else Panic "capacity overflow"
    end;
  match links with
  | Err e => Done (s, Err e)
  | Ok links =>
      let '(rng, r) := create_block links (Z.of_nat depth) s.1 in
      match r with
      | Err e => Done ((rng, s.2), Err e)
      | Ok block => Done ((rng, s.2 ++ [block]), Ok (block_cid block))
      end
  end.

(** [context("build_tree")] in the harness only adds to the error. *)
Definition build_tree (width depth : nat) (rng : TRng) : outcome (TRng * result (Cid * list TBlock) TErr) :=
  '(s, r) ← build_tree_0 width depth (rng, []);
  Done (s.1, match r with Ok cid => Ok (cid, s.2) | Err e => Err e end).

(** ** The trees *)

Definition links_of (b : TBlock) : list Cid := node_links (decode b).

(** [l] are the blocks of a complete tree of width [w] and depth [d] with root [c], in
    post-order. *)
Fixpoint built (w d : nat) (l : list TBlock) (c : Cid) : Prop :=
  exists b, block_cid b = c /\ (encode (decode b) = Ok b /\ node_depth (decode b) = Z.of_nat d) /\
    match d with
    | 0 => l = [b] /\ links_of b = [] /\ Z.of_nat (length (node_payload (decode b))) = (1024 * 16)%Z
    | S d =>
        exists ls : list (list TBlock * Cid), length ls = w /\ Forall (fun x => built w d x.1 x.2) ls /\
          l = concat ls.*1 ++ [b] /\ links_of b = ls.*2 /\
          Z.of_nat (length (node_payload (decode b))) = (if decide (w = 0%nat) then 1024 * 16 else 512)%Z
    end.

Fixpoint tree_size (w d : nat) : nat :=
  match d with 0 => 1 | S d => 1 + w * tree_size w d end.

(** Every block is the root or linked from one before it; every link of a block is to
    one before it. *)
Fixpoint root_first (root : Cid) (seen l : list TBlock) : Prop :=
  match l with
  | [] => True
  | b :: l =>
      (block_cid b = root \/ exists p, p ∈ seen /\ block_cid b ∈ links_of p) /\ root_first root (b :: seen) l
  end.
Fixpoint children_first (seen l : list TBlock) : Prop :=
  match l with
  | [] => True
  | b :: l =>
      Forall (fun c => exists p, p ∈ seen /\ block_cid p = c) (links_of b) /\ children_first (b :: seen) l
  end.
End TestTree.

Section TestTreeProps.
Context {Cid : Type} `{TB : !TreeBlocks Cid} {TL : TreeLaws}.

Lemma create_block_spec links depth rng :
  exists n rng', (create_block links depth rng).1 = rng' /\
    node_links n = links /\ node_depth n = depth /\
    Z.of_nat (length (node_payload n)) = (if decide (links = []) then 1024 * 16 else 512)%Z /\
    (create_block links depth rng).2 = encode n.
Proof.
  unfold create_block. destruct links as [|l links]; cbn [decide list_eq_dec].
  - pose proof (fill_length (1024 * 16) rng ltac:(lia)) as H. destruct (fill_bytes _ rng) as [payload rng'].
    exists (mkTreeNode [] depth payload), rng'. split_and!; [done..|exact H|done].
  - pose proof (fill_length 512 rng ltac:(lia)) as H. destruct (fill_bytes 512 rng) as [payload rng'].
    exists (mkTreeNode (l :: links) depth payload), rng'. split_and!; [done..|exact H|done].
Qed.

Lemma push_links_built w d n s links s' links' :
  (forall s s' c, build_tree_0 w d s ↓ (s', Ok c) -> exists l, s'.2 = s.2 ++ l /\ built w d l c) ->
  push_links (build_tree_0 w d) n s links ↓ (s', Ok links') ->
  exists ls : list (list TBlock * Cid), length ls = n /\ Forall (fun x => built w d x.1 x.2) ls /\
    s'.2 = s.2 ++ concat ls.*1 /\ links' = links ++ ls.*2.
Proof.
  intros Hb. revert s links. induction n as [|n IH]; intros s links; cbn.
  - intros [= <- <-]. exists []. cbn. by rewrite !app_nil_r.
  - intros E. outcome_inv. destruct x as [s1 [c|e]]; [|done].
    match goal with H : build_tree_0 w d s ↓ _ |- _ => apply Hb in H as (l & Hl & Hbl) end.
    edestruct IH as (ls & Hn & Hf & Hs & ->); [done|].
    exists ((l, c) :: ls). cbn. rewrite Hs, Hl, Hn, <- !app_assoc. split_and!; [done| |done|done].
    by constructor.
Qed.

Lemma build_tree_0_built w d s s' c :
  build_tree_0 w d s ↓ (s', Ok c) -> exists l, s'.2 = s.2 ++ l /\ built w d l c.
Proof.
  revert s s' c. induction d as [|d IH]; intros s s' c; cbn [build_tree_0]; intros E; outcome_inv.
  - destruct (create_block_spec [] 0 s.1) as (n & rng & H1 & Hl & Hd & Hp & H2).
    change (Z.of_nat 0) with 0%Z in *. destruct (create_block [] 0 s.1) as [rng' r]. cbn in H1, H2. subst rng' r.
    destruct (encode n) as [b|e] eqn:Ee; [|done]. simplify_eq/=.
    pose proof (decode_encode _ _ Ee) as Ed.
    exists [b]. split; [done|]. exists b. unfold links_of. rewrite Ed. done.
  - destruct x as [s1 [links|e]]; [|done]. case_decide; [|done].
    match goal with H : push_links _ _ _ _ ↓ _ |- _ => apply push_links_built in H as (ls & Hn & Hf & Hs & ->) end; [|done].
    destruct (create_block_spec ([] ++ ls.*2) (Z.of_nat (S d)) s1.1) as (n & rng & Hr1 & Hl & Hd & Hp & Hr2).
    destruct (create_block _ _ _) as [rng' r]. cbn in Hr1, Hr2. subst rng' r.
    destruct (encode n) as [b|e] eqn:Ee; [|done].
    simplify_eq/=. pose proof (decode_encode _ _ Ee) as Ed. exists (concat ls.*1 ++ [b]). rewrite Hs, <- app_assoc. split; [done|]. exists b. unfold links_of. rewrite Ed.
    split_and!; [done|done|done|]. exists ls. split_and!; [done|done|done|done|]. rewrite Hp.
    by destruct ls.
Qed.

(** With an encoding that never fails the tree is made, unless its width is more than a
    vector can hold. *)
Lemma build_tree_0_total w d s :
  (forall n, exists b, encode n = Ok b) -> d = 0 \/ (Z.of_nat w * cid_size <= ISIZE_MAX)%Z ->
  exists s' c, build_tree_0 w d s ↓ (s', Ok c).
Proof.
  intros He. revert s. induction d as [|d IH]; intros s Hw; cbn [build_tree_0].
  - cbn [mbind outcome_bind]. change (Z.of_nat 0) with 0%Z.
    destruct (create_block_spec [] 0 s.1) as (n & rng & _ & _ & _ & _ & H2).
    destruct (create_block [] 0 s.1) as [rng' r]. cbn in H2. subst r.
    destruct (He n) as [b ->]. eauto.
  - destruct Hw as [?|Hw]; [done|]. rewrite decide_True by done.
    assert (Hp : forall n s links, exists s' links', push_links (build_tree_0 w d) n s links ↓ (s', Ok links')).
    { induction n as [|n IHn]; intros s0 links; cbn; [eauto|].
      destruct (IH s0) as (s1 & c & ->); [by right|]. cbn. apply IHn. }
    destruct (Hp w s []) as (s1 & links & ->). cbn [mbind outcome_bind].
    destruct (create_block_spec links (Z.of_nat (S d)) s1.1) as (n & rng & _ & _ & _ & _ & H2).
    destruct (create_block links _ _) as [rng' r]. cbn in H2. subst r.
    destruct (He n) as [b ->]. eauto.
Qed.

(** *** Size and order *)
Lemma length_concat_same {A} (ls : list (list A)) n :
  Forall (fun l => length l = n) ls -> length (concat ls) = length ls * n.
Proof. induction 1 as [|l ls Hl _ IH]; cbn; [done|]. rewrite length_app. lia. Qed.

Lemma built_size w d l c : built w d l c -> length l = tree_size w d.
Proof.
  revert l c. induction d as [|d IH]; intros l c (b & _ & _ & H); [by destruct H as [-> _]|].
  destruct H as (ls & Hn & Hf & -> & _). rewrite length_app, (length_concat_same _ (tree_size w d)).
  - rewrite length_fmap, Hn. cbn. lia.
  - rewrite Forall_fmap. eapply Forall_impl; [exact Hf|]. intros [l' c'] Hl. cbn in *. by eapply IH.
Qed.

Lemma built_last w d l c : built w d l c -> exists b, last l = Some b /\ block_cid b = c.
Proof.
  destruct d as [|d]; intros (b & Hc & _ & H).
  - destruct H as [-> _]. by exists b.
  - destruct H as (ls & _ & _ & -> & _). exists b. by rewrite last_snoc.
Qed.

Lemma root_first_mono root seen seen' l :
  (forall b, b ∈ seen -> b ∈ seen') -> root_first root seen l -> root_first root seen' l.
Proof.
  revert seen seen'. induction l as [|b l IH]; intros seen seen' Hs; cbn; [done|].
  intros [Hb Hl]. split; [naive_solver|]. apply (IH (b :: seen)); [|done]. set_solver.
Qed.

Lemma root_first_app root seen l1 l2 :
  root_first root seen l1 -> root_first root seen l2 -> root_first root seen (l1 ++ l2).
Proof.
  revert seen. induction l1 as [|b l1 IH]; intros seen; cbn; [done|]. intros [Hb H1] H2.
  split; [done|]. apply IH; [done|]. eapply root_first_mono; [|exact H2]. set_solver.
Qed.

Lemma built_encoded w d l c : built w d l c -> Forall (fun b => encode (decode b) = Ok b) l.
Proof.
  revert l c. induction d as [|d IH]; intros l c (b & _ & [He _] & H).
  - destruct H as [-> _]. by apply Forall_singleton.
  - destruct H as (ls & _ & Hf & -> & _). apply Forall_app. split; [|by apply Forall_singleton].
    clear He. induction Hf as [|[l' c'] ls Hb Hf IHf]; cbn; [done|]. apply Forall_app. split; [|done].
    by eapply IH.
Qed.

(** A tree hangs below whatever links to its root. *)
Lemma built_root_first w d l c root seen :
  built w d l c -> c = root \/ (exists p, p ∈ seen /\ c ∈ links_of p) -> root_first root seen (rev l).
Proof.
  revert l c seen. induction d as [|d IH]; intros l c seen (b & Hc & _ & H) Hr.
  - destruct H as [-> _]. cbn. rewrite Hc. done.
  - destruct H as (ls & _ & Hf & -> & Hl & _). rewrite rev_app_distr. cbn. rewrite Hc. split; [done|].
    assert (Hin : forall x, x ∈ ls -> x.2 ∈ links_of b).
    { intros x Hx. rewrite Hl. by apply list_elem_of_fmap_2. }
    clear Hl. induction Hf as [|[l' c'] ls Hb Hf IHf]; cbn; [done|].
    rewrite rev_app_distr. apply root_first_app.
    + apply IHf. intros x Hx. apply Hin. by right.
    + apply (IH l' c'); [done|]. right. exists b. split; [apply list_elem_of_here|].
      apply (Hin (l', c') (list_elem_of_here _ _)).
Qed.

Lemma children_first_mono seen seen' l :
  (forall b, b ∈ seen -> b ∈ seen') -> children_first seen l -> children_first seen' l.
Proof.
  revert seen seen'. induction l as [|b l IH]; intros seen seen' Hs; cbn; [done|].
  intros [Hb Hl]. split; [|apply (IH (b :: seen)); [set_solver|done]].
  eapply Forall_impl; [exact Hb|]. naive_solver.
Qed.

Lemma children_first_app seen l1 l2 :
  children_first seen l1 -> children_first (rev l1 ++ seen) l2 -> children_first seen (l1 ++ l2).
Proof.
  revert seen. induction l1 as [|b l1 IH]; intros seen; cbn; [done|]. intros [Hb H1] H2.
  split; [done|]. apply IH; [done|]. by rewrite <- app_assoc in H2.
Qed.

Lemma built_children_first w d l c seen : built w d l c -> children_first seen l.
Proof.
  revert l c seen. induction d as [|d IH]; intros l c seen (b & Hc & _ & H).
  - destruct H as (-> & Hl & _). cbn. rewrite Hl. by split.
  - destruct H as (ls & _ & Hf & -> & Hl & _).
    assert (Hroots : Forall (fun x => exists p, p ∈ concat ls.*1 /\ block_cid p = x) ls.*2).
    { clear Hl. induction Hf as [|[l' c'] ls Hb Hf IHf]; cbn; [done|]. constructor.
      - cbn in Hb. destruct (built_last w d l' c' Hb) as (p & Hp & Hpc). exists p. split; [|exact Hpc].
        apply elem_of_app. left. apply last_Some in Hp as [l0 ->]. set_solver.
      - eapply Forall_impl; [exact IHf|]. intros x (p & Hp & <-). exists p. set_solver. }
    apply children_first_app.
    + clear Hl Hroots. revert seen. induction Hf as [|[l' c'] ls Hb Hf IHf]; intros seen; cbn; [done|].
      apply children_first_app; [by eapply IH|apply IHf].
    + cbn. split; [|done]. rewrite Hl. eapply Forall_impl; [exact Hroots|].
      intros x (p & Hp & <-). exists p. rewrite elem_of_app, list_elem_of_In, <- in_rev, <- list_elem_of_In. auto.
Qed.

(** [build_tree] makes a complete tree.  If it returns a root and blocks, they are a
    tree of the given width and depth: as many blocks as such a tree has, the root last,
    children before their parents, and, in reverse, every block after one that links to
    it; leaves carry 16 KiB, inner nodes 512 bytes.  It does return one if encoding never
    fails and the width fits a vector. *)
Theorem build_tree_correct w d rng :
  (forall rng' root l, build_tree w d rng ↓ (rng', Ok (root, l)) ->
     built w d l root /\ length l = tree_size w d /\
     (exists b, last l = Some b /\ block_cid b = root) /\
     children_first [] l /\ root_first root [] (rev l)) /\
  ((forall n, exists b, encode n = Ok b) -> d = 0 \/ (Z.of_nat w * cid_size <= ISIZE_MAX)%Z ->
     exists rng' root l, build_tree w d rng ↓ (rng', Ok (root, l))).
Proof.
  split.
  - intros rng' root l E. unfold build_tree in E. outcome_inv. destruct x as [s [c|e]]; simplify_eq/=.
    match goal with H : build_tree_0 _ _ _ ↓ _ |- _ => apply build_tree_0_built in H as (l & Hs & Hb) end.
    cbn in Hs. rewrite Hs. split_and!; [done|by eapply built_size|by eapply built_last| |].
    + by eapply built_children_first.
    + eapply built_root_first; [done|by left].
  - intros He Hw. unfold build_tree. destruct (build_tree_0_total w d (rng, []) He Hw) as (s & c & ->). cbn. eauto.
Qed.
End TestTreeProps.

(** ** The tree in a store *)
Section TreeInStore.
Context `{PL : PinLaws} `{TB : !TreeBlocks Cid} {TL : TreeLaws}.

(** The data of a block; it is named by its CID and refers to its links. *)
Context (block_data : TBlock -> StoreData).
Hypothesis block_data_ok : forall n b, encode n = Ok b ->
  content (block_cid b) (block_data b) /\ data_links (block_data b) = node_links n.

Definition stored (b : TBlock) : Cid * StoreData := (block_cid b, block_data b).

Lemma root_first_top_down root seen l T :
  Forall (fun b => encode (decode b) = Ok b) l -> map_Forall content T ->
  Forall (fun b => encode (decode b) = Ok b /\ T !! block_cid b = Some (block_data b)) seen ->
  root_first root seen l -> top_down root T (stored <$> l).
Proof.
  revert seen T. induction l as [|b l IH]; intros seen T Hl HT Hs; cbn; [done|].
  apply Forall_cons in Hl as [He Hl]. intros [Hb Hr].
  destruct (block_data_ok _ _ He) as [Hc Hlk]. split_and!; [done| |].
  - destruct Hb as [?|(p & Hp & Hin)]; [by left|right]. rewrite Forall_forall in Hs.
    destruct (Hs p Hp) as [Hep HTp]. exists (block_cid p), (block_data p). split; [done|].
    by rewrite (proj2 (block_data_ok _ _ Hep)).
  - apply (IH (b :: seen)); [done|by apply map_Forall_insert_2| |done].
    apply Forall_cons. split; [by rewrite lookup_insert_eq|].
    eapply Forall_impl; [exact Hs|]. intros p [Hep HTp]. split; [done|].
    destruct (decide (block_cid b = block_cid p)) as [E|Hne]; [|by rewrite lookup_insert_ne].
    rewrite E, lookup_insert_eq. f_equal.
    eapply (content_unique (block_cid b)); [exact Hc|]. rewrite E. by eapply HT.
Qed.

Lemma built_top_down w d l root : built w d l root -> top_down root ∅ (stored <$> rev l).
Proof.
  intros Hb. apply (root_first_top_down root []); [|apply map_Forall_empty|done|].
  - apply Forall_forall. intros x Hx. rewrite list_elem_of_In, <- in_rev, <- list_elem_of_In in Hx.
    pose proof (built_encoded _ _ _ _ Hb) as He. rewrite Forall_forall in He. by apply He.
  - eapply built_root_first; [done|by left].
Qed.

(** C26: how the tests fill a store.  A tree is built, an alias is set to its root, and
    the blocks are inserted in reverse order, each insertion possibly followed by rounds
    of the garbage collector, evictions, flushes and unrelated batches.  In the end the
    store has every block of the tree: nothing was collected in between. *)
Theorem tree_insert_complete w d rng rng' root l a st st' :
  build_tree w d rng ↓ (rng', Ok (root, l)) ->
  v_aliases (view (store st)) !! a = Some root ->
  inserting a (stored <$> rev l) st st' ->
  length l = tree_size w d /\ forall b, b ∈ l -> blocks (store st') !! block_cid b = Some (block_data b).
Proof.
  intros E Ha Hi. unfold build_tree in E. outcome_inv. destruct x as [s [c|e]]; simplify_eq/=.
  match goal with H : build_tree_0 _ _ _ ↓ _ |- _ => apply build_tree_0_built in H as (l & Hs & Hb) end.
  cbn in Hs. rewrite Hs in *. split; [by eapply built_size|]. intros b Hin.
  pose proof (built_top_down _ _ _ _ Hb) as Htd.
  destruct (inserting_kept a root (stored <$> rev l) ∅ st st') as [_ [_ HT]];
    [apply tree_empty|done|split; [done|apply map_empty_subseteq]|done|].
  eapply lookup_weaken; [|exact HT]. apply (foldl_inserts root _ ∅ (map_Forall_empty _) Htd).
  apply list_elem_of_fmap. exists b. split; [done|]. by rewrite list_elem_of_In, <- in_rev, <- list_elem_of_In.
Qed.
End TreeInStore.

(** ** A concrete encoding: the library has one tree, 1 above 2 and 3 *)
Module SimTree.
Import Sim SimProtocols SimPins.
Definition SimCid : Type := @Cid sim sim_protocols.

(** The generator counts; leaves are named by their payload. *)
#[export] Instance sim_tree : TreeBlocks SimCid | 100 := {|
  TBlock := N * TreeNode SimCid;
  TErr := string;
  TRng := Z;
  cid_size := 96;
  block_cid := fst;
  encode := fun n =>
    let c : N := match node_links n with [] => (2 + Z.to_N (hd 0%Z (node_payload n)))%N | _ => 1%N end in
    if decide (node_links n = doc c) then Ok (c, n) else Err "not in the library";
  fill_bytes := fun n r => (replicate (Z.to_nat n) r, (r + 1)%Z);
  decode := snd
|}.

#[export] Instance sim_tree_laws : TreeLaws (TB := sim_tree).
Proof.
  split.
  - intros n b. cbn -[doc]. case_decide; [|done]. by intros [= <-].
  - intros n r Hn. cbn. rewrite length_replicate. lia.
Defined.

Definition sim_data (b : @TBlock SimCid sim_tree) : @StoreData sim sim_protocols dag_store := doc b.1.

Lemma sim_data_ok n (b : @TBlock SimCid sim_tree) : encode n = Ok b ->
  content (PinLaws := dag_pin_laws) (block_cid b) (sim_data b) /\ data_links (sim_data b) = node_links n.
Proof. cbn -[doc]. case_decide as H; [|done]. intros [= <-]. by split. Qed.
End SimTree.

Section TestTreeWitness.
Import Sim SimProtocols SimPins SimTree.

Definition seed : @TRng SimCid sim_tree := 0%Z.
Definition little_tree := build_tree (Cid := SimCid) 2 1 seed.

Definition tree_blocks : list (@TBlock SimCid sim_tree) :=
  match little_tree with Done (_, Ok (_, l)) => l | _ => [] end.

Lemma little_tree_made : exists rng, little_tree ↓ (rng, Ok (root_of_tree, tree_blocks)).
Proof.
  assert (H : match little_tree with Done (_, Ok (c, _)) => bool_decide (c = 1%N) | _ => false end = true)
    by (vm_compute; reflexivity).
  unfold tree_blocks. destruct little_tree as [[rng [[c l]|e]]|w]; try discriminate H.
  apply bool_decide_eq_true in H. subst c. by exists rng.
Qed.

Lemma build_tree_correct_witness : length tree_blocks = 3 /\ children_first [] tree_blocks.
Proof.
  destruct little_tree_made as [rng E].
  destruct (proj1 (build_tree_correct 2 1 seed) rng root_of_tree tree_blocks E) as (_ & Hl & _ & Hc & _).
  split; [exact Hl|exact Hc].
Defined.

(** The collector runs after each of the three insertions. *)
Definition filled_store := foldl add_and_collect aliased (stored sim_data <$> rev tree_blocks).

Lemma tree_insert_complete_witness : length tree_blocks = 3 /\
  Forall (fun b => blocks (store filled_store) !! block_cid b = Some (sim_data b)) tree_blocks.
Proof.
  destruct little_tree_made as [rng E].
  destruct (tree_insert_complete sim_data sim_data_ok 2 1 seed rng root_of_tree tree_blocks root_alias aliased
    filled_store) as [Hl Hb].
  - exact E.
  - reflexivity.
  - apply collect_inserting.
  - split; [exact Hl|]. apply Forall_forall. exact Hb.
Defined.
End TestTreeWitness.
