(* ===== verification/Exchange.v ===== *)
(** * The tests in which blocks travel between nodes (src/lib.rs, [mod tests])

    test_exchange_mdns, test_exchange_kad, test_provider_not_found, test_dht_record and
    the two test_bitswap_sync_*.  The other nodes and the network are arguments: what the
    network task replies to a call, and what happens to the storage while a query runs.
    What bitswap promises is a hypothesis ([brings], [delivers]); the replies of the
    Kademlia queries are those the network task is proved to give.  The trees of the
    bitswap tests are the ones [build_tree] makes. *)
From S2P Require Import Prelude Time Libp2p PeerInfo AddressHandler Peers Protocols Behaviour Net Service NetProps.
From S2P Require Import Config Db Pins Cache Ipfs StoreTests NodeTests TestTree.

(** [for x in l { f(x)?; }]. *)
Fixpoint each {S E X} (l : list X) (f : X -> test S E unit) : test S E unit :=
  match l with
  | [] => mret tt
  | x :: l => f x ;; each l f
  end.

Lemma t_each {S E X} (ok : E -> Prop) (P : S -> Prop) (l : list X) (f : X -> test S E unit) :
  (forall x, x ∈ l -> triple ok P (f x) (fun _ => P)) -> triple ok P (each l f) (fun _ => P).
Proof.
  induction l as [|x l IH]; intros H; [apply t_ret|]. cbn [each].
  eapply t_seq; [apply H; by left|]. apply IH. intros y Hy. apply H. by right.
Qed.

Section Exchange.
Context `{CL : CacheLaws} {SF : StoreFiles} `{Ch : Channels} `{HO : HashOrder}.
Context `{CC : !CommandChannel} `{Co : Chrono} `{ED : EqDecision StoreData}.

Abbreviation node := (test Ipfs IpfsError).
Abbreviation nodes := (test (Ipfs * Ipfs) IpfsError).

(** *** Calls that wait for the network task *)

(** A call sends its command at once; the future it returns is awaited later, and yields
    what the task replies. *)
Definition start (f : NetworkService -> NetworkService * Service.call) : node Service.call := fun st =>
  let '(n, c) := f (network st) in (with_network st n, Ok c).
Definition await {A} (c : Service.call) (reply : result A ClientError) : node A :=
  match c, reply with
  | ReadyErr e, _ | _, Err e => call (fun st => (st, Err (NetworkError e)))
  | Awaits _, Ok a => mret a
  end.
Definition ask {A} (f : NetworkService -> NetworkService * Service.call) (reply : result A ClientError) : node A :=
  c ← start f; await c reply.

Definition n_fetch (b : TestBlock) (providers : list PeerId) (tx : Tx)
    (world : StorageService -> StorageService * awaited) : node IpfsBlock :=
  call (fun st => fetch st b.1 providers tx world).

(** [let mut tmp = store.create_temp_pin()?; store.temp_pin(&mut tmp, block.cid())?]. *)
Definition pin_for_now (b : TestBlock) : node unit :=
  tmp ← call ipfs_create_temp_pin;
  call (fun st => let '(st, _, r) := ipfs_temp_pin st tmp b.1 in (st, r)).

(** *** The tests *)

Definition test_exchange_mdns (block : TestBlock) (peer1 : PeerId) (tx : Tx)
    (world : StorageService -> StorageService * awaited) : nodes unit :=
  on1 (pin_for_now block) ;; on1 (n_insert block) ;; on1 n_flush ;;
  on2 (pin_for_now block) ;;
  block2 ← on2 (n_fetch block [peer1] tx world);
  assert (bool_decide (block.2 = block2.2)).

(** The replies are those to the two bootstraps, to [provide] and to [providers]. *)
Definition test_exchange_kad (block : TestBlock) (peer : PeerId) (book0 : AddressBook) (key : Key)
    (b1 b2 provided : result unit ClientError) (found : result (list PeerId) ClientError) (tx : Tx)
    (world : StorageService -> StorageService * awaited) : nodes unit :=
  addr ← first_listener book0;
  c1 ← on1 (start (fun n => svc_bootstrap n [(peer, addr)] tx));
  c2 ← on2 (start (fun n => svc_bootstrap n [(peer, addr)] tx));
  on1 (await c1 b1) ;; on2 (await c2 b2) ;;
  on1 (pin_for_now block) ;; on1 (n_insert block) ;;
  on1 (ask (fun n => svc_provide n key tx) provided) ;; on1 n_flush ;;
  on2 (pin_for_now block) ;;
  providers ← on2 (ask (fun n => svc_providers n key tx) found);
  block2 ← on2 (n_fetch block providers tx world);
  assert (bool_decide (block.2 = block2.2)).

(** [unwrap_err] and [downcast_ref::<BlockNotFound>]. *)
Definition is_not_found (e : IpfsError) : bool :=
  match e with NotFound _ | NetworkError (BlockNotFound _) => true | _ => false end.
Definition test_provider_not_found (block : TestBlock) (own : PeerId) (tx : Tx)
    (world : StorageService -> StorageService * awaited) : node unit := fun st =>
  let '(st, r) := fetch st block.1 [own] tx world in
  (st, match r with
       | Ok _ => Err Assertion
       | Err e => if is_not_found e then Ok tt else Err Assertion
       end).

Definition test_dht_record (peer0 peer1 : PeerId) (book0 book1 : AddressBook) (key : Key) (record : KadRecord)
    (b0 b1 put : result unit ClientError) (got : result (list PeerRecord) ClientError) (tx : Tx) : nodes unit :=
  addr1 ← first_listener book1; on1 (ask (fun n => svc_bootstrap n [(peer1, addr1)] tx) b0) ;;
  addr0 ← first_listener book0; on2 (ask (fun n => svc_bootstrap n [(peer0, addr0)] tx) b1) ;;
  on1 (ask (fun n => svc_put_record n record QuorumOne tx) put) ;;
  records ← on2 (ask (fun n => svc_get_record n key QuorumOne tx) got);
  assert (bool_decide (length records = 1)).

(** [sync(..).await?.for_each(..).await]: the events are only logged, the result in the
    last one too. *)
Definition sync_logged (world : StorageService -> StorageService * awaited) (cid : Cid)
    (providers : list PeerId) (tx : Tx) : node unit := call (fun st =>
  let '(st, c) := ipfs_sync st cid providers tx in
  match c with
  | SyncReady _ => (st, Ok tt)
  | SyncCall (ReadyErr e) => (st, Err (NetworkError e))
  | SyncCall (Awaits _) =>
      let '(s, w) := world (storage st) in
      match w with
      | NoQuery e => (with_storage st s, Err (NetworkError e))
      | QueryEnded _ _ => ((sync_resume (with_storage st s) w).1, Ok tt)
      end
  end).

(** test_bitswap_sync_chain and test_bitswap_sync_tree, which differ in the tree. *)
Definition test_bitswap_sync (cid : Cid) (tree : list TestBlock) (root : list Z) (peer : PeerId) (tx : Tx)
    (world : StorageService -> StorageService * awaited) : nodes unit :=
  on1 (call (fun st => ipfs_alias st root (Some cid))) ;;
  on2 (call (fun st => ipfs_alias st root (Some cid))) ;;
  each tree (fun block => on1 (n_insert block)) ;; on1 n_flush ;;
  on2 (sync_logged world cid [peer] tx) ;; on2 n_flush ;;
  each tree (fun block => data ← on2 (n_get block); assert (bool_decide (data = block))).

(** *** Rules *)
Abbreviation tn := (triple (S := Ipfs) from_outside).
Abbreviation t2 := (triple (S := Ipfs * Ipfs) from_outside).

(** What is known of the contents of a node's store, of one and of two nodes. *)
Definition Holds (Q : store_view -> Prop) (st : Ipfs) : Prop := exists v, Q (c_view v) /\ AtN v st.
Definition Hold2 (Q1 Q2 : store_view -> Prop) (s : Ipfs * Ipfs) : Prop := Holds Q1 s.1 /\ Holds Q2 s.2.

Lemma step1 {A} Q1 Q1' Q2 (m : node A) :
  tn (Holds Q1) m (fun _ => Holds Q1') -> t2 (Hold2 Q1 Q2) (on1 m) (fun _ => Hold2 Q1' Q2).
Proof.
  intros H [s1 s2] [H1 H2]. unfold on1. cbn [fst snd] in *. specialize (H s1 H1).
  by destruct (m s1) as [s1' [a|f]].
Qed.

Lemma result2 {A} Q1 Q2 (m : node A) (R : A -> Ipfs -> Prop) :
  tn (Holds Q2) m R -> t2 (Hold2 Q1 Q2) (on2 m) (fun a s => Holds Q1 s.1 /\ R a s.2).
Proof.
  intros H [s1 s2] [H1 H2]. unfold on2. cbn [fst snd] in *. specialize (H s2 H2).
  by destruct (m s2) as [s2' [a|f]].
Qed.

Lemma step2 {A} Q1 Q2 Q2' (m : node A) :
  tn (Holds Q2) m (fun _ => Holds Q2') -> t2 (Hold2 Q1 Q2) (on2 m) (fun _ => Hold2 Q1 Q2').
Proof. apply result2. Qed.

(** The calls of the storage, from their rules. *)
Lemma holds_of {A} Q Q' (m : node A) :
  (forall v, Q (c_view v) -> triple from_storage (AtN v) m (fun _ st => exists v', Q' (c_view v') /\ AtN v' st)) ->
  tn (Holds Q) m (fun _ => Holds Q').
Proof.
  intros H st (v & HQ & Hat). specialize (H v HQ st Hat). destruct (m st) as [st' [a|[e| |]]]; [done|by left|done|done].
Qed.

Lemma pin_keeps Q b : tn (Holds Q) (pin_for_now b) (fun _ => Holds Q).
Proof.
  apply holds_of. intros v HQ. eapply t_bind; [apply n_create_temp_pin_run|]. intros tmp. apply t_exists. intros v1 H1.
  eapply t_conseq; [done|apply n_temp_pin_run|]. intros a s (v2 & H2 & Hat). exists v2. by rewrite H2, H1.
Qed.

Lemma insert_holds (Q Q' : store_view -> Prop) b :
  (forall v, Q v -> Q' (mkView _ _ _ (<[b.1 := b.2]> (v_blocks v)) (v_aliases v))) ->
  tn (Holds Q) (n_insert b) (fun _ => Holds Q').
Proof.
  intros H. apply holds_of. intros v HQ. eapply t_conseq; [done|apply n_insert_run|].
  intros a s Hat. exists (inserted v b). split; [by apply H|done].
Qed.

Lemma flush_keeps Q : tn (Holds Q) n_flush (fun _ => Holds Q).
Proof. apply holds_of. intros v HQ. eapply t_conseq; [done|apply n_flush_run|]. intros a s Hat. by exists v. Qed.

Lemma start_keeps Q f : tn (Holds Q) (start f) (fun _ => Holds Q).
Proof. intros st H. unfold start. by destruct (f (network st)). Qed.

Lemma await_keeps {A} Q c (reply : result A ClientError) :
  tn (Holds Q) (await c reply) (fun a st => reply = Ok a /\ Holds Q st).
Proof. intros st H. destruct c; [right; by eexists|]. destruct reply; [done|right; by eexists]. Qed.

Lemma ask_keeps {A} Q f (reply : result A ClientError) :
  tn (Holds Q) (ask f reply) (fun a st => reply = Ok a /\ Holds Q st).
Proof. eapply t_bind; [apply start_keeps|]. intros c. apply await_keeps. Qed.

Lemma forget {A} P (m : node A) (F : A -> Prop) Q :
  tn P m (fun a st => F a /\ Q st) -> tn P m (fun _ => Q).
Proof. intros H. eapply t_conseq; [done|exact H|]. by intros a s [_ ?]. Qed.

(** What bitswap promises of a query for one block: it ends well once the block is
    stored. *)
Definition brings (world : StorageService -> StorageService * awaited) (b : TestBlock) : Prop :=
  forall s s' id, world s = (s', QueryEnded id (Ok tt)) -> blocks (store s') !! b.1 = Some b.2.

Lemma lookup_outside st cid st' e : lookup_block st cid = (st', Err e) -> from_storage e.
Proof. unfold lookup_block. destruct (db_get _ _) as [s [[d|]|x]]; intros [= _ E]; try done. by exists x. Qed.

Lemma fetch_brings Q (b : TestBlock) ps tx world :
  ps <> [] -> brings world b -> (forall v, Q v -> forall d, v_blocks v !! b.1 = Some d -> d = b.2) ->
  tn (Holds Q) (n_fetch b ps tx world) (fun r _ => r = b).
Proof.
  intros Hps Hw HQ st (v & Hv & [Hat _]). unfold n_fetch, call, fetch.
  assert (Hb : forall d, blocks (store (storage st)) !! b.1 = Some d -> d = b.2).
  { intros d Hd. apply (HQ _ Hv). by rewrite <- Hat. }
  destruct (lookup_block st b.1) as [st1 [[x|]|e]] eqn:E; [| |left; by eapply lookup_outside].
  - apply lookup_block_spec in E as [E _]; [|done].
    destruct (blocks (store (storage st)) !! b.1) as [d|]; cbn in E; simplify_eq.
    rewrite (Hb d eq_refl). by destruct b.
  - destruct ps as [|p ps]; [done|]. destruct (svc_get _ _ _ _) as [n [e|rx]]; [right; by eexists|].
    destruct (world _) as [s w] eqn:Ew. destruct w as [e|id [[]|e]]; cbn [fetch_resume]; [right; by eexists| |right; by eexists].
    unfold ipfs_get. clear E.
    destruct (lookup_block (with_network _ _) b.1) as [st2 [o|e]] eqn:E2; [|left; by eapply lookup_outside].
    apply lookup_block_spec in E2 as [E2 _]; [|done]. injection E2 as ->. cbn.
    rewrite (Hw _ _ _ Ew). cbn. by destruct b.
Qed.

(** *** The tests keep their assertions *)
Definition anything (v : store_view) : Prop := True.
Definition nothing (v : store_view) : Prop := v_blocks v = ∅.

Lemma nothing_yet (b : TestBlock) v : nothing v -> forall d, v_blocks v !! b.1 = Some d -> d = b.2.
Proof. intros -> d Hd. by rewrite lookup_empty in Hd. Qed.

Ltac next1 tac := eapply t_seq; [apply step1; tac|].
Ltac next2 tac := eapply t_seq; [apply step2; tac|].

Lemma fetched_run Q (block : TestBlock) ps tx world :
  ps <> [] -> brings world block ->
  t2 (Hold2 Q nothing) (block2 ← on2 (n_fetch block ps tx world); assert (bool_decide (block.2 = block2.2))) (fun _ _ => True).
Proof.
  intros Hps Hw. eapply t_bind; [apply result2; apply (fetch_brings nothing); [done|done|apply nothing_yet]|].
  intros r s [_ ->]. unfold assert. by rewrite bool_decide_eq_true_2.
Qed.

Lemma exchange_mdns_run block p tx world :
  brings world block -> t2 (Hold2 anything nothing) (test_exchange_mdns block p tx world) (fun _ _ => True).
Proof.
  intros Hw. unfold test_exchange_mdns. next1 ltac:(apply pin_keeps).
  next1 ltac:(by apply (insert_holds anything anything)). next1 ltac:(apply flush_keeps).
  next2 ltac:(apply pin_keeps). by apply fetched_run.
Qed.

Lemma exchange_kad_run block p first book key b1 b2 provided found tx world :
  listens first book -> brings world block -> found <> Ok [] ->
  t2 (Hold2 anything nothing) (test_exchange_kad block p book key b1 b2 provided found tx world) (fun _ _ => True).
Proof.
  intros Hl Hw Hf. unfold test_exchange_kad. eapply t2_listener; [exact Hl|]. intros addr.
  eapply t_bind; [apply step1, start_keeps|]. intros c1. eapply t_bind; [apply step2, start_keeps|]. intros c2.
  next1 ltac:(eapply forget, await_keeps). next2 ltac:(eapply forget, await_keeps).
  next1 ltac:(apply pin_keeps). next1 ltac:(by apply (insert_holds anything anything)).
  next1 ltac:(eapply forget, ask_keeps). next1 ltac:(apply flush_keeps). next2 ltac:(apply pin_keeps).
  eapply t_bind; [apply result2, ask_keeps|]. intros ps s (H1 & -> & H2).
  apply (fetched_run anything block ps tx world); [congruence|done|by split].
Qed.

Lemma dht_record_run p0 p1 first0 first1 book0 book1 key record b0 b1 put got tx st kid rtx rs :
  listens first0 book0 -> listens first1 book1 ->
  queries st !! KadId kid = Some (ChGetRecord (quorum_size QuorumOne) [] rtx) -> rs <> [] ->
  (forall l, got = Ok l -> outbox (foldl inject_kad_event st (found kid <$> rs)) =
     outbox st ++ [Replied rtx (RRecords (Ok l))]) ->
  t2 (Hold2 anything anything) (test_dht_record p0 p1 book0 book1 key record b0 b1 put got tx) (fun _ _ => True).
Proof.
  intros Hl0 Hl1 Hq Hrs Hgot. unfold test_dht_record. eapply t2_listener; [exact Hl1|]. intros addr1.
  next1 ltac:(eapply forget, ask_keeps). eapply t2_listener; [exact Hl0|]. intros addr0. next2 ltac:(eapply forget, ask_keeps). next1 ltac:(eapply forget, ask_keeps).
  eapply t_bind; [apply result2, ask_keeps|]. intros l s (_ & -> & _). unfold assert.
  specialize (Hgot l eq_refl). pose proof (get_record_run st kid _ [] rtx rs Hq) as H. cbn [length app quorum_size] in H.
  specialize (H ltac:(lia)). destruct rs as [|r rs]; [done|]. cbn zeta in H.
  rewrite decide_False in H by (cbn; lia). destruct H as [_ H]. rewrite H in Hgot.
  apply app_inv_head in Hgot. injection Hgot as <-. by rewrite bool_decide_eq_true_2.
Qed.

(** What it means that nobody has the block. *)
Definition finds_nothing (world : StorageService -> StorageService * awaited) (b : TestBlock) : Prop :=
  forall s, exists s' id r, world s = (s', QueryEnded id r) /\
    (r = Err (BlockNotFound b.1) \/ (r = Ok tt /\ blocks (store s') !! b.1 = None)).

Lemma not_found_run (block : TestBlock) own tx world st :
  Holds nothing st -> finds_nothing world block -> (forall s, is_ok (db_get s block.1).2 = true) ->
  (exists rx, (svc_get (network st) block.1 [own] tx).2 = Awaits rx) ->
  (test_provider_not_found block own tx world st).2 = Ok tt.
Proof.
  intros (v & Hv & [Hat _]) Hw Hget [rx Hrx]. unfold test_provider_not_found, fetch.
  assert (Hok : forall st, is_ok (lookup_block st block.1).2 = true).
  { intros x. unfold lookup_block. specialize (Hget (storage x)). by destruct (db_get (storage x) block.1) as [s [[d|]|e]]. }
  pose proof (Hok st) as Hs. destruct (lookup_block st block.1) as [st1 r] eqn:E.
  apply lookup_block_spec in E as [-> Hn]; [|done].
  replace (blocks (store (storage st))) with (v_blocks (c_view v)) by (by rewrite <- Hat). rewrite Hv, lookup_empty. cbn.
  rewrite <- Hn in Hrx.
  destruct (svc_get (network st1) block.1 [own] tx) as [n c]. cbn in Hrx. subst c.
  cbn [with_network storage].
  destruct (Hw (storage st1)) as (s' & id & r & -> & [->|[-> Hnone]]); [done|]. cbn [fetch_resume].
  unfold ipfs_get. set (st' := with_network (with_storage _ s') _). specialize (Hok st').
  destruct (lookup_block st' block.1) as [st2 r2] eqn:E2.
  apply lookup_block_spec in E2 as [-> _]; [|done]. cbn. by rewrite Hnone.
Qed.

(** *** A tree that is synchronised *)
Definition stored_all (T : gmap Cid StoreData) (l : list TestBlock) : gmap Cid StoreData :=
  foldl (fun T cd => <[cd.1 := cd.2]> T) T l.

Lemma top_down_tree root l T : tree T root -> top_down root T l -> tree (stored_all T l) root.
Proof.
  revert T. induction l as [|[c d] l IH]; intros T HT; [done|]. intros (Hc & Hl & Htd). apply IH; [|done]. by apply tree_grow.
Qed.

Lemma get_holds (T : gmap Cid StoreData) (b : TestBlock) :
  T !! b.1 = Some b.2 ->
  tn (Holds (fun v => T ⊆ v_blocks v)) (n_get b) (fun r st => r = b /\ Holds (fun v => T ⊆ v_blocks v) st).
Proof.
  intros Hb st (v & Hv & Hat). assert (Hd : v_blocks (c_view v) !! b.1 = Some b.2) by by eapply lookup_weaken.
  pose proof (n_get_run v b b.2 Hd st Hat) as H. destruct (n_get b st) as [st' [a|[e| |]]]; [|by left|done|done].
  destruct H as [-> H]. split; [by destruct b|]. by exists (used v b).
Qed.

Lemma alias_keeps (Q : gmap Cid StoreData -> Prop) a c :
  tn (Holds (fun v => Q (v_blocks v))) (call (fun st => ipfs_alias st a (Some c))) (fun _ => Holds (fun v => Q (v_blocks v))).
Proof.
  intros st (v & HQ & [Hat Hg]). unfold call. destruct (ipfs_alias st a (Some c)) as [st' [[]|e]] eqn:E.
  - unfold ipfs_alias, on_storage in E. destruct (db_alias (storage st) a (Some c)) as [s [[]|x]] eqn:Ea; [|done].
    injection E as <-. pose proof (rw_answers _ _ (SoAlias a (Some c)) _ _ Ea) as (Hv & _). cbn in Hv.
    exists (cache_of s). split; [cbn; rewrite Hv; by rewrite <- Hat in HQ|]. split; [done|]. cbn. by rewrite (rw_keeps_config _ _ _ _ _ Ea).
  - unfold ipfs_alias, on_storage in E. destruct (db_alias (storage st) a (Some c)) as [s [[]|x]]; [done|].
    injection E as _ <-. left. by exists x.
Qed.

(** The query comes to a good end. *)
Definition completes (world : StorageService -> StorageService * awaited) : Prop :=
  forall s, exists s' id, world s = (s', QueryEnded id (Ok tt)).

Lemma sync_logged_run world cid p tx T :
  tells_missing -> delivers world T cid -> completes world -> tree T cid ->
  tn (Holds nothing) (sync_logged world cid [p] tx) (fun _ => Holds (fun v => T ⊆ v_blocks v)).
Proof.
  intros Hm Hd Hok [_ Hbelow] st (v & Hv & [<- Hg]). unfold sync_logged, call, ipfs_sync.
  destruct (Hm (storage st) cid) as (s1 & c & l & E); [cbn in Hv; unfold blocks; by rewrite Hv, lookup_empty|]. rewrite E.
  pose proof (rw_answers _ _ (SoMissingBlocks cid) _ _ E) as (Hv1 & _). cbn in Hv1.
  assert (Hg1 : svc_gc_min_blocks s1 = svc_gc_min_blocks (storage st)) by by eapply rw_keeps_config.
  cbn [svc_sync]. destruct (request _ _ tx) as [nw [e|?]]; cbn; [right; by eexists|].
  destruct (Hok s1) as (s2 & id & Ew). rewrite Ew.
  destruct (Hd _ _ _ Ew) as (Hg2 & _ & _ & Hn).
  { unfold blocks. rewrite Hv1. cbn in Hv. rewrite Hv. apply map_agree_spec. intros i x y _ H. by rewrite lookup_empty in H. }
  exists (cache_of s2). split; [|split; [done|cbn; by rewrite Hg2, Hg1]].
  apply map_subseteq_spec. intros x d Hx. cbn. apply Hn; [by eapply Hbelow|done].
Qed.

Lemma bitswap_sync_run cid (l : list TestBlock) root p tx world :
  tells_missing -> completes world ->
  top_down cid ∅ (rev l) -> delivers world (stored_all ∅ (rev l)) cid ->
  t2 (Hold2 nothing nothing) (test_bitswap_sync cid l root p tx world) (fun _ _ => True).
Proof.
  intros Hm Hok Htd Hd. pose proof (top_down_tree cid (rev l) ∅ (tree_empty cid) Htd) as Ht.
  destruct (foldl_inserts cid (rev l) ∅ (map_Forall_empty _) Htd) as [_ Hin]. fold (stored_all ∅ (rev l)) in Hin.
  unfold test_bitswap_sync. next1 ltac:(apply (alias_keeps (fun B => B = ∅))). next2 ltac:(apply (alias_keeps (fun B => B = ∅))).
  eapply t_seq.
  { apply (t_conseq _ _ (Hold2 anything nothing) _ _ (fun _ => Hold2 anything nothing)); [|apply t_each|done].
    - intros s [(v & _ & H1) H2]. split; [by exists v|done].
    - intros b _. apply step1. by apply (insert_holds anything anything). }
  next1 ltac:(apply flush_keeps). next2 ltac:(by eapply sync_logged_run). next2 ltac:(apply flush_keeps).
  eapply t_conseq; [done|apply t_each|done]. intros b Hb.
  eapply t_bind; [apply result2, get_holds|].
  - apply Hin. rewrite <- surjective_pairing. by rewrite list_elem_of_In, <- in_rev, <- list_elem_of_In.
  - intros r s (H1 & -> & H2). unfold assert. by rewrite bool_decide_eq_true_2.
Qed.
End Exchange.

(** ** From the start of the nodes *)
Section ExchangeClaims.
Context `{CL : CacheLaws} `{Ch : Channels} `{HO : HashOrder}.
Context `{CC : !CommandChannel} `{Co : Chrono} `{Sw : !SwarmOps} `{Bu : !Builders} {SF : StoreFiles}.
Context {ML : MemoryLaws} `{ED : EqDecision StoreData}.
Context (fs : Fs) (any : Multiaddr) (ltx : Sender ListenerEvent) (config0 config1 config2 : bool * (string * Keypair)).
Context (first0 first1 first2 : option ListenerEvent) (book0 book1 book2 : AddressBook).
Context (Hl0 : listens first0 book0) (Hl1 : listens first1 book1) (Hl2 : listens first2 book2).

Definition created (c : bool * (string * Keypair)) : IpfsConfig := create_store_config c.1 c.2.1 c.2.2.

(** test_exchange_kad has a third node, whose address the others bootstrap from. *)
Definition run_kad {A} (body : PeerId -> test (Ipfs * Ipfs) IpfsError A) : result A (failure IpfsError) :=
  match create_store (created config0) any ltx first0 fs with
  | (_, Err f) => Err f
  | (fs, Ok st0) => run_two (created config1) (created config2) any ltx first1 first2 (body (svc_peer_id (network st0))) fs
  end.

Abbreviation holds r := (no_assertion_fails (fun e => ~ not_found e) r).

Lemma created_holds c first fs0 fs' st : create_store (created c) any ltx first fs0 = (fs', Ok st) -> Holds nothing st.
Proof. intros E. exists (empty_cache 10). split; [done|]. by eapply create_store_at. Qed.

Lemma two_hold {A} Q1 Q2 (m : test (Ipfs * Ipfs) IpfsError A) fs0 :
  triple from_outside (Hold2 Q1 Q2) m (fun _ _ => True) ->
  (forall v, nothing v -> Q1 v) -> (forall v, nothing v -> Q2 v) ->
  holds (run_two (created config1) (created config2) any ltx first1 first2 m fs0).
Proof.
  intros Hm W1 W2. unfold run_two.
  destruct (create_store _ any ltx first1 fs0) as [fs1 [st1|f]] eqn:E1;
    [|eapply create_store_error; [exact (listens_first _ _ Hl1)|exact E1]].
  destruct (create_store _ any ltx first2 fs1) as [fs2 [st2|f]] eqn:E2;
    [|eapply create_store_error; [exact (listens_first _ _ Hl2)|exact E2]].
  eapply outside_found; [done| |apply outside_found']. eapply triple_no_assertion; [exact Hm|].
  apply created_holds in E1 as (v1 & H1 & A1), E2 as (v2 & H2 & A2). split; [exists v1|exists v2]; eauto.
Qed.

(** The tests in which a block is fetched or a record is found, with nodes that come to
    listen.  If bitswap ends a
    query well only with the block stored, a block fetched from another node, found by
    its peer id or as a provider, has the data that was inserted there; a block nobody
    has is reported as not found, if the storage answers and the command is accepted;
    and a record query with quorum one that found records is answered with one. *)
Theorem exchange_tests_hold (block : TestBlock) peer key tx world b1 b2 provided found0 :
  brings world block -> found0 <> Ok [] ->
  holds (run_two (created config1) (created config2) any ltx first1 first2 (test_exchange_mdns block peer tx world) fs) /\
  holds (run_kad (fun peer => test_exchange_kad block peer book0 key b1 b2 provided found0 tx world)) /\
  (forall nobody fs' st, create_store (created config1) any ltx first1 fs = (fs', Ok st) ->
     finds_nothing nobody block -> (forall s, is_ok (db_get s block.1).2 = true) ->
     (exists rx, (svc_get (network st) block.1 [svc_peer_id (network st)] tx).2 = Awaits rx) ->
     (test_provider_not_found block (svc_peer_id (network st)) tx nobody st).2 = Ok tt) /\
  (forall st kid rtx rs p0 p1 record put got,
     queries st !! KadId kid = Some (ChGetRecord (quorum_size QuorumOne) [] rtx) -> rs <> [] ->
     (forall l, got = Ok l -> outbox (foldl inject_kad_event st (found kid <$> rs)) =
        outbox st ++ [Replied rtx (RRecords (Ok l))]) ->
     holds (run_two (created config1) (created config2) any ltx first1 first2
       (test_dht_record p0 p1 book1 book2 key record b1 b2 put got tx) fs)).
Proof.
  intros Hw Hf. split_and!.
  - by eapply two_hold; [..|apply exchange_mdns_run| |].
  - unfold run_kad. destruct (create_store _ any ltx first0 fs) as [fs1 [st0|f]] eqn:E;
      [|eapply create_store_error; [exact (listens_first _ _ Hl0)|exact E]].
    by eapply two_hold; [..|eapply exchange_kad_run| |].
  - intros nobody fs' st E Hn Hg Hs. apply not_found_run; [by eapply created_holds|done..].
  - intros. by eapply two_hold; [..|eapply dht_record_run| |].
Qed.
End ExchangeClaims.

Section BitswapClaims.
Context `{CL : CacheLaws} `{Ch : Channels} `{HO : HashOrder}.
Context `{CC : !CommandChannel} `{Co : Chrono} `{Sw : !SwarmOps} `{Bu : !Builders} {SF : StoreFiles}.
Context {ML : MemoryLaws} `{ED : EqDecision StoreData} `{TB : !TreeBlocks Cid} {TL : TreeLaws}.

(** test_bitswap_sync_chain and test_bitswap_sync_tree.  A tree of any width and
    depth is built, inserted into one node and synchronised to another.  If the
    nodes listen, the storage tells that the root is missing, and the query ends well and
    delivers what is below the root, then no assertion fails: the test does not look at
    the result of the synchronisation, but gets every block. *)
Theorem bitswap_sync_holds (block_data : TBlock -> StoreData) fs any ltx config1 config2 first1 first2 book1 book2 w d rng rng' cid l root peer tx world :
  (forall n b, encode n = Ok b -> content (block_cid b) (block_data b) /\ data_links (block_data b) = node_links n) ->
  build_tree w d rng ↓ (rng', Ok (cid, l)) ->
  listens first1 book1 -> listens first2 book2 -> tells_missing -> completes world ->
  delivers world (stored_all ∅ (rev (TestTree.stored block_data <$> l))) cid ->
  no_assertion_fails (fun e => ~ not_found e)
    (run_two (created config1) (created config2) any ltx first1 first2
      (test_bitswap_sync cid (TestTree.stored block_data <$> l) root peer tx world) fs).
Proof.
  intros Hdata E Hl1 Hl2 Hm Hok Hd. eapply two_hold; [exact Hl1|exact Hl2|apply bitswap_sync_run; [done|done| |done]|done|done].
  unfold build_tree in E. outcome_inv. destruct x as [s [c|e]]; simplify_eq/=.
  match goal with H : build_tree_0 _ _ _ ↓ _ |- _ => apply build_tree_0_built in H as (l & Hs & Hb) end.
  cbn in Hs. rewrite Hs. rewrite <- map_rev. by eapply built_top_down.
Qed.
End BitswapClaims.

(** ** On the concrete store *)
Section ExchangeWitness.
Import NetDemo SimService SimLru SimTests.
#[local] Existing Instance resolving.

Definition one_config : bool * (string * @Keypair sim) := (false, ("one", a_key 1)).
Definition two_config : bool * (string * @Keypair sim) := (false, ("two", a_key 2)).

(** The first event of a listener. *)
Definition heard : option (@ListenerEvent sim) := Some (LeNewListenAddr any_address).
Lemma is_heard self : listens heard (listening self).
Proof. exists any_address. split; [reflexivity|]. apply (bool_decide_unpack _). vm_compute. exact I. Qed.

(** A provider that has the block. *)
Definition bring (b : sim_block) (s : @StorageService sim sim_protocols lru_store) :
    @StorageService sim sim_protocols lru_store * @awaited sim sim_protocols :=
  (with_store s (use b.1 b.2 (store s)), QueryEnded (BitswapId (bid 3)) (Ok tt)).

Lemma bring_brings b : brings (bring b) b.
Proof. intros s s' id [= <- _]. unfold blocks. cbn -[lru_blocks]. by rewrite use_blocks, lookup_insert_eq. Qed.

Lemma exchange_tests_hold_witness :
  no_assertion_fails (fun e => ~ not_found e)
    (run_two (created one_config) (created two_config) any_address listener heard heard (test_exchange_mdns (blk 1) 1%N 3 (bring (blk 1))) no_fs).
Proof.
  refine (proj1 (exchange_tests_hold (ML := lru_memory) no_fs any_address listener one_config one_config two_config
    heard heard heard (listening 1%N) (listening 1%N) (listening 2%N) (is_heard _) (is_heard _) (is_heard _) (blk 1) 1%N (key 1) 3 (bring (blk 1)) (Ok tt) (Ok tt) (Ok tt) (Ok [1%N]) _ _)).
  - apply bring_brings.
  - discriminate.
Defined.

(** Two leaves and their root. *)
#[local] Instance lru_tree : TreeBlocks (@Cid sim sim_protocols) := {|
  TBlock := N * TreeNode (@Cid sim sim_protocols);
  TErr := string;
  TRng := Z;
  cid_size := 96;
  block_cid := fst;
  encode := fun n =>
    let c : N := match node_links n with [] => if Z.even (hd 0%Z (node_payload n)) then 1 else 4 | _ => 6 end%N in
    if decide (node_links n = doc c) then Ok (c, n) else Err "not in the library";
  fill_bytes := fun n r => (replicate (Z.to_nat n) r, (r + 1)%Z);
  decode := snd
|}.

#[local] Instance lru_tree_laws : TreeLaws (TB := lru_tree).
Proof.
  split.
  - intros n b. cbn -[doc]. case_decide; [|done]. by intros [= <-].
  - intros n r Hn. cbn. rewrite length_replicate. lia.
Qed.

Definition lru_data (b : @TBlock _ lru_tree) : @StoreData sim sim_protocols lru_store := doc b.1.
Definition a_tree := build_tree (TB := lru_tree) 2 1 (0%Z : @TRng _ lru_tree).
Definition a_tree_blocks : list (@TBlock _ lru_tree) := match a_tree with Done (_, Ok (_, l)) => l | _ => [] end.
Definition a_tree_given := stored_all (BS := lru_store) ∅ (rev (TestTree.stored lru_data <$> a_tree_blocks)).

Lemma a_tree_made : exists rng, a_tree ↓ (rng, Ok ((blk 6).1, a_tree_blocks)).
Proof.
  assert (H : match a_tree with Done (_, Ok (c, _)) => bool_decide (c = (blk 6).1) | _ => false end = true)
    by (vm_compute; reflexivity).
  unfold a_tree_blocks. destruct a_tree as [[rng [[c l]|e]]|w]; try discriminate H.
  apply bool_decide_eq_true in H. subst c. by exists rng.
Qed.

Lemma bitswap_sync_holds_witness :
  no_assertion_fails (fun e => ~ not_found e)
    (run_two (created one_config) (created two_config) any_address listener heard heard
      (test_bitswap_sync (blk 6).1 (TestTree.stored lru_data <$> a_tree_blocks) x1 1%N 3 (give a_tree_given)) no_fs).
Proof.
  destruct a_tree_made as [rng E].
  apply (bitswap_sync_holds (ML := lru_memory) lru_data no_fs any_address listener one_config two_config heard heard
    (listening 1%N) (listening 2%N) 2 1
    (0%Z : @TRng _ lru_tree) rng (blk 6).1 a_tree_blocks).
  - intros n b. cbn -[doc]. case_decide as H; [|done]. intros [= <-]. by split.
  - exact E.
  - apply is_heard.
  - apply is_heard.
  - apply lru_tells_missing.
  - intros s. by eexists _, _.
  - apply give_delivers.
Defined.
End ExchangeWitness.
