(* ===== verification/Gossip.v ===== *)
(** * test_gossip_and_broadcast (src/lib.rs, [mod tests])

    Six nodes dial each other, subscribe to a topic, and exchange two messages.  The
    test reads the streams of its subscriptions; a stream is the list of the events that
    arrive in time, and reading past its end is the panic of a timeout.  Shown here:
    exactly which streams the test accepts, and what a stream is made of: the network
    task passes every event of gossipsub and of the broadcast protocol on, in order. *)
From S2P Require Import Prelude Time Libp2p PeerInfo AddressHandler Peers Protocols Behaviour Net Service NetProps.
From S2P Require Import NetInv Config Db Ipfs StoreTests Exchange.

Section GossipTest.
Context `{L : Libp2p}.

#[export] Instance gossip_event_eq : EqDecision GossipEvent.
Proof. solve_decision. Defined.

Definition is_message (e : GossipEvent) : bool := match e with GeMessage _ _ => true | _ => false end.

(** [expected.remove(expected.iter().position(|e| e == &ev))]. *)
Fixpoint remove_first (ev : GossipEvent) (l : list GossipEvent) : list GossipEvent :=
  match l with
  | [] => []
  | e :: l => if decide (e = ev) then l else e :: remove_first ev l
  end.

(** Once for gossipsub, once for broadcast. *)
Definition twice (f : PeerId -> GossipEvent) (l : list PeerId) : list GossipEvent := p ← l; [f p; f p].

(** The peer ids of all stores but the one at [idx]. *)
Definition without_idx (ids : list PeerId) (idx : nat) : list PeerId :=
  take idx ids ++ drop (S idx) ids.

Context (hello_gossip hello_broadcast : bytes) (store0 : PeerId) (others : list PeerId).
Definition ids : list PeerId := store0 :: others.

Definition expected_gossip (idx : nat) : list GossipEvent :=
  twice GeSubscribed (without_idx ids idx) ++
  (if decide (idx = 0) then [] else [GeMessage store0 hello_gossip]).

(** [while expected.iter().any(..)]; the rest of the stream is read later. *)
Fixpoint await_message (expected stream : list GossipEvent) : outcome (list GossipEvent * list GossipEvent) :=
  if existsb is_message expected then
    match stream with
    | [] => Panic "timeout"
    | ev :: stream =>
        if decide (ev ∈ expected) then await_message (remove_first ev expected) stream else Panic "received"
    end
  else Done (expected, stream).

Definition check_gossip (idx : nat) (stream : list GossipEvent) : outcome (list GossipEvent) :=
  '(expected, rest) ← await_message (expected_gossip idx) stream;
  if decide (idx <> 0 /\ ~ length expected < (length ids - 1) * 2) then Panic "did not receive any Subscribed message"
  else Done rest.

Definition check_broadcast (stream : list GossipEvent) : outcome (list GossipEvent) :=
  match stream with
  | [] => Panic "unwrap"
  | GeMessage p data :: rest =>
      if decide (p = store0) then if decide (data = hello_broadcast) then Done rest else Panic "assert_eq"
      else Panic "assert_eq"
  | _ => Panic "received unexpected message"
  end.

(** [while !expected.is_empty()]. *)
Fixpoint await_unsubscribed (expected stream : list GossipEvent) : outcome (list GossipEvent) :=
  match expected with
  | [] => Done stream
  | _ =>
      match stream with
      | [] => Panic "timeout"
      | GeSubscribed _ :: stream => await_unsubscribed expected stream
      | ev :: stream =>
          if decide (ev ∈ expected) then await_unsubscribed (remove_first ev expected) stream else Panic "received"
      end
  end.

Fixpoint check_each (f : nat -> list GossipEvent -> outcome (list GossipEvent)) (idx : nat)
    (streams : list (list GossipEvent)) : outcome (list (list GossipEvent)) :=
  match streams with
  | [] => Done []
  | s :: streams => r ← f idx s; rs ← check_each f (S idx) streams; Done (r :: rs)
  end.

(** *** What the loops accept *)

Lemma remove_first_elem ev l : ev ∈ l -> l ≡ₚ ev :: remove_first ev l.
Proof.
  induction l as [|e l IH]; [by intros ?%not_elem_of_nil|]. cbn. case_decide as E; [by subst|].
  intros [->|H]%elem_of_cons; [done|]. rewrite (IH H) at 1. constructor.
Qed.

Lemma removed l l' ev : l ≡ₚ l' -> ev ∈ l' -> l' ≡ₚ ev :: remove_first ev l.
Proof. intros Hp Hin. etrans; [symmetry; exact Hp|]. apply remove_first_elem. by rewrite Hp. Qed.

Lemma existsb_perm (f : GossipEvent -> bool) l l' : l ≡ₚ l' -> existsb f l = existsb f l'.
Proof. induction 1; cbn; [done|by f_equal|by rewrite !orb_assoc, (orb_comm (f y))|congruence]. Qed.

Lemma existsb_no_message l : Forall (fun e => is_message e = false) l -> existsb is_message l = false.
Proof. induction 1 as [|e l He _ IH]; cbn; [done|by rewrite He]. Qed.

Lemma twice_no_message f l : (forall p, is_message (f p) = false) -> Forall (fun e => is_message e = false) (twice f l).
Proof.
  intros H. unfold twice. induction l as [|p l IH]; [done|].
  change (Forall (fun e => is_message e = false) (f p :: f p :: (p ← l; [f p; f p]))). by repeat constructor.
Qed.

Lemma length_twice f l : length (twice f l) = 2 * length l.
Proof. unfold twice. induction l as [|p l IH]; [done|]. change (S (S (length (p ← l; [f p; f p]))) = 2 * S (length l)). lia. Qed.

Lemma await_done expected stream :
  existsb is_message expected = false -> await_message expected stream = Done (expected, stream).
Proof. intros H. destruct stream; cbn; by rewrite H. Qed.

Lemma expects_message expected msg subs :
  is_message msg = true -> expected ≡ₚ msg :: subs -> existsb is_message expected = true.
Proof. intros Hm Hp. rewrite (existsb_perm _ _ _ Hp). cbn. by rewrite Hm. Qed.

(** The wait for a message reads other expected events, each as often as it is expected,
    in any order, up to the message, which is the first one to arrive. *)
Lemma await_message_sound msg subs expected stream e rest :
  is_message msg = true -> Forall (fun e => is_message e = false) subs -> expected ≡ₚ msg :: subs ->
  await_message expected stream ↓ (e, rest) -> exists seen, stream = seen ++ msg :: rest /\ seen ++ e ≡ₚ subs.
Proof.
  intros Hm. revert subs expected. induction stream as [|ev stream IH]; intros subs expected Hs Hp; cbn [await_message];
    rewrite (expects_message _ _ _ Hm Hp); [done|]. case_decide as Hin; [|done]. intros E.
  rewrite Hp in Hin. pose proof (removed _ _ ev Hp Hin) as Hr.
  destruct (decide (ev = msg)) as [->|Hne].
  - apply Permutation_cons_inv in Hr. rewrite await_done in E.
    + injection E as <- <-. exists []. by rewrite <- Hr.
    + rewrite <- (existsb_perm _ _ _ Hr). by apply existsb_no_message.
  - apply elem_of_cons in Hin as [?|Hin]; [done|]. apply elem_of_Permutation in Hin as [subs' Hsub].
    rewrite Hsub in Hs. apply Forall_cons in Hs as [_ Hs].
    destruct (IH subs' (remove_first ev expected)) as (seen & -> & Hseen); [done| |done|].
    + apply (Permutation_cons_inv (a := ev)). rewrite <- Hr, Hsub. constructor.
    + exists (ev :: seen). split; [done|]. cbn. by rewrite Hseen.
Qed.

Lemma await_message_complete msg subs expected seen e' rest :
  is_message msg = true -> Forall (fun e => is_message e = false) subs -> expected ≡ₚ msg :: subs ->
  seen ++ e' ≡ₚ subs -> exists e, await_message expected (seen ++ msg :: rest) ↓ (e, rest) /\ e ≡ₚ e'.
Proof.
  intros Hm. revert subs expected. induction seen as [|ev seen IH]; intros subs expected Hs Hp Hseen; cbn [await_message app];
    rewrite (expects_message _ _ _ Hm Hp).
  - rewrite decide_True by (rewrite Hp; by left).
    pose proof (removed _ _ msg Hp (list_elem_of_here _ _)) as Hr. apply Permutation_cons_inv in Hr.
    rewrite await_done; [|rewrite <- (existsb_perm _ _ _ Hr); by apply existsb_no_message].
    eexists. split; [done|]. by rewrite <- Hr, <- Hseen.
  - cbn in Hseen. assert (Hin : ev ∈ msg :: subs) by (rewrite <- Hseen; right; by left).
    rewrite decide_True by (by rewrite Hp).
    apply (IH (seen ++ e')); [|..|done].
    + rewrite <- Hseen in Hs. by apply Forall_cons in Hs as [_ Hs].
    + apply (Permutation_cons_inv (a := ev)). rewrite <- (removed _ _ ev Hp Hin), <- Hseen. constructor.
Qed.

(** The wait for the end of the subscriptions skips what is left of their beginnings. *)
Definition is_subscribed (e : GossipEvent) : bool := match e with GeSubscribed _ => true | _ => false end.
Definition unsubscribed_in (expected pre : list GossipEvent) : Prop :=
  filter (fun e => is_subscribed e = false) pre ≡ₚ expected /\
  forall e, last pre = Some e -> is_subscribed e = false.

Lemma await_unsubscribed_exact expected stream rest :
  Forall (fun e => is_subscribed e = false) expected ->
  await_unsubscribed expected stream ↓ rest <-> exists pre, stream = pre ++ rest /\ unsubscribed_in expected pre.
Proof.
  revert expected. induction stream as [|ev stream IH]; intros expected He.
  - destruct expected as [|e expected]; cbn; split.
    + intros [= <-]. by exists [].
    + by intros (pre & [-> <-]%symmetry%app_nil & _).
    + done.
    + intros (pre & [-> ->]%symmetry%app_nil & [Hp _]). by apply Permutation_nil_cons in Hp.
  - destruct (decide (expected = [])) as [->|Hne].
    { cbn. split; [intros [= <-]; by exists []|]. intros (pre & E & [Hp Hl]).
      destruct pre as [|x pre _] using rev_ind; [cbn in E; by rewrite E|].
      specialize (Hl x (last_snoc _ _)). rewrite filter_app, filter_cons_True in Hp by done.
      apply Permutation_nil_r in Hp. by destruct (filter _ pre). }
    assert (Hun : await_unsubscribed expected (ev :: stream) = if is_subscribed ev then await_unsubscribed expected stream
      else if decide (ev ∈ expected) then await_unsubscribed (remove_first ev expected) stream else Panic "received").
    { by destruct expected, ev. }
    rewrite Hun. clear Hun. destruct (is_subscribed ev) eqn:Ev.
    + rewrite IH by done. split.
      * intros (pre & -> & [Hp Hl]). exists (ev :: pre). split; [done|]. split; [by rewrite filter_cons_False by congruence|].
        destruct pre; [|done]. by apply Permutation_nil in Hp.
      * intros (pre & E & [Hp Hl]). destruct pre as [|x pre]; [by apply Permutation_nil in Hp|].
        injection E as <- ->. exists pre. rewrite filter_cons_False in Hp by congruence. split; [done|]. split; [done|].
        intros e Hlast. apply Hl. by destruct pre.
    + case_decide as Hin.
      * pose proof (remove_first_elem ev expected Hin) as Hr.
        rewrite IH by (rewrite Hr in He; by apply Forall_cons in He as [_ ?]). split.
        -- intros (pre & -> & [Hp Hl]). exists (ev :: pre). split; [done|]. split.
           ++ rewrite filter_cons_True by done. rewrite Hp. by symmetry.
           ++ intros e. destruct pre; [by intros [= <-]|]. apply Hl.
        -- intros (pre & E & [Hp Hl]). destruct pre as [|x pre]; [by apply Permutation_nil in Hp|].
           injection E as <- ->. exists pre. rewrite filter_cons_True in Hp by done. split; [done|]. split.
           ++ apply (Permutation_cons_inv (a := ev)). by rewrite Hp.
           ++ intros e Hlast. apply Hl. by destruct pre.
      * split; [done|]. intros (pre & E & [Hp _]). destruct pre as [|x pre]; [by apply Permutation_nil in Hp|].
        injection E as <- ->. exfalso. apply Hin. rewrite <- Hp, filter_cons_True by done. by left.
Qed.

Lemma check_each_exact f idx streams rs :
  check_each f idx streams ↓ rs <->
  length rs = length streams /\ forall i s, streams !! i = Some s -> exists r, rs !! i = Some r /\ f (idx + i) s ↓ r.
Proof.
  revert idx rs. induction streams as [|s streams IH]; intros idx rs; cbn [check_each].
  { split; [by intros [= <-]|]. intros [H _]. by destruct rs. }
  split.
  - intros E. outcome_inv. match goal with H : check_each _ _ _ ↓ _ |- _ => apply IH in H as [Hl Hr] end.
    cbn. split; [by rewrite Hl|]. intros [|i] s' Hi; cbn in *; [injection Hi as <-; rewrite Nat.add_0_r; by eexists|].
    replace (idx + S i) with (S idx + i) by lia. by apply Hr.
  - intros [Hl Hr]. destruct rs as [|r rs]; [done|]. destruct (Hr 0 s eq_refl) as (r' & [= <-] & E).
    rewrite Nat.add_0_r in E. rewrite E. cbn [mbind outcome_bind].
    assert (Hrest : check_each f (S idx) streams ↓ rs); [|by rewrite Hrest].
    apply IH. split; [by injection Hl|]. intros i s' Hi. destruct (Hr (S i) s' Hi) as (x & Hx & Ex).
    exists x. split; [done|]. by replace (S idx + i) with (idx + S i) by lia.
Qed.

Lemma length_without idx : idx < length ids -> length (without_idx ids idx) = length ids - 1.
Proof. intros H. unfold without_idx. rewrite length_app, length_take, length_drop. lia. Qed.

Lemma check_gossip_exact idx s rest :
  idx < length ids -> check_gossip idx s ↓ rest <->
  if decide (idx = 0) then rest = s
  else exists seen, s = seen ++ GeMessage store0 hello_gossip :: rest /\
    seen ⊆+ twice GeSubscribed (without_idx ids idx) /\ seen <> [].
Proof.
  intros Hidx. unfold check_gossip, expected_gossip. set (subs := twice GeSubscribed (without_idx ids idx)).
  assert (Hs : Forall (fun e => is_message e = false) subs) by (by apply twice_no_message).
  assert (Hlen : length subs = (length ids - 1) * 2) by (unfold subs; rewrite length_twice, length_without by done; lia).
  case_decide as H0.
  { rewrite app_nil_r, await_done by (by apply existsb_no_message). cbn. rewrite decide_False by tauto.
    split; [by intros [= ->]|by intros ->]. }
  assert (Hp : subs ++ [GeMessage store0 hello_gossip] ≡ₚ GeMessage store0 hello_gossip :: subs)
    by (by rewrite Permutation_app_comm). split.
  - intros E. outcome_inv. destruct x as [e r]. case_decide as Hc; [done|]. simplify_eq.
    match goal with H : await_message _ _ ↓ _ |- _ =>
      apply (await_message_sound (GeMessage store0 hello_gossip) subs) in H as (seen & -> & Hseen) end; [|done..].
    exists seen. split_and!; [done|rewrite <- Hseen; by apply submseteq_inserts_r|].
    intros ->. apply Hc. split; [done|]. cbn in Hseen. rewrite Hseen. lia.
  - intros (seen & -> & [e' He']%submseteq_Permutation & Hne).
    destruct (await_message_complete (GeMessage store0 hello_gossip) subs _ seen e' rest eq_refl Hs Hp) as (e & -> & He);
      [by symmetry|]. cbn. rewrite decide_False; [done|]. intros [_ Hc]. apply Hc. rewrite He.
    apply Permutation_length in He'. rewrite length_app, Hlen in He'. destruct seen; [done|]. cbn in He'. lia.
Qed.

Lemma check_broadcast_exact s rest : check_broadcast s ↓ rest <-> s = GeMessage store0 hello_broadcast :: rest.
Proof.
  split; [|intros ->; cbn; by rewrite !decide_True].
  destruct s as [|[] s]; cbn; try done. repeat case_decide; try done. by intros [= <-]; subst.
Qed.

(** *** The streams the test accepts *)
Definition gossip_checks (streams rests : list (list GossipEvent)) : Prop :=
  check_each check_gossip 0 streams ↓ rests.
Definition last_check (rests : list (list GossipEvent)) : outcome (list GossipEvent) :=
  match rests with
  | [] => Panic "unwrap"
  | last_sub :: _ => await_unsubscribed (twice GeUnsubscribed (drop 1 ids)) last_sub
  end.

Definition accepted (streams : list (list GossipEvent)) : Prop :=
  (exists s0 pre rest, streams !! 0 = Some s0 /\ s0 = pre ++ rest /\
     unsubscribed_in (twice GeUnsubscribed others) pre) /\
  forall i s, streams !! S i = Some s -> exists seen rest,
    s = seen ++ GeMessage store0 hello_gossip :: GeMessage store0 hello_broadcast :: rest /\
    seen ⊆+ twice GeSubscribed (without_idx ids (S i)) /\ seen <> [].

Lemma twice_unsubscribed l : Forall (fun e => is_subscribed e = false) (twice GeUnsubscribed l).
Proof.
  unfold twice. induction l as [|p l IH]; [done|].
  change (Forall (fun e => is_subscribed e = false) (GeUnsubscribed p :: GeUnsubscribed p :: (p ← l; [GeUnsubscribed p; GeUnsubscribed p]))).
  by repeat constructor.
Qed.

Lemma list_choice {A B} (P : nat -> A -> B -> Prop) (l : list A) :
  (forall i a, l !! i = Some a -> exists b, P i a b) ->
  exists bs, length bs = length l /\ forall i a, l !! i = Some a -> exists b, bs !! i = Some b /\ P i a b.
Proof.
  revert P. induction l as [|a l IH]; intros P H; [by exists []|].
  destruct (H 0 a eq_refl) as [b Hb]. destruct (IH (fun i => P (S i))) as (bs & Hl & Hbs); [intros i; apply (H (S i))|].
  exists (b :: bs). cbn. split; [by rewrite Hl|]. intros [|i] a' Hi; [injection Hi as <-; by exists b|by apply Hbs].
Qed.

Lemma accepted_iff streams :
  length streams = length ids ->
  accepted streams <-> exists rests rests' l, gossip_checks streams rests /\
    check_each (fun _ => check_broadcast) 1 (drop 1 rests) ↓ rests' /\ last_check rests ↓ l.
Proof.
  intros Hn. destruct streams as [|s0 ss]; [done|]. unfold gossip_checks. split.
  - intros [(s0' & pre & l & [= <-] & Hs0 & Hpre) Hss].
    destruct (list_choice (fun i s rest => check_gossip (S i) s ↓ (GeMessage store0 hello_broadcast :: rest)) ss)
      as (rs & Hl & Hrs).
    { intros i s Hi. destruct (Hss i s Hi) as (seen & rest & -> & Hseen & Hne). exists rest.
      apply lookup_lt_Some in Hi. apply check_gossip_exact; [cbn in *; lia|]. rewrite decide_False by done. by eexists. }
    exists (s0 :: ((fun r => GeMessage store0 hello_broadcast :: r) <$> rs)), rs, l. split_and!.
    + apply check_each_exact. cbn. rewrite length_fmap. split; [by f_equal|]. intros [|i] s Hi.
      * injection Hi as <-. exists s0. split; [done|]. apply check_gossip_exact; [cbn; lia|]. by rewrite decide_True.
      * destruct (Hrs i s Hi) as (r & Hr & E). exists (GeMessage store0 hello_broadcast :: r). split; [|done].
        change (((fun r => GeMessage store0 hello_broadcast :: r) <$> rs) !! i = Some (GeMessage store0 hello_broadcast :: r)).
        by rewrite list_lookup_fmap, Hr.
    + apply check_each_exact. unfold drop. rewrite length_fmap. split; [done|]. intros i s Hi.
      apply list_lookup_fmap_Some in Hi as (r & -> & Hr). exists r. split; [done|]. by apply check_broadcast_exact.
    + apply await_unsubscribed_exact; [apply twice_unsubscribed|]. by exists pre.
  - intros (rests & rests' & l & [Hl Hr]%check_each_exact & [Hl' Hr']%check_each_exact & Hlast).
    destruct (Hr 0 s0 eq_refl) as (r0 & Hr0 & E0). apply check_gossip_exact in E0; [|cbn; lia].
    rewrite decide_True in E0 by done. subst r0. destruct rests as [|r rests]; [done|]. injection Hr0 as ->. split.
    + apply await_unsubscribed_exact in Hlast as (pre & -> & Hpre); [|apply twice_unsubscribed]. by exists (pre ++ l), pre, l.
    + intros i s Hi. destruct (Hr (S i) s Hi) as (r & Hri & E). pose proof (lookup_lt_Some _ _ _ Hi) as Hlt. cbn [Nat.add lookup] in Hri, E.
      apply check_gossip_exact in E; [|cbn in *; lia]. rewrite decide_False in E by done. destruct E as (seen & -> & Hseen & Hne).
      destruct (Hr' i r) as (r' & _ & E'); [done|]. apply check_broadcast_exact in E' as ->. by eexists seen, r'.
Qed.
End GossipTest.

(** ** The test *)
Section GossipRun.
Context `{CC : CommandChannel} `{BS : !BlockStores} `{Co : Chrono}.

Abbreviation nodes := (test (list Ipfs) IpfsError).

(** [stores[i]]. *)
Definition at_ {A} (i : nat) (m : test Ipfs IpfsError A) : nodes A := fun s =>
  match s !! i with
  | None => (s, Err Assertion)
  | Some st => let '(st, r) := m st in (<[i := st]> s, r)
  end.
Definition checks {A} (o : outcome A) : nodes A := fun s => (s, match o with Done a => Ok a | Panic _ => Err Assertion end).

Definition dial_others (st : Ipfs) (nodes : list (PeerId * Multiaddr)) : Ipfs :=
  foldl (fun st '(peer, addr) => if decide (ipfs_local_peer_id st = peer) then st else ipfs_dial_address st peer addr)
    st nodes.

(** [books] are the variables of the stores once the connections had time, [subscribed],
    [published] and [cast*] the replies to the calls, [streams] what the subscriptions
    yield. *)
Definition test_gossip_and_broadcast (topic : string) (hello_gossip hello_broadcast still_listening : bytes)
    (store0 : PeerId) (others : list PeerId) (addrs : list Multiaddr) (books : list AddressBook)
    (subscribed : list (result unit ClientError)) (published cast1 cast2 : result unit ClientError) (tx : Tx)
    (streams : list (list GossipEvent)) : nodes unit :=
  let ids := store0 :: others in
  each (seq 0 (length ids)) (fun i => at_ i (fun st => (dial_others st (zip ids addrs), Ok tt))) ;;
  each (imap pair books) (fun '(i, book) => each ids (fun peer =>
    up ← at_ i (fun st => (st, Ok (ipfs_is_connected st book peer))); assert up)) ;;
  each (imap pair subscribed) (fun '(i, r) => at_ i (ask (fun n => svc_subscribe n topic tx) r)) ;;
  at_ 0 (ask (fun n => svc_publish n topic hello_gossip tx) published) ;;
  rests ← checks (check_each (check_gossip hello_gossip store0 others) 0 streams);
  at_ 0 (ask (fun n => svc_broadcast n topic hello_broadcast tx) cast1) ;;
  _ ← checks (check_each (fun _ => check_broadcast hello_broadcast store0) 1 (drop 1 rests));
  at_ 0 (ask (fun n => svc_broadcast n topic still_listening tx) cast2) ;;
  _ ← checks (last_check store0 others rests);
  mret tt.

(** Any test: what a success says. *)
Lemma bind_ok {S E A B} (m : test S E A) (k : A -> test S E B) s b :
  ((m ≫= k) s).2 = Ok b -> exists s' a, m s = (s', Ok a) /\ (k a s').2 = Ok b.
Proof. unfold mbind, test_bind. destruct (m s) as [s' [a|f]]; [by eauto|done]. Qed.

Lemma checks_ok {A} (o : outcome A) s s' a : checks o s = (s', Ok a) -> o ↓ a.
Proof. unfold checks. destruct o; by intros [= <- <-]. Qed.

(** *** The nodes keep their identity *)
Definition owner (st : Ipfs) : PeerId := svc_peer_id (network st).
Definition from_network (e : IpfsError) : Prop := exists x, e = NetworkError x.

Lemma request_owner svc msg tx : svc_peer_id (request svc msg tx).1 = svc_peer_id svc.
Proof. unfold request, cmd. by repeat case_match; simplify_eq. Qed.

Lemma dial_owner st l : owner (dial_others st l) = owner st.
Proof.
  unfold dial_others. revert st. induction l as [|[p a] l IH]; intros st; [done|]. cbn. rewrite IH.
  case_decide; [done|]. unfold owner, ipfs_dial_address, on_network, svc_dial_address, tell, cmd. cbn.
  by repeat case_match; simplify_eq.
Qed.

Lemma ask_owner {A} (msg : NetworkCommand) tx (reply : result A ClientError) st :
  owner (ask (fun n => request n msg tx) reply st).1 = owner st /\
  match (ask (fun n => request n msg tx) reply st).2 with
  | Ok _ => True | Err (Unwrapped e) => from_network e | _ => False
  end.
Proof.
  unfold ask, start, mbind, test_bind, owner. pose proof (request_owner (network st) msg tx) as H.
  destruct (request (network st) msg tx) as [n c]. cbn in H.
  destruct c as [e|rx]; [|destruct reply as [a|e]]; cbn; split; try done; by eexists.
Qed.

Section Run.
Context (own : list PeerId).
Abbreviation tl := (triple (S := list Ipfs) from_network).
Definition Owned (s : list Ipfs) : Prop := owner <$> s = own.

Lemma at_run {A} i (m : test Ipfs IpfsError A) :
  i < length own ->
  (forall st, owner (m st).1 = owner st /\
     match (m st).2 with Ok _ => True | Err (Unwrapped e) => from_network e | _ => False end) ->
  tl Owned (at_ i m) (fun _ => Owned).
Proof.
  intros Hi Hm s Hs. unfold at_. unfold Owned in Hs. rewrite <- Hs, length_fmap in Hi.
  apply lookup_lt_is_Some_2 in Hi as [st Hst]. rewrite Hst. specialize (Hm st).
  destruct (m st) as [st' r]. cbn in Hm. destruct Hm as [Ho Hr]. destruct r as [a|[e| |]]; try done.
  unfold Owned. rewrite list_fmap_insert, Ho, <- Hs. apply list_insert_id. by rewrite list_lookup_fmap, Hst.
Qed.

Lemma ask_run {A} i (msg : NetworkCommand) tx (reply : result A ClientError) :
  i < length own -> tl Owned (at_ i (ask (fun n => request n msg tx) reply)) (fun _ => Owned).
Proof. intros Hi. apply at_run; [done|]. intros st. apply ask_owner. Qed.

Lemma up_run i book peer :
  (exists p, own !! i = Some p /\ forall st, owner st = p -> ipfs_is_connected st book peer = true) ->
  tl Owned (up ← at_ i (fun st => (st, Ok (ipfs_is_connected st book peer))); assert up) (fun _ => Owned).
Proof.
  intros (p & Hp & Hup) s Hs. unfold mbind, test_bind, at_. unfold Owned in *.
  rewrite <- Hs, list_lookup_fmap in Hp. destruct (s !! i) as [st|] eqn:Est; [|done]. injection Hp as Hp.
  unfold assert. rewrite (Hup st Hp). cbn. by rewrite list_insert_id.
Qed.

Lemma checks_run {A} (o : outcome A) a : o ↓ a -> tl Owned (checks o) (fun x s => x = a /\ Owned s).
Proof. intros Ho s Hs. unfold checks. by rewrite Ho. Qed.
End Run.

(** C34: exactly what test_gossip_and_broadcast accepts.  If it passes, every subscription
    but the first yielded some of the notices that the other nodes subscribed, each at most
    twice and in any order, then the gossip message and directly after it the
    broadcast; the first yielded, besides notices of subscriptions, two notices per other
    node that it unsubscribed, and nothing else before the last of these.  Conversely, if
    the streams are like this and the nodes are connected, no assertion fails. *)
Theorem gossip_test_exact topic hello_gossip hello_broadcast still_listening store0 others addrs books
    subscribed published cast1 cast2 tx streams (s : list Ipfs) :
  length streams = length (ids store0 others) -> length s = length (ids store0 others) ->
  length books = length s -> length subscribed = length s ->
  let run := (test_gossip_and_broadcast topic hello_gossip hello_broadcast still_listening store0 others addrs books
    subscribed published cast1 cast2 tx streams s).2 in
  (run = Ok tt -> accepted hello_gossip hello_broadcast store0 others streams) /\
  (accepted hello_gossip hello_broadcast store0 others streams ->
   (forall i st book p, s !! i = Some st -> books !! i = Some book -> p ∈ ids store0 others ->
      ipfs_is_connected st book p = true) ->
   no_assertion_fails from_network run).
Proof.
  intros Hn Hs Hb Hsub run. subst run. split.
  - intros E. apply accepted_iff; [done|].
    unfold test_gossip_and_broadcast in E. do 4 apply bind_ok in E as (? & ? & _ & E).
    apply bind_ok in E as (? & rests & Hr%checks_ok & E). apply bind_ok in E as (? & ? & _ & E).
    apply bind_ok in E as (? & rests' & Hr'%checks_ok & E). apply bind_ok in E as (? & ? & _ & E).
    apply bind_ok in E as (? & l & Hl%checks_ok & _). by exists rests, rests', l.
  - intros (rests & rests' & l & Hr & Hr' & Hl)%accepted_iff Hup; [|done].
    assert (Hlen : length (owner <$> s) = length (ids store0 others)) by (by rewrite length_fmap).
    eapply (triple_no_assertion _ (Owned (owner <$> s)) _ (fun _ _ => True)); [|done]. unfold test_gossip_and_broadcast.
    eapply t_seq; [apply t_each; intros i Hi|].
    { apply elem_of_seq in Hi. apply at_run; [rewrite Hlen; cbn in *; lia|]. intros st. split; [apply dial_owner|done]. }
    eapply t_seq; [apply t_each; intros [i book] Hi; apply t_each; intros peer Hp|].
    { apply elem_of_lookup_imap in Hi as (i' & book' & [= -> ->] & Hi). apply up_run.
      destruct (lookup_lt_is_Some_2 s i') as [st Hst]; [rewrite <- Hb; by eapply lookup_lt_Some|].
      exists (owner st). split; [by rewrite list_lookup_fmap, Hst|]. intros st' Ho. rewrite <- (Hup i' st book' peer Hst Hi Hp).
      unfold ipfs_is_connected, is_connected. unfold owner in Ho. by rewrite Ho. }
    eapply t_seq; [apply t_each; intros [i r] Hi|].
    { apply elem_of_lookup_imap in Hi as (i' & r' & [= -> ->] & Hi). apply ask_run. rewrite length_fmap, <- Hsub.
      by eapply lookup_lt_Some. }
    assert (H0 : 0 < length (owner <$> s)) by (rewrite Hlen; cbn; lia).
    eapply t_seq; [by apply ask_run|]. eapply t_bind; [by apply checks_run|]. intros ?. apply t_fact. intros ->.
    eapply t_seq; [by apply ask_run|]. eapply t_bind; [by apply checks_run|]. intros ?. apply t_fact. intros ->.
    eapply t_seq; [by apply ask_run|]. eapply t_bind; [by apply checks_run|]. intros ?. by intros ? _.
Qed.
End GossipRun.

(** ** Where the streams come from *)
Section Streams.
Context `{P : Profile} `{C : Chrono} `{L : Libp2p} `{Ch : Channels} `{HO : HashOrder} `{Pr : !Protocols} {CL : ChannelLaws}.

Inductive topic_event := FromGossipsub (e : GossipsubEvent) | FromBroadcast (e : BroadcastEvent).

Definition inject (st : Backend) (e : topic_event) : outcome Backend :=
  match e with
  | FromGossipsub e => Done (inject_gossip_event st e)
  | FromBroadcast e => inject_broadcast_event st e
  end.

(** The topic of an event and what its subscribers hear. *)
Definition told (e : topic_event) : option string * GossipEvent :=
  match e with
  | FromGossipsub (GsMessage via source t data) => (Some t, GeMessage (default via source) data)
  | FromGossipsub (GsSubscribed p t) => (Some t, GeSubscribed p)
  | FromGossipsub (GsUnsubscribed p t) => (Some t, GeUnsubscribed p)
  | FromGossipsub (GossipsubNotSupported p) => (None, GeUnsubscribed p)
  | FromBroadcast (BcReceived p t data) => (from_utf8 t, GeMessage p data)
  | FromBroadcast (BcSubscribed p t) => (from_utf8 t, GeSubscribed p)
  | FromBroadcast (BcUnsubscribed p t) => (from_utf8 t, GeUnsubscribed p)
  end.
Definition heard (topic : string) (e : topic_event) : option GossipEvent :=
  if decide ((told e).1 = Some topic) then Some (told e).2 else None.

Definition listening (st : Backend) (topic : string) (l : list GossipEvent) : Prop :=
  exists tx, subscriptions st !! topic = Some [tx] /\ connected tx = true /\ queued tx = l.

Lemma notify_listening st topic t ev l :
  listening st topic l -> listening (notify_subscribers st t ev) topic (if decide (t = topic) then l ++ [ev] else l).
Proof.
  intros (tx & Hs & Hc & Hq). unfold notify_subscribers. case_decide as E.
  - subst t. rewrite Hs. cbn [omap list_omap]. destruct (send_connected tx ev Hc) as (tx' & -> & Hq' & Hc').
    rewrite decide_False by done. exists tx'. cbn. rewrite lookup_insert_eq. by rewrite Hq', Hq.
  - destruct (subscriptions st !! t) as [subs|]; [|by exists tx]. case_decide; exists tx; cbn.
    + rewrite unsubscribe_subscriptions, lookup_delete_ne by done. done.
    + by rewrite lookup_insert_ne.
Qed.

Lemma inject_told st e st' : inject st e ↓ st' ->
  exists b, st' = match (told e).1 with Some t => notify_subscribers (with_book st b) t (told e).2 | None => with_book st b end.
Proof.
  assert (Hid : with_book st (book st) = st) by by destruct st.
  destruct e as [[via src t data|p t|p t|p]|[p t data|p t|p t]]; cbn; unfold unwrap; try destruct (from_utf8 t); cbn;
    intros [= <-]; first [by eexists | exists (book st); by rewrite Hid].
Qed.

Lemma inject_listening st topic e l st' :
  listening st topic l -> inject st e ↓ st' ->
  listening st' topic (l ++ match heard topic e with Some ev => [ev] | None => [] end).
Proof.
  intros Hl [b ->]%inject_told. unfold heard. destruct (told e) as [[t|] ev]; cbn.
  - apply (notify_listening (with_book st b) topic t ev) in Hl. destruct (decide (t = topic)) as [->|Hne].
    + by rewrite decide_True.
    + by rewrite decide_False, app_nil_r by congruence.
  - by rewrite decide_False, app_nil_r by done.
Qed.

(** The stream of the only subscriber of a topic: the events of the two protocols for
    it, each once and in their order, as long as it listens. *)
Theorem subscription_stream st topic es st' l :
  listening st topic l -> foldM inject st es ↓ st' -> listening st' topic (l ++ omap (heard topic) es).
Proof.
  revert st l. induction es as [|e es IH]; intros st l Hl E; cbn in E; outcome_inv; [by rewrite app_nil_r|].
  match goal with H : inject st e ↓ _ |- _ => apply (inject_listening _ _ _ _ _ Hl) in H as Hl' end.
  replace (l ++ omap (heard topic) (e :: es)) with
    ((l ++ match heard topic e with Some ev => [ev] | None => [] end) ++ omap (heard topic) es) by (cbn; rewrite <- app_assoc; by destruct (heard topic e)).
  by eapply IH.
Qed.
End Streams.

(** ** Two nodes *)
Section GossipWitness.
Import NetDemo SimService SimStore.

Definition a_node (id : @PeerId sim) : @Ipfs sim sim_channels sim_protocols sim_commands sim_store :=
  mkIpfs three (mkService (id : @PublicKey sim) id "node" (mkCmdChan true 10 [])).
Definition bobs_book : @AddressBook utc_nanos sim sim_channels :=
  run (connection_established (at_ns 10) (at_ns 11) (new bob false false false) me incoming 0).
Definition hello : bytes := [104; 105]%Z.
Definition bye : bytes := [98; 121]%Z.

Lemma unit_ok {E} (r : result unit E) : is_ok r = true -> r = Ok tt.
Proof. by destruct r as [[]|]. Qed.

(** Evaluation ends in a boolean, so that no type of the instances is read back. *)
Lemma gossip_test_exact_witness :
  accepted hello bye me [bob] [[GeUnsubscribed bob; GeUnsubscribed bob]; [GeSubscribed me; GeMessage me hello; GeMessage me bye]].
Proof.
  refine (proj1 (gossip_test_exact "topic" hello bye bye me [bob] [bob_4001; bob_4001] [book_connected; bobs_book]
    [Ok tt; Ok tt] (Ok tt) (Ok tt) (Ok tt) 5
    [[GeUnsubscribed bob; GeUnsubscribed bob]; [GeSubscribed me; GeMessage me hello; GeMessage me bye]]
    [a_node me; a_node bob] eq_refl eq_refl eq_refl eq_refl) _).
  apply unit_ok. vm_compute. reflexivity.
Defined.

(** A notice that arrives between the two messages fails the test. *)
Example late_notice_rejected :
  ~ accepted hello bye me [bob] [[GeUnsubscribed bob; GeUnsubscribed bob];
      [GeSubscribed me; GeMessage me hello; GeSubscribed me; GeMessage me bye]].
Proof.
  intros [_ H]. destruct (H 0 _ eq_refl) as (seen & rest & E & _).
  destruct seen as [|? [|? [|? [|? [|??]]]]]; discriminate E.
Qed.
End GossipWitness.
