(* ===== verification/Examples.v ===== *)
(** * Two of the example programs (examples/sync.rs, examples/compat.rs)

    sync.rs imports a chain of blocks into one node, protected by a temporary pin while
    it has no alias, and synchronises it to another.  [TempPinLaws] states what a temporary
    pin promises; the collector may run between any two statements.  Shown here: the whole
    chain arrives on both nodes, and stays there.

    compat.rs fetches blocks from one peer.  Shown here: it dials this peer first and asks
    nobody else.  (restart.rs is in [Restart].) *)
From S2P Require Import Prelude Time Libp2p PeerInfo AddressHandler Peers Protocols Behaviour Net Service NetProps.
From S2P Require Import Config Db Pins Cache Ipfs StoreTests NodeTests TestTree Exchange.

(** ** examples/sync.rs *)

(** [held]: the blocks that temporary pins keep.  Nothing here drops a pin. *)
Class TempPinLaws `{PL : PinLaws} := {
  held : BlockStore -> gset Cid;
  txn_held : Txn -> gset Cid;
  transaction_held s : txn_held (transaction s) = held s;
  commit_held t s : txn_commit t = (s, Ok tt) -> held s = txn_held t;
  op_held {R} (o : store_op R) t t' r : run_op o t = (t', Ok r) -> txn_held t ⊆ txn_held t';
  extend_held t p c t' p' : extend_temp_pin t p c = (t', p', Ok tt) -> c ∈ txn_held t';
  flush_held s s' : store_flush s = (s', Ok tt) -> held s' = held s;
  gc_held s n d s' r : incremental_gc s n d = (s', r) -> held s' = held s;
  gc_keeps_held s n d s' r c x : incremental_gc s n d = (s', r) -> c ∈ held s ->
    v_blocks (view s) !! c = Some x -> v_blocks (view s') !! c = Some x;
  gc_removes s n d s' r : incremental_gc s n d = (s', r) -> v_blocks (view s') ⊆ v_blocks (view s)
}.

(** Nothing is missing only if everything that can be reached is there. *)
Class MissingLaws `{PL : PinLaws} : Prop := {
  missing_none t root t' c : get_missing_blocks t root = (t', Ok []) ->
    below (v_blocks (txn_view t)) root c -> is_Some (v_blocks (txn_view t) !! c)
}.

(** [Block::encode] of a node, and the generator of the thread. *)
Class ChainBlocks (Cid Data : Type) := {
  CErr : Type;
  CRng : Type;
  encode_node : option Cid -> Z -> list Z -> result (Cid * Data) CErr;
  fill_payload : Z -> CRng -> list Z * CRng
}.

Section SyncExample.
Context `{P : Profile} `{TPL : TempPinLaws} `{Ch : Channels} `{HO : HashOrder} `{CC : !CommandChannel} `{Co : Chrono}.
Context `{CB : !ChainBlocks Cid StoreData}.

Inductive example_error := FromNode (e : IpfsError) | FromCodec (e : CErr).

Record NodeBuilder := mkBuilder { nb_id : Z; nb_prev : option Cid }.
Definition NodeBuilder_default : NodeBuilder := mkBuilder 0 None.

Definition create (self : NodeBuilder) (rng : CRng) : outcome (CRng * NodeBuilder * result TestBlock CErr) :=
  let '(payload, rng) := fill_payload 4096 rng in
  match encode_node (nb_prev self) (nb_id self) payload with
  | Err e => Done (rng, self, Err e)
  | Ok block =>
      id ← add_u32 (nb_id self) 1;
      Done (rng, mkBuilder id (Some block.1), Ok block)
  end.

(** The statements of [main] run on the nodes [a] and [b]. *)
Abbreviation main := (test (Ipfs * Ipfs) example_error).
Definition on_a {A} (f : Ipfs -> Ipfs * result A IpfsError) : main A := call (fun s =>
  let '(a, r) := f s.1 in ((a, s.2), match r with Ok x => Ok x | Err e => Err (FromNode e) end)).
Definition on_b {A} (f : Ipfs -> Ipfs * result A IpfsError) : main A := call (fun s =>
  let '(b, r) := f s.2 in ((s.1, b), match r with Ok x => Ok x | Err e => Err (FromNode e) end)).

(** Rounds of the collectors of both nodes that happen before a statement. *)
Definition rounds (n : nat) (st : Ipfs) : Ipfs := with_storage st (Nat.iter n gc_round (storage st)).
Definition meanwhile (n : nat * nat) : main unit := fun s => ((rounds n.1 s.1, rounds n.2 s.2), Ok tt).

Definition made_block (builder : NodeBuilder) (rng : CRng) : main (CRng * NodeBuilder * TestBlock) := fun s =>
  (s, match create builder rng with
      | Panic _ => Err Assertion
      | Done (_, _, Err e) => Err (Unwrapped (FromCodec e))
      | Done (rng, builder, Ok block) => Ok (rng, builder, block)
      end).

(** [for _ in 0..n { .. }]; [gc] says how often the collectors run at each point. *)
Fixpoint import (n : nat) (gc : nat -> nat * nat) (tmp : TempPin) (builder : NodeBuilder) (rng : CRng) : main NodeBuilder :=
  match n with
  | 0 => mret builder
  | S n =>
      '(rng, builder, block) ← made_block builder rng;
      meanwhile (gc 0) ;;
      tmp ← on_a (fun st => let '(st, tmp, r) := ipfs_temp_pin st tmp block.1 in
        (st, match r with Ok _ => Ok tmp | Err e => Err e end));
      meanwhile (gc 1) ;;
      on_a (fun st => ipfs_insert st block.1 block.2) ;;
      meanwhile (gc 2) ;;
      import n (fun k => gc (3 + k)) tmp builder rng
  end.

(** [sync(..).await?.await?]; [world] is what happens while it waits, given the storage of
    the provider. *)
Definition sync_call_done (world : StorageService -> StorageService * awaited) (cid : Cid)
    (providers : list PeerId) (tx : Tx) (st : Ipfs) : Ipfs * result unit IpfsError :=
  let '(st, c) := ipfs_sync st cid providers tx in
  match c with
  | SyncReady r => (st, match r with Ok _ => Ok tt | Err e => Err (NetworkError e) end)
  | SyncCall (ReadyErr e) => (st, Err (NetworkError e))
  | SyncCall (Awaits _) => let '(s, w) := world (storage st) in sync_resume (with_storage st s) w
  end.

(** From the end of the import. *)
Definition share (root : list Z) (gc : nat -> nat * nat) (tx : Tx)
    (world : StorageService -> StorageService -> StorageService * awaited) (builder : NodeBuilder) :
    main NodeBuilder :=
  on_a (fun st => ipfs_alias st root (nb_prev builder)) ;;
  meanwhile (gc 0) ;;
  on_a ipfs_flush ;;
  meanwhile (gc 1) ;;
  on_b (fun st => ipfs_alias st root (nb_prev builder)) ;;
  meanwhile (gc 2) ;;
  match nb_prev builder with
  | None => fun s => (s, Err Assertion)   (* [unwrap] *)
  | Some cid => fun s => on_b (sync_call_done (world (storage s.1)) cid [svc_peer_id (network s.1)] tx) s
  end ;;
  meanwhile (gc 3) ;;
  on_b ipfs_flush ;;
  mret builder.

Definition sync_main (root : list Z) (n : nat) (gc : nat -> nat * nat) (tx : Tx)
    (world : StorageService -> StorageService -> StorageService * awaited) (rng : CRng) : main NodeBuilder :=
  tmp ← on_a ipfs_create_temp_pin;
  builder ← import n (fun k => gc (4 + k)) tmp NodeBuilder_default rng;
  share root gc tx world builder.

(** *** The start of the nodes *)
Context `{Sw : !SwarmOps} `{Bu : !Builders} {SF : StoreFiles}.

(** [config.network.kad = None]. *)
Definition without_kad (c : IpfsConfig) : IpfsConfig :=
  let n := config_network c in
  mkIpfsConfig (config_storage c)
    (mkNetworkConfig (nc_enable_loopback n) (nc_port_reuse n) (nc_node_name n) (nc_node_key n) (nc_psk n) (nc_dns n)
      (nc_mdns n) None (nc_ping n) (nc_identify n) (nc_gossipsub n) (nc_broadcast n) (nc_bitswap n) (nc_keep_alive n)).

(** All of [main].  [made_a] and [made_b] are the names and keys that are made up, [any] is
    the parsed address, [first] the first event of the listener of [a], and [before] how
    often the collectors run before the import. *)
Definition sync_program (made_a made_b : string * Keypair) (any : Multiaddr) (ltx : Sender ListenerEvent)
    (first : option ListenerEvent) (before : nat * nat) (root : list Z) (n : nat) (gc : nat -> nat * nat) (tx : Tx)
    (world : StorageService -> StorageService -> StorageService * awaited) (rng : CRng) (fs : Fs) :
    result ((Ipfs * Ipfs) * NodeBuilder) (failure example_error) :=
  match ipfs_new (without_kad (IpfsConfig_new made_a.1 "/tmp/local1" made_a.2)) fs with
  | (_, Err e) => Err (Unwrapped (FromNode e))
  | (fs, Ok (a, _)) =>
      let a := (ipfs_listen_on a any ltx).1 in
      match first with
      | None => Err Assertion   (* [unwrap] *)
      | Some _ =>
          match ipfs_new (without_kad (IpfsConfig_new made_b.1 "/tmp/local2" made_b.2)) fs with
          | (_, Err e) => Err (Unwrapped (FromNode e))
          | (_, Ok (b, _)) =>
              match (meanwhile before ;; sync_main root n gc tx world rng) (a, b) with
              | (s, Ok builder) => Ok (s, builder)
              | (_, Err f) => Err f
              end
          end
      end
  end.

(** *** What is known of the nodes *)
Abbreviation t := (triple (S := Ipfs * Ipfs) (fun _ : example_error => True)).
Definition both (Q1 Q2 : Ipfs -> Prop) (s : Ipfs * Ipfs) : Prop := Q1 s.1 /\ Q2 s.2.

(** A chain, the newest block first. *)
Fixpoint chain (l : list TestBlock) : Prop :=
  match l with
  | [] => True
  | (c, d) :: l =>
      content c d /\ data_links d = match l with [] => [] | (p, _) :: _ => [p] end /\ chain l
  end.
Definition builds (builder : NodeBuilder) (l : list TestBlock) : Prop :=
  nb_id builder = Z.of_nat (length l) /\ nb_prev builder = fst <$> head l.

(** The blocks of [l] are stored and held; every block of a store is what its CID says. *)
Definition sound (st : Ipfs) : Prop := map_Forall content (blocks (store (storage st))).
Definition imported (l : list TestBlock) (st : Ipfs) : Prop :=
  sound st /\ Forall (fun b => blocks (store (storage st)) !! b.1 = Some b.2 /\ b.1 ∈ held (store (storage st))) l.
Definition has_tree (a : list Z) (root : Cid) (T : gmap Cid StoreData) (st : Ipfs) : Prop := st_kept (storage st) a root T.

(** *** Rules *)
Lemma gc_rounds (Q : StorageService -> Prop) n st :
  (forall s, Q s -> Q (gc_round s)) -> Q (storage st) -> Q (storage (rounds n st)).
Proof. intros H Hq. unfold rounds. cbn. induction n as [|n IH]; [done|]. by apply H. Qed.

Lemma sound_rounds n st : sound st -> sound (rounds n st).
Proof.
  apply (gc_rounds (fun s => map_Forall content (blocks (store s)))). intros s H c d Hd. apply H.
  unfold gc_round in Hd. destruct (incremental_gc _ _ _) as [s' r] eqn:E. cbn in Hd.
  eapply lookup_weaken; [exact Hd|]. by eapply gc_removes.
Qed.

Lemma imported_rounds l n st : imported l st -> imported l (rounds n st).
Proof.
  intros [Hs H]. split; [by apply sound_rounds|]. revert H.
  apply (gc_rounds (fun s => Forall (fun b => blocks (store s) !! b.1 = Some b.2 /\ b.1 ∈ held (store s)) l)).
  intros s H. eapply Forall_impl; [exact H|]. intros b [Hb Hh]. unfold gc_round.
  destruct (incremental_gc _ _ _) as [s' r] eqn:E. cbn. split; [by eapply gc_keeps_held|]. by rewrite (gc_held _ _ _ _ _ E).
Qed.

Lemma tree_rounds a root T n st : tree T root -> has_tree a root T st -> has_tree a root T (rounds n st).
Proof.
  intros Ht. apply (gc_rounds (fun s => st_kept s a root T)). intros s H. unfold gc_round.
  destruct (incremental_gc _ _ _) as [s' r] eqn:E. by eapply gc_kept.
Qed.

Lemma t_meanwhile n Q1 Q2 :
  (forall k st, Q1 st -> Q1 (rounds k st)) -> (forall k st, Q2 st -> Q2 (rounds k st)) ->
  t (both Q1 Q2) (meanwhile n) (fun _ => both Q1 Q2).
Proof. intros H1 H2 s [Hs1 Hs2]. unfold meanwhile. split; cbn; auto. Qed.

Lemma t_on_a {A} Q1 Q2 (f : Ipfs -> Ipfs * result A IpfsError) (R : A -> Ipfs -> Prop) :
  (forall st st' x, Q1 st -> f st = (st', Ok x) -> R x st') -> t (both Q1 Q2) (on_a f) (fun x => both (R x) Q2).
Proof.
  intros H [a b] [Ha Hb]. unfold on_a, call. cbn in *. destruct (f a) as [a' [x|e]] eqn:E; [|done]. split; [by eapply H|done].
Qed.

Lemma t_on_b_with {A} Q1 Q2 (f : Ipfs -> Ipfs -> Ipfs * result A IpfsError) (R : A -> Ipfs -> Prop) :
  (forall a st st' x, Q1 a -> Q2 st -> f a st = (st', Ok x) -> R x st') ->
  t (both Q1 Q2) (fun s => on_b (f s.1) s) (fun x => both Q1 (R x)).
Proof.
  intros H [a b] [Ha Hb]. unfold on_b, call. cbn in *. destruct (f a b) as [b' [x|e]] eqn:E; [|done]. split; [done|by eapply H].
Qed.
Lemma t_on_b {A} Q1 Q2 (f : Ipfs -> Ipfs * result A IpfsError) (R : A -> Ipfs -> Prop) :
  (forall st st' x, Q2 st -> f st = (st', Ok x) -> R x st') -> t (both Q1 Q2) (on_b f) (fun x => both Q1 (R x)).
Proof. intros H. apply (t_on_b_with Q1 Q2 (fun _ => f)). eauto. Qed.

(** *** The calls of the storage *)
Lemma op_effect {R} st op (o : store_op R) s r :
  rw st op (run_op o) = (s, Ok r) ->
  spec_op o (view (store st)) (view (store s)) r /\ held (store st) ⊆ held (store s).
Proof.
  intros E. split; [by apply rw_op_refines in E|]. destruct (rw_ok _ _ _ _ _ E) as (u & s' & Ef & Ec & ->).
  rewrite (commit_held _ _ Ec), <- transaction_held. by apply op_held in Ef.
Qed.

Lemma storage_effect {R} st op (o : store_op R) st' r :
  on_storage st (fun s => rw s op (run_op o)) = (st', Ok r) ->
  spec_op o (view (store (storage st))) (view (store (storage st'))) r /\
  held (store (storage st)) ⊆ held (store (storage st')).
Proof.
  unfold on_storage. destruct (rw (storage st) op (run_op o)) as [s [a|e]] eqn:E; [|done]. intros [= <- <-].
  by apply op_effect in E.
Qed.

Lemma imported_same l st st' :
  view (store (storage st')) = view (store (storage st)) -> held (store (storage st)) ⊆ held (store (storage st')) ->
  imported l st -> imported l st'.
Proof.
  intros Hv Hh [Hs H]. unfold imported, sound, blocks in *. rewrite Hv. split; [done|].
  eapply Forall_impl; [exact H|]. intros b [Hb Hin]. split; [done|set_solver].
Qed.

Lemma create_pin_imported l st st' tmp :
  imported l st -> ipfs_create_temp_pin st = (st', Ok tmp) -> imported l st'.
Proof. intros H E. apply (storage_effect _ _ SoCreateTempPin) in E as [Hv Hh]. by eapply imported_same. Qed.

Definition pinned_next (l : list TestBlock) (c : Cid) (st : Ipfs) : Prop := imported l st /\ c ∈ held (store (storage st)).

Lemma temp_pin_imported l tmp c st st' tmp' :
  imported l st ->
  (let '(st, tmp, r) := ipfs_temp_pin st tmp c in (st, match r with Ok _ => Ok tmp | Err e => Err e end)) = (st', Ok tmp') ->
  pinned_next l c st'.
Proof.
  intros H. unfold ipfs_temp_pin. destruct (db_temp_pin (storage st) tmp [c]) as [[s tmp1] [[]|e]] eqn:E; [|done].
  intros [= <- <-]. apply temp_pin_op in E. pose proof (op_effect _ _ (SoTempPin tmp [c]) _ _ E) as [Hv Hh].
  split; [by eapply imported_same|]. destruct (rw_ok _ _ _ _ _ E) as (u & s' & Ef & Ec & Es). cbn [storage with_storage].
  rewrite Es, (commit_held _ _ Ec). cbn in Ef.
  destruct (extend_temp_pin _ tmp c) as [[u1 p1] [[]|e]] eqn:Ex; [|done]. injection Ef as <- <-. by eapply extend_held.
Qed.

Lemma pinned_rounds l c n st : pinned_next l c st -> pinned_next l c (rounds n st).
Proof.
  intros [H Hc]. split; [by apply imported_rounds|].
  revert Hc. apply (gc_rounds (fun s => c ∈ held (store s))). intros s Hs. unfold gc_round.
  destruct (incremental_gc _ _ _) as [s' r] eqn:E. cbn. by rewrite (gc_held _ _ _ _ _ E).
Qed.

Lemma chain_content l : chain l -> Forall (fun b => content b.1 b.2) l.
Proof. induction l as [|[c d] l IH]; [done|]. intros (Hc & _ & Hl). constructor; auto. Qed.

Lemma insert_imported l c d st st' :
  chain l -> content c d -> pinned_next l c st -> ipfs_insert st c d = (st', Ok tt) -> imported ((c, d) :: l) st'.
Proof.
  intros Hl Hc [[Hs Hi] Hh] E. apply (storage_effect _ _ (SoInsert c d)) in E as [Hv Hm]. cbn in Hv.
  unfold imported, sound, blocks. rewrite Hv. split; [by apply map_Forall_insert_2|]. constructor; [cbn; rewrite lookup_insert_eq; split; [done|set_solver]|].
  apply chain_content in Hl. apply Forall_forall. intros b Hb. rewrite Forall_forall in Hi, Hl.
  destruct (Hi b Hb) as [Hbb Hbh]. split; [|set_solver]. cbn. destruct (decide (c = b.1)) as [->|Hne].
  - rewrite lookup_insert_eq. f_equal. eapply content_unique; [exact Hc|]. by apply Hl.
  - by rewrite lookup_insert_ne.
Qed.

(** *** The import *)
Hypothesis encode_ok : forall prev id payload c d, encode_node prev id payload = Ok (c, d) ->
  content c d /\ data_links d = match prev with None => [] | Some p => [p] end.

Lemma create_block_run builder rng l Q :
  chain l -> builds builder l -> (Z.of_nat (length l) < U32_MAX)%Z ->
  t Q (made_block builder rng) (fun x s => chain (x.2 :: l) /\ builds x.1.2 (x.2 :: l) /\ Q s).
Proof.
  intros Hl [Hid Hprev] Hn s Hs. unfold made_block, create. destruct (fill_payload 4096 rng) as [payload rng'].
  destruct (encode_node _ _ payload) as [[c d]|e] eqn:E; [|done]. unfold add_u32. rewrite decide_True by lia. cbn.
  apply encode_ok in E as [Hc Hd]. split; [|split; [|done]].
  - split; [done|]. split; [|done]. rewrite Hd, Hprev. by destruct l as [|[p x] l].
  - unfold builds. cbn. split; [lia|done].
Qed.

Lemma import_run n gc tmp builder rng l :
  chain l -> builds builder l -> (Z.of_nat (length l + n) <= U32_MAX)%Z ->
  t (both (imported l) sound) (import n gc tmp builder rng) (fun builder' s =>
    exists l', chain l' /\ builds builder' l' /\ length l' = length l + n /\ both (imported l') sound s).
Proof.
  revert gc tmp builder rng l. induction n as [|n IH]; intros gc tmp builder rng l Hl Hb Hn; cbn [import].
  { intros s Hs. exists l. by rewrite Nat.add_0_r. }
  eapply t_bind; [apply (create_block_run builder rng l); [done|done|lia]|]. intros [[rng' builder'] [c d]]. cbn [fst snd].
  apply t_fact. intros Hl'. apply t_fact. intros Hb'.
  eapply t_seq; [apply t_meanwhile; intros; [by apply imported_rounds|by apply sound_rounds]|].
  eapply t_bind; [apply (t_on_a _ _ _ (fun _ => pinned_next l c)); intros; by eapply temp_pin_imported|]. intros tmp'.
  eapply t_seq; [apply t_meanwhile; intros; [by apply pinned_rounds|by apply sound_rounds]|].
  eapply t_bind; [apply (t_on_a _ _ _ (fun _ => imported ((c, d) :: l))); intros ? ? []; apply insert_imported; [done|apply Hl']|].
  intros u. eapply t_seq; [apply t_meanwhile; intros; [by apply imported_rounds|by apply sound_rounds]|].
  eapply t_conseq; [done|apply (IH _ tmp' builder' rng' ((c, d) :: l)); [done|done|cbn; lia]|].
  intros x s (l' & H1 & H2 & H3 & H4). exists l'. split_and!; [done|done|cbn in *; lia|done].
Qed.

(** *** The chain as a tree *)
Lemma chain_below root c d l T : chain ((c, d) :: l) -> top_down root (<[c := d]> T) l.
Proof.
  revert c d T. induction l as [|[c' d'] l IH]; intros c d T; [done|]. intros (_ & Hd & Hl). cbn [top_down].
  split; [apply Hl|]. split; [|by apply IH]. right. exists c, d. rewrite lookup_insert_eq, Hd. split; [done|by left].
Qed.

Lemma chain_top_down c d l : chain ((c, d) :: l) -> top_down c ∅ ((c, d) :: l).
Proof. intros H. split; [apply H|]. split; [by left|]. by apply chain_below. Qed.

Lemma stored_all_elem (T : gmap Cid StoreData) l c d : stored_all T l !! c = Some d -> (c, d) ∈ l \/ T !! c = Some d.
Proof.
  revert T. induction l as [|[c' d'] l IH]; intros T; cbn; [by right|]. intros [H|H]%IH; [left; by right|].
  apply lookup_insert_Some in H as [[-> ->]|[_ H]]; [left; by left|by right].
Qed.

(** The provider. *)
Definition serves (root : list Z) (c : Cid) (T : gmap Cid StoreData) (st : Ipfs) : Prop :=
  sound st /\ has_tree root c T st.

Lemma serves_rounds root c T n st : tree T c -> serves root c T st -> serves root c T (rounds n st).
Proof. intros Ht [Hs H]. split; [by apply sound_rounds|by apply tree_rounds]. Qed.

Lemma alias_tree root c d l st st' :
  imported ((c, d) :: l) st -> ipfs_alias st root (Some c) = (st', Ok tt) ->
  serves root c (stored_all ∅ ((c, d) :: l)) st'.
Proof.
  intros [Hs Hi] E. apply (storage_effect _ _ (SoAlias root (Some c))) in E as [Hv _]. cbn in Hv.
  unfold serves, sound, blocks, has_tree, st_kept, kept. rewrite Hv. cbn [v_aliases v_blocks]. split; [done|].
  split; [by rewrite lookup_insert_eq|].
  apply map_subseteq_spec. intros x y [Hx|Hx]%stored_all_elem; [|by rewrite lookup_empty in Hx].
  rewrite Forall_forall in Hi. by apply (Hi (x, y)).
Qed.

Lemma flush_same st st' : ipfs_flush st = (st', Ok tt) -> view (store (storage st')) = view (store (storage st)).
Proof.
  unfold ipfs_flush, on_storage, db_flush.
  destruct (store_flush (store (storage st))) as [s [[]|e]] eqn:E; [|done]. intros [= <-]. by apply flush_view in E.
Qed.

(** *** The synchronisation *)
Definition waiting (root : list Z) (c : Cid) (st : Ipfs) : Prop :=
  sound st /\ v_aliases (view (store (storage st))) !! root = Some c.

Lemma waiting_rounds root c n st : waiting root c st -> waiting root c (rounds n st).
Proof.
  intros [Hs Ha]. split; [by apply sound_rounds|]. revert Ha.
  apply (gc_rounds (fun s => v_aliases (view (store s)) !! root = Some c)). intros s H. unfold gc_round.
  destruct (incremental_gc _ _ _) as [s' r] eqn:E. cbn. by rewrite (gc_aliases _ _ _ _ _ E).
Qed.

Lemma alias_waiting root c st st' : sound st -> ipfs_alias st root (Some c) = (st', Ok tt) -> waiting root c st'.
Proof.
  intros Hs E. apply (storage_effect _ _ (SoAlias root (Some c))) in E as [Hv _]. cbn in Hv.
  unfold waiting, sound, blocks. rewrite Hv. cbn. by rewrite lookup_insert_eq.
Qed.

Lemma complete_tree (B T : gmap Cid StoreData) root :
  map_Forall content B -> tree T root -> (forall c, below B root c -> is_Some (B !! c)) -> T ⊆ B.
Proof.
  intros HB [HT Hbelow] Hall. assert (Hin : forall c, below T root c -> below B root c).
  { induction 1 as [|p d c _ IH Hd Hc]; [constructor|]. destruct (Hall p IH) as [d' Hd'].
    eapply below_link; [exact IH|exact Hd'|]. by rewrite (content_unique p d' d (HB _ _ Hd') (HT _ _ Hd)). }
  apply map_subseteq_spec. intros c d Hd. destruct (Hall c) as [d' Hd']; [by eapply Hin, Hbelow|].
  by rewrite Hd', (content_unique c d' d (HB _ _ Hd') (HT _ _ Hd)).
Qed.

Lemma sync_tree {ML : MissingLaws} world root c T B p tx st st' x :
  tree T c -> T ⊆ B -> map_Forall content B -> delivers world B c -> (forall s, is_ok (db_missing_blocks s c).2 = true) ->
  waiting root c st -> sync_call_done world c [p] tx st = (st', Ok x) -> has_tree root c T st'.
Proof.
  intros Ht HTB HB Hd Hok [Hs Ha]. unfold sync_call_done, ipfs_sync. specialize (Hok (storage st)).
  destruct (db_missing_blocks (storage st) c) as [s [missing|e]] eqn:E; [|done].
  pose proof (op_effect _ _ (SoMissingBlocks c) _ _ E) as [Hv _]. cbn in Hv.
  destruct missing as [|m missing]; cbn [svc_sync].
  - intros [= <- _]. unfold has_tree, st_kept, kept. cbn. rewrite Hv. split; [done|].
    destruct (rw_ok _ _ _ _ _ E) as (u & u' & Ef & _). apply (complete_tree _ _ c Hs Ht). intros b Hb.
    pose proof (missing_none _ _ _ b Ef) as H. rewrite transaction_view in H. by apply H.
  - destruct (request _ _ tx) as [n [e|rx]]; [done|]. cbn. destruct (world s) as [s2 [e|id [[]|e]]] eqn:Ew; [done| |done].
    intros [= <- _]. unfold sound, blocks in Hs. rewrite <- Hv in Ha, Hs. destruct (Hd _ _ _ Ew) as (_ & Hal & _ & Hn).
    + apply map_agree_spec. intros i y z Hy Hz. eapply content_unique; [by eapply HB|by eapply Hs].
    + unfold has_tree, st_kept, kept. cbn. rewrite Hal. split; [done|]. apply map_subseteq_spec. intros i y Hy.
      apply Hn; [eapply below_mono; [exact HTB|by eapply Ht]|by eapply lookup_weaken].
Qed.

Lemma flush_serves root c T st st' : serves root c T st -> ipfs_flush st = (st', Ok tt) -> serves root c T st'.
Proof. intros H E. apply flush_same in E. unfold serves, sound, blocks, has_tree, st_kept in *. by rewrite E. Qed.
Lemma flush_tree root c T st st' : has_tree root c T st -> ipfs_flush st = (st', Ok tt) -> has_tree root c T st'.
Proof. intros H E. apply flush_same in E. unfold has_tree, st_kept in *. by rewrite E. Qed.

Section Share.
Context {ML : MissingLaws} (world : StorageService -> StorageService -> StorageService * awaited).
Hypothesis Hworld : forall sa c, delivers (world sa) (blocks (store sa)) c.
Hypothesis Hmissing : forall st c, is_ok (db_missing_blocks st c).2 = true.

Lemma share_run root gc tx builder c d l :
  chain ((c, d) :: l) -> nb_prev builder = Some c -> let T := stored_all ∅ ((c, d) :: l) in
  t (both (imported ((c, d) :: l)) sound) (share root gc tx world builder)
    (fun b' s => b' = builder /\ both (has_tree root c T) (has_tree root c T) s).
Proof.
  intros Hl Hprev T. unfold share. rewrite Hprev.
  assert (Ht : tree T c) by (apply top_down_tree; [apply tree_empty|by apply chain_top_down]).
  eapply t_bind; [apply (t_on_a _ _ _ (fun _ => serves root c T)); intros ? ? []; apply alias_tree|]. intros [].
  eapply t_seq; [apply t_meanwhile; intros; [by apply serves_rounds|by apply sound_rounds]|].
  eapply t_bind; [apply (t_on_a _ _ _ (fun _ => serves root c T)); intros ? ? []; apply flush_serves|]. intros [].
  eapply t_seq; [apply t_meanwhile; intros; [by apply serves_rounds|by apply sound_rounds]|].
  eapply t_bind; [apply (t_on_b _ _ _ (fun _ => waiting root c)); intros ? ? []; apply alias_waiting|]. intros [].
  eapply t_seq; [apply t_meanwhile; intros; [by apply serves_rounds|by apply waiting_rounds]|].
  eapply t_bind; [apply (t_on_b_with _ _ (fun a => sync_call_done (world (storage a)) c [svc_peer_id (network a)] tx)
    (fun _ => has_tree root c T)); intros a st st' x [Hsa [_ Hta]] Hst E;
    by eapply (sync_tree _ _ _ _ _ _ _ _ _ _ Ht Hta Hsa (Hworld _ _) (fun s => Hmissing s c) Hst)|]. intros u.
  eapply t_seq; [apply t_meanwhile; intros; [by apply serves_rounds|by apply tree_rounds]|].
  eapply t_bind; [apply (t_on_b _ _ _ (fun _ => has_tree root c T)); intros ? ? []; apply flush_tree|].
  by intros [] s' [[_ H1] H2].
Qed.

Lemma sync_main_complete root n gc tx rng s :
  0 < n -> (Z.of_nat n <= U32_MAX)%Z -> sound s.1 -> sound s.2 ->
  match sync_main root n gc tx world rng s with
  | (s', Ok builder) => exists c l T, length l = n /\ chain l /\ builds builder l /\ nb_prev builder = Some c /\
      tree T c /\ (forall b, b ∈ l -> T !! b.1 = Some b.2) /\
      st_kept (storage s'.1) root c T /\ st_kept (storage s'.2) root c T
  | (_, Err (Unwrapped _)) => True
  | _ => False
  end.
Proof.
  intros Hn Hmax Ha Hb. enough (H : t (both (imported []) sound) (sync_main root n gc tx world rng) (fun builder s' =>
    exists c d l, length ((c, d) :: l) = n /\ chain ((c, d) :: l) /\ builds builder ((c, d) :: l) /\
      both (has_tree root c (stored_all ∅ ((c, d) :: l))) (has_tree root c (stored_all ∅ ((c, d) :: l))) s')).
  { specialize (H s ltac:(by repeat split)). destruct (sync_main _ _ _ _ _ _ s) as [s' [builder|[e| |]]]; try done.
    destruct H as (c & d & l & Hlen & Hl & [Hid Hprev] & H1 & H2). exists c, ((c, d) :: l), (stored_all ∅ ((c, d) :: l)).
    pose proof (chain_top_down c d l Hl) as Htd.
    do 4 (split; [done|]). split; [by apply top_down_tree; [apply tree_empty|]|]. split; [|by split].
    intros [x y] Hx. by apply (foldl_inserts c _ ∅ (map_Forall_empty _) Htd). }
  unfold sync_main. eapply t_bind; [apply (t_on_a _ _ _ (fun _ => imported [])); intros; by eapply create_pin_imported|].
  intros tmp. eapply t_bind; [apply import_run; [done|done|cbn; lia]|].
  intros builder s0 (l & Hl & Hbd & Hlen & Hs0). destruct l as [|[c d] l]; [cbn in Hlen; lia|].
  pose proof (share_run root gc tx builder c d l Hl (proj2 Hbd) s0 Hs0) as H.
  destruct (share root gc tx world builder s0) as [s' [b'|[e| |]]]; try done. destruct H as [-> H]. by exists c, d, l.
Qed.

(** What is in the files is what its CID says. *)
Hypothesis Hfiles : forall config fs fs' st net, ipfs_new config fs = (fs', Ok (st, net)) -> sound st.

Lemma listening_sound st any ltx : sound st -> sound (ipfs_listen_on st any ltx).1.
Proof. unfold sound, ipfs_listen_on, on_network_call. by destruct (listen_on (network st) any ltx). Qed.

(** C35: the example that imports a chain of [n] blocks into one node and synchronises it to
    another, from the start of the nodes and whatever their collectors do between its
    statements.  Suppose that the stores hold only blocks that match their CIDs, that the
    codec makes such blocks with the given link, that asking for the missing blocks does
    not fail (the node would take the error for nothing missing), and that a query of
    bitswap that ends without an error has stored what the provider has below the root.
    Then the program panics exactly if both nodes are fine up to there and the stream of
    its listener ends without an event; and if it ends without an error, it made a chain of
    [n] blocks, each linked to the one before, and both nodes have every block of it below
    the alias, where it stays.  The temporary pin protects the blocks that no alias reaches
    yet; without it they could be collected ([NodeTests.bottom_up_loses_leaf]). *)
Theorem sync_example_complete made_a made_b any ltx first before root n gc tx rng fs :
  0 < n -> (Z.of_nat n <= U32_MAX)%Z ->
  match sync_program made_a made_b any ltx first before root n gc tx world rng fs with
  | Ok (s', builder) => exists c l T, length l = n /\ chain l /\ builds builder l /\ nb_prev builder = Some c /\
      tree T c /\ (forall b, b ∈ l -> T !! b.1 = Some b.2) /\
      st_kept (storage s'.1) root c T /\ st_kept (storage s'.2) root c T
  | Err (Unwrapped _) => True
  | Err Assertion => first = None
  | Err Hangs => False
  end.
Proof.
  intros Hn Hmax. unfold sync_program. destruct (ipfs_new _ fs) as [fs1 [[a na]|e]] eqn:Ea; [|done].
  destruct first as [ev|]; [|done]. destruct (ipfs_new _ fs1) as [fs2 [[b nb]|e]] eqn:Eb; [|done].
  apply Hfiles in Ea, Eb. unfold meanwhile, mbind, test_bind. cbn [fst snd].
  pose proof (sync_main_complete root n gc tx rng (rounds before.1 (ipfs_listen_on a any ltx).1, rounds before.2 b) Hn Hmax
    (sound_rounds _ _ (listening_sound a any ltx Ea)) (sound_rounds _ _ Eb)) as H.
  by destruct (sync_main root n gc tx world rng _) as [s' [builder|[e| |]]].
Qed.
End Share.
End SyncExample.

(** ** examples/compat.rs *)
Section Compat.
Context `{SL : StoreLaws} `{Ch : Channels} `{HO : HashOrder} `{CC : !CommandChannel} {CCL : CommandChannelLaws} `{Co : Chrono}.

(** [world1] and [world2] are what happens while a block is fetched, [world3] while the
    stream of the synchronisation is read to its end. *)
Definition compat_main (peer : PeerId) (addr : Multiaddr) (leaf dag : Cid) (tx : Tx)
    (world1 world2 : StorageService -> StorageService * awaited)
    (world3 : StorageService -> StorageService * awaited) : test Ipfs IpfsError (IpfsBlock * IpfsBlock) :=
  call (fun st => (ipfs_dial_address st peer addr, Ok tt)) ;;
  b1 ← call (fun st => fetch st leaf [peer] tx world1);
  b2 ← call (fun st => fetch st dag [peer] tx world2);
  sync_logged world3 dag [peer] tx ;;
  mret (b1, b2).

Definition sent (st : Ipfs) : list NetworkCommand := cmd_queue (svc_cmd (network st)).

(** Commands that only concern [peer]; a query that ends cancels itself. *)
Definition only_to (peer : PeerId) (m : NetworkCommand) : Prop :=
  match m with
  | DialAddress p _ => p = peer
  | Get _ ps _ | Sync _ ps _ _ => ps = [peer]
  | CancelQuery _ => True
  | _ => False
  end.
Definition adds (peer : PeerId) (st st' : Ipfs) : Prop := exists l, sent st' = sent st ++ l /\ Forall (only_to peer) l.

#[local] Instance adds_preorder peer : PreOrder (adds peer).
Proof.
  split; [intros st; exists []; by rewrite app_nil_r|].
  intros s1 s2 s3 (l1 & E1 & H1) (l2 & E2 & H2). exists (l1 ++ l2). rewrite E2, E1, app_assoc. split; [done|by apply Forall_app].
Qed.

Lemma cmd_adds peer st msg :
  only_to peer msg -> adds peer st (with_network st (cmd (network st) msg).1).
Proof.
  intros Hm. unfold cmd, adds, sent. destruct (try_send (svc_cmd (network st)) msg) as [c [[d m]|]] eqn:E; cbn.
  - apply try_send_err in E as [_ ->]. exists []. by rewrite app_nil_r.
  - apply try_send_ok in E. exists [msg]. split; [done|]. by constructor.
Qed.

Lemma request_adds peer st msg tx n c :
  only_to peer msg -> request (network st) msg tx = (n, c) -> adds peer st (with_network st n).
Proof.
  intros Hm. unfold request. pose proof (cmd_adds peer st msg Hm) as H.
  destruct (cmd (network st) msg) as [n' [[m e]|]]; cbn in H; by intros [= <- <-].
Qed.

Lemma get_adds peer st cid st' r : ipfs_get st cid = (st', r) -> adds peer st st'.
Proof.
  unfold ipfs_get, lookup_block. destruct (db_get _ _) as [s x]. intros [= <- _]. exists []. by rewrite app_nil_r.
Qed.

Lemma drop_adds peer st id : adds peer st (with_network st (with_cmd (network st) (get_query_drop (svc_cmd (network st)) id))).
Proof.
  destruct (get_query_drop_queue (svc_cmd (network st)) id) as (l & Hl & Hc). exists l. split; [exact Hl|].
  destruct Hc as [-> | ->]; [done|]. by apply Forall_singleton.
Qed.

Lemma fetch_adds peer st cid tx world st' r : fetch st cid [peer] tx world = (st', r) -> adds peer st st'.
Proof.
  unfold fetch, lookup_block. destruct (db_get (storage st) cid) as [s x].
  assert (H0 : adds peer st (with_storage st s)) by (exists []; by rewrite app_nil_r).
  destruct x as [[d|]|e]; [by intros [= <- _]| |by intros [= <- _]].
  destruct (svc_get _ _ _ _) as [n c] eqn:E. apply (request_adds peer (with_storage st s)) in E; [|done].
  destruct c as [e|rx]; [intros [= <- _]; by etrans|]. destruct (world _) as [s2 w].
  assert (H1 : adds peer st (with_storage (with_network (with_storage st s) n) s2))
    by exact (transitivity H0 E).
  destruct w as [e|id [[]|e]]; cbn [fetch_resume]; [by intros [= <- _]| |].
  - intros Hg%(get_adds peer). etrans; [exact H1|]. etrans; [|exact Hg].
    apply (drop_adds peer (with_storage (with_network (with_storage st s) n) s2)).
  - intros [= <- _]. etrans; [exact H1|].
    apply (drop_adds peer (with_storage (with_network (with_storage st s) n) s2)).
Qed.

Lemma sync_adds peer world cid tx st st' r : sync_logged world cid [peer] tx st = (st', r) -> adds peer st st'.
Proof.
  unfold sync_logged, call, ipfs_sync. destruct (db_missing_blocks (storage st) cid) as [s x].
  assert (H0 : adds peer st (with_storage st s)) by (exists []; by rewrite app_nil_r).
  destruct (match x with Ok l => l | Err _ => [] end) as [|m l]; cbn; [by intros [= <- _]|].
  destruct (request _ _ tx) as [n c] eqn:E. apply (request_adds peer (with_storage st s)) in E; [|done].
  destruct c as [e|rx]; cbn; [intros [= <- _]; by etrans|]. destruct (world s) as [s2 [e|id q]]; cbn; intros [= <- _]; [exact (transitivity H0 E)|].
  etrans; [exact (transitivity H0 E)|]. apply (drop_adds peer (with_storage (mkIpfs s n) s2)).
Qed.

(** The example dials its peer first, if there is room for the command, and everything it
    asks for afterwards it asks of this peer, however far it gets. *)
Theorem compat_asks_one_peer peer addr leaf dag tx world1 world2 world3 st st' r :
  compat_main peer addr leaf dag tx world1 world2 world3 st = (st', r) ->
  exists l, Forall (only_to peer) l /\
    (sent st' = sent st ++ DialAddress peer addr :: l \/
     (exists x, (cmd (network st) (DialAddress peer addr)).2 = Some x) /\ sent st' = sent st ++ l).
Proof.
  unfold compat_main, mbind, test_bind, call. set (st1 := ipfs_dial_address st peer addr).
  intros E. assert (Ha : adds peer st1 st').
  { destruct (fetch st1 leaf [peer] tx world1) as [s1 r1] eqn:E1. apply (fetch_adds peer) in E1.
    destruct r1 as [b1|e]; [|by injection E as <- _].
    destruct (fetch s1 dag [peer] tx world2) as [s2 r2] eqn:E2. apply (fetch_adds peer) in E2.
    destruct r2 as [b2|e]; [|injection E as <- _; by etrans].
    destruct (sync_logged world3 dag [peer] tx s2) as [s3 r3] eqn:E3. apply (sync_adds peer) in E3.
    etrans; [exact E1|]. etrans; [exact E2|]. by destruct r3; injection E as <- _. }
  destruct Ha as (l & Hl & Hf). exists l. split; [done|]. rewrite Hl. unfold sent, st1, ipfs_dial_address, on_network, svc_dial_address, tell, cmd. cbn.
  destruct (try_send (svc_cmd (network st)) (DialAddress peer addr)) as [c [[d m]|]] eqn:Es; cbn.
  - apply try_send_err in Es as [_ ->]. right. split; [by eexists|done].
  - apply try_send_ok in Es. left. by rewrite Es, <- app_assoc.
Qed.
End Compat.

(** A store that keeps these laws. *)
Module SimExamples.
Import NetDemo SimService SimLru SimTests.

Lemma batch_pin_held (links : list (@Cid sim sim_protocols)) (u : @Txn _ _ lru_store) p u' p' r :
  batch_temp_pin links u p = (u', p', r) -> lru_held u ⊆ lru_held u'.
Proof.
  revert u p. induction links as [|c links IH]; intros u p; cbn; [by intros [= <- <- <-]|].
  intros H%IH. cbn in H. set_solver.
Qed.

#[export] Instance lru_temp_pins : TempPinLaws (PL := lru_pin_laws).
Proof.
  refine {| held := lru_held : @BlockStore _ _ lru_store -> gset (@Cid sim sim_protocols);
            txn_held := lru_held : @Txn _ _ lru_store -> gset (@Cid sim sim_protocols) |};
    cbn -[lru_gc lru_blocks use batch_temp_pin]; intros; simplify_eq; try done.
  - destruct o; cbn -[lru_blocks lru_reverse use batch_temp_pin] in *; try by simplify_eq.
    + match goal with H : context [@batch_temp_pin ?a ?b ?c ?l ?u ?p] |- _ =>
        destruct (@batch_temp_pin a b c l u p) as [[u' p'] [[]|e]] eqn:E end; simplify_eq. by eapply batch_pin_held.
    + unfold batch_get in *. cbn -[lru_blocks use] in *. by case_match; simplify_eq.
  - set_solver.
  - by edestruct gc_collects as (_ & _ & ->).
  - match goal with H : lru_gc _ = _ |- _ =>
      apply lru_gc_spec in H as [(-> & _)|(_ & _ & c' & x' & l & [[_ Hf] _]%victim & ->)] end; [done|].
    rewrite drop_entry_blocks, lookup_delete_ne; [done|]. intros ->. done.
  - match goal with H : lru_gc _ = _ |- _ =>
      apply lru_gc_spec in H as [(-> & _)|(_ & _ & c' & x' & l & _ & ->)] end; [done|].
    rewrite drop_entry_blocks. apply delete_subseteq.
Defined.

#[export] Instance lru_missing : MissingLaws (PL := lru_pin_laws).
Proof.
  split. intros t root t' c. cbn -[lru_blocks]. intros [= _ E] Hb%below_path.
  destruct (lru_blocks t !! c) as [d|] eqn:Ec; [by eexists|]. exfalso.
  assert (Hc : c ∈ filter (fun x => lru_blocks t !! x = None) (reach (lru_blocks t) root)).
  { apply elem_of_filter. split; [done|]. by apply reach_path. }
  apply elements_empty_inv in E. set_solver.
Qed.

(** The first two blocks of a chain. *)
#[export] Instance two_blocks : ChainBlocks (@Cid sim sim_protocols) (@StoreData sim sim_protocols lru_store) := {|
  CErr := string;
  CRng := Z;
  encode_node := fun prev _ _ =>
    match prev with
    | None => Ok (blk 1)
    | Some p => if decide (p = (blk 1).1) then Ok (blk 2) else Err "not in the library"
    end;
  fill_payload := fun n r => (replicate (Z.to_nat n) r, (r + 1)%Z)
|}.

Definition providing (sa : @StorageService sim sim_protocols lru_store) := give (lru_blocks (store sa)).
Definition seed : @CRng _ _ two_blocks := 0%Z.
Definition debug : Profile := {| debug_build := true |}.

(** New files. *)
#[local] Instance lru_disk : StoreFiles (BS := lru_store) := {|
  Fs := list string;
  is_file := fun fs p => bool_decide (p ∈ fs);
  create_dir_all := fun p fs => (p :: fs, Ok tt);
  path_join := fun p q => p +:+ "/" +:+ q;
  CacheTracker := unit;
  InMemCacheTracker_new := tt;
  SqliteCacheTracker_open := fun _ fs => (fs, Ok tt);
  BlockStore_open := fun p limit _ fs => (p :: fs, Ok (mkLru [] ∅ 0 ∅));
  BlockStore_memory := fun limit _ => Ok (mkLru [] ∅ limit.1 ∅);
  additional_connection := fun _ fs => (fs, Ok tt)
|}.
#[local] Existing Instance resolving.

Definition example_run :=
  sync_program (P := debug) (SF := lru_disk) ("one", a_key 1) ("two", a_key 2) any_address listener heard (1, 0)
    x1 2 (fun _ => (3, 2)) 5 providing seed ([] : @Fs _ _ _ lru_disk).

Lemma new_files_sound config fs fs' st net :
  ipfs_new (SF := lru_disk) config fs = (fs', Ok (st, net)) -> sound (PL := lru_pin_laws) st.
Proof.
  unfold ipfs_new. destruct (open (SF := lru_disk) (config_storage config) fs) as [fs1 [[s own]|e]] eqn:E; [|done].
  destruct (service_new _) as [[[svc beh] nt]|e]; [|done]. intros [= <- <- <-].
  assert (Hs : lru_blocks (store s) = ∅); [|intros c d; unfold blocks; cbn -[lru_blocks]; by rewrite Hs].
  unfold open, open_tracker, open_store in E. 
  unfold mbind, mret, io_bind, io_ret, file_at in E. cbn in E.
  repeat (case_match; simplify_eq/=); done.
Qed.

Lemma sync_example_complete_witness : exists s' builder T, example_run = Ok (s', builder) /\
  st_kept (SL := lru_store_laws) (storage s'.2) x1 (2%N : @Cid sim sim_protocols) T /\ T !! (blk 1).1 = Some (blk 1).2.
Proof.
  assert (E : match example_run with Ok (_, b) => bool_decide (nb_prev b = Some (2%N : @Cid sim sim_protocols)) | _ => false end = true)
    by (vm_compute; reflexivity).
  assert (Hc : forall prev id payload c d, encode_node (ChainBlocks := two_blocks) prev id payload = Ok (c, d) ->
    content (PinLaws := lru_pin_laws) c d /\ data_links (PinLaws := lru_pin_laws) d = match prev with None => [] | Some p => [p] end).
  { intros [p|] id payload c d H; unfold encode_node, two_blocks in H; [case_decide as Hp; [rewrite Hp|discriminate H]|];
      injection H as <- <-; split; reflexivity. }
  assert (Hm : forall (st : @StorageService sim sim_protocols lru_store) c, is_ok (db_missing_blocks st c).2 = true).
  { intros st c. unfold db_missing_blocks, rw, rw_mut. cbn -[reach lru_blocks]. reflexivity. }
  pose proof (sync_example_complete (P := debug) (TPL := lru_temp_pins) (CB := two_blocks) (SF := lru_disk) Hc providing) as H.
  specialize (H (fun sa c => give_delivers (lru_blocks (store sa)) c) Hm new_files_sound).
  specialize (H ("one", a_key 1) ("two", a_key 2) any_address listener heard (1, 0) x1 2 (fun _ => (3, 2)) 5 seed []).
  revert E H. unfold example_run. match goal with |- match ?r with _ => _ end = true -> _ =>
    destruct r as [[s' builder]|f]; [intros E H|discriminate 1] end.
  destruct H as (c & l & T & Hlen & Hl & Hb & Hprev & _ & HT & _ & Hk); [lia|done|].
  apply bool_decide_eq_true in E. destruct Hb as [_ Hb]. rewrite E in Hprev, Hb. injection Hprev as <-.
  destruct l as [|[c2 d2] [|[c1 d1] [|]]]; try discriminate Hlen. injection Hb as <-.
  destruct Hl as (H2 & Hlink & H1 & _). cbn in H2, H1, Hlink. subst d2 d1. injection Hlink as <-.
  exists s', builder, T. split; [reflexivity|]. split; [exact Hk|]. apply (HT (blk 1)). right. left.
Defined.
End SimExamples.
