(* ===== verification/Restart.v ===== *)
(** * examples/restart.rs

    The program starts and drops nodes with the default configuration, 131 times, and prints
    how many threads there are and their names.  [Process] is its state: the runtime, the
    nodes that were dropped and whose network future the runtime has not dropped yet, and
    the tasks that the swarms of the nodes have detached, which nobody holds.  Shown here:
    with the default executor the tasks of dropped nodes are never more than one per such
    node, and none of the nodes' own is left once the runtime is done, however its work
    interleaves with the next starts.  Also: what [threads] reads from /proc/self/status. *)
From S2P Require Import Prelude Executor Time Libp2p PeerInfo AddressHandler Peers Protocols Behaviour Net.
From S2P Require Import Service NetProps Config Cli CliProps Db Ipfs Lifetime Main Args.

(** ** Counting threads *)
Section Threads.
Context {IoErr : Type}.

Definition starts_with (prefix t : Text) : bool := bool_decide (prefix `prefix_of` t).

(** [lines] are those of /proc/self/status. *)
Fixpoint count_threads (lines : list (result Text IoErr)) : outcome (result Z IoErr) :=
  match lines with
  | [] => Panic "not implemented"
  | Err e :: _ => Done (Err e)
  | Ok line :: lines =>
      if starts_with (txt "Threads:") line then
        let iter := split_whitespace line in
        _ ← unwrap "next" (head iter);
        n ← unwrap "next" (head (tail iter));
        v ← unwrap "parse" (parse_u64 n);
        Done (Ok v)
      else count_threads lines
  end.

(** [file] is the result of opening it. *)
Definition threads (file : result (list (result Text IoErr)) IoErr) : outcome (result Z IoErr) :=
  match file with Err e => Done (Err e) | Ok lines => count_threads lines end.

(** The entries of /proc/self/task; one that still exists has the text of its comm file. *)
Fixpoint read_comms (dir : list (result (option (result Text IoErr)) IoErr)) (tasks : list Text) : result (list Text) IoErr :=
  match dir with
  | [] => Ok tasks
  | Err e :: _ => Err e
  | Ok None :: dir => read_comms dir tasks
  | Ok (Some (Err e)) :: _ => Err e
  | Ok (Some (Ok comm)) :: dir => read_comms dir (tasks ++ [comm])
  end.
Definition comms (dir : result (list (result (option (result Text IoErr)) IoErr)) IoErr) : result (list Text) IoErr :=
  match dir with Err e => Err e | Ok dir => read_comms dir [] end.

(** [println!("..", threads()?); println!("..", comms()?.join(""))], with what is there to
    read; the result is what is printed. *)
Record reading := mkReading {
  status : result (list (result Text IoErr)) IoErr;
  task_dir : result (list (result (option (result Text IoErr)) IoErr)) IoErr
}.
Definition look (r : reading) : outcome (result (Z * list Text) IoErr) :=
  n ← threads (status r);
  Done match n with
       | Err e => Err e
       | Ok n => match comms (task_dir r) with Err e => Err e | Ok l => Ok (n, l) end
       end.

(** The decimal digits of a number. *)
Fixpoint digits (fuel : nat) (n : Z) (l : Text) : Text :=
  match fuel with
  | 0 => l
  | S fuel =>
      let l := ((48 + n `mod` 10)%Z :: l) in
      if decide (n < 10)%Z then l else digits fuel (n / 10) l
  end.
Definition show_u64 (n : Z) : Text := digits 20 n [].

Lemma decimal_app acc l l' : decimal acc (l ++ l') = decimal acc l ≫= fun v => decimal v l'.
Proof.
  revert acc. induction l as [|c l IH]; intros acc; cbn; [done|]. destruct (in_range 48 57 c); [|done]. case_decide; [apply IH|done].
Qed.

Lemma digit_range d : (0 <= d < 10)%Z -> in_range 48 57 (48 + d) = true.
Proof. intros H. unfold in_range. lia. Qed.

Lemma decimal_digits fuel n l v :
  (0 <= n)%Z -> (n < 10 ^ Z.of_nat fuel)%Z -> 0 < fuel ->
  decimal n l = Some v -> (n <= U64_MAX)%Z -> decimal 0 (digits fuel n l) = Some v.
Proof.
  revert n l. induction fuel as [|fuel IH]; intros n l Hn Hlt Hf Hv Hmax; [lia|]. cbn [digits].
  pose proof (Z.mod_pos_bound n 10 ltac:(lia)) as Hm. pose proof (Z.div_mod n 10 ltac:(lia)) as Hdm.
  case_decide as H10.
  - cbn. rewrite digit_range by done. rewrite (Z.mod_small n 10) in * by lia.
    replace (48 + n - 48)%Z with n by lia. by rewrite decide_True.
  - rewrite Nat2Z.inj_succ, Z.pow_succ_r in Hlt by lia. apply IH; [apply Z.div_pos; lia| | | |].
    + apply Z.div_lt_upper_bound; lia.
    + destruct fuel; [|lia]. cbn in Hlt. lia.
    + cbn. rewrite digit_range by done. replace (48 + n `mod` 10 - 48)%Z with (n `mod` 10)%Z by lia.
      replace (n / 10 * 10 + n `mod` 10)%Z with n by lia. by rewrite decide_True.
    + lia.
Qed.

Lemma digits_word fuel n l :
  (0 <= n)%Z -> Forall (fun c => 48 <= c <= 57)%Z l -> Forall (fun c => 48 <= c <= 57)%Z (digits fuel n l).
Proof.
  revert n l. induction fuel as [|fuel IH]; intros n l Hn Hl; [done|]. cbn [digits].
  pose proof (Z.mod_pos_bound n 10 ltac:(lia)) as Hm.
  assert (Forall (fun c => 48 <= c <= 57)%Z ((48 + n `mod` 10)%Z :: l)) by (constructor; [lia|done]).
  case_decide; [done|]. apply IH; [apply Z.div_pos; lia|done].
Qed.

Lemma split_word_ws w c t :
  word w -> is_whitespace c = true -> split_whitespace (w ++ c :: t) = w :: split_whitespace t.
Proof.
  intros [Hne Hw] Hc. unfold split_whitespace. rewrite split_ws_word by done. cbn. rewrite Hc. by rewrite decide_False.
Qed.

Lemma digits_ne fuel n l : 0 < fuel \/ l <> [] -> digits fuel n l <> [].
Proof.
  revert n l. induction fuel as [|fuel IH]; intros n l H; [destruct H; [lia|done]|].
  cbn [digits]. case_decide; [done|]. apply IH. by right.
Qed.

Lemma show_u64_word n : (0 <= n)%Z -> word (show_u64 n) /\ Forall (fun c => 48 <= c <= 57)%Z (show_u64 n).
Proof.
  intros Hn. pose proof (digits_word 20 n [] Hn ltac:(constructor)) as H. split; [|done]. split.
  - apply digits_ne. left. lia.
  - eapply Forall_impl; [exact H|]. cbn. intros c Hc. unfold is_whitespace, in_range. lia.
Qed.

Lemma parse_show n : (0 <= n <= U64_MAX)%Z -> parse_u64 (show_u64 n) = Some n.
Proof.
  intros Hn. destruct (show_u64_word n) as [[Hne _] Hd]; [lia|].
  assert (E : parse_u64 (show_u64 n) = decimal 0 (show_u64 n)).
  { destruct (show_u64 n) as [|c t]; [done|]. apply Forall_cons in Hd as [Hc _]. cbn.
    destruct (decide (c = 43)%Z) as [->|]; [lia|]. by repeat case_match. }
  rewrite E. apply decimal_digits; [lia|unfold U64_MAX in *; lia|lia|done|lia].
Qed.

(** The line of the kernel has a tab. *)
Definition tab : Z := 9.

(** [threads] reads the number of the first line for it, past lines for other things. *)
Theorem threads_reads (other : list Text) (n : Z) (more : list (result Text IoErr)) :
  (0 <= n <= U64_MAX)%Z -> Forall (fun l => starts_with (txt "Threads:") l = false) other ->
  threads (Ok ((Ok <$> other) ++ Ok (txt "Threads:" ++ tab :: show_u64 n) :: more)) ↓ Ok n.
Proof.
  intros Hn Ho. cbn [threads]. induction Ho as [|l other Hl Ho IH]; cbn [fmap list_fmap app count_threads]; [|by rewrite Hl].
  unfold starts_with. rewrite bool_decide_eq_true_2 by apply prefix_app_r, reflexivity.
  rewrite split_word_ws; [|by apply (bool_decide_unpack _); vm_compute|done].
  rewrite split_word_end by (apply show_u64_word; lia). cbn [head tail unwrap mbind outcome_bind]. by rewrite parse_show.
Qed.
End Threads.
Arguments reading : clear implicits.

Section Restart.
Context `{F : Features} `{R : Runtimes} {RL : RuntimeLaws}.
Context (gc_loop swarm_loop : Future unit).
Context `{P : Profile} `{C : Chrono} `{L : Libp2p} `{Ch : Channels} `{HO : HashOrder}.
Context `{Pr : !Protocols} `{CC : !CommandChannel} `{BS : !BlockStores}.
Context `{Sw : !SwarmOps} `{Bu : !Builders} {SF : StoreFiles}.

Context {IoErr : Type}.

Record Process := mkProcess {
  p_fs : Fs;
  p_rt : Rt;
  p_left : list Node;
  p_detached : list TaskId
}.

(** The runtime drops the future of the [i]-th of the dropped nodes. *)
Definition reap (pr : Process) (i : nat) : Process :=
  match p_left pr !! i with
  | Some n => mkProcess (p_fs pr) (n_rt (drop_swarm_future (with_rt n (p_rt pr)))) (delete i (p_left pr)) (p_detached pr)
  | None => pr
  end.

(** What the runtime does: it also runs the nodes, whose swarms start tasks,
    [exec.spawn(fut).detach()] in src/net/mod.rs. *)
Inductive work := Reap (i : nat) | Detach (fut : Future unit).
Definition do_work (e : Executor) (pr : Process) (w : work) : outcome Process :=
  match w with
  | Reap i => Done (reap pr i)
  | Detach fut =>
      '(rt, h) ← spawn e fut (p_rt pr);
      Done (mkProcess (p_fs pr) (detach h rt) (p_left pr) (match handle_id h with Some i => [i] | None => [] end ++ p_detached pr))
  end.
Definition works (e : Executor) (pr : Process) (l : list work) : outcome Process := foldM (do_work e) pr l.

Inductive RestartError := FromNode (e : IpfsError) | FromIo (e : IoErr).

(** What is looked at, if anything is. *)
Definition looks (r : option (reading IoErr)) : outcome (result unit RestartError) :=
  match r with
  | None => Done (Ok tt)
  | Some r => x ← look r; Done match x with Ok _ => Ok tt | Err e => Err (FromIo e) end
  end.

(** [Ipfs::new(Config::default()).await?], what the runtime does meanwhile, what is looked
    at, and [drop(ipfs)]; the node is dropped as well if looking fails. *)
Definition restart (e : Executor) (config : IpfsConfig) (running : list work) (seen : option (reading IoErr)) (pr : Process) :
    outcome (Process * result unit RestartError) :=
  '(fs, rt, r) ← new0 gc_loop swarm_loop e config (p_fs pr) (p_rt pr);
  let pr := mkProcess fs rt (p_left pr) (p_detached pr) in
  match r with
  | Err x => Done (pr, Err (FromNode x))
  | Ok (_, _, n) =>
      pr ← works e pr running;
      x ← looks seen;
      let n := drop_ipfs (with_rt n (p_rt pr)) in
      Done (mkProcess (p_fs pr) (n_rt n) (n :: p_left pr) (p_detached pr), x)
  end.

(** [Config::default()], with the key and the name it makes up. *)
Definition restart_config (made_up : string * Keypair) : IpfsConfig := IpfsConfig_new made_up.1 "." made_up.2.

(** A start: what the runtime does while the node runs and after it was dropped, and what
    is looked at then.  The first three starts look, the 128 of the loop do not. *)
Record round := mkRound {
  made_up : string * Keypair;
  running : list work;
  seen : option (reading IoErr);
  dropped : list work;
  seen_after : option (reading IoErr)
}.

Fixpoint restarts (e : Executor) (rounds : list round) (pr : Process) : outcome (Process * result unit RestartError) :=
  match rounds with
  | [] => Done (pr, Ok tt)
  | r :: rounds =>
      '(pr, x) ← restart e (restart_config (made_up r)) (running r) (seen r) pr;
      match x with
      | Err x => Done (pr, Err x)
      | Ok _ =>
          pr ← works e pr (dropped r);
          x ← looks (seen_after r);
          match x with
          | Err x => Done (pr, Err x)
          | Ok _ => restarts e rounds pr
          end
      end
  end.

(** All of [main]: it looks, restarts nodes, sleeps, and looks again. *)
Definition restart_main (e : Executor) (first : reading IoErr) (rounds : list round) (asleep : list work) (last : reading IoErr)
    (pr : Process) : outcome (Process * result unit RestartError) :=
  x ← looks (Some first);
  match x with
  | Err x => Done (pr, Err x)
  | Ok _ =>
      '(pr, x) ← restarts e rounds pr;
      match x with
      | Err x => Done (pr, Err x)
      | Ok _ =>
          pr ← works e pr asleep;
          x ← looks (Some last);
          Done (pr, x)
      end
  end.

(** Everything that is looked at. *)
Definition readings (first : reading IoErr) (rounds : list round) (last : reading IoErr) : list (reading IoErr) :=
  first :: (r ← rounds; option_list (seen r) ++ option_list (seen_after r)) ++ [last].

(** The rest of the runtime's work. *)
Definition reap_all (pr : Process) : Process := foldl reap pr (replicate (length (p_left pr)) 0).

(** *** The invariant *)
Section Inv.
Context (e : Executor).
Hypothesis stops : drop_stops e = true.

(** A dropped node: only its network future keeps the storage, and the task [g] of its
    collector, alive. *)
Definition leftover (n : Node) (g : TaskId) : Prop :=
  ipfs_refs n = 0 /\ swarm_future n = Some (mkSwarmFuture true) /\
  exists h, inner n = Some (mkInner (Some h)) /\ managed e h g.

(** The tasks are those of [base] and one for each dropped node. *)
Definition tasks_ok (base : TaskId -> Prop) (pr : Process) : Prop :=
  exists gcs, NoDup gcs /\ Forall2 leftover (p_left pr) gcs /\ (forall g, g ∈ gcs -> ~ base g) /\
    forall j, scheduled (p_rt pr) j <-> j ∈ gcs \/ base j.

(** Looking panics only where [threads] does. *)
Lemma looks_cases seen : match looks seen with Done _ => True | Panic _ => exists r, seen = Some r /\ is_done (look r) = false end.
Proof. destruct seen as [r|]; [|done]. cbn. destruct (look r) eqn:E; [done|]. exists r. by rewrite E. Qed.

Lemma aborts : abort_stops e = true.
Proof. by destruct e. Qed.

Lemma reap_one n g rt j :
  leftover n g -> scheduled (n_rt (drop_swarm_future (with_rt n rt))) j <-> scheduled rt j /\ j <> g.
Proof.
  intros (H0 & Hf & h & Hi & Hm & Hid & Hb). unfold drop_swarm_future, release_storage, storage_refs. cbn. rewrite H0. cbn.
  rewrite Hi. unfold drop_inner. cbn. rewrite (abort_exact e h rt g) by done. rewrite aborts. naive_solver.
Qed.

Lemma reap_ok base pr i : tasks_ok base pr -> tasks_ok base (reap pr i).
Proof.
  intros (gcs & Hnd & Hl & Hnew & Hs). unfold reap. destruct (p_left pr !! i) as [n|] eqn:En; [|by exists gcs].
  destruct (Forall2_lookup_l _ _ _ _ _ Hl En) as (g & Hg & Hn). exists (delete i gcs).
  assert (Hperm : gcs ≡ₚ g :: delete i gcs) by (by apply delete_Permutation).
  assert (Hin : forall x, x ∈ gcs <-> x = g \/ x ∈ delete i gcs) by (intros x; rewrite Hperm at 1; apply elem_of_cons).
  assert (Hnd' : NoDup (g :: delete i gcs)) by (by rewrite <- Hperm). apply NoDup_cons in Hnd' as [Hgi Hnd'].
  split_and!; [done|by apply Forall2_delete|intros x Hx; apply Hnew, Hin; by right|].
  intros j. cbn. rewrite (reap_one n g) by done. rewrite Hs, Hin. specialize (Hnew g ltac:(apply Hin; by left)). naive_solver.
Qed.

Lemma reaps_ok base pr l : tasks_ok base pr -> tasks_ok base (foldl reap pr l).
Proof. revert pr. induction l as [|i l IH]; intros pr H; [done|]. cbn. by apply IH, reap_ok. Qed.

Lemma reap_detached pr i : p_detached (reap pr i) = p_detached pr.
Proof. unfold reap. by destruct (p_left pr !! i). Qed.

Lemma reaps_detached pr l : p_detached (foldl reap pr l) = p_detached pr.
Proof. revert pr. induction l as [|i l IH]; intros pr; [done|]. cbn. by rewrite IH, reap_detached. Qed.

(** The tasks are those of [base], those that were detached, which are others, and one for
    each dropped node. *)
Definition process_ok (base : TaskId -> Prop) (pr : Process) : Prop :=
  tasks_ok (fun j => base j \/ j ∈ p_detached pr) pr /\ forall j, j ∈ p_detached pr -> ~ base j.

Lemma process_scheduled base pr j :
  process_ok base pr -> base j \/ j ∈ p_detached pr -> scheduled (p_rt pr) j.
Proof. intros [(gcs & _ & _ & _ & Hs) _] H. apply Hs. by right. Qed.

Lemma do_work_ok base pr w : process_ok base pr -> exists pr', do_work e pr w ↓ pr' /\ process_ok base pr'.
Proof.
  intros Hok. destruct w as [i|fut]; cbn [do_work].
  - eexists. split; [done|]. destruct Hok as [Ht Hd]. split; rewrite ?reap_detached; [by apply reap_ok|done].
  - pose proof (spawn_cases e fut (p_rt pr)) as H. destruct (spawn e fut (p_rt pr)) as [[rt h]|w]; [|by destruct e].
    destruct H as (_ & _ & _ & i & Hi & [Hn Hs] & _). cbn. rewrite Hi. eexists. split; [done|].
    assert (Hfresh : ~ base i /\ i ∉ p_detached pr)
      by (split; intros Hb; apply Hn, (process_scheduled base); auto).
    destruct Hok as [(gcs & Hnd & Hl & Hnew & Hgs) Hd]. split; cbn [p_detached].
    + exists gcs. split_and!; [done|done| |].
      * intros g Hg. assert (g <> i) by (intros ->; apply Hn, Hgs; by left). specialize (Hnew g Hg). set_solver.
      * intros j. cbn. rewrite detach_keeps, Hs, Hgs. set_solver.
    + intros j [->|Hj]%elem_of_cons; [tauto|by apply Hd].
Qed.

Lemma works_ok base l pr : process_ok base pr -> exists pr', works e pr l ↓ pr' /\ process_ok base pr'.
Proof.
  revert pr. induction l as [|w l IH]; intros pr Hpr; [by exists pr|].
  destruct (do_work_ok base pr w Hpr) as (pr1 & E1 & H1). destruct (IH pr1 H1) as (pr2 & E2 & H2).
  exists pr2. unfold works in *. cbn [foldM]. by rewrite E1.
Qed.

(** A running node that is dropped. *)
Lemma drop_leftover n rt swarm_id gc_id :
  node_wf e swarm_id gc_id true n -> ipfs_refs n = 1 ->
  leftover (drop_ipfs (with_rt n rt)) gc_id /\
  forall j, scheduled (n_rt (drop_ipfs (with_rt n rt))) j <-> scheduled rt j /\ j <> swarm_id.
Proof.
  intros Hwf H1. destruct (wf_live _ _ _ _ n Hwf) as [[(g & Hg & Hmg) _] [(h & Hh & Hm & Hid & _) Hsch]]; [lia|].
  destruct Hwf as (_ & _ & Hf & _). specialize (Hf Hsch).
  assert (E : drop_ipfs (with_rt n rt) =
    mkNode (drop_handle h rt) 0 (query_refs n) None (Some (mkSwarmFuture true)) (inner n)).
  { unfold drop_ipfs, release_storage, storage_refs. cbn. rewrite H1, Hf. cbn. rewrite decide_False by done.
    unfold release_network. cbn. by rewrite Hh, Hf. }
  rewrite E. split.
  - split; [done|]. split; [done|]. by exists g.
  - intros j. cbn. rewrite (drop_exact e h rt swarm_id) by done. naive_solver.
Qed.

(** A node that is started. *)
Lemma new0_ok base config pr :
  bitswap_enabled config = true -> process_ok base pr ->
  match new0 gc_loop swarm_loop e config (p_fs pr) (p_rt pr) with
  | Done (fs, rt, Ok (_, _, n)) => rt = n_rt n /\ exists sid gid,
      node_wf e sid gid true n /\ ipfs_refs n = 1 /\ ~ base sid /\ ~ base gid /\ sid <> gid /\
      process_ok (fun j => j = sid \/ j = gid \/ base j) (mkProcess fs rt (p_left pr) (p_detached pr))
  | Done (fs, rt, Err _) => process_ok base (mkProcess fs rt (p_left pr) (p_detached pr))
  | Panic _ => False
  end.
Proof.
  intros Hb Hpr. pose proof (new0_cases gc_loop swarm_loop e config (p_fs pr) (p_rt pr)) as H.
  destruct (new0 _ _ e config (p_fs pr) (p_rt pr)) as [[[fs rt] [[[st net] n]|x]]|w]; [| |by destruct e].
  - destruct H as (<- & sid & gid & Hd & Hns & Hng & Hwf & H1 & Hsch). rewrite Hb in Hwf. split; [done|].
    pose proof (process_scheduled base pr sid Hpr) as Hs. pose proof (process_scheduled base pr gid Hpr) as Hg.
    exists sid, gid. split_and!; [done|done|tauto|tauto|done|].
    destruct Hpr as [(gcs & Hnd & Hl & Hnew & Hgs) Hdt]. split; cbn [p_detached].
    + exists gcs. split_and!; [done|done| |].
      * intros g Hin. assert (scheduled (p_rt pr) g) by (apply Hgs; by left). specialize (Hnew g Hin). naive_solver.
      * intros j. cbn. rewrite Hsch, Hgs. tauto.
    + intros j Hj. specialize (Hdt j Hj). naive_solver.
  - destruct Hpr as [(gcs & Hnd & Hl & Hnew & Hs) Hd]. split; [|done]. exists gcs. split_and!; [done..|].
    intros j. cbn. by rewrite (H aborts j), Hs.
Qed.

(** It is dropped: its collector is left. *)
Lemma dropped_ok base n pr sid gid :
  node_wf e sid gid true n -> ipfs_refs n = 1 -> ~ base sid -> ~ base gid -> sid <> gid ->
  process_ok (fun j => j = sid \/ j = gid \/ base j) pr ->
  let n' := drop_ipfs (with_rt n (p_rt pr)) in
  process_ok base (mkProcess (p_fs pr) (n_rt n') (n' :: p_left pr) (p_detached pr)).
Proof.
  intros Hwf H1 Hbs Hbg Hne [(gcs & Hnd & Hl & Hnew & Hs) Hd] n'.
  destruct (drop_leftover n (p_rt pr) sid gid Hwf H1) as [Hleft Hdrop].
  assert (Hdet : (sid ∉ p_detached pr) /\ (gid ∉ p_detached pr)) by (split; intros Hj; apply (Hd _ Hj); tauto).
  split; cbn [p_detached]; [|intros j Hj Hb; apply (Hd j Hj); tauto].
  exists (gid :: gcs). split_and!.
  - apply NoDup_cons. split; [|done]. intros Hg. apply (Hnew gid Hg). tauto.
  - by constructor.
  - intros g [->|Hg]%elem_of_cons; [tauto|]. specialize (Hnew g Hg). tauto.
  - intros j. cbn [p_rt]. subst n'. rewrite Hdrop, Hs, elem_of_cons. specialize (Hnew sid). naive_solver.
Qed.

Lemma restart_ok base config running seen pr :
  bitswap_enabled config = true -> process_ok base pr ->
  match restart e config running seen pr with
  | Done (pr', _) => process_ok base pr'
  | Panic _ => exists r, seen = Some r /\ is_done (look r) = false
  end.
Proof.
  intros Hb Hpr. unfold restart. pose proof (new0_ok base config pr Hb Hpr) as H.
  destruct (new0 _ _ e config (p_fs pr) (p_rt pr)) as [[[fs rt] [[[st net] n]|x]]|w]; cbn; [|done|done].
  destruct H as (-> & sid & gid & Hwf & H1 & Hbs & Hbg & Hne & Hrun).
  destruct (works_ok _ running _ Hrun) as (pr1 & -> & H2). cbn.
  pose proof (looks_cases seen) as Hlook. destruct (looks seen) as [x|w]; [|done]. by eapply dropped_ok.
Qed.

Lemma default_bitswap made_up : bitswap_enabled (restart_config made_up) = true.
Proof. done. Qed.

Lemma restarts_ok base rounds pr :
  process_ok base pr ->
  match restarts e rounds pr with
  | Done (pr', _) => process_ok base pr'
  | Panic _ => exists r, r ∈ (r ← rounds; option_list (seen r) ++ option_list (seen_after r)) /\ is_done (look r) = false
  end.
Proof.
  revert pr. induction rounds as [|r rounds IH]; intros pr Hpr; cbn [restarts]; [done|].
  change ((r :: rounds) ≫= ?f) with (f r ++ (rounds ≫= f)).
  pose proof (restart_ok base (restart_config (made_up r)) (running r) (seen r) pr (default_bitswap (made_up r)) Hpr) as H.
  destruct (restart e _ _ _ pr) as [[pr1 [[]|x]]|w]; cbn;
    [|done|destruct H as (x & Hx & Hp); exists x; split; [rewrite Hx; by left|done]].
  destruct (works_ok base (dropped r) pr1 H) as (pr2 & -> & H2). cbn. pose proof (looks_cases (seen_after r)) as Hlook.
  destruct (looks (seen_after r)) as [[[]|x]|w]; cbn; [|done|].
  - specialize (IH pr2 H2). destruct (restarts e rounds pr2) as [[pr3 y]|w]; [done|].
    destruct IH as (x & Hx & Hp). exists x. split; [apply elem_of_app; by right|done].
  - destruct Hlook as (x & Hx & Hp). exists x. split; [|done]. apply elem_of_app. left. rewrite Hx. apply elem_of_app. right. by left.
Qed.

Lemma restart_main_ok base first rounds asleep last pr :
  process_ok base pr ->
  match restart_main e first rounds asleep last pr with
  | Done (pr', _) => process_ok base pr'
  | Panic _ => exists r, r ∈ readings first rounds last /\ is_done (look r) = false
  end.
Proof.
  intros Hpr. unfold restart_main, readings. pose proof (looks_cases (Some first)) as H0.
  destruct (looks (Some first)) as [[[]|x]|w]; cbn; [|done|destruct H0 as (x & [= <-] & Hp); exists first; split; [by left|done]].
  pose proof (restarts_ok base rounds pr Hpr) as H. destruct (restarts e rounds pr) as [[pr1 [[]|x]]|w]; cbn; [|done|].
  - destruct (works_ok base asleep pr1 H) as (pr2 & -> & H2). cbn. pose proof (looks_cases (Some last)) as H3.
    cbn in H3. destruct (look last) as [x|w] eqn:El; cbn; [done|]. exists last. rewrite El. split; [|done].
    right. apply elem_of_app. right. by left.
  - destruct H as (x & Hx & Hp). exists x. split; [|done]. right. apply elem_of_app. by left.
Qed.

Lemma reap_all_left pr : p_left (reap_all pr) = [].
Proof.
  unfold reap_all. remember (length (p_left pr)) as k eqn:Hk. revert pr Hk.
  induction k as [|k IH]; intros pr Hk; cbn; [by apply symmetry, nil_length_inv in Hk|].
  apply IH. unfold reap. destruct (p_left pr) as [|n l] eqn:El; [done|]. cbn in *. lia.
Qed.

(** C36: the example that restarts nodes leaves nothing of them behind, with the executor that
    is the default.  It panics only where reading /proc does ([threads] without a number).
    In every other case, also if a start or a reading fails, the tasks at the end are those
    that were there before, those that the swarms of the nodes have detached (nobody has a
    handle of them) and one, the collector, for each dropped node whose network future the
    runtime still holds; and once the runtime has dropped these futures, in any order and
    as late as it likes, only the tasks of the beginning and the detached ones are left. *)
Theorem restarts_leave_nothing first rounds asleep last pr :
  p_left pr = [] -> p_detached pr = [] ->
  match restart_main e first rounds asleep last pr with
  | Done (pr', _) =>
      p_left (reap_all pr') = [] /\
      (exists gcs, NoDup gcs /\ length gcs = length (p_left pr') /\ (forall g, g ∈ gcs -> ~ scheduled (p_rt pr) g) /\
         forall j, scheduled (p_rt pr') j <-> j ∈ gcs \/ scheduled (p_rt pr) j \/ j ∈ p_detached pr') /\
      forall order, p_left (foldl reap pr' order) = [] ->
        forall j, scheduled (p_rt (foldl reap pr' order)) j <-> scheduled (p_rt pr) j \/ j ∈ p_detached pr'
  | Panic _ => exists r, r ∈ readings first rounds last /\ is_done (look r) = false
  end.
Proof.
  intros H0 Hd0. assert (Hok : process_ok (scheduled (p_rt pr)) pr).
  { split; rewrite Hd0; [|by intros j ?%not_elem_of_nil]. exists []. rewrite H0.
    split_and!; [constructor|constructor|by intros g ?%not_elem_of_nil|]. intros j. set_solver. }
  apply (restart_main_ok _ first rounds asleep last) in Hok.
  destruct (restart_main e first rounds asleep last pr) as [[pr' r]|w]; [|done].
  destruct Hok as [Hok _]. split; [apply reap_all_left|]. split.
  - destruct Hok as (gcs & Hnd & Hl & Hnew & Hs). exists gcs.
    split_and!; [done|symmetry; by eapply Forall2_length|intros g Hg Hb; apply (Hnew g Hg); by left|done].
  - intros order Hnil. destruct (reaps_ok _ _ order Hok) as (gcs & _ & Hl & _ & Hs). rewrite Hnil in Hl.
    apply Forall2_nil_inv_l in Hl as ->. intros j. rewrite Hs. set_solver.
Qed.
End Inv.
End Restart.

(** ** Runs *)
Section RestartWitness.
Import SimExecutor NetDemo SimService SimStore.
#[local] Existing Instances Ipfs.sim_files resolving.

(** /proc of a process with four threads. *)
Definition four : reading string :=
  mkReading (Ok [Ok (txt "Name: restart"); Ok (txt "Threads: 4")]) (Ok [Ok (Some (Ok (txt "restart"))); Ok None]).
Definition two_rounds : list (round (IoErr := string)) :=
  [mkRound ("made-up-1", 1%N : @Keypair sim) [Detach loop] (Some four) [Reap 0] (Some four);
   mkRound ("made-up-2", 2%N : @Keypair sim) [] None [] None].
Definition before := mkProcess no_files idle [] [].
Definition restarted := restart_main loop loop on_async_global four two_rounds [] four before.

Lemma restarts_leave_nothing_witness : exists pr' r,
  restarted = Done (pr', r) /\ p_left (reap_all pr') = [] /\
  forall j, scheduled (p_rt (reap_all pr')) j <-> scheduled idle j \/ j ∈ p_detached pr'.
Proof.
  pose proof (restarts_leave_nothing (IoErr := string) loop loop on_async_global eq_refl four two_rounds [] four before eq_refl eq_refl) as H.
  assert (Hd : is_done restarted = true) by (vm_compute; reflexivity). unfold restarted in *.
  destruct (restart_main loop loop on_async_global four two_rounds [] four before) as [[pr' r]|w]; [|discriminate Hd].
  destruct H as (Hleft & _ & Hreap). exists pr', r. split; [reflexivity|]. split; [exact Hleft|].
  exact (Hreap _ Hleft).
Defined.

(** All of it succeeds; a detached task is left, and one collector until its future is
    dropped. *)
Example restarts_run :
  match restarted with
  | Done (pr', Ok _) =>
      (length (p_left pr'), length (p_detached pr'), size (live (p_rt pr')), size (live (p_rt (reap_all pr')))) = (1, 1, 2, 1)
  | _ => False
  end.
Proof. vm_compute. reflexivity. Qed.
End RestartWitness.
