(* ===== verification/Harness.v ===== *)
(** * The integration harness (harness/src/lib.rs and its programs)

    The harness starts machines with roles, waits for their events with deadlines, and
    drives them with the commands of the line protocol.  Modelled: which machine has
    which role and name, its configuration, the arithmetic of deadlines, the loops that
    wait for events, and the commands of the bitswap test (harness/src/bin/bitswap.rs).
    The machines and the network are those of a simulator; a machine here is its number
    and its address. *)
From stdpp Require Import pretty.
From S2P Require Import Prelude Time Libp2p PeerInfo AddressHandler Peers Protocols Net Service.
From S2P Require Import Config Cli CliProps Db Ipfs Main.

Record HarnessOpts := mkHarnessOpts {
  n_nodes : nat;
  n_providers : nat;
  n_consumers : nat;
  n_spam : nat;
  delay_ms : Z;
  enable_mdns : bool;
  tree_width : nat;
  tree_depth : nat;
  disable_port_reuse : bool
}.

(** The defaults of the options. *)
Definition HarnessOpts_default : HarnessOpts := mkHarnessOpts 2 1 1 0 0 false 10 4 false.

Inductive Role := Provider | Consumer | Idle.

(** [&list[a..b]]. *)
Definition slice {A} (l : list A) (a b : nat) : outcome (list A) :=
  if decide (b < a) then Panic "slice index starts after its end"
  else if decide (length l < b) then Panic "range end index out of range"
  else Done (take (b - a) (drop a l)).

Definition role_range (opts : HarnessOpts) (r : Role) : nat * nat :=
  match r with
  | Provider => (0, n_providers opts)
  | Consumer => (n_providers opts, n_providers opts + n_consumers opts)
  | Idle => (n_providers opts + n_consumers opts, n_nodes opts)
  end.

(** The name [run_netsim] gives to node [i]. *)
Definition harness_node_name (opts : HarnessOpts) (i : nat) : string :=
  if decide (i < n_providers opts) then "provider" +:+ pretty i
  else if decide (i < n_providers opts + n_consumers opts) then "consumer" +:+ pretty (i - n_providers opts)
  else "idle" +:+ pretty (i - n_providers opts - n_consumers opts).

(** ** Deadlines *)

Definition from_millis (ms : Z) : Duration := mkDuration (ms / 1000) ((ms mod 1000) * 1000000).

(** [Duration - Duration] panics below zero. *)
Definition checked_sub (a b : Duration) : option Duration :=
  if decide (secs b <= secs a)%Z then
    let s := (secs a - secs b)%Z in
    if decide (nanos b <= nanos a)%Z then Some (mkDuration s (nanos a - nanos b))
    else if decide (1 <= s)%Z then Some (mkDuration (s - 1) (nanos a + NANOS_PER_SEC - nanos b))
    else None
  else None.
Definition dur_sub (a b : Duration) : outcome Duration :=
  unwrap "overflow when subtracting durations" (checked_sub a b).

(** How long [deadline(i, d)] waits, with [elapsed] since [i]. *)
Definition deadline (elapsed : Duration) (d : Z) : outcome Duration :=
  let d := from_secs d in
  e ← dur_add elapsed (from_millis 100);
  if decide (dur_lt e d) then dur_sub d elapsed else Done (from_millis 100).

Section Harness.
Context `{P : Profile} `{C : Chrono} `{L : Libp2p} `{Pr : !Protocols} `{T : !CliText}.
Context `{BS : !BlockStores} `{N : !CliNode}.

(** A machine of the simulator: its number and its address on the network. *)
Record Machine := mkMachine { m_id : nat; m_addr : Z }.

(** [format!("/ip4/{}/tcp/30000", addr).parse().unwrap()]. *)
Context (ip4_tcp : Z -> Z -> Multiaddr).

Definition machine_peer_id (m : Machine) : PeerId := peer_id (Z.of_nat (m_id m)).
Definition machine_multiaddr (m : Machine) : Multiaddr := ip4_tcp (m_addr m) 30000.

(** [NetsimExt::nodes] and [NetsimExt::role]. *)
Definition node_entry (m : Machine) : nat * (PeerId * Multiaddr) :=
  let peer := machine_peer_id m in
  (m_id m, (peer, push (machine_multiaddr m) (P2p (peer_to_multihash peer)))).

Definition nodes (machines : list Machine) (range : nat * nat) : outcome (gmap nat (PeerId * Multiaddr)) :=
  ms ← slice machines range.1 range.2;
  Done (list_to_map (node_entry <$> ms)).

Definition role (machines : list Machine) (opts : HarnessOpts) (r : Role) :
    outcome (gmap nat (PeerId * Multiaddr)) :=
  nodes machines (role_range opts r).

(** The configuration of node [i] in [run_netsim]. *)
Definition harness_config (opts : HarnessOpts) (dir : string) (any_30000 : Multiaddr) (i : nat) : CliConfig :=
  mkCliConfig L (Some (dir +:+ "/" +:+ pretty i)) (Some (harness_node_name opts i)) (Z.of_nat i)
    (enable_mdns opts) [any_30000] [] [] (disable_port_reuse opts).

(** The copy of [MultiaddrExt::is_loopback]. *)
Definition harness_is_loopback (a : Multiaddr) : bool :=
  match iter a with
  | Ip4 addr :: _ => if ip4_is_loopback addr then true else false
  | _ => true
  end.

(** [sock_addr] of the test with port forwarding. *)
Definition sock_addr (m : Multiaddr) : outcome (Z * Z) :=
  ip ← match iter m with
       | [] => Panic "called `Option::unwrap()` on a `None` value"
       | Ip4 ip :: _ => Done ip
       | _ => Panic "need IPv4"
       end;
  port ← match tail (iter m) with
         | [] => Panic "called `Option::unwrap()` on a `None` value"
         | Tcp p :: _ => Done p
         | _ => Panic "need TCP"
         end;
  Done (ip, port).

(** ** Loops over the events of a machine

    What one [recv] yields: the wait for it may end too late, and it is [None] once the
    machine is gone.  A loop that has not returned at the end of the list is still
    waiting. *)
Inductive received := Late | Got (e : option CliEvent.t).

(** [loop { if let Some(e) = m.recv().deadline(..).await.unwrap() { .. break .. } }]. *)
Fixpoint recv_until {A} (f : CliEvent.t -> option A) (events : list received) : option (outcome (A * list received)) :=
  match events with
  | [] => None
  | Late :: _ => Some (Panic "called `Result::unwrap()` on an `Err` value: TimeoutError")
  | Got None :: rest => recv_until f rest
  | Got (Some e) :: rest => match f e with Some a => Some (Done (a, rest)) | None => recv_until f rest end
  end.

Definition listener_addr (e : CliEvent.t) : option Multiaddr :=
  match e with
  | CliEvent.NewListenAddr addr => if negb (harness_is_loopback addr) then Some addr else None
  | _ => None
  end.
Definition wait_listener : list received -> option (outcome (Multiaddr * list received)) := recv_until listener_addr.

(** The loop of the test for simultaneous open: does an event end it, and how? *)
Definition reached (peer : PeerId) (e : CliEvent.t) : option (result unit string) :=
  match e with
  | CliEvent.Connected id => if decide (id = peer) then Some (Ok tt) else None
  | CliEvent.Unreachable id => if decide (id = peer) then Some (Err "sim open failed") else None
  | _ => None
  end.
Definition wait_connected (peer : PeerId) : list received -> option (outcome (result unit string * list received)) :=
  recv_until (reached peer).

(** ** The bitswap test *)

Inductive action :=
| Send (m : nat) (c : CliCommand.t)
| AwaitFlushed (m : nat)
| AwaitSynced (m : nat)
| AwaitBlock (m : nat) (b : Block).

(** An alias and the blocks of a tree, root first, for one machine. *)
Definition send_tree (alias : Text) (cid : Cid) (blocks : list Block) (m : nat) : list action :=
  Send m (CliCommand.Alias alias (Some cid)) :: ((fun b => Send m (CliCommand.Insert b)) <$> rev blocks).

Definition sync_and_flush (m : nat) : list action := [AwaitSynced m; Send m CliCommand.Flush; AwaitFlushed m].

Definition check_blocks (blocks : list Block) (m : nat) : list action :=
  b ← blocks; [Send m (CliCommand.Get (block_cid b)); AwaitBlock m b].

(** [spam] are the trees that are not synced; [n] machines run. *)
Definition bitswap_script (opts : HarnessOpts) (n : nat) (root : Text) (spam : list (Cid * list Block))
    (cid : Cid) (blocks : list Block) : outcome (list action) :=
  let all := seq 0 n in
  let waiting := imap (fun i '(c, bs) => m ← all; send_tree (txt ("passive-" +:+ pretty i)) c bs m) spam in
  providers ← slice all 0 (n_providers opts);
  consumers ← slice all (n_providers opts) (n_providers opts + n_consumers opts);
  Done (mjoin waiting ++
    (providers ≫= send_tree root cid blocks) ++
    ((fun m => Send m CliCommand.Flush) <$> all) ++ (AwaitFlushed <$> all) ++
    (m ← consumers; [Send m (CliCommand.Alias root (Some cid)); Send m (CliCommand.Sync cid)]) ++
    (consumers ≫= sync_and_flush) ++
    (consumers ≫= check_blocks blocks)).

(** What a machine is told, in order. *)
Definition told (m : nat) (l : list action) : list CliCommand.t :=
  omap (fun a => match a with Send m' c => if decide (m' = m) then Some c else None | _ => None end) l.
End Harness.

(** ** Roles and names *)
Section RoleProps.
Context `{L : Libp2p} `{Pr : !Protocols} `{T : !CliText} `{BS : !BlockStores} `{N : !CliNode}.
Context (ip4_tcp : Z -> Z -> Multiaddr).

Lemma slice_ok {A} (l : list A) a b : a <= b -> b <= length l -> slice l a b ↓ take (b - a) (drop a l).
Proof. intros Ha Hb. unfold slice. by rewrite !decide_False by lia. Qed.

(** Three slices that lie next to each other. *)
Lemma slices_join {A} (l : list A) a b :
  a <= b -> b <= length l ->
  take a l ++ take (b - a) (drop a l) ++ take (length l - b) (drop b l) = l.
Proof.
  intros Ha Hb. rewrite (take_ge (drop b l)) by (rewrite length_drop; lia).
  replace (drop b l) with (drop (b - a) (drop a l)) by (rewrite drop_drop; f_equal; lia).
  by rewrite !take_drop.
Qed.

Definition role_name (r : Role) : string :=
  match r with Provider => "provider" | Consumer => "consumer" | Idle => "idle" end.

(** The names start with different letters. *)
Lemma role_name_inj r r' s s' : role_name r +:+ s = role_name r' +:+ s' -> r = r' /\ s = s'.
Proof. destruct r, r'; cbn; intros H; simplify_eq; done. Qed.

Lemma harness_node_name_spec opts i : exists r j,
  harness_node_name opts i = role_name r +:+ pretty j /\ i = (role_range opts r).1 + j /\
  (i < n_nodes opts -> i < (role_range opts r).2).
Proof.
  unfold harness_node_name. case_decide; [|case_decide].
  - exists Provider, i. cbn. split_and!; [done|lia|lia].
  - exists Consumer, (i - n_providers opts). cbn. split_and!; [done|lia|lia].
  - exists Idle, (i - n_providers opts - n_consumers opts). cbn. split_and!; [done|lia|lia].
Qed.

Definition entries (l : list Machine) : gmap nat (PeerId * Multiaddr) := list_to_map (node_entry ip4_tcp <$> l).

Lemma entries_ids l : (node_entry ip4_tcp <$> l).*1 = m_id <$> l.
Proof. by rewrite <- list_fmap_compose. Qed.

Lemma entries_disjoint l1 l2 :
  (forall i, i ∈ m_id <$> l1 -> i ∉ m_id <$> l2) -> entries l1 ##ₘ entries l2.
Proof.
  intros H. apply map_disjoint_spec. intros i x y H1%elem_of_list_to_map_2 H2%elem_of_list_to_map_2.
  apply (H i); rewrite <- entries_ids; apply list_elem_of_fmap; by eexists (i, _).
Qed.

Lemma entries_app l1 l2 : entries (l1 ++ l2) = entries l1 ∪ entries l2.
Proof. unfold entries. by rewrite fmap_app, list_to_map_app. Qed.

Lemma entries_size l : NoDup (m_id <$> l) -> size (entries l) = length l.
Proof.
  intros H. unfold entries. rewrite map_size_list_to_map by (by rewrite entries_ids). apply length_fmap.
Qed.

(** Roles.  If there are at least as many machines as providers and consumers, the
    three roles split the machines: nobody has two roles or none, each role has the
    number of machines it was given, and every machine is in the table under its own
    number with its own peer id.  No two machines have the same name, and the name says
    the role.  With fewer machines, asking for the consumers panics. *)
Theorem roles_partition (opts : HarnessOpts) (machines : list Machine) :
  length machines = n_nodes opts -> NoDup (m_id <$> machines) ->
  (n_providers opts + n_consumers opts <= n_nodes opts ->
     exists p c i,
       role ip4_tcp machines opts Provider ↓ p /\ role ip4_tcp machines opts Consumer ↓ c /\
       role ip4_tcp machines opts Idle ↓ i /\
       p ##ₘ c /\ p ∪ c ##ₘ i /\
       p ∪ c ∪ i = list_to_map (node_entry ip4_tcp <$> machines) /\
       size p = n_providers opts /\ size c = n_consumers opts) /\
  (n_nodes opts < n_providers opts + n_consumers opts ->
     is_done (role ip4_tcp machines opts Consumer) = false) /\
  (forall i j, harness_node_name opts i = harness_node_name opts j -> i = j) /\
  (forall i, i < n_nodes opts -> exists r (k : nat), harness_node_name opts i = role_name r +:+ pretty k /\
     (role_range opts r).1 <= i < (role_range opts r).2).
Proof.
  intros Hlen Hnd. split_and!.
  - intros Hle. set (np := n_providers opts) in *. set (nc := n_consumers opts) in *.
    set (l1 := take np machines). set (l2 := take (np + nc - np) (drop np machines)).
    set (l3 := take (n_nodes opts - (np + nc)) (drop (np + nc) machines)).
    assert (Hl : l1 ++ l2 ++ l3 = machines).
    { unfold l1, l2, l3. rewrite <- Hlen. apply slices_join; lia. }
    exists (entries l1), (entries l2), (entries l3).
    unfold role, nodes, role_range. fold np nc. cbn [fst snd].
    rewrite !slice_ok by lia. rewrite Nat.sub_0_r, drop_0. fold l1 l2 l3. cbn [mbind outcome_bind].
    rewrite <- Hl, !fmap_app in Hnd. apply NoDup_app in Hnd as (Hn1 & Hd1 & Hn23).
    apply NoDup_app in Hn23 as (Hn2 & Hd2 & Hn3). rewrite <- (entries_app l1 l2).
    split_and!; [done|done|done|..].
    + apply entries_disjoint. intros x Hx. specialize (Hd1 x Hx). set_solver.
    + apply entries_disjoint. intros x. rewrite fmap_app, elem_of_app. specialize (Hd1 x). set_solver.
    + rewrite <- entries_app, <- app_assoc, Hl. done.
    + rewrite entries_size by done. unfold l1. rewrite length_take. lia.
    + rewrite entries_size by done. unfold l2. rewrite length_take, length_drop. lia.
  - intros Hlt. unfold role, nodes, role_range, slice. cbn. rewrite decide_False by lia.
    by rewrite decide_True by lia.
  - intros i j H. destruct (harness_node_name_spec opts i) as (r & x & Hi & Hix & _).
    destruct (harness_node_name_spec opts j) as (r' & y & Hj & Hjy & _).
    rewrite Hi, Hj in H. apply role_name_inj in H as [-> H]. apply (inj pretty) in H. lia.
  - intros i Hi. destruct (harness_node_name_spec opts i) as (r & k & Hn & Hik & Hr). exists r, k.
    split; [done|]. specialize (Hr Hi). lia.
Qed.
End RoleProps.

(** ** Deadlines *)

Lemma from_millis_wf ms : (0 <= ms)%Z -> (ms / 1000 <= U64_MAX)%Z -> dur_wf (from_millis ms).
Proof.
  intros H0 H1. unfold dur_wf, from_millis, NANOS_PER_SEC. cbn [secs nanos].
  pose proof (Z.mod_pos_bound ms 1000 ltac:(lia)). pose proof (Z.div_pos ms 1000 H0 ltac:(lia)). lia.
Qed.

Lemma dur_sub_nanos a b :
  dur_wf a -> dur_wf b -> (as_nanos b <= as_nanos a)%Z ->
  exists c, dur_sub a b ↓ c /\ dur_wf c /\ as_nanos c = (as_nanos a - as_nanos b)%Z.
Proof.
  intros [Ha1 Ha2] [Hb1 Hb2] Hle. unfold dur_sub, checked_sub, as_nanos, dur_wf in *.
  unfold NANOS_PER_SEC in *. rewrite decide_True by lia. case_decide.
  - eexists. split; [done|]. cbn. lia.
  - rewrite decide_True by lia. eexists. split; [done|]. cbn. lia.
Qed.

(** Deadlines.  However much time has passed, [deadline] neither overflows nor
    underflows (as long as that time plus 100 ms is a [Duration]); it waits until [d]
    seconds after its start, and at least 100 ms. *)
Theorem deadline_exact elapsed d :
  dur_wf elapsed -> (0 <= d <= U64_MAX)%Z -> (as_nanos elapsed + 100000000 <= MAX_NANOS)%Z ->
  exists t, deadline elapsed d ↓ t /\ dur_wf t /\
    as_nanos t = Z.max 100000000 (d * NANOS_PER_SEC - as_nanos elapsed).
Proof.
  intros Hw Hd Hmax. unfold deadline.
  assert (H100 : dur_wf (from_millis 100) /\ as_nanos (from_millis 100) = 100000000%Z)
    by (split; [apply from_millis_wf; vm_compute; discriminate|reflexivity]).
  destruct H100 as [Hw100 H100].
  assert (Hwd : dur_wf (from_secs d)) by (split; cbn; [lia|vm_compute; split; [discriminate|reflexivity]]).
  assert (Hnd : as_nanos (from_secs d) = (d * NANOS_PER_SEC)%Z) by (unfold as_nanos; cbn; lia).
  destruct (dur_add_nanos elapsed (from_millis 100)) as (e & -> & Hwe & He); [done|done|by rewrite H100|].
  cbn [mbind outcome_bind]. rewrite H100 in He. case_decide as Hlt.
  - rewrite (dur_lt_nanos e (from_secs d)) in Hlt by done. rewrite Hnd in Hlt.
    destruct (dur_sub_nanos (from_secs d) elapsed) as (t & -> & Hwt & Ht); [done|done|lia|].
    exists t. rewrite Ht, Hnd. split_and!; [done|done|lia].
  - rewrite (dur_lt_nanos e (from_secs d)) in Hlt by done. rewrite Hnd in Hlt.
    exists (from_millis 100). rewrite H100. split_and!; [done|done|lia].
Qed.

Lemma deadline_exact_witness : exists t,
  deadline (mkDuration 4 950000000) 5 ↓ t /\ as_nanos t = 100000000%Z.
Proof.
  destruct (deadline_exact (mkDuration 4 950000000) 5) as (t & E & _ & Ht).
  - vm_compute. repeat split; discriminate.
  - vm_compute. split; discriminate.
  - vm_compute. discriminate.
  - exists t. split; [exact E|]. rewrite Ht. reflexivity.
Defined.

(** ** Events *)
Section WaitProps.
Context `{P : Profile} `{C : Chrono} `{L : Libp2p} `{Pr : !Protocols} `{T : !CliText}.

(** The harness and the node agree on which addresses are loopback. *)
Lemma harness_is_loopback_same (a : Multiaddr) : harness_is_loopback a = is_loopback a.
Proof.
  unfold harness_is_loopback, is_loopback. destruct (iter a) as [|[] l]; cbn; try done.
  by destruct (ip4_is_loopback _).
Qed.

(** The events a loop passes over. *)
Definition passed_over {A} (f : CliEvent.t -> option A) (x : received) : Prop :=
  match x with Late => False | Got None => True | Got (Some e) => f e = None end.

Lemma recv_until_skip {A} (f : CliEvent.t -> option A) before l :
  Forall (passed_over f) before -> recv_until f (before ++ l) = recv_until f l.
Proof. induction 1 as [|[|[e|]] before Hx _ IH]; cbn in *; [done|done|by rewrite Hx|done]. Qed.

(** A loop over events.  It ends with the first event it looks for, and with the events
    after it; it panics if the time is over before; while neither happens it goes on; so
    it does when the machine is gone: then every [recv] yields [None] at once, and the
    loop never returns. *)
Theorem recv_until_exact {A} (f : CliEvent.t -> option A) events :
  (forall before, Forall (passed_over f) before ->
     (forall e a after, f e = Some a -> events = before ++ Got (Some e) :: after ->
        recv_until f events = Some (Done (a, after))) /\
     (forall after, events = before ++ Late :: after -> exists w, recv_until f events = Some (Panic w))) /\
  (Forall (passed_over f) events <-> recv_until f events = None) /\
  (forall n, recv_until f (events ++ replicate n (Got None)) = None <-> recv_until f events = None).
Proof.
  assert (Hnone : forall l, Forall (passed_over f) l <-> recv_until f l = None).
  { induction l as [|x l IH]; [by split; [|constructor]|]. rewrite Forall_cons.
    destruct x as [|[e|]]; cbn; [naive_solver|destruct (f e); naive_solver|naive_solver]. }
  split_and!; [|apply Hnone|].
  - intros before Hb. split; [intros e a after He ->|intros after ->]; rewrite recv_until_skip by done; cbn; [by rewrite He|by eexists].
  - intros n. rewrite <- !Hnone, Forall_app. split; [naive_solver|]. intros H. split; [done|]. by apply Forall_replicate.
Qed.

(** The wait for a listener finds the first address that is not loopback. *)
Lemma wait_listener_spec events addr rest :
  wait_listener events = Some (Done (addr, rest)) ->
  is_loopback addr = false /\ exists before, events = before ++ Got (Some (CliEvent.NewListenAddr addr)) :: rest.
Proof.
  unfold wait_listener. induction events as [|x events IH]; cbn; [done|]. intros H.
  assert (Hgo : recv_until listener_addr events = Some (Done (addr, rest)) ->
    is_loopback addr = false /\ exists before, x :: events = before ++ Got (Some (CliEvent.NewListenAddr addr)) :: rest).
  { intros [Ha [b Hb]]%IH. split; [done|]. exists (x :: b). by rewrite Hb. }
  destruct x as [|[e|]]; [done| |by apply Hgo]. destruct (listener_addr e) as [a|] eqn:E; [|by apply Hgo].
  injection H as -> ->. destruct e; cbn in E; try done. rewrite harness_is_loopback_same in E.
  case_match eqn:El; [|done]. injection E as ->. apply negb_true_iff in El. split; [done|]. by exists [].
Qed.
End WaitProps.

(** ** The commands of the bitswap test *)
Section ScriptProps.
Context `{L : Libp2p} `{Pr : !Protocols} `{T : !CliText}.

Lemma told_app m l1 l2 : told m (l1 ++ l2) = told m l1 ++ told m l2.
Proof. apply omap_app. Qed.

(** Actions of [f m] concern machine [m] only. *)
Definition own_machine (f : nat -> list action) : Prop := forall m m', m' <> m -> told m' (f m) = [].

Lemma told_bind f m (ms : list nat) :
  own_machine f -> NoDup ms -> told m (ms ≫= f) = if decide (m ∈ ms) then told m (f m) else [].
Proof.
  intros Hf Hnd. induction Hnd as [|x ms Hx Hnd IH]; [done|].
  change ((x :: ms) ≫= f) with (f x ++ (ms ≫= f)). rewrite told_app, IH.
  destruct (decide (m = x)) as [->|Hne].
  - rewrite decide_False by done. rewrite decide_True by apply list_elem_of_here. apply app_nil_r.
  - rewrite Hf by done. cbn. repeat case_decide; set_solver.
Qed.

Lemma told_fmap_send m m' {A} (f : A -> CliCommand.t) (l : list A) :
  told m ((fun x => Send m' (f x)) <$> l) = if decide (m' = m) then f <$> l else [].
Proof.
  induction l as [|x l IH]; cbn; [by case_decide|]. unfold told in IH. rewrite IH. by case_decide.
Qed.

Lemma send_tree_own root cid blocks : own_machine (send_tree root cid blocks).
Proof.
  intros m m' Hne. unfold send_tree. cbn. rewrite decide_False by congruence.
  change (told m' ((fun b => Send m (CliCommand.Insert b)) <$> rev blocks) = []).
  rewrite (told_fmap_send m' m CliCommand.Insert). by rewrite decide_False by congruence.
Qed.

Lemma told_send_tree root cid blocks m :
  told m (send_tree root cid blocks m) = CliCommand.Alias root (Some cid) :: (CliCommand.Insert <$> rev blocks).
Proof.
  unfold send_tree. cbn. rewrite decide_True by done. f_equal.
  change (told m ((fun b => Send m (CliCommand.Insert b)) <$> rev blocks) = CliCommand.Insert <$> rev blocks).
  rewrite (told_fmap_send m m CliCommand.Insert). by rewrite decide_True.
Qed.

Lemma told_awaits m (f : nat -> action) (l : list nat) :
  (forall x m' c, f x <> Send m' c) -> told m (f <$> l) = [].
Proof.
  intros Hf. induction l as [|x l IH]; cbn; [done|]. unfold told in IH. rewrite IH.
  destruct (f x) eqn:E; try done. by apply Hf in E.
Qed.

Lemma check_blocks_own blocks : own_machine (check_blocks blocks).
Proof.
  intros m m' Hne. induction blocks as [|b bs IH]; [done|]. unfold check_blocks in *. cbn.
  by rewrite decide_False by congruence.
Qed.

Lemma told_check_blocks blocks m : told m (check_blocks blocks m) = CliCommand.Get ∘ block_cid <$> blocks.
Proof.
  induction blocks as [|b bs IH]; [done|]. unfold check_blocks in *. cbn. rewrite decide_True by done.
  by f_equal.
Qed.

(** The trees that are only there to be in the way. *)
Definition spam_commands (spam : list (Cid * list Block)) : list CliCommand.t :=
  mjoin (imap (fun i '(c, bs) =>
    CliCommand.Alias (txt ("passive-" +:+ pretty i)) (Some c) :: (CliCommand.Insert <$> rev bs)) spam).

Lemma told_spam m n spam : m < n ->
  told m (mjoin (imap (fun i '(c, bs) =>
    m ← seq 0 n; send_tree (txt ("passive-" +:+ pretty i)) c bs m) spam)) = spam_commands spam.
Proof.
  intros Hm. unfold spam_commands.
  assert (H : forall g : nat -> string, told m (mjoin (imap (fun i '(c, bs) =>
      m ← seq 0 n; send_tree (txt (g i)) c bs m) spam)) =
    mjoin (imap (fun i '(c, bs) =>
      CliCommand.Alias (txt (g i)) (Some c) :: (CliCommand.Insert <$> rev bs)) spam));
    [|apply (H (fun i => "passive-" +:+ pretty i))].
  induction spam as [|[c bs] spam IH]; intros g; [done|]. cbn [imap mjoin list_join].
  rewrite told_app, told_bind; [|apply send_tree_own|apply NoDup_ListNoDup, seq_NoDup].
  rewrite decide_True by (apply elem_of_seq; lia). rewrite told_send_tree. f_equal.
  exact (IH (fun i => g (S i))).
Qed.

Lemma told_all m n c : m < n -> told m ((fun m => Send m c) <$> seq 0 n) = [c].
Proof.
  intros Hm.
  assert (H : forall l, NoDup l -> told m ((fun m => Send m c) <$> l) = if decide (m ∈ l) then [c] else []).
  { intros l Hl. induction Hl as [|x l Hx Hl IH]; [done|]. cbn. unfold told in IH. rewrite IH.
    repeat case_decide; set_solver. }
  rewrite H by apply NoDup_ListNoDup, seq_NoDup. rewrite decide_True; [done|]. apply elem_of_seq. lia.
Qed.

Lemma slice_seq n a b : a <= b -> b <= n -> slice (seq 0 n) a b ↓ seq a (b - a).
Proof.
  intros Ha Hb. rewrite slice_ok by (rewrite ?length_seq; lia).
  rewrite drop_seq, take_seq. f_equal. f_equal; lia.
Qed.

(** What the bitswap test tells each machine.  The providers get the tree, its alias
    first and then its blocks from the root downwards, before the one flush that everyone
    gets; only then the consumers are told to sync, flushed, and asked for each block of
    the tree in turn; idle machines only get the data that is in the way.  The test
    panics if there are fewer machines than providers and consumers. *)
Theorem bitswap_script_commands opts n root spam cid (blocks : list Block) :
  let np := n_providers opts in let nc := n_consumers opts in
  (np + nc <= n -> exists script, bitswap_script opts n root spam cid blocks ↓ script /\
     forall m, m < n -> told m script =
       spam_commands spam ++
       (if decide (m < np) then CliCommand.Alias root (Some cid) :: (CliCommand.Insert <$> rev blocks) else []) ++
       [CliCommand.Flush] ++
       (if decide (np <= m < np + nc) then
          [CliCommand.Alias root (Some cid); CliCommand.Sync cid; CliCommand.Flush] ++
          (CliCommand.Get ∘ block_cid <$> blocks)
        else [])) /\
  (n < np + nc -> is_done (bitswap_script opts n root spam cid blocks) = false).
Proof.
  intros np nc. split.
  - intros Hle. unfold bitswap_script. fold np nc. rewrite !slice_seq by lia. cbn [mbind outcome_bind].
    eexists. split; [done|]. intros m Hm. rewrite !told_app, told_spam by done.
    rewrite Nat.sub_0_r. replace (np + nc - np) with nc by lia. f_equal.
    rewrite told_bind; [|apply send_tree_own|apply NoDup_ListNoDup, seq_NoDup].
    rewrite told_all by done. rewrite told_awaits by done.
    rewrite told_bind; [|by intros x y Hxy; cbn; rewrite !decide_False by congruence|apply NoDup_ListNoDup, seq_NoDup].
    rewrite told_bind; [|by intros x y Hxy; cbn; rewrite !decide_False by congruence|apply NoDup_ListNoDup, seq_NoDup].
    rewrite told_bind; [|apply check_blocks_own|apply NoDup_ListNoDup, seq_NoDup].
    rewrite told_send_tree, told_check_blocks. f_equal.
    { repeat case_decide; set_unfold; try done; lia. }
    cbn [app]. f_equal. destruct (decide (np <= m < np + nc)) as [Hin|Hout].
    + rewrite !(decide_True (P := m ∈ seq np nc)) by (apply elem_of_seq; lia).
      unfold told, sync_and_flush. cbn. by rewrite !decide_True by done.
    + by rewrite !(decide_False (P := m ∈ seq np nc)) by (rewrite elem_of_seq; lia).
  - intros Hlt. unfold bitswap_script. fold np nc. unfold slice. rewrite length_seq.
    repeat (case_decide; [cbn; try done|]); try lia. done.
Qed.
End ScriptProps.

(** ** A machine under test: the lines it is sent and what it prints *)
Section Session.
Context `{P : Profile} `{C : Chrono} `{L : Libp2p} `{Ch : Channels} `{HO : HashOrder}.
Context `{Pr : !Protocols} `{Sw : !SwarmOps} `{CC : !CommandChannel} `{Bu : !Builders}.
Context `{T : !CliText} `{BS : !BlockStores} `{N : !CliNode}.
Context {SL : StoreLaws} {CCL : CommandChannelLaws} {TL : CliTextLaws} {NL : CliNodeLaws}.

Definition run_commands (m : Meanwhile) (c : Console) (cmds : list CliCommand.t) : outcome Console :=
  foldM (fun c cmd => handle_line m c (show_command cmd)) c cmds.

(** The storage does what it is asked. *)
Definition storage_works (alias : Text) : Prop := forall st,
  (forall c, is_ok (ipfs_alias st (as_bytes alias) c).2 = true) /\
  (forall b, is_ok (ipfs_insert st (block_cid b) (block_into_data b)).2 = true) /\
  (forall c, is_Some (v_blocks (st_view st) !! c) -> is_ok (ipfs_get st c).2 = true).

(** A line that is handled: what changes is the store and what is printed. *)
Definition handled (m : Meanwhile) (c : Console) (cmd : CliCommand.t) (said : list Text)
    (P : store_view -> Prop) : Prop :=
  exists c', handle_line m c (show_command cmd) ↓ c' /\ stdout c' = stdout c ++ said /\
    stderr c' = stderr c /\ P (st_view (node c')).

Lemma alias_line m c alias cid :
  storage_works alias -> word alias ->
  handled m c (CliCommand.Alias alias (Some cid)) []
    (fun v => v_blocks v = v_blocks (st_view (node c))).
Proof.
  intros Hs Hw. unfold handled, handle_line.
  rewrite (command_reads_back (CliCommand.Alias alias (Some cid))) by done.
  cbn -[show_command show_event]. destruct (Hs (node c)) as (Ha & _).
  specialize (Ha (Some cid)). unfold conclude.
  destruct (ipfs_alias (node c) (as_bytes alias) (Some cid)) as [st [[]|e]] eqn:E; [|done].
  eexists. split; [done|]. cbn. rewrite app_nil_r. split_and!; [done..|].
  pose proof (st_alias_view (node c) (as_bytes alias) (Some cid) st E) as Hv. cbn in Hv. by rewrite Hv.
Qed.

Lemma insert_line m c b alias :
  storage_works alias -> block_data b <> [] ->
  handled m c (CliCommand.Insert b) []
    (fun v => v_blocks v = <[block_cid b := block_into_data b]> (v_blocks (st_view (node c)))).
Proof.
  intros Hs Hb. unfold handled, handle_line.
  rewrite (command_reads_back (CliCommand.Insert b)) by done.
  cbn -[show_command show_event]. destruct (Hs (node c)) as (_ & Hi & _). specialize (Hi b). unfold conclude.
  destruct (ipfs_insert (node c) (block_cid b) (block_into_data b)) as [st [[]|e]] eqn:E; [|done].
  eexists. split; [done|]. cbn. rewrite app_nil_r. split_and!; [done..|].
  pose proof (st_insert_view (node c) (block_cid b, block_into_data b) st E) as Hv. cbn in Hv. by rewrite Hv.
Qed.

Lemma get_line m c b alias :
  storage_works alias -> v_blocks (st_view (node c)) !! block_cid b = Some (block_into_data b) ->
  handled m c (CliCommand.Get (block_cid b)) [show_event (CliEvent.BlockEvent b)]
    (fun v => v = st_view (node c)).
Proof.
  intros Hs Hb. unfold handled, handle_line.
  rewrite (command_reads_back (CliCommand.Get (block_cid b))) by done.
  cbn -[show_command show_event]. destruct (Hs (node c)) as (_ & _ & Hg). specialize (Hg (block_cid b) ltac:(by eexists)).
  unfold conclude. destruct (ipfs_get (node c) (block_cid b)) as [st [[c' d]|e]] eqn:E; [|done].
  pose proof (st_get_view (node c) (block_cid b) st (c', d) E) as (Hc & Hd & Hv). cbn in Hc, Hd, Hv.
  cbn in Hb. rewrite Hb in Hd. injection Hd as <-. subst c'.
  eexists. split; [done|]. cbn -[show_event]. rewrite new_unchecked_parts. split_and!; [done|done|exact Hv].
Qed.

Definition same_name (bs : list Block) : Prop :=
  forall b b', b ∈ bs -> b' ∈ bs -> block_cid b = block_cid b' -> b = b'.

Lemma insert_lines m c bs alias :
  storage_works alias -> Forall (fun b => block_data b <> []) bs -> same_name bs ->
  exists c', run_commands m c (CliCommand.Insert <$> bs) ↓ c' /\ stdout c' = stdout c /\ stderr c' = stderr c /\
    forall b, b ∈ bs -> v_blocks (st_view (node c')) !! block_cid b = Some (block_into_data b).
Proof.
  intros Hs Hb Hn. induction bs as [|b bs IH] using rev_ind.
  { exists c. split_and!; [done..|]. by intros b ?%not_elem_of_nil. }
  apply Forall_app in Hb as [Hbs Hb]. rewrite Forall_singleton in Hb.
  destruct IH as (c1 & E1 & Ho1 & He1 & Hv1); [done|intros x y Hx Hy; apply Hn; set_solver|].
  destruct (insert_line m c1 b alias Hs Hb) as (c2 & E2 & Ho2 & He2 & Hv2). cbv beta in Hv2. rewrite app_nil_r in Ho2.
  exists c2. unfold run_commands in *. rewrite fmap_app, foldM_app, E1. cbn [fmap list_fmap foldM mbind outcome_bind].
  rewrite E2. cbn [mbind outcome_bind]. split_and!; [done|congruence|congruence|].
  intros x Hx. rewrite Hv2. destruct (decide (block_cid b = block_cid x)) as [E|Hne].
  - rewrite E, lookup_insert_eq. by rewrite (Hn b x) by (set_solver || done).
  - rewrite lookup_insert_ne by done. apply Hv1. apply elem_of_app in Hx as [?|Hx]; [done|].
    apply list_elem_of_singleton in Hx. congruence.
Qed.

Lemma get_lines m c bs alias :
  storage_works alias ->
  (forall b, b ∈ bs -> v_blocks (st_view (node c)) !! block_cid b = Some (block_into_data b)) ->
  exists c', run_commands m c (CliCommand.Get ∘ block_cid <$> bs) ↓ c' /\
    stdout c' = stdout c ++ ((fun b => show_event (CliEvent.BlockEvent b)) <$> bs) /\ stderr c' = stderr c.
Proof.
  intros Hs. revert c. induction bs as [|b bs IH]; intros c Hb.
  { exists c. cbn. by rewrite app_nil_r. }
  destruct (get_line m c b alias Hs) as (c1 & E1 & Ho1 & He1 & Hv1); [apply Hb; left|]. cbv beta in Hv1.
  destruct (IH c1) as (c' & E & Ho & He); [intros x Hx; rewrite Hv1; apply Hb; by right|].
  exists c'. unfold run_commands in *. rewrite fmap_cons. cbn [foldM].
  change ((CliCommand.Get ∘ block_cid) b) with (CliCommand.Get (block_cid b)). rewrite E1.
  cbn [mbind outcome_bind]. rewrite E. split_and!; [done| |congruence].
  rewrite Ho, Ho1, <- app_assoc. done.
Qed.

(** C27: a session of the command line tool.  It is given the printed lines of commands: an
    alias (one word), insertions of any blocks, and then a request for each of them.  If
    the storage does what it is asked without an error, nothing is collected in between,
    no block is empty and blocks with the same CID are the same, then the tool prints
    exactly these blocks, in the order asked, nothing else, and reports no error. *)
Theorem console_session m c alias cid bs :
  storage_works alias -> word alias -> Forall (fun b => block_data b <> []) bs -> same_name bs ->
  exists c', run_commands m c (CliCommand.Alias alias (Some cid) :: (CliCommand.Insert <$> rev bs) ++
                               (CliCommand.Get ∘ block_cid <$> bs)) ↓ c' /\
    stdout c' = stdout c ++ ((fun b => show_event (CliEvent.BlockEvent b)) <$> bs) /\ stderr c' = stderr c.
Proof.
  intros Hs Hw Hb Hn. destruct (alias_line m c alias cid Hs Hw) as (c1 & E1 & Ho1 & He1 & _).
  rewrite app_nil_r in Ho1.
  assert (Hrev : forall b, b ∈ rev bs <-> b ∈ bs) by (intros; by rewrite !list_elem_of_In, <- in_rev).
  destruct (insert_lines m c1 (rev bs) alias) as (c2 & E2 & Ho2 & He2 & Hv2); [done| | |].
  { rewrite Forall_forall in *. intros b ?%Hrev. by apply Hb. }
  { intros x y Hx%Hrev Hy%Hrev. by apply Hn. }
  destruct (get_lines m c2 bs alias Hs) as (c3 & E3 & Ho3 & He3); [intros b Hin; apply Hv2; by apply Hrev|].
  exists c3. unfold run_commands in *. cbn [foldM]. rewrite E1. cbn [mbind outcome_bind].
  rewrite foldM_app, E2. cbn [mbind outcome_bind]. rewrite E3. split_and!; [done|congruence|congruence].
Qed.
End Session.

Section HarnessWitness.
Import SimMain.

Definition ip4 (a p : Z) : @Multiaddr sim := [Ip4 a; Tcp p].
Definition three_nodes : HarnessOpts := mkHarnessOpts 3 1 1 0 0 false 10 4 false.
Definition three_machines : list Machine := [mkMachine 0 10; mkMachine 1 11; mkMachine 2 12].

Lemma roles_partition_witness : exists p,
  role (N := sim_node) ip4 three_machines three_nodes Provider ↓ p /\ size p = 1.
Proof.
  destruct (roles_partition (N := sim_node) ip4 three_nodes three_machines) as (H & _).
  - reflexivity.
  - apply (bool_decide_unpack _). vm_compute. exact I.
  - destruct H as (p & c & i & E & _ & _ & _ & _ & _ & Hp & _); [cbn; lia|].
    exists p. split; [exact E|exact Hp].
Defined.

(** The first machine provides one block, the second asks for it. *)
Lemma bitswap_script_commands_witness : exists script,
  bitswap_script three_nodes 3 (txt "root") [] (Cli.block_cid hello) [hello] ↓ script /\
  told 2 script = [CliCommand.Flush].
Proof.
  destruct (bitswap_script_commands three_nodes 3 (txt "root") [] (Cli.block_cid hello) [hello]) as [H _].
  destruct H as (script & E & Ht); [cbn; lia|]. exists script. split; [exact E|].
  rewrite Ht by lia. reflexivity.
Defined.

Lemma recv_until_exact_witness :
  wait_connected (2%N : @PeerId sim) [Got None; Got (Some (CliEvent.Connected (2%N : @PeerId sim))); Got None] =
  Some (Done (Ok tt, [Got None])).
Proof.
  apply (proj1 (recv_until_exact (reached (2%N : @PeerId sim))
    [Got None; Got (Some (CliEvent.Connected (2%N : @PeerId sim))); Got None]) [Got None]) with
    (e := CliEvent.Connected (2%N : @PeerId sim)); [repeat constructor|reflexivity|reflexivity].
Defined.

Lemma console_session_witness : exists c',
  run_commands meanwhile console (CliCommand.Alias (txt "root") (Some (Cli.block_cid hello)) ::
    (CliCommand.Insert <$> rev [hello]) ++ (CliCommand.Get ∘ Cli.block_cid <$> [hello])) ↓ c' /\
  stdout c' = [show_event (CliEvent.BlockEvent hello)].
Proof.
  destruct (console_session meanwhile console (txt "root") (Cli.block_cid hello) [hello]) as (c' & E & Ho & _).
  - intros st. split; [intros c; reflexivity|]. split; [intros b; reflexivity|].
    intros c [d Hd]. unfold ipfs_get, lookup_block. cbn in *. rewrite Hd. reflexivity.
  - apply (bool_decide_unpack _). vm_compute. exact I.
  - repeat constructor. discriminate.
  - intros b b' Hb Hb' _. apply list_elem_of_singleton in Hb, Hb'. congruence.
  - exists c'. split; [exact E|exact Ho].
Defined.
End HarnessWitness.
