(* ===== verification/NetSim.v ===== *)
(** * Starting the machines of a test (harness/src/lib.rs, harness/src/bin)

    A test builds the command line tool ([build_bin]), starts machines that run it on the
    networks of a simulator ([run_netsim]; the tests with a NAT add a network and machines
    of their own) and then runs its script ([Discovery], [Harness], [SimOpen]).  The
    simulator is an interface: what the harness asks of it and what can be seen of it.

    Shown: every machine runs the tool with the configuration meant for it, and the peer
    id by which the harness knows it, and by which it introduces it to the other machines,
    is the one the tool computes from that configuration; machines of one network have
    different addresses; the tests with a NAT have two different networks with one route
    between them, the providers on one and the consumers on the other. *)
From stdpp Require Import pretty.
From S2P Require Import Prelude Time Libp2p PeerInfo AddressHandler Peers Protocols Net Service.
From S2P Require Import Config Cli CliProps Db Ipfs Main Args Harness Discovery.

(** ** Building the tool *)
Section BuildBin.
Context {E : Type}.

(** Messages of the build, with the texts that are printed of them. *)
Inductive build_message :=
| BuildFinished (x : Text)
| CompilerArtifact (fresh : bool) (package_id : Text)
| CompilerMessage (rendered : option Text)
| BuildScriptExecuted
| UnknownMessage.

Definition printed_message (m : build_message) : option Text :=
  match m with
  | BuildFinished x => Some x
  | CompilerArtifact fresh package_id => if negb fresh then Some package_id else None
  | CompilerMessage rendered => rendered
  | BuildScriptExecuted | UnknownMessage => None
  end.

(** What is printed, and how the loop ends; a message may fail to arrive and to decode. *)
Fixpoint build_messages (l : list (result (result build_message E) E)) : list Text * result unit E :=
  match l with
  | [] => ([], Ok tt)
  | Err e :: _ | Ok (Err e) :: _ => ([], Err e)
  | Ok (Ok m) :: l =>
      let '(out, r) := build_messages l in
      (match printed_message m with Some t => t :: out | None => out end, r)
  end.

Definition build_bin (exec : result (list (result (result build_message E) E)) E) : list Text * result unit E :=
  match exec with
  | Err e => ([], Err e)
  | Ok l => build_messages l
  end.

(** The build succeeds if and only if it starts and every message arrives and decodes;
    then what is printed is, in order, what there is to print of each. *)
Lemma build_bin_exact exec out :
  build_bin exec = (out, Ok tt) <->
  exists ms, exec = Ok ((fun m => Ok (Ok m)) <$> ms) /\ out = omap printed_message ms.
Proof.
  split.
  - destruct exec as [l|e]; [|done]. cbn. revert out. induction l as [|[[m|e]|e] l IH]; intros out; cbn; try done.
    { intros [= <-]. by exists []. }
    destruct (build_messages l) as [out' r]. intros [= <- ->].
    destruct (IH out' eq_refl) as (ms & [= ->] & ->). exists (m :: ms). split; [done|]. cbn. by case_match.
  - intros (ms & -> & ->). cbn. induction ms as [|m ms IH]; [done|]. cbn. rewrite IH. by case_match.
Qed.
(** A build without errors. *)
Lemma built_ok (ms : list build_message) : (build_bin (Ok ((fun m => Ok (Ok m)) <$> ms))).2 = Ok tt.
Proof.
  by rewrite (proj2 (build_bin_exact (Ok ((fun m => Ok (Ok m)) <$> ms)) (omap printed_message ms))) by (by exists ms).
Qed.
End BuildBin.

(** ** The simulator *)

(** The forwarded TCP ports of a NAT with the socket address each leads to. *)
Record NatConfig := mkNatConfig { forward_ports : list (Z * (Z * Z)) }.
Definition NatConfig_default : NatConfig := mkNatConfig [].

Class Netsim := {
  Simulator : Type;
  Ipv4Range : Type;
  Ipv4Range_eq_dec :: EqDecision Ipv4Range;
  netsim_new : Simulator;
  spawn_network : Simulator -> Ipv4Range -> Simulator * nat;
  spawn_machine : Simulator -> list Text -> option Duration -> Simulator * nat;
  plug : Simulator -> nat -> nat -> Simulator;
  add_nat_route : Simulator -> NatConfig -> nat -> nat -> Simulator;
  (* what can be seen of it *)
  machines : Simulator -> list Machine;
  networks : Simulator -> list Ipv4Range;
  commands : Simulator -> list (list Text * option Duration);
  plugged : Simulator -> gmap nat nat;
  nat_routes : Simulator -> list (NatConfig * nat * nat)
}.

(** Machines and networks are numbered in the order they are started; a machine that is
    plugged into a network gets an address nobody else has there. *)
Class NetsimLaws `{NS : Netsim} : Prop := {
  new_empty : machines netsim_new = [] /\ networks netsim_new = [] /\ commands netsim_new = [] /\
    plugged netsim_new = ∅ /\ nat_routes netsim_new = [];
  spawn_network_view s r : let '(s', n) := spawn_network s r in
    n = length (networks s) /\ networks s' = networks s ++ [r] /\ machines s' = machines s /\
    commands s' = commands s /\ plugged s' = plugged s /\ nat_routes s' = nat_routes s;
  spawn_machine_view s args delay : let '(s', m) := spawn_machine s args delay in
    m = length (machines s) /\ (exists a, machines s' = machines s ++ [mkMachine m a]) /\
    commands s' = commands s ++ [(args, delay)] /\
    networks s' = networks s /\ plugged s' = plugged s /\ nat_routes s' = nat_routes s;
  plug_view s m n x : machines s !! m = Some x -> n < length (networks s) -> exists a,
    machines (plug s m n) = <[m := mkMachine (m_id x) a]> (machines s) /\
    plugged (plug s m n) = <[m := n]> (plugged s) /\
    (forall i y, plugged s !! i = Some n -> machines s !! i = Some y -> i <> m -> m_addr y <> a) /\
    commands (plug s m n) = commands s /\ networks (plug s m n) = networks s /\
    nat_routes (plug s m n) = nat_routes s;
  add_nat_route_view s c a b : nat_routes (add_nat_route s c a b) = nat_routes s ++ [(c, a, b)] /\
    machines (add_nat_route s c a b) = machines s /\ networks (add_nat_route s c a b) = networks s /\
    commands (add_nat_route s c a b) = commands s /\ plugged (add_nat_route s c a b) = plugged s
}.

Section Start.
Context `{L : Libp2p} `{Pr : !Protocols} `{T : !CliText} `{BS : !BlockStores} `{N : !CliNode} `{HO : HashOrder}.
Context `{NS : Netsim} {E : Type}.
Context (ip4_tcp : Z -> Z -> Multiaddr).

(** ["/ip4/0.0.0.0/tcp/30000".parse().unwrap()]. *)
Context (any_30000 : Multiaddr).

(** The command of a machine; [found]: is the tool where it is expected? *)
Definition command_from (found : bool) (config : CliConfig) : outcome (list Text) :=
  if negb found then Panic "failed to find the ipfs-embed-cli binary" else Done (cli_args config).

Definition start_machine (found : bool) (delay : option Duration) (net : nat) (sim : Simulator) (cfg : CliConfig) :
    outcome Simulator :=
  cmd ← command_from found cfg;
  let '(sim, machine) := spawn_machine sim cmd delay in
  Done (plug sim machine net).

(** [unshared] and [temp_dir] are the results of [unshare_user] and [TempDir::new],
    [range] is the random range of the network. *)
Definition run_netsim {A} (unshared : result unit E) (temp_dir : result string E) (opts : HarnessOpts)
    (range : Ipv4Range) (found : bool) (f : Simulator -> HarnessOpts -> nat -> string -> outcome (result A E)) :
    outcome (result A E) :=
  match unshared with
  | Err e => Done (Err e)
  | Ok _ =>
      match temp_dir with
      | Err e => Done (Err e)
      | Ok dir =>
          let '(sim, net) := spawn_network netsim_new range in
          sim ← foldM (start_machine found (Some (from_millis (delay_ms opts))) net) sim
                  (harness_config opts dir any_30000 <$> seq 0 (n_nodes opts));
          f sim opts net dir
      end
  end.

(** ** The machines behind a NAT *)

(** [range_b] is what the loop over random ranges ends with. *)
Definition nat_machines (found : bool) (opts : HarnessOpts) (dir : string) (net_b : nat) (sim : Simulator) :
    outcome Simulator :=
  foldM (start_machine found None net_b) sim (nat_consumer_configs opts dir any_30000).

Definition discover_nat_start (found : bool) (range_b : Ipv4Range) (sim : Simulator) (opts : HarnessOpts) (net_a : nat)
    (dir : string) : outcome (Simulator * script unit) :=
  let '(sim, net_b) := spawn_network sim range_b in
  let sim := add_nat_route sim NatConfig_default net_a net_b in
  sim ← nat_machines found opts dir net_b sim;
  s ← discover_nat_main ip4_tcp opts (machines sim);
  Done (sim, s).

Definition discover_nat_forward_start (found : bool) (range_b : Ipv4Range) (sim : Simulator) (opts : HarnessOpts)
    (net_a : nat) (dir : string) : outcome (Simulator * script unit) :=
  let '(sim, net_b) := spawn_network sim range_b in
  sim ← nat_machines found opts dir net_b sim;
  '(port, target, s) ← discover_nat_forward_main ip4_tcp opts (machines sim);
  let nat := mkNatConfig [(port, target)] in
  Done (add_nat_route sim nat net_a net_b, s).

(** The loop draws ranges until one is not that of the first network; [None] while it
    has not found one. *)
Definition behind_nat {A} (draws : list Ipv4Range)
    (start : Ipv4Range -> Simulator -> HarnessOpts -> nat -> string -> outcome A)
    (sim : Simulator) (opts : HarnessOpts) (net_a : nat) (dir : string) : outcome (option A) :=
  range_a ← unwrap "index out of bounds" (networks sim !! net_a);
  match other_range range_a draws with
  | None => Done None
  | Some range_b => a ← start range_b sim opts net_a dir; Done (Some a)
  end.

(** The programs: build the tool, start the machines; what is left is the script. *)
Definition program {A} (exec : result (list (result (result build_message E) E)) E) (unshared : result unit E)
    (temp_dir : result string E) (opts : HarnessOpts) (range : Ipv4Range) (found : bool)
    (f : Simulator -> HarnessOpts -> nat -> string -> outcome A) : outcome (result A E) :=
  match (build_bin exec).2 with
  | Err e => Done (Err e)
  | Ok _ => run_netsim unshared temp_dir opts range found (fun sim opts net dir => a ← f sim opts net dir; Done (Ok a))
  end.

Definition discover_plain_program exec unshared temp_dir opts range found : outcome (result (Simulator * script unit) E) :=
  program exec unshared temp_dir opts range found (fun sim opts _ _ =>
    s ← discover_plain_main ip4_tcp opts (machines sim); Done (sim, s)).
Definition discover_nat_program exec unshared temp_dir opts range draws found :
    outcome (result (option (Simulator * script unit)) E) :=
  program exec unshared temp_dir opts range found (behind_nat draws (discover_nat_start found)).
Definition discover_nat_forward_program exec unshared temp_dir opts range draws found :
    outcome (result (option (Simulator * script unit)) E) :=
  program exec unshared temp_dir opts range found (behind_nat draws (discover_nat_forward_start found)).

(** The bitswap test collects where the machines listen ([evs] is what each prints; [None]
    while one does not) and runs its script; [root], [spam], [cid] and [blocks] are the
    alias and the trees that were built. *)
Fixpoint wait_all (evs : nat -> list received) (ms : list Machine) : option (outcome (list (PeerId * Multiaddr))) :=
  match ms with
  | [] => Some (Done [])
  | machine :: ms =>
      match wait_listener (evs (m_id machine)) with
      | None => None
      | Some (Panic w) => Some (Panic w)
      | Some (Done (addr, _)) =>
          match wait_all evs ms with
          | Some (Done peers) => Some (Done ((machine_peer_id machine, addr) :: peers))
          | r => r
          end
      end
  end.

Definition bitswap_start (evs : nat -> list received) (root : Text) (spam : list (Cid * list Block)) (cid : Cid)
    (blocks : list Block) (sim : Simulator) (opts : HarnessOpts) :
    outcome (option (list (PeerId * Multiaddr) * list action)) :=
  match wait_all evs (machines sim) with
  | None => Done None
  | Some (Panic w) => Panic w
  | Some (Done peers) =>
      s ← bitswap_script opts (length (machines sim)) root spam cid blocks;
      Done (Some (peers, s))
  end.

Definition bitswap_program exec unshared temp_dir opts range found evs root spam cid blocks :
    outcome (result (option (list (PeerId * Multiaddr) * list action)) E) :=
  program exec unshared temp_dir opts range found (fun sim opts _ _ => bitswap_start evs root spam cid blocks sim opts).
End Start.

(** ** What is running in the end *)
Section StartProps.
Context `{P : Profile} `{C : Chrono} `{L : Libp2p} `{Ch : Channels} `{HO : HashOrder}.
Context `{Pr : !Protocols} `{Sw : !SwarmOps} `{CC : !CommandChannel} `{Bu : !Builders}.
Context `{T : !CliText} `{BS : !BlockStores} `{N : !CliNode}.
Context {TL : CliTextLaws} `{SO : !StructOpt} {SOL : StructOptLaws}.
Context `{NS : Netsim} {NL : NetsimLaws} {LL : Libp2pLaws} {E : Type}.
Context (ip4_tcp : Z -> Z -> Multiaddr) (ip4_tcp_iter : forall a p, iter (ip4_tcp a p) = [Ip4 a; Tcp p]).
Context (any_30000 : Multiaddr) (any_30000_iter : iter any_30000 = [Ip4 0; Tcp 30000]).

(** A machine that was asked for: configuration, delay and network. *)
Record job := mkJob { job_config : CliConfig; job_delay : option Duration; job_net : nat }.

(** The machines of [s] are those that were asked for, in this order. *)
Record Up (s : Simulator) (jobs : list job) : Prop := {
  up_ids : m_id <$> machines s = seq 0 (length jobs);
  up_commands : commands s = (fun j => (cli_args (job_config j), job_delay j)) <$> jobs;
  up_plugged i : plugged s !! i = job_net <$> jobs !! i;
  up_addresses i j x y : i <> j -> machines s !! i = Some x -> machines s !! j = Some y ->
    plugged s !! i = plugged s !! j -> m_addr x <> m_addr y
}.

Lemma up_length s jobs : Up s jobs -> length (machines s) = length jobs.
Proof. intros [H _ _ _]. by rewrite <- (length_fmap m_id), H, length_seq. Qed.

Lemma up_machine s jobs i x : Up s jobs -> machines s !! i = Some x -> m_id x = i.
Proof.
  intros [H _ _ _] Hx. assert (Hi : (m_id <$> machines s) !! i = Some (m_id x)) by (by rewrite list_lookup_fmap, Hx).
  rewrite H in Hi. apply lookup_seq in Hi as [-> _]. done.
Qed.

Lemma start_machine_up s jobs delay net cfg :
  Up s jobs -> net < length (networks s) ->
  exists s', start_machine true delay net s cfg ↓ s' /\ Up s' (jobs ++ [mkJob cfg delay net]) /\
    networks s' = networks s /\ nat_routes s' = nat_routes s.
Proof.
  intros Hup Hnet. unfold start_machine. cbn [command_from negb mbind outcome_bind].
  pose proof (spawn_machine_view s (cli_args cfg) delay) as Hs. destruct (spawn_machine s _ _) as [s1 m].
  destruct Hs as (-> & [a0 Hm] & Hc & Hn & Hp & Hr). pose proof (up_length _ _ Hup) as Hl.
  assert (Hx : machines s1 !! length (machines s) = Some (mkMachine (length (machines s)) a0))
    by (by rewrite Hm, lookup_app_r, Nat.sub_diag by done).
  destruct (plug_view s1 _ net _ Hx) as (a & Pm & Pp & Pa & Pc & Pn & Pr'); [by rewrite Hn|].
  eexists. split; [done|]. rewrite Pn, Pr', Hn, Hr. split; [|done].
  assert (Hms : machines (plug s1 (length (machines s)) net) = machines s ++ [mkMachine (length (machines s)) a]).
  { rewrite Pm, Hm. by rewrite insert_app_r_alt, Nat.sub_diag by done. }
  destruct Hup as [Hi Hcm Hpl Had]. split.
  - rewrite Hms, fmap_app, Hi, length_app, Hl. cbn. by rewrite seq_app.
  - rewrite Pc, Hc, fmap_app, Hcm. done.
  - intros i. rewrite Pp, Hp, Hl. destruct (decide (i = length jobs)) as [->|Hne].
    + by rewrite lookup_insert_eq, lookup_app_r, Nat.sub_diag by done.
    + rewrite lookup_insert_ne by done. rewrite Hpl. destruct (decide (i < length jobs)).
      * by rewrite lookup_app_l.
      * rewrite !(lookup_ge_None_2) by (rewrite ?length_app; cbn; lia). done.
  - intros i j x y Hij Hx1 Hy1. rewrite Hms in Hx1, Hy1. rewrite Pp, Hp. rewrite lookup_snoc_Some in Hx1, Hy1.
    assert (Hnew : forall k z, machines s !! k = Some z -> plugged s !! k = Some net -> m_addr z <> a).
    { intros k z Hz Hk. pose proof (lookup_lt_Some _ _ _ Hz). apply (Pa k); [by rewrite Hp|by rewrite Hm, lookup_app_l|lia]. }
    destruct Hx1 as [[? Hx1]|[-> <-]], Hy1 as [[? Hy1]|[-> <-]]; [| | |done];
      rewrite ?lookup_insert_eq, ?lookup_insert_ne by lia; intros Hs; cbn.
    + by eapply Had.
    + by eapply Hnew.
    + intros ->. by eapply Hnew.
Qed.

Lemma start_machines_up s jobs delay net cfgs :
  Up s jobs -> net < length (networks s) ->
  exists s', foldM (start_machine true delay net) s cfgs ↓ s' /\
    Up s' (jobs ++ ((fun cfg => mkJob cfg delay net) <$> cfgs)) /\
    networks s' = networks s /\ nat_routes s' = nat_routes s.
Proof.
  revert s jobs. induction cfgs as [|cfg cfgs IH]; intros s jobs Hup Hnet.
  { exists s. cbn. by rewrite app_nil_r. }
  destruct (start_machine_up s jobs delay net cfg Hup Hnet) as (s1 & E1 & Hup1 & Hn1 & Hr1).
  destruct (IH s1 _ Hup1) as (s2 & E2 & Hup2 & Hn2 & Hr2); [by rewrite Hn1|].
  exists s2. cbn [foldM]. rewrite E1. cbn [mbind outcome_bind]. rewrite E2.
  rewrite <- app_assoc in Hup2. split_and!; [done|exact Hup2|congruence|congruence].
Qed.

Lemma no_machine_found s delay net cfg cfgs :
  is_done (foldM (start_machine false delay net) s (cfg :: cfgs)) = false.
Proof. done. Qed.

(** A new network: nothing else changes. *)
Lemma spawn_network_up s jobs r :
  Up s jobs -> exists s', spawn_network s r = (s', length (networks s)) /\ Up s' jobs /\
    networks s' = networks s ++ [r] /\ nat_routes s' = nat_routes s.
Proof.
  intros [Hi Hc Hp Ha]. pose proof (spawn_network_view s r) as H. destruct (spawn_network s r) as [s' n].
  destruct H as (-> & Hn & Hm & Hc' & Hp' & Hr). exists s'. split; [done|]. split; [|done].
  split; [by rewrite Hm|by rewrite Hc'|by intros; rewrite Hp'|intros i j x y; rewrite Hm, Hp'; apply Ha].
Qed.

Lemma add_nat_route_up s jobs c a b :
  Up s jobs -> Up (add_nat_route s c a b) jobs /\ networks (add_nat_route s c a b) = networks s /\
    nat_routes (add_nat_route s c a b) = nat_routes s ++ [(c, a, b)].
Proof.
  intros [Hi Hc Hp Ha]. destruct (add_nat_route_view s c a b) as (Hr & Hm & Hn & Hc' & Hp'). split; [|done].
  split; [by rewrite Hm|by rewrite Hc'|by intros; rewrite Hp'|intros i j x y; rewrite Hm, Hp'; apply Ha].
Qed.

Lemma up_new : Up netsim_new [].
Proof.
  destruct new_empty as (Hm & _ & Hc & Hp & _). split; [by rewrite Hm|by rewrite Hc|by intros; rewrite Hp|].
  intros i j x y _. by rewrite Hm.
Qed.

(** The machines of [run_netsim]. *)
Definition netsim_jobs (opts : HarnessOpts) (dir : string) : list job :=
  (fun cfg => mkJob cfg (Some (from_millis (delay_ms opts))) 0) <$> (harness_config opts dir any_30000 <$> seq 0 (n_nodes opts)).
Definition nat_jobs (opts : HarnessOpts) (dir : string) : list job :=
  (fun cfg => mkJob cfg None 1) <$> nat_consumer_configs opts dir any_30000.

Lemma run_netsim_up {A} dir opts range (f : Simulator -> HarnessOpts -> nat -> string -> outcome (result A E)) :
  exists s, run_netsim any_30000 (Ok tt) (Ok dir) opts range true f = f s opts 0 dir /\
    Up s (netsim_jobs opts dir) /\ networks s = [range] /\ nat_routes s = [].
Proof.
  unfold run_netsim. destruct new_empty as (_ & Hn & _ & _ & Hr).
  destruct (spawn_network_up _ _ range up_new) as (s0 & -> & Hup & Hn0 & Hr0). rewrite Hn in *. cbn [length].
  destruct (start_machines_up s0 [] (Some (from_millis (delay_ms opts))) 0 (harness_config opts dir any_30000 <$> seq 0 (n_nodes opts)))
    as (s & -> & Hs & Hns & Hrs); [done|rewrite Hn0; cbn; lia|].
  exists s. cbn [mbind outcome_bind]. split_and!; [done|exact Hs|by rewrite Hns, Hn0|by rewrite Hrs, Hr0, Hr].
Qed.

(** The peer id of the process that is started with [args]: it reads its configuration from
    them, or prints the usage and ends.  [name] and [generated] are what the default
    configuration makes up. *)
Definition tool_peer_id (name : string) (generated : Keypair) (args : list Text) : outcome PeerId :=
  cfg ← unwrap "usage" (from_args args);
  '(_, network) ← node_config name generated cfg;
  Done (public_to_peer (keypair_public (nc_node_key network))).

(** Machine [i] is the one that was asked for: on its network it runs the tool, which reads
    the configuration of [job] from its arguments and has the peer id that the harness
    computes from the number of the machine. *)
Definition runs (s : Simulator) (i : nat) (j : job) : Prop :=
  exists m args, machines s !! i = Some m /\ m_id m = i /\
    commands s !! i = Some (args, job_delay j) /\ plugged s !! i = Some (job_net j) /\
    from_args args = Some (job_config j) /\
    forall name generated, tool_peer_id name generated args ↓ machine_peer_id m.

Lemma up_runs s jobs i j :
  Up s jobs -> jobs !! i = Some j -> cli_keypair (job_config j) = Z.of_nat i -> passable (job_config j) -> runs s i j.
Proof.
  intros Hup Hj Hk Hpass. pose proof (lookup_lt_Some _ _ _ Hj) as Hi. rewrite <- (up_length _ _ Hup) in Hi.
  apply lookup_lt_is_Some_2 in Hi as [m Hm]. exists m, (cli_args (job_config j)).
  pose proof (up_machine _ _ _ _ Hup Hm) as Hid. pose proof (args_reach (job_config j) Hpass) as Hargs.
  split_and!; [done|done|by rewrite (up_commands _ _ Hup), list_lookup_fmap, Hj|by rewrite (up_plugged _ _ Hup), Hj|done|].
  intros name generated. unfold tool_peer_id, node_config, machine_peer_id. rewrite Hargs. cbn. by rewrite Hk, Hid.
Qed.

(** The configurations of a test can be passed. *)
Lemma ascii_valid t : Forall (fun c => 0 <= c <= 127)%Z t -> utf8_valid t = true.
Proof. induction 1 as [|c t Hc _ IH]; [done|]. cbn. unfold in_range at 1. by rewrite (proj2 (Z.leb_le 0 c)), (proj2 (Z.leb_le c 127)) by lia. Qed.

Lemma plain_app a b : plain a = true -> plain (a ++ b) = true.
Proof. by destruct a. Qed.

Lemma numbered_name (role : string) (k : nat) :
  plain (txt role) = true -> Forall (fun c => 0 <= c <= 127)%Z (txt role) ->
  plain (txt (role +:+ pretty k)) = true /\ utf8_valid (txt (role +:+ pretty k)) = true.
Proof.
  intros Hp Hr. rewrite txt_app. split; [by apply plain_app|]. apply ascii_valid, Forall_app. split; [done|].
  eapply Forall_impl; [exact (pretty_digits (N.of_nat k))|]. cbn. lia.
Qed.

Lemma started_passable opts dir i name :
  plain (txt dir) = true -> (Z.of_nat i <= U64_MAX)%Z ->
  plain (txt name) = true /\ utf8_valid (txt name) = true ->
  passable (mkCliConfig L (Some (dir +:+ "/" +:+ pretty i)) (Some name) (Z.of_nat i) (enable_mdns opts) [any_30000] [] []
    (disable_port_reuse opts)).
Proof.
  intros Hd Hi Hn. split_and!; cbn; [rewrite txt_app; by apply plain_app|done|lia|done|].
  apply Forall_singleton. by rewrite any_30000_iter.
Qed.

Lemma harness_config_passable opts dir i :
  plain (txt dir) = true -> (Z.of_nat i <= U64_MAX)%Z -> passable (harness_config opts dir any_30000 i).
Proof.
  intros Hd Hi. apply started_passable; [done..|]. unfold harness_node_name.
  repeat case_decide; apply numbered_name; try done; by apply (bool_decide_eq_true_1 _).
Qed.

Lemma nat_consumer_passable opts dir i :
  plain (txt dir) = true -> (Z.of_nat i <= U64_MAX)%Z -> passable (nat_consumer_config opts dir any_30000 i).
Proof.
  intros Hd Hi. apply started_passable; [done..|]. apply numbered_name; [done|]. by apply (bool_decide_eq_true_1 _).
Qed.

Lemma netsim_jobs_lookup opts dir i : i < n_nodes opts ->
  netsim_jobs opts dir !! i = Some (mkJob (harness_config opts dir any_30000 i) (Some (from_millis (delay_ms opts))) 0).
Proof. intros Hi. unfold netsim_jobs. by rewrite !list_lookup_fmap, lookup_seq_lt. Qed.

Lemma nat_jobs_lookup opts dir i : i < n_nodes opts ->
  nat_jobs opts dir !! i = Some (mkJob (nat_consumer_config opts dir any_30000 (n_nodes opts + i)) None 1).
Proof. intros Hi. unfold nat_jobs, nat_consumer_configs. by rewrite !list_lookup_fmap, lookup_seq_lt by lia. Qed.

Lemma length_netsim_jobs opts dir : length (netsim_jobs opts dir) = n_nodes opts.
Proof. unfold netsim_jobs. by rewrite !length_fmap, length_seq. Qed.
Lemma length_nat_jobs opts dir : length (nat_jobs opts dir) = n_nodes opts.
Proof. unfold nat_jobs, nat_consumer_configs. rewrite !length_fmap, length_seq. lia. Qed.

(** The machines of a test with a NAT: providers on network 0, consumers on network 1. *)
Definition nat_job (opts : HarnessOpts) (dir : string) (i : nat) : job :=
  if decide (i < n_nodes opts) then mkJob (harness_config opts dir any_30000 i) (Some (from_millis (delay_ms opts))) 0
  else mkJob (nat_consumer_config opts dir any_30000 i) None 1.

(** What the machines are given: a directory that does not look like an option, and
    numbers that are [u64]. *)
Definition startable (opts : HarnessOpts) (dir : string) : Prop :=
  plain (txt dir) = true /\ (Z.of_nat (2 * n_nodes opts) <= U64_MAX)%Z.

Lemma nat_up_runs s opts dir i :
  startable opts dir -> Up s (netsim_jobs opts dir ++ nat_jobs opts dir) -> i < 2 * n_nodes opts ->
  runs s i (nat_job opts dir i).
Proof.
  intros [Hd Hz] Hup Hi. unfold nat_job. case_decide as H; eapply up_runs; try done;
    try (apply harness_config_passable || apply nat_consumer_passable; [done|lia]).
  - by rewrite lookup_app_l, netsim_jobs_lookup by (rewrite ?length_netsim_jobs; lia).
  - rewrite lookup_app_r, length_netsim_jobs by (rewrite ?length_netsim_jobs; lia).
    rewrite nat_jobs_lookup by lia. by replace (n_nodes opts + (i - n_nodes opts)) with i by lia.
Qed.

Lemma start_nat_machines_up s opts dir range range_b :
  Up s (netsim_jobs opts dir) -> networks s = [range; range_b] ->
  exists s', nat_machines any_30000 true opts dir 1 s ↓ s' /\ Up s' (netsim_jobs opts dir ++ nat_jobs opts dir) /\
    networks s' = [range; range_b] /\ nat_routes s' = nat_routes s /\ length (machines s') = 2 * n_nodes opts.
Proof.
  intros Hup Hn. unfold nat_machines.
  destruct (start_machines_up s _ None 1 (nat_consumer_configs opts dir any_30000) Hup) as (s' & E' & Hup' & Hn' & Hr');
    [rewrite Hn; cbn; lia|].
  exists s'. split_and!; [done|exact Hup'|congruence|done|].
  rewrite (up_length _ _ Hup'), length_app, length_netsim_jobs. fold (nat_jobs opts dir). rewrite length_nat_jobs. lia.
Qed.

Lemma up_NoDup s jobs : Up s jobs -> NoDup (m_id <$> machines s).
Proof. intros H. rewrite (up_ids _ _ H). apply NoDup_ListNoDup, seq_NoDup. Qed.

Lemma other_range_found {R} `{EqDecision R} (a b : R) k rest :
  b <> a -> other_range a (replicate k a ++ b :: rest) = Some b.
Proof. intros H. apply other_range_exact. by exists k, rest. Qed.

(** Everything a test with a NAT needs is there. *)
Definition nat_ready (opts : HarnessOpts) (dir : string) (range range_b : Ipv4Range) (s : Simulator) : Prop :=
  networks s = [range; range_b] /\ length (machines s) = 2 * n_nodes opts /\
  (forall i, i < 2 * n_nodes opts -> runs s i (nat_job opts dir i)) /\
  (forall i j x y, i <> j -> machines s !! i = Some x -> machines s !! j = Some y ->
     plugged s !! i = plugged s !! j -> m_addr x <> m_addr y).

Lemma discover_nat_started opts dir range range_b s :
  startable opts dir -> Up s (netsim_jobs opts dir) -> networks s = [range] -> nat_routes s = [] ->
  exists s' t, discover_nat_start ip4_tcp any_30000 true range_b s opts 0 dir ↓ (s', t) /\
    nat_ready opts dir range range_b s' /\ nat_routes s' = [(NatConfig_default, 0, 1)] /\
    discover_nat_main ip4_tcp opts (machines s') ↓ t.
Proof.
  intros Hst Hup Hn Hr. unfold discover_nat_start.
  destruct (spawn_network_up _ _ range_b Hup) as (s1 & -> & Hup1 & Hn1 & Hr1). rewrite Hn in *. cbn [length].
  destruct (add_nat_route_up _ _ NatConfig_default 0 1 Hup1) as (Hup2 & Hn2 & Hr2).
  edestruct start_nat_machines_up as (s3 & -> & Hup3 & Hn3 & Hr3 & Hl3); [exact Hup2|rewrite Hn2; exact Hn1|].
  assert (Ht : exists t, discover_nat_main ip4_tcp opts (machines s3) ↓ t).
  { unfold discover_nat_main, nodes. cbn [fst snd]. rewrite !slice_ok by lia. by eexists. }
  destruct Ht as [t Ht]. cbn [mbind outcome_bind]. rewrite Ht. cbn [mbind outcome_bind].
  exists s3, t. split; [done|]. split; [|by rewrite Hr3, Hr2, Hr1, Hr].
  split_and!; [done|done|by intros i Hi; apply nat_up_runs|exact (up_addresses _ _ Hup3)].
Qed.

Lemma discover_nat_forward_started opts dir range range_b s :
  startable opts dir -> 0 < n_nodes opts -> Up s (netsim_jobs opts dir) -> networks s = [range] -> nat_routes s = [] ->
  exists s' t m, discover_nat_forward_start ip4_tcp any_30000 true range_b s opts 0 dir ↓ (s', t) /\
    nat_ready opts dir range range_b s' /\ machines s' !! n_nodes opts = Some m /\
    nat_routes s' = [(mkNatConfig [(30000%Z, (m_addr m, 30000%Z))], 0, 1)] /\
    discover_nat_forward_main ip4_tcp opts (machines s') ↓ (30000%Z, (m_addr m, 30000%Z), t).
Proof.
  intros Hst Hpos Hup Hn Hr. unfold discover_nat_forward_start.
  destruct (spawn_network_up _ _ range_b Hup) as (s1 & -> & Hup1 & Hn1 & Hr1). rewrite Hn in *. cbn [length].
  edestruct start_nat_machines_up as (s3 & -> & Hup3 & Hn3 & Hr3 & Hl3); [exact Hup1|exact Hn1|].
  cbn [mbind outcome_bind]. pose proof (forward_setup ip4_tcp ip4_tcp_iter opts (machines s3) Hl3 (up_NoDup _ _ Hup3)) as Hf.
  destruct (machines s3 !! n_nodes opts) as [m|] eqn:Em; [|apply lookup_ge_None in Em; lia]. destruct Hf as [t Ht].
  rewrite Ht. cbn [mbind outcome_bind].
  destruct (add_nat_route_up _ _ (mkNatConfig [(30000%Z, (m_addr m, 30000%Z))]) 0 1 Hup3) as (Hup4 & Hn4 & Hr4).
  destruct (add_nat_route_view s3 (mkNatConfig [(30000%Z, (m_addr m, 30000%Z))]) 0 1) as (_ & Hm4 & _).
  eexists _, t, m. split; [done|]. rewrite Hm4. split_and!; [|done|by rewrite Hr4, Hr3, Hr1, Hr|exact Ht].
  unfold nat_ready. rewrite Hm4. split_and!; [by rewrite Hn4|done|by intros i Hi; apply nat_up_runs|].
  rewrite <- Hm4. exact (up_addresses _ _ Hup4).
Qed.


Lemma wait_all_listening evs addr ms :
  (forall m, m ∈ ms -> exists rest, wait_listener (evs (m_id m)) = Some (Done (addr (m_id m), rest))) ->
  wait_all evs ms = Some (Done ((fun m => (machine_peer_id m, addr (m_id m))) <$> ms)).
Proof.
  induction ms as [|m ms IH]; intros H; [done|]. cbn. destruct (H m) as [rest ->]; [left|].
  rewrite IH; [done|]. intros m' Hm. apply H. by right.
Qed.

(** The bitswap test, up to its script: once every machine listens it knows the peer id
    and the address of each, in order.  The script is that of as many machines as were
    asked for, so that it does not exist with fewer machines than roles. *)
Theorem bitswap_test_starts opts dir range (ms : list build_message) evs addr root spam cid (blocks : list Block) :
  (forall i, i < n_nodes opts -> exists rest, wait_listener (evs i) = Some (Done (addr i, rest))) ->
  let built : result (list (result (result build_message E) E)) E := Ok ((fun m => Ok (Ok m)) <$> ms) in
  bitswap_program any_30000 built (Ok tt) (Ok dir) opts range true evs root spam cid blocks =
    (s ← bitswap_script opts (n_nodes opts) root spam cid blocks;
     Done (Ok (Some ((fun i => (peer_id (Z.of_nat i), addr i)) <$> seq 0 (n_nodes opts), s)))).
Proof.
  intros Hl built.
  pose proof (built_ok (E := E) ms : (build_bin built).2 = Ok tt) as Hbuilt.
  unfold bitswap_program, program. rewrite Hbuilt.
  edestruct (run_netsim_up (A := option (list (PeerId * Multiaddr) * list action)) dir opts range) as (s & -> & Hup & _).
  pose proof (up_ids _ _ Hup) as Hids. rewrite length_netsim_jobs in Hids. unfold bitswap_start.
  rewrite (wait_all_listening evs addr), (up_length _ _ Hup), length_netsim_jobs.
  - replace ((fun m => (machine_peer_id m, addr (m_id m))) <$> machines s)
      with ((fun i => (peer_id (Z.of_nat i), addr i)) <$> (m_id <$> machines s)) by (by rewrite <- list_fmap_compose).
    rewrite Hids. by destruct (bitswap_script _ _ _ _ _ _).
  - intros m Hm. apply Hl. assert (Hin : m_id m ∈ m_id <$> machines s) by (by apply list_elem_of_fmap_2).
    rewrite Hids in Hin. apply elem_of_seq in Hin. lia.
Qed.
End StartProps.

(** ** A simulator *)
Module SimNet.
Record net := mkNet {
  net_machines : list Machine;
  net_ranges : list N;
  net_commands : list (list Text * option Duration);
  net_plugged : gmap nat nat;
  net_routes : list (NatConfig * nat * nat)
}.

Definition highest (l : list Machine) : Z := foldr Z.max 0%Z (m_addr <$> l).

Lemma highest_le l i x : l !! i = Some x -> (m_addr x <= highest l)%Z.
Proof.
  revert i. induction l as [|y l IH]; intros i; [done|]. unfold highest. cbn. destruct i as [|i]; cbn.
  - intros [= ->]. lia.
  - intros H%IH. unfold highest in H. lia.
Qed.

Definition net_plug (s : net) (m n : nat) : net :=
  match net_machines s !! m with
  | Some x => mkNet (<[m := mkMachine (m_id x) (highest (net_machines s) + 1)]> (net_machines s)) (net_ranges s)
                (net_commands s) (<[m := n]> (net_plugged s)) (net_routes s)
  | None => s
  end.

#[export] Instance sim_netsim : Netsim | 100 := {|
  Simulator := net;
  Ipv4Range := N;
  netsim_new := mkNet [] [] [] ∅ [];
  spawn_network := fun s r =>
    (mkNet (net_machines s) (net_ranges s ++ [r]) (net_commands s) (net_plugged s) (net_routes s), length (net_ranges s));
  spawn_machine := fun s args delay =>
    let m := length (net_machines s) in
    (mkNet (net_machines s ++ [mkMachine m 0]) (net_ranges s) (net_commands s ++ [(args, delay)]) (net_plugged s) (net_routes s), m);
  plug := net_plug;
  add_nat_route := fun s c a b =>
    mkNet (net_machines s) (net_ranges s) (net_commands s) (net_plugged s) (net_routes s ++ [(c, a, b)]);
  machines := net_machines;
  networks := net_ranges;
  commands := net_commands;
  plugged := net_plugged;
  nat_routes := net_routes
|}.

#[export] Instance sim_netsim_laws : NetsimLaws (NS := sim_netsim).
Proof.
  split; [done|done|by intros s args delay; cbn; split_and!; try done; eexists| |done].
  intros s m n x Hx _. cbn in *. unfold net_plug. rewrite Hx. eexists. cbn. split_and!; try done.
  intros i y _ Hy _. pose proof (highest_le _ _ _ Hy). lia.
Qed.
End SimNet.

Section NetSimWitness.
Import SimMain SimArgs SimNet.

(** One provider and one consumer; the first draw is the range of the first network. *)
Definition one_each : HarnessOpts := mkHarnessOpts 1 1 1 0 10 false 10 4 false.

End NetSimWitness.
