(* ===== verification/SimOpen.v ===== *)
(** * Two nodes that dial each other at once (harness/src/bin/sim_open.rs)

    The test starts two machines, tells each the address of the other and lets both dial.
    Connecting from both sides at once ("TCP simultaneous open") makes dials fail that
    would succeed a moment later; the address book dials such addresses again
    ([is_sim_open], [redial_delay] in src/net/peers.rs) instead of reporting the peer as
    unreachable.  [sim_open_main] is the program; [lives] is what the address book of one
    of the nodes goes through, failed dials and connections in any order, and [prints] what
    the command line tool prints of it, among other lines.

    Shown: the first thing that decides is a connection, or a dial by peer id that fails
    with an error that is neither a presumed simultaneous open nor one of those the book
    keeps silent about; the test passes if on both sides that is a connection and the line
    comes in time, and what else it does is determined by what it receives. *)
From S2P Require Import Prelude Time Libp2p PeerInfo AddressHandler Peers PeersInv PeersProps Protocols Net Service.
From S2P Require Import Config Cli CliProps Db Ipfs Main Args Harness Discovery NetSim.

(** ** The program *)
Section SimOpen.
Context `{L : Libp2p} `{Pr : !Protocols} `{T : !CliText} `{BS : !BlockStores} `{N : !CliNode}.
Context `{NS : Netsim} {E : Type} (anyhow : string -> E).
Context (ip4_tcp : Z -> Z -> Multiaddr) (any_30000 : Multiaddr).

(** Both machines are started with a delay of 100 ms on the wire. *)
Definition sim_open_start (found : bool) (range : Ipv4Range) : outcome Simulator :=
  let '(sim, net) := spawn_network netsim_new range in
  sim ← start_machine found (Some (from_millis 100)) net sim (CliConfig_new 0 any_30000);
  start_machine found (Some (from_millis 100)) net sim (CliConfig_new 1 any_30000).

(** The two [split_at_mut(1)] and what is taken of them. *)
Definition two_machines (ms : list Machine) : outcome (Machine * Machine) :=
  match ms with
  | a :: b :: _ => Done (a, b)
  | _ => Panic "mid > len"
  end.

(** How the program ends, if it does: a loop that receives from a machine that is gone
    never waits, so that nothing ends it, not even the time limit of the whole test. *)
Inductive ending := Ends (r : outcome (result unit E)) | Spins.

Definition timed_out : ending := Ends (Done (Err (anyhow "future has timed out"))).

(** The machine is gone: from then on [recv] yields [None] at once. *)
Definition gone (ev : list received) : bool :=
  existsb (fun x => match x with Got None => true | _ => false end) ev.

Definition stuck (ev : list received) : ending := if gone ev then Spins else timed_out.

(** A loop over what the machine prints until the 120 s of the whole test are over, and
    what follows it. *)
Definition andthen {A} (ev : list received) (w : option (outcome A)) (k : A -> ending) : ending :=
  match w with
  | None => stuck ev
  | Some (Panic s) => Ends (Panic s)
  | Some (Done a) => k a
  end.

Definition introductions_of (a b : Machine) : list (nat * CliCommand.t) :=
  [(m_id a, CliCommand.AddAddress (machine_peer_id b) (machine_multiaddr ip4_tcp b));
   (m_id b, CliCommand.AddAddress (machine_peer_id a) (machine_multiaddr ip4_tcp a));
   (m_id a, CliCommand.Dial (machine_peer_id b));
   (m_id b, CliCommand.Dial (machine_peer_id a))].

Definition both_connect (a b : Machine) (ev_a ev_b : list received) : ending :=
  andthen ev_a (wait_connected (machine_peer_id b) ev_a) (fun '(r, _) =>
    match r with
    | Err e => Ends (Done (Err (anyhow e)))
    | Ok _ =>
        andthen ev_b (wait_connected (machine_peer_id a) ev_b) (fun '(r, _) =>
          match r with
          | Err e => Ends (Done (Err (anyhow e)))
          | Ok _ => Ends (Done (Ok tt))
          end)
    end).

(** The loops that wait for a listener; a single receive has no limit here, so that one
    that takes long changes nothing. *)
Fixpoint listen_loop (ev : list received) : option (list received) :=
  match ev with
  | [] => None
  | Late :: ev | Got None :: ev => listen_loop ev
  | Got (Some e) :: ev => match listener_addr e with Some _ => Some ev | None => listen_loop ev end
  end.

(** The program, with the commands that it sends. *)
Definition sim_open_main (exec : result (list (result (result build_message E) E)) E) (unshared : result unit E)
    (range : Ipv4Range) (found : bool) (ev_a ev_b : list received) : list (nat * CliCommand.t) * ending :=
  match (build_bin exec).2, unshared with
  | Err e, _ | Ok _, Err e => ([], Ends (Done (Err e)))
  | Ok _, Ok _ =>
      match (sim ← sim_open_start found range; two_machines (machines sim)) with
      | Panic w => ([], Ends (Panic w))
      | Done (a, b) =>
          match listen_loop ev_a with
          | None => ([], stuck ev_a)
          | Some ev_a =>
              match listen_loop ev_b with
              | None => ([], stuck ev_b)
              | Some ev_b => (introductions_of a b, both_connect a b ev_a ev_b)
              end
          end
      end
  end.
End SimOpen.
Arguments Ends {_} _.
Arguments Spins {_}.

(** ** What a node prints *)
Section Printing.
Context `{P : Profile} `{C : Chrono} `{L : Libp2p} `{Ch : Channels} `{HO : HashOrder}.
Context `{Pr : !Protocols} `{T : !CliText}.
Context (debug_failure : ConnectionFailure -> string).

(** The events that decide the test. *)
Definition verdict (peer : PeerId) (e : Event.t) : option (result unit string) :=
  match e with
  | Event.Connected p => if decide (p = peer) then Some (Ok tt) else None
  | Event.Unreachable p => if decide (p = peer) then Some (Err "sim open failed") else None
  | _ => None
  end.

Lemma printed_verdict peer info e :
  match print_event debug_source debug_failure info e with
  | Some x => reached peer x = verdict peer e
  | None => verdict peer e = None
  end.
Proof. destruct e; try reflexivity. unfold print_event. by destruct (info _). Qed.

Context (peer : PeerId).

(** The lines of a sequence of events; the peer information is read when the event is
    printed, so that it can be any.  Other lines, about the listener and other peers, come
    in between. *)
Inductive prints : list Event.t -> list received -> Prop :=
| prints_nil : prints [] []
| prints_event e es info x lines : prints es lines ->
    print_event debug_source debug_failure info e = Some x -> prints (e :: es) (Got (Some x) :: lines)
| prints_nothing e es info lines : prints es lines ->
    print_event debug_source debug_failure info e = None -> prints (e :: es) lines
| prints_other es x lines : prints es lines -> reached peer x = None -> prints es (Got (Some x) :: lines).

(** What the events say: nothing, or the first that decides. *)
Definition judged (es : list Event.t) (o : option (result unit string)) : Prop :=
  match o with
  | None => Forall (fun e => verdict peer e = None) es
  | Some r => exists pre e post, es = pre ++ e :: post /\ Forall (fun e => verdict peer e = None) pre /\ verdict peer e = Some r
  end.

Lemma judged_app es1 es2 o1 o2 :
  judged es1 o1 -> judged es2 o2 -> judged (es1 ++ es2) (match o1 with Some r => Some r | None => o2 end).
Proof.
  destruct o1 as [r|]; cbn.
  - intros (pre & e & post & -> & Hp & He) _. exists pre, e, (post ++ es2). by rewrite <- app_assoc.
  - intros H1. destruct o2 as [r|]; cbn; [|by intros H2; apply Forall_app].
    intros (pre & e & post & -> & Hp & He). exists (es1 ++ pre), e, post. rewrite <- app_assoc. split_and!; [done|by apply Forall_app|done].
Qed.

(** The loop over the lines of a machine whose events are [es] and which then prints [tail]. *)
Lemma prints_judged es lines tail o :
  prints es lines -> judged es o ->
  match o with
  | Some r => exists rest, wait_connected peer (lines ++ tail) = Some (Done (r, rest))
  | None => Forall (passed_over (reached peer)) lines
  end.
Proof.
  induction 1 as [|e es info x lines Hl IH Hx|e es info lines Hl IH Hx|es x lines Hl IH Hx].
  - destruct o; [|done]. by intros (pre & e & post & ?%app_cons_not_nil & _).
  - pose proof (printed_verdict peer info e) as Hp. rewrite Hx in Hp. destruct o as [r|]; cbn [judged].
    + intros ([|e' pre] & e0 & post & E & Hpre & He); injection E as -> ->.
      * exists (lines ++ tail). unfold wait_connected. cbn. by rewrite Hp, He.
      * apply Forall_cons in Hpre as [He' Hpre]. destruct IH as [rest Hr]; [by exists pre, e0, post|]. exists rest.
        unfold wait_connected in *. cbn. by rewrite Hp, He'.
    + intros [He Hes]%Forall_cons. constructor; [cbn; congruence|by apply IH].
  - pose proof (printed_verdict peer info e) as Hp. rewrite Hx in Hp. destruct o as [r|]; cbn [judged].
    + intros ([|e' pre] & e0 & post & E & Hpre & He); injection E as -> ->; [congruence|].
      apply Forall_cons in Hpre as [He' Hpre]. apply IH. by exists pre, e0, post.
    + intros [He Hes]%Forall_cons. by apply IH.
  - destruct o as [r|]; intros Hj.
    + destruct (IH Hj) as [rest Hr]. exists rest. unfold wait_connected in *. cbn. by rewrite Hx.
    + constructor; [done|by apply IH].
Qed.
End Printing.

(** ** What an address book goes through *)
Section Episode.
Context `{P : Profile} `{C : Chrono} `{L : Libp2p} `{Ch : Channels} `{HO : HashOrder}.
Context `{Pr : !Protocols} `{T : !CliText}.
Context {LL : Libp2pLaws} {CL : ChannelLaws}.

(** A dial that fails: the one the command asked for, or one of the book's own. *)
Inductive attempt :=
| ByPeer (error : DialError Multiaddr IoError)
| Again (h : IntoAddressHandler) (error : DialError Multiaddr IoError).

Definition fails (clk : nat -> DateTime) (rnd : nat -> Z) (st : AddressBook) (peer : PeerId) (a : attempt) :
    outcome AddressBook :=
  match a with
  | ByPeer error => dial_failure clk rnd st (new_handler st) (Some peer) error
  | Again h error => dial_failure clk rnd st h (Some peer) error
  end.

Definition attempt_ok (peer : PeerId) (a : attempt) : Prop :=
  match a with
  | ByPeer _ => True
  | Again h _ => handler_ok h /\ is_Some (own h) /\ default peer (handler_peer_id h) = peer
  end.

(** Is the peer reported to be unreachable?  Not if one of the addresses is presumed to
    have failed on a simultaneous open, and not after these three errors. *)
Definition gives_up (error : DialError Multiaddr IoError) : bool :=
  match error with
  | DialTransport v => negb (existsb (fun ae => is_sim_open ae.2) v)
  | DialPeerConditionFalse | Banned | LocalPeerId => false
  | ConnectionIo _ | WrongPeerId | OtherDialError => true
  end.

(** What the book reports, and which dials it puts off. *)
Definition attempt_events (peer : PeerId) (a : attempt) : list Event.t :=
  match a with
  | ByPeer (DialTransport v) => dial_reports peer v ++ [Event.NewInfo peer]
  | ByPeer error => if gives_up error then [Event.Unreachable peer] else []
  | Again h error =>
      match own h with
      | Some (addr, _) => [Event.DialFailure peer addr (dial_error_display error); Event.NewInfo peer]
      | None => []
      end
  end.
Definition redials_after (st : AddressBook) (peer : PeerId) (a : attempt) : list ToSwarm :=
  match a with
  | ByPeer (DialTransport v) => sim_open_redials st peer v
  | ByPeer _ => []
  | Again h error =>
      match own h with
      | Some (addr, n) =>
          if any_sim_open error && bool_decide (0 < n)%Z then [redial peer addr (n - 1) (keep h)] else []
      | None => []
      end
  end.

(** What happens between the two nodes: a dial fails, or a connection is established, with
    [n] others. *)
Inductive happening :=
| Fails (clk : nat -> DateTime) (rnd : nat -> Z) (a : attempt)
| Connects (t1 t2 : DateTime) (cp : ConnectedPoint Multiaddr Endpoint) (n : Z).

Definition happens (peer : PeerId) (st : AddressBook) (h : happening) : outcome AddressBook :=
  match h with
  | Fails clk rnd a => fails clk rnd st peer a
  | Connects t1 t2 cp n => connection_established t1 t2 st peer cp n
  end.
Definition lives (peer : PeerId) (st : AddressBook) (l : list happening) : outcome AddressBook :=
  foldM (happens peer) st l.

Definition happening_ok (peer : PeerId) (h : happening) : Prop :=
  match h with Fails _ rnd a => random_ok rnd /\ attempt_ok peer a | Connects _ _ _ _ => True end.

(** What it means for the test: the first connection is a success, a dial by peer id that
    gives up a failure. *)
Definition decides (h : happening) : option (result unit string) :=
  match h with
  | Fails _ _ (ByPeer error) => if gives_up error then Some (Err "sim open failed") else None
  | Fails _ _ (Again _ _) => None
  | Connects _ _ _ n => if decide (n = 0)%Z then Some (Ok tt) else None
  end.
Definition outcome_of (l : list happening) : option (result unit string) := head (omap decides l).

(** [es] is what was sent to the event streams between two states. *)
Definition hears (st st' : AddressBook) (es : list Event.t) : Prop :=
  event_stream st' = event_stream (foldl notify st es).

Lemma hears_trans st st1 st2 es1 es2 : hears st st1 es1 -> hears st1 st2 es2 -> hears st st2 (es1 ++ es2).
Proof. intros H1 H2. unfold hears in *. rewrite foldl_app, H2. by apply foldl_notify_streams. Qed.

Lemma fails_spec B clk rnd st peer i a :
  book_wf B st -> peers st !! peer = Some i -> random_ok rnd -> attempt_ok peer a ->
  exists st' ds, fails clk rnd st peer a ↓ st' /\ book_wf B st' /\ is_Some (peers st' !! peer) /\
    hears st st' (attempt_events peer a) /\ local_peer_id st' = local_peer_id st /\
    length ds = length (redials_after st peer a) /\ deferred st' = deferred st ++ zip ds (redials_after st peer a).
Proof.
  intros H Hi Hr Ha. destruct a as [error|h error]; cbn [fails].
  - unfold dial_failure, handler_peer_id. cbn [own new_handler mbind option_bind]. rewrite Hi. 
    assert (Hpeer : is_Some (peers st !! peer)) by (by eexists).
    destruct error as [e|v| | | | |]; cbn [attempt_events redials_after gives_up];
      first [by exists st, []; cbn [zip]; rewrite app_nil_r
            |by exists (notify st (Event.Unreachable peer)), []; cbn [zip]; rewrite app_nil_r; pose proof (notify_wf B st (Event.Unreachable peer) H)
            |idtac].
    destruct (peer_dial_failure_spec B clk rnd st peer i v H Hi Hr) as (ds & Hlen & E & Hw). rewrite E.
    eexists _, ds. split; [done|]. split; [by apply notify_wf|]. cbn. rewrite foldl_notify_frame. cbn.
    rewrite lookup_insert_eq. split_and!; [by eexists| |done|done|done].
    unfold hears. rewrite foldl_app. cbn [foldl]. unfold notify at 1 3. cbn [event_stream with_event_stream with_deferred].
    f_equal. by apply foldl_notify_streams.
  - destruct Ha as (Hok & [[addr n] Ho] & Hp). unfold dial_failure. cbn [attempt_events redials_after]. rewrite Ho.
    replace (match handler_peer_id h with Some p => Some p | None => Some peer end) with (Some peer)
      by (destruct (handler_peer_id h); cbn in Hp; congruence).
    rewrite Hi.
    destruct (validation_failure_spec B (clk 0) (rnd 0) st peer i addr n (keep h) error H Hi (Hr 0) (Hok _ _ Ho))
      as (redials & -> & Hw & Hre).
    eexists _, redials.*1. split; [done|]. split; [done|]. cbn. rewrite lookup_insert_eq.
    split_and!; [by eexists|done|done|..]; case_match; [destruct Hre as [d ->]|subst redials|destruct Hre as [d ->]|subst redials]; done.
Qed.

(** A failed dial decides if it gives up. *)
Lemma attempt_judged peer clk rnd a : judged peer (attempt_events peer a) (decides (Fails clk rnd a)).
Proof.
  destruct a as [error|h error]; cbn; [|by destruct (own h) as [[addr n]|]; cbn; rewrite ?Forall_cons].
  destruct error as [e|v| | | | |]; cbn;
    first [by constructor|by exists [], (Event.Unreachable peer), []; cbn; rewrite decide_True|idtac].
  unfold dial_reports. destruct (existsb _ v) eqn:Hs; cbn [negb].
  - rewrite decide_False.
    + rewrite app_nil_r. apply Forall_app. split; [apply Forall_fmap; by apply Forall_true|by apply Forall_singleton].
    + apply existsb_exists in Hs as (ae & Hin%list_elem_of_In & Hs). intros Hf. apply (not_elem_of_nil ae). rewrite <- Hf.
      by apply list_elem_of_filter.
  - rewrite decide_True.
    + rewrite <- app_assoc. eexists _, (Event.Unreachable peer), _. split; [done|]. split; [apply Forall_fmap; by apply Forall_true|].
      cbn. by rewrite decide_True.
    + destruct (filter _ v) as [|ae l] eqn:Hf; [done|]. exfalso.
      assert (Hin : ae ∈ ae :: l) by left. rewrite <- Hf in Hin. apply list_elem_of_filter in Hin as [Ht Hin].
      apply not_true_iff_false in Hs. apply Hs. apply existsb_exists. exists ae. by rewrite <- list_elem_of_In.
Qed.

Lemma added_hears now st peer a source : exists es,
  hears st (added now st peer a source) es /\ Forall (fun e => verdict peer e = None) es.
Proof.
  unfold added. destruct (_ && negb _), (undiscovered st peer && _);
    first [by exists [Event.Discovered peer; Event.NewInfo peer]; split; [|repeat constructor]
          |by exists [Event.NewInfo peer]; split; [|repeat constructor]].
Qed.

Lemma established_judged B t1 t2 st peer cp n :
  book_wf B st -> peer <> local_peer_id st -> exists st' es,
  connection_established t1 t2 st peer cp n ↓ st' /\ book_wf B st' /\ is_Some (peers st' !! peer) /\
  local_peer_id st' = local_peer_id st /\ hears st st' es /\ judged peer es (decides (Connects t1 t2 cp n)).
Proof.
  intros H Hne. destruct (connection_established_total B t1 t2 st peer cp n H Hne) as (st' & E & Hw & Hl).
  pose proof E as E'. unfold connection_established in E'. rewrite add_address_spec in E'. cbn [mbind outcome_bind] in E'.
  set (conn := normalize_connected_point _ _ _) in E'. set (st1 := if ignored st peer _ then _ else _) in E'.
  assert (H1 : exists es, hears st st1 es /\ Forall (fun e => verdict peer e = None) es).
  { subst st1. destruct (ignored st peer _); [by exists []|apply added_hears]. }
  destruct H1 as (es & Hh & Hv). clearbody st1. injection E' as <-.
  eexists _, (es ++ (if decide (n = 0)%Z then [Event.Connected peer] else []) ++ [Event.ConnectionEstablished peer conn]).
  split; [exact E|]. split; [done|]. split; [by case_decide; cbn; rewrite lookup_insert_eq; eexists|]. split; [done|].
  split; [eapply hears_trans; [exact Hh|]; by case_decide|].
  cbn [decides]. case_decide.
  - exists es, (Event.Connected peer), [Event.ConnectionEstablished peer conn]. split_and!; [done|done|]. cbn. by rewrite decide_True.
  - apply Forall_app. split; [done|by apply Forall_singleton].
Qed.

Lemma happens_judged B st peer h :
  book_wf B st -> is_Some (peers st !! peer) -> peer <> local_peer_id st -> happening_ok peer h -> exists st' es,
  happens peer st h ↓ st' /\ book_wf B st' /\ is_Some (peers st' !! peer) /\
  local_peer_id st' = local_peer_id st /\ hears st st' es /\ judged peer es (decides h).
Proof.
  intros H [i Hi] Hne Hok. destruct h as [clk rnd a|t1 t2 cp n]; [|by apply established_judged].
  destruct Hok as [Hr Ha]. destruct (fails_spec B clk rnd st peer i a H Hi Hr Ha) as (st1 & ds & E1 & H1 & Hi1 & Hh1 & Hl1 & _).
  exists st1, (attempt_events peer a). split_and!; try done. apply attempt_judged.
Qed.

Lemma lives_judged B st peer l :
  book_wf B st -> is_Some (peers st !! peer) -> peer <> local_peer_id st -> Forall (happening_ok peer) l -> exists st' es,
  lives peer st l ↓ st' /\ hears st st' es /\ judged peer es (outcome_of l).
Proof.
  intros H Hi Hne Hl. revert st H Hi Hne. induction Hl as [|h l Hh Hl IH]; intros st H Hi Hne; [exists st, []; split_and!; [done|done|constructor]|].
  destruct (happens_judged B st peer h H Hi Hne Hh) as (st1 & es1 & E1 & H1 & Hi1 & Hl1 & Hh1 & Hj1).
  destruct (IH st1 H1 Hi1) as (st2 & es2 & E2 & Hh2 & Hj2); [by rewrite Hl1|]. exists st2, (es1 ++ es2).
  unfold lives in *. cbn [foldM]. rewrite E1. cbn [mbind outcome_bind]. split_and!; [done|by eapply hears_trans|].
  unfold outcome_of in *. pose proof (judged_app peer es1 es2 _ _ Hj1 Hj2) as Hj. revert Hj. cbn. by destruct (decides h).
Qed.

(** What is sent to an event stream arrives in order. *)
Lemma hears_queue st st' es tx :
  hears st st' es -> event_stream st = [tx] -> connected tx = true ->
  exists tx', event_stream st' = [tx'] /\ queued tx' = queued tx ++ es.
Proof.
  intros Hh Hs Hc. destruct (decide (es = [])) as [->|Hne].
  { exists tx. rewrite app_nil_r. split; [|done]. rewrite Hh. done. }
  pose proof (notify_in_order st es) as Hn. unfold hears in Hh. rewrite <- Hh, Hs in Hn.
  rewrite filter_cons_True, filter_nil in Hn by done.
  apply Forall2_cons_inv_l in Hn as (tx' & txs & [Hq _] & ->%Forall2_nil_inv_l & ->); [by exists tx'|done].
Qed.
End Episode.

(** ** The test *)
Section Test.
Context `{P : Profile} `{C : Chrono} `{L : Libp2p} `{Ch : Channels} `{HO : HashOrder}.
Context `{Pr : !Protocols} `{Sw : !SwarmOps} `{CC : !CommandChannel} `{Bu : !Builders}.
Context `{T : !CliText} `{BS : !BlockStores} `{N : !CliNode}.
Context {TL : CliTextLaws} `{SO : !StructOpt} {SOL : StructOptLaws}.
Context `{NS : Netsim} {NL : NetsimLaws} {LL : Libp2pLaws} {CL : ChannelLaws} {E : Type} (anyhow : string -> E).
Context (ip4_tcp : Z -> Z -> Multiaddr) (any_30000 : Multiaddr) (any_30000_iter : iter any_30000 = [Ip4 0; Tcp 30000]).
Context (debug_failure : ConnectionFailure -> string).

(** What the program gets to know of one side. *)
Inductive learnt := Decides (r : result unit string) | TooLate | NoAnswer | Gone.

(** What is received after the lines that decide nothing: nothing until the end of the
    test, a receive that takes too long, or that the machine is gone. *)
Inductive ends_with : list received -> learnt -> Prop :=
| nothing_more : ends_with [] NoAnswer
| too_late tail : ends_with (Late :: tail) TooLate
| machine_gone n : ends_with (replicate (S n) (Got None)) Gone.

(** What is received from one machine: it comes to listen on an address that is not
    loopback; its book, which knows the other machine from the command [AddAddress], goes
    through [l]; and the tool prints what the book sends to its event stream.  If that
    decides, [tail] can be anything. *)
Inductive side (B : Z) (peer : PeerId) (l : list happening) : list received -> learnt -> Prop :=
| side_of pre addr st tx st' tx' es lines tail ans :
    Forall (fun x => forall e, x = Got (Some e) -> listener_addr e = None) pre -> gone pre = false -> is_loopback addr = false ->
    book_wf B st -> is_Some (peers st !! peer) -> peer <> local_peer_id st ->
    Forall (happening_ok peer) l -> event_stream st = [tx] -> connected tx = true ->
    lives peer st l ↓ st' -> event_stream st' = [tx'] -> queued tx' = queued tx ++ es ->
    prints debug_failure peer es lines ->
    match outcome_of l with Some r => ans = Decides r | None => ends_with tail ans end ->
    side B peer l (pre ++ Got (Some (CliEvent.NewListenAddr addr)) :: lines ++ tail) ans.

(** What becomes of a wait, by what the program got to know. *)
Definition goes_on (ans : learnt) (k : ending) : ending :=
  match ans with
  | Decides (Ok _) => k
  | Decides (Err e) => Ends (Done (Err (anyhow e)))
  | TooLate => Ends (Panic "called `Result::unwrap()` on an `Err` value: TimeoutError")
  | NoAnswer => timed_out anyhow
  | Gone => Spins
  end.

Lemma prints_not_gone peer es lines : prints debug_failure peer es lines -> gone lines = false.
Proof. by induction 1. Qed.

Lemma gone_app l1 l2 : gone (l1 ++ l2) = gone l1 || gone l2.
Proof. unfold gone. by rewrite existsb_app. Qed.

Lemma goes_on_passes ans k :
  goes_on ans k = Ends (Done (Ok tt)) <-> ans = Decides (Ok tt) /\ k = Ends (Done (Ok tt)).
Proof. destruct ans as [[[]|e]| | |]; naive_solver. Qed.

Lemma side_answer B peer l ev ans r : side B peer l ev ans -> ans = Decides r <-> outcome_of l = Some r.
Proof.
  intros [pre addr st tx st' tx' es lines tail ans' _ _ _ _ _ _ _ _ _ _ _ _ _ H].
  destruct (outcome_of l); [naive_solver|]. by destruct H; split.
Qed.

(** The configurations of the test can be passed. *)
Lemma numbered_passable k : (0 <= k <= U64_MAX)%Z -> passable (CliConfig_new k any_30000).
Proof. intros H. split_and!; cbn; [done|done|lia|lia|]. apply Forall_singleton. by rewrite any_30000_iter. Qed.

Lemma side_goes B peer l ev ans :
  side B peer l ev ans -> exists ev', listen_loop ev = Some ev' /\
    forall k, andthen anyhow ev' (wait_connected peer ev') (fun '(r, _) =>
      match r with Err e => Ends (Done (Err (anyhow e))) | Ok _ => k end) = goes_on ans k.
Proof.
  intros [pre addr st tx st' tx' es lines tail ans' Hpre _ Hlo Hw Hi Hne Hl Hs Hc El Hs' Hq Hp Hans].
  destruct (lives_judged B st peer l Hw Hi Hne Hl) as (st1 & es1 & E1 & Hh & Hj).
  assert (st1 = st') as -> by congruence. destruct (hears_queue _ _ _ _ Hh Hs Hc) as (tx1 & Htx & Hq1).
  assert (tx1 = tx') as -> by congruence. rewrite Hq in Hq1. apply app_inv_head in Hq1 as <-.
  exists (lines ++ tail). split.
  - clear -Hpre Hlo. induction Hpre as [|[|[e|]] pre Hx _ IH]; [|done| |done].
    + cbn. by rewrite harness_is_loopback_same, Hlo.
    + cbn. by rewrite (Hx e eq_refl).
  - intros k. pose proof (prints_judged debug_failure peer es lines tail _ Hp Hj) as Hwait.
    destruct (outcome_of l) as [r|].
    + destruct Hwait as [rest ->]. subst ans'. by destruct r.
    + unfold wait_connected. rewrite recv_until_skip by done. pose proof (prints_not_gone _ _ _ Hp) as Hg.
      destruct Hans as [|tail|n]; cbn; [|done|].
      * unfold stuck. by rewrite gone_app, Hg.
      * replace (recv_until (reached peer) (replicate n (Got None))) with (@None (outcome (result unit string * list received)))
          by (induction n as [|n IHn]; [done|by cbn]). cbn. unfold stuck. rewrite gone_app. cbn. by rewrite orb_true_r.
Qed.

Lemma sim_open_started range :
  exists s, sim_open_start any_30000 true range ↓ s /\
    Up s [mkJob (CliConfig_new 0 any_30000) (Some (from_millis 100)) 0; mkJob (CliConfig_new 1 any_30000) (Some (from_millis 100)) 0].
Proof.
  unfold sim_open_start. destruct new_empty as (_ & Hn & _ & _ & _).
  destruct (spawn_network_up _ _ range up_new) as (s0 & -> & Hup & Hn0 & _). rewrite Hn in *. cbn [length].
  destruct (start_machine_up s0 [] (Some (from_millis 100)) 0 (CliConfig_new 0 any_30000) Hup) as (s1 & -> & Hup1 & Hn1 & _);
    [rewrite Hn0; cbn; lia|]. cbn [mbind outcome_bind].
  destruct (start_machine_up s1 _ (Some (from_millis 100)) 0 (CliConfig_new 1 any_30000) Hup1) as (s2 & -> & Hup2 & _);
    [rewrite Hn1, Hn0; cbn; lia|]. by exists s2.
Qed.

(** C30: the test for simultaneous open.  It starts two machines on one network, which read
    from their arguments the configuration that was meant for them and whose peer ids are
    those the test uses, and tells each of the other once both listen.  What follows is
    determined by what happens on the two sides, failed dials and connections in any order
    ([side], [outcome_of]).  On either side the first thing that counts is a first
    connection, or a dial by peer id that fails although none of its addresses is presumed
    to have failed on a simultaneous open and with an error other than a dial condition
    that is not met, a ban or the node's own id.  The test passes if on both sides that is
    a connection, and fails if it is a failed dial (if it is one on the second side, after
    a connection on the first); it panics if a receive takes longer than its deadline
    before, and reports that the time is over if nothing decides; if a machine is gone by
    then it never ends. *)
Theorem sim_open_exact B range (ms : list build_message) la lb ev_a ev_b ra rb :
  let built : result (list (result (result build_message E) E)) E := Ok ((fun m => Ok (Ok m)) <$> ms) in
  side B (peer_id 1) la ev_a ra -> side B (peer_id 0) lb ev_b rb ->
  (exists s a b, sim_open_start any_30000 true range ↓ s /\ machines s = [a; b] /\
     runs s 0 (mkJob (CliConfig_new 0 any_30000) (Some (from_millis 100)) 0) /\
     runs s 1 (mkJob (CliConfig_new 1 any_30000) (Some (from_millis 100)) 0) /\ m_addr a <> m_addr b /\
     sim_open_main anyhow ip4_tcp any_30000 built (Ok tt) range true ev_a ev_b =
       (introductions_of ip4_tcp a b, goes_on ra (goes_on rb (Ends (Done (Ok tt)))))) /\
  ((sim_open_main anyhow ip4_tcp any_30000 built (Ok tt) range true ev_a ev_b).2 = Ends (Done (Ok tt)) <->
     outcome_of la = Some (Ok tt) /\ outcome_of lb = Some (Ok tt)).
Proof.
  intros built Ha Hb.
  pose proof (built_ok (E := E) ms : (build_bin built).2 = Ok tt) as Hbuilt.
  destruct (sim_open_started range) as (s & Es & Hup). pose proof (up_length _ _ Hup) as Hl.
  destruct (machines s) as [|a [|b [|]]] eqn:Em; try done.
  assert (Hia : m_id a = 0) by (eapply (up_machine s _ 0); [exact Hup|by rewrite Em]).
  assert (Hib : m_id b = 1) by (eapply (up_machine s _ 1); [exact Hup|by rewrite Em]).
  assert (Hmain : sim_open_main anyhow ip4_tcp any_30000 built (Ok tt) range true ev_a ev_b =
    (introductions_of ip4_tcp a b, goes_on ra (goes_on rb (Ends (Done (Ok tt)))))).
  { destruct (side_goes _ _ _ _ _ Ha) as (ev_a' & Hla & Hca). destruct (side_goes _ _ _ _ _ Hb) as (ev_b' & Hlb & Hcb).
    unfold sim_open_main. rewrite Hbuilt, Es. cbn [mbind outcome_bind]. rewrite Em. cbn [two_machines]. rewrite Hla, Hlb.
    unfold both_connect, machine_peer_id. rewrite Hia, Hib. change (Z.of_nat 1) with 1%Z. change (Z.of_nat 0) with 0%Z.
    by rewrite <- (Hcb (Ends (Done (Ok tt)))), <- Hca. }
  split.
  - exists s, a, b. split_and!; [done|done|by eapply up_runs, numbered_passable|by eapply up_runs, numbered_passable| |done].
    eapply (up_addresses _ _ Hup 0 1); [done|by rewrite Em|by rewrite Em|by rewrite !(up_plugged _ _ Hup)].
  - rewrite Hmain. cbn [snd]. rewrite goes_on_passes, goes_on_passes, (side_answer _ _ _ _ _ _ Ha), (side_answer _ _ _ _ _ _ Hb). naive_solver.
Qed.

Lemma prints_all peer (es : list Event.t) : exists lines, prints debug_failure peer es lines.
Proof.
  induction es as [|e es [lines IH]]; [exists []; constructor|].
  destruct (print_event debug_source debug_failure (fun _ => None) e) as [x|] eqn:Ex; eexists; by econstructor.
Qed.

(** Whatever happens to the books is one side of some run of the test, with any end if it
    does not decide. *)
Lemma side_exists B st peer tx (l : list happening) addr tail ans :
  book_wf B st -> is_Some (peers st !! peer) -> peer <> local_peer_id st -> Forall (happening_ok peer) l ->
  event_stream st = [tx] -> connected tx = true -> is_loopback addr = false ->
  match outcome_of l with Some r => ans = Decides r | None => ends_with tail ans end ->
  exists lines, side B peer l (Got (Some (CliEvent.NewListenAddr addr)) :: lines ++ tail) ans.
Proof.
  intros Hw Hi Hne Hl Hs Hc Hlo Ht. destruct (lives_judged B st peer l Hw Hi Hne Hl) as (st' & es & E1 & Hh & _).
  destruct (hears_queue _ _ _ _ Hh Hs Hc) as (tx' & Htx & Hq). destruct (prints_all peer es) as [lines Hp]. exists lines.
  by eapply (side_of B peer l [] addr st tx st' tx' es).
Qed.
End Test.

Section SimOpenWitness.
Import SimMain SimArgs SimNet.

Definition zero : @PeerId sim := 0%N.
Definition one : @PeerId sim := 1%N.
Definition at_30000 (n : Z) : @Multiaddr sim := [Ip4 (ip 10 0 0 n); Tcp 30000].

(** The book of a node that was told of the other. *)
Definition knows (self other : @PeerId sim) (n : Z) : @AddressBook utc_nanos sim sim_channels :=
  run (add_address (at_ns 5) (swarm_events (new self false false false) stream) other (at_30000 n) User).

Lemma knows_wf self other n : book_wf 0 (knows self other n).
Proof.
  unfold knows. destruct (add_address_total 0 (at_ns 5) (swarm_events (new self false false false) stream) other (at_30000 n) User)
    as (st & E & H & _).
  - destruct (book_new_wf (L := sim) 0 self false false false). by split.
  - by rewrite E.
Qed.

(** The first node dials a node it is connecting to, then a dial fails because the second
    node dials at the same time, then the connection comes and another one fails. *)
Definition at_once : list (@happening utc_nanos sim) :=
  [Fails ticks zeros (ByPeer DialPeerConditionFalse);
   Fails ticks zeros (ByPeer (DialTransport [(at_30000 11, TransportOther IoWrapNoise)]));
   Connects (at_ns 40) (at_ns 41) (Dialer (at_30000 11) tt) 0;
   Fails ticks zeros (ByPeer WrongPeerId)].
Definition is_called : list (@happening utc_nanos sim) :=
  [Connects (at_ns 40) (at_ns 41) (Listener (at_30000 11) (at_30000 10)) 0].

Lemma fails_ok peer e : happening_ok peer (Fails ticks zeros (ByPeer e) : @happening utc_nanos sim).
Proof. exact (conj zeros_ok I). Qed.

Lemma at_once_ok peer : Forall (happening_ok peer) at_once.
Proof.
  unfold at_once. rewrite !Forall_cons. split; [exact (fails_ok _ _)|]. split; [exact (fails_ok _ _)|].
  split; [exact I|]. split; [exact (fails_ok _ _)|constructor].
Qed.

Lemma is_called_ok peer : Forall (happening_ok peer) is_called.
Proof. apply Forall_singleton. exact I. Qed.

Lemma one_side self other n l tail ans :
  other <> self -> is_Some (peers (knows self other n) !! other) -> Forall (happening_ok other) l ->
  event_stream (knows self other n) = [hd stream (event_stream (knows self other n))] ->
  match outcome_of l with Some r => ans = Decides r | None => ends_with tail ans end ->
  local_peer_id (knows self other n) = self -> connected (hd stream (event_stream (knows self other n))) = true ->
  is_loopback (at_30000 n) = false -> exists lines, side (T := sim_text) (fun _ => "failure") 0 other l
    (Got (Some (CliEvent.NewListenAddr (at_30000 n))) :: lines ++ tail) ans.
Proof.
  intros Hne Hp Hl Hs Ha Hself Hc Hlo.
  apply (side_exists (T := sim_text) (fun _ => "failure") 0 (knows self other n) other (hd stream (event_stream (knows self other n))));
    try done; [apply knows_wf|by rewrite Hself].
Qed.

(** In the second run nothing decides on the first side in time. *)
Lemma sim_open_exact_witness : exists ev_a ev_b ev_c,
  (sim_open_main (N := sim_node) (NS := sim_netsim) (fun s => s) ip4 (ip4 0 30000) (Ok []) (Ok tt) 7%N true ev_a ev_b).2 =
    Ends (Done (Ok tt)) /\
  (exists w, (sim_open_main (N := sim_node) (NS := sim_netsim) (fun s => s) ip4 (ip4 0 30000) (Ok []) (Ok tt) 7%N true ev_c ev_b).2 =
    Ends (Panic w)).
Proof.
  destruct (one_side zero one 11 at_once [] (Decides (Ok tt)) ltac:(discriminate)
    ltac:(eexists; apply entry_known; vm_compute; reflexivity) (at_once_ok one)
    ltac:(reflexivity) ltac:(reflexivity) ltac:(reflexivity) ltac:(reflexivity) ltac:(reflexivity)) as [la Ha].
  destruct (one_side one zero 10 is_called [] (Decides (Ok tt)) ltac:(discriminate)
    ltac:(eexists; apply entry_known; vm_compute; reflexivity) (is_called_ok zero)
    ltac:(reflexivity) ltac:(reflexivity) ltac:(reflexivity) ltac:(reflexivity) ltac:(reflexivity)) as [lb Hb].
  destruct (one_side zero one 11 (take 2 at_once) [Late] TooLate ltac:(discriminate)
    ltac:(eexists; apply entry_known; vm_compute; reflexivity) (Forall_take _ 2 _ (at_once_ok one))
    ltac:(reflexivity) (too_late []) ltac:(reflexivity) ltac:(reflexivity) ltac:(reflexivity)) as [lc Hc].
  eexists _, _, _. split.
  - apply (proj2 (sim_open_exact (N := sim_node) (NS := sim_netsim) (SO := sim_args) (fun s => s) ip4 (ip4 0 30000) ltac:(reflexivity)
      (fun _ => "failure") 0 7%N [] _ _ _ _ _ _ Ha Hb)). split; reflexivity.
  - destruct (proj1 (sim_open_exact (N := sim_node) (NS := sim_netsim) (SO := sim_args) (fun s => s) ip4 (ip4 0 30000) ltac:(reflexivity)
      (fun _ => "failure") 0 7%N [] _ _ _ _ _ _ Hc Hb)) as (s & a & b & _ & _ & _ & _ & _ & H).
    eexists. exact (f_equal snd H).
Defined.
End SimOpenWitness.
